(* ===== verification/_CoqProject ===== *)
-Q . S2P
Prelude.v
Bytes.v
Error.v
Parameters.v
Provider.v
Crypto.v
Vendors.v
Backends.v
BackendsFacts.v
Reference.v
Key.v
Buffer.v
Spec.v
State.v
StateFacts.v
StateProperties.v
StdIo.v
Wire.v
Online.v
Io.v
Display.v
RandomAccess.v
OnlineFacts.v
BufferProperties.v
OnlineMessages.v
DebugText.v
RandomAccessMessages.v
RandomAccessFacts.v
ForkProperties.v
RandomAccessReads.v
RandomAccessOpening.v
RandomAccessProperties.v
StreamFacts.v
OnlineRuns.v
OnlineProperties.v
Binding.v
DebugProperties.v
EncryptWriterFacts.v
EncryptReaderFacts.v
DecryptReaderFacts.v
DecryptReaderMessages.v
IoProperties.v
IoProgress.v
BackendsProperties.v
