(* ===== verification/Prelude.v ===== *)
(** * fast-floe: verification of a Rust implementation of FLOE

    FLOE encrypts a message of any length in segments that are authenticated one
    by one, each under a key derived for its position. The crate under [src/src]
    implements it over four cryptographic crates. This development translates the
    crate's code into Rocq and proves that it implements the specification
    [src/spec/FLOE-SPEC.md], for every sequence of calls and every failure of what
    it is built on.

    ** The parts of the program, and the files that model them

    A call of a program goes down this list and stops at the level it needs.
    - [io.rs]: [EncryptWriter], [EncryptReader], [DecryptReader]. They hold an
      online state and a segment buffer and move bytes to or from a wrapped
      reader or writer. Model: [Io.v].
    - [random_access.rs]: [Reader], reads at any offset of a complete message in a
      seekable source. It holds a [DecryptionState], a layout and a segment
      buffer. Model: [RandomAccess.v].
    - [wire.rs]: the reading loops and the error constructors that both share, and
      [split_header]. Model: [Wire.v], over the [std::io] traits of [StdIo.v].
    - [online.rs]: [Encryptor] and [Decryptor], which count positions and close
      with the final segment, and [encrypt] and [decrypt] on whole messages.
      Model: [Online.v].
    - [state.rs]: headers, key derivation and the key cache, nonces, and one segment
      at a time in four variants (allocating, into an output, in place in caller
      storage, in place in a segment buffer); contexts shared between states.
      Model: [State.v].
    - [buffer.rs]: the segment buffer. Model: [Buffer.v].
    - [parameters.rs]: parameter sets, layouts, the segment iterator, framing.
      Model: [Parameters.v].
    - [key.rs], [provider.rs]: keys and the choice of a backend. Model: [Key.v],
      [Provider.v].
    - [backends.rs]: the wrappers of the four crates and their generators. Model:
      [Backends.v]; the crates are parameters, in [Vendors.v].
    - [error.rs]: errors and their texts. Model: [Error.v], [Display.v].
    - [lib.rs]: the build must enable a provider, which is the law of the class
      [Features] of [Provider.v]; the rest is declarations and re-exports.
    - The [Debug] texts of all of these, derived and written by hand, are in
      [DebugText.v].
    [Spec.v] is the pseudo-code of the specification, and [Reference.v] and the
    modules named [...Examples] are concrete instances to which the theorems are
    applied.

    ** How the code is written in Rocq

    - A Rust integer is a [Z]; every operation that may overflow goes through [u64],
      [usize] (a panic), or [checked_u64] and the like (the code's own error). The
      width of [usize] is a parameter ([Target], 32 or 64 bits), as the code's own
      assertion allows.
    - A [Result] is an [outcome]: a value, an error, or [Halt], which is a panic or
      a loop that ran out of fuel. Nothing is a value that the code does not
      return.
    - [&mut] arguments are cells of the state of a monad ([M E S A]); [zoom] with a
      [lens] lends a field or a part of a slice; an error leaves the cells as the
      code left them. [wp] is its weakest precondition, with which most lemmas
      are stated.
    - A struct is a [Record] named [t] in a [Module] of the struct's name, a method
      a definition of the method's name.
    - Traits and the code that is not in the repository are classes: [Read], [Write],
      [Seek] (with [ReadOk], [WriteOk], [SeekOk], what their documentation
      promises), [Backend] (with [BackendOk]), the crates of [Vendors.v]. The
      clients are proved against the interface; [BackendsFacts.v] proves that
      [backends.rs] implements [BackendOk] over crates that behave as documented.
    - [Primitives] are AES-256-GCM and HMAC-SHA-384 as functions, with the laws that
      the specification needs (decryption inverts encryption; what opens was
      sealed). No theorem is about secrecy or unforgeability.

    ** What the theorems show

    - [Parameters.v]: parameters are encoded injectively; layouts are recovered
      from the length of a ciphertext, tile both texts and fail exactly when they
      are documented to; framing accepts exactly what the encoder writes.
    - [BufferProperties.v], on [Buffer.v]: an invariant of every buffer that
      methods, raw writes and in-place operations can reach, and what each leaves.
    - [StateProperties.v], on [StateFacts.v]: starting a message and each segment
      refine the specification, the four variants agree, round trips, what failures
      in place leave, the key cache is invisible and nonces are never reused.
    - [OnlineProperties.v], on [OnlineFacts.v], [OnlineMessages.v], [OnlineRuns.v]:
      [encrypt] and [decrypt] compute and accept exactly the specification's
      messages and invert each other; no truncation or extension is accepted; any
      sequence of calls on the sequential states, with errors in between, is a run
      of the specification.
    - [IoProperties.v], on [StreamFacts.v], [EncryptWriterFacts.v],
      [EncryptReaderFacts.v], [DecryptReaderFacts.v], [DecryptReaderMessages.v]: any
      sequence of calls on an adapter, over readers and writers that split,
      interrupt and fail, is a run of a protocol, in which a reader is poisoned only
      after an error with a cause; what is written is a message of what was
      accepted, what is released is authenticated. A writer survives the error of a
      flush ([failed_flush_keeps_writer_usable]), unlike what a comment of the code
      says.
    - [IoProgress.v]: a program that keeps reading comes to the end.
    - [ForkProperties.v]: states forked from one context encrypt and decrypt the
      segments of a message in parallel, in any order and interleaving.
    - [RandomAccessProperties.v], on [RandomAccessMessages.v],
      [RandomAccessFacts.v], [RandomAccessReads.v], [RandomAccessOpening.v]: what
      opens, and that any sequence of reads and seeks gives authentic bytes of the
      requested offsets - on an accepted message, a seekable file with the
      plaintext as contents.
    - [Binding.v]: an accepted message fixes its key, its associated data and the
      order of its segments. As no law of [Primitives] is about security, the
      theorems give the alternative explicitly: two inputs of HMAC with one tag,
      or one AES-GCM output for two different associated data.
    - [DebugProperties.v]: noninterference of the [Debug] texts. Keys, associated
      data, nonces, plaintexts and look-ahead bytes have no influence on them.
    - [BackendsProperties.v]: the providers are interchangeable.
    - [Display.v]: texts tell errors apart.

    ** Fuel

    The loops whose end depends on the wrapped reader or writer take [fuel]:
    [read_fully], [write_all] and the loop of [drain_message]. A documented reader
    is interrupted finitely often ([patience]) and has finitely many bytes, so any
    fuel above their sum ([enough], [enough_source]; [write_enough] for a writer,
    which has to take at most one segment at a time) is enough: the theorems state
    that nothing then runs out of it. The loop over segments in [decrypt_body] has
    one more than the length of the body as fuel, and every segment has at least
    32 bytes.

    ** Not modelled

    - The texts of errors of wrapped readers and writers and of [io::Error] itself,
      which are arguments ([display_io_error], the instance [Debug IoError.t]).
    - Zeroization of locals and of freed memory: a local that is wiped is gone.
      The wiping of a buffer that outlives the call is modelled and proved.
    - An allocation that fails for lack of memory. One above [isize::MAX] bytes
      panics and is modelled ([vec_zeroed]).
    - Tests, examples, benchmarks and fuzzing: they call the crate and hold no
      logic of it.
    - Threads: a shared context is immutable and every fork has a cache and a
      generator of its own, so that an execution of several threads is an
      interleaving of calls ([ForkProperties.v]); the memory model is Rust's.
      The operating system's entropy is a value that each generator draws from
      ([Entropy]); nothing is assumed of what it holds. *)

From stdpp Require Export prelude.
From Stdlib Require Export ZArith Lia.
From Stdlib Require Strings.Byte.


Declare Scope floe_scope.
Delimit Scope floe_scope with floe.
Open Scope Z_scope.
Open Scope floe_scope.

(** ** Outcomes *)

(** Why a computation gave no value: a Rust panic (an index out of range, an
    arithmetic overflow, a failed [expect]), or a loop that ran out of fuel. *)
Inductive halt :=
| Panicked
| OutOfFuel.

(** [Result<A, E>] with the third way a Rust function can end. *)
Inductive outcome (E A : Type) :=
| Ok (a : A)
| Err (e : E)
| Halt (h : halt).
Arguments Ok {E A} a.
Arguments Err {E A} e.
Arguments Halt {E A} h.

Definition panic {E A} : outcome E A := Halt Panicked.

Definition obind {E A B} (o : outcome E A) (k : A -> outcome E B) : outcome E B :=
  match o with
  | Ok a => k a
  | Err e => Err e
  | Halt h => Halt h
  end.

(** [Result::map_err]. *)
Definition map_err {E F A} (f : E -> F) (o : outcome E A) : outcome F A :=
  match o with
  | Ok a => Ok a
  | Err e => Err (f e)
  | Halt h => Halt h
  end.

(** [Result::map]. *)
Definition omap_ok {E A B} (f : A -> B) (o : outcome E A) : outcome E B :=
  match o with
  | Ok a => Ok (f a)
  | Err e => Err e
  | Halt h => Halt h
  end.

(** [Option::ok_or]. *)
Definition ok_or {E A} (o : option A) (e : E) : outcome E A :=
  match o with Some a => Ok a | None => Err e end.

(** [Option::expect]. *)
Definition expect {E A} (o : option A) : outcome E A :=
  match o with Some a => Ok a | None => panic end.

(** [Result::is_ok], for computations that may also halt. *)
Definition is_ok {E A} (o : outcome E A) : bool :=
  match o with Ok _ => true | _ => false end.

(** A computation that ended with a value or an error. *)
Definition returns {E A} (o : outcome E A) : Prop :=
  match o with Halt _ => False | _ => True end.

Notation "'let*' x := o 'in' k" := (obind o (fun x => k))
  (at level 10, x pattern, o at level 100, k at level 200) : floe_scope.

(** ** Stateful computations

    [M E S A] is a function with [&mut] arguments of type [S]: it returns its
    outcome together with the arguments' new contents, on errors as well. *)
Definition M (E S A : Type) : Type := S -> outcome E A * S.

Section Monad.
Context {E : Type}.

Definition ret {S A} (a : A) : M E S A := fun s => (Ok a, s).
Definition fail {S A} (e : E) : M E S A := fun s => (Err e, s).
Definition halted {S A} (h : halt) : M E S A := fun s => (Halt h, s).
Definition get {S} : M E S S := fun s => (Ok s, s).
Definition put {S} (s : S) : M E S unit := fun _ => (Ok tt, s).
Definition modify {S} (f : S -> S) : M E S unit := fun s => (Ok tt, f s).
Definition lift {S A} (o : outcome E A) : M E S A := fun s => (o, s).

Definition bindM {S A B} (m : M E S A) (k : A -> M E S B) : M E S B :=
  fun s =>
    match m s with
    | (Ok a, s') => k a s'
    | (Err e, s') => (Err e, s')
    | (Halt h, s') => (Halt h, s')
    end.

(** [match m { Ok(a) => k(a), Err(e) => h(e) }]: both arms run in the state
    the computation left. *)
Definition matchM {S A B} (m : M E S A) (k : A -> M E S B) (h : E -> M E S B) : M E S B :=
  fun s =>
    match m s with
    | (Ok a, s') => k a s'
    | (Err e, s') => h e s'
    | (Halt x, s') => (Halt x, s')
    end.

(** [if !c { return Err(e) }]. *)
Definition ensure {S} (c : bool) (e : E) : M E S unit := if c then ret tt else fail e.

End Monad.

Notation "'let!' x := m 'in' k" := (bindM m (fun x => k))
  (at level 10, x pattern, m at level 100, k at level 200) : floe_scope.
Notation "'let?' x := o 'in' k" := (bindM (lift o) (fun x => k))
  (at level 10, x pattern, o at level 100, k at level 200) : floe_scope.
Notation "'do!' m 'in' k" := (bindM m (fun _ => k))
  (at level 10, m at level 100, k at level 200) : floe_scope.
Notation "'do?' o 'in' k" := (bindM (lift o) (fun _ => k))
  (at level 10, o at level 100, k at level 200) : floe_scope.

(** A change of error type, as [map_err] on a call that has [&mut] arguments. *)
Definition map_errM {E F S A} (f : E -> F) (m : M E S A) : M F S A :=
  fun s => let (r, s') := m s in (map_err f r, s').

(** ** Borrowing a part of the state *)

(** The part [T] of a state [S] that a call borrows mutably. *)
Record lens (S T : Type) := mkLens {
  view : S -> T;
  update : S -> T -> S
}.
Arguments mkLens {S T}.
Arguments view {S T}.
Arguments update {S T}.

Definition zoom {E S T A} (l : lens S T) (m : M E T A) : M E S A :=
  fun s => let (r, t) := m (view l s) in (r, update l s t).

(** A call that borrows a local variable [x] of the caller: its final value is
    returned with the result. *)
Definition with_local {E S X A} (x : X) (m : M E (S * X) A) : M E S (A * X) :=
  fun s =>
    let (r, cells) := m (s, x) in
    (omap_ok (fun a => (a, snd cells)) r, fst cells).

Definition lens_id {S} : lens S S := mkLens (fun s => s) (fun _ t => t).
Definition lens_fst {S T} : lens (S * T) S := mkLens fst (fun p s => (s, snd p)).
Definition lens_snd {S T} : lens (S * T) T := mkLens snd (fun p t => (fst p, t)).

(** ** Machine integers

    Arithmetic is written as [u64 (a + b)]: the value when it fits the type,
    a panic when it does not, as a build with overflow checks behaves. A
    theorem that such a computation returns therefore also covers a build
    that wraps, because no operation leaves its range. *)

Definition u32_max : Z := 2 ^ 32 - 1.
Definition u64_max : Z := 2 ^ 64 - 1.

Definition in_u32 (z : Z) : Prop := 0 <= z <= u32_max.
Definition in_u64 (z : Z) : Prop := 0 <= z <= u64_max.

Definition in_range (hi z : Z) : bool := (0 <=? z) && (z <=? hi).

Definition u32 {E} (z : Z) : outcome E Z := if in_range u32_max z then Ok z else panic.
Definition u64 {E} (z : Z) : outcome E Z := if in_range u64_max z then Ok z else panic.

(** [checked_add] and its relatives on [u64]. *)
Definition checked_u64 (z : Z) : option Z := if in_range u64_max z then Some z else None.

(** The width of [usize]: the crate's build rejects every other width. *)
Class Target := {
  usize_bits : Z;
  usize_bits_cases : usize_bits = 32 \/ usize_bits = 64
}.

#[export] Instance target32 : Target := {| usize_bits := 32; usize_bits_cases := or_introl eq_refl |}.
#[export] Instance target64 : Target := {| usize_bits := 64; usize_bits_cases := or_intror eq_refl |}.

Section Usize.
Context {T : Target}.

Definition usize_max : Z := 2 ^ usize_bits - 1.

(** No Rust allocation is larger than [isize::MAX] bytes. *)
Definition isize_max : Z := 2 ^ (usize_bits - 1) - 1.

Definition usize {E} (z : Z) : outcome E Z := if in_range usize_max z then Ok z else panic.
Definition checked_usize (z : Z) : option Z := if in_range usize_max z then Some z else None.

(** [usize::try_from] on an unsigned integer. *)
Definition usize_try_from (z : Z) : option Z := if z <=? usize_max then Some z else None.

End Usize.

(** ** Byte strings *)

Abbreviation byte := Init.Byte.byte.
Abbreviation bytes := (list Init.Byte.byte).
Abbreviation zero_byte := Init.Byte.x00.

#[export] Instance byte_eq_decision : EqDecision byte := Strings.Byte.byte_eq_dec.

Definition zlen {A} (l : list A) : Z := Z.of_nat (length l).
Definition ztake {A} (n : Z) (l : list A) : list A := take (Z.to_nat n) l.
Definition zdrop {A} (n : Z) (l : list A) : list A := drop (Z.to_nat n) l.
Definition zeros (n : Z) : bytes := replicate (Z.to_nat n) zero_byte.

(** The bytes [l[a..b]] of a slice, and the slice after [src] is written at [a]. *)
Definition slice {A} (l : list A) (a b : Z) : list A := ztake (b - a) (zdrop a l).
Definition splice {A} (l : list A) (a : Z) (src : list A) : list A :=
  ztake a l ++ src ++ zdrop (a + zlen src) l.

Definition range_ok {A} (l : list A) (a b : Z) : bool :=
  (0 <=? a) && (a <=? b) && (b <=? zlen l).

(** [&l[a..b]]: a panic when the range is not inside the slice. *)
Definition index {E A} (l : list A) (a b : Z) : outcome E (list A) :=
  if range_ok l a b then Ok (slice l a b) else panic.

(** [l[a..b].copy_from_slice(src)]: a panic on a range outside the slice and
    on a length mismatch. *)
Definition copy_to {E A} (l : list A) (a b : Z) (src : list A) : outcome E (list A) :=
  if range_ok l a b && (zlen src =? b - a) then Ok (splice l a src) else panic.

(** A call that borrows [&mut l[a..b]]. *)
Definition zoom_range {E X A} (a b : Z) (m : M E (list X) A) : M E (list X) A :=
  fun l =>
    if range_ok l a b then
      let (r, sub) := m (slice l a b) in (r, splice l a sub)
    else (panic, l).

(** The same, for a call that borrows another part of the state as well. *)
Definition zoom_range_snd {E S X A} (a b : Z) (m : M E (S * list X) A) : M E (S * list X) A :=
  fun s =>
    if range_ok (snd s) a b then
      let (r, sub) := m (fst s, slice (snd s) a b) in (r, (fst sub, splice (snd s) a (snd sub)))
    else (panic, s).

(** [<[T; N]>::try_from(&[T])]. *)
Definition try_into_array {A} (n : Z) (l : list A) : option (list A) :=
  if zlen l =? n then Some l else None.

Section Vec.
Context {T : Target}.

(** [vec![0; n]] and [Vec::with_capacity(n)] panic when [n] bytes exceed
    [isize::MAX]; running out of memory is not modelled. *)
Definition vec_zeroed {E} (n : Z) : outcome E bytes :=
  if in_range isize_max n then Ok (zeros n) else panic.
Definition vec_with_capacity {E} (n : Z) : outcome E bytes :=
  if in_range isize_max n then Ok [] else panic.

(** [v.resize(n, 0)]. *)
Definition vec_resize {E} (v : bytes) (n : Z) : outcome E bytes :=
  if in_range isize_max n then Ok (ztake n v ++ zeros (n - zlen v)) else panic.

(** The length every Rust slice and vector of bytes has. *)
Definition slice_ok (l : bytes) : Prop := zlen l <= isize_max.

End Vec.

(** * Lemmas and automation *)

(** ** Outcomes and monadic steps *)

Lemma bindM_assoc {E S A B C} (m : M E S A) (f : A -> M E S B) (g : B -> M E S C) s :
  bindM (bindM m f) g s = bindM m (fun a => bindM (f a) g) s.
Proof. unfold bindM. by destruct (m s) as [[] ?]. Qed.

Lemma bindM_ok {E S A B} (m : M E S A) (k : A -> M E S B) s a s' :
  m s = (Ok a, s') -> bindM m k s = k a s'.
Proof. unfold bindM. by intros ->. Qed.

Lemma bindM_err {E S A B} (m : M E S A) (k : A -> M E S B) s e s' :
  m s = (Err e, s') -> bindM m k s = (Err e, s').
Proof. unfold bindM. by intros ->. Qed.

Lemma bindM_inv_ok {E S A B} (m : M E S A) (k : A -> M E S B) s b s' :
  bindM m k s = (Ok b, s') -> exists a s1, m s = (Ok a, s1) /\ k a s1 = (Ok b, s').
Proof. unfold bindM. destruct (m s) as [[] ?]; naive_solver. Qed.

Lemma obind_inv_ok {E A B} (o : outcome E A) (k : A -> outcome E B) b :
  obind o k = Ok b -> exists a, o = Ok a /\ k a = Ok b.
Proof. destruct o; naive_solver. Qed.

Lemma omap_ok_id {E A} (o : outcome E A) : omap_ok (fun a => a) o = o.
Proof. by destruct o. Qed.

Lemma ok_inj {E A} {a b : A} : Ok (E := E) a = Ok b -> a = b.
Proof. congruence. Qed.

Lemma ok_pair_inj {E A B} {a c : A} {b d : B} : Ok (E := E) (a, b) = Ok (c, d) -> a = c /\ b = d.
Proof. intros [= -> ->]. by split. Qed.

Lemma zoom_eq {E S T A} (l : lens S T) (m : M E T A) s r t :
  m (view l s) = (r, t) -> zoom l m s = (r, update l s t).
Proof. unfold zoom. by intros ->. Qed.

(** ** A weakest precondition for [M]

    [wp m s Q]: running [m] on the cells [s] ends in an outcome and contents
    that satisfy [Q]. *)
Definition wp {E S A} (m : M E S A) (s : S) (Q : outcome E A -> S -> Prop) : Prop :=
  Q (fst (m s)) (snd (m s)).

Section WpLemmas.
Context {E : Type}.

Lemma wp_eq {S A} (m : M E S A) s r s' (Q : outcome E A -> S -> Prop) :
  m s = (r, s') -> Q r s' -> wp m s Q.
Proof. unfold wp. by intros ->. Qed.

Lemma wp_run {S A} (m : M E S A) s (Q : outcome E A -> S -> Prop) :
  wp m s Q -> exists r s', m s = (r, s') /\ Q r s'.
Proof. unfold wp. destruct (m s); eauto. Qed.

Lemma wp_mono {S A} (m : M E S A) s (P Q : outcome E A -> S -> Prop) :
  wp m s P -> (forall r s', P r s' -> Q r s') -> wp m s Q.
Proof. unfold wp; auto. Qed.

Lemma wp_ret {S A} (a : A) (s : S) (Q : outcome E A -> S -> Prop) : Q (Ok a) s -> wp (ret a) s Q.
Proof. done. Qed.

Lemma wp_fail {S A} (e : E) (s : S) (Q : outcome E A -> S -> Prop) : Q (Err e) s -> wp (fail e) s Q.
Proof. done. Qed.

Lemma wp_lift {S A} (o : outcome E A) (s : S) Q : Q o s -> wp (lift o) s Q.
Proof. done. Qed.

Lemma wp_get {S} (s : S) (Q : outcome E S -> S -> Prop) : Q (Ok s) s -> wp get s Q.
Proof. done. Qed.

Lemma wp_put {S} (s t : S) (Q : outcome E unit -> S -> Prop) : Q (Ok tt) t -> wp (put t) s Q.
Proof. done. Qed.

Lemma wp_modify {S} (f : S -> S) (s : S) (Q : outcome E unit -> S -> Prop) :
  Q (Ok tt) (f s) -> wp (modify f) s Q.
Proof. done. Qed.

Lemma wp_bind {S A B} (m : M E S A) (k : A -> M E S B) s Q :
  wp m s (fun r s' =>
    match r with
    | Ok a => wp (k a) s' Q
    | Err e => Q (Err e) s'
    | Halt h => Q (Halt h) s'
    end) ->
  wp (bindM m k) s Q.
Proof. unfold wp, bindM. by destruct (m s) as [[] ?]. Qed.

(** A pure step, whatever it gives. *)
Lemma wp_bind_lift {S A B} (o : outcome E A) (k : A -> M E S B) s Q :
  (forall a, o = Ok a -> wp (k a) s Q) -> (forall r, (forall a, r <> Ok a) -> Q r s) -> wp (bindM (lift o) k) s Q.
Proof. intros Hk Hq. apply wp_bind, wp_lift. destruct o; [by apply Hk|by apply Hq..]. Qed.

Lemma wp_match {S A B} (m : M E S A) (k : A -> M E S B) (h : E -> M E S B) s Q :
  wp m s (fun r s' =>
    match r with
    | Ok a => wp (k a) s' Q
    | Err e => wp (h e) s' Q
    | Halt x => Q (Halt x) s'
    end) ->
  wp (matchM m k h) s Q.
Proof. unfold wp, matchM. by destruct (m s) as [[] ?]. Qed.

Lemma wp_zoom {S T A} (l : lens S T) (m : M E T A) s Q :
  wp m (view l s) (fun r t => Q r (update l s t)) -> wp (zoom l m) s Q.
Proof. unfold wp, zoom. by destruct (m _). Qed.

Lemma wp_zoom_range {X A} a b (m : M E (list X) A) l Q :
  range_ok l a b = true ->
  wp m (slice l a b) (fun r sub => Q r (splice l a sub)) -> wp (zoom_range a b m) l Q.
Proof. unfold wp, zoom_range. intros ->. by destruct (m _). Qed.

Lemma wp_zoom_range_snd {S X A} a b (m : M E (S * list X) A) (s : S * list X) Q :
  range_ok (snd s) a b = true ->
  wp m (fst s, slice (snd s) a b) (fun r sub => Q r (fst sub, splice (snd s) a (snd sub))) ->
  wp (zoom_range_snd a b m) s Q.
Proof. unfold wp, zoom_range_snd. intros ->. by destruct (m _). Qed.

Lemma wp_with_local {S X A} (x : X) (m : M E (S * X) A) s Q :
  wp m (s, x) (fun r cells => Q (omap_ok (fun a => (a, snd cells)) r) (fst cells)) ->
  wp (with_local x m) s Q.
Proof. unfold wp, with_local. by destruct (m _). Qed.

Lemma wp_ensure {S} (c : bool) e (s : S) (Q : outcome E unit -> S -> Prop) :
  (c = true -> Q (Ok tt) s) -> (c = false -> Q (Err e) s) -> wp (ensure c e) s Q.
Proof. destruct c; unfold wp; simpl; auto. Qed.

Lemma wp_map_err {F S A} (f : E -> F) (m : M E S A) s Q :
  wp m s (fun r s' => Q (map_err f r) s') -> wp (map_errM f m) s Q.
Proof. unfold wp, map_errM. by destruct (m s). Qed.

End WpLemmas.

(** [cells] reduces the projections of cells, and nothing else. *)
Ltac cells := cbn [fst snd view update lens_id lens_fst lens_snd].

(** Refutes an equation whose evaluation gives an [Ok] against an error. *)
Ltac settle E :=
  exfalso;
  first [apply (f_equal is_ok) in E | apply (f_equal (fun x => is_ok (fst x))) in E];
  vm_compute in E; discriminate E.

(** ** Runs of a step relation

    A client calls operations one after the other on the same state, whatever
    they return. [perform] executes the calls and logs the results; a
    simulation of one operation by a step relation extends to the log. *)

Section Runs.
Context {S L : Type} (step : S -> L -> S -> Prop).

Inductive run : S -> list L -> S -> Prop :=
| run_nil s : run s [] s
| run_cons s l s' ls s'' : step s l s' -> run s' ls s'' -> run s (l :: ls) s''.

Lemma run_snoc s log s' l s'' : run s log s' -> step s' l s'' -> run s (log ++ [l]) s''.
Proof. induction 1 as [|s l1 s1 log s2 H Hrun IH]; intros Hstep; cbn [app]; econstructor; eauto using run_nil. Qed.

Lemma run_forall (Q : L -> Prop) s log s' :
  (forall s l s', step s l s' -> Q l) -> run s log s' -> Forall Q log.
Proof. intros H. induction 1; constructor; eauto. Qed.

End Runs.

(** A run of one relation is a run of another, when an invariant makes its steps
    steps of the other. *)
Lemma run_mono {S L} (step step' : S -> L -> S -> Prop) (I : S -> Prop) s log s' :
  (forall s l s', I s -> step s l s' -> I s' /\ step' s l s') -> I s -> run step s log s' -> run step' s log s'.
Proof.
  intros Hstep HI Hrun. induction Hrun as [|s l s1 log s2 H Hrun IH]; [constructor|].
  destruct (Hstep _ _ _ HI H). econstructor; eauto.
Qed.

Section Perform.
Context {E S C A St : Type} (op : C -> M E S A).

Fixpoint perform (calls : list C) (s : S) : list (C * outcome E A) * S :=
  match calls with
  | [] => ([], s)
  | call :: calls =>
      let (r, s) := op call s in
      let (log, s) := perform calls s in
      ((call, r) :: log, s)
  end.

(** The log has an entry for each call. *)
Lemma perform_calls calls s log s' : perform calls s = (log, s') -> map fst log = calls.
Proof.
  revert s log. induction calls as [|c calls IH]; intros s log H; cbn [perform] in H.
  - by injection H as <- <-.
  - destruct (op c s) as [r s1]. destruct (perform calls s1) as [log2 s2] eqn:E2.
    injection H as <- <-. cbn [map fst]. f_equal. by eapply IH.
Qed.

Lemma perform_length calls s log s' : perform calls s = (log, s') -> length log = length calls.
Proof. intros <-%perform_calls. by rewrite length_map. Qed.

Lemma perform_run (I : S -> Prop) (ok : C -> Prop) (abs : S -> St) (step : St -> C * outcome E A -> St -> Prop) :
  (forall c s, I s -> ok c -> wp (op c) s (fun r s' => I s' /\ step (abs s) (c, r) (abs s'))) ->
  forall calls s log s', I s -> Forall ok calls -> perform calls s = (log, s') ->
  I s' /\ run step (abs s) log (abs s').
Proof.
  intros Hop calls. induction calls as [|c calls IH]; intros s log s' Hs Hok H; cbn [perform] in H.
  - injection H as <- <-. split; [done|constructor].
  - apply Forall_cons in Hok as [Hc Hok]. specialize (Hop c s Hs Hc). unfold wp in Hop.
    destruct (op c s) as [r s1]. destruct Hop as [Hs1 Hstep].
    destruct (perform calls s1) as [log2 s2] eqn:E2. injection H as <- <-.
    destruct (IH _ _ _ Hs1 Hok E2) as [? ?]. split; [done|by econstructor].
Qed.

(** An invariant of the log and the state. *)
Lemma perform_invariant (I : list (C * outcome E A) -> S -> Prop) (ok : C -> Prop) :
  (forall log c s, I log s -> ok c -> wp (op c) s (fun r s' => I (log ++ [(c, r)]) s')) ->
  forall calls log s log' s', I log s -> Forall ok calls -> perform calls s = (log', s') -> I (log ++ log') s'.
Proof.
  intros Hop calls. induction calls as [|c calls IH]; intros log s log' s' Hs Hok H; cbn [perform] in H.
  - injection H as <- <-. by rewrite app_nil_r.
  - apply Forall_cons in Hok as [Hc Hok]. specialize (Hop log c s Hs Hc). unfold wp in Hop.
    destruct (op c s) as [r s1]. destruct (perform calls s1) as [log2 s2] eqn:E2. injection H as <- <-.
    change ((c, r) :: log2) with ([(c, r)] ++ log2). rewrite app_assoc. by eapply IH.
Qed.

End Perform.

(** ** Computations that succeed *)

(** What a computation leaves when it succeeds. *)
Definition on_ok {E S A} (m : M E S A) (s : S) (Q : S -> Prop) : Prop :=
  wp m s (fun r s' => match r with Ok _ => Q s' | _ => True end).

Section OnOk.
Context {E : Type}.

Lemma on_ok_any {S A} (m : M E S A) s (Q : S -> Prop) : (forall s', Q s') -> on_ok m s Q.
Proof. intros H. unfold on_ok, wp. destruct (m s) as [[] ?]; cbn; auto. Qed.

Lemma on_ok_mono {S A} (m : M E S A) s (P Q : S -> Prop) : on_ok m s P -> (forall s', P s' -> Q s') -> on_ok m s Q.
Proof. unfold on_ok, wp. destruct (m s) as [[] ?]; cbn; auto. Qed.

Lemma on_ok_bind {S A A'} (m : M E S A) (k : A -> M E S A') s (P Q : S -> Prop) :
  on_ok m s P -> (forall a s', P s' -> on_ok (k a) s' Q) -> on_ok (bindM m k) s Q.
Proof. unfold on_ok, wp, bindM. destruct (m s) as [[] ?]; cbn; [|done..]. intros Hm Hk. by apply Hk. Qed.

(** A part of the computation that is a value, a check or a read of the cells. *)
Lemma on_ok_lift {S A A'} (o : outcome E A) (k : A -> M E S A') s (Q : S -> Prop) :
  (forall a, o = Ok a -> on_ok (k a) s Q) -> on_ok (bindM (lift o) k) s Q.
Proof. unfold on_ok, wp, bindM, lift. destruct o; cbn; [|done..]. intros Hk. by apply Hk. Qed.

Lemma on_ok_get {S A'} (k : S -> M E S A') s (Q : S -> Prop) : on_ok (k s) s Q -> on_ok (bindM get k) s Q.
Proof. done. Qed.

Lemma on_ok_ret {S A} (a : A) (s : S) (Q : S -> Prop) : Q s -> on_ok (E := E) (ret a) s Q.
Proof. done. Qed.

Lemma on_ok_if {S A} (c : bool) (m m' : M E S A) s (Q : S -> Prop) :
  on_ok m s Q -> on_ok m' s Q -> on_ok (if c then m else m') s Q.
Proof. by destruct c. Qed.

Lemma on_ok_fail {S A} e (s : S) (Q : S -> Prop) : on_ok (E := E) (fail (A := A) e) s Q.
Proof. done. Qed.

Lemma on_ok_zoom {S X A} (l : lens S X) (m : M E X A) s (Q : S -> Prop) :
  on_ok m (view l s) (fun x => Q (update l s x)) -> on_ok (zoom l m) s Q.
Proof. unfold on_ok, wp, zoom. destruct (m (view l s)) as [[] ?]; cbn; auto. Qed.

Lemma on_ok_zoom_range_snd {S X A} a b (m : M E (S * list X) A) s (Q : S * list X -> Prop) :
  on_ok m (fst s, slice (snd s) a b) (fun c => Q (fst c, splice (snd s) a (snd c))) ->
  on_ok (zoom_range_snd a b m) s Q.
Proof. unfold on_ok, wp, zoom_range_snd. destruct (range_ok _ _ _); [|done]. destruct (m _) as [[] ?]; cbn; auto. Qed.

Lemma on_ok_with_local {S X A} (x : X) (m : M E (S * X) A) s (Q : S -> Prop) :
  on_ok m (s, x) (fun c => Q (fst c)) -> on_ok (with_local x m) s Q.
Proof. unfold on_ok, wp, with_local. destruct (m (s, x)) as [[] ?]; cbn; auto. Qed.

Lemma on_ok_match {S A A'} (m : M E S A) (k : A -> M E S A') h s (P Q : S -> Prop) :
  on_ok m s P -> (forall a s', P s' -> on_ok (k a) s' Q) -> (forall e s', on_ok (h e) s' Q) -> on_ok (matchM m k h) s Q.
Proof. unfold on_ok, wp, matchM. destruct (m s) as [[] ?]; cbn; [|intros _ _ Hh; apply Hh|done]. intros Hm Hk _. by apply Hk. Qed.

End OnOk.

(** A log without errors. *)
Definition all_ok {E C A} (log : list (C * outcome E A)) : Prop := Forall (fun entry => is_ok (snd entry) = true) log.

Lemma all_ok_snoc {E C A} (log : list (C * outcome E A)) c r : all_ok (log ++ [(c, r)]) <-> all_ok log /\ is_ok r = true.
Proof. unfold all_ok. by rewrite Forall_app, Forall_singleton. Qed.

(** Calls that succeed all make the same step. *)
Lemma perform_iter {E S C A X} (op : C -> M E S A) (f : S -> X) (g : X -> X) calls s log s' :
  (forall c s, on_ok (op c) s (fun s' => f s' = g (f s))) ->
  perform op calls s = (log, s') -> all_ok log -> f s' = Nat.iter (length calls) g (f s).
Proof.
  intros Hop Hrun. rewrite <- (perform_length _ _ _ _ _ Hrun). revert Hrun.
  assert (forall log0 c s0, (all_ok log0 -> f s0 = Nat.iter (length log0) g (f s)) -> True ->
    wp (op c) s0 (fun r s1 => all_ok (log0 ++ [(c, r)]) -> f s1 = Nat.iter (length (log0 ++ [(c, r)])) g (f s))) as Hinv.
  { intros log0 c s0 Hs _. specialize (Hop c s0). unfold on_ok, wp in *.
    destruct (op c s0) as [[a|e|h] s1]; cbn in *; intros [Hok H]%all_ok_snoc; [|done..].
    by rewrite length_app, Nat.add_1_r, Hop, Hs. }
  intros Hrun. refine (perform_invariant op _ _ Hinv calls [] s log s' _ _ Hrun); [done|by apply Forall_true].
Qed.

(** ** Lengths and slices *)

Create Rewrite HintDb zlist.

Section Lists.
Context {A : Type}.
Implicit Types l : list A.

Lemma zlen_nonneg l : 0 <= zlen l.
Proof. unfold zlen; lia. Qed.

Lemma zlen_nil : zlen (@nil A) = 0.
Proof. done. Qed.

Lemma zlen_cons (x : A) l : zlen (x :: l) = 1 + zlen l.
Proof. unfold zlen; simpl length; lia. Qed.

Lemma zlen_app l1 l2 : zlen (l1 ++ l2) = zlen l1 + zlen l2.
Proof. unfold zlen. rewrite length_app. lia. Qed.

Lemma zlen_ztake n l : zlen (ztake n l) = Z.max 0 (Z.min n (zlen l)).
Proof. unfold zlen, ztake. rewrite length_take. lia. Qed.

Lemma zlen_zdrop n l : zlen (zdrop n l) = zlen l - Z.max 0 (Z.min n (zlen l)).
Proof. unfold zlen, zdrop. rewrite length_drop. lia. Qed.

Lemma zlen_slice l a b :
  zlen (slice l a b) = Z.max 0 (Z.min (b - a) (zlen l - Z.max 0 (Z.min a (zlen l)))).
Proof. unfold slice. rewrite zlen_ztake, zlen_zdrop. done. Qed.

Lemma zlen_splice l a (src : list A) :
  0 <= a -> a + zlen src <= zlen l -> zlen (splice l a src) = zlen l.
Proof.
  intros. pose proof (zlen_nonneg src). unfold splice.
  rewrite !zlen_app, zlen_ztake, zlen_zdrop. lia.
Qed.

Lemma zlen_0_nil l : zlen l = 0 -> l = [].
Proof. destruct l; [done|]. rewrite zlen_cons. pose proof (zlen_nonneg l). lia. Qed.

Lemma ztake_zdrop n l : ztake n l ++ zdrop n l = l.
Proof. apply take_drop. Qed.

Lemma ztake_all n l : zlen l <= n -> ztake n l = l.
Proof. unfold zlen, ztake. intros. apply take_ge. lia. Qed.

Lemma ztake_le0 n l : n <= 0 -> ztake n l = [].
Proof. unfold ztake. intros. by replace (Z.to_nat n) with 0%nat by lia. Qed.

Lemma zdrop_le0 n l : n <= 0 -> zdrop n l = l.
Proof. unfold zdrop. intros. by replace (Z.to_nat n) with 0%nat by lia. Qed.

Lemma zdrop_all n l : zlen l <= n -> zdrop n l = [].
Proof. unfold zlen, zdrop. intros. apply drop_ge. lia. Qed.

Lemma ztake_app_l n l1 l2 : n <= zlen l1 -> ztake n (l1 ++ l2) = ztake n l1.
Proof. unfold zlen, ztake. intros. apply take_app_le. lia. Qed.

Lemma ztake_app_r n l1 l2 : zlen l1 <= n -> ztake n (l1 ++ l2) = l1 ++ ztake (n - zlen l1) l2.
Proof.
  unfold zlen, ztake. intros. rewrite take_app_ge by lia. f_equal. f_equal. lia.
Qed.

Lemma zdrop_app_l n l1 l2 : n <= zlen l1 -> zdrop n (l1 ++ l2) = zdrop n l1 ++ l2.
Proof. unfold zlen, zdrop. intros. apply drop_app_le. lia. Qed.

Lemma zdrop_app_r n l1 l2 : zlen l1 <= n -> zdrop n (l1 ++ l2) = zdrop (n - zlen l1) l2.
Proof. unfold zlen, zdrop. intros. rewrite drop_app_ge by lia. f_equal. lia. Qed.

Lemma zdrop_zdrop n m l : 0 <= n -> 0 <= m -> zdrop n (zdrop m l) = zdrop (m + n) l.
Proof. unfold zdrop. intros. rewrite drop_drop. f_equal. lia. Qed.

Lemma ztake_ztake n m l : ztake n (ztake m l) = ztake (Z.min n m) l.
Proof. unfold ztake. rewrite take_take. f_equal. lia. Qed.

Lemma zdrop_ztake n m l : 0 <= n -> zdrop n (ztake m l) = ztake (m - n) (zdrop n l).
Proof.
  unfold zdrop, ztake. intros. rewrite skipn_firstn_comm. f_equal. lia.
Qed.

Lemma slice_0 l b : slice l 0 b = ztake b l.
Proof. unfold slice. rewrite zdrop_le0 by lia. f_equal; lia. Qed.

Lemma slice_all l b : b = zlen l -> slice l 0 b = l.
Proof. intros ->. rewrite slice_0. by apply ztake_all. Qed.

Lemma slice_to_end l a : 0 <= a <= zlen l -> slice l a (zlen l) = zdrop a l.
Proof.
  intros. unfold slice. apply ztake_all. rewrite zlen_zdrop. pose proof (zlen_nonneg l). lia.
Qed.

Lemma slice_app_l l1 l2 a b : 0 <= a -> b <= zlen l1 -> slice (l1 ++ l2) a b = slice l1 a b.
Proof.
  intros. pose proof (zlen_nonneg l1). unfold slice. destruct (Z.le_gt_cases a (zlen l1)).
  - rewrite zdrop_app_l by lia. apply ztake_app_l. rewrite zlen_zdrop. lia.
  - rewrite !ztake_le0 by lia. done.
Qed.

Lemma slice_app_r l1 l2 a b :
  zlen l1 <= a -> slice (l1 ++ l2) a b = slice l2 (a - zlen l1) (b - zlen l1).
Proof. intros. unfold slice. rewrite zdrop_app_r by lia. f_equal. lia. Qed.

Lemma slice_slice l a b c d :
  0 <= a -> 0 <= c -> d <= b - a -> slice (slice l a b) c d = slice l (a + c) (a + d).
Proof.
  intros. unfold slice. rewrite zdrop_ztake, zdrop_zdrop, ztake_ztake by lia. f_equal. lia.
Qed.

Lemma slice_ztake l n a b : 0 <= a -> b <= n -> slice (ztake n l) a b = slice l a b.
Proof.
  intros. rewrite <- (slice_0 l n), slice_slice by lia. f_equal; lia.
Qed.

Lemma slice_concat l a b c : 0 <= a <= b -> b <= c -> slice l a b ++ slice l b c = slice l a c.
Proof.
  intros. unfold slice.
  replace (zdrop b l) with (zdrop (b - a) (zdrop a l)) by (rewrite zdrop_zdrop by lia; f_equal; lia).
  replace (ztake (b - a) (zdrop a l)) with (ztake (b - a) (ztake (c - a) (zdrop a l)))
    by (rewrite ztake_ztake; f_equal; lia).
  replace (ztake (c - b) (zdrop (b - a) (zdrop a l))) with (zdrop (b - a) (ztake (c - a) (zdrop a l)))
    by (rewrite zdrop_ztake by lia; f_equal; lia).
  apply ztake_zdrop.
Qed.

Lemma slice_empty l a b : b <= a -> slice l a b = [].
Proof. intros. unfold slice. apply ztake_le0. lia. Qed.

Lemma splice_all l (src : list A) : zlen src = zlen l -> splice l 0 src = src.
Proof.
  intros. unfold splice. rewrite ztake_le0, zdrop_all by lia. by rewrite app_nil_r.
Qed.

Lemma splice_nil l a : splice l a [] = l.
Proof. unfold splice. rewrite zlen_nil, Z.add_0_r. apply ztake_zdrop. Qed.

Lemma splice_app_mid (pre mid post src : list A) a :
  a = zlen pre -> zlen src = zlen mid -> splice (pre ++ mid ++ post) a src = pre ++ src ++ post.
Proof.
  intros -> H. unfold splice. pose proof (zlen_nonneg mid).
  rewrite (ztake_app_l (zlen pre)), (ztake_all (zlen pre) pre) by lia.
  rewrite zdrop_app_r, zdrop_app_r by lia. rewrite zdrop_le0 by lia. done.
Qed.

Lemma splice_tail l a (src : list A) : 0 <= a -> a + zlen src = zlen l -> splice l a src = ztake a l ++ src.
Proof. intros Ha H. unfold splice. by rewrite H, zdrop_all, app_nil_r by lia. Qed.

Lemma slice_splice_same l a b (src : list A) :
  0 <= a -> b = a + zlen src -> b <= zlen l -> slice (splice l a src) a b = src.
Proof.
  intros. pose proof (zlen_nonneg src). unfold splice.
  rewrite slice_app_r by (rewrite zlen_ztake; lia).
  rewrite zlen_ztake. replace (a - _) with 0 by lia.
  rewrite slice_app_l by lia. apply slice_all. lia.
Qed.

Lemma slice_splice_before l p (src : list A) a b :
  0 <= a -> b <= p -> p <= zlen l -> slice (splice l p src) a b = slice l a b.
Proof.
  intros. pose proof (zlen_nonneg l). unfold splice.
  destruct (Z.le_gt_cases b a); [by rewrite !slice_empty by lia|].
  rewrite slice_app_l by (rewrite ?zlen_ztake; lia).
  apply slice_ztake; lia.
Qed.

Lemma slice_splice_after l p (src : list A) a b :
  0 <= p -> p + zlen src <= a -> p + zlen src <= zlen l -> slice (splice l p src) a b = slice l a b.
Proof.
  intros. pose proof (zlen_nonneg src). unfold splice.
  rewrite slice_app_r by (rewrite ?zlen_ztake; lia).
  rewrite slice_app_r by (rewrite ?zlen_ztake; lia).
  rewrite zlen_ztake. unfold slice. rewrite zdrop_zdrop by lia. f_equal; [lia|]. f_equal; lia.
Qed.

Lemma splice_splice_same l a (src1 src2 : list A) :
  0 <= a -> zlen src1 = zlen src2 -> a + zlen src1 <= zlen l ->
  splice (splice l a src1) a src2 = splice l a src2.
Proof.
  intros. pose proof (zlen_nonneg src1). unfold splice at 2.
  rewrite splice_app_mid by (rewrite ?zlen_ztake; lia).
  unfold splice. by rewrite H0.
Qed.

(** Two adjacent writes are one. *)
Lemma splice_splice_next l a (src1 src2 : list A) b :
  0 <= a -> b = a + zlen src1 -> b + zlen src2 <= zlen l ->
  splice (splice l a src1) b src2 = splice l a (src1 ++ src2).
Proof.
  intros H -> H0. pose proof (zlen_nonneg src1). pose proof (zlen_nonneg src2).
  unfold splice at 2 3. rewrite zlen_app.
  replace (zdrop (a + zlen src1) l)
    with (ztake (zlen src2) (zdrop (a + zlen src1) l) ++ zdrop (a + (zlen src1 + zlen src2)) l).
  2: { rewrite <- (ztake_zdrop (zlen src2) (zdrop (a + zlen src1) l)) at 2.
       f_equal. rewrite zdrop_zdrop by lia. f_equal; lia. }
  rewrite (app_assoc (ztake a l)). rewrite splice_app_mid.
  - by rewrite <- !app_assoc.
  - rewrite zlen_app, zlen_ztake. lia.
  - rewrite zlen_ztake, zlen_zdrop. lia.
Qed.

Lemma range_ok_true l a b : 0 <= a <= b -> b <= zlen l -> range_ok l a b = true.
Proof. unfold range_ok. lia. Qed.

(** The part of a grown list that growing added, as a window on it. *)
Lemma app_window_range (pre mid : list A) : range_ok (pre ++ mid) (zlen pre) (zlen (pre ++ mid)) = true.
Proof. apply range_ok_true; rewrite ?zlen_app; pose proof (zlen_nonneg pre); pose proof (zlen_nonneg mid); lia. Qed.

Lemma app_window (pre mid : list A) : slice (pre ++ mid) (zlen pre) (zlen (pre ++ mid)) = mid.
Proof.
  pose proof (zlen_nonneg pre). pose proof (zlen_nonneg mid).
  rewrite slice_app_r, Z.sub_diag by (rewrite ?zlen_app; lia). apply slice_all. rewrite zlen_app. lia.
Qed.

Lemma app_window_filled (pre mid src : list A) :
  zlen src = zlen mid -> splice (pre ++ mid) (zlen pre) (splice mid 0 src) = pre ++ src.
Proof.
  intros H. rewrite splice_all by done.
  rewrite <- (app_nil_r mid), splice_app_mid by done. by rewrite app_nil_r.
Qed.

End Lists.

(** Where a list is not the start of another. *)
Lemma prefix_or_differs {A} `{EqDecision A} (l : list A) : forall l',
  l' `prefix_of` l \/ exists i x, l' !! i = Some x /\ l !! i <> Some x.
Proof.
  induction l as [|a l IH]; intros [|a' l'].
  - left. done.
  - right. by exists 0%nat, a'.
  - left. apply prefix_nil.
  - destruct (decide (a' = a)) as [->|Hne]; [|right; exists 0%nat, a'; cbn; split; [done|congruence]].
    destruct (IH l') as [H|(i & x & H)]; [left; by apply prefix_cons|right]. by exists (S i), x.
Qed.

Lemma zlen_zeros n : zlen (zeros n) = Z.max 0 n.
Proof. unfold zlen, zeros. rewrite length_replicate. lia. Qed.

#[export] Hint Rewrite @zlen_nil @zlen_cons @zlen_app @zlen_ztake @zlen_zdrop @zlen_slice zlen_zeros : zlist.

(** [zlen_solve] proves an arithmetic goal about lengths of list expressions. *)
Ltac zlen_nonneg_all :=
  repeat match goal with
  | |- context [zlen ?l] =>
      lazymatch goal with H : 0 <= zlen l |- _ => fail | _ => pose proof (zlen_nonneg l) end
  | H : context [zlen ?l] |- _ =>
      lazymatch goal with H : 0 <= zlen l |- _ => fail | _ => pose proof (zlen_nonneg l) end
  end.

Ltac zlen_solve := autorewrite with zlist in *; zlen_nonneg_all; lia.

Lemma index_ok {E A} (l : list A) a b :
  0 <= a <= b -> b <= zlen l -> index (E := E) l a b = Ok (slice l a b).
Proof. intros. unfold index. by rewrite range_ok_true. Qed.

Lemma copy_to_ok {E A} (l : list A) a b src :
  0 <= a <= b -> b <= zlen l -> zlen src = b - a -> copy_to (E := E) l a b src = Ok (splice l a src).
Proof.
  intros ?? H. unfold copy_to. rewrite range_ok_true by lia. rewrite H, Z.eqb_refl. done.
Qed.

Lemma u64_ok {E} z : 0 <= z <= u64_max -> u64 (E := E) z = Ok z.
Proof. intros. unfold u64, in_range. by replace ((0 <=? z) && (z <=? u64_max)) with true by lia. Qed.

Section UsizeLemmas.
Context {T : Target}.

Lemma usize_max_cases : usize_max = 2 ^ 32 - 1 \/ usize_max = 2 ^ 64 - 1.
Proof. unfold usize_max. destruct usize_bits_cases as [-> | ->]; auto. Qed.

Lemma isize_max_cases :
  (usize_max = 2 ^ 32 - 1 /\ isize_max = 2 ^ 31 - 1) \/ (usize_max = 2 ^ 64 - 1 /\ isize_max = 2 ^ 63 - 1).
Proof. unfold usize_max, isize_max. destruct usize_bits_cases as [-> | ->]; auto. Qed.

Lemma isize_le_usize : isize_max <= usize_max.
Proof. destruct isize_max_cases as [[-> ->] | [-> ->]]; lia. Qed.

Lemma usize_le_u64 : usize_max <= u64_max.
Proof. unfold u64_max. destruct usize_max_cases as [-> | ->]; lia. Qed.

Lemma u32_le_usize : u32_max <= usize_max.
Proof. unfold u32_max. destruct usize_max_cases as [-> | ->]; lia. Qed.

Lemma usize_ok {E} z : 0 <= z <= usize_max -> usize (E := E) z = Ok z.
Proof. intros. unfold usize, in_range. by replace ((0 <=? z) && (z <=? usize_max)) with true by lia. Qed.

Lemma vec_zeroed_ok {E} n : 0 <= n <= isize_max -> vec_zeroed (E := E) n = Ok (zeros n).
Proof. intros. unfold vec_zeroed, in_range. by replace ((0 <=? n) && (n <=? isize_max)) with true by lia. Qed.

Lemma vec_resize_grow {E} v n :
  zlen v <= n <= isize_max -> vec_resize (E := E) v n = Ok (v ++ zeros (n - zlen v)).
Proof.
  intros. pose proof (zlen_nonneg v). unfold vec_resize, in_range.
  replace ((0 <=? n) && (n <=? isize_max)) with true by lia. by rewrite ztake_all by lia.
Qed.

End UsizeLemmas.
