(* ===== verification/Bytes.v ===== *)
(** * Big-endian machine integers

    [u32::to_be_bytes], [u64::to_be_bytes], [u8] values and their inverses, as
    [src/state.rs] and [src/parameters.rs] use them for prefixes, positions and
    the parameter encoding. *)

From S2P Require Import Prelude.

Definition byte_to_Z (b : byte) : Z := Z.of_N (Strings.Byte.to_N b).

Definition byte_of_Z (z : Z) : byte :=
  match Strings.Byte.of_N (Z.to_N (z mod 256)) with
  | Some b => b
  | None => zero_byte
  end.

(** The [n] low-order bytes of [z], most significant first. *)
Fixpoint to_be_bytes (n : nat) (z : Z) : bytes :=
  match n with
  | O => []
  | S n => to_be_bytes n (z / 256) ++ [byte_of_Z z]
  end.

Definition from_be_bytes (l : bytes) : Z := fold_left (fun acc b => acc * 256 + byte_to_Z b) l 0.

Definition u32_to_be_bytes (z : Z) : bytes := to_be_bytes 4 z.
Definition u64_to_be_bytes (z : Z) : bytes := to_be_bytes 8 z.

(** ** Lemmas *)

Lemma byte_to_Z_range b : 0 <= byte_to_Z b < 256.
Proof.
  unfold byte_to_Z. pose proof (Strings.Byte.to_N_bounded b). lia.
Qed.

Lemma byte_to_of_Z z : byte_to_Z (byte_of_Z z) = z mod 256.
Proof.
  unfold byte_to_Z, byte_of_Z. pose proof (Z.mod_pos_bound z 256 eq_refl).
  destruct (Strings.Byte.of_N _) eqn:E.
  - apply Strings.Byte.to_of_N in E. rewrite E. lia.
  - apply Strings.Byte.of_N_None_iff in E. lia.
Qed.

Lemma byte_of_to_Z b : byte_of_Z (byte_to_Z b) = b.
Proof.
  unfold byte_of_Z. pose proof (byte_to_Z_range b). rewrite Z.mod_small by lia.
  unfold byte_to_Z. rewrite N2Z.id, Strings.Byte.of_to_N. done.
Qed.

Lemma byte_of_Z_mod x y : x mod 256 = y mod 256 -> byte_of_Z x = byte_of_Z y.
Proof. unfold byte_of_Z. by intros ->. Qed.

Lemma length_to_be_bytes n z : length (to_be_bytes n z) = n.
Proof. revert z; induction n; intros; simpl; [done|]. rewrite length_app, IHn. simpl. lia. Qed.

Lemma zlen_to_be_bytes n z : zlen (to_be_bytes n z) = Z.of_nat n.
Proof. unfold zlen. by rewrite length_to_be_bytes. Qed.

Lemma zlen_u32_to_be_bytes z : zlen (u32_to_be_bytes z) = 4.
Proof. apply zlen_to_be_bytes. Qed.

Lemma zlen_u64_to_be_bytes z : zlen (u64_to_be_bytes z) = 8.
Proof. apply zlen_to_be_bytes. Qed.

#[export] Hint Rewrite zlen_to_be_bytes zlen_u32_to_be_bytes zlen_u64_to_be_bytes : zlist.

Lemma from_be_bytes_snoc l b : from_be_bytes (l ++ [b]) = from_be_bytes l * 256 + byte_to_Z b.
Proof. unfold from_be_bytes. by rewrite fold_left_app. Qed.

Lemma from_to_be_bytes n z : from_be_bytes (to_be_bytes n z) = z mod 256 ^ Z.of_nat n.
Proof.
  revert z; induction n as [|n IH]; intros z.
  - simpl. by rewrite Z.mod_1_r.
  - cbn [to_be_bytes]. rewrite from_be_bytes_snoc, IH, byte_to_of_Z.
    rewrite Nat2Z.inj_succ, Z.pow_succ_r by lia.
    rewrite Z.rem_mul_r by lia. lia.
Qed.

Lemma from_be_bytes_range l : 0 <= from_be_bytes l < 256 ^ zlen l.
Proof.
  induction l as [|b l IH] using rev_ind; [done|].
  rewrite from_be_bytes_snoc, zlen_app, zlen_cons, (zlen_nil (A := byte)).
  pose proof (byte_to_Z_range b). pose proof (zlen_nonneg l).
  replace (256 ^ (zlen l + (1 + 0))) with (256 * 256 ^ zlen l) by (rewrite <- Z.pow_succ_r by lia; f_equal; lia).
  lia.
Qed.

Lemma to_from_be_bytes l : to_be_bytes (length l) (from_be_bytes l) = l.
Proof.
  induction l as [|b l IH] using rev_ind; [done|].
  rewrite length_app, from_be_bytes_snoc. simpl. rewrite Nat.add_1_r. cbn [to_be_bytes].
  pose proof (byte_to_Z_range b).
  rewrite Z.div_add_l, Z.div_small, Z.add_0_r, IH by lia.
  rewrite (byte_of_Z_mod _ (byte_to_Z b)), byte_of_to_Z; [done|].
  by rewrite Z.add_comm, Z.mod_add by lia.
Qed.

Lemma u32_from_to_be z : in_u32 z -> from_be_bytes (u32_to_be_bytes z) = z.
Proof.
  unfold in_u32, u32_max. intros. unfold u32_to_be_bytes. rewrite from_to_be_bytes.
  apply Z.mod_small. simpl. lia.
Qed.

Lemma u32_to_from_be l : zlen l = 4 -> u32_to_be_bytes (from_be_bytes l) = l.
Proof.
  unfold zlen. intros. unfold u32_to_be_bytes. replace 4%nat with (length l) by lia.
  apply to_from_be_bytes.
Qed.

Lemma from_be_u32 l : zlen l = 4 -> in_u32 (from_be_bytes l).
Proof.
  intros H. pose proof (from_be_bytes_range l) as Hr. rewrite H in Hr.
  unfold in_u32, u32_max. lia.
Qed.

Lemma u64_to_be_inj x y : in_u64 x -> in_u64 y -> u64_to_be_bytes x = u64_to_be_bytes y -> x = y.
Proof.
  unfold in_u64, u64_max, u64_to_be_bytes. intros Hx Hy H.
  apply (f_equal from_be_bytes) in H. rewrite !from_to_be_bytes in H.
  rewrite !Z.mod_small in H by (simpl; lia). done.
Qed.
