(* ===== verification/Error.v ===== *)
(** * Error values

    The [Error] and [LengthRequirement] enums of [src/error.rs]. Their texts are
    in [Display.v], [Error::io_source] is in [StdIo.v]. *)

From S2P Require Import Prelude.

(** [enum LengthRequirement]. *)
Inductive LengthRequirement :=
| Exactly (n : Z)
| AtLeast (n : Z)
| AtMost (n : Z)
| Between (minimum maximum : Z).

(** [enum Error]. *)
Inductive Error :=
| InvalidKeyLength (actual : Z)
| InvalidParameters
| InvalidSegmentLength (actual : Z)
| InvalidPlaintextLength (actual : Z) (required : LengthRequirement)
| InvalidHeaderLength (actual : Z)
| InvalidHeaderParameters
| InvalidHeaderTag
| InvalidCiphertextLength (actual : Z) (required : LengthRequirement)
| InvalidSegmentPrefix
| AuthenticationFailed
| Closed
| Truncated
| SegmentLimit
| OutputTooSmall (actual required : Z)
| InvalidBufferState
| ProviderSelectionRequired
| LengthOverflow
| RngFailure
| CryptoFailure.

(** The crate's [Result<T>], with the outcomes a Rust function also has. *)
Abbreviation Result := (outcome Error).

#[export] Instance LengthRequirement_eq_dec : EqDecision LengthRequirement.
Proof. solve_decision. Defined.

#[export] Instance Error_eq_dec : EqDecision Error.
Proof. solve_decision. Defined.
