(* ===== verification/Parameters.v ===== *)
(** * Parameters and layouts

    [src/parameters.rs]: the FLOE constants, [Parameters] and its encoding,
    [SegmentKind], the layout of a message ([MessageLayout], [SegmentLayout],
    [Segments]) and the framing of one segment ([SegmentFraming]). *)

From S2P Require Import Prelude Bytes Error.

(** ** Constants *)

Definition AEAD_IV_LENGTH : Z := 12.
Definition AEAD_TAG_LENGTH : Z := 16.
Definition AEAD_MAX_SEGMENTS : Z := Z.shiftl 1 40.
Definition FLOE_IV_LENGTH : Z := 32.
Definition ENCODED_PARAMETERS_LENGTH : Z := 10.
Definition HEADER_TAG_LENGTH : Z := 32.
Definition HEADER_LENGTH : Z := ENCODED_PARAMETERS_LENGTH + FLOE_IV_LENGTH + HEADER_TAG_LENGTH.
Definition SEGMENT_PREFIX_LENGTH : Z := 4.
Definition SEGMENT_PAYLOAD_OFFSET : Z := SEGMENT_PREFIX_LENGTH + AEAD_IV_LENGTH.
Definition SEGMENT_OVERHEAD : Z := SEGMENT_PAYLOAD_OFFSET + AEAD_TAG_LENGTH.
Definition ROTATION_BITS : Z := 20.

(** [!((1_u64 << ROTATION_BITS) - 1)], the complement within 64 bits. *)
Definition ROTATION_MASK : Z := Z.lxor u64_max (Z.shiftl 1 ROTATION_BITS - 1).
Definition FLOE_IV_LENGTH_U32 : Z := 32.
Definition SEGMENT_OVERHEAD_U32 : Z := 32.

Section Lengths.
Context {T : Target}.

(** [value as usize], [value as u64]: the casts keep the low-order bits. *)
Definition length_u32_to_usize (value : Z) : Z := value mod (usize_max + 1).
Definition length_usize_to_u64 (value : Z) : Z := value mod (u64_max + 1).

Definition length_u64_to_usize_saturating (value : Z) : Z :=
  match usize_try_from value with Some n => n | None => usize_max end.

End Lengths.

Definition HEADER_LENGTH_U64 : Z := length_usize_to_u64 HEADER_LENGTH.
Definition SEGMENT_OVERHEAD_U64 : Z := length_usize_to_u64 SEGMENT_OVERHEAD.

(** ** Segment kinds *)

Module SegmentKind.

Inductive t :=
| NonFinal
| Final.

Definition is_final (self : t) : bool :=
  match self with Final => true | NonFinal => false end.

(** The [u8] that ends the segment's associated data. *)
Definition indicator (self : t) : Z :=
  match self with
  | NonFinal => 0
  | Final => 1
  end.

#[global] Instance t_eq_dec : EqDecision t.
Proof. solve_decision. Defined.

End SegmentKind.

(** ** The parameter set *)

Module Parameters.

(** The segment length is a [u32]; the field is private to its module. *)
Record t := mk { segment_length : Z }.

#[global] Instance t_eq_dec : EqDecision t.
Proof. solve_decision. Defined.

(** [VALID_SEGMENT_LENGTHS.start] and [.end] of the half-open range. *)
Definition VALID_SEGMENT_LENGTHS : Z * Z := (64, u32_max).

Definition valid_segment_length (segment_len : Z) : bool :=
  (fst VALID_SEGMENT_LENGTHS <=? segment_len) && (segment_len <? snd VALID_SEGMENT_LENGTHS).

Definition with_segment_length_unchecked (segment_len : Z) : t := {| segment_length := segment_len |}.

Definition with_segment_length (segment_len : Z) : Result t :=
  if negb (valid_segment_length segment_len) then Err (InvalidSegmentLength segment_len)
  else Ok (with_segment_length_unchecked segment_len).

Definition SEGMENT_64_B : t := with_segment_length_unchecked 64.
Definition SEGMENT_4_KIB : t := with_segment_length_unchecked (4 * 1024).
Definition SEGMENT_1_MIB : t := with_segment_length_unchecked (1024 * 1024).
Definition SEGMENT_4_MIB : t := with_segment_length_unchecked (4 * 1024 * 1024).
Definition SEGMENT_5_MIB : t := with_segment_length_unchecked (5 * 1024 * 1024).
Definition SEGMENT_8_MIB : t := with_segment_length_unchecked (8 * 1024 * 1024).
Definition SEGMENT_16_MIB : t := with_segment_length_unchecked (16 * 1024 * 1024).

Definition ciphertext_segment_length_u32 (self : t) : Z := segment_length self.

(** A [u32] subtraction, so a length below the overhead would panic. *)
Definition plaintext_segment_length_u32 {E} (self : t) : outcome E Z :=
  u32 (segment_length self - SEGMENT_OVERHEAD_U32).

(** [AEAD_ID || KDF_ID || ENC_SEG_LEN || FLOE_IV_LEN]. *)
Definition encode (self : t) : bytes :=
  [byte_of_Z 0; byte_of_Z 0]
    ++ u32_to_be_bytes (segment_length self) ++ u32_to_be_bytes FLOE_IV_LENGTH_U32.

Definition decode (encoded : bytes) : Result t :=
  let* seg_len_bytes := index encoded 2 6 in
  let segment_length := from_be_bytes seg_len_bytes in
  let* parameters :=
    map_err (fun _ => InvalidHeaderParameters) (with_segment_length segment_length) in
  if bool_decide (encode parameters = encoded) then Ok parameters
  else Err InvalidHeaderParameters.

Definition masked_position (self : t) (position : Z) : Z := Z.land position ROTATION_MASK.

Section Usize.
Context {T : Target}.

Definition ciphertext_segment_length (self : t) : Z := length_u32_to_usize (segment_length self).

Definition plaintext_segment_length {E} (self : t) : outcome E Z :=
  omap_ok length_u32_to_usize (plaintext_segment_length_u32 self).

Definition validate_ciphertext_segment_length (self : t) (actual : Z) : Result unit :=
  let maximum := ciphertext_segment_length self in
  if (SEGMENT_OVERHEAD <=? actual) && (actual <=? maximum) then Ok tt
  else Err (InvalidCiphertextLength actual (Between SEGMENT_OVERHEAD maximum)).

End Usize.

(** What [with_segment_length] accepts: the type's invariant, since the field
    is private and every public constructor goes through it. *)
Definition valid (self : t) : Prop := 64 <= segment_length self < u32_max.

End Parameters.

(** ** Layouts *)

Module SegmentLayout.

Record t := mk {
  parameters : Parameters.t;
  position : Z;
  plaintext_offset : Z;
  plaintext_length : Z;
  ciphertext_offset : Z;
  ciphertext_length : Z;
  kind : SegmentKind.t
}.

Definition is_final (self : t) : bool := SegmentKind.is_final (kind self).

End SegmentLayout.

Module MessageLayout.

Record t := mk {
  parameters : Parameters.t;
  plaintext_length : Z;
  ciphertext_length : Z;
  segment_count : Z
}.

Section Usize.
Context {T : Target} {E : Type}.

Definition segment_for_position (self : t) (position : Z) : outcome E (option SegmentLayout.t) :=
  if segment_count self <=? position then Ok None
  else
    let* plaintext_segment_length := Parameters.plaintext_segment_length (parameters self) in
    let* plaintext_segment_length_u64 := Parameters.plaintext_segment_length_u32 (parameters self) in
    let ciphertext_segment_length := Parameters.ciphertext_segment_length (parameters self) in
    let ciphertext_segment_length_u64 :=
      Parameters.ciphertext_segment_length_u32 (parameters self) in
    let* plaintext_offset := u64 (position * plaintext_segment_length_u64) in
    let* next := u64 (position + 1) in
    let kind := if next =? segment_count self then SegmentKind.Final else SegmentKind.NonFinal in
    let* lengths :=
      match kind with
      | SegmentKind.NonFinal => Ok (Some (plaintext_segment_length, ciphertext_segment_length))
      | SegmentKind.Final =>
          let* remaining := u64 (plaintext_length self - plaintext_offset) in
          match usize_try_from remaining with
          | None => Ok None
          | Some plaintext_length =>
              let* ciphertext_length := usize (SEGMENT_OVERHEAD + plaintext_length) in
              Ok (Some (plaintext_length, ciphertext_length))
          end
      end in
    match lengths with
    | None => Ok None
    | Some (plaintext_length, ciphertext_length) =>
        let* body_offset := u64 (position * ciphertext_segment_length_u64) in
        let* ciphertext_offset := u64 (HEADER_LENGTH_U64 + body_offset) in
        Ok (Some {|
          SegmentLayout.parameters := parameters self;
          SegmentLayout.position := position;
          SegmentLayout.plaintext_offset := plaintext_offset;
          SegmentLayout.plaintext_length := plaintext_length;
          SegmentLayout.ciphertext_offset := ciphertext_offset;
          SegmentLayout.ciphertext_length := ciphertext_length;
          SegmentLayout.kind := kind
        |})
    end.

Definition final_segment (self : t) : outcome E SegmentLayout.t :=
  let* last := u64 (segment_count self - 1) in
  let* segment := segment_for_position self last in
  expect segment.

Definition position_for_plaintext_offset (self : t) (offset : Z) : outcome E Z :=
  let* length := Parameters.plaintext_segment_length_u32 (parameters self) in
  if length =? 0 then panic else Ok (offset / length).

End Usize.

End MessageLayout.

(** The iterator over a layout's segments; its [Range<u64>] is the pair of
    fields [start] and [stop]. *)
Module Segments.

Record t := mk {
  layout : MessageLayout.t;
  start : Z;
  stop : Z
}.

Definition segments (self : MessageLayout.t) : t :=
  {| layout := self; start := 0; stop := MessageLayout.segment_count self |}.

Section Usize.
Context {T : Target} {E : Type}.

Definition segment_at (self : t) (position : Z) : outcome E SegmentLayout.t :=
  let* segment := MessageLayout.segment_for_position (layout self) position in
  expect segment.

(** [Range::next] yields [start] and moves it up. *)
Definition next : M E t (option SegmentLayout.t) :=
  let! self := get in
  if start self <? stop self then
    do! put {| layout := layout self; start := start self + 1; stop := stop self |} in
    let? segment := segment_at self (start self) in
    ret (Some segment)
  else ret None.

(** [Range::next_back] moves [stop] down and yields it. *)
Definition next_back : M E t (option SegmentLayout.t) :=
  let! self := get in
  if start self <? stop self then
    do! put {| layout := layout self; start := start self; stop := stop self - 1 |} in
    let? segment := segment_at self (stop self - 1) in
    ret (Some segment)
  else ret None.

(** [Range<u64>::size_hint]: no upper bound when the count exceeds [usize]. *)
Definition size_hint (self : t) : Z * option Z :=
  let count := Z.max 0 (stop self - start self) in
  match usize_try_from count with
  | Some n => (n, Some n)
  | None => (usize_max, None)
  end.

End Usize.

End Segments.

(** [Parameters::plaintext_layout] and [Parameters::ciphertext_layout]. *)
Section Layouts.
Context {T : Target}.

(** [u64::div_ceil]. *)
Definition div_ceil (a b : Z) : Z := if a mod b =? 0 then a / b else a / b + 1.

Definition plaintext_layout (self : Parameters.t) (plaintext_length : Z) : Result MessageLayout.t :=
  let* plaintext_segment_length := Parameters.plaintext_segment_length_u32 self in
  if plaintext_segment_length =? 0 then panic else
  let segment_count := Z.max (div_ceil plaintext_length plaintext_segment_length) 1 in
  if AEAD_MAX_SEGMENTS <? segment_count then Err SegmentLimit
  else
    let* framing_length := ok_or (checked_u64 (segment_count * SEGMENT_OVERHEAD_U64)) LengthOverflow in
    let* with_header := ok_or (checked_u64 (HEADER_LENGTH_U64 + plaintext_length)) LengthOverflow in
    let* ciphertext_length := ok_or (checked_u64 (with_header + framing_length)) LengthOverflow in
    Ok {|
      MessageLayout.parameters := self;
      MessageLayout.plaintext_length := plaintext_length;
      MessageLayout.ciphertext_length := ciphertext_length;
      MessageLayout.segment_count := segment_count
    |}.

Definition ciphertext_layout (self : Parameters.t) (ciphertext_length : Z) : Result MessageLayout.t :=
  let* body_length :=
    ok_or (checked_u64 (ciphertext_length - HEADER_LENGTH_U64))
      (InvalidHeaderLength (length_u64_to_usize_saturating ciphertext_length)) in
  if body_length =? 0 then Err Truncated
  else
    let ciphertext_segment_length := Parameters.ciphertext_segment_length_u32 self in
    if ciphertext_segment_length =? 0 then panic else
    let segment_count := div_ceil body_length ciphertext_segment_length in
    if AEAD_MAX_SEGMENTS <? segment_count then Err SegmentLimit
    else
      let* preceding := u64 (segment_count - 1) in
      let* preceding_length := u64 (preceding * ciphertext_segment_length) in
      let* final_length := u64 (body_length - preceding_length) in
      if final_length <? SEGMENT_OVERHEAD_U64 then
        Err (InvalidCiphertextLength (length_u64_to_usize_saturating final_length)
               (Between SEGMENT_OVERHEAD (Parameters.ciphertext_segment_length self)))
      else
        let* framing_length :=
          ok_or (checked_u64 (segment_count * SEGMENT_OVERHEAD_U64)) LengthOverflow in
        let* plaintext_length := ok_or (checked_u64 (body_length - framing_length)) LengthOverflow in
        Ok {|
          MessageLayout.parameters := self;
          MessageLayout.plaintext_length := plaintext_length;
          MessageLayout.ciphertext_length := ciphertext_length;
          MessageLayout.segment_count := segment_count
        |}.

End Layouts.

(** ** Segment framing *)

Module SegmentFraming.

Record t := mk {
  ciphertext_length : Z;
  plaintext_length : Z;
  kind : SegmentKind.t
}.

Section Usize.
Context {T : Target}.

Definition decode (parameters : Parameters.t) (prefix : bytes) : Result t :=
  let encoded := from_be_bytes prefix in
  let* framed :=
    if encoded =? u32_max then
      Ok (Parameters.ciphertext_segment_length parameters, SegmentKind.NonFinal)
    else
      let maximum := Parameters.ciphertext_segment_length_u32 parameters in
      if negb ((SEGMENT_OVERHEAD_U32 <=? encoded) && (encoded <=? maximum)) then
        Err (InvalidCiphertextLength (length_u32_to_usize encoded)
               (Between SEGMENT_OVERHEAD (Parameters.ciphertext_segment_length parameters)))
      else Ok (length_u32_to_usize encoded, SegmentKind.Final) in
  let (ciphertext_length, kind) := framed in
  let* plaintext_length := usize (ciphertext_length - SEGMENT_OVERHEAD) in
  Ok {| ciphertext_length := ciphertext_length; plaintext_length := plaintext_length; kind := kind |}.

End Usize.

Definition is_final (self : t) : bool := SegmentKind.is_final (kind self).

End SegmentFraming.

(** * Lemmas *)

(** [floe_consts] replaces the crate's constants by their values. *)
Ltac floe_consts :=
  change HEADER_LENGTH_U64 with 74 in *;
  change SEGMENT_OVERHEAD_U64 with 32 in *;
  change HEADER_LENGTH with 74 in *;
  change SEGMENT_OVERHEAD with 32 in *;
  change SEGMENT_OVERHEAD_U32 with 32 in *;
  change SEGMENT_PAYLOAD_OFFSET with 16 in *;
  change SEGMENT_PREFIX_LENGTH with 4 in *;
  change AEAD_IV_LENGTH with 12 in *;
  change AEAD_TAG_LENGTH with 16 in *;
  change FLOE_IV_LENGTH with 32 in *;
  change FLOE_IV_LENGTH_U32 with 32 in *;
  change HEADER_TAG_LENGTH with 32 in *;
  change ENCODED_PARAMETERS_LENGTH with 10 in *;
  change AEAD_MAX_SEGMENTS with 1099511627776 in *;
  change u32_max with 4294967295 in *;
  change u64_max with 18446744073709551615 in *.

Ltac flia := floe_consts; lia.

Lemma div_ceil_bounds a b : 0 <= a -> 0 < b -> (div_ceil a b - 1) * b < a <= div_ceil a b * b \/ (a = 0 /\ div_ceil a b = 0).
Proof.
  intros. unfold div_ceil. pose proof (Z.div_mod a b). pose proof (Z.mod_pos_bound a b).
  destruct (Z.eqb_spec (a mod b) 0); [|nia].
  assert (0 <= a / b) by (apply Z.div_pos; lia).
  destruct (Z.eq_dec (a / b) 0); nia.
Qed.

Lemma window_unique b x c k :
  0 < b -> (c - 1) * b < x <= c * b -> (k - 1) * b < x <= k * b -> c = k.
Proof. nia. Qed.

(** The same for two windows that are closed below, when one is open or the first. *)
Lemma window_unique_canonical b x c k :
  0 < b -> 1 <= c -> 1 <= k ->
  (c - 1) * b <= x <= c * b -> (c = 1 \/ (c - 1) * b < x) ->
  (k - 1) * b <= x <= k * b -> (k = 1 \/ (k - 1) * b < x) -> c = k.
Proof.
  intros ??? [??] Hc [??] Hk.
  destruct (Z.lt_trichotomy c k) as [?|[?|?]]; [|done|].
  - assert (c * b <= (k - 1) * b) by (apply Z.mul_le_mono_nonneg_r; lia). destruct Hk; [lia|]. lia.
  - assert (k * b <= (c - 1) * b) by (apply Z.mul_le_mono_nonneg_r; lia). destruct Hc; [lia|]. lia.
Qed.

(** Body lengths: a payload in the window of [k] full segments, with the overheads. *)
Lemma window_body b x k :
  1 <= k -> (k - 1) * b <= x <= k * b -> (k - 1) * (b + 32) < x + 32 * k <= k * (b + 32).
Proof. lia. Qed.

(** The only [d] between whose multiples [a] lies. *)
Lemma div_ceil_unique a b d : 0 < b -> 0 < d -> (d - 1) * b < a <= d * b -> div_ceil a b = d.
Proof. intros. destruct (div_ceil_bounds a b) as [?|[? ?]]; nia. Qed.

Section CastLemmas.
Context {T : Target}.

Lemma length_u32_to_usize_id n : in_u32 n -> length_u32_to_usize n = n.
Proof.
  unfold in_u32. intros. pose proof u32_le_usize. unfold length_u32_to_usize.
  apply Z.mod_small. lia.
Qed.

Lemma usize_try_from_small n : n <= usize_max -> usize_try_from n = Some n.
Proof. intros. unfold usize_try_from. by replace (n <=? usize_max) with true by lia. Qed.

Lemma checked_u64_some n : in_u64 n -> checked_u64 n = Some n.
Proof. unfold in_u64, checked_u64, in_range. intros. by replace (_ && _) with true by lia. Qed.

Lemma checked_u64_none n : ~ in_u64 n -> checked_u64 n = None.
Proof. unfold in_u64, checked_u64, in_range. intros. by replace (_ && _) with false by lia. Qed.

Lemma length_usize_to_u64_id n : in_u64 n -> length_usize_to_u64 n = n.
Proof. unfold in_u64, length_usize_to_u64. intros. apply Z.mod_small. lia. Qed.

End CastLemmas.

Module ParametersFacts.
Section Facts.
Context {T : Target}.
Implicit Types p : Parameters.t.

(** The payload of a full segment. *)
Definition payload p : Z := Parameters.segment_length p - 32.

Lemma valid_bounds p :
  Parameters.valid p -> 64 <= Parameters.segment_length p < 4294967295 /\ 32 <= payload p < 4294967263.
Proof. unfold Parameters.valid, payload, u32_max. lia. Qed.

Lemma valid_payload p :
  Parameters.valid p -> Parameters.segment_length p = payload p + 32 /\ 32 <= payload p < 4294967263.
Proof. unfold Parameters.valid, payload, u32_max. lia. Qed.

Lemma plaintext_segment_length_u32_ok {E} p :
  Parameters.valid p -> Parameters.plaintext_segment_length_u32 (E := E) p = Ok (payload p).
Proof.
  intros Hv. apply valid_bounds in Hv. unfold Parameters.plaintext_segment_length_u32, u32, in_range, payload in *.
  floe_consts. by replace (_ && _) with true by lia.
Qed.

Lemma ciphertext_segment_length_ok p :
  Parameters.valid p -> Parameters.ciphertext_segment_length p = Parameters.segment_length p.
Proof.
  intros Hv. apply valid_bounds in Hv. apply length_u32_to_usize_id. unfold in_u32, u32_max. lia.
Qed.

Lemma plaintext_segment_length_ok {E} p :
  Parameters.valid p -> Parameters.plaintext_segment_length (E := E) p = Ok (payload p).
Proof.
  intros Hv. unfold Parameters.plaintext_segment_length.
  rewrite plaintext_segment_length_u32_ok by done. apply valid_bounds in Hv.
  simpl. rewrite length_u32_to_usize_id; [done|]. unfold in_u32, u32_max. lia.
Qed.

Lemma valid_segment_length_iff n : Parameters.valid_segment_length n = true <-> 64 <= n < u32_max.
Proof. unfold Parameters.valid_segment_length. simpl. lia. Qed.

Lemma with_segment_length_ok n p :
  Parameters.with_segment_length n = Ok p <-> Parameters.valid p /\ Parameters.segment_length p = n.
Proof.
  unfold Parameters.with_segment_length, Parameters.valid.
  destruct (Parameters.valid_segment_length n) eqn:Hv; simpl.
  - apply valid_segment_length_iff in Hv. unfold Parameters.with_segment_length_unchecked.
    destruct p; simpl; split; [by intros [= <-]|by intros [_ ->]].
  - split; [done|]. intros [H <-]. apply valid_segment_length_iff in H. congruence.
Qed.

Lemma validate_ciphertext_segment_length_ok p n :
  Parameters.valid p -> 32 <= n <= Parameters.segment_length p ->
  Parameters.validate_ciphertext_segment_length p n = Ok tt.
Proof.
  intros Hv ?. unfold Parameters.validate_ciphertext_segment_length.
  rewrite ciphertext_segment_length_ok by done. floe_consts. by replace (_ && _) with true by lia.
Qed.

Lemma validate_ciphertext_segment_length_err p n :
  Parameters.valid p -> ~ (32 <= n <= Parameters.segment_length p) ->
  Parameters.validate_ciphertext_segment_length p n =
    Err (InvalidCiphertextLength n (Between 32 (Parameters.segment_length p))).
Proof.
  intros Hv ?. unfold Parameters.validate_ciphertext_segment_length.
  rewrite ciphertext_segment_length_ok by done. floe_consts. by replace (_ && _) with false by lia.
Qed.

Lemma zlen_encode p : zlen (Parameters.encode p) = 10.
Proof. done. Qed.

Lemma decode_encode p : Parameters.valid p -> Parameters.decode (Parameters.encode p) = Ok p.
Proof.
  intros Hv. unfold Parameters.decode. rewrite index_ok by (rewrite ?zlen_encode; lia). simpl obind.
  assert (slice (Parameters.encode p) 2 6 = u32_to_be_bytes (Parameters.segment_length p)) as -> by done.
  rewrite u32_from_to_be by (unfold Parameters.valid in Hv; unfold in_u32; lia).
  destruct (with_segment_length_ok (Parameters.segment_length p) p) as [_ ->]; [|done].
  simpl. by rewrite bool_decide_true.
Qed.

Lemma decode_inv b p :
  Parameters.decode b = Ok p -> Parameters.valid p /\ b = Parameters.encode p.
Proof.
  unfold Parameters.decode. intros (seg & _ & H)%obind_inv_ok.
  apply obind_inv_ok in H as (q & Hq & H).
  destruct (Parameters.with_segment_length _) as [q'| |] eqn:Hw; simplify_eq/=.
  apply with_segment_length_ok in Hw as [? _].
  case_bool_decide; simplify_eq. done.
Qed.

Lemma decode_returns b : zlen b = 10 -> returns (Parameters.decode b).
Proof.
  intros. unfold Parameters.decode. rewrite index_ok by lia. simpl.
  unfold Parameters.with_segment_length. destruct (Parameters.valid_segment_length _); simpl; [|done].
  by case_bool_decide.
Qed.

Lemma encode_inj p q :
  Parameters.valid p -> Parameters.valid q -> Parameters.encode p = Parameters.encode q -> p = q.
Proof. intros Hp Hq H. apply decode_encode in Hp, Hq. rewrite H in Hp. congruence. Qed.

End Facts.
End ParametersFacts.
Import ParametersFacts.

Module LayoutFacts.
Section Facts.
Context {T : Target}.
Implicit Types l : MessageLayout.t.

(** The invariant of every layout the two constructors return. *)
Record wf l : Prop := {
  wf_valid : Parameters.valid (MessageLayout.parameters l);
  wf_count : 1 <= MessageLayout.segment_count l <= AEAD_MAX_SEGMENTS;
  wf_plaintext :
    (MessageLayout.segment_count l - 1) * payload (MessageLayout.parameters l)
      <= MessageLayout.plaintext_length l
      <= MessageLayout.segment_count l * payload (MessageLayout.parameters l);
  wf_ciphertext :
    MessageLayout.ciphertext_length l
      = 74 + MessageLayout.plaintext_length l + 32 * MessageLayout.segment_count l;
  wf_u64 : MessageLayout.ciphertext_length l <= u64_max
}.

(** What the encryptor produces: only an empty message has an empty final segment. *)
Definition canonical l : Prop :=
  MessageLayout.segment_count l = 1
  \/ (MessageLayout.segment_count l - 1) * payload (MessageLayout.parameters l)
       < MessageLayout.plaintext_length l.

(** The segment at position [i], in closed form. *)
Definition segment_of l (i : Z) : SegmentLayout.t :=
  let p := MessageLayout.parameters l in
  let final := i + 1 =? MessageLayout.segment_count l in
  let length := if final then MessageLayout.plaintext_length l - i * payload p else payload p in
  {|
    SegmentLayout.parameters := p;
    SegmentLayout.position := i;
    SegmentLayout.plaintext_offset := i * payload p;
    SegmentLayout.plaintext_length := length;
    SegmentLayout.ciphertext_offset := 74 + i * Parameters.segment_length p;
    SegmentLayout.ciphertext_length := 32 + length;
    SegmentLayout.kind := if final then SegmentKind.Final else SegmentKind.NonFinal
  |}.

(** Arithmetic facts of a layout, for [nia]-free use. *)
Lemma wf_position l i :
  wf l -> 0 <= i < MessageLayout.segment_count l ->
  let p := MessageLayout.parameters l in
  0 <= i * payload p <= MessageLayout.plaintext_length l
  /\ (i + 1 = MessageLayout.segment_count l ->
      0 <= MessageLayout.plaintext_length l - i * payload p <= payload p)
  /\ (i + 1 < MessageLayout.segment_count l -> (i + 1) * payload p <= MessageLayout.plaintext_length l)
  /\ i * Parameters.segment_length p = i * payload p + 32 * i
  /\ 74 + i * Parameters.segment_length p < u64_max
  /\ 32 <= payload p < 4294967263.
Proof.
  intros [Hv Hc Hp Hct Hu] Hi p. apply valid_payload in Hv as [Hs Hpl]. subst p.
  set (n := MessageLayout.segment_count l) in *.
  set (pl := payload (MessageLayout.parameters l)) in *.
  rewrite Hs. floe_consts.
  assert (0 <= i * pl) by (apply Z.mul_nonneg_nonneg; lia).
  assert (i * pl <= (n - 1) * pl) by (apply Z.mul_le_mono_nonneg_r; lia).
  assert (i + 1 < n -> (i + 1) * pl <= (n - 1) * pl) by (intros; apply Z.mul_le_mono_nonneg_r; lia).
  assert (i + 1 = n -> i * pl = (n - 1) * pl) by (intros; f_equal; lia).
  floe_consts. split_and!; lia.
Qed.

Lemma segment_for_position_ok {E} l i :
  wf l -> 0 <= i < MessageLayout.segment_count l ->
  MessageLayout.segment_for_position (E := E) l i = Ok (Some (segment_of l i)).
Proof.
  intros Hwf Hi. pose proof (wf_position l i Hwf Hi) as (H1 & H2 & H3 & H4 & H5 & H6).
  destruct Hwf as [Hv Hc Hp Hct Hu]. pose proof u32_le_usize. floe_consts.
  unfold MessageLayout.segment_for_position.
  replace (_ <=? _) with false by lia.
  rewrite plaintext_segment_length_ok, plaintext_segment_length_u32_ok by done. cbn [obind].
  rewrite ciphertext_segment_length_ok by done.
  rewrite !u64_ok by flia. cbn [obind]. unfold segment_of.
  destruct (Z.eqb_spec (i + 1) (MessageLayout.segment_count l)) as [He|He]; cbn [obind].
  - rewrite u64_ok by flia. cbn [obind].
    rewrite usize_try_from_small by lia.
    rewrite usize_ok by flia. cbn [obind].
    unfold Parameters.ciphertext_segment_length_u32. rewrite !u64_ok by flia. cbn [obind].
    rewrite u64_ok by flia. done.
  - unfold Parameters.ciphertext_segment_length_u32. rewrite !u64_ok by flia. cbn [obind].
    rewrite u64_ok by flia. cbn [obind]. do 3 f_equal.
    unfold payload. lia.
Qed.

Lemma segment_for_position_none {E} l i :
  MessageLayout.segment_count l <= i -> MessageLayout.segment_for_position (E := E) l i = Ok None.
Proof. intros. unfold MessageLayout.segment_for_position. by replace (_ <=? _) with true by lia. Qed.

Lemma final_segment_ok {E} l :
  wf l -> MessageLayout.final_segment (E := E) l = Ok (segment_of l (MessageLayout.segment_count l - 1)).
Proof.
  intros Hwf. pose proof (wf_count _ Hwf). unfold MessageLayout.final_segment.
  floe_consts. rewrite u64_ok by flia. cbn [obind].
  by rewrite segment_for_position_ok by (done || lia).
Qed.

(** [plaintext_layout] accepts a length exactly when a canonical layout has it. *)
Lemma plaintext_layout_ok p n l :
  Parameters.valid p -> in_u64 n ->
  plaintext_layout p n = Ok l <->
  wf l /\ canonical l /\ MessageLayout.parameters l = p /\ MessageLayout.plaintext_length l = n.
Proof.
  intros Hv Hn. pose proof (valid_payload p Hv) as [Hs Hpl].
  unfold plaintext_layout. rewrite plaintext_segment_length_u32_ok by done. cbn [obind].
  replace (payload p =? 0) with false by lia.
  unfold in_u64 in Hn. floe_consts.
  set (count := Z.max (div_ceil n (payload p)) 1).
  assert (Hcount : (count - 1) * payload p <= n <= count * payload p
                   /\ (count = 1 \/ (count - 1) * payload p < n)).
  { subst count. destruct (div_ceil_bounds n (payload p)) as [Hb|[-> ->]]; [lia|lia| |simpl; lia].
    destruct (Z.max_spec (div_ceil n (payload p)) 1) as [[? ->]|[? ->]]; nia. }
  split.
  - destruct (Z.ltb_spec 1099511627776 count); [done|]. intros H0.
    apply obind_inv_ok in H0 as (f & Hf & H0). apply obind_inv_ok in H0 as (h & Hh & H0).
    apply obind_inv_ok in H0 as (c & Hc & H0). unfold checked_u64, in_range in *. floe_consts.
    do 3 case_match; simplify_eq/=. unfold canonical; simpl.
    split_and!; try done; [|tauto]. split; simpl; floe_consts; try done; lia.
  - intros (Hwf & Hcan & Hp' & Hn'). pose proof (valid_payload _ (wf_valid _ Hwf)).
    destruct Hwf as [_ Hc Hpt Hct Hu]. destruct l as [p' n' c' k]; unfold canonical in *; simpl in *. subst p' n'.
    floe_consts.
    assert (count = k) as ->.
    { destruct Hcount. apply (window_unique_canonical (payload p) n); lia. }
    replace (_ <? _) with false by lia.
    rewrite checked_u64_some by (unfold in_u64; floe_consts; lia). cbn [ok_or obind].
    rewrite checked_u64_some by (unfold in_u64; floe_consts; lia). cbn [ok_or obind].
    rewrite checked_u64_some by (unfold in_u64; floe_consts; lia). cbn [ok_or obind].
    do 2 f_equal; lia.
Qed.

(** [ciphertext_layout] accepts a length exactly when some layout has it. *)
Lemma ciphertext_layout_ok p m l :
  Parameters.valid p -> in_u64 m ->
  ciphertext_layout p m = Ok l <->
  wf l /\ MessageLayout.parameters l = p /\ MessageLayout.ciphertext_length l = m.
Proof.
  intros Hv Hm. pose proof (valid_payload p Hv) as [Hs Hpl].
  unfold ciphertext_layout, Parameters.ciphertext_segment_length_u32. unfold in_u64 in Hm. floe_consts.
  destruct (Z.le_gt_cases 74 m); cycle 1.
  { rewrite checked_u64_none by (unfold in_u64; lia). split; [done|].
    intros (Hwf & <- & <-). apply wf_position with (i := 0) in Hwf as Hw; destruct Hwf; floe_consts; lia. }
  rewrite checked_u64_some by (unfold in_u64; floe_consts; lia). cbn [ok_or obind].
  destruct (Z.eqb_spec (m - 74) 0).
  { split; [done|]. intros (Hwf & <- & <-).
    apply wf_position with (i := 0) in Hwf as Hw; destruct Hwf; floe_consts; lia. }
  replace (Parameters.segment_length p =? 0) with false by lia.
  destruct (div_ceil_bounds (m - 74) (Parameters.segment_length p)) as [Hb|[? ?]]; [lia|lia| |lia].
  set (count := div_ceil (m - 74) (Parameters.segment_length p)) in *.
  assert (1 <= count) by nia.
  destruct (Z.ltb_spec 1099511627776 count).
  { split; [done|]. intros (Hwf & <- & <-). destruct Hwf as [_ Hc Hpt Hct Hu]. floe_consts. nia. }
  rewrite u64_ok by flia. cbn [obind].
  assert (0 <= (count - 1) * Parameters.segment_length p) by nia.
  rewrite !u64_ok by flia. cbn [obind].
  rewrite !u64_ok by flia. cbn [obind].
  destruct (Z.ltb_spec (m - 74 - (count - 1) * Parameters.segment_length p) 32) as [Hf|Hf].
  { split; [done|]. intros (Hwf & <- & <-). destruct Hwf as [_ Hc Hpt Hct Hu]. floe_consts.
    pose proof (window_body _ _ _ (proj1 Hc) Hpt) as Hw. fold (payload (MessageLayout.parameters l)) in Hs.
    rewrite <- Hs in Hw.
    assert (count = MessageLayout.segment_count l) as -> by (eapply window_unique; [| |apply Hw]; lia). nia. }
  rewrite checked_u64_some by (unfold in_u64; floe_consts; lia). cbn [ok_or obind].
  rewrite checked_u64_some by (unfold in_u64; floe_consts; nia). cbn [ok_or obind].
  split.
  - intros [= <-]. simpl. split_and!; try done. split; simpl; floe_consts; try done; nia.
  - intros (Hwf & Hp' & Hm'). destruct Hwf as [_ Hc Hpt Hct Hu]. floe_consts.
    destruct l as [p' n' c' k]; simpl in *. subst p' c'.
    pose proof (window_body _ _ _ (proj1 Hc) Hpt) as Hw. rewrite <- Hs in Hw.
    assert (count = k) as -> by (eapply window_unique; [| |apply Hw]; lia). do 2 f_equal; lia.
Qed.

Lemma plaintext_layout_returns p n : Parameters.valid p -> returns (plaintext_layout p n).
Proof.
  intros Hv. pose proof (valid_payload p Hv). unfold plaintext_layout.
  rewrite plaintext_segment_length_u32_ok by done. cbn [obind].
  replace (payload p =? 0) with false by lia. unfold ok_or, checked_u64.
  by repeat (case_match; simplify_eq/=).
Qed.

Lemma ciphertext_layout_returns p m : Parameters.valid p -> in_u64 m -> returns (ciphertext_layout p m).
Proof.
  intros Hv Hm. pose proof (valid_payload p Hv) as [Hs Hpl].
  unfold ciphertext_layout, Parameters.ciphertext_segment_length_u32. unfold in_u64 in Hm. floe_consts.
  unfold checked_u64 at 1, in_range. case_match; [|done]. cbn [ok_or obind].
  case_match; [done|]. case_match; [lia|].
  destruct (div_ceil_bounds (m - 74) (Parameters.segment_length p)) as [Hb|[? ?]]; [lia|lia| |lia].
  set (count := div_ceil (m - 74) (Parameters.segment_length p)) in *.
  assert (1 <= count) by nia. assert (0 <= (count - 1) * Parameters.segment_length p) by nia.
  destruct (Z.ltb_spec 1099511627776 count); [done|].
  rewrite u64_ok by flia. cbn [obind].
  rewrite u64_ok by flia. cbn [obind].
  rewrite u64_ok by flia. cbn [obind].
  unfold checked_u64. floe_consts. by repeat (case_match; simplify_eq/=).
Qed.

End Facts.
End LayoutFacts.
Import LayoutFacts.

Module SegmentsFacts.
Section Facts.
Context {T : Target} {E : Type}.
Implicit Types it : Segments.t.

(** The iterator has positions [start..stop] left to yield. *)
Definition wf it : Prop :=
  LayoutFacts.wf (Segments.layout it)
  /\ 0 <= Segments.start it /\ Segments.stop it <= MessageLayout.segment_count (Segments.layout it).

Definition remaining it : list Z := seqZ (Segments.start it) (Segments.stop it - Segments.start it).

(** A sequence of calls from both ends ([false] for [next], [true] for
    [next_back]): what the front and the back calls yielded, in call order. *)
Fixpoint drive (calls : list bool) : M E Segments.t (list SegmentLayout.t * list SegmentLayout.t) :=
  match calls with
  | [] => ret ([], [])
  | back :: calls =>
      let! item := (if back then Segments.next_back else Segments.next) in
      let! rest := drive calls in
      let (fs, bs) := rest in
      match item with
      | None => ret (fs, bs)
      | Some s => if back then ret (fs, s :: bs) else ret (s :: fs, bs)
      end
  end.

Lemma next_some it :
  wf it -> Segments.start it < Segments.stop it ->
  Segments.next (E := E) it
    = (Ok (Some (segment_of (Segments.layout it) (Segments.start it))),
       Segments.mk (Segments.layout it) (Segments.start it + 1) (Segments.stop it)).
Proof.
  intros (Hl & H0 & H1) H. unfold Segments.next, bindM, get, put, lift, ret, Segments.segment_at.
  replace (_ <? _) with true by lia.
  by rewrite segment_for_position_ok by (done || lia).
Qed.

Lemma next_back_some it :
  wf it -> Segments.start it < Segments.stop it ->
  Segments.next_back (E := E) it
    = (Ok (Some (segment_of (Segments.layout it) (Segments.stop it - 1))),
       Segments.mk (Segments.layout it) (Segments.start it) (Segments.stop it - 1)).
Proof.
  intros (Hl & H0 & H1) H. unfold Segments.next_back, bindM, get, put, lift, ret, Segments.segment_at.
  replace (_ <? _) with true by lia.
  by rewrite segment_for_position_ok by (done || lia).
Qed.

Lemma next_none it :
  Segments.stop it <= Segments.start it -> Segments.next (E := E) it = (Ok None, it).
Proof. intros. unfold Segments.next, bindM, get, ret. by replace (_ <? _) with false by lia. Qed.

Lemma next_back_none it :
  Segments.stop it <= Segments.start it -> Segments.next_back (E := E) it = (Ok None, it).
Proof. intros. unfold Segments.next_back, bindM, get, ret. by replace (_ <? _) with false by lia. Qed.

Lemma remaining_cons it :
  Segments.start it < Segments.stop it ->
  remaining it = Segments.start it :: remaining (Segments.mk (Segments.layout it) (Segments.start it + 1) (Segments.stop it)).
Proof.
  intros. unfold remaining; simpl. rewrite seqZ_cons by lia. f_equal. f_equal; lia.
Qed.

Lemma remaining_snoc it :
  Segments.start it < Segments.stop it ->
  remaining it = remaining (Segments.mk (Segments.layout it) (Segments.start it) (Segments.stop it - 1)) ++ [Segments.stop it - 1].
Proof.
  intros. unfold remaining; simpl.
  replace (Segments.stop it - Segments.start it) with ((Segments.stop it - 1 - Segments.start it) + 1) by lia.
  rewrite seqZ_app by lia. f_equal. rewrite seqZ_cons by lia. f_equal; lia.
Qed.

(** The ends of a range of positions. *)
Lemma seqZ_prefix front rest a n : front ++ rest = seqZ a n -> front = seqZ a (Z.of_nat (length front)).
Proof.
  intros H. pose proof (f_equal length H) as Hl. rewrite length_app, length_seqZ in Hl.
  destruct (decide (n = Z.of_nat (length front) + Z.of_nat (length rest) \/ front = [])) as [[->| ->]|Hn]; [|done|].
  - rewrite seqZ_app in H by lia. by apply app_inj_1 in H as [? _]; [|rewrite length_seqZ; lia].
  - destruct front; [by destruct Hn; right|cbn [length] in *; lia].
Qed.

Lemma seqZ_suffix front back a n :
  0 <= n -> front ++ back = seqZ a n -> back = seqZ (a + n - Z.of_nat (length back)) (Z.of_nat (length back)).
Proof.
  intros Hn H. pose proof (f_equal length H) as Hl. rewrite length_app, length_seqZ in Hl.
  replace n with (Z.of_nat (length front) + Z.of_nat (length back)) in * by lia.
  rewrite seqZ_app in H by lia. apply app_inj_1 in H as [_ ->]; [|rewrite length_seqZ; lia].
  rewrite length_seqZ. f_equal; lia.
Qed.

Lemma drive_partitions calls it :
  wf it ->
  exists fs bs it',
    drive calls it = (Ok (fs, bs), it') /\ wf it' /\ Segments.layout it' = Segments.layout it
    /\ fs ++ map (segment_of (Segments.layout it)) (remaining it') ++ rev bs
       = map (segment_of (Segments.layout it)) (remaining it)
    /\ (length fs + length bs = length calls `min` length (remaining it))%nat.
Proof.
  revert it; induction calls as [|back calls IH]; intros it Hwf.
  { exists [], [], it. simpl. by rewrite app_nil_r. }
  destruct (Z.lt_ge_cases (Segments.start it) (Segments.stop it)) as [Hlt|Hge].
  - destruct back.
    + destruct (IH (Segments.mk (Segments.layout it) (Segments.start it) (Segments.stop it - 1)))
        as (fs & bs & it' & Hd & Hwf' & Hl & Heq & Hcount).
      { destruct Hwf as (?&?&?). split_and!; simpl; done || lia. }
      exists fs, (segment_of (Segments.layout it) (Segments.stop it - 1) :: bs), it'.
      cbn [drive]. erewrite bindM_ok by (by apply next_back_some).
      erewrite bindM_ok by done. rewrite (remaining_snoc it), length_app by done. split_and!; try done.
      * rewrite map_app. cbn [Segments.layout] in Heq. rewrite <- Heq. simpl. by rewrite <- !app_assoc.
      * cbn [length]. lia.
    + destruct (IH (Segments.mk (Segments.layout it) (Segments.start it + 1) (Segments.stop it)))
        as (fs & bs & it' & Hd & Hwf' & Hl & Heq & Hcount).
      { destruct Hwf as (?&?&?). split_and!; simpl; done || lia. }
      exists (segment_of (Segments.layout it) (Segments.start it) :: fs), bs, it'.
      cbn [drive]. erewrite bindM_ok by (by apply next_some).
      erewrite bindM_ok by done. rewrite (remaining_cons it) by done. split_and!; try done.
      * cbn [Segments.layout map app] in *. by rewrite <- Heq.
      * cbn [length]. lia.
  - destruct (IH it Hwf) as (fs & bs & it' & Hd & Hwf' & Hl & Heq & Hcount). exists fs, bs, it'. split_and!; [|done..|].
    + cbn [drive]. erewrite bindM_ok by (destruct back; [by apply next_back_none|by apply next_none]).
      erewrite bindM_ok by done. done.
    + rewrite Hcount. unfold remaining. rewrite length_seqZ. cbn [length]. lia.
Qed.

End Facts.
End SegmentsFacts.

Module FramingFacts.
Section Facts.
Context {T : Target}.

(** The framing of a prefix value, when it has one. *)
Lemma decode_non_final p prefix :
  Parameters.valid p -> from_be_bytes prefix = u32_max ->
  SegmentFraming.decode p prefix
    = Ok (SegmentFraming.mk (Parameters.segment_length p) (payload p) SegmentKind.NonFinal).
Proof.
  intros Hv H. pose proof (valid_payload p Hv) as [Hs Hp]. pose proof u32_le_usize.
  unfold SegmentFraming.decode. rewrite H, Z.eqb_refl. cbn [obind].
  rewrite ciphertext_segment_length_ok by done. by rewrite usize_ok by flia.
Qed.

Lemma decode_final p prefix :
  Parameters.valid p -> 32 <= from_be_bytes prefix <= Parameters.segment_length p ->
  SegmentFraming.decode p prefix
    = Ok (SegmentFraming.mk (from_be_bytes prefix) (from_be_bytes prefix - 32) SegmentKind.Final).
Proof.
  intros Hv H. pose proof (valid_payload p Hv) as [Hs Hp]. pose proof u32_le_usize.
  unfold SegmentFraming.decode, Parameters.ciphertext_segment_length_u32.
  replace (from_be_bytes prefix =? u32_max) with false by flia.
  floe_consts. replace (_ && _) with true by lia. cbn [obind negb].
  rewrite length_u32_to_usize_id by (unfold in_u32; flia). rewrite usize_ok by flia. done.
Qed.

Lemma decode_invalid p prefix :
  Parameters.valid p -> zlen prefix = 4 ->
  from_be_bytes prefix <> u32_max -> ~ (32 <= from_be_bytes prefix <= Parameters.segment_length p) ->
  SegmentFraming.decode p prefix
    = Err (InvalidCiphertextLength (from_be_bytes prefix) (Between 32 (Parameters.segment_length p))).
Proof.
  intros Hv Hl H1 H2. pose proof (valid_payload p Hv) as [Hs Hp].
  pose proof (from_be_u32 prefix Hl).
  unfold SegmentFraming.decode, Parameters.ciphertext_segment_length_u32.
  replace (from_be_bytes prefix =? u32_max) with false by lia.
  floe_consts. replace (_ && _) with false by lia. cbn [obind negb].
  by rewrite length_u32_to_usize_id, ciphertext_segment_length_ok by done.
Qed.

(** The framing of a segment with a plaintext of [n] bytes. *)
Definition framing_of (kind : SegmentKind.t) (n : Z) : SegmentFraming.t :=
  SegmentFraming.mk (32 + n) n kind.

(** The prefix value that announces it. *)
Definition prefix_of (kind : SegmentKind.t) (n : Z) : Z :=
  match kind with SegmentKind.NonFinal => u32_max | SegmentKind.Final => 32 + n end.

Definition fits p (kind : SegmentKind.t) (n : Z) : Prop :=
  match kind with
  | SegmentKind.NonFinal => n = payload p
  | SegmentKind.Final => 0 <= n <= payload p
  end.

Lemma framing_decode_of p prefix kind n :
  Parameters.valid p -> fits p kind n -> from_be_bytes prefix = prefix_of kind n ->
  SegmentFraming.decode p prefix = Ok (framing_of kind n).
Proof.
  intros Hv Hf Hp. pose proof (valid_payload p Hv) as [Hs ?]. destruct kind; simpl in *.
  - rewrite decode_non_final by done. subst n. unfold framing_of. do 2 f_equal. lia.
  - rewrite decode_final by (rewrite ?Hp; done || lia). rewrite Hp. unfold framing_of. do 2 f_equal. lia.
Qed.

Lemma framing_decode_inv p prefix f :
  Parameters.valid p -> zlen prefix = 4 -> SegmentFraming.decode p prefix = Ok f ->
  exists kind n, fits p kind n /\ from_be_bytes prefix = prefix_of kind n /\ f = framing_of kind n.
Proof.
  intros Hv Hl Hd. pose proof (valid_payload p Hv) as [Hs ?].
  destruct (decide (from_be_bytes prefix = u32_max)) as [He|He].
  - rewrite decode_non_final in Hd by done. simplify_eq. exists SegmentKind.NonFinal, (payload p).
    split_and!; try done. unfold framing_of. f_equal. lia.
  - destruct (decide (32 <= from_be_bytes prefix <= Parameters.segment_length p)) as [Hr|Hr].
    + rewrite decode_final in Hd by done. simplify_eq.
      exists SegmentKind.Final, (from_be_bytes prefix - 32). simpl. split_and!; try lia. unfold framing_of. f_equal. lia.
    + by rewrite decode_invalid in Hd.
Qed.

Lemma framing_decode_returns p prefix : Parameters.valid p -> zlen prefix = 4 -> returns (SegmentFraming.decode p prefix).
Proof.
  intros Hv Hl. destruct (decide (from_be_bytes prefix = u32_max)); [by rewrite decode_non_final|].
  destruct (decide (32 <= from_be_bytes prefix <= Parameters.segment_length p));
    [by rewrite decode_final|by rewrite decode_invalid].
Qed.

End Facts.
End FramingFacts.
Import FramingFacts.

(** * Properties *)

Section Properties.
Context {T : Target}.

(** A layout that one of the two public constructors returned. *)
Definition produced (l : MessageLayout.t) : Prop :=
  exists p n, Parameters.valid p /\ in_u64 n
    /\ (plaintext_layout p n = Ok l \/ ciphertext_layout p n = Ok l).

Lemma produced_wf l : produced l -> LayoutFacts.wf l.
Proof.
  intros (p & n & Hv & Hn & [H|H]).
  - by apply plaintext_layout_ok in H as [? _].
  - by apply ciphertext_layout_ok in H as [? _].
Qed.

Lemma wf_ciphertext_u64 l : LayoutFacts.wf l -> in_u64 (MessageLayout.ciphertext_length l).
Proof.
  intros Hwf. assert (0 <= MessageLayout.plaintext_length l).
  { destruct (wf_position l 0 Hwf); destruct Hwf; lia. }
  destruct Hwf. unfold in_u64. lia.
Qed.

(** Parameter encodings and parameter sets correspond one to one. Decoding
    accepts a byte string exactly when it is the encoding of a valid parameter
    set, and returns that set. *)
Theorem parameters_decode_iff (b : bytes) (p : Parameters.t) :
  Parameters.decode b = Ok p <-> Parameters.valid p /\ b = Parameters.encode p.
Proof.
  split; [apply ParametersFacts.decode_inv|]. intros [Hv ->]. by apply ParametersFacts.decode_encode.
Qed.

(** C37: the layout of a plaintext length is recovered from the ciphertext
    length alone, so no two plaintext lengths share a ciphertext length. *)
Theorem layout_roundtrip (p : Parameters.t) (n : Z) (l : MessageLayout.t)
  (Hp : Parameters.valid p) (Hn : in_u64 n) (H : plaintext_layout p n = Ok l) :
  ciphertext_layout p (MessageLayout.ciphertext_length l) = Ok l
  /\ MessageLayout.plaintext_length l = n
  /\ forall n' l', in_u64 n' -> plaintext_layout p n' = Ok l' ->
       MessageLayout.ciphertext_length l' = MessageLayout.ciphertext_length l -> n' = n.
Proof.
  pose proof H as (Hwf & _ & Hpar & Hlen)%plaintext_layout_ok; [|done..].
  assert (forall l', LayoutFacts.wf l' -> MessageLayout.parameters l' = p ->
            ciphertext_layout p (MessageLayout.ciphertext_length l') = Ok l') as Hback.
  { intros l' Hwf' Hp'. apply ciphertext_layout_ok; [done|by apply wf_ciphertext_u64|done]. }
  split_and!; [by apply Hback|done|].
  intros n' l' Hn' (Hwf' & _ & Hpar' & Hlen')%plaintext_layout_ok Heq; [|done..].
  apply Hback in Hwf; [|done]. apply Hback in Hwf'; [|done]. rewrite Heq in Hwf'. congruence.
Qed.

(** C38: the segments of a layout tile the plaintext and the ciphertext. They
    start at offsets 0 and 74, each starts where the one before it ends, the
    last ends at the message's length, exactly the last is final, and every
    other one is full. No offset computation overflows. *)
Theorem segments_tile (l : MessageLayout.t) (i : Z)
  (Hl : produced l) (Hi : 0 <= i < MessageLayout.segment_count l) :
  exists s, MessageLayout.segment_for_position (E := Error) l i = Ok (Some s)
    /\ SegmentLayout.position s = i
    /\ SegmentLayout.ciphertext_length s = 32 + SegmentLayout.plaintext_length s
    /\ (SegmentLayout.is_final s = true <-> i + 1 = MessageLayout.segment_count l)
    /\ (SegmentLayout.is_final s = false ->
        SegmentLayout.ciphertext_length s = Parameters.segment_length (MessageLayout.parameters l))
    /\ SegmentLayout.ciphertext_length s <= Parameters.segment_length (MessageLayout.parameters l)
    /\ (i = 0 -> SegmentLayout.plaintext_offset s = 0 /\ SegmentLayout.ciphertext_offset s = 74)
    /\ (forall s', MessageLayout.segment_for_position (E := Error) l (i + 1) = Ok (Some s') ->
        SegmentLayout.plaintext_offset s' = SegmentLayout.plaintext_offset s + SegmentLayout.plaintext_length s
        /\ SegmentLayout.ciphertext_offset s' = SegmentLayout.ciphertext_offset s + SegmentLayout.ciphertext_length s)
    /\ (i + 1 = MessageLayout.segment_count l ->
        SegmentLayout.plaintext_offset s + SegmentLayout.plaintext_length s = MessageLayout.plaintext_length l
        /\ SegmentLayout.ciphertext_offset s + SegmentLayout.ciphertext_length s = MessageLayout.ciphertext_length l).
Proof.
  apply produced_wf in Hl as Hwf. exists (segment_of l i). split; [by apply segment_for_position_ok|].
  pose proof (wf_position l i Hwf Hi) as (H1 & H2 & H3 & H4 & H5 & H6).
  pose proof (wf_ciphertext _ Hwf) as Hct.
  destruct (valid_payload _ (wf_valid _ Hwf)) as [Hs Hp].
  unfold SegmentLayout.is_final, segment_of at 1 2 3 4 5 6; simpl.
  destruct (Z.eqb_spec (i + 1) (MessageLayout.segment_count l)) as [He|He]; simpl;
    split_and!; try done; try lia.
  - intros s'. by rewrite segment_for_position_none by lia.
  - intros s'. rewrite segment_for_position_ok by (done || lia). intros [= <-]. simpl. lia.
Qed.

(** C39: whatever the interleaving of calls to [next] and [next_back], the
    segment iterator yields every segment once. It never panics; every call
    yields a segment until the last one was yielded, and none after that; the
    front calls give the segments in ascending order from the first, the back
    calls in descending order from the last; and once there were as many calls
    as segments, together they are all segments of the layout. What is yielded
    for a position is that position's segment. *)
Theorem segments_iterator_partitions (l : MessageLayout.t) (calls : list bool) (Hl : produced l) :
  exists fs bs it,
    SegmentsFacts.drive (E := Error) calls (Segments.segments l) = (Ok (fs, bs), it)
    /\ Z.of_nat (length fs + length bs) = Z.min (Z.of_nat (length calls)) (MessageLayout.segment_count l)
    /\ map SegmentLayout.position fs = seqZ 0 (Z.of_nat (length fs))
    /\ map SegmentLayout.position (rev bs)
       = seqZ (MessageLayout.segment_count l - Z.of_nat (length bs)) (Z.of_nat (length bs))
    /\ (MessageLayout.segment_count l <= Z.of_nat (length calls) ->
        map SegmentLayout.position (fs ++ rev bs) = seqZ 0 (MessageLayout.segment_count l))
    /\ Forall (fun s => MessageLayout.segment_for_position (E := Error) l (SegmentLayout.position s) = Ok (Some s))
         (fs ++ bs).
Proof.
  apply produced_wf in Hl as Hwf. pose proof (wf_count _ Hwf).
  destruct (SegmentsFacts.drive_partitions (E := Error) calls (Segments.segments l))
    as (fs & bs & it & Hd & Hwf' & _ & Heq & Hcount); [by split_and!|].
  assert (Hrem : SegmentsFacts.remaining (Segments.segments l) = seqZ 0 (MessageLayout.segment_count l))
    by (unfold SegmentsFacts.remaining; simpl; f_equal; lia).
  rewrite Hrem in Heq, Hcount. rewrite length_seqZ in Hcount. cbn [Segments.layout Segments.segments] in Heq.
  pose proof (f_equal (map SegmentLayout.position) Heq) as Hpos.
  rewrite !map_app, !map_map in Hpos. cbn [SegmentLayout.position segment_of] in Hpos. rewrite !map_id in Hpos.
  exists fs, bs, it. split_and!; [done|lia|..].
  - by apply SegmentsFacts.seqZ_prefix in Hpos; rewrite length_map in Hpos.
  - rewrite app_assoc in Hpos. apply SegmentsFacts.seqZ_suffix in Hpos; [|lia].
    by rewrite length_map, length_rev in Hpos.
  - intros Hall. apply (f_equal length) in Hpos as Hlen. rewrite !length_app, !length_map, length_rev, length_seqZ in Hlen.
    destruct (SegmentsFacts.remaining it); [by rewrite map_app|cbn [length] in Hlen; lia].
  - assert (Hall : Forall (fun s => exists i, 0 <= i < MessageLayout.segment_count l /\ s = segment_of l i)
                     (map (segment_of l) (seqZ 0 (MessageLayout.segment_count l)))).
    { apply Forall_forall. intros s. rewrite list_elem_of_fmap. intros (i & -> & Hi).
      apply elem_of_seqZ in Hi. exists i. split; [lia|done]. }
    rewrite <- Heq in Hall. rewrite !Forall_app in Hall.
    destruct Hall as (Hf & _ & Hb). apply Forall_rev in Hb. rewrite rev_involutive in Hb.
    apply Forall_app_2; eapply Forall_impl; try done; intros s (i & Hi & ->); simpl;
      by apply segment_for_position_ok.
Qed.

(** C40: each constructor fails exactly in the cases the code names, with the
    values it reports: too many segments or a ciphertext length beyond [u64]
    for a plaintext length; a length below the header, a missing body, too many
    segments or a final segment below the overhead for a ciphertext length. A
    layout is returned only when none of these holds - the cases exclude each
    other - and it is the one of the length. *)
Theorem layout_errors (p : Parameters.t) (n : Z) (Hp : Parameters.valid p) (Hn : in_u64 n) :
  let payload := Parameters.segment_length p - 32 in
  let count := Z.max 1 (div_ceil n payload) in
  let body := n - 74 in
  let last := body mod Parameters.segment_length p in
  match plaintext_layout p n with
  | Ok l => n <= AEAD_MAX_SEGMENTS * payload /\ 74 + n + 32 * count <= u64_max
      /\ l = MessageLayout.mk p n (74 + n + 32 * count) count
  | Err SegmentLimit => AEAD_MAX_SEGMENTS * payload < n
  | Err LengthOverflow => n <= AEAD_MAX_SEGMENTS * payload /\ u64_max < 74 + n + 32 * count
  | _ => False
  end /\
  match ciphertext_layout p n with
  | Ok l => 0 < body <= AEAD_MAX_SEGMENTS * Parameters.segment_length p /\ (last = 0 \/ 32 <= last)
      /\ let count := div_ceil body (Parameters.segment_length p) in l = MessageLayout.mk p (body - 32 * count) n count
  | Err (InvalidHeaderLength actual) => body < 0 /\ actual = n
  | Err Truncated => body = 0
  | Err SegmentLimit => AEAD_MAX_SEGMENTS * Parameters.segment_length p < body
  | Err (InvalidCiphertextLength actual (Between minimum maximum)) =>
      0 < body <= AEAD_MAX_SEGMENTS * Parameters.segment_length p
      /\ 0 < last < 32 /\ actual = last /\ minimum = 32 /\ maximum = Parameters.segment_length p
  | _ => False
  end.
Proof.
  cbv zeta. pose proof (valid_payload p Hp) as [Hs Hpl]. unfold in_u64 in Hn. pose proof u32_le_usize as Hu. split.
  - unfold plaintext_layout. rewrite plaintext_segment_length_u32_ok by done. cbn [obind]. fold (payload p).
    replace (payload p =? 0) with false by lia. rewrite (Z.max_comm 1). floe_consts.
    destruct (div_ceil_bounds n (payload p)) as [Hb|[-> Hb]]; [lia|lia| |].
    + destruct (Z.ltb_spec 1099511627776 (Z.max (div_ceil n (payload p)) 1)); [nia|].
      assert (n <= 1099511627776 * payload p) by nia. unfold ok_or, checked_u64, in_range. floe_consts.
      repeat (case_match; simplify_eq/=); split_and?; try lia; f_equal; lia.
    + rewrite Hb. unfold ok_or, checked_u64, in_range. simpl. floe_consts. split_and!; done || lia.
  - unfold ciphertext_layout, Parameters.ciphertext_segment_length_u32. floe_consts.
    destruct (Z.le_gt_cases 74 n); cycle 1.
    { rewrite checked_u64_none by (unfold in_u64; lia). cbn [ok_or obind]. split; [lia|].
      unfold length_u64_to_usize_saturating. by rewrite usize_try_from_small by lia. }
    rewrite checked_u64_some by (unfold in_u64; flia). cbn [ok_or obind].
    destruct (Z.eqb_spec (n - 74) 0); [cbn; lia|].
    replace (Parameters.segment_length p =? 0) with false by lia.
    destruct (div_ceil_bounds (n - 74) (Parameters.segment_length p)) as [Hb|[? ?]]; [lia|lia| |lia].
    set (count := div_ceil (n - 74) (Parameters.segment_length p)) in *.
    assert (1 <= count) by nia. assert (0 <= (count - 1) * Parameters.segment_length p) by nia.
    destruct (Z.ltb_spec 1099511627776 count); [nia|].
    assert (n - 74 <= 1099511627776 * Parameters.segment_length p) by nia.
    assert ((n - 74) mod Parameters.segment_length p = 0
            \/ (n - 74) mod Parameters.segment_length p = n - 74 - (count - 1) * Parameters.segment_length p) as Hmod.
    { destruct (decide (n - 74 = count * Parameters.segment_length p)) as [->|]; [left; apply Z.mod_mul; lia|].
      right. symmetry. apply Z.mod_unique with (count - 1); lia. }
    do 3 (rewrite u64_ok by flia; cbn [obind]).
    destruct (Z.ltb_spec (n - 74 - (count - 1) * Parameters.segment_length p) 32) as [Hf|Hf].
    + unfold length_u64_to_usize_saturating. rewrite usize_try_from_small by lia.
      rewrite ciphertext_segment_length_ok by done.
      rewrite <- (Z.mod_unique (n - 74) (Parameters.segment_length p) (count - 1)
                    (n - 74 - (count - 1) * Parameters.segment_length p)) by lia.
      split_and!; lia.
    + rewrite checked_u64_some by (unfold in_u64; flia). cbn [ok_or obind].
      rewrite checked_u64_some by (unfold in_u64; floe_consts; nia). cbn [obind].
      split_and!; [lia..|lia|f_equal; lia].
Qed.

(** A segment prefix announces a framing exactly when it is the prefix the
    encoder writes for that kind and payload length; every other four-byte
    prefix is rejected with the declared value and the permitted range. *)
Theorem segment_framing_decode (p : Parameters.t) (prefix : bytes)
  (Hp : Parameters.valid p) (Hl : zlen prefix = 4) :
  match SegmentFraming.decode p prefix with
  | Ok f =>
      FramingFacts.fits p (SegmentFraming.kind f) (SegmentFraming.plaintext_length f)
      /\ SegmentFraming.ciphertext_length f = 32 + SegmentFraming.plaintext_length f
      /\ prefix = u32_to_be_bytes
                    (match SegmentFraming.kind f with
                     | SegmentKind.NonFinal => u32_max
                     | SegmentKind.Final => SegmentFraming.ciphertext_length f
                     end)
  | Err e =>
      e = InvalidCiphertextLength (from_be_bytes prefix) (Between 32 (Parameters.segment_length p))
      /\ from_be_bytes prefix <> u32_max
      /\ ~ 32 <= from_be_bytes prefix <= Parameters.segment_length p
  | Halt _ => False
  end.
Proof.
  pose proof (valid_payload p Hp) as [Hs ?].
  destruct (decide (from_be_bytes prefix = u32_max)) as [He|He].
  - rewrite decode_non_final by done. simpl. split_and!; [done|lia|].
    by rewrite <- He, u32_to_from_be.
  - destruct (decide (32 <= from_be_bytes prefix <= Parameters.segment_length p)) as [Hr|Hr].
    + rewrite decode_final by done. simpl. split_and!; [lia|lia|lia|]. by rewrite u32_to_from_be.
    + rewrite decode_invalid by done. split_and!; try done; lia.
Qed.

(** The segment that serves a plaintext offset contains it. *)
Lemma position_for_plaintext_offset_contains (l : MessageLayout.t) (o : Z)
  (Hl : produced l) (Ho : 0 <= o < MessageLayout.plaintext_length l) :
  exists i s, MessageLayout.position_for_plaintext_offset (E := Error) l o = Ok i
    /\ MessageLayout.segment_for_position (E := Error) l i = Ok (Some s)
    /\ SegmentLayout.plaintext_offset s <= o
       < SegmentLayout.plaintext_offset s + SegmentLayout.plaintext_length s.
Proof.
  apply produced_wf in Hl as Hwf. pose proof (wf_plaintext _ Hwf).
  destruct (valid_payload _ (wf_valid _ Hwf)) as [Hs Hp].
  set (pl := payload (MessageLayout.parameters l)) in *.
  pose proof (Z.div_mod o pl). pose proof (Z.mod_pos_bound o pl).
  assert (0 <= o / pl) by (apply Z.div_pos; lia).
  assert (o / pl < MessageLayout.segment_count l) by (apply Z.div_lt_upper_bound; lia).
  exists (o / pl), (segment_of l (o / pl)).
  unfold MessageLayout.position_for_plaintext_offset.
  rewrite plaintext_segment_length_u32_ok by (apply Hwf). cbn [obind]. fold pl.
  replace (pl =? 0) with false by lia. split_and!; [done|by apply segment_for_position_ok| |].
  - simpl. fold pl. lia.
  - unfold segment_of; simpl. fold pl. destruct (Z.eqb_spec (o / pl + 1) (MessageLayout.segment_count l)); lia.
Qed.

End Properties.

(** ** Witnesses *)

Lemma layout_roundtrip_witness :
  plaintext_layout Parameters.SEGMENT_64_B 100
    = Ok (MessageLayout.mk Parameters.SEGMENT_64_B 100 302 4)
  /\ ciphertext_layout Parameters.SEGMENT_64_B 302
    = Ok (MessageLayout.mk Parameters.SEGMENT_64_B 100 302 4).
Proof.
  split; [by vm_compute|].
  apply (layout_roundtrip Parameters.SEGMENT_64_B 100 (MessageLayout.mk Parameters.SEGMENT_64_B 100 302 4));
    [done|done|by vm_compute].
Defined.

(** A message of 100 bytes in 64-byte segments: three full segments and one of 4 bytes. *)
Definition example_layout : MessageLayout.t := MessageLayout.mk Parameters.SEGMENT_64_B 100 302 4.

Lemma example_layout_produced : produced (T := target64) example_layout.
Proof. exists Parameters.SEGMENT_64_B, 100. split_and!; [done..|left; by vm_compute]. Qed.

Lemma segments_tile_witness :
  exists s, MessageLayout.segment_for_position (T := target64) (E := Error) example_layout 3 = Ok (Some s)
    /\ SegmentLayout.is_final s = true.
Proof.
  destruct (segments_tile (T := target64) example_layout 3 example_layout_produced ltac:(done))
    as (s & Hs & _ & _ & Hf & _).
  exists s. split; [exact Hs|]. by apply Hf.
Defined.

Lemma segments_iterator_partitions_witness :
  exists fs bs it,
    SegmentsFacts.drive (T := target64) (E := Error) [false; true; true; false; false]
      (Segments.segments example_layout) = (Ok (fs, bs), it)
    /\ (length fs + length bs = 4)%nat
    /\ map SegmentLayout.position (fs ++ rev bs) = [0; 1; 2; 3].
Proof.
  destruct (segments_iterator_partitions (T := target64) example_layout
              [false; true; true; false; false] example_layout_produced)
    as (fs & bs & it & Hd & Hn & _ & _ & Hp & _).
  exists fs, bs, it. split; [exact Hd|]. split; [apply Nat2Z.inj; exact Hn|exact (Hp ltac:(done))].
Defined.

Lemma layout_errors_witness :
  (plaintext_layout Parameters.SEGMENT_64_B 100 = Ok example_layout
   /\ example_layout = MessageLayout.mk Parameters.SEGMENT_64_B 100 (74 + 100 + 32 * 4) 4)
  /\ (ciphertext_layout (T := target64) Parameters.SEGMENT_64_B 148 = Err (InvalidCiphertextLength 10 (Between 32 64))
      /\ 0 < (148 - 74) mod 64 < 32).
Proof.
  assert (plaintext_layout Parameters.SEGMENT_64_B 100 = Ok example_layout) as E1 by (by vm_compute).
  assert (ciphertext_layout (T := target64) Parameters.SEGMENT_64_B 148 = Err (InvalidCiphertextLength 10 (Between 32 64)))
    as E2 by (by vm_compute).
  split; split; [exact E1| |exact E2|].
  - pose proof (layout_errors (T := target64) Parameters.SEGMENT_64_B 100 ltac:(done) ltac:(done)) as H.
    cbv zeta in H. rewrite E1 in H. exact (proj2 (proj2 (proj1 H))).
  - pose proof (layout_errors (T := target64) Parameters.SEGMENT_64_B 148 ltac:(done) ltac:(done)) as H.
    cbv zeta in H. rewrite E2 in H. exact (proj1 (proj2 (proj2 H))).
Defined.

Lemma segment_framing_decode_witness :
  FramingFacts.fits Parameters.SEGMENT_64_B SegmentKind.Final 8
  /\ 40 = 32 + 8
  /\ u32_to_be_bytes 40 = u32_to_be_bytes 40.
Proof.
  exact (segment_framing_decode (T := target64) Parameters.SEGMENT_64_B (u32_to_be_bytes 40)
           ltac:(done) ltac:(done)).
Defined.

Lemma position_for_plaintext_offset_contains_witness :
  exists i s, MessageLayout.position_for_plaintext_offset (E := Error) example_layout 97 = Ok i
    /\ MessageLayout.segment_for_position (T := target64) (E := Error) example_layout i = Ok (Some s)
    /\ SegmentLayout.plaintext_offset s <= 97
       < SegmentLayout.plaintext_offset s + SegmentLayout.plaintext_length s.
Proof.
  exact (position_for_plaintext_offset_contains (T := target64) example_layout 97
           example_layout_produced ltac:(done)).
Defined.
