(* ===== verification/Provider.v ===== *)
(** * Providers

    [src/provider.rs]: the providers, which of them a build contains, and the
    build's default. The Cargo features of a build are a class; [src/lib.rs]
    refuses a build with none of them. *)

From S2P Require Import Prelude.
From stdpp Require Import strings.

(** The Cargo features that select backends. *)
Class Features := {
  feature_aws_lc_rs : bool;
  feature_boring : bool;
  feature_ring : bool;
  feature_rustcrypto : bool;
  some_feature : feature_aws_lc_rs || feature_boring || feature_ring || feature_rustcrypto = true
}.

Module ProviderKind.

Inductive t :=
| AwsLcRs
| Boring
| Ring
| RustCrypto.

#[global] Instance t_eq_dec : EqDecision t.
Proof. solve_decision. Defined.

End ProviderKind.

Module Provider.

(** The tuple struct [Provider(ProviderKind)]. *)
Record t := mk { kind : ProviderKind.t }.

#[global] Instance t_eq_dec : EqDecision t.
Proof. solve_decision. Defined.

Definition AWS_LC_RS : t := mk ProviderKind.AwsLcRs.
Definition BORING : t := mk ProviderKind.Boring.
Definition RING : t := mk ProviderKind.Ring.
Definition RUSTCRYPTO : t := mk ProviderKind.RustCrypto.

Section Build.
Context {F : Features}.

Definition COMPILED : list t :=
  (if feature_aws_lc_rs then [AWS_LC_RS] else [])
    ++ (if feature_boring then [BORING] else [])
    ++ (if feature_ring then [RING] else [])
    ++ (if feature_rustcrypto then [RUSTCRYPTO] else []).

Definition build_default : option t :=
  match COMPILED with
  | [provider] => Some provider
  | _ => None
  end.

End Build.

Definition name (self : t) : string :=
  match kind self with
  | ProviderKind.AwsLcRs => "aws-lc-rs"
  | ProviderKind.Boring => "boring"
  | ProviderKind.Ring => "ring"
  | ProviderKind.RustCrypto => "rustcrypto"
  end.

End Provider.

(** ** Lemmas *)

Section Facts.
Context {F : Features}.

Lemma compiled_nonempty : Provider.COMPILED <> [].
Proof.
  unfold Provider.COMPILED. pose proof some_feature.
  by destruct feature_aws_lc_rs, feature_boring, feature_ring, feature_rustcrypto.
Qed.

Lemma compiled_nodup : NoDup Provider.COMPILED.
Proof.
  unfold Provider.COMPILED.
  destruct feature_aws_lc_rs, feature_boring, feature_ring, feature_rustcrypto;
    apply (bool_decide_unpack _); by vm_compute.
Qed.

Lemma build_default_iff p : Provider.build_default = Some p <-> Provider.COMPILED = [p].
Proof.
  unfold Provider.build_default. destruct Provider.COMPILED as [|q []]; naive_solver.
Qed.

End Facts.

(** A build with the default feature set. *)
#[export] Instance default_features : Features := {|
  feature_aws_lc_rs := true;
  feature_boring := false;
  feature_ring := false;
  feature_rustcrypto := false;
  some_feature := eq_refl
|}.
