(* ===== verification/Crypto.v ===== *)
(** * The interface to the cryptographic backends

    What [src/state.rs] and [src/key.rs] use of [src/backends.rs]: the [Backend]
    operations, and [BackendOk], what these promise in terms of the algorithms
    ([Primitives]). The clients are proved against this interface;
    [Backends.v] models the code that implements it over the four crates. *)

From S2P Require Import Prelude Bytes Error Parameters Provider.

(** ** The algorithms, as functions *)

Class Primitives := {
  (** AES-256-GCM: key, nonce, associated data and plaintext to ciphertext and tag. *)
  gcm_encrypt : bytes -> bytes -> bytes -> bytes -> bytes * bytes;
  (** Key, nonce, associated data, ciphertext and tag to plaintext. *)
  gcm_decrypt : bytes -> bytes -> bytes -> bytes -> bytes -> option bytes;
  (** HMAC-SHA-384: key and message to a 48-byte tag. *)
  hmac_sha384 : bytes -> bytes -> bytes
}.

(** AES-GCM's limit on one plaintext, [2^39 - 256] bits. *)
Definition gcm_max_plaintext : Z := 2 ^ 36 - 32.

(** What NIST SP 800-38D and RFC 2104 state of the algorithms: GCM is
    length-preserving with a 16-byte tag and a deterministic inverse pair, an
    HMAC-SHA-384 value has 48 bytes. *)
Class PrimitivesOk {P : Primitives} : Prop := {
  gcm_ciphertext_length k n a p : zlen (fst (gcm_encrypt k n a p)) = zlen p;
  gcm_tag_length k n a p : zlen (snd (gcm_encrypt k n a p)) = 16;
  gcm_decrypt_encrypt k n a p :
    gcm_decrypt k n a (fst (gcm_encrypt k n a p)) (snd (gcm_encrypt k n a p)) = Some p;
  gcm_encrypt_decrypt k n a c t p :
    zlen t = 16 -> gcm_decrypt k n a c t = Some p -> gcm_encrypt k n a p = (c, t);
  hmac_length k m : zlen (hmac_sha384 k m) = 48
}.

Section Kdf.
Context {P : Primitives}.

(** HKDF-Expand with SHA-384 for an output of at most one block (48 bytes):
    the first [n] bytes of [T(1) = HMAC(prk, info || 0x01)]. *)
Definition kdf (prk info : bytes) (n : Z) : bytes := ztake n (hmac_sha384 prk (info ++ [byte_of_Z 1])).

Lemma zlen_kdf {POk : PrimitivesOk} prk info n : 0 <= n <= 48 -> zlen (kdf prk info n) = n.
Proof. intros. unfold kdf. rewrite zlen_ztake, hmac_length. lia. Qed.

Lemma gcm_decrypt_length {POk : PrimitivesOk} k n a c t p :
  zlen t = 16 -> gcm_decrypt k n a c t = Some p -> zlen p = zlen c.
Proof.
  intros Ht H%gcm_encrypt_decrypt; [|done].
  rewrite <- (gcm_ciphertext_length k n a p), H. done.
Qed.

End Kdf.

(** ** The [zeroize] and [subtle] crates

    [zeroize] overwrites a byte buffer with zeros, [ct_eq] compares two slices. *)
Class Support := {
  zeroize : bytes -> bytes;
  ct_eq : bytes -> bytes -> bool
}.

Class SupportOk {S : Support} : Prop := {
  zeroize_zeros b : zeroize b = zeros (zlen b);
  ct_eq_iff a b : ct_eq a b = true <-> a = b
}.

(** ** The operations of [src/backends.rs]

    Slices the Rust functions borrow mutably are the cells of [M]. The random
    source of the operating system is an argument of the generator's
    constructor: each generator draws from an oracle of its own, and theorems
    hold for every oracle. *)
Class Backend := {
  AeadKey : Type;
  Entropy : Type;
  ProviderRng : Type;
  AeadKey_new : Provider.t -> bytes -> Result AeadKey;
  (** cells: the plaintext, replaced by the ciphertext, and the tag *)
  AeadKey_seal : AeadKey -> bytes -> bytes -> M Error (bytes * bytes) unit;
  (** cell: [ciphertext || tag] *)
  AeadKey_seal_into : AeadKey -> bytes -> bytes -> bytes -> M Error bytes unit;
  (** arguments: nonce, associated data, ciphertext, tag; cell: the plaintext *)
  AeadKey_open : AeadKey -> bytes -> bytes -> bytes -> bytes -> M Error bytes unit;
  (** arguments: nonce, associated data, tag; cell: the ciphertext, replaced by the plaintext *)
  AeadKey_open_in_place : AeadKey -> bytes -> bytes -> bytes -> M Error bytes unit;
  (** [kdf_expand::<N>(key, info)] *)
  kdf_expand : Provider.t -> Z -> bytes -> list bytes -> Result bytes;
  ProviderRng_new : Provider.t -> Entropy -> ProviderRng;
  ProviderRng_fill : M Error (ProviderRng * bytes) unit;
  ProviderRng_generate_key : M Error (ProviderRng * bytes) unit
}.

Section Promises.
Context {P : Primitives}.

(** The outcome of sealing a plaintext, given what the cells then hold. *)
Definition seal_outcome (key nonce aad plaintext : bytes) (r : Result unit) (out : bytes * bytes) : Prop :=
  match r with
  | Ok _ => out = gcm_encrypt key nonce aad plaintext
  | Err e => e = CryptoFailure /\ zlen (fst out) = zlen plaintext /\ zlen (snd out) = 16
  | Halt _ => False
  end.

(** The outcome of opening: the plaintext, or a failure that leaves a buffer of
    the same length with unspecified contents. *)
Definition open_outcome (key nonce aad ciphertext tag : bytes) (r : Result unit) (out : bytes) : Prop :=
  match gcm_decrypt key nonce aad ciphertext tag with
  | Some plaintext => r = Ok tt /\ out = plaintext
  | None => r = Err AuthenticationFailed /\ zlen out = zlen ciphertext
  end.

End Promises.

(** What the operations promise. *)
Class BackendOk {P : Primitives} {B : Backend} := {
  (** the key bytes a backend key stands for *)
  key_material : AeadKey -> bytes;
  aead_new_material p k key : AeadKey_new p k = Ok key -> key_material key = k;
  aead_new_promise p k :
    zlen k = 32 -> (exists key, AeadKey_new p k = Ok key) \/ AeadKey_new p k = Err CryptoFailure;
  seal_promise key nonce aad plaintext tag :
    zlen nonce = 12 -> zlen tag = 16 -> zlen plaintext <= gcm_max_plaintext ->
    wp (AeadKey_seal key nonce aad) (plaintext, tag) (seal_outcome (key_material key) nonce aad plaintext);
  seal_into_promise key nonce aad plaintext output :
    zlen nonce = 12 -> zlen output = zlen plaintext + 16 -> zlen output <= u32_max ->
    wp (AeadKey_seal_into key nonce aad plaintext) output
      (fun r out => zlen out = zlen output
         /\ seal_outcome (key_material key) nonce aad plaintext r
              (ztake (zlen plaintext) out, zdrop (zlen plaintext) out));
  open_promise key nonce aad ciphertext tag output :
    zlen nonce = 12 -> zlen tag = 16 -> zlen ciphertext <= gcm_max_plaintext ->
    zlen output = zlen ciphertext ->
    wp (AeadKey_open key nonce aad ciphertext tag) output
      (open_outcome (key_material key) nonce aad ciphertext tag);
  open_in_place_promise key nonce aad tag ciphertext :
    zlen nonce = 12 -> zlen tag = 16 -> zlen ciphertext <= gcm_max_plaintext ->
    wp (AeadKey_open_in_place key nonce aad tag) ciphertext
      (open_outcome (key_material key) nonce aad ciphertext tag);
  kdf_promise p n k info :
    0 <= n <= 48 ->
    kdf_expand p n k info = Ok (kdf k (concat info) n) \/ kdf_expand p n k info = Err CryptoFailure;
  fill_promise rng output :
    wp ProviderRng_fill (rng, output)
      (fun r s => (r = Ok tt \/ r = Err RngFailure) /\ zlen (snd s) = zlen output);
  generate_key_promise rng output :
    wp ProviderRng_generate_key (rng, output)
      (fun r s => (r = Ok tt \/ r = Err RngFailure) /\ zlen (snd s) = zlen output)
}.

(** A backend whose operations never fail: the conditions under which the
    crate's operations succeed rather than merely being right when they do. *)
Class BackendTotal {P : Primitives} {B : Backend} {BOk : BackendOk} : Prop := {
  aead_new_total p k : zlen k = 32 -> exists key, AeadKey_new p k = Ok key;
  kdf_total p n k info : 0 <= n <= 48 -> kdf_expand p n k info <> Err CryptoFailure;
  seal_total key nonce aad plaintext tag :
    zlen nonce = 12 -> zlen tag = 16 -> zlen plaintext <= gcm_max_plaintext ->
    fst (AeadKey_seal key nonce aad (plaintext, tag)) <> Err CryptoFailure;
  seal_into_total key nonce aad plaintext output :
    zlen nonce = 12 -> zlen output = zlen plaintext + 16 -> zlen output <= u32_max ->
    fst (AeadKey_seal_into key nonce aad plaintext output) <> Err CryptoFailure;
  fill_total s : fst (ProviderRng_fill s) <> Err RngFailure
}.
