(* ===== verification/Vendors.v ===== *)
(** * The cryptographic crates

    The functions of aes-gcm, hmac, rand_chacha, getrandom, aws-lc-rs, boring
    and ring that [src/backends.rs] calls are parameters: one class per crate
    family, and next to each a class of what its documentation states. A
    function that can fail returns the crate's error as [unit]; a slice that it
    borrows mutably is a cell. *)

From S2P Require Import Prelude Bytes Error Parameters Provider Crypto.

(** ** What the AEAD functions of all crates document *)

Section Documented.
Context {P : Primitives}.

(** Sealing [plaintext] leaves the ciphertext in the buffer and returns the tag. *)
Definition sealed (key nonce aad plaintext : bytes) (r : outcome unit bytes) (out : bytes) : Prop :=
  match r with
  | Ok tag => (out, tag) = gcm_encrypt key nonce aad plaintext
  | Err _ => zlen out = zlen plaintext
  | Halt _ => False
  end.

(** Opening succeeds exactly on an authentic ciphertext. *)
Definition opened (key nonce aad ciphertext tag : bytes) (r : outcome unit unit) (out : bytes) : Prop :=
  match gcm_decrypt key nonce aad ciphertext tag with
  | Some plaintext => r = Ok tt /\ out = plaintext
  | None => r = Err tt /\ zlen out = zlen ciphertext
  end.

(** HKDF-Expand of RFC 5869 with SHA-384: the blocks
    [T(i) = HMAC(prk, T(i-1) || info || i)] and the first [n] of their bytes. *)
Fixpoint hkdf_blocks (prk info previous : bytes) (i : Z) (count : nat) : bytes :=
  match count with
  | O => []
  | S count =>
      let block := hmac_sha384 prk (previous ++ info ++ [byte_of_Z i]) in
      block ++ hkdf_blocks prk info block (i + 1) count
  end.

Definition hkdf_expand (prk info : bytes) (n : Z) : bytes :=
  ztake n (hkdf_blocks prk info [] 1 (Z.to_nat (div_ceil n 48))).

(** An output of at most one block is what [Crypto.kdf] is. *)
Lemma hkdf_expand_kdf prk info n : 0 <= n <= 48 -> hkdf_expand prk info n = kdf prk info n.
Proof.
  intros Hn. unfold hkdf_expand, kdf. destruct (decide (n = 0)) as [->|Hz]; [by rewrite !ztake_le0 by lia|].
  assert (div_ceil n 48 = 1) as -> by (unfold div_ceil; destruct (decide (n = 48)) as [->|]; [done|];
    rewrite Z.div_small, Z.mod_small by lia; by case_match; lia).
  change (Z.to_nat 1) with 1%nat. cbn [hkdf_blocks app]. by rewrite app_nil_r.
Qed.

Definition fits (nonce plaintext : bytes) : Prop := zlen nonce = 12 /\ zlen plaintext <= gcm_max_plaintext.

End Documented.

(** ** aes-gcm, hmac and rand_chacha *)

Class RustCrypto := {
  Aes256Gcm : Type;
  rc_new_from_slice : bytes -> outcome unit Aes256Gcm;
  (** [InOutBuf::new(input, output)] *)
  rc_inout_new : bytes -> bytes -> outcome unit unit;
  (** key, nonce, associated data, input; cell: the output; result: the tag *)
  rc_encrypt_inout_detached : Aes256Gcm -> bytes -> bytes -> bytes -> M unit bytes bytes;
  (** key, nonce, associated data, input, tag; cell: the output *)
  rc_decrypt_inout_detached : Aes256Gcm -> bytes -> bytes -> bytes -> bytes -> M unit bytes unit;
  HmacSha384 : Type;
  rc_hmac_new_from_slice : bytes -> outcome unit HmacSha384;
  rc_hmac_update : HmacSha384 -> bytes -> HmacSha384;
  rc_hmac_finalize : HmacSha384 -> bytes;
  ChaCha12Rng : Type;
  rc_from_seed : bytes -> ChaCha12Rng;
  rc_fill_bytes : ChaCha12Rng -> bytes -> ChaCha12Rng * bytes
}.

Class RustCryptoOk {P : Primitives} {V : RustCrypto} := {
  rc_material : Aes256Gcm -> bytes;
  rc_new_ok k : zlen k = 32 ->
    (exists key, rc_new_from_slice k = Ok key) \/ rc_new_from_slice k = Err tt;
  rc_new_material k key : rc_new_from_slice k = Ok key -> rc_material key = k;
  rc_inout_ok a b : rc_inout_new a b = if zlen a =? zlen b then Ok tt else Err tt;
  rc_encrypt_ok key nonce aad input output :
    fits nonce input -> zlen output = zlen input ->
    wp (rc_encrypt_inout_detached key nonce aad input) output (sealed (rc_material key) nonce aad input);
  rc_decrypt_ok key nonce aad input tag output :
    fits nonce input -> zlen tag = 16 -> zlen output = zlen input ->
    wp (rc_decrypt_inout_detached key nonce aad input tag) output (opened (rc_material key) nonce aad input tag);
  rc_hmac_new_ok k : (exists h, rc_hmac_new_from_slice k = Ok h) \/ rc_hmac_new_from_slice k = Err tt;
  rc_hmac_ok k h parts :
    rc_hmac_new_from_slice k = Ok h ->
    rc_hmac_finalize (fold_left rc_hmac_update parts h) = hmac_sha384 k (concat parts);
  rc_fill_bytes_length rng output : zlen (snd (rc_fill_bytes rng output)) = zlen output
}.

(** ** aws-lc-rs *)

Class AwsLcRs := {
  AwsUnboundKey : Type;
  AwsLessSafeKey : Type;
  aws_unbound_new : bytes -> outcome unit AwsUnboundKey;
  aws_less_safe_new : AwsUnboundKey -> AwsLessSafeKey;
  (** key, nonce, associated data; cell: [in_out]; result: the tag *)
  aws_seal_in_place_separate_tag : AwsLessSafeKey -> bytes -> bytes -> M unit bytes bytes;
  (** key, nonce, associated data, [extra_in]; cells: [in_out] and [extra_out_and_tag] *)
  aws_seal_in_place_scatter : AwsLessSafeKey -> bytes -> bytes -> bytes -> M unit (bytes * bytes) unit;
  (** key, nonce, associated data, ciphertext, tag; cell: the plaintext *)
  aws_open_separate_gather : AwsLessSafeKey -> bytes -> bytes -> bytes -> bytes -> M unit bytes unit;
  (** key, nonce, associated data, tag; cell: [in_out]; result: the plaintext *)
  aws_open_in_place_separate_tag : AwsLessSafeKey -> bytes -> bytes -> bytes -> M unit bytes bytes;
  AwsPrk : Type;
  AwsOkm : Type;
  aws_prk_new : bytes -> AwsPrk;
  aws_expand : AwsPrk -> list bytes -> Z -> outcome unit AwsOkm;
  aws_okm_fill : AwsOkm -> M unit bytes unit
}.

Class AwsLcRsOk {P : Primitives} {V : AwsLcRs} := {
  aws_material : AwsLessSafeKey -> bytes;
  aws_new_ok k : zlen k = 32 -> (exists key, aws_unbound_new k = Ok key) \/ aws_unbound_new k = Err tt;
  aws_new_material k key : aws_unbound_new k = Ok key -> aws_material (aws_less_safe_new key) = k;
  aws_seal_ok key nonce aad plaintext :
    fits nonce plaintext ->
    wp (aws_seal_in_place_separate_tag key nonce aad) plaintext (sealed (aws_material key) nonce aad plaintext);
  aws_scatter_ok key nonce aad plaintext output :
    fits nonce plaintext -> zlen output = zlen plaintext + 16 ->
    wp (aws_seal_in_place_scatter key nonce aad plaintext) ([], output) (fun r s =>
      zlen (snd s) = zlen output /\
      match r with
      | Ok _ => let (c, t) := gcm_encrypt (aws_material key) nonce aad plaintext in snd s = c ++ t
      | Err _ => True
      | Halt _ => False
      end);
  aws_gather_ok key nonce aad ciphertext tag output :
    fits nonce ciphertext -> zlen tag = 16 -> zlen output = zlen ciphertext ->
    wp (aws_open_separate_gather key nonce aad ciphertext tag) output
      (opened (aws_material key) nonce aad ciphertext tag);
  aws_open_ok key nonce aad tag ciphertext :
    fits nonce ciphertext -> zlen tag = 16 ->
    wp (aws_open_in_place_separate_tag key nonce aad tag) ciphertext
      (fun r out => opened (aws_material key) nonce aad ciphertext tag (omap_ok (fun _ => tt) r) out);
  aws_expand_ok k info n :
    match aws_expand (aws_prk_new k) info n with
    | Ok okm => forall output, zlen output = n ->
        wp (aws_okm_fill okm) output (fun r out =>
          match r with
          | Ok _ => out = hkdf_expand k (concat info) n
          | Err _ => True
          | Halt _ => False
          end)
    | Err _ => True
    | Halt _ => False
    end
}.

(** ** boring *)

Class BoringCrate := {
  AeadCtx : Type;
  boring_ctx_new : bytes -> Z -> outcome unit AeadCtx;
  (** key, nonce, associated data; cells: [in_out] and the tag; result: the
      part of the tag buffer that was written *)
  boring_seal_in_place : AeadCtx -> bytes -> bytes -> M unit (bytes * bytes) bytes;
  (** key, nonce, associated data, extra input; cells: [in_out] and the output
      for the extra ciphertext and the tag; result: what was written to it *)
  boring_seal_scatter : AeadCtx -> bytes -> bytes -> option bytes -> M unit (bytes * bytes) bytes;
  (** key, nonce, tag, associated data; cell: [in_out] *)
  boring_open_in_place : AeadCtx -> bytes -> bytes -> bytes -> M unit bytes unit;
  BoringHmac : Type;
  boring_hmac_init : bytes -> outcome unit BoringHmac;
  boring_hmac_update : BoringHmac -> bytes -> outcome unit BoringHmac;
  boring_hmac_finalize : BoringHmac -> outcome unit bytes
}.

(** [boring_fed h parts h']: the updates of [h] with [parts] succeeded. *)
Inductive boring_fed `{BoringCrate} : BoringHmac -> list bytes -> BoringHmac -> Prop :=
| fed_nil h : boring_fed h [] h
| fed_cons h part h' parts h'' :
    boring_hmac_update h part = Ok h' -> boring_fed h' parts h'' -> boring_fed h (part :: parts) h''.

Class BoringOk {P : Primitives} {V : BoringCrate} := {
  boring_material : AeadCtx -> bytes;
  boring_new_ok k : zlen k = 32 -> (exists key, boring_ctx_new k 16 = Ok key) \/ boring_ctx_new k 16 = Err tt;
  boring_new_material k key : boring_ctx_new k 16 = Ok key -> boring_material key = k;
  boring_seal_ok key nonce aad plaintext tag :
    fits nonce plaintext -> zlen tag = 16 ->
    wp (boring_seal_in_place key nonce aad) (plaintext, tag) (fun r s =>
      zlen (fst s) = zlen plaintext /\ zlen (snd s) = 16 /\
      match r with
      | Ok written => zlen written = 16 -> s = gcm_encrypt (boring_material key) nonce aad plaintext
      | Err _ => True
      | Halt _ => False
      end);
  boring_scatter_ok key nonce aad plaintext output :
    fits nonce plaintext -> zlen output = zlen plaintext + 16 ->
    wp (boring_seal_scatter key nonce aad (Some plaintext)) ([], output) (fun r s =>
      zlen (snd s) = zlen output /\
      match r with
      | Ok written => zlen written = zlen plaintext + 16 ->
          let (c, t) := gcm_encrypt (boring_material key) nonce aad plaintext in snd s = c ++ t
      | Err _ => True
      | Halt _ => False
      end);
  boring_open_ok key nonce tag aad ciphertext :
    fits nonce ciphertext -> zlen tag = 16 ->
    wp (boring_open_in_place key nonce tag aad) ciphertext (opened (boring_material key) nonce aad ciphertext tag);
  boring_hmac_init_ok k : returns (boring_hmac_init k);
  boring_hmac_update_ok h part : returns (boring_hmac_update h part);
  boring_hmac_finalize_ok h : returns (boring_hmac_finalize h);
  boring_hmac_ok k h parts h' block :
    boring_hmac_init k = Ok h -> boring_fed h parts h' -> boring_hmac_finalize h' = Ok block ->
    zlen block = 48 -> block = hmac_sha384 k (concat parts)
}.

(** ** ring *)

Class RingCrate := {
  RingUnboundKey : Type;
  RingLessSafeKey : Type;
  ring_unbound_new : bytes -> outcome unit RingUnboundKey;
  ring_less_safe_new : RingUnboundKey -> RingLessSafeKey;
  ring_seal_in_place_separate_tag : RingLessSafeKey -> bytes -> bytes -> M unit bytes bytes;
  (** key, nonce, associated data, tag, start of the ciphertext; cell: [in_out] *)
  ring_open_in_place_separate_tag : RingLessSafeKey -> bytes -> bytes -> bytes -> Z -> M unit bytes bytes;
  RingPrk : Type;
  RingOkm : Type;
  ring_prk_new : bytes -> RingPrk;
  ring_expand : RingPrk -> list bytes -> Z -> outcome unit RingOkm;
  ring_okm_fill : RingOkm -> M unit bytes unit
}.

Class RingOk {P : Primitives} {V : RingCrate} := {
  ring_material : RingLessSafeKey -> bytes;
  ring_new_ok k : zlen k = 32 -> (exists key, ring_unbound_new k = Ok key) \/ ring_unbound_new k = Err tt;
  ring_new_material k key : ring_unbound_new k = Ok key -> ring_material (ring_less_safe_new key) = k;
  ring_seal_ok key nonce aad plaintext :
    fits nonce plaintext ->
    wp (ring_seal_in_place_separate_tag key nonce aad) plaintext (sealed (ring_material key) nonce aad plaintext);
  ring_open_ok key nonce aad tag ciphertext :
    fits nonce ciphertext -> zlen tag = 16 ->
    wp (ring_open_in_place_separate_tag key nonce aad tag 0) ciphertext
      (fun r out => opened (ring_material key) nonce aad ciphertext tag (omap_ok (fun _ => tt) r) out);
  ring_expand_ok k info n :
    match ring_expand (ring_prk_new k) info n with
    | Ok okm => forall output, zlen output = n ->
        wp (ring_okm_fill okm) output (fun r out =>
          match r with
          | Ok _ => out = hkdf_expand k (concat info) n
          | Err _ => True
          | Halt _ => False
          end)
    | Err _ => True
    | Halt _ => False
    end
}.

(** ** Random sources

    [getrandom], the system generators of aws-lc-rs and ring and BoringSSL's
    [rand_bytes] are shared with the rest of the process. Each generator of the
    model has a source of its own, so that theorems for every source cover
    every interleaving with other users. *)
Class Sources := {
  Source : Type;
  getrandom_fill : M unit (Source * bytes) unit;
  aws_random_fill : M unit (Source * bytes) unit;
  boring_rand_bytes : M unit (Source * bytes) unit;
  ring_random_fill : M unit (Source * bytes) unit
}.

(** A fill returns, and does not change the length of its slice. *)
Definition fills {X} (m : M unit (X * bytes) unit) : Prop :=
  forall x output, wp m (x, output) (fun r s => returns r /\ zlen (snd s) = zlen output).

Class SourcesOk {V : Sources} : Prop := {
  getrandom_ok : fills getrandom_fill;
  aws_random_ok : fills aws_random_fill;
  boring_rand_ok : fills boring_rand_bytes;
  ring_random_ok : fills ring_random_fill
}.
