(* ===== verification/Backends.v ===== *)
(** * The backends

    [src/backends.rs]: the AEAD keys and the key derivation over the four
    crates of [Vendors.v], the random generators, and the dispatch on the
    provider. The instance [backend] is what the rest of the crate uses; it
    satisfies the interface [BackendOk] when the crates behave as documented.
    The [zeroize] calls on local arrays have no observable effect and are not
    modelled; the arms for a build without any provider do not exist. *)

From S2P Require Import Prelude Bytes Error Parameters Provider Crypto Vendors.

Definition KDF_MAX_OUTPUT_LENGTH : Z := 48.

Definition validate_kdf_output_length (n : Z) : Result unit :=
  if n <=? KDF_MAX_OUTPUT_LENGTH then Ok tt else Err CryptoFailure.

(** The crates' error values are dropped. *)
Definition crypto_failure (_ : unit) : Error := CryptoFailure.
Definition authentication_failed (_ : unit) : Error := AuthenticationFailed.
Definition rng_failure (_ : unit) : Error := RngFailure.

(** [output.copy_from_slice(source)] *)
Definition copy_all {E} (source : bytes) : M E bytes unit :=
  fun output => match copy_to output 0 (zlen output) source with
    | Ok output' => (Ok tt, output')
    | Err e => (Err e, output)
    | Halt h => (Halt h, output)
    end.

(** The same on the second of two cells, the tag. *)
Definition copy_tag {E X} (source : bytes) : M E (X * bytes) unit := zoom lens_snd (copy_all source).

(** ** RustCrypto *)

Module AeadRustcrypto.
Section Crate.
Context {V : RustCrypto}.

Definition new (key : bytes) : Result Aes256Gcm := map_err crypto_failure (rc_new_from_slice key).

(** [in_out.into()] is a buffer whose input is its output. *)
Definition seal (self : Aes256Gcm) (nonce aad : bytes) : M Error (bytes * bytes) unit :=
  let! cells := get in
  let! generated_tag :=
    zoom lens_fst (map_errM crypto_failure (rc_encrypt_inout_detached self nonce aad (fst cells))) in
  copy_tag generated_tag.

(** [output.split_at_mut(n)] and the two halves. *)
Definition seal_into (self : Aes256Gcm) (nonce aad plaintext : bytes) : M Error bytes unit :=
  let! output := get in
  let? ciphertext := index output 0 (zlen plaintext) in
  do? map_err crypto_failure (rc_inout_new plaintext ciphertext) in
  let! tag :=
    zoom_range 0 (zlen plaintext)
      (map_errM crypto_failure (rc_encrypt_inout_detached self nonce aad plaintext)) in
  zoom_range (zlen plaintext) (zlen output) (copy_all tag).

Definition open (self : Aes256Gcm) (nonce aad ciphertext tag : bytes) : M Error bytes unit :=
  let! output := get in
  do? map_err crypto_failure (rc_inout_new ciphertext output) in
  map_errM authentication_failed (rc_decrypt_inout_detached self nonce aad ciphertext tag).

Definition open_in_place (self : Aes256Gcm) (nonce aad tag : bytes) : M Error bytes unit :=
  let! in_out := get in
  map_errM authentication_failed (rc_decrypt_inout_detached self nonce aad in_out tag).

Definition kdf_expand (n : Z) (key : bytes) (info : list bytes) : Result bytes :=
  let* _ := validate_kdf_output_length n in
  let* hmac := map_err crypto_failure (rc_hmac_new_from_slice key) in
  let hmac := fold_left rc_hmac_update info hmac in
  let hmac := rc_hmac_update hmac [byte_of_Z 1] in
  let block := rc_hmac_finalize hmac in
  let* head := index block 0 n in
  copy_to (zeros n) 0 n head.

End Crate.
End AeadRustcrypto.

(** ** aws-lc-rs *)

Module AeadAwsLcRs.
Section Crate.
Context {V : AwsLcRs}.

Definition new (key : bytes) : Result AwsLessSafeKey :=
  let* key := map_err crypto_failure (aws_unbound_new key) in
  Ok (aws_less_safe_new key).

Definition seal (self : AwsLessSafeKey) (nonce aad : bytes) : M Error (bytes * bytes) unit :=
  let! generated_tag := zoom lens_fst (map_errM crypto_failure (aws_seal_in_place_separate_tag self nonce aad)) in
  copy_tag generated_tag.

(** [&mut []] is a cell that is dropped. *)
Definition seal_into (self : AwsLessSafeKey) (nonce aad plaintext : bytes) : M Error bytes unit :=
  fun output =>
    let (r, s) := map_errM crypto_failure (aws_seal_in_place_scatter self nonce aad plaintext) ([], output) in
    (r, snd s).

Definition open (self : AwsLessSafeKey) (nonce aad ciphertext tag : bytes) : M Error bytes unit :=
  map_errM authentication_failed (aws_open_separate_gather self nonce aad ciphertext tag).

Definition open_in_place (self : AwsLessSafeKey) (nonce aad tag : bytes) : M Error bytes unit :=
  map_errM authentication_failed
    (do! aws_open_in_place_separate_tag self nonce aad tag in ret tt).

Definition kdf_expand (n : Z) (key : bytes) (info : list bytes) : Result bytes :=
  let* _ := validate_kdf_output_length n in
  let prk := aws_prk_new key in
  let* okm := map_err crypto_failure (aws_expand prk info n) in
  let (r, output) := map_errM crypto_failure (aws_okm_fill okm) (zeros n) in
  let* _ := r in
  Ok output.

End Crate.
End AeadAwsLcRs.

(** ** boring *)

Module AeadBoring.
Section Crate.
Context {T : Target} {V : BoringCrate}.

Definition new (key : bytes) : Result AeadCtx := map_err crypto_failure (boring_ctx_new key AEAD_TAG_LENGTH).

Definition seal (self : AeadCtx) (nonce aad : bytes) : M Error (bytes * bytes) unit :=
  let! written := map_errM crypto_failure (boring_seal_in_place self nonce aad) in
  if negb (zlen written =? AEAD_TAG_LENGTH) then fail CryptoFailure else ret tt.

Definition seal_into (self : AeadCtx) (nonce aad plaintext : bytes) : M Error bytes unit :=
  fun output =>
    let (r, s) :=
      (let! written := map_errM crypto_failure (boring_seal_scatter self nonce aad (Some plaintext)) in
       let? expected := usize (zlen plaintext + AEAD_TAG_LENGTH) in
       if negb (zlen written =? expected) then fail CryptoFailure else ret tt) ([], output) in
    (r, snd s).

Definition open (self : AeadCtx) (nonce aad ciphertext tag : bytes) : M Error bytes unit :=
  do! copy_all ciphertext in
  map_errM authentication_failed (boring_open_in_place self nonce tag aad).

Definition open_in_place (self : AeadCtx) (nonce aad tag : bytes) : M Error bytes unit :=
  map_errM authentication_failed (boring_open_in_place self nonce tag aad).

(** [for part in info { hmac.update(part).map_err(..)?; }] *)
Fixpoint update_all (hmac : BoringHmac) (info : list bytes) : Result BoringHmac :=
  match info with
  | [] => Ok hmac
  | part :: info =>
      let* hmac := map_err crypto_failure (boring_hmac_update hmac part) in
      update_all hmac info
  end.

Definition kdf_expand (n : Z) (key : bytes) (info : list bytes) : Result bytes :=
  let* _ := validate_kdf_output_length n in
  let* hmac := map_err crypto_failure (boring_hmac_init key) in
  let* hmac := update_all hmac info in
  let* hmac := map_err crypto_failure (boring_hmac_update hmac [byte_of_Z 1]) in
  let* block := map_err crypto_failure (boring_hmac_finalize hmac) in
  if negb (zlen block =? 48) then Err CryptoFailure
  else
    let* head := index block 0 n in
    copy_to (zeros n) 0 n head.

End Crate.
End AeadBoring.

(** ** ring *)

Module AeadRing.
Section Crate.
Context {V : RingCrate}.

Definition new (key : bytes) : Result RingLessSafeKey :=
  let* key := map_err crypto_failure (ring_unbound_new key) in
  Ok (ring_less_safe_new key).

Definition seal (self : RingLessSafeKey) (nonce aad : bytes) : M Error (bytes * bytes) unit :=
  let! generated_tag := zoom lens_fst (map_errM crypto_failure (ring_seal_in_place_separate_tag self nonce aad)) in
  copy_tag generated_tag.

Definition seal_into (self : RingLessSafeKey) (nonce aad plaintext : bytes) : M Error bytes unit :=
  let! output := get in
  do! zoom_range 0 (zlen plaintext) (copy_all plaintext) in
  let! generated_tag :=
    zoom_range 0 (zlen plaintext) (map_errM crypto_failure (ring_seal_in_place_separate_tag self nonce aad)) in
  zoom_range (zlen plaintext) (zlen output) (copy_all generated_tag).

Definition open (self : RingLessSafeKey) (nonce aad ciphertext tag : bytes) : M Error bytes unit :=
  do! copy_all ciphertext in
  map_errM authentication_failed
    (do! ring_open_in_place_separate_tag self nonce aad tag 0 in ret tt).

Definition open_in_place (self : RingLessSafeKey) (nonce aad tag : bytes) : M Error bytes unit :=
  map_errM authentication_failed
    (do! ring_open_in_place_separate_tag self nonce aad tag 0 in ret tt).

Definition kdf_expand (n : Z) (key : bytes) (info : list bytes) : Result bytes :=
  let* _ := validate_kdf_output_length n in
  let prk := ring_prk_new key in
  let* okm := map_err crypto_failure (ring_expand prk info n) in
  let (r, output) := map_errM crypto_failure (ring_okm_fill okm) (zeros n) in
  let* _ := r in
  Ok output.

End Crate.
End AeadRing.

(** ** Dispatch *)

Module BackendKey.
Section Crates.
Context {T : Target} {VR : RustCrypto} {VA : AwsLcRs} {VB : BoringCrate} {VG : RingCrate}.

(** The enum [AeadKey]. *)
Inductive t :=
| AwsLcRs (key : AwsLessSafeKey)
| Boring (key : AeadCtx)
| Ring (key : RingLessSafeKey)
| RustCrypto (key : Aes256Gcm).

Definition new (provider : Provider.t) (key : bytes) : Result t :=
  match Provider.kind provider with
  | ProviderKind.AwsLcRs => omap_ok AwsLcRs (AeadAwsLcRs.new key)
  | ProviderKind.Boring => omap_ok Boring (AeadBoring.new key)
  | ProviderKind.Ring => omap_ok Ring (AeadRing.new key)
  | ProviderKind.RustCrypto => omap_ok RustCrypto (AeadRustcrypto.new key)
  end.

Definition seal (self : t) (nonce aad : bytes) : M Error (bytes * bytes) unit :=
  match self with
  | AwsLcRs key => AeadAwsLcRs.seal key nonce aad
  | Boring key => AeadBoring.seal key nonce aad
  | Ring key => AeadRing.seal key nonce aad
  | RustCrypto key => AeadRustcrypto.seal key nonce aad
  end.

Definition seal_into (self : t) (nonce aad plaintext : bytes) : M Error bytes unit :=
  let! output := get in
  let? expected := ok_or (checked_usize (zlen plaintext + AEAD_TAG_LENGTH)) LengthOverflow in
  if negb (zlen output =? expected) then fail CryptoFailure
  else
    match self with
    | AwsLcRs key => AeadAwsLcRs.seal_into key nonce aad plaintext
    | Boring key => AeadBoring.seal_into key nonce aad plaintext
    | Ring key => AeadRing.seal_into key nonce aad plaintext
    | RustCrypto key => AeadRustcrypto.seal_into key nonce aad plaintext
    end.

Definition open (self : t) (nonce aad ciphertext tag : bytes) : M Error bytes unit :=
  match self with
  | AwsLcRs key => AeadAwsLcRs.open key nonce aad ciphertext tag
  | Boring key => AeadBoring.open key nonce aad ciphertext tag
  | Ring key => AeadRing.open key nonce aad ciphertext tag
  | RustCrypto key => AeadRustcrypto.open key nonce aad ciphertext tag
  end.

Definition open_in_place (self : t) (nonce aad tag : bytes) : M Error bytes unit :=
  match self with
  | AwsLcRs key => AeadAwsLcRs.open_in_place key nonce aad tag
  | Boring key => AeadBoring.open_in_place key nonce aad tag
  | Ring key => AeadRing.open_in_place key nonce aad tag
  | RustCrypto key => AeadRustcrypto.open_in_place key nonce aad tag
  end.

(** [Provider::kdf_expand::<N>]. *)
Definition kdf_expand (self : Provider.t) (n : Z) (key : bytes) (info : list bytes) : Result bytes :=
  match Provider.kind self with
  | ProviderKind.AwsLcRs => AeadAwsLcRs.kdf_expand n key info
  | ProviderKind.Boring => AeadBoring.kdf_expand n key info
  | ProviderKind.Ring => AeadRing.kdf_expand n key info
  | ProviderKind.RustCrypto => AeadRustcrypto.kdf_expand n key info
  end.

End Crates.
End BackendKey.

(** ** Random generators *)

Module Rng.
Section Crates.
Context {VR : RustCrypto} {VS : Sources}.

(** [rng_rustcrypto::Rng]: ChaCha12, seeded from the system on first use. *)
Definition rustcrypto_fill : M Error (option ChaCha12Rng * Source * bytes) unit :=
  let! cells := get in
  let '(slot, source, output) := cells in
  match slot with
  | Some rng =>
      let (rng, output) := rc_fill_bytes rng output in
      put (Some rng, source, output)
  | None =>
      let (r, seeded) := map_errM rng_failure getrandom_fill (source, zeros 32) in
      let (source, seed) := seeded in
      do! put (None, source, output) in
      do? r in
      let (rng, output) := rc_fill_bytes (rc_from_seed seed) output in
      put (Some rng, source, output)
  end.

Definition aws_lc_rs_fill : M Error (Source * bytes) unit := map_errM rng_failure aws_random_fill.
Definition boring_fill : M Error (Source * bytes) unit := map_errM rng_failure boring_rand_bytes.
Definition ring_fill : M Error (Source * bytes) unit := map_errM rng_failure ring_random_fill.

(** The enum [ProviderRng]; each variant has the source it draws from. *)
Inductive t :=
| AwsLcRs (source : Source)
| Boring (source : Source)
| Ring (source : Source)
| RustCrypto (rng : option ChaCha12Rng) (source : Source).

Definition new (provider : Provider.t) (source : Source) : t :=
  match Provider.kind provider with
  | ProviderKind.AwsLcRs => AwsLcRs source
  | ProviderKind.Boring => Boring source
  | ProviderKind.Ring => Ring source
  | ProviderKind.RustCrypto => RustCrypto None source
  end.

(** Runs a fill on the variant's source. *)
Definition on_source (variant : Source -> t) (source : Source) (m : M Error (Source * bytes) unit)
    : M Error (t * bytes) unit :=
  fun cells =>
    let (r, s) := m (source, snd cells) in (r, (variant (fst s), snd s)).

Definition fill : M Error (t * bytes) unit :=
  let! cells := get in
  match fst cells with
  | AwsLcRs source => on_source AwsLcRs source aws_lc_rs_fill
  | Boring source => on_source Boring source boring_fill
  | Ring source => on_source Ring source ring_fill
  | RustCrypto rng source => fun cells =>
      let '(r, (rng, source, output)) := rustcrypto_fill (rng, source, snd cells) in
      (r, (RustCrypto rng source, output))
  end.

Definition generate_key : M Error (t * bytes) unit :=
  let! cells := get in
  match fst cells with
  | RustCrypto rng source => on_source (RustCrypto rng) source (map_errM rng_failure getrandom_fill)
  | _ => fill
  end.

End Crates.
End Rng.

(** ** The implementation of the interface *)

Section Implementation.
Context {T : Target} {VR : RustCrypto} {VA : AwsLcRs} {VB : BoringCrate} {VG : RingCrate} {VS : Sources}.

Definition backend : Backend := {|
  AeadKey := BackendKey.t;
  Entropy := Source;
  ProviderRng := Rng.t;
  AeadKey_new := BackendKey.new;
  AeadKey_seal := BackendKey.seal;
  AeadKey_seal_into := BackendKey.seal_into;
  AeadKey_open := BackendKey.open;
  AeadKey_open_in_place := BackendKey.open_in_place;
  kdf_expand := BackendKey.kdf_expand;
  ProviderRng_new := Rng.new;
  ProviderRng_fill := Rng.fill;
  ProviderRng_generate_key := Rng.generate_key
|}.

End Implementation.
