(* ===== verification/BackendsFacts.v ===== *)
(** * Facts about the backends

    The code of [Backends.v] over crates that behave as documented: every
    provider's AEAD is AES-256-GCM, its key derivation HKDF-Expand, and the
    instance [backend] satisfies the interface [BackendOk]. *)

From S2P Require Import Prelude Bytes Error Parameters Provider Crypto Vendors Backends.

Section Copies.

Lemma copy_all_ok {E} source output :
  zlen source = zlen output -> copy_all (E := E) source output = (Ok tt, source).
Proof.
  intros H. pose proof (zlen_nonneg output). unfold copy_all, copy_to.
  rewrite range_ok_true by lia. replace (_ =? _) with true by lia. cbn [andb]. by rewrite splice_all.
Qed.

Lemma wp_copy_tag {E X} source (x : X) output (Q : outcome E unit -> X * bytes -> Prop) :
  zlen source = zlen output -> Q (Ok tt) (x, source) -> wp (copy_tag source) (x, output) Q.
Proof. intros H HQ. apply wp_zoom. cells. by eapply wp_eq; [apply copy_all_ok|]. Qed.

End Copies.

(** ** AEAD operations *)

Section Aead.
Context {P : Primitives} {POk : PrimitivesOk}.

Lemma sealed_length key nonce aad plaintext tag out :
  (out, tag) = gcm_encrypt key nonce aad plaintext -> zlen out = zlen plaintext /\ zlen tag = 16.
Proof.
  intros H. pose proof (gcm_ciphertext_length key nonce aad plaintext) as Hc.
  pose proof (gcm_tag_length key nonce aad plaintext) as Ht. by rewrite <- H in Hc, Ht.
Qed.

(** Sealing in place with a separate tag, which is then copied. *)
Lemma seal_separate_ok key nonce aad plaintext tag (m : M unit bytes bytes) :
  zlen tag = 16 -> wp m plaintext (sealed key nonce aad plaintext) ->
  wp (let! generated := zoom lens_fst (map_errM crypto_failure m) in copy_tag generated) (plaintext, tag)
    (seal_outcome key nonce aad plaintext).
Proof.
  intros Ht H. apply wp_bind, wp_zoom. cells. apply wp_map_err. eapply wp_mono; [exact H|].
  intros r out Hr. destruct r as [generated|e|h]; simpl in *; [|by split_and!|done].
  apply wp_copy_tag; [|exact Hr]. apply sealed_length in Hr. lia.
Qed.

(** Sealing into the halves of an output: the ciphertext, then the tag. *)
Lemma seal_split_ok key nonce aad plaintext output n (m : M Error bytes bytes) :
  n = zlen output -> n = zlen plaintext + 16 ->
  wp m (slice output 0 (zlen plaintext)) (fun r c =>
    match r with
    | Ok tag => (c, tag) = gcm_encrypt key nonce aad plaintext
    | Err e => e = CryptoFailure /\ zlen c = zlen plaintext
    | Halt _ => False
    end) ->
  wp (let! tag := zoom_range 0 (zlen plaintext) m in zoom_range (zlen plaintext) n (copy_all tag)) output
    (fun r out => zlen out = n
       /\ seal_outcome key nonce aad plaintext r (ztake (zlen plaintext) out, zdrop (zlen plaintext) out)).
Proof.
  intros Hn Ho H. pose proof (zlen_nonneg plaintext).
  apply wp_bind, wp_zoom_range; [by rewrite range_ok_true by lia|].
  eapply wp_mono; [exact H|]. intros r c Hr. destruct r as [tag|e|h]; [| |done].
  - pose proof (sealed_length _ _ _ _ _ _ Hr) as [Hc Ht].
    assert (zlen (splice output 0 c) = n) as Hl by (rewrite zlen_splice by lia; lia).
    apply wp_zoom_range; [by rewrite range_ok_true by lia|].
    eapply wp_eq; [apply copy_all_ok; rewrite zlen_slice; lia|].
    assert (splice (splice output 0 c) (zlen plaintext) tag = c ++ tag) as ->.
    { unfold splice. rewrite (ztake_le0 0), Z.add_0_l by lia. cbn [app].
      rewrite ztake_app_l, ztake_all by lia. rewrite (zdrop_all (zlen plaintext + zlen tag)); [by rewrite app_nil_r|].
      rewrite zlen_app, zlen_zdrop. lia. }
    rewrite zlen_app. split; [lia|]. simpl.
    rewrite ztake_app_l, ztake_all, zdrop_app_r, zdrop_le0 by lia. exact Hr.
  - destruct Hr as [-> Hc]. rewrite zlen_splice by lia. split; [done|]. simpl. split; [done|].
    rewrite zlen_ztake, zlen_zdrop, zlen_splice by lia. lia.
Qed.

Lemma opened_outcome key nonce aad ciphertext tag r out :
  opened key nonce aad ciphertext tag r out ->
  open_outcome key nonce aad ciphertext tag (map_err authentication_failed r) out.
Proof.
  unfold opened, open_outcome. destruct (gcm_decrypt _ _ _ _ _); intros [-> ?]; by split.
Qed.

Lemma wp_opened key nonce aad ciphertext tag (m : M unit bytes unit) cell :
  wp m cell (opened key nonce aad ciphertext tag) ->
  wp (map_errM authentication_failed m) cell (open_outcome key nonce aad ciphertext tag).
Proof. intros H. apply wp_map_err. eapply wp_mono; [exact H|]. intros. by apply opened_outcome. Qed.

(** Opening whose result, the plaintext slice, is dropped. *)
Lemma wp_opened_dropped key nonce aad ciphertext tag (m : M unit bytes bytes) cell :
  wp m cell (fun r out => opened key nonce aad ciphertext tag (omap_ok (fun _ => tt) r) out) ->
  wp (map_errM authentication_failed (do! m in ret tt)) cell (open_outcome key nonce aad ciphertext tag).
Proof.
  intros H. apply wp_opened, wp_bind. eapply wp_mono; [exact H|]. intros [a|e|h] out Hr; exact Hr.
Qed.

Section RustCrypto_.
Context {V : RustCrypto} {VOk : RustCryptoOk}.

Lemma rustcrypto_seal_ok key nonce aad plaintext tag :
  fits nonce plaintext -> zlen tag = 16 ->
  wp (AeadRustcrypto.seal key nonce aad) (plaintext, tag) (seal_outcome (rc_material key) nonce aad plaintext).
Proof.
  intros Hf Ht. unfold AeadRustcrypto.seal. apply wp_bind, wp_get. cells.
  apply seal_separate_ok; [done|]. by apply rc_encrypt_ok.
Qed.

Lemma rustcrypto_seal_into_ok key nonce aad plaintext output :
  fits nonce plaintext -> zlen output = zlen plaintext + 16 ->
  wp (AeadRustcrypto.seal_into key nonce aad plaintext) output (fun r out => zlen out = zlen output
    /\ seal_outcome (rc_material key) nonce aad plaintext r (ztake (zlen plaintext) out, zdrop (zlen plaintext) out)).
Proof.
  intros Hf Ho. pose proof (zlen_nonneg plaintext). unfold AeadRustcrypto.seal_into.
  apply wp_bind, wp_get, wp_bind, wp_lift. rewrite index_ok by lia. apply wp_bind, wp_lift.
  assert (zlen (slice output 0 (zlen plaintext)) = zlen plaintext) as Hs by (rewrite zlen_slice; lia).
  rewrite rc_inout_ok, Hs, Z.eqb_refl. cbn [map_err].
  apply seal_split_ok; [done..|]. apply wp_map_err.
  eapply wp_mono; [by apply rc_encrypt_ok|]. intros [tag|e|h] c Hr; simpl in *; [done|by split|done].
Qed.

Lemma rustcrypto_open_ok key nonce aad ciphertext tag output :
  fits nonce ciphertext -> zlen tag = 16 -> zlen output = zlen ciphertext ->
  wp (AeadRustcrypto.open key nonce aad ciphertext tag) output
    (open_outcome (rc_material key) nonce aad ciphertext tag).
Proof.
  intros Hf Ht Ho. unfold AeadRustcrypto.open. apply wp_bind, wp_get, wp_bind, wp_lift.
  rewrite rc_inout_ok, Ho, Z.eqb_refl. by apply wp_opened, rc_decrypt_ok.
Qed.

Lemma rustcrypto_open_in_place_ok key nonce aad tag ciphertext :
  fits nonce ciphertext -> zlen tag = 16 ->
  wp (AeadRustcrypto.open_in_place key nonce aad tag) ciphertext
    (open_outcome (rc_material key) nonce aad ciphertext tag).
Proof. intros Hf Ht. apply wp_bind, wp_get. by apply wp_opened, rc_decrypt_ok. Qed.

End RustCrypto_.

Section AwsLcRs_.
Context {V : AwsLcRs} {VOk : AwsLcRsOk}.

Lemma aws_seal_into_ok key nonce aad plaintext output :
  fits nonce plaintext -> zlen output = zlen plaintext + 16 ->
  wp (AeadAwsLcRs.seal_into key nonce aad plaintext) output (fun r out => zlen out = zlen output
    /\ seal_outcome (aws_material key) nonce aad plaintext r (ztake (zlen plaintext) out, zdrop (zlen plaintext) out)).
Proof.
  intros Hf Ho. pose proof (aws_scatter_ok key nonce aad plaintext output Hf Ho) as H.
  unfold wp, AeadAwsLcRs.seal_into, map_errM in *.
  destruct (aws_seal_in_place_scatter _ _ _ _ _) as [r [? out]]. simpl in *. destruct H as [Hl H].
  split; [done|]. pose proof (zlen_nonneg plaintext).
  destruct r as [u|e|h]; simpl; [|split_and!; [done|rewrite zlen_ztake; lia|rewrite zlen_zdrop; lia]|done].
  destruct (gcm_encrypt _ _ _ _) as [c t] eqn:He. subst out. symmetry in He. pose proof (sealed_length _ _ _ _ _ _ He) as [Hc Ht].
  by rewrite ztake_app_l, ztake_all, zdrop_app_r, zdrop_le0 by lia.
Qed.

End AwsLcRs_.

Section Boring_.
Context {T : Target} {V : BoringCrate} {VOk : BoringOk}.

Lemma boring_seal_correct key nonce aad plaintext tag :
  fits nonce plaintext -> zlen tag = 16 ->
  wp (AeadBoring.seal key nonce aad) (plaintext, tag) (seal_outcome (boring_material key) nonce aad plaintext).
Proof.
  intros Hf Ht. apply wp_bind, wp_map_err. eapply wp_mono; [by apply boring_seal_ok|].
  intros r s (Hp & Hl & Hr). destruct r as [written|e|h]; simpl; [|by split_and!|done].
  floe_consts. destruct (Z.eqb_spec (zlen written) 16) as [Hw|Hw]; cbn [negb].
  - apply wp_ret. by apply Hr.
  - apply wp_fail. by split_and!.
Qed.

Lemma boring_seal_into_ok key nonce aad plaintext output :
  fits nonce plaintext -> zlen output = zlen plaintext + 16 -> zlen output <= usize_max ->
  wp (AeadBoring.seal_into key nonce aad plaintext) output (fun r out => zlen out = zlen output
    /\ seal_outcome (boring_material key) nonce aad plaintext r
         (ztake (zlen plaintext) out, zdrop (zlen plaintext) out)).
Proof.
  intros Hf Ho Hu. pose proof (boring_scatter_ok key nonce aad plaintext output Hf Ho) as H.
  pose proof (zlen_nonneg plaintext). floe_consts.
  unfold wp, AeadBoring.seal_into, map_errM, bindM, lift in *. rewrite usize_ok by flia.
  destruct (boring_seal_scatter _ _ _ _ _) as [r [? out]]. simpl in *. destruct H as [Hl H].
  assert (Herr : seal_outcome (boring_material key) nonce aad plaintext (Err CryptoFailure)
    (ztake (zlen plaintext) out, zdrop (zlen plaintext) out)).
  { simpl. split_and!; [done|rewrite zlen_ztake; lia|rewrite zlen_zdrop; lia]. }
  destruct r as [written|e|h]; simpl; [|by split|done].
  change AEAD_TAG_LENGTH with 16.
  destruct (Z.eqb_spec (zlen written) (zlen plaintext + 16)) as [Hw|Hw]; cbn [negb fail ret fst snd]; [|exact (conj Hl Herr)].
  split; [done|]. specialize (H Hw). destruct (gcm_encrypt _ _ _ _) as [c t] eqn:He. subst out. symmetry in He.
  pose proof (sealed_length _ _ _ _ _ _ He) as [Hc Ht]. unfold seal_outcome. rewrite <- He.
  by rewrite ztake_app_l, ztake_all, zdrop_app_r, zdrop_le0 by lia.
Qed.

Lemma boring_open_correct key nonce aad ciphertext tag output :
  fits nonce ciphertext -> zlen tag = 16 -> zlen output = zlen ciphertext ->
  wp (AeadBoring.open key nonce aad ciphertext tag) output
    (open_outcome (boring_material key) nonce aad ciphertext tag).
Proof.
  intros Hf Ht Ho. apply wp_bind. eapply wp_eq; [by apply copy_all_ok|]. by apply wp_opened, boring_open_ok.
Qed.

End Boring_.

Section Ring_.
Context {V : RingCrate} {VOk : RingOk}.

Lemma ring_seal_into_ok key nonce aad plaintext output :
  fits nonce plaintext -> zlen output = zlen plaintext + 16 ->
  wp (AeadRing.seal_into key nonce aad plaintext) output (fun r out => zlen out = zlen output
    /\ seal_outcome (ring_material key) nonce aad plaintext r (ztake (zlen plaintext) out, zdrop (zlen plaintext) out)).
Proof.
  intros Hf Ho. pose proof (zlen_nonneg plaintext). unfold AeadRing.seal_into.
  apply wp_bind, wp_get, wp_bind, wp_zoom_range; [by rewrite range_ok_true by lia|].
  eapply wp_eq; [apply copy_all_ok; rewrite zlen_slice; lia|].
  assert (zlen (splice output 0 plaintext) = zlen output) as Hl by (rewrite zlen_splice by lia; lia).
  apply seal_split_ok; [done|done|]. rewrite slice_splice_same by lia.
  apply wp_map_err. eapply wp_mono; [by apply ring_seal_ok|].
  intros [tag|e|h] c Hr; simpl in *; [done|by split|done].
Qed.

Lemma ring_open_correct key nonce aad ciphertext tag output :
  fits nonce ciphertext -> zlen tag = 16 -> zlen output = zlen ciphertext ->
  wp (AeadRing.open key nonce aad ciphertext tag) output
    (open_outcome (ring_material key) nonce aad ciphertext tag).
Proof.
  intros Hf Ht Ho. apply wp_bind. eapply wp_eq; [by apply copy_all_ok|]. by apply wp_opened_dropped, ring_open_ok.
Qed.

End Ring_.

End Aead.

(** ** Key derivation *)

Section Kdf.
Context {P : Primitives} {POk : PrimitivesOk}.

(** The calls of a crate that the derivation makes, when one of them fails. *)
Definition rustcrypto_hmac_fails {V : RustCrypto} (key : bytes) : Prop := rc_hmac_new_from_slice key = Err tt.

Definition boring_hmac_fails {V : BoringCrate} (key : bytes) (info : list bytes) : Prop :=
  boring_hmac_init key = Err tt
  \/ exists hmac fed rest hmac', boring_hmac_init key = Ok hmac /\ fed ++ rest = info ++ [[byte_of_Z 1]]
       /\ boring_fed hmac fed hmac'
       /\ match rest with
          | part :: _ => boring_hmac_update hmac' part = Err tt
          | [] => boring_hmac_finalize hmac' = Err tt
              \/ exists block, boring_hmac_finalize hmac' = Ok block /\ zlen block <> 48
          end.

Definition aws_expand_fails {V : AwsLcRs} (n : Z) (key : bytes) (info : list bytes) : Prop :=
  aws_expand (aws_prk_new key) info n = Err tt
  \/ exists okm, aws_expand (aws_prk_new key) info n = Ok okm /\ fst (aws_okm_fill okm (zeros n)) = Err tt.

Definition ring_expand_fails {V : RingCrate} (n : Z) (key : bytes) (info : list bytes) : Prop :=
  ring_expand (ring_prk_new key) info n = Err tt
  \/ exists okm, ring_expand (ring_prk_new key) info n = Ok okm /\ fst (ring_okm_fill okm (zeros n)) = Err tt.

(** What every provider's [kdf_expand] gives: the first bytes of HKDF's first
    block; [CryptoFailure] for a longer output and when the crate fails. *)
Definition kdf_result (fails : Prop) (n : Z) (key : bytes) (info : list bytes) (r : Result bytes) : Prop :=
  if n <=? 48 then (r = Err CryptoFailure /\ fails) \/ r = Ok (kdf key (concat info) n) else r = Err CryptoFailure.

(** The part after the length check. *)
Lemma kdf_checked (fails : Prop) n key info (r : Result bytes) :
  (n <= 48 -> (r = Err CryptoFailure /\ fails) \/ r = Ok (kdf key (concat info) n)) ->
  kdf_result fails n key info (let* _ := validate_kdf_output_length n in r).
Proof.
  intros H. unfold validate_kdf_output_length, kdf_result, KDF_MAX_OUTPUT_LENGTH.
  destruct (Z.leb_spec n 48) as [Hn|Hn]; cbn [obind]; [by apply H|done].
Qed.

(** The copy of a block's head into the output array. *)
Lemma block_head n block :
  0 <= n <= zlen block -> (let* head := index block 0 n in copy_to (E := Error) (zeros n) 0 n head) = Ok (ztake n block).
Proof.
  intros Hn. rewrite index_ok by lia. cbn [obind]. unfold copy_to.
  assert (zlen (slice block 0 n) = n) as Hl by (rewrite zlen_slice; lia).
  rewrite range_ok_true by (rewrite ?zlen_zeros; lia). rewrite Hl. replace (n =? n - 0) with true by lia. cbn [andb].
  rewrite splice_all by (rewrite Hl, zlen_zeros; lia). by rewrite slice_0.
Qed.

Lemma rustcrypto_kdf_ok {V : RustCrypto} {VOk : RustCryptoOk} n key info :
  0 <= n -> kdf_result (rustcrypto_hmac_fails key) n key info (AeadRustcrypto.kdf_expand n key info).
Proof.
  intros Hn. apply kdf_checked. intros Hle.
  destruct (rc_hmac_new_ok key) as [[h Hh]|Hh]; rewrite Hh; cbn [map_err obind]; [|by left]. right.
  assert (rc_hmac_finalize (rc_hmac_update (fold_left rc_hmac_update info h) [byte_of_Z 1])
    = hmac_sha384 key (concat info ++ [byte_of_Z 1])) as ->.
  { pose proof (rc_hmac_ok key h (info ++ [[byte_of_Z 1]]) Hh) as H.
    rewrite fold_left_app, concat_app in H. cbn [fold_left concat] in H. by rewrite app_nil_r in H. }
  rewrite block_head by (rewrite hmac_length; lia). done.
Qed.

Lemma boring_update_all_ok {V : BoringCrate} {VOk : BoringOk} info : forall h,
  (AeadBoring.update_all h info = Err CryptoFailure
   /\ exists fed part rest h', info = fed ++ part :: rest /\ boring_fed h fed h' /\ boring_hmac_update h' part = Err tt)
  \/ exists h', AeadBoring.update_all h info = Ok h' /\ boring_fed h info h'.
Proof.
  induction info as [|part info IH]; intros h; cbn [AeadBoring.update_all]; [right; eexists; by split; [|constructor]|].
  pose proof (boring_hmac_update_ok h part) as Hret.
  destruct (boring_hmac_update h part) as [h1|[]|x] eqn:Hu; cbn [map_err obind]; [| |done].
  - destruct (IH h1) as [(H & fed & part' & rest & h' & -> & Hf & He)|(h' & H & Hf)].
    + left. split; [done|]. exists (part :: fed), part', rest, h'. split_and!; [done|by econstructor|done].
    + right. exists h'. split; [done|by econstructor].
  - left. split; [done|]. exists [], part, info, h. split_and!; [done|constructor|done].
Qed.

Lemma boring_fed_snoc {V : BoringCrate} h info h1 part h2 :
  boring_fed h info h1 -> boring_hmac_update h1 part = Ok h2 -> boring_fed h (info ++ [part]) h2.
Proof. induction 1; intros Hu; cbn [app]; econstructor; eauto. constructor. Qed.

Lemma boring_kdf_ok {V : BoringCrate} {VOk : BoringOk} n key info :
  0 <= n -> kdf_result (boring_hmac_fails key info) n key info (AeadBoring.kdf_expand n key info).
Proof.
  intros Hn. apply kdf_checked. intros Hle. unfold boring_hmac_fails.
  pose proof (boring_hmac_init_ok key) as Hi.
  destruct (boring_hmac_init key) as [h|[]|x] eqn:Hh; cbn [map_err obind]; [|by left; split; [|left]|done].
  destruct (boring_update_all_ok info h) as [(H & fed & part & rest & h' & -> & Hf & He)|(h1 & H & Hf)]; rewrite H; cbn [obind].
  { left. split; [done|right]. exists h, fed, (part :: rest ++ [[byte_of_Z 1]]), h'. split_and!; [done|by rewrite <- app_assoc|done..]. }
  pose proof (boring_hmac_update_ok h1 [byte_of_Z 1]) as Hu.
  destruct (boring_hmac_update h1 _) as [h2|[]|x] eqn:H2; cbn [map_err obind]; [| |done].
  2: { left. split; [done|right]. by exists h, info, [[byte_of_Z 1]], h1. }
  pose proof (boring_fed_snoc _ _ _ _ _ Hf H2) as Hf2. pose proof (boring_hmac_finalize_ok h2) as Hfin.
  destruct (boring_hmac_finalize h2) as [block|[]|x] eqn:H3; cbn [map_err obind]; [| |done].
  2: { left. split; [done|right]. exists h, (info ++ [[byte_of_Z 1]]), [], h2. split_and!; [done|by rewrite app_nil_r|done|by left]. }
  destruct (Z.eqb_spec (zlen block) 48) as [Hb|Hb]; cbn [negb]; [right|].
  2: { left. split; [done|right]. exists h, (info ++ [[byte_of_Z 1]]), [], h2.
       split_and!; [done|by rewrite app_nil_r|done|right; by exists block]. }
  pose proof (boring_hmac_ok key h _ h2 block Hh Hf2 H3 Hb) as Hblock.
  rewrite block_head by lia. rewrite Hblock, concat_app. cbn [concat]. by rewrite app_nil_r.
Qed.

Lemma aws_kdf_ok {V : AwsLcRs} {VOk : AwsLcRsOk} n key info :
  0 <= n -> kdf_result (aws_expand_fails n key info) n key info (AeadAwsLcRs.kdf_expand n key info).
Proof.
  intros Hn. apply kdf_checked. intros Hle. cbv zeta. pose proof (aws_expand_ok key info n) as H. unfold aws_expand_fails.
  destruct (aws_expand _ _ _) as [okm|[]|x] eqn:He; cbn [map_err obind]; [|by left; split; [|left]|done].
  specialize (H (zeros n) ltac:(rewrite zlen_zeros; lia)). unfold wp, map_errM in *.
  destruct (aws_okm_fill _ _) as [r output] eqn:Hf. simpl in *. destruct r as [u|[]|h]; simpl; [right| |done].
  - rewrite H. by rewrite hkdf_expand_kdf.
  - left. split; [done|right]. exists okm. by rewrite Hf.
Qed.

Lemma ring_kdf_ok {V : RingCrate} {VOk : RingOk} n key info :
  0 <= n -> kdf_result (ring_expand_fails n key info) n key info (AeadRing.kdf_expand n key info).
Proof.
  intros Hn. apply kdf_checked. intros Hle. cbv zeta. pose proof (ring_expand_ok key info n) as H. unfold ring_expand_fails.
  destruct (ring_expand _ _ _) as [okm|[]|x] eqn:He; cbn [map_err obind]; [|by left; split; [|left]|done].
  specialize (H (zeros n) ltac:(rewrite zlen_zeros; lia)). unfold wp, map_errM in *.
  destruct (ring_okm_fill _ _) as [r output] eqn:Hf. simpl in *. destruct r as [u|[]|h]; simpl; [right| |done].
  - rewrite H. by rewrite hkdf_expand_kdf.
  - left. split; [done|right]. exists okm. by rewrite Hf.
Qed.

End Kdf.

(** ** The interface *)

Section Implementation.
Context {T : Target} {P : Primitives} {POk : PrimitivesOk}.
Context {VR : RustCrypto} {VA : AwsLcRs} {VB : BoringCrate} {VG : RingCrate} {VS : Sources}.
Context {VROk : RustCryptoOk} {VAOk : AwsLcRsOk} {VBOk : BoringOk} {VGOk : RingOk} {VSOk : SourcesOk}.

Definition material (key : BackendKey.t) : bytes :=
  match key with
  | BackendKey.AwsLcRs key => aws_material key
  | BackendKey.Boring key => boring_material key
  | BackendKey.Ring key => ring_material key
  | BackendKey.RustCrypto key => rc_material key
  end.

Lemma new_cases p k :
  zlen k = 32 -> (exists key, BackendKey.new p k = Ok key /\ material key = k) \/ BackendKey.new p k = Err CryptoFailure.
Proof.
  intros Hk. unfold BackendKey.new, AeadAwsLcRs.new, AeadBoring.new, AeadRing.new, AeadRustcrypto.new.
  destruct (Provider.kind p).
  - destruct (aws_new_ok k Hk) as [[key H]|H]; rewrite H; simpl; [left|by right].
    eexists. split; [done|]. by apply aws_new_material.
  - change AEAD_TAG_LENGTH with 16.
    destruct (boring_new_ok k Hk) as [[key H]|H]; rewrite H; simpl; [left|by right].
    eexists. split; [done|]. by apply boring_new_material.
  - destruct (ring_new_ok k Hk) as [[key H]|H]; rewrite H; simpl; [left|by right].
    eexists. split; [done|]. by apply ring_new_material.
  - destruct (rc_new_ok k Hk) as [[key H]|H]; rewrite H; simpl; [left|by right].
    eexists. split; [done|]. by apply rc_new_material.
Qed.

Lemma new_material p k key : BackendKey.new p k = Ok key -> material key = k.
Proof.
  unfold BackendKey.new, AeadAwsLcRs.new, AeadBoring.new, AeadRing.new, AeadRustcrypto.new.
  change AEAD_TAG_LENGTH with 16. destruct (Provider.kind p).
  - destruct (aws_unbound_new k) eqn:H; intros [= <-]. by apply aws_new_material.
  - destruct (boring_ctx_new k 16) eqn:H; intros [= <-]. by apply boring_new_material.
  - destruct (ring_unbound_new k) eqn:H; intros [= <-]. by apply ring_new_material.
  - destruct (rc_new_from_slice k) eqn:H; intros [= <-]. by apply rc_new_material.
Qed.

Lemma seal_ok key nonce aad plaintext tag :
  fits nonce plaintext -> zlen tag = 16 ->
  wp (BackendKey.seal key nonce aad) (plaintext, tag) (seal_outcome (material key) nonce aad plaintext).
Proof.
  intros Hf Ht. destruct key as [key|key|key|key]; simpl.
  - by apply seal_separate_ok, aws_seal_ok.
  - by apply boring_seal_correct.
  - by apply seal_separate_ok, ring_seal_ok.
  - by apply rustcrypto_seal_ok.
Qed.

Lemma seal_into_ok key nonce aad plaintext output :
  zlen nonce = 12 -> zlen output = zlen plaintext + 16 -> zlen output <= u32_max ->
  wp (BackendKey.seal_into key nonce aad plaintext) output (fun r out => zlen out = zlen output
    /\ seal_outcome (material key) nonce aad plaintext r (ztake (zlen plaintext) out, zdrop (zlen plaintext) out)).
Proof.
  intros Hn Ho Hu. pose proof u32_le_usize. pose proof (zlen_nonneg plaintext).
  assert (fits nonce plaintext) as Hf by (split; [done|unfold gcm_max_plaintext, u32_max in *; lia]).
  apply wp_bind, wp_get, wp_bind, wp_lift. change AEAD_TAG_LENGTH with 16.
  unfold checked_usize, in_range. replace (_ && _) with true by lia. cbn [ok_or].
  replace (zlen output =? _) with true by lia. cbn [negb]. destruct key as [key|key|key|key]; simpl.
  - by apply aws_seal_into_ok.
  - apply boring_seal_into_ok; [done|done|lia].
  - by apply ring_seal_into_ok.
  - by apply rustcrypto_seal_into_ok.
Qed.

Lemma open_ok key nonce aad ciphertext tag output :
  fits nonce ciphertext -> zlen tag = 16 -> zlen output = zlen ciphertext ->
  wp (BackendKey.open key nonce aad ciphertext tag) output (open_outcome (material key) nonce aad ciphertext tag).
Proof.
  intros Hf Ht Ho. destruct key as [key|key|key|key]; simpl.
  - by apply wp_opened, aws_gather_ok.
  - by apply boring_open_correct.
  - by apply ring_open_correct.
  - by apply rustcrypto_open_ok.
Qed.

Lemma open_in_place_ok key nonce aad tag ciphertext :
  fits nonce ciphertext -> zlen tag = 16 ->
  wp (BackendKey.open_in_place key nonce aad tag) ciphertext (open_outcome (material key) nonce aad ciphertext tag).
Proof.
  intros Hf Ht. destruct key as [key|key|key|key]; simpl.
  - by apply wp_opened_dropped, aws_open_ok.
  - by apply wp_opened, boring_open_ok.
  - by apply wp_opened_dropped, ring_open_ok.
  - by apply rustcrypto_open_in_place_ok.
Qed.

(** The crate that the provider names fails. *)
Definition kdf_crate_fails (p : Provider.t) (n : Z) (key : bytes) (info : list bytes) : Prop :=
  match Provider.kind p with
  | ProviderKind.AwsLcRs => aws_expand_fails n key info
  | ProviderKind.Boring => boring_hmac_fails key info
  | ProviderKind.Ring => ring_expand_fails n key info
  | ProviderKind.RustCrypto => rustcrypto_hmac_fails key
  end.

Lemma kdf_ok p n key info :
  0 <= n -> kdf_result (kdf_crate_fails p n key info) n key info (BackendKey.kdf_expand p n key info).
Proof.
  intros Hn. unfold BackendKey.kdf_expand, kdf_crate_fails.
  destruct (Provider.kind p); [by apply aws_kdf_ok|by apply boring_kdf_ok|by apply ring_kdf_ok|by apply rustcrypto_kdf_ok].
Qed.

(** A fill ends with [Ok] or [RngFailure] and keeps the slice's length. *)
Definition filled {X} (output : bytes) (r : Result unit) (s : X * bytes) : Prop :=
  (r = Ok tt \/ r = Err RngFailure) /\ zlen (snd s) = zlen output.

Lemma fills_filled {X} (m : M unit (X * bytes) unit) x output :
  fills m -> wp (map_errM rng_failure m) (x, output) (filled output).
Proof.
  intros H. apply wp_map_err. eapply wp_mono; [apply H|]. intros r s [Hr Hl]. split; [|done].
  destruct r as [[]|[]|h]; simpl; auto. done.
Qed.

Lemma on_source_ok variant source m (x : Rng.t) output :
  wp m (source, output) (filled output) -> wp (Rng.on_source variant source m) (x, output) (filled output).
Proof. unfold wp, Rng.on_source. cells. by destruct (m _). Qed.

Lemma rustcrypto_fill_ok slot source output :
  wp Rng.rustcrypto_fill (slot, source, output) (filled output).
Proof.
  unfold wp, Rng.rustcrypto_fill, bindM, get, put, lift. cells. destruct slot as [rng|].
  - pose proof (rc_fill_bytes_length rng output) as Hl. destruct (rc_fill_bytes rng output) as [rng' out]. split; [by left|done].
  - pose proof (fills_filled getrandom_fill source (zeros 32) getrandom_ok) as H. unfold wp in H.
    destruct (map_errM _ _ _) as [r [source' seed]]. cbn [fst snd] in H. destruct H as [[-> | ->] _]; [|split; [by right|done]].
    pose proof (rc_fill_bytes_length (rc_from_seed seed) output) as Hl.
    destruct (rc_fill_bytes _ _) as [rng' out]. split; [by left|done].
Qed.

Lemma fill_ok rng output : wp Rng.fill (rng, output) (filled output).
Proof.
  apply wp_bind, wp_get. cells. destruct rng as [source|source|source|slot source].
  - apply on_source_ok, fills_filled, aws_random_ok.
  - apply on_source_ok, fills_filled, boring_rand_ok.
  - apply on_source_ok, fills_filled, ring_random_ok.
  - pose proof (rustcrypto_fill_ok slot source output) as H. unfold wp in *. cells.
    by destruct (Rng.rustcrypto_fill _) as [r [[rng' source'] out]].
Qed.

Lemma generate_key_ok rng output : wp Rng.generate_key (rng, output) (filled output).
Proof.
  apply wp_bind, wp_get. cells. destruct rng as [source|source|source|slot source]; [apply fill_ok..|].
  apply on_source_ok, fills_filled, getrandom_ok.
Qed.

(** The code implements the interface. *)
Definition backend_ok : BackendOk (B := backend).
Proof.
  unshelve esplit; [exact material|..]; simpl.
  - exact new_material.
  - intros p k Hk. destruct (new_cases p k Hk) as [(key & H & _)|H]; eauto.
  - intros. by apply seal_ok.
  - intros. by apply seal_into_ok.
  - intros. by apply open_ok.
  - intros. by apply open_in_place_ok.
  - intros p n k info Hn. pose proof (kdf_ok p n k info ltac:(lia)) as H. unfold kdf_result in H.
    replace (n <=? 48) with true in H by lia. destruct H as [[H _]|H]; auto.
  - exact fill_ok.
  - exact generate_key_ok.
Defined.

End Implementation.
