(* ===== verification/Reference.v ===== *)
(** * A concrete instance of the interfaces

    Functions that satisfy the laws of [Crypto.v], so that the theorems about
    the crate can be applied to concrete inputs. The algorithms are checksums,
    not AES-GCM or HMAC: only the laws matter. *)

From S2P Require Import Prelude Bytes Error Parameters Provider Crypto.

Module Reference.

Definition digest (parts : list bytes) : Z :=
  fold_left (fun acc part => fold_left (fun acc b => (acc * 257 + byte_to_Z b + 1) mod (2 ^ 61 - 1)) part
               ((acc * 263 + 7) mod (2 ^ 61 - 1)))
    parts 1.

Definition tag (key nonce aad plaintext : bytes) : bytes := to_be_bytes 16 (digest [key; nonce; aad; plaintext]).

#[global] Instance primitives : Primitives := {|
  gcm_encrypt key nonce aad plaintext := (rev plaintext, tag key nonce aad plaintext);
  gcm_decrypt key nonce aad ciphertext t :=
    if bool_decide (t = tag key nonce aad (rev ciphertext)) then Some (rev ciphertext) else None;
  hmac_sha384 key message := to_be_bytes 48 (digest [key; message])
|}.

Lemma zlen_tag key nonce aad plaintext : zlen (tag key nonce aad plaintext) = 16.
Proof. exact (zlen_to_be_bytes 16 _). Qed.

#[local] Opaque digest tag to_be_bytes.

#[global] Instance primitives_ok : PrimitivesOk.
Proof.
  split; simpl; intros.
  - unfold zlen. by rewrite length_rev.
  - apply zlen_tag.
  - by rewrite rev_involutive, bool_decide_true.
  - case_bool_decide; [|done]. simplify_eq. by rewrite rev_involutive.
  - exact (zlen_to_be_bytes 48 _).
Qed.

#[global] Instance support : Support := {|
  zeroize b := zeros (zlen b);
  ct_eq a b := bool_decide (a = b)
|}.

#[global] Instance support_ok : SupportOk.
Proof. split; simpl; intros; [done|]. apply bool_decide_eq_true. Qed.

(** The generator counts; a fill writes consecutive values. *)
Definition fill (rng : Z) (n : Z) : bytes := map (fun i => byte_of_Z (rng + i)) (seqZ 0 n).

#[global] Instance backend : Backend := {|
  AeadKey := Provider.t * bytes;
  Entropy := Z;
  ProviderRng := Z;
  AeadKey_new p k := if zlen k =? 32 then Ok (p, k) else Err CryptoFailure;
  AeadKey_seal key nonce aad := fun cells => (Ok tt, gcm_encrypt (snd key) nonce aad (fst cells));
  AeadKey_seal_into key nonce aad plaintext := fun output =>
    let (c, t) := gcm_encrypt (snd key) nonce aad plaintext in (Ok tt, c ++ t);
  AeadKey_open key nonce aad ciphertext t := fun output =>
    match gcm_decrypt (snd key) nonce aad ciphertext t with
    | Some plaintext => (Ok tt, plaintext)
    | None => (Err AuthenticationFailed, zeros (zlen ciphertext))
    end;
  AeadKey_open_in_place key nonce aad t := fun ciphertext =>
    match gcm_decrypt (snd key) nonce aad ciphertext t with
    | Some plaintext => (Ok tt, plaintext)
    | None => (Err AuthenticationFailed, zeros (zlen ciphertext))
    end;
  kdf_expand p n k info := Ok (kdf k (concat info) n);
  ProviderRng_new p entropy := entropy;
  ProviderRng_fill := fun cells =>
    (Ok tt, (fst cells + zlen (snd cells), fill (fst cells) (zlen (snd cells))));
  ProviderRng_generate_key := fun cells =>
    (Ok tt, (fst cells + zlen (snd cells), fill (fst cells) (zlen (snd cells))))
|}.

Lemma zlen_fill rng n : 0 <= n -> zlen (fill rng n) = n.
Proof. intros. unfold fill, zlen. rewrite length_map, length_seqZ. lia. Qed.

#[global] Instance backend_ok : BackendOk.
Proof.
  unshelve esplit; [exact snd|..]; simpl; intros.
  - case_match; by simplify_eq.
  - left. rewrite H. by eexists.
  - done.
  - unfold wp. simpl. split.
    + rewrite zlen_app, H0, zlen_tag. unfold zlen. by rewrite length_rev.
    + assert (zlen (rev plaintext) = zlen plaintext) as Hr by (unfold zlen; by rewrite length_rev).
      rewrite ztake_app_l, ztake_all by lia. rewrite zdrop_app_r, zdrop_le0 by lia. done.
  - unfold wp, open_outcome. simpl. case_bool_decide; simpl; [done|]. rewrite zlen_zeros. split; [done|].
    pose proof (zlen_nonneg ciphertext). lia.
  - unfold wp, open_outcome. simpl. case_bool_decide; simpl; [done|]. rewrite zlen_zeros. split; [done|].
    pose proof (zlen_nonneg ciphertext). lia.
  - by left.
  - unfold wp. simpl. split; [by left|]. apply zlen_fill, zlen_nonneg.
  - unfold wp. simpl. split; [by left|]. apply zlen_fill, zlen_nonneg.
Defined.

#[global] Instance backend_total : BackendTotal.
Proof. split; simpl; try done. intros p k ->. by eexists. Qed.

End Reference.
