(* ===== verification/Key.v ===== *)
(** * Keys

    [src/key.rs]: a 256-bit key with an optional provider, its constructors and
    the resolution of the provider it uses. *)

From S2P Require Import Prelude Error Provider Crypto.

Module Key.

(** The array type [[u8; 32]] is a byte string with the length in [wf]. *)
Record t := mk {
  key_bytes : bytes;
  key_provider : option Provider.t
}.

Definition LEN : Z := 32.

Definition wf (self : t) : Prop := zlen (key_bytes self) = LEN.

Definition from_bytes (b : bytes) : t := {| key_bytes := b; key_provider := None |}.

Definition from_bytes_with_provider (b : bytes) (provider : Provider.t) : t :=
  {| key_bytes := b; key_provider := Some provider |}.

Definition as_bytes (self : t) : bytes := key_bytes self.

Definition clone (self : t) : t := {| key_bytes := key_bytes self; key_provider := key_provider self |}.

(** [From<[u8; 32]>] and [TryFrom<&[u8]>]. *)
Definition from_array (b : bytes) : t := from_bytes b.

Definition try_from (b : bytes) : Result t :=
  let actual := zlen b in
  let* array := ok_or (try_into_array LEN b) (InvalidKeyLength actual) in
  Ok (from_bytes array).

Section Provider.
Context {F : Features}.

Definition provider (self : t) : Result Provider.t :=
  match key_provider self with
  | Some provider => Ok provider
  | None =>
      match Provider.build_default with
      | Some provider => Ok provider
      | None => Err ProviderSelectionRequired
      end
  end.

Context {B : Backend}.

Definition generate_with_provider (entropy : Entropy) (provider : Provider.t) : Result t :=
  let rng := ProviderRng_new provider entropy in
  let (r, cells) := ProviderRng_generate_key (rng, zeros LEN) in
  let* _ := r in
  Ok {| key_bytes := snd cells; key_provider := Some provider |}.

Definition generate (entropy : Entropy) : Result t :=
  let* provider := ok_or Provider.build_default ProviderSelectionRequired in
  generate_with_provider entropy provider.

End Provider.

Section Drop.
Context {S : Support}.

(** The key's storage after [Drop::drop]. *)
Definition drop (self : t) : t :=
  {| key_bytes := zeroize (key_bytes self); key_provider := key_provider self |}.

End Drop.

End Key.

(** ** Lemmas *)

(** A key object that resolves to no provider: it is bound to none, and the build
    has several. *)
Definition unresolved {F : Features} (key : Key.t) : Prop :=
  Key.key_provider key = None /\ (2 <= length Provider.COMPILED)%nat.

Lemma provider_unresolved {F : Features} key e :
  Key.provider key = Err e -> unresolved key /\ e = ProviderSelectionRequired.
Proof.
  unfold Key.provider, unresolved. destruct (Key.key_provider key) as [p|]; [done|].
  destruct Provider.build_default eqn:Hb; intros [= <-]. pose proof compiled_nonempty.
  unfold Provider.build_default in Hb. destruct Provider.COMPILED as [|p [|q l]]; split_and!; simpl; done || lia.
Qed.

Section Facts.
Context {P : Primitives} {B : Backend} {BOk : BackendOk}.

Lemma generate_with_provider_wf e p k :
  Key.generate_with_provider e p = Ok k -> Key.wf k /\ Key.key_provider k = Some p.
Proof.
  unfold Key.generate_with_provider.
  pose proof (generate_key_promise (ProviderRng_new p e) (zeros Key.LEN)) as Hg. unfold wp in Hg.
  destruct (ProviderRng_generate_key _) as [r [rng out]]. simpl in *.
  destruct Hg as [[-> | ->] Hl]; intros [= <-]. split; [exact Hl|done].
Qed.

End Facts.

(** * Properties *)

Section Properties.
Context {F : Features} {P : Primitives} {B : Backend} {BOk : BackendOk}.

(** Which provider a key uses. A bound key keeps its provider; an unbound
    key resolves exactly when the build compiled one provider, and then to that
    one; every other use is refused, by [generate] as well. *)
Lemma key_provider_resolution (k : Key.t) (e : Entropy) :
  match Key.provider k with
  | Ok p => Key.key_provider k = Some p \/ (Key.key_provider k = None /\ Provider.COMPILED = [p])
  | Err err =>
      err = ProviderSelectionRequired /\ unresolved k
      /\ Key.generate e = Err ProviderSelectionRequired
  | Halt _ => False
  end.
Proof.
  destruct (Key.provider k) as [p|err|h] eqn:Hk.
  - unfold Key.provider in Hk. destruct (Key.key_provider k) as [q|]; [left; congruence|right].
    destruct Provider.build_default as [q|] eqn:Hb; [|done]. injection Hk as <-. split; [done|by apply build_default_iff].
  - apply provider_unresolved in Hk as [[Hn Hc] ->]. split_and!; [done..|]. unfold Key.generate.
    destruct Provider.build_default as [q|] eqn:Hb; [|done]. apply build_default_iff in Hb. rewrite Hb in Hc. simpl in Hc. lia.
  - unfold Key.provider in Hk. by repeat case_match.
Qed.

(** Key imports. A slice becomes a key exactly when it has 32 bytes, which
    the key then holds; otherwise the error reports its length. *)
Lemma key_try_from (b : bytes) :
  match Key.try_from b with
  | Ok k => Key.wf k /\ Key.as_bytes k = b /\ Key.key_provider k = None
  | Err e => e = InvalidKeyLength (zlen b) /\ zlen b <> 32
  | Halt _ => False
  end.
Proof.
  unfold Key.try_from, try_into_array. destruct (Z.eqb_spec (zlen b) Key.LEN); simpl; [|done].
  by split_and!.
Qed.

End Properties.
