(* ===== verification/Buffer.v ===== *)
(** * The segment buffer

    [src/buffer.rs]: reusable storage for one segment, with a state that says
    which part of it holds a plaintext payload or a ciphertext segment. *)

From S2P Require Import Prelude Bytes Error Parameters Crypto Reference.

Module BufferState.

Inductive t :=
| Empty
| Plaintext (length : Z)
| Ciphertext (length : Z).

#[global] Instance t_eq_dec : EqDecision t.
Proof. solve_decision. Defined.

End BufferState.

Module SegmentBuffer.

Record t := mk {
  parameters : Parameters.t;
  storage : bytes;
  state : BufferState.t
}.

Definition set_storage (self : t) (b : bytes) : t := mk (parameters self) b (state self).
Definition set_state (self : t) (st : BufferState.t) : t := mk (parameters self) (storage self) st.

(** [raw_mut]: the whole storage, borrowed mutably. *)
Definition raw_mut : lens t bytes := mkLens storage set_storage.

Definition capacity (self : t) : Z := zlen (storage self).

Definition matches (self : t) (p : Parameters.t) : bool := bool_decide (parameters self = p).

Definition plaintext_length (self : t) : Result Z :=
  match state self with
  | BufferState.Plaintext length => Ok length
  | BufferState.Empty | BufferState.Ciphertext _ => Err InvalidBufferState
  end.

Definition ciphertext_length (self : t) : Result Z :=
  match state self with
  | BufferState.Ciphertext length => Ok length
  | BufferState.Empty | BufferState.Plaintext _ => Err InvalidBufferState
  end.

Section Usize.
Context {T : Target}.

Definition new {E} (p : Parameters.t) : outcome E t :=
  let* b := vec_zeroed (Parameters.ciphertext_segment_length p) in
  Ok {| parameters := p; storage := b; state := BufferState.Empty |}.

(** A method that returns [&mut self.bytes[a..b]] returns the bounds of the
    borrowed range; its caller writes through [payload_mut]. *)
Definition borrow {E} (a b : Z) : M E t (Z * Z) :=
  let! self := get in
  do? index (storage self) a b in
  ret (a, b).

Definition prepare_plaintext (length : Z) : M Error t (Z * Z) :=
  let! self := get in
  let? maximum := Parameters.plaintext_segment_length (parameters self) in
  if maximum <? length then fail (InvalidPlaintextLength length (AtMost maximum))
  else
    do! put (set_state self (BufferState.Plaintext length)) in
    let? stop := usize (SEGMENT_PAYLOAD_OFFSET + length) in
    borrow SEGMENT_PAYLOAD_OFFSET stop.

Definition prepare_ciphertext (length : Z) : M Error t (Z * Z) :=
  let! self := get in
  do? Parameters.validate_ciphertext_segment_length (parameters self) length in
  do! put (set_state self (BufferState.Ciphertext length)) in
  borrow 0 length.

Definition plaintext (self : t) : Result bytes :=
  match state self with
  | BufferState.Plaintext length =>
      let* stop := usize (SEGMENT_PAYLOAD_OFFSET + length) in
      index (storage self) SEGMENT_PAYLOAD_OFFSET stop
  | BufferState.Empty | BufferState.Ciphertext _ => Err InvalidBufferState
  end.

Definition ciphertext (self : t) : Result bytes :=
  match state self with
  | BufferState.Ciphertext length => index (storage self) 0 length
  | BufferState.Empty | BufferState.Plaintext _ => Err InvalidBufferState
  end.

Definition extend_plaintext {E} (input : bytes) : M E t Z :=
  let! self := get in
  let length :=
    match state self with
    | BufferState.Plaintext length => length
    | BufferState.Empty | BufferState.Ciphertext _ => 0
    end in
  let? capacity := Parameters.plaintext_segment_length (parameters self) in
  let? room := usize (capacity - length) in
  let copied := Z.min (zlen input) room in
  let? start := usize (SEGMENT_PAYLOAD_OFFSET + length) in
  let? stop := usize (start + copied) in
  let? source := index input 0 copied in
  let? b := copy_to (storage self) start stop source in
  let? total := usize (length + copied) in
  do! put (mk (parameters self) b (BufferState.Plaintext total)) in
  ret copied.

End Usize.

Definition truncate_plaintext (length : Z) : M Error t unit :=
  let! self := get in
  let? current := plaintext_length self in
  if current <? length then fail (InvalidPlaintextLength length (AtMost current))
  else put (set_state self (BufferState.Plaintext length)).

Definition mark_ciphertext {E} (length : Z) : M E t unit :=
  modify (fun self => set_state self (BufferState.Ciphertext length)).

Section Clear.
Context {T : Target} {S : Support}.

Definition clear {E} : M E t unit :=
  modify (fun self => mk (parameters self) (zeroize (storage self)) BufferState.Empty).

(** The storage after [Drop::drop]. *)
Definition drop (self : t) : t := set_storage self (zeroize (storage self)).

(** The closure may borrow further cells [X], as a decryptor's state. *)
Definition decrypt_with {X} (operation : M Error (X * t) Z) : M Error (X * t) (Z * Z) :=
  matchM operation
    (fun length =>
      do! zoom lens_snd (modify (fun self => set_state self (BufferState.Plaintext length))) in
      let? stop := usize (SEGMENT_PAYLOAD_OFFSET + length) in
      zoom lens_snd (borrow SEGMENT_PAYLOAD_OFFSET stop))
    (fun error =>
      do! zoom lens_snd clear in
      fail error).

End Clear.

End SegmentBuffer.

(** * Lemmas *)

Import ParametersFacts.

Module BufferFacts.

(** The storage holds one full segment and the state describes a part of it. *)
Record wf (b : SegmentBuffer.t) : Prop := {
  wf_valid : Parameters.valid (SegmentBuffer.parameters b);
  wf_storage : zlen (SegmentBuffer.storage b) = Parameters.segment_length (SegmentBuffer.parameters b);
  wf_state :
    match SegmentBuffer.state b with
    | BufferState.Empty => True
    | BufferState.Plaintext n => 0 <= n <= payload (SegmentBuffer.parameters b)
    | BufferState.Ciphertext n => 32 <= n <= Parameters.segment_length (SegmentBuffer.parameters b)
    end
}.

(** A buffer after [clear]: every byte of its storage is zero. *)
Definition wiped (b b' : SegmentBuffer.t) : Prop :=
  SegmentBuffer.state b' = BufferState.Empty
  /\ SegmentBuffer.storage b' = zeros (zlen (SegmentBuffer.storage b))
  /\ SegmentBuffer.parameters b' = SegmentBuffer.parameters b.

Lemma clear_wiped {T : Target} {S : Support} {SOk : SupportOk} {E} b :
  wp (E := E) SegmentBuffer.clear b (fun r b' => r = Ok tt /\ wiped b b').
Proof. apply wp_modify. split; [done|]. split_and!; try done. simpl. by rewrite zeroize_zeros. Qed.

Lemma wiped_wf b b' : wf b -> wiped b b' -> wf b'.
Proof.
  intros [Hv Hs _] (H1 & H2 & H3). split; rewrite ?H1, ?H2, ?H3; [done| |done].
  rewrite zlen_zeros. pose proof (zlen_nonneg (SegmentBuffer.storage b)). lia.
Qed.

Lemma wiped_set_storage b s b' :
  zlen s = zlen (SegmentBuffer.storage b) -> wiped (SegmentBuffer.set_storage b s) b' -> wiped b b'.
Proof. intros Hl (H1 & H2 & H3). split_and!; try done. by rewrite H2, <- Hl. Qed.

(** The buffered plaintext, none when the buffer holds no plaintext. *)
Definition payload_of (b : SegmentBuffer.t) : bytes :=
  match SegmentBuffer.state b with
  | BufferState.Plaintext n => slice (SegmentBuffer.storage b) 16 (16 + n)
  | _ => []
  end.

Lemma wf_set_plaintext b n :
  wf b -> 0 <= n <= payload (SegmentBuffer.parameters b) ->
  wf (SegmentBuffer.set_state b (BufferState.Plaintext n)).
Proof. intros [] ?. by split. Qed.

Lemma wf_set_ciphertext b n :
  wf b -> 32 <= n <= Parameters.segment_length (SegmentBuffer.parameters b) ->
  wf (SegmentBuffer.set_state b (BufferState.Ciphertext n)).
Proof. intros [] ?. by split. Qed.

Lemma wf_set_storage b s :
  wf b -> zlen s = zlen (SegmentBuffer.storage b) -> wf (SegmentBuffer.set_storage b s).
Proof. intros [] ?. split; simpl; [done|congruence|done]. Qed.

Lemma zlen_payload_of b :
  wf b ->
  zlen (payload_of b) =
    match SegmentBuffer.state b with BufferState.Plaintext n => n | _ => 0 end
  /\ 0 <= zlen (payload_of b) <= payload (SegmentBuffer.parameters b).
Proof.
  intros [Hv Hs Hst]. destruct (valid_payload _ Hv). unfold payload_of.
  destruct (SegmentBuffer.state b); rewrite ?zlen_slice, ?zlen_nil; lia.
Qed.

Section Target.
Context {T : Target}.

Lemma borrow_ok {E} a b s :
  0 <= a <= b -> b <= zlen (SegmentBuffer.storage s) ->
  SegmentBuffer.borrow (E := E) a b s = (Ok (a, b), s).
Proof.
  intros. unfold SegmentBuffer.borrow, bindM, get, lift, ret. by rewrite index_ok.
Qed.

Lemma new_ok {E} p :
  Parameters.valid p -> Parameters.segment_length p <= isize_max ->
  SegmentBuffer.new (E := E) p
    = Ok (SegmentBuffer.mk p (zeros (Parameters.segment_length p)) BufferState.Empty).
Proof.
  intros Hv ?. destruct (valid_payload _ Hv). unfold SegmentBuffer.new.
  rewrite ciphertext_segment_length_ok, vec_zeroed_ok by (done || lia). done.
Qed.

Lemma new_panics {E} p :
  Parameters.valid p -> isize_max < Parameters.segment_length p ->
  SegmentBuffer.new (E := E) p = panic.
Proof.
  intros Hv ?. unfold SegmentBuffer.new, vec_zeroed, in_range.
  rewrite ciphertext_segment_length_ok by done. by replace (_ && _) with false by lia.
Qed.

Lemma new_wf {E} p b : Parameters.valid p -> SegmentBuffer.new (E := E) p = Ok b -> wf b.
Proof.
  intros Hv H. destruct (valid_payload _ Hv). destruct (Z.le_gt_cases (Parameters.segment_length p) isize_max).
  - rewrite new_ok in H by done. simplify_eq. split; simpl; [done| |done]. rewrite zlen_zeros. lia.
  - by rewrite new_panics in H.
Qed.

Lemma prepare_plaintext_ok b n :
  wf b -> 0 <= n <= payload (SegmentBuffer.parameters b) ->
  SegmentBuffer.prepare_plaintext n b
    = (Ok (16, 16 + n), SegmentBuffer.set_state b (BufferState.Plaintext n)).
Proof.
  intros [Hv Hs _] Hn. destruct (valid_payload _ Hv). pose proof u32_le_usize.
  unfold SegmentBuffer.prepare_plaintext, bindM, get, put, lift.
  rewrite plaintext_segment_length_ok by done. replace (_ <? _) with false by lia.
  rewrite usize_ok by flia. rewrite borrow_ok by (simpl; flia). done.
Qed.

Lemma prepare_plaintext_err b n :
  wf b -> payload (SegmentBuffer.parameters b) < n ->
  SegmentBuffer.prepare_plaintext n b
    = (Err (InvalidPlaintextLength n (AtMost (payload (SegmentBuffer.parameters b)))), b).
Proof.
  intros [Hv Hs _] Hn. unfold SegmentBuffer.prepare_plaintext, bindM, get, lift.
  rewrite plaintext_segment_length_ok by done. by replace (_ <? _) with true by lia.
Qed.

Lemma prepare_ciphertext_ok b n :
  wf b -> 32 <= n <= Parameters.segment_length (SegmentBuffer.parameters b) ->
  SegmentBuffer.prepare_ciphertext n b
    = (Ok (0, n), SegmentBuffer.set_state b (BufferState.Ciphertext n)).
Proof.
  intros [Hv Hs _] Hn. unfold SegmentBuffer.prepare_ciphertext, bindM, get, put, lift.
  rewrite validate_ciphertext_segment_length_ok by done. by rewrite borrow_ok by (simpl; lia).
Qed.

Lemma prepare_ciphertext_err b n :
  wf b -> ~ 32 <= n <= Parameters.segment_length (SegmentBuffer.parameters b) ->
  SegmentBuffer.prepare_ciphertext n b
    = (Err (InvalidCiphertextLength n (Between 32 (Parameters.segment_length (SegmentBuffer.parameters b)))), b).
Proof.
  intros [Hv Hs _] Hn. unfold SegmentBuffer.prepare_ciphertext, bindM, get, put, lift.
  by rewrite validate_ciphertext_segment_length_err by done.
Qed.

Lemma plaintext_ok b n :
  wf b -> SegmentBuffer.state b = BufferState.Plaintext n ->
  SegmentBuffer.plaintext b = Ok (payload_of b).
Proof.
  intros [Hv Hs Hst] Hn. destruct (valid_payload _ Hv). pose proof u32_le_usize.
  unfold SegmentBuffer.plaintext, payload_of. rewrite Hn in *.
  rewrite usize_ok by flia. simpl. rewrite index_ok by flia. done.
Qed.

Lemma ciphertext_ok b n :
  wf b -> SegmentBuffer.state b = BufferState.Ciphertext n ->
  SegmentBuffer.ciphertext b = Ok (ztake n (SegmentBuffer.storage b)).
Proof.
  intros [Hv Hs Hst] Hn. unfold SegmentBuffer.ciphertext. rewrite Hn in *.
  rewrite index_ok by lia. by rewrite slice_0.
Qed.

Lemma ciphertext_inv b segment :
  wf b -> SegmentBuffer.ciphertext b = Ok segment ->
  SegmentBuffer.state b = BufferState.Ciphertext (zlen segment) /\ payload_of b = []
  /\ zlen segment <= Parameters.segment_length (SegmentBuffer.parameters b).
Proof.
  intros Hwf H. pose proof Hwf as [Hv Hs Hst]. unfold payload_of.
  destruct (SegmentBuffer.state b) as [|n|n] eqn:Hn; [by unfold SegmentBuffer.ciphertext in H; rewrite Hn in H..|].
  rewrite (ciphertext_ok b n Hwf Hn) in H. apply ok_inj in H as <-. rewrite zlen_ztake.
  replace (0 `max` (n `min` zlen (SegmentBuffer.storage b))) with n by lia. split_and!; [done..|lia].
Qed.

(** A segment written over the raw storage and marked. *)
Lemma marked_ciphertext b segment :
  wf b -> 32 <= zlen segment <= Parameters.segment_length (SegmentBuffer.parameters b) ->
  let b' := SegmentBuffer.set_state (SegmentBuffer.set_storage b (splice (SegmentBuffer.storage b) 0 segment))
              (BufferState.Ciphertext (zlen segment)) in
  wf b' /\ SegmentBuffer.ciphertext b' = Ok segment.
Proof.
  intros Hwf Hn b'. pose proof Hwf as [Hv Hs Hst].
  assert (wf b') as Hwf'.
  { apply wf_set_ciphertext; [apply wf_set_storage; [done|apply zlen_splice; lia]|exact Hn]. }
  split; [done|]. rewrite (ciphertext_ok b' (zlen segment) Hwf' eq_refl). cbn.
  by rewrite <- slice_0, slice_splice_same by lia.
Qed.

(** The window of the storage that a prepared plaintext is borrowed from, and
    the buffer after something of the same length was written there. *)
Definition window b : bytes := slice (SegmentBuffer.storage b) 16 (16 + payload (SegmentBuffer.parameters b)).

Definition set_window b (content : bytes) : SegmentBuffer.t :=
  SegmentBuffer.set_storage b (splice (SegmentBuffer.storage b) 16 content).

Lemma zlen_window b : wf b -> zlen (window b) = payload (SegmentBuffer.parameters b).
Proof. intros [Hv Hs _]. destruct (valid_payload _ Hv). unfold window. rewrite zlen_slice. lia. Qed.

Lemma window_range b :
  wf b -> range_ok (SegmentBuffer.storage b) 16 (16 + payload (SegmentBuffer.parameters b)) = true.
Proof. intros [Hv Hs _]. destruct (valid_payload _ Hv). apply range_ok_true; lia. Qed.

Lemma set_window_ok b content :
  wf b -> zlen content = payload (SegmentBuffer.parameters b) ->
  wf (set_window b content) /\ window (set_window b content) = content.
Proof.
  intros Hb Hl. pose proof Hb as [Hv Hs _]. destruct (valid_payload _ Hv). split.
  - apply wf_set_storage; [done|]. apply zlen_splice; lia.
  - unfold window, set_window. cbn. apply slice_splice_same; lia.
Qed.

Lemma set_window_same b : wf b -> set_window b (window b) = b.
Proof.
  intros Hb. pose proof (zlen_window b Hb) as Hl. destruct (valid_payload _ (wf_valid _ Hb)).
  destruct b as [p s st]. unfold set_window, SegmentBuffer.set_storage. cbn [SegmentBuffer.storage SegmentBuffer.state].
  f_equal. unfold splice. rewrite Hl. cbn [SegmentBuffer.parameters] in *. unfold window, slice. cbn.
  rewrite <- (ztake_zdrop 16 s) at 4. f_equal.
  rewrite <- (ztake_zdrop (16 + payload p - 16) (zdrop 16 s)) at 2. rewrite zdrop_zdrop by lia. do 2 f_equal. lia.
Qed.

(** Truncating a full plaintext to what was filled. *)
Lemma truncate_window b chunk :
  wf b -> SegmentBuffer.state b = BufferState.Plaintext (payload (SegmentBuffer.parameters b)) ->
  zlen chunk <= payload (SegmentBuffer.parameters b) -> ztake (zlen chunk) (window b) = chunk ->
  let b' := SegmentBuffer.set_state b (BufferState.Plaintext (zlen chunk)) in
  SegmentBuffer.truncate_plaintext (zlen chunk) b = (Ok tt, b') /\ wf b' /\ payload_of b' = chunk.
Proof.
  intros Hb Hst Hlen Hw b'. pose proof (zlen_nonneg chunk). split_and!.
  - unfold SegmentBuffer.truncate_plaintext, bindM, get, lift, put, SegmentBuffer.plaintext_length. rewrite Hst.
    by replace (_ <? _) with false by lia.
  - by apply wf_set_plaintext.
  - unfold payload_of, window in *. cbn. rewrite <- Hw at 2.
    rewrite <- (slice_0 (slice _ _ _)), slice_slice by lia. f_equal; lia.
Qed.

(** How much of [input] an append takes, and the buffer it leaves. *)
Definition taken b (input : bytes) : Z :=
  Z.min (zlen input) (payload (SegmentBuffer.parameters b) - zlen (payload_of b)).

Definition extended b (input : bytes) : SegmentBuffer.t :=
  let length := zlen (payload_of b) in
  SegmentBuffer.mk (SegmentBuffer.parameters b)
    (splice (SegmentBuffer.storage b) (16 + length) (ztake (taken b input) input))
    (BufferState.Plaintext (length + taken b input)).

Lemma extend_plaintext_ok {E} b input :
  wf b -> SegmentBuffer.extend_plaintext (E := E) input b = (Ok (taken b input), extended b input).
Proof.
  intros Hwf. pose proof (zlen_payload_of b Hwf) as [Hl Hr]. pose proof Hwf as [Hv Hs Hst].
  destruct (valid_payload _ Hv). pose proof u32_le_usize. pose proof (zlen_nonneg input).
  unfold SegmentBuffer.extend_plaintext, bindM, get, put, lift, ret.
  assert (match SegmentBuffer.state b with BufferState.Plaintext n => n | _ => 0 end = zlen (payload_of b)) as Hlen
    by (destruct (SegmentBuffer.state b); lia).
  rewrite plaintext_segment_length_ok by done.
  replace (match SegmentBuffer.state b with
           | BufferState.Plaintext length => length
           | _ => 0 end) with (zlen (payload_of b)) by (destruct (SegmentBuffer.state b); done).
  rewrite usize_ok by flia. fold (taken b input).
  assert (0 <= taken b input <= payload (SegmentBuffer.parameters b) - zlen (payload_of b)
          /\ taken b input <= zlen input) by (unfold taken; lia).
  rewrite usize_ok by flia. rewrite usize_ok by flia.
  rewrite index_ok by lia. rewrite slice_0.
  rewrite copy_to_ok by (rewrite ?zlen_ztake; flia). rewrite usize_ok by flia. done.
Qed.

Lemma extended_wf b input : wf b -> wf (extended b input).
Proof.
  intros Hwf. pose proof (zlen_payload_of b Hwf) as [_ Hr]. pose proof Hwf as [Hv Hs Hst].
  destruct (valid_payload _ Hv). pose proof (zlen_nonneg input). unfold extended, taken.
  split; simpl; [done| |lia]. rewrite zlen_splice; [done|lia|]. rewrite zlen_ztake. lia.
Qed.

Lemma payload_of_extended b input :
  wf b -> payload_of (extended b input) = payload_of b ++ ztake (taken b input) input.
Proof.
  intros Hwf. pose proof (zlen_payload_of b Hwf) as [Hl Hr]. pose proof Hwf as [Hv Hs Hst].
  destruct (valid_payload _ Hv). pose proof (zlen_nonneg input).
  assert (Ht : 0 <= taken b input <= payload (SegmentBuffer.parameters b) - zlen (payload_of b)
          /\ taken b input <= zlen input) by (unfold taken; lia).
  unfold extended at 1, payload_of at 1; simpl.
  rewrite <- (slice_concat _ 16 (16 + zlen (payload_of b))) by lia.
  rewrite slice_splice_before by lia.
  rewrite slice_splice_same by (rewrite ?zlen_ztake; lia).
  f_equal. rewrite Hl. unfold payload_of.
  destruct (SegmentBuffer.state b); rewrite ?Z.add_0_r, ?slice_empty by lia; done.
Qed.

End Target.

Lemma truncate_plaintext_ok b m n :
  SegmentBuffer.state b = BufferState.Plaintext m -> n <= m ->
  SegmentBuffer.truncate_plaintext n b = (Ok tt, SegmentBuffer.set_state b (BufferState.Plaintext n)).
Proof.
  intros Hb ?. unfold SegmentBuffer.truncate_plaintext, bindM, get, lift, put, SegmentBuffer.plaintext_length.
  rewrite Hb. by replace (_ <? _) with false by lia.
Qed.

End BufferFacts.
Import BufferFacts.

(** * Properties *)

Section Properties.
Context {T : Target} {S : Support} {SOk : SupportOk}.

(** *** [decrypt_with] *)

(** What the closure owes: it leaves the buffer's size and parameters alone and
    returns the length of a payload that fits. *)
Definition kept {X} (b : SegmentBuffer.t) (r : Result Z) (s : X * SegmentBuffer.t) : Prop :=
  zlen (SegmentBuffer.storage (snd s)) = zlen (SegmentBuffer.storage b)
  /\ SegmentBuffer.parameters (snd s) = SegmentBuffer.parameters b
  /\ match r with
     | Ok n => 0 <= n <= payload (SegmentBuffer.parameters b)
     | Err _ => True
     | Halt _ => False
     end.

(** Decryption in place has one cleanup boundary. Whatever the operation does to
    the buffer, an error leaves it empty with every byte of its storage zero,
    and a success exposes the length the operation authenticated. *)
Lemma decrypt_with_ok {X} (operation : M Error (X * SegmentBuffer.t) Z) (x : X) (b : SegmentBuffer.t)
  (Hb : wf b) (Hop : wp operation (x, b) (kept b)) :
  wp (SegmentBuffer.decrypt_with operation) (x, b) (fun r s =>
    wf (snd s) /\ SegmentBuffer.parameters (snd s) = SegmentBuffer.parameters b
    /\ match r with
       | Ok bounds => exists n, fst (operation (x, b)) = Ok n /\ bounds = (16, 16 + n)
           /\ SegmentBuffer.state (snd s) = BufferState.Plaintext n
           /\ SegmentBuffer.storage (snd s) = SegmentBuffer.storage (snd (snd (operation (x, b))))
       | Err e => fst (operation (x, b)) = Err e /\ wiped b (snd s)
       | Halt _ => False
       end).
Proof.
  pose proof Hb as [Hv Hs _]. destruct (valid_payload _ Hv). pose proof u32_le_usize.
  unfold wp in Hop. unfold SegmentBuffer.decrypt_with, wp, matchM.
  destruct (operation (x, b)) as [[n|e|h] [x' b']]; destruct Hop as (Hl & Hp & Hn); cbn [fst snd] in *; [| |done].
  - unfold bindM, zoom, modify, lift. cbn. rewrite usize_ok by flia. rewrite index_ok by flia. cbn.
    split_and!; [|done|by exists n]. split; cbn; [by rewrite Hp|congruence|by rewrite Hp].
  - destruct (wp_run _ _ _ (clear_wiped (E := Error) b')) as (res & b2 & E & -> & Hw).
    unfold bindM, zoom. cbn [view update lens_snd fst snd]. rewrite E. cbn.
    assert (wiped b b2) as Hwb by (destruct Hw as (? & Hz & ?); split_and!; [done|by rewrite Hz, Hl|congruence]).
    split_and!; [by eapply wiped_wf|apply Hwb|done|done].
Qed.

(** *** Actions *)

(** An operation with cells of its own, as one on the buffer. *)
Definition on_buffer {X A} (operation : M Error (X * SegmentBuffer.t) A) (x : X) : M Error SegmentBuffer.t unit :=
  fun b => let (r, s) := operation (x, b) in (omap_ok (fun _ => tt) r, snd s).

(** What a holder of the buffer can do: the methods, those that are private to
    the crate as well, a write through the slice that a [prepare] returned, and
    one anywhere through [raw_mut]. *)
Inductive action :=
| Prepare_plaintext (n : Z)
| Prepare_ciphertext (n : Z)
| Write_payload (src : bytes)
| Write_raw (start : Z) (src : bytes)
| Extend (input : bytes)
| Truncate (n : Z)
| Mark_ciphertext (n : Z)
| Decrypt_with (operation : M Error (unit * SegmentBuffer.t) Z)
| Clear.

(** Arguments of type [usize]; a source of the borrowed slice's length; the
    length of a segment that was written; a closure that keeps its promise. *)
Definition action_ok (b : SegmentBuffer.t) (a : action) : Prop :=
  match a with
  | Prepare_plaintext n | Prepare_ciphertext n | Truncate n => 0 <= n
  | Write_payload src =>
      match SegmentBuffer.state b with
      | BufferState.Empty => False
      | BufferState.Plaintext n | BufferState.Ciphertext n => zlen src = n
      end
  | Write_raw start src => 0 <= start /\ start + zlen src <= zlen (SegmentBuffer.storage b)
  | Mark_ciphertext n => 32 <= n <= Parameters.segment_length (SegmentBuffer.parameters b)
  | Decrypt_with operation => wp operation (tt, b) (kept b)
  | Extend _ | Clear => True
  end.

Definition act (a : action) : M Error SegmentBuffer.t unit :=
  match a with
  | Prepare_plaintext n => let! _ := SegmentBuffer.prepare_plaintext n in ret tt
  | Prepare_ciphertext n => let! _ := SegmentBuffer.prepare_ciphertext n in ret tt
  | Write_payload src =>
      let! self := get in
      let start := match SegmentBuffer.state self with BufferState.Plaintext _ => 16 | _ => 0 end in
      zoom SegmentBuffer.raw_mut (zoom_range start (start + zlen src) (put src))
  | Write_raw start src => zoom SegmentBuffer.raw_mut (zoom_range start (start + zlen src) (put src))
  | Extend input => let! _ := SegmentBuffer.extend_plaintext input in ret tt
  | Truncate n => SegmentBuffer.truncate_plaintext n
  | Mark_ciphertext n => SegmentBuffer.mark_ciphertext n
  | Decrypt_with operation => on_buffer (SegmentBuffer.decrypt_with operation) tt
  | Clear => SegmentBuffer.clear
  end.

(** The state that an action leaves, and that a failed one changes nothing but
    for [decrypt_with], which wipes the buffer. *)
Definition acted (a : action) (b : SegmentBuffer.t) (r : Result unit) (b' : SegmentBuffer.t) : Prop :=
  match r with
  | Ok _ =>
      match a with
      | Prepare_plaintext n | Truncate n => SegmentBuffer.state b' = BufferState.Plaintext n
      | Prepare_ciphertext n | Mark_ciphertext n => SegmentBuffer.state b' = BufferState.Ciphertext n
      | Write_payload _ | Write_raw _ _ => SegmentBuffer.state b' = SegmentBuffer.state b
      | Extend input => payload_of b' = payload_of b ++ ztake (zlen (payload_of b') - zlen (payload_of b)) input
          /\ SegmentBuffer.state b' = BufferState.Plaintext
               (Z.min (payload (SegmentBuffer.parameters b)) (zlen (payload_of b) + zlen input))
      | Decrypt_with operation => exists n, fst (operation (tt, b)) = Ok n
          /\ SegmentBuffer.state b' = BufferState.Plaintext n
          /\ SegmentBuffer.storage b' = SegmentBuffer.storage (snd (snd (operation (tt, b))))
      | Clear => wiped b b'
      end
  | Err e => match a with
      | Decrypt_with operation => fst (operation (tt, b)) = Err e /\ wiped b b'
      | _ => b' = b
      end
  | Halt _ => False
  end.

Lemma raw_write_ok b start src :
  wf b -> 0 <= start -> start + zlen src <= zlen (SegmentBuffer.storage b) ->
  wp (E := Error) (zoom SegmentBuffer.raw_mut (zoom_range start (start + zlen src) (put src))) b (fun r b' =>
    r = Ok tt /\ wf b' /\ SegmentBuffer.parameters b' = SegmentBuffer.parameters b
    /\ SegmentBuffer.state b' = SegmentBuffer.state b).
Proof.
  intros Hb H0 H1. pose proof (zlen_nonneg src). apply wp_zoom, wp_zoom_range; [apply range_ok_true; cbn; lia|].
  apply wp_put. split_and!; [done| |done..]. apply wf_set_storage; [done|]. apply zlen_splice; cbn; lia.
Qed.

Lemma act_spec b a :
  wf b -> action_ok b a ->
  wp (act a) b (fun r b' => wf b' /\ SegmentBuffer.parameters b' = SegmentBuffer.parameters b /\ acted a b r b').
Proof.
  intros Hwf Ha. pose proof (zlen_payload_of b Hwf) as [Hl Hr]. pose proof Hwf as [Hv Hs Hst]. destruct (valid_payload _ Hv).
  destruct a as [n|n|src|start src|input|n|n|operation|]; cbn [act action_ok acted] in *.
  - destruct (Z.le_gt_cases n (payload (SegmentBuffer.parameters b))); apply wp_bind; eapply wp_eq;
      [by apply prepare_plaintext_ok| |by apply prepare_plaintext_err|done].
    split_and!; [by apply wf_set_plaintext|done..].
  - destruct (decide (32 <= n <= Parameters.segment_length (SegmentBuffer.parameters b)));
      apply wp_bind; eapply wp_eq;
      [by apply prepare_ciphertext_ok| |by apply prepare_ciphertext_err|done].
    split_and!; [by apply wf_set_ciphertext|done..].
  - apply wp_bind, wp_get. destruct (SegmentBuffer.state b) as [|m|m] eqn:Hb; [done| |]; subst m;
      (eapply wp_mono; [apply raw_write_ok; [done|lia..]|]; intros r b' (-> & ? & ? & ?); split_and!; [done..|cbn; congruence]).
  - destruct Ha. eapply wp_mono; [by apply raw_write_ok|]. by intros r b' (-> & ? & ? & ?).
  - apply wp_bind. eapply wp_eq; [by apply extend_plaintext_ok|]. pose proof (extended_wf b input Hwf) as Hx.
    pose proof (zlen_nonneg input). apply wp_ret. split; [exact Hx|]. split; [done|split].
    + rewrite payload_of_extended, zlen_app by done. f_equal. rewrite zlen_ztake. f_equal. unfold taken. lia.
    + cbn. f_equal. unfold taken. lia.
  - unfold SegmentBuffer.truncate_plaintext, SegmentBuffer.plaintext_length.
    apply wp_bind, wp_get, wp_bind, wp_lift.
    destruct (SegmentBuffer.state b) as [|m|m] eqn:Hb; try (by split_and!).
    destruct (Z.ltb_spec m n); [by split_and!|]. split_and!; try done. apply wf_set_plaintext; [done|]. lia.
  - apply wp_modify. split_and!; [by apply wf_set_ciphertext|done..].
  - unfold wp, on_buffer. pose proof (decrypt_with_ok operation tt b Hwf Ha) as Hw. unfold wp in Hw.
    destruct (SegmentBuffer.decrypt_with operation (tt, b)) as [[bounds|e|h] s]; cbn [fst snd omap_ok] in *; [|done..].
    destruct Hw as (? & ? & n & ? & _ & ?). split_and!; [done..|by exists n].
  - eapply wp_mono; [apply clear_wiped|]. intros r b' [-> Hw]. split_and!; [by eapply wiped_wf|apply Hw|done].
Qed.

(** The two accessors agree with the state. *)
Definition readable (b : SegmentBuffer.t) : Prop :=
  match SegmentBuffer.state b with
  | BufferState.Empty =>
      SegmentBuffer.plaintext b = Err InvalidBufferState /\ SegmentBuffer.ciphertext b = Err InvalidBufferState
  | BufferState.Plaintext n =>
      (exists s, SegmentBuffer.plaintext b = Ok s /\ zlen s = n) /\ SegmentBuffer.ciphertext b = Err InvalidBufferState
  | BufferState.Ciphertext n =>
      (exists s, SegmentBuffer.ciphertext b = Ok s /\ zlen s = n) /\ SegmentBuffer.plaintext b = Err InvalidBufferState
  end.

Lemma wf_readable b : wf b -> readable b.
Proof.
  intros Hwf. pose proof (zlen_payload_of b Hwf) as [Hl _]. pose proof Hwf as [Hv Hs Hst]. unfold readable.
  destruct (SegmentBuffer.state b) as [|n|n] eqn:Hn.
  - unfold SegmentBuffer.plaintext, SegmentBuffer.ciphertext. by rewrite Hn.
  - split; [|unfold SegmentBuffer.ciphertext; by rewrite Hn]. erewrite plaintext_ok by done. eauto.
  - split; [|unfold SegmentBuffer.plaintext; by rewrite Hn]. erewrite ciphertext_ok by done.
    eexists. split; [done|]. rewrite zlen_ztake. lia.
Qed.

(** Appends one input after another and reports how much of each was taken. *)
Fixpoint extend_all (inputs : list bytes) : M Error SegmentBuffer.t (list Z) :=
  match inputs with
  | [] => ret []
  | input :: inputs =>
      let! copied := SegmentBuffer.extend_plaintext input in
      let! rest := extend_all inputs in
      ret (copied :: rest)
  end.

(** Appends accumulate in order and saturate at one segment: after any
    sequence of inputs the payload is what it was followed by the inputs, cut
    at the capacity, and the reported counts add up to the bytes taken. *)
Lemma extend_plaintext_accumulates (b : SegmentBuffer.t) (inputs : list bytes) (Hb : wf b) :
  wp (extend_all inputs) b (fun r b' =>
    exists counts, r = Ok counts
    /\ payload_of b' = ztake (payload (SegmentBuffer.parameters b)) (payload_of b ++ concat inputs)
    /\ zlen (payload_of b) + foldr Z.add 0 counts = zlen (payload_of b')).
Proof.
  revert b Hb. induction inputs as [|input inputs IH]; intros b Hwf; cbn [extend_all].
  - apply wp_ret. exists []. pose proof (zlen_payload_of b Hwf) as [_ ?].
    cbn [concat foldr]. rewrite app_nil_r, ztake_all by lia. split_and!; [done..|lia].
  - apply wp_bind. eapply wp_eq; [by apply extend_plaintext_ok|].
    pose proof (extended_wf b input Hwf) as Hwf'. apply wp_bind.
    eapply wp_mono; [by apply IH|]. intros r b' (counts & -> & Hpay & Hsum). apply wp_ret.
    exists (taken b input :: counts). cbn [foldr concat].
    pose proof (zlen_payload_of b Hwf) as [_ ?]. pose proof (zlen_nonneg input).
    rewrite payload_of_extended in Hpay, Hsum by done.
    assert (0 <= taken b input <= zlen input) by (unfold taken; lia).
    split_and!; [done| |rewrite zlen_app, zlen_ztake in Hsum; lia].
    rewrite Hpay. change (SegmentBuffer.parameters (extended b input)) with (SegmentBuffer.parameters b).
    unfold taken in *. destruct (Z.le_gt_cases (zlen input) (payload (SegmentBuffer.parameters b) - zlen (payload_of b))).
    + rewrite Z.min_l, (ztake_all (zlen input)) by lia. by rewrite <- app_assoc.
    + rewrite Z.min_r by lia. rewrite (app_assoc (payload_of b)).
      rewrite !(ztake_app_l _ (payload_of b ++ _)) by (rewrite zlen_app, ?zlen_ztake; lia).
      rewrite ztake_all by (rewrite zlen_app, zlen_ztake; lia).
      by rewrite ztake_app_r by lia.
Qed.

End Properties.

(** ** Witnesses *)

(** A new buffer of 64-byte segments. *)
Definition example_buffer : SegmentBuffer.t :=
  SegmentBuffer.mk Parameters.SEGMENT_64_B (zeros 64) BufferState.Empty.

Lemma example_buffer_wf : wf example_buffer.
Proof. by split; [done|by vm_compute|]. Qed.

(** Three appends of 20 bytes fill the 32-byte payload: 20, 12 and 0 are taken. *)
Lemma extend_plaintext_accumulates_witness :
  exists counts, fst (extend_all (T := target64) (replicate 3 (zeros 20)) example_buffer) = Ok counts
    /\ foldr Z.add 0 counts = 32.
Proof.
  destruct (extend_plaintext_accumulates (T := target64) example_buffer (replicate 3 (zeros 20))
              example_buffer_wf) as (counts & H1 & H2 & H3).
  exists counts. split; [exact H1|].
  change (zlen (payload_of example_buffer)) with 0 in H3. rewrite H2 in H3. exact H3.
Defined.

(** An operation that fails after it wrote to the buffer. *)
Definition failing_operation : M Error (unit * SegmentBuffer.t) Z :=
  do! zoom lens_snd (modify (fun b => SegmentBuffer.set_storage b (splice (SegmentBuffer.storage b) 0 [byte_of_Z 7]))) in
  fail AuthenticationFailed.
