(* ===== verification/Spec.v ===== *)
(** * The FLOE specification

    The pseudo-code of [spec/FLOE-SPEC.md], function by function, over the
    algorithms of [Primitives]. [assert], [throw] and a failed [AEAD_DEC] are
    [None]; a call of [RND] is an argument; the implicit [params] is the
    segment length, the only parameter with more than one value. *)

From stdpp Require Import strings.
From S2P Require Import Prelude Bytes Crypto.

Module Spec.

Definition AEAD_ID : Z := 0.
Definition AEAD_KEY_LEN : Z := 32.
Definition AEAD_IV_LEN : Z := 12.
Definition AEAD_TAG_LEN : Z := 16.
Definition AEAD_ROTATION_MASK : Z := 20.
Definition AEAD_MAX_SEGMENTS : Z := 2 ^ 40.
Definition KDF_ID : Z := 0.
Definition KDF_KEY_LEN : Z := 48.
Definition FLOE_IV_LEN : Z := 32.

Definition I2BE (val len : Z) : bytes := to_be_bytes (Z.to_nat len) val.
Definition BE2I (b : bytes) : Z := from_be_bytes b.

Definition SPLIT (data : bytes) (prefix_len suffix_len : Z) : option (bytes * bytes * bytes) :=
  if prefix_len + suffix_len <=? zlen data then
    let body_end := zlen data - suffix_len in
    Some (ztake prefix_len data, slice data prefix_len body_end, zdrop body_end data)
  else None.

Definition PARAM_ENCODE (ENC_SEG_LEN : Z) : bytes :=
  I2BE AEAD_ID 1 ++ I2BE KDF_ID 1 ++ I2BE ENC_SEG_LEN 4 ++ I2BE FLOE_IV_LEN 4.

(** The low-order [bits] masked to 0. *)
Definition MASK (val bits : Z) : Z := Z.ldiff val (Z.ones bits).

Definition HEADER_TAG : bytes := String.list_byte_of_string "HEADER_TAG:"%string.
Definition MESSAGE_KEY : bytes := String.list_byte_of_string "MESSAGE_KEY:"%string.
Definition DEK : bytes := String.list_byte_of_string "DEK:"%string.

Record State := mkState {
  MessageKey : bytes;
  iv : bytes;
  aad : bytes
}.

Section Functions.
Context {P : Primitives}.

Definition FLOE_KDF (params : Z) (key iv aad purpose : bytes) (len : Z) : bytes :=
  kdf key (PARAM_ENCODE params ++ iv ++ purpose ++ aad) len.

Definition DERIVE_KEY (params : Z) (key iv aad : bytes) (segmentNumber : Z) : bytes :=
  FLOE_KDF params key iv aad (DEK ++ I2BE (MASK segmentNumber AEAD_ROTATION_MASK) 8) AEAD_KEY_LEN.

(** ** Random access *)

Definition startEncryption (params : Z) (key aad iv : bytes) : State * bytes :=
  let HeaderPrefix := PARAM_ENCODE params ++ iv in
  let HeaderTag := FLOE_KDF params key iv aad HEADER_TAG 32 in
  let MessageKey := FLOE_KDF params key iv aad MESSAGE_KEY KDF_KEY_LEN in
  (mkState MessageKey iv aad, HeaderPrefix ++ HeaderTag).

Definition startDecryption (params : Z) (key aad header : bytes) : option State :=
  let EncodedParams := PARAM_ENCODE params in
  if bool_decide (zlen header = FLOE_IV_LEN + zlen EncodedParams + 32) then
    '(HeaderParams, iv, HeaderTag) ← SPLIT header (zlen EncodedParams) 32;
    if bool_decide (HeaderParams = EncodedParams) then
      let ExpectedHeaderTag := FLOE_KDF params key iv aad HEADER_TAG 32 in
      if bool_decide (ExpectedHeaderTag = HeaderTag) then
        let MessageKey := FLOE_KDF params key iv aad MESSAGE_KEY KDF_KEY_LEN in
        Some (mkState MessageKey iv aad)
      else None
    else None
  else None.

Definition aad_tail (is_final : bool) : bytes := I2BE (if is_final then 1 else 0) 1.

Definition encryptSegment (params : Z) (state : State) (aead_iv plaintext : bytes) (position : Z)
    (is_final : bool) : option bytes :=
  let capacity := params - AEAD_IV_LEN - AEAD_TAG_LEN - 4 in
  if (if is_final then zlen plaintext <=? capacity else zlen plaintext =? capacity) then
    let aead_key := DERIVE_KEY params (MessageKey state) (iv state) (aad state) position in
    let aead_aad := I2BE position 8 ++ aad_tail is_final in
    let '(aead_ciphertext, tag) := gcm_encrypt aead_key aead_iv aead_aad plaintext in
    let segment_header :=
      if is_final then I2BE (4 + AEAD_IV_LEN + zlen aead_ciphertext + AEAD_TAG_LEN) 4
      else I2BE 0xFFFFFFFF 4 in
    Some (segment_header ++ aead_iv ++ aead_ciphertext ++ tag)
  else None.

(** The assertions on the framing of a segment. *)
Definition framing_ok (params : Z) (EncryptedSegment : bytes) (is_final : bool) : bool :=
  if is_final then
    (AEAD_IV_LEN + AEAD_TAG_LEN + 4 <=? zlen EncryptedSegment)
    && (zlen EncryptedSegment <=? params)
    && (BE2I (ztake 4 EncryptedSegment) =? zlen EncryptedSegment)
  else
    (zlen EncryptedSegment =? params) && (BE2I (ztake 4 EncryptedSegment) =? 0xFFFFFFFF).

Definition decryptSegment (params : Z) (state : State) (EncryptedSegment : bytes) (position : Z)
    (is_final : bool) : option bytes :=
  if framing_ok params EncryptedSegment is_final then
    let aead_key := DERIVE_KEY params (MessageKey state) (iv state) (aad state) position in
    '(aead_iv, aead_ciphertext, tag) ← SPLIT (zdrop 4 EncryptedSegment) AEAD_IV_LEN AEAD_TAG_LEN;
    let aead_aad := I2BE position 8 ++ aad_tail is_final in
    gcm_decrypt aead_key aead_iv aead_aad aead_ciphertext tag
  else None.

(** ** Online *)

Record OnlineState := mkOnline {
  base : State;
  Counter : Z;
  Closed : bool
}.

Definition startOnlineEncryption (params : Z) (key aad iv : bytes) : OnlineState * bytes :=
  let '(state, header) := startEncryption params key aad iv in
  (mkOnline state 0 false, header).

Definition encryptOnlineSegment (params : Z) (state : OnlineState) (aead_iv plaintext : bytes)
    : option (OnlineState * bytes) :=
  if negb (Closed state) && negb (Counter state =? AEAD_MAX_SEGMENTS - 1) then
    segment ← encryptSegment params (base state) aead_iv plaintext (Counter state) false;
    Some (mkOnline (base state) (Counter state + 1) (Closed state), segment)
  else None.

Definition encryptLastSegment (params : Z) (state : OnlineState) (aead_iv plaintext : bytes)
    : option (OnlineState * bytes) :=
  if negb (Closed state) then
    segment ← encryptSegment params (base state) aead_iv plaintext (Counter state) true;
    Some (mkOnline (base state) (Counter state) true, segment)
  else None.

Definition startOnlineDecryption (params : Z) (key aad header : bytes) : option OnlineState :=
  state ← startDecryption params key aad header;
  Some (mkOnline state 0 false).

Definition decryptOnlineSegment (params : Z) (state : OnlineState) (EncryptedSegment : bytes)
    : option (OnlineState * bytes) :=
  if negb (Closed state) && negb (Counter state =? AEAD_MAX_SEGMENTS - 1) then
    plaintext ← decryptSegment params (base state) EncryptedSegment (Counter state) false;
    Some (mkOnline (base state) (Counter state + 1) (Closed state), plaintext)
  else None.

Definition decryptLastSegment (params : Z) (state : OnlineState) (EncryptedSegment : bytes)
    : option (OnlineState * bytes) :=
  if negb (Closed state) then
    plaintext ← decryptSegment params (base state) EncryptedSegment (Counter state) true;
    Some (mkOnline (base state) (Counter state) true, plaintext)
  else None.

Definition decryptAnyOnlineSegment (params : Z) (state : OnlineState) (EncryptedSegment : bytes)
    : option (OnlineState * bytes) :=
  if BE2I (ztake 4 EncryptedSegment) =? 0xFFFFFFFF then decryptOnlineSegment params state EncryptedSegment
  else decryptLastSegment params state EncryptedSegment.

End Functions.

End Spec.

(** * Lemmas *)

Section Facts.
Context {P : Primitives}.

Lemma MASK_rotation n : Spec.MASK n 20 = n - n mod 2 ^ 20.
Proof.
  unfold Spec.MASK. rewrite Z.ldiff_ones_r, Z.shiftl_mul_pow2, Z.shiftr_div_pow2 by lia.
  pose proof (Z.div_mod n (2 ^ 20)). lia.
Qed.

Lemma MASK_bounds n : 0 <= n -> 0 <= Spec.MASK n 20 <= n.
Proof.
  intros. rewrite MASK_rotation. pose proof (Z.mod_pos_bound n (2 ^ 20)).
  pose proof (Z.mod_le n (2 ^ 20)). lia.
Qed.

(** The encoded segment of a plaintext with the given key, nonce and framing. *)
Definition sealed_segment (key aead_iv aead_aad plaintext header : bytes) : bytes :=
  header ++ aead_iv ++ fst (gcm_encrypt key aead_iv aead_aad plaintext)
    ++ snd (gcm_encrypt key aead_iv aead_aad plaintext).

Context {POk : PrimitivesOk}.

Lemma zlen_sealed_segment key aead_iv aead_aad plaintext header :
  zlen header = 4 -> zlen aead_iv = 12 ->
  zlen (sealed_segment key aead_iv aead_aad plaintext header) = zlen plaintext + 32.
Proof.
  intros. unfold sealed_segment. rewrite !zlen_app, gcm_ciphertext_length, gcm_tag_length. lia.
Qed.

(** What [encryptSegment] returns when its assertions hold. *)
Definition segment_fits (params : Z) (is_final : bool) (n : Z) : Prop :=
  if is_final then n <= params - 32 else n = params - 32.

Definition segment_prefix (is_final : bool) (n : Z) : bytes :=
  u32_to_be_bytes (if is_final then 32 + n else u32_max).

Definition segment_key (params : Z) (state : Spec.State) (position : Z) : bytes :=
  Spec.DERIVE_KEY params (Spec.MessageKey state) (Spec.iv state) (Spec.aad state) position.

Definition segment_aead_aad (position : Z) (is_final : bool) : bytes :=
  Spec.I2BE position 8 ++ Spec.aad_tail is_final.

Lemma encryptSegment_eq params state aead_iv plaintext position is_final :
  segment_fits params is_final (zlen plaintext) ->
  Spec.encryptSegment params state aead_iv plaintext position is_final
    = Some (sealed_segment (segment_key params state position) aead_iv
              (segment_aead_aad position is_final) plaintext (segment_prefix is_final (zlen plaintext))).
Proof.
  intros Hf. unfold Spec.encryptSegment, Spec.AEAD_IV_LEN, Spec.AEAD_TAG_LEN, sealed_segment.
  fold (segment_key params state position) (segment_aead_aad position is_final).
  pose proof (gcm_ciphertext_length (segment_key params state position) aead_iv
                (segment_aead_aad position is_final) plaintext) as Hl.
  destruct (gcm_encrypt _ _ _ plaintext) as [c t]. simpl in *.
  unfold segment_prefix, Spec.I2BE. destruct is_final; simpl in Hf.
  - replace (_ <=? _) with true by lia. rewrite Hl. unfold u32_to_be_bytes. simpl Z.to_nat.
    replace (4 + 12 + zlen plaintext + 16) with (32 + zlen plaintext) by lia. done.
  - replace (_ =? _) with true by lia. done.
Qed.

Lemma encryptSegment_none params state aead_iv plaintext position is_final :
  ~ segment_fits params is_final (zlen plaintext) ->
  Spec.encryptSegment params state aead_iv plaintext position is_final = None.
Proof.
  intros Hf. unfold Spec.encryptSegment, Spec.AEAD_IV_LEN, Spec.AEAD_TAG_LEN.
  destruct is_final; simpl in Hf.
  - by replace (_ <=? _) with false by lia.
  - by replace (_ =? _) with false by lia.
Qed.

(** A framed segment is opened with its nonce, ciphertext and tag. *)
Lemma decryptSegment_eq params state segment position is_final :
  32 <= params -> Spec.framing_ok params segment is_final = true ->
  Spec.decryptSegment params state segment position is_final
    = gcm_decrypt (segment_key params state position) (slice segment 4 16)
        (segment_aead_aad position is_final)
        (slice segment 16 (zlen segment - 16)) (slice segment (zlen segment - 16) (zlen segment)).
Proof.
  intros Hp Hf. unfold Spec.decryptSegment. rewrite Hf.
  assert (32 <= zlen segment) as Hl.
  { unfold Spec.framing_ok, Spec.AEAD_IV_LEN, Spec.AEAD_TAG_LEN in Hf. destruct is_final; lia. }
  unfold Spec.SPLIT, Spec.AEAD_IV_LEN, Spec.AEAD_TAG_LEN. rewrite zlen_zdrop.
  replace (_ <=? _) with true by lia. cbn [mbind option_bind].
  replace (zlen segment - Z.max 0 (Z.min 4 (zlen segment)) - 16) with (zlen segment - 20) by lia.
  fold (segment_key params state position) (segment_aead_aad position is_final).
  f_equal.
  - unfold slice. rewrite zdrop_zdrop by lia. f_equal; lia.
  - rewrite zdrop_zdrop, slice_to_end by lia. f_equal; lia.
Qed.

Lemma framing_ok_sealed params key aead_iv aead_aad plaintext is_final :
  params < u32_max -> zlen aead_iv = 12 -> 32 <= params ->
  segment_fits params is_final (zlen plaintext) ->
  Spec.framing_ok params
    (sealed_segment key aead_iv aead_aad plaintext (segment_prefix is_final (zlen plaintext))) is_final
    = true.
Proof.
  intros Hp Hiv Hp' Hf. pose proof (zlen_nonneg plaintext).
  unfold Spec.framing_ok, Spec.AEAD_IV_LEN, Spec.AEAD_TAG_LEN.
  rewrite zlen_sealed_segment by (done || apply zlen_u32_to_be_bytes).
  assert (Htake : ztake 4 (sealed_segment key aead_iv aead_aad plaintext (segment_prefix is_final (zlen plaintext)))
                  = segment_prefix is_final (zlen plaintext)).
  { unfold sealed_segment. rewrite ztake_app_l by (unfold segment_prefix; rewrite zlen_u32_to_be_bytes; lia).
    by rewrite ztake_all by (unfold segment_prefix; rewrite zlen_u32_to_be_bytes; lia). }
  rewrite Htake. unfold segment_prefix, Spec.BE2I. rewrite u32_from_to_be by
    (unfold in_u32, u32_max in *; destruct is_final; simpl in Hf; lia).
  unfold u32_max in *. destruct is_final; simpl in Hf; lia.
Qed.

(** [decryptSegment] inverts [encryptSegment]. *)
Lemma decryptSegment_encryptSegment params state aead_iv plaintext position is_final segment :
  32 <= params < u32_max -> zlen aead_iv = 12 ->
  Spec.encryptSegment params state aead_iv plaintext position is_final = Some segment ->
  Spec.decryptSegment params state segment position is_final = Some plaintext.
Proof.
  intros [Hp Hp'] Hiv He.
  assert (segment_fits params is_final (zlen plaintext)) as Hf.
  { unfold Spec.encryptSegment, Spec.AEAD_IV_LEN, Spec.AEAD_TAG_LEN in He.
    destruct is_final; simpl; case_match; simplify_eq/=; lia. }
  rewrite encryptSegment_eq in He by done. injection He as <-.
  rewrite decryptSegment_eq by (done || by apply framing_ok_sealed).
  rewrite zlen_sealed_segment by (done || apply zlen_u32_to_be_bytes).
  set (key := segment_key params state position). set (a := segment_aead_aad position is_final).
  unfold sealed_segment. pose proof (gcm_ciphertext_length key aead_iv a plaintext) as Hc.
  pose proof (gcm_tag_length key aead_iv a plaintext) as Ht. pose proof (zlen_nonneg plaintext).
  assert (zlen (segment_prefix is_final (zlen plaintext)) = 4) as H4 by apply zlen_u32_to_be_bytes.
  set (h := segment_prefix _ _) in *. set (c := fst _) in *. set (t := snd _) in *.
  replace (slice (h ++ _) 4 16) with aead_iv.
  2: { rewrite slice_app_r, slice_app_l by lia. rewrite H4. symmetry. apply slice_all. lia. }
  replace (slice (h ++ _) 16 _) with c.
  2: { rewrite !slice_app_r, slice_app_l by lia. rewrite H4, Hiv. symmetry. apply slice_all. lia. }
  replace (slice (h ++ _) (_ - _) _) with t.
  2: { rewrite !slice_app_r by lia. symmetry. rewrite H4, Hiv, Hc.
       replace (zlen plaintext + 32 - 16 - 4 - 12 - zlen plaintext) with 0 by lia. apply slice_all. lia. }
  apply gcm_decrypt_encrypt.
Qed.

(** What [decryptSegment] accepts is the encoding of what it returns. *)
Lemma decryptSegment_inv params state segment position is_final plaintext :
  32 <= params < u32_max ->
  Spec.decryptSegment params state segment position is_final = Some plaintext ->
  segment_fits params is_final (zlen plaintext)
  /\ Spec.encryptSegment params state (slice segment 4 16) plaintext position is_final = Some segment.
Proof.
  intros [Hp Hp'] Hd. destruct (Spec.framing_ok params segment is_final) eqn:Hf.
  2: { unfold Spec.decryptSegment in Hd. by rewrite Hf in Hd. }
  rewrite decryptSegment_eq in Hd by done.
  assert (32 <= zlen segment /\ zlen segment <= params) as [Hl Hl'].
  { unfold Spec.framing_ok, Spec.AEAD_IV_LEN, Spec.AEAD_TAG_LEN in Hf. destruct is_final; lia. }
  pose proof Hd as Hpl%gcm_decrypt_length; [|rewrite zlen_slice; lia]. rewrite zlen_slice in Hpl.
  apply gcm_encrypt_decrypt in Hd; [|rewrite zlen_slice; lia].
  assert (zlen (ztake 4 segment) = 4) as H4 by (rewrite zlen_ztake; lia).
  assert (segment_fits params is_final (zlen plaintext)
          /\ segment_prefix is_final (zlen plaintext) = ztake 4 segment) as [Hfits Hpre].
  { unfold Spec.framing_ok, Spec.AEAD_IV_LEN, Spec.AEAD_TAG_LEN, Spec.BE2I in Hf.
    unfold segment_prefix, segment_fits. rewrite <- (u32_to_from_be (ztake 4 segment)) by done.
    destruct is_final; (split; [lia|f_equal; unfold u32_max; lia]). }
  split; [done|]. rewrite encryptSegment_eq by done. unfold sealed_segment. rewrite Hd, Hpre. simpl.
  f_equal. rewrite <- (slice_0 segment 4). rewrite !slice_concat by lia. by apply slice_all.
Qed.

End Facts.
