(* ===== verification/State.v ===== *)
(** * Segment encryption and decryption

    [src/state.rs]: the header, the message context with its derived keys, the
    key cache, the nonce generator, and the random-access encryption and
    decryption states. Facts about them are in [StateFacts.v]. *)

From stdpp Require Import strings.
From S2P Require Import Prelude Bytes Error Parameters Provider Crypto Key Buffer.

Definition HEADER_TAG_PURPOSE : bytes := String.list_byte_of_string "HEADER_TAG:"%string.
Definition MESSAGE_KEY_PURPOSE : bytes := String.list_byte_of_string "MESSAGE_KEY:"%string.
Definition SEGMENT_KEY_PURPOSE : bytes := String.list_byte_of_string "DEK:"%string.
Definition NONCE_BATCH_SIZE : Z := 256.
Definition NONCE_BATCH_LENGTH : Z := AEAD_IV_LENGTH * NONCE_BATCH_SIZE.
Definition SEGMENT_AAD_LENGTH : Z := 9.

Definition segment_aad {E} (position : Z) (kind : SegmentKind.t) : outcome E bytes :=
  let aad := zeros SEGMENT_AAD_LENGTH in
  let* aad := copy_to aad 0 8 (u64_to_be_bytes position) in
  copy_to aad 8 9 [byte_of_Z (SegmentKind.indicator kind)].

(** ** The header *)

Module Header.

(** The array type [[u8; HEADER_LENGTH]] is a byte string with the length in [wf]. *)
Record t := mk { header_bytes : bytes }.

#[global] Instance t_eq_dec : EqDecision t.
Proof. solve_decision. Defined.

Definition LEN : Z := HEADER_LENGTH.
Definition FLOE_IV_OFFSET : Z := ENCODED_PARAMETERS_LENGTH.
Definition TAG_OFFSET : Z := FLOE_IV_OFFSET + FLOE_IV_LENGTH.

Definition wf (self : t) : Prop := zlen (header_bytes self) = LEN.

Definition as_bytes (self : t) : bytes := header_bytes self.

Definition encoded_parameters {E} (self : t) : outcome E bytes :=
  let* field := index (header_bytes self) 0 FLOE_IV_OFFSET in
  expect (try_into_array ENCODED_PARAMETERS_LENGTH field).

Definition floe_iv {E} (self : t) : outcome E bytes :=
  let* field := index (header_bytes self) FLOE_IV_OFFSET TAG_OFFSET in
  expect (try_into_array FLOE_IV_LENGTH field).

Definition tag {E} (self : t) : outcome E bytes :=
  let* field := index (header_bytes self) TAG_OFFSET (zlen (header_bytes self)) in
  expect (try_into_array HEADER_TAG_LENGTH field).

Definition unverified_parameters (self : t) : Result Parameters.t :=
  let* encoded := encoded_parameters self in
  Parameters.decode encoded.

Definition from_fields {E} (encoded iv tag : bytes) : outcome E t :=
  let b := zeros HEADER_LENGTH in
  let* b := copy_to b 0 FLOE_IV_OFFSET encoded in
  let* b := copy_to b FLOE_IV_OFFSET TAG_OFFSET iv in
  let* b := copy_to b TAG_OFFSET (zlen b) tag in
  Ok {| header_bytes := b |}.

(** [From<[u8; HEADER_LENGTH]>], its inverse, and [TryFrom<&[u8]>]. *)
Definition from_array (b : bytes) : t := {| header_bytes := b |}.
Definition into_array (self : t) : bytes := header_bytes self.

Definition try_from (b : bytes) : Result t :=
  let* array := ok_or (try_into_array HEADER_LENGTH b) (InvalidHeaderLength (zlen b)) in
  Ok {| header_bytes := array |}.

End Header.

(** [struct SecretBytes<N>]. *)
Module SecretBytes.

Record t := mk { secret : bytes }.

Definition expose_bytes (self : t) : bytes := secret self.

(** The storage after [Drop::drop]. *)
Definition drop `{Support} (self : t) : t := {| secret := zeroize (secret self) |}.

End SecretBytes.

(** ** The message context and its keys *)

Module MessageContext.

Record t := mk {
  provider : Provider.t;
  parameters : Parameters.t;
  message_key : SecretBytes.t;
  floe_iv : bytes;
  aad : bytes
}.

Definition new (provider : Provider.t) (parameters : Parameters.t) (message_key : SecretBytes.t)
    (floe_iv aad : bytes) : t :=
  {| provider := provider; parameters := parameters; message_key := message_key;
     floe_iv := floe_iv; aad := aad |}.

End MessageContext.

Section Keys.
Context {B : Backend}.

Definition derive_header_tag (provider : Provider.t) (key : Key.t) (encoded floe_iv aad : bytes) : Result bytes :=
  kdf_expand provider HEADER_TAG_LENGTH (Key.as_bytes key) [encoded; floe_iv; HEADER_TAG_PURPOSE; aad].

Definition derive_message_key (provider : Provider.t) (key : Key.t) (encoded floe_iv aad : bytes)
    : Result SecretBytes.t :=
  omap_ok SecretBytes.mk
    (kdf_expand provider 48 (Key.as_bytes key) [encoded; floe_iv; MESSAGE_KEY_PURPOSE; aad]).

Definition derive_segment_key (provider : Provider.t) (parameters : Parameters.t)
    (message_key : SecretBytes.t) (floe_iv aad : bytes) (masked_position : Z) : Result AeadKey :=
  let encoded := Parameters.encode parameters in
  let position_bytes := u64_to_be_bytes masked_position in
  let* key_material :=
    kdf_expand provider 32 (SecretBytes.expose_bytes message_key)
      [encoded; floe_iv; SEGMENT_KEY_PURPOSE; position_bytes; aad] in
  AeadKey_new provider key_material.

End Keys.

Module CachedKey.
Section Backend.
Context {B : Backend}.

Record t := mk {
  masked_position : Z;
  key : AeadKey
}.

Definition derive (context : MessageContext.t) (masked_position : Z) : Result t :=
  let* key :=
    derive_segment_key (MessageContext.provider context) (MessageContext.parameters context)
      (MessageContext.message_key context) (MessageContext.floe_iv context)
      (MessageContext.aad context) masked_position in
  Ok {| masked_position := masked_position; key := key |}.

End Backend.
End CachedKey.

Module KeyCache.
Section Backend.
Context {B : Backend}.

Record t := mk { cached_key : option CachedKey.t }.

Definition new (context : MessageContext.t) : Result t :=
  let* cached := CachedKey.derive context 0 in
  Ok {| cached_key := Some cached |}.

Definition empty : t := {| cached_key := None |}.

Definition key_for_position (context : MessageContext.t) (position : Z) : M Error t AeadKey :=
  if AEAD_MAX_SEGMENTS <=? position then fail SegmentLimit
  else
    let masked_position := Parameters.masked_position (MessageContext.parameters context) position in
    let! self := get in
    let stale :=
      match cached_key self with
      | None => true
      | Some cached => negb (CachedKey.masked_position cached =? masked_position)
      end in
    do! (if stale then
           let? cached := CachedKey.derive context masked_position in
           put {| cached_key := Some cached |}
         else ret tt) in
    let! self := get in
    let? cached := expect (cached_key self) in
    ret (CachedKey.key cached).

End Backend.
End KeyCache.

(** ** The nonce generator *)

Module NonceGenerator.
Section Backend.
Context {T : Target} {B : Backend}.

Record t := mk {
  rng : ProviderRng;
  batch : bytes;
  next_index : Z
}.

Definition new (rng : ProviderRng) : t :=
  {| rng := rng; batch := zeros NONCE_BATCH_LENGTH; next_index := NONCE_BATCH_LENGTH |}.

(** The generator and the batch that [fill] borrows. *)
Definition fill_cells : lens t (ProviderRng * bytes) :=
  mkLens (fun self => (rng self, batch self))
    (fun self cells => mk (fst cells) (snd cells) (next_index self)).

Definition set_next (self : t) (n : Z) : t := mk (rng self) (batch self) n.

Definition next : M Error t bytes :=
  let! self := get in
  do! (if next_index self =? NONCE_BATCH_LENGTH then
         do! zoom fill_cells ProviderRng_fill in
         modify (fun self => set_next self 0)
       else ret tt) in
  let! self := get in
  let? stop := usize (next_index self + AEAD_IV_LENGTH) in
  let? source := index (batch self) (next_index self) stop in
  let? nonce := copy_to (zeros AEAD_IV_LENGTH) 0 AEAD_IV_LENGTH source in
  let? advanced := usize (next_index self + AEAD_IV_LENGTH) in
  do! modify (fun self => set_next self advanced) in
  ret nonce.

End Backend.
End NonceGenerator.

(** ** One segment *)

Section Segment.
Context {T : Target} {B : Backend}.

Definition ciphertext_segment_size (context : MessageContext.t) (plaintext_length : Z)
    (kind : SegmentKind.t) : Result Z :=
  let* maximum := Parameters.plaintext_segment_length (MessageContext.parameters context) in
  match kind with
  | SegmentKind.Final =>
      if plaintext_length <=? maximum then
        ok_or (checked_usize (SEGMENT_OVERHEAD + plaintext_length)) LengthOverflow
      else Err (InvalidPlaintextLength plaintext_length (AtMost maximum))
  | SegmentKind.NonFinal =>
      if plaintext_length =? maximum then
        Ok (Parameters.ciphertext_segment_length (MessageContext.parameters context))
      else Err (InvalidPlaintextLength plaintext_length (Exactly maximum))
  end.

(** The cells of a segment encryption: key cache, nonce generator and output. *)
Abbreviation enc_cells := (KeyCache.t * NonceGenerator.t * bytes)%type.

Definition cells_keys : lens enc_cells KeyCache.t :=
  mkLens (fun c => fst (fst c)) (fun c k => (k, snd (fst c), snd c)).
Definition cells_framing : lens enc_cells (NonceGenerator.t * bytes) :=
  mkLens (fun c => (snd (fst c), snd c)) (fun c p => (fst (fst c), fst p, snd p)).

Definition write_segment_framing (kind : SegmentKind.t) (required : Z)
    : M Error (NonceGenerator.t * bytes) bytes :=
  let? prefix :=
    match kind with
    | SegmentKind.NonFinal => Ok u32_max
    | SegmentKind.Final => ok_or (if required <=? u32_max then Some required else None) LengthOverflow
    end in
  let! cells := get in
  let? output := copy_to (snd cells) 0 SEGMENT_PREFIX_LENGTH (u32_to_be_bytes prefix) in
  do! zoom lens_snd (put output) in
  let! nonce := zoom lens_fst NonceGenerator.next in
  let! cells := get in
  let? output := copy_to (snd cells) SEGMENT_PREFIX_LENGTH SEGMENT_PAYLOAD_OFFSET nonce in
  do! zoom lens_snd (put output) in
  ret nonce.

Definition begin_segment_encryption (context : MessageContext.t) (plaintext_length position : Z)
    (kind : SegmentKind.t) : M Error enc_cells (Z * bytes * AeadKey * bytes) :=
  let? required := ciphertext_segment_size context plaintext_length kind in
  let! cells := get in
  if zlen (snd cells) <? required then fail (OutputTooSmall (zlen (snd cells)) required)
  else
    let! nonce := zoom cells_framing (write_segment_framing kind required) in
    let! key := zoom cells_keys (KeyCache.key_for_position context position) in
    let? aad := segment_aad position kind in
    ret (required, nonce, key, aad).

Definition encrypt_segment_into_inner (context : MessageContext.t) (plaintext : bytes) (position : Z)
    (kind : SegmentKind.t) : M Error enc_cells Z :=
  let! begun := begin_segment_encryption context (zlen plaintext) position kind in
  let '(required, nonce, key, segment_aad) := begun in
  do! zoom lens_snd
        (zoom_range SEGMENT_PAYLOAD_OFFSET required
           (AeadKey_seal_into key nonce segment_aad plaintext)) in
  ret required.

(** [key.seal(nonce, aad, &mut buffer[a..b], &mut tag)] with a local [tag]. *)
Definition seal_range (key : AeadKey) (nonce aad : bytes) (a b : Z) : M Error bytes bytes :=
  fun buffer =>
    if range_ok buffer a b then
      let (r, cells) := AeadKey_seal key nonce aad (slice buffer a b, zeros AEAD_TAG_LENGTH) in
      (omap_ok (fun _ => snd cells) r, splice buffer a (fst cells))
    else (panic, buffer).

Definition encrypt_segment_in_place_inner (context : MessageContext.t) (plaintext_length position : Z)
    (kind : SegmentKind.t) : M Error enc_cells Z :=
  let! begun := begin_segment_encryption context plaintext_length position kind in
  let '(required, nonce, key, segment_aad) := begun in
  let? tag_start := usize (SEGMENT_PAYLOAD_OFFSET + plaintext_length) in
  let! tag := zoom lens_snd (seal_range key nonce segment_aad SEGMENT_PAYLOAD_OFFSET tag_start) in
  let! cells := get in
  let? buffer := copy_to (snd cells) tag_start required tag in
  do! zoom lens_snd (put buffer) in
  ret required.

Definition validate_segment (context : MessageContext.t) (ciphertext_segment : bytes)
    (kind : SegmentKind.t) : Result Z :=
  let maximum := Parameters.ciphertext_segment_length (MessageContext.parameters context) in
  let* _ :=
    match kind with
    | SegmentKind.Final =>
        Parameters.validate_ciphertext_segment_length (MessageContext.parameters context)
          (zlen ciphertext_segment)
    | SegmentKind.NonFinal =>
        if negb (zlen ciphertext_segment =? maximum) then
          Err (InvalidCiphertextLength (zlen ciphertext_segment) (Exactly maximum))
        else Ok tt
    end in
  let* field := index ciphertext_segment 0 SEGMENT_PREFIX_LENGTH in
  let* array := ok_or (try_into_array 4 field) InvalidSegmentPrefix in
  let prefix := from_be_bytes array in
  let* _ :=
    match kind with
    | SegmentKind.Final =>
        if negb (prefix =? length_usize_to_u64 (zlen ciphertext_segment)) then
          Err (InvalidCiphertextLength (zlen ciphertext_segment) (Exactly (length_u32_to_usize prefix)))
        else Ok tt
    | SegmentKind.NonFinal => if negb (prefix =? u32_max) then Err InvalidSegmentPrefix else Ok tt
    end in
  usize (zlen ciphertext_segment - SEGMENT_OVERHEAD).

Definition validate_framed_length (actual : Z) (framing : SegmentFraming.t) : Result Z :=
  let expected := SegmentFraming.ciphertext_length framing in
  if negb (actual =? expected) then Err (InvalidCiphertextLength actual (Exactly expected))
  else Ok (SegmentFraming.plaintext_length framing).

Definition decrypt_segment_into_inner (context : MessageContext.t) (ciphertext_segment : bytes)
    (position : Z) (kind : SegmentKind.t) (plaintext_length : Z) : M Error (KeyCache.t * bytes) Z :=
  let! cells := get in
  if zlen (snd cells) <? plaintext_length then fail (OutputTooSmall (zlen (snd cells)) plaintext_length)
  else
    let! key := zoom lens_fst (KeyCache.key_for_position context position) in
    let? tag_start := usize (zlen ciphertext_segment - AEAD_TAG_LENGTH) in
    let? segment_aad := segment_aad position kind in
    let? field := index ciphertext_segment SEGMENT_PREFIX_LENGTH SEGMENT_PAYLOAD_OFFSET in
    let? nonce := ok_or (try_into_array AEAD_IV_LENGTH field) CryptoFailure in
    let? field := index ciphertext_segment tag_start (zlen ciphertext_segment) in
    let? tag := ok_or (try_into_array AEAD_TAG_LENGTH field) CryptoFailure in
    let? ciphertext := index ciphertext_segment SEGMENT_PAYLOAD_OFFSET tag_start in
    do! zoom lens_snd
          (zoom_range 0 plaintext_length (AeadKey_open key nonce segment_aad ciphertext tag)) in
    ret plaintext_length.

(** Opens the segment in the cell; the bounds returned are those of the
    plaintext slice. The split borrows of the source are its three ranges. *)
Definition open_segment_in_place (context : MessageContext.t) (position : Z) (kind : SegmentKind.t)
    (plaintext_length : Z) : M Error (KeyCache.t * bytes) (Z * Z) :=
  let! key := zoom lens_fst (KeyCache.key_for_position context position) in
  let! cells := get in
  let segment := snd cells in
  let? framing := index segment 0 SEGMENT_PAYLOAD_OFFSET in
  let? field := index framing SEGMENT_PREFIX_LENGTH (zlen framing) in
  let? nonce := ok_or (try_into_array AEAD_IV_LENGTH field) CryptoFailure in
  let? ciphertext_and_tag := index segment SEGMENT_PAYLOAD_OFFSET (zlen segment) in
  let? tag_bytes := index ciphertext_and_tag plaintext_length (zlen ciphertext_and_tag) in
  let? tag := ok_or (try_into_array AEAD_TAG_LENGTH tag_bytes) CryptoFailure in
  let? segment_aad := segment_aad position kind in
  let stop := SEGMENT_PAYLOAD_OFFSET + plaintext_length in
  do! zoom lens_snd
        (zoom_range SEGMENT_PAYLOAD_OFFSET stop (AeadKey_open_in_place key nonce segment_aad tag)) in
  ret (SEGMENT_PAYLOAD_OFFSET, stop).

Definition decrypt_segment_in_place_inner (context : MessageContext.t) (position : Z)
    (kind : SegmentKind.t) : M Error (KeyCache.t * bytes) (Z * Z) :=
  let! cells := get in
  let? plaintext_length := validate_segment context (snd cells) kind in
  open_segment_in_place context position kind plaintext_length.

Definition validate_layout (context : MessageContext.t) (segment : SegmentLayout.t) : Result unit :=
  if bool_decide (SegmentLayout.parameters segment = MessageContext.parameters context) then Ok tt
  else Err InvalidParameters.

End Segment.

(** ** The encryption state *)

Module EncryptionState.
Section Backend.
Context {T : Target} {B : Backend}.

Record t := mk {
  context : MessageContext.t;
  keys : KeyCache.t;
  nonces : NonceGenerator.t
}.

Definition provider (self : t) : Provider.t := MessageContext.provider (context self).
Definition parameters (self : t) : Parameters.t := MessageContext.parameters (context self).

(** The mutable fields, together with the output a call borrows. *)
Definition cells : lens (t * bytes) (KeyCache.t * NonceGenerator.t * bytes) :=
  mkLens (fun s => (keys (fst s), nonces (fst s), snd s))
    (fun s c => (mk (context (fst s)) (fst (fst c)) (snd (fst c)), snd c)).

Definition encrypt_segment_into_at (plaintext : bytes) (position : Z) (kind : SegmentKind.t)
    : M Error (t * bytes) Z :=
  let! self := get in
  zoom cells (encrypt_segment_into_inner (context (fst self)) plaintext position kind).

Definition encrypt_segment_in_place_raw_at (plaintext_length position : Z) (kind : SegmentKind.t)
    : M Error (t * bytes) Z :=
  let! self := get in
  zoom cells (encrypt_segment_in_place_inner (context (fst self)) plaintext_length position kind).

Definition encrypt_segment_at (plaintext : bytes) (position : Z) (kind : SegmentKind.t)
    : M Error t bytes :=
  let! self := get in
  let? required := ciphertext_segment_size (context self) (zlen plaintext) kind in
  let? output := vec_zeroed required in
  let! done := with_local output (encrypt_segment_into_at plaintext position kind) in
  ret (snd done).

Definition validate_plaintext_layout (self : t) (actual : Z) (segment : SegmentLayout.t) : Result unit :=
  let* _ := validate_layout (context self) segment in
  let expected := SegmentLayout.plaintext_length segment in
  if actual =? expected then Ok tt else Err (InvalidPlaintextLength actual (Exactly expected)).

Definition encrypt_segment (plaintext : bytes) (segment : SegmentLayout.t) : M Error t bytes :=
  let! self := get in
  do? validate_plaintext_layout self (zlen plaintext) segment in
  encrypt_segment_at plaintext (SegmentLayout.position segment) (SegmentLayout.kind segment).

Definition encrypt_segment_into (plaintext : bytes) (segment : SegmentLayout.t) : M Error (t * bytes) Z :=
  let! self := get in
  do? validate_plaintext_layout (fst self) (zlen plaintext) segment in
  encrypt_segment_into_at plaintext (SegmentLayout.position segment) (SegmentLayout.kind segment).

Definition encrypt_segment_in_place_raw (segment : SegmentLayout.t) : M Error (t * bytes) Z :=
  let! self := get in
  do? validate_layout (context (fst self)) segment in
  let plaintext_length := SegmentLayout.plaintext_length segment in
  encrypt_segment_in_place_raw_at plaintext_length (SegmentLayout.position segment)
    (SegmentLayout.kind segment).

Context {S : Support}.

(** The state and the storage of a segment buffer. *)
Definition with_raw : lens (t * SegmentBuffer.t) (t * bytes) :=
  mkLens (fun s => (fst s, SegmentBuffer.storage (snd s)))
    (fun s c => (fst c, SegmentBuffer.set_storage (snd s) (snd c))).

Definition encrypt_segment_in_place_at (position : Z) (kind : SegmentKind.t)
    : M Error (t * SegmentBuffer.t) bytes :=
  let! s := get in
  if negb (SegmentBuffer.matches (snd s) (parameters (fst s))) then fail InvalidParameters
  else
    let? plaintext_length := SegmentBuffer.plaintext_length (snd s) in
    matchM (zoom with_raw (encrypt_segment_in_place_raw_at plaintext_length position kind))
      (fun written =>
        do! zoom lens_snd (SegmentBuffer.mark_ciphertext written) in
        let! s := get in
        lift (SegmentBuffer.ciphertext (snd s)))
      (fun error =>
        do! zoom lens_snd SegmentBuffer.clear in
        fail error).

Definition encrypt_segment_in_place (segment : SegmentLayout.t) : M Error (t * SegmentBuffer.t) bytes :=
  let! s := get in
  let? plaintext_length := SegmentBuffer.plaintext_length (snd s) in
  do? validate_plaintext_layout (fst s) plaintext_length segment in
  encrypt_segment_in_place_at (SegmentLayout.position segment) (SegmentLayout.kind segment).

End Backend.
End EncryptionState.

Module SharedEncryptionContext.
Section Backend.
Context {T : Target} {B : Backend}.

Record t := mk { context : MessageContext.t }.

Definition provider (self : t) : Provider.t := MessageContext.provider (context self).
Definition parameters (self : t) : Parameters.t := MessageContext.parameters (context self).

(** [EncryptionState::into_shared]. *)
Definition into_shared (self : EncryptionState.t) : t := {| context := EncryptionState.context self |}.

Definition fork (entropy : Entropy) (self : t) : EncryptionState.t := {|
  EncryptionState.context := context self;
  EncryptionState.keys := KeyCache.empty;
  EncryptionState.nonces := NonceGenerator.new (ProviderRng_new (provider self) entropy)
|}.

End Backend.
End SharedEncryptionContext.

(** ** The decryption state *)

Module DecryptionState.
Section Backend.
Context {T : Target} {B : Backend}.

Record t := mk {
  context : MessageContext.t;
  keys : KeyCache.t
}.

Definition provider (self : t) : Provider.t := MessageContext.provider (context self).
Definition parameters (self : t) : Parameters.t := MessageContext.parameters (context self).

(** The key cache, together with the bytes a call borrows. *)
Definition cells : lens (t * bytes) (KeyCache.t * bytes) :=
  mkLens (fun s => (keys (fst s), snd s)) (fun s c => (mk (context (fst s)) (fst c), snd c)).

(** The length of a returned slice, given by its bounds. *)
Definition borrowed_length (bounds : Z * Z) : Z := snd bounds - fst bounds.

(** [context], [keys] and [Zeroizing::new(vec![0; plaintext_length])]: the
    vector is moved out on success and wiped when it is dropped on failure. *)
Definition decrypt_segment_allocating (ciphertext_segment : bytes) (position : Z) (kind : SegmentKind.t)
    (plaintext_length : Z) : M Error t bytes :=
  let! self := get in
  let? output := vec_zeroed plaintext_length in
  let! done :=
    with_local output
      (zoom cells
        (decrypt_segment_into_inner (context self) ciphertext_segment position kind plaintext_length)) in
  ret (snd done).

Definition decrypt_segment_at (ciphertext_segment : bytes) (position : Z) (kind : SegmentKind.t)
    : M Error t bytes :=
  let! self := get in
  let? plaintext_length := validate_segment (context self) ciphertext_segment kind in
  decrypt_segment_allocating ciphertext_segment position kind plaintext_length.

Definition decrypt_segment_at_framed (ciphertext_segment : bytes) (position : Z)
    (framing : SegmentFraming.t) : M Error t bytes :=
  let? plaintext_length := validate_framed_length (zlen ciphertext_segment) framing in
  decrypt_segment_allocating ciphertext_segment position (SegmentFraming.kind framing) plaintext_length.

Definition decrypt_segment_into_at (ciphertext_segment : bytes) (position : Z) (kind : SegmentKind.t)
    : M Error (t * bytes) Z :=
  let! self := get in
  let? plaintext_length := validate_segment (context (fst self)) ciphertext_segment kind in
  zoom cells
    (decrypt_segment_into_inner (context (fst self)) ciphertext_segment position kind plaintext_length).

Definition decrypt_segment_into_at_framed (ciphertext_segment : bytes) (position : Z)
    (framing : SegmentFraming.t) : M Error (t * bytes) Z :=
  let! self := get in
  let? plaintext_length := validate_framed_length (zlen ciphertext_segment) framing in
  zoom cells
    (decrypt_segment_into_inner (context (fst self)) ciphertext_segment position
       (SegmentFraming.kind framing) plaintext_length).

Definition decrypt_segment_in_place_raw_at (position : Z) (kind : SegmentKind.t)
    : M Error (t * bytes) (Z * Z) :=
  let! self := get in
  zoom cells (decrypt_segment_in_place_inner (context (fst self)) position kind).

Definition validate_ciphertext_layout (self : t) (actual : Z) (segment : SegmentLayout.t) : Result unit :=
  let* _ := validate_layout (context self) segment in
  let expected := SegmentLayout.ciphertext_length segment in
  if actual =? expected then Ok tt else Err (InvalidCiphertextLength actual (Exactly expected)).

Definition decrypt_segment (ciphertext_segment : bytes) (segment : SegmentLayout.t) : M Error t bytes :=
  let! self := get in
  do? validate_ciphertext_layout self (zlen ciphertext_segment) segment in
  decrypt_segment_at ciphertext_segment (SegmentLayout.position segment) (SegmentLayout.kind segment).

Definition decrypt_segment_into (ciphertext_segment : bytes) (segment : SegmentLayout.t)
    : M Error (t * bytes) Z :=
  let! self := get in
  do? validate_ciphertext_layout (fst self) (zlen ciphertext_segment) segment in
  decrypt_segment_into_at ciphertext_segment (SegmentLayout.position segment) (SegmentLayout.kind segment).

Definition decrypt_segment_in_place_raw (segment : SegmentLayout.t) : M Error (t * bytes) (Z * Z) :=
  let! s := get in
  do? validate_layout (context (fst s)) segment in
  let required := SegmentLayout.ciphertext_length segment in
  if zlen (snd s) <? required then
    fail (InvalidCiphertextLength (zlen (snd s)) (AtLeast required))
  else
    zoom_range_snd 0 required
      (decrypt_segment_in_place_raw_at (SegmentLayout.position segment) (SegmentLayout.kind segment)).

(** The state and the storage of a segment buffer. *)
Definition with_raw : lens (t * SegmentBuffer.t) (t * bytes) :=
  mkLens (fun s => (fst s, SegmentBuffer.storage (snd s)))
    (fun s c => (fst c, SegmentBuffer.set_storage (snd s) (snd c))).

(** The closure that [decrypt_segment_in_place] passes to [decrypt_with]. *)
Definition decrypt_segment_in_place_operation (segment : SegmentLayout.t)
    : M Error (t * SegmentBuffer.t) Z :=
  let! s := get in
  let? ciphertext_length := SegmentBuffer.ciphertext_length (snd s) in
  do? validate_ciphertext_layout (fst s) ciphertext_length segment in
  if negb (SegmentBuffer.matches (snd s) (parameters (fst s))) then fail InvalidParameters
  else
    let! plaintext :=
      zoom with_raw
        (zoom_range_snd 0 ciphertext_length
          (decrypt_segment_in_place_raw_at (SegmentLayout.position segment)
             (SegmentLayout.kind segment))) in
    ret (borrowed_length plaintext).

Definition decrypt_segment_in_place_at_framed (position : Z) (framing : SegmentFraming.t)
    : M Error (t * SegmentBuffer.t) Z :=
  let! s := get in
  if negb (SegmentBuffer.matches (snd s) (parameters (fst s))) then fail InvalidParameters
  else
    let? ciphertext_length := SegmentBuffer.ciphertext_length (snd s) in
    let? plaintext_length := validate_framed_length ciphertext_length framing in
    let! plaintext :=
      zoom with_raw
        (zoom_range_snd 0 ciphertext_length
          (zoom cells
            (open_segment_in_place (context (fst s)) position (SegmentFraming.kind framing)
               plaintext_length))) in
    ret (borrowed_length plaintext).

Context {S : Support}.

Definition decrypt_segment_in_place (segment : SegmentLayout.t) : M Error (t * SegmentBuffer.t) (Z * Z) :=
  SegmentBuffer.decrypt_with (decrypt_segment_in_place_operation segment).

End Backend.
End DecryptionState.

Module SharedDecryptionContext.
Section Backend.
Context {B : Backend}.

Record t := mk { context : MessageContext.t }.

Definition provider (self : t) : Provider.t := MessageContext.provider (context self).
Definition parameters (self : t) : Parameters.t := MessageContext.parameters (context self).

(** [DecryptionState::into_shared]. *)
Definition into_shared (self : DecryptionState.t) : t := {| context := DecryptionState.context self |}.

Definition fork (self : t) : DecryptionState.t :=
  {| DecryptionState.context := context self; DecryptionState.keys := KeyCache.empty |}.

End Backend.
End SharedDecryptionContext.

(** ** Starting a message *)

Section Start.
Context {F : Features} {B : Backend}.

Definition start_encryption (entropy : Entropy) (key : Key.t) (aad : bytes) (parameters : Parameters.t)
    : Result (EncryptionState.t * Header.t) :=
  let* provider := Key.provider key in
  let (filled, cells) := ProviderRng_fill (ProviderRng_new provider entropy, zeros FLOE_IV_LENGTH) in
  let* _ := filled in
  let (rng, floe_iv) := cells in
  let encoded := Parameters.encode parameters in
  let* header_tag := derive_header_tag provider key encoded floe_iv aad in
  let* message_key := derive_message_key provider key encoded floe_iv aad in
  let* header := Header.from_fields encoded floe_iv header_tag in
  let context := MessageContext.new provider parameters message_key floe_iv aad in
  let* keys := KeyCache.new context in
  let nonces := NonceGenerator.new rng in
  Ok ({| EncryptionState.context := context; EncryptionState.keys := keys;
         EncryptionState.nonces := nonces |}, header).

Context {S : Support}.

Definition start_decryption_with_provider (key : Key.t) (provider : Provider.t) (aad : bytes)
    (parameters : Parameters.t) (header : Header.t) : Result DecryptionState.t :=
  let encoded := Parameters.encode parameters in
  let* header_parameters := Header.encoded_parameters header in
  if negb (bool_decide (header_parameters = encoded)) then Err InvalidHeaderParameters
  else
    let* floe_iv := Header.floe_iv header in
    let* expected_tag := derive_header_tag provider key encoded floe_iv aad in
    let* tag := Header.tag header in
    let tag_matches := ct_eq expected_tag tag in
    if negb tag_matches then Err InvalidHeaderTag
    else
      let* message_key := derive_message_key provider key encoded floe_iv aad in
      let context := MessageContext.new provider parameters message_key floe_iv aad in
      let* keys := KeyCache.new context in
      Ok {| DecryptionState.context := context; DecryptionState.keys := keys |}.

Definition start_decryption (key : Key.t) (aad : bytes) (parameters : Parameters.t) (header : Header.t)
    : Result DecryptionState.t :=
  let* provider := Key.provider key in
  start_decryption_with_provider key provider aad parameters header.

Definition start_decryption_inferred (key : Key.t) (aad : bytes) (header : Header.t)
    : Result DecryptionState.t :=
  let* provider := Key.provider key in
  let* parameters := Header.unverified_parameters header in
  start_decryption_with_provider key provider aad parameters header.

End Start.
