(* ===== verification/StateFacts.v ===== *)
(** * Facts about segment encryption and decryption

    The definitions of [State.v] against the specification of [Spec.v]: the
    context's keys, the key cache, the nonce generator, one segment in each
    direction, and the start of a message. *)

From S2P Require Import Prelude Bytes Error Parameters Provider Crypto Key Buffer Spec State.
Import ParametersFacts LayoutFacts BufferFacts.

(** ** Masked positions *)

Lemma masked_position_spec p n :
  in_u64 n -> Parameters.masked_position p n = Spec.MASK n 20.
Proof.
  intros [Hn Hn']. unfold Parameters.masked_position, Spec.MASK. apply Z.bits_inj'. intros i Hi.
  rewrite Z.land_spec, Z.ldiff_spec. unfold ROTATION_MASK, ROTATION_BITS. rewrite Z.lxor_spec.
  change u64_max with (Z.ones 64). change (Z.shiftl 1 20 - 1) with (Z.ones 20).
  destruct (Z.lt_ge_cases i 64).
  - by rewrite (Z.ones_spec_low 64) by lia.
  - assert (Z.testbit n i = false) as ->; [|done].
    rewrite <- (Z.mod_small n (2 ^ 64)) by (unfold u64_max in Hn'; lia). by apply Z.mod_pow2_bits_high.
Qed.

(** ** The message context *)

Section Context.
Context {P : Primitives} {POk : PrimitivesOk} {B : Backend} {BOk : BackendOk}.

(** The specification's state of a message, and its [ENC_SEG_LEN]. *)
Definition spec_state (c : MessageContext.t) : Spec.State :=
  Spec.mkState (SecretBytes.expose_bytes (MessageContext.message_key c))
    (MessageContext.floe_iv c) (MessageContext.aad c).

Definition enc_seg_len (c : MessageContext.t) : Z :=
  Parameters.segment_length (MessageContext.parameters c).

Definition context_wf (c : MessageContext.t) : Prop := Parameters.valid (MessageContext.parameters c).

(** The backend can fail: the case in which [CryptoFailure] and [RngFailure]
    are possible results. *)
Definition backend_fails : Prop := ~ BackendTotal.

Lemma encode_PARAM_ENCODE p : Parameters.encode p = Spec.PARAM_ENCODE (Parameters.segment_length p).
Proof. done. Qed.

Lemma kdf_expand_cases p n k info :
  0 <= n <= 48 ->
  kdf_expand p n k info = Ok (kdf k (concat info) n)
  \/ kdf_expand p n k info = Err CryptoFailure /\ backend_fails.
Proof.
  intros Hn. destruct (kdf_promise p n k info Hn) as [H|H]; [by left|].
  right. split; [done|]. intros BT. by apply (kdf_total p n k info).
Qed.

Lemma AeadKey_new_cases p k :
  zlen k = 32 ->
  (exists key, AeadKey_new p k = Ok key /\ key_material key = k)
  \/ AeadKey_new p k = Err CryptoFailure /\ backend_fails.
Proof.
  intros Hk. destruct (aead_new_promise p k Hk) as [[key H]|H].
  - left. exists key. split; [done|]. by eapply aead_new_material.
  - right. split; [done|]. intros BT. destruct (aead_new_total p k Hk). congruence.
Qed.

(** A cached key is the specification's key of its masked position. *)
Definition cached_ok (c : MessageContext.t) (k : CachedKey.t) : Prop :=
  key_material (CachedKey.key k)
    = Spec.FLOE_KDF (enc_seg_len c) (Spec.MessageKey (spec_state c)) (Spec.iv (spec_state c))
        (Spec.aad (spec_state c)) (Spec.DEK ++ Spec.I2BE (CachedKey.masked_position k) 8)
        Spec.AEAD_KEY_LEN.

Lemma derive_cases c m :
  (exists k, CachedKey.derive c m = Ok k /\ CachedKey.masked_position k = m /\ cached_ok c k)
  \/ CachedKey.derive c m = Err CryptoFailure /\ backend_fails.
Proof.
  unfold CachedKey.derive, derive_segment_key.
  destruct (kdf_expand_cases (MessageContext.provider c) 32
              (SecretBytes.expose_bytes (MessageContext.message_key c))
              [Parameters.encode (MessageContext.parameters c); MessageContext.floe_iv c;
               SEGMENT_KEY_PURPOSE; u64_to_be_bytes m; MessageContext.aad c])
    as [-> | [-> ?]]; [lia| |by right].
  cbn [obind]. set (material := kdf _ _ 32).
  destruct (AeadKey_new_cases (MessageContext.provider c) material) as [(key & -> & Hk) | [-> ?]];
    [apply zlen_kdf; lia| |by right].
  left. eexists. split_and!; [done..|]. unfold cached_ok. simpl. rewrite Hk.
  unfold material, Spec.FLOE_KDF. f_equal. cbn [concat]. by rewrite app_nil_r, encode_PARAM_ENCODE.
Qed.

(** ** The key cache *)

Definition cache_wf (c : MessageContext.t) (cache : KeyCache.t) : Prop :=
  match KeyCache.cached_key cache with None => True | Some k => cached_ok c k end.

Lemma cache_wf_empty c : cache_wf c KeyCache.empty.
Proof. done. Qed.

Lemma KeyCache_new_cases c :
  (exists cache, KeyCache.new c = Ok cache /\ cache_wf c cache)
  \/ KeyCache.new c = Err CryptoFailure /\ backend_fails.
Proof.
  unfold KeyCache.new. destruct (derive_cases c 0) as [(k & -> & _ & Hk) | [-> ?]]; [left|by right].
  by eexists.
Qed.

Definition position_error (position : Z) (e : Error) : Prop :=
  match e with
  | SegmentLimit => AEAD_MAX_SEGMENTS <= position
  | CryptoFailure => position < AEAD_MAX_SEGMENTS /\ backend_fails
  | _ => False
  end.

(** Whatever the cache holds, the key is the one of the position. *)
Lemma key_for_position_ok c position cache :
  in_u64 position -> cache_wf c cache ->
  wp (KeyCache.key_for_position c position) cache (fun r cache' =>
    cache_wf c cache' /\
    match r with
    | Ok key => position < AEAD_MAX_SEGMENTS
        /\ key_material key = segment_key (enc_seg_len c) (spec_state c) position
    | Err e => position_error position e /\ cache' = cache
    | Halt _ => False
    end).
Proof.
  intros Hpos Hwf. unfold KeyCache.key_for_position.
  destruct (Z.leb_spec AEAD_MAX_SEGMENTS position); [by apply wp_fail|].
  rewrite masked_position_spec by done.
  assert (Hmaterial : forall k, cached_ok c k -> CachedKey.masked_position k = Spec.MASK position 20 ->
            key_material (CachedKey.key k) = segment_key (enc_seg_len c) (spec_state c) position).
  { unfold cached_ok. intros k -> ->. done. }
  unfold wp, bindM, get, put, lift, ret. unfold cache_wf in Hwf.
  set (stale := match KeyCache.cached_key cache with None => true | Some _ => _ end).
  destruct stale eqn:Hstale.
  - destruct (derive_cases c (Spec.MASK position 20)) as [(k & -> & Hm & Hk) | [-> ?]]; simpl.
    + split_and!; [done|done|]. by apply Hmaterial.
    + by split_and!.
  - unfold stale in Hstale. destruct (KeyCache.cached_key cache) as [k|] eqn:Hc; [|done]. simpl.
    apply negb_false_iff, Z.eqb_eq in Hstale.
    split_and!; [unfold cache_wf; by rewrite Hc|done|]. by apply Hmaterial.
Qed.

End Context.

(** ** The nonce generator *)

Section Nonces.
Context {T : Target} {P : Primitives} {B : Backend} {BOk : BackendOk}.

Definition nonces_wf (g : NonceGenerator.t) : Prop :=
  zlen (NonceGenerator.batch g) = 3072 /\ 0 <= NonceGenerator.next_index g <= 3072
  /\ NonceGenerator.next_index g mod 12 = 0.

Lemma nonces_wf_new rng : nonces_wf (NonceGenerator.new rng).
Proof. done. Qed.

(** One nonce, cut from the current batch. *)
Definition cut (g : NonceGenerator.t) : outcome Error bytes * NonceGenerator.t :=
  (Ok (slice (NonceGenerator.batch g) (NonceGenerator.next_index g) (NonceGenerator.next_index g + 12)),
   NonceGenerator.set_next g (NonceGenerator.next_index g + 12)).

Lemma next_in_batch g :
  nonces_wf g -> NonceGenerator.next_index g < 3072 -> NonceGenerator.next g = cut g.
Proof.
  intros (Hl & Hn & Hm) Hlt. pose proof u32_le_usize.
  pose proof (Z.div_mod (NonceGenerator.next_index g) 12).
  unfold NonceGenerator.next, bindM, get, lift, modify, ret.
  change NONCE_BATCH_LENGTH with 3072. replace (_ =? 3072) with false by lia.
  rewrite usize_ok by flia. floe_consts. rewrite index_ok by lia.
  rewrite copy_to_ok by (rewrite ?zlen_slice, ?zlen_zeros; lia).
  by rewrite splice_all by (rewrite ?zlen_slice, ?zlen_zeros; lia).
Qed.

(** The generator after a refill. *)
Definition refilled (g : NonceGenerator.t) : outcome Error unit * NonceGenerator.t :=
  let (r, cells) := ProviderRng_fill (NonceGenerator.rng g, NonceGenerator.batch g) in
  (r, NonceGenerator.mk (fst cells) (snd cells)
        (match r with Ok _ => 0 | _ => NonceGenerator.next_index g end)).

Lemma next_at_end g :
  nonces_wf g -> NonceGenerator.next_index g = 3072 ->
  (fst (refilled g) = Ok tt /\ nonces_wf (snd (refilled g)) /\ NonceGenerator.next_index (snd (refilled g)) = 0
    /\ NonceGenerator.next g = cut (snd (refilled g)))
  \/ fst (refilled g) = Err RngFailure /\ backend_fails /\ nonces_wf (snd (refilled g))
    /\ NonceGenerator.next g = (Err RngFailure, snd (refilled g)).
Proof.
  intros (Hl & Hn & Hm) Hend.
  assert (Hnext : NonceGenerator.next g =
                  match fst (refilled g) with
                  | Ok _ => NonceGenerator.next (snd (refilled g))
                  | Err e => (Err e, snd (refilled g))
                  | Halt h => (Halt h, snd (refilled g))
                  end).
  { unfold NonceGenerator.next at 1, refilled, bindM at 1 2 3, get at 1, zoom, modify.
    change NONCE_BATCH_LENGTH with 3072. rewrite Hend. simpl.
    destruct (ProviderRng_fill _) as [[[]|e|h] [rng out]]; simpl; rewrite ?Hend; done. }
  pose proof (fill_promise (NonceGenerator.rng g) (NonceGenerator.batch g)) as Hf.
  pose proof (fun BT : BackendTotal => fill_total (NonceGenerator.rng g, NonceGenerator.batch g)) as Ht.
  unfold wp in Hf. unfold refilled in *.
  destruct (ProviderRng_fill _) as [r [rng out]]; simpl in *. destruct Hf as [[-> | ->] Hlen]; simpl in *.
  - left. assert (nonces_wf (NonceGenerator.mk rng out 0)) by (unfold nonces_wf; simpl; split_and!; done || lia).
    split_and!; try done. rewrite Hnext. by apply next_in_batch.
  - right. unfold nonces_wf. simpl. split_and!; done || lia || by intros ?%Ht.
Qed.

Lemma cut_ok g :
  nonces_wf g -> NonceGenerator.next_index g < 3072 ->
  nonces_wf (snd (cut g)) /\ exists nonce, fst (cut g) = Ok nonce /\ zlen nonce = 12.
Proof.
  intros (Hl & Hn & Hm) Hlt. pose proof (Z.div_mod (NonceGenerator.next_index g) 12).
  split.
  - unfold nonces_wf. simpl. split_and!; [done|lia..|]. by rewrite Z.add_mod, Hm by lia.
  - eexists. split; [done|]. rewrite zlen_slice. lia.
Qed.

Lemma next_ok g :
  nonces_wf g ->
  wp NonceGenerator.next g (fun r g' =>
    nonces_wf g' /\
    match r with
    | Ok nonce => zlen nonce = 12 /\ NonceGenerator.next g = (Ok nonce, g')
    | Err e => e = RngFailure /\ backend_fails
    | Halt _ => False
    end).
Proof.
  intros Hwf. unfold wp. destruct (decide (NonceGenerator.next_index g = 3072)) as [He|He].
  - destruct (next_at_end g Hwf He) as [(_ & Hwf' & H0 & ->) | (_ & Hb & Hwf' & ->)]; [|done].
    destruct (cut_ok (snd (refilled g)) Hwf') as (? & nonce & Hn & ?); [lia|]. simpl in *. by simplify_eq.
  - rewrite next_in_batch by (done || unfold nonces_wf in Hwf; lia).
    destruct (cut_ok g Hwf) as (? & nonce & Hn & ?); [unfold nonces_wf in Hwf; lia|].
    simpl in *. by simplify_eq.
Qed.

End Nonces.

(** ** Encrypting one segment *)

Section Encrypt.
Context {T : Target} {P : Primitives} {POk : PrimitivesOk} {B : Backend} {BOk : BackendOk}.
Implicit Types c : MessageContext.t.

(** The specification's result for a plaintext, a nonce and a position. *)
Definition spec_encrypt c (nonce plaintext : bytes) (position : Z) (kind : SegmentKind.t) : option bytes :=
  Spec.encryptSegment (enc_seg_len c) (spec_state c) nonce plaintext position (SegmentKind.is_final kind).

Definition plaintext_fits c (kind : SegmentKind.t) (n : Z) : Prop :=
  segment_fits (enc_seg_len c) (SegmentKind.is_final kind) n.

(** Which errors an encryption of [n] bytes into [room] bytes reports, and when. *)
Definition encrypt_error c (n position : Z) (kind : SegmentKind.t) (room : Z) (e : Error) : Prop :=
  match e with
  | InvalidPlaintextLength actual required =>
      ~ plaintext_fits c kind n /\ actual = n
      /\ required = (if SegmentKind.is_final kind then AtMost else Exactly) (enc_seg_len c - 32)
  | OutputTooSmall actual required =>
      plaintext_fits c kind n /\ room < n + 32 /\ actual = room /\ required = n + 32
  | SegmentLimit => plaintext_fits c kind n /\ n + 32 <= room /\ AEAD_MAX_SEGMENTS <= position
  | RngFailure | CryptoFailure => plaintext_fits c kind n /\ n + 32 <= room /\ backend_fails
  | _ => False
  end.

Lemma ciphertext_segment_size_ok c n kind :
  context_wf c -> 0 <= n ->
  match ciphertext_segment_size c n kind with
  | Ok required => plaintext_fits c kind n /\ required = n + 32 /\ required <= u32_max
  | Err (InvalidPlaintextLength actual required) =>
      ~ plaintext_fits c kind n /\ actual = n
      /\ required = (if SegmentKind.is_final kind then AtMost else Exactly) (enc_seg_len c - 32)
  | _ => False
  end.
Proof.
  intros Hc Hn. destruct (valid_payload _ Hc) as [Hs Hp]. pose proof u32_le_usize.
  unfold ciphertext_segment_size. rewrite plaintext_segment_length_ok by done.
  rewrite ciphertext_segment_length_ok by done. cbn [obind].
  unfold plaintext_fits, segment_fits, enc_seg_len. rewrite Hs.
  replace (payload _ + 32 - 32) with (payload (MessageContext.parameters c)) by lia.
  destruct kind; simpl.
  - destruct (Z.eqb_spec n (payload (MessageContext.parameters c))); split_and!; flia || done.
  - destruct (Z.leb_spec n (payload (MessageContext.parameters c))); [|split_and!; flia || done].
    unfold checked_usize, in_range. floe_consts. replace (_ && _) with true by lia. simpl. lia.
Qed.

Lemma segment_aad_ok {E} position kind :
  segment_aad (E := E) position kind = Ok (segment_aead_aad position (SegmentKind.is_final kind)).
Proof.
  unfold segment_aad. rewrite copy_to_ok by (rewrite ?zlen_zeros, ?zlen_u64_to_be_bytes; done).
  cbn [obind]. rewrite copy_to_ok; [|done| |done].
  2: { rewrite zlen_splice; rewrite ?zlen_u64_to_be_bytes, ?zlen_zeros; done. }
  rewrite splice_splice_next by (rewrite ?zlen_u64_to_be_bytes; done).
  rewrite splice_all by (rewrite zlen_app, zlen_u64_to_be_bytes; done).
  by destruct kind.
Qed.

Lemma write_segment_framing_ok kind n nonces out :
  nonces_wf nonces -> 0 <= n -> n + 32 <= u32_max -> n + 32 <= zlen out ->
  wp (write_segment_framing kind (n + 32)) (nonces, out) (fun r s =>
    nonces_wf (fst s) /\ zlen (snd s) = zlen out /\
    match r with
    | Ok nonce => zlen nonce = 12 /\ NonceGenerator.next nonces = (Ok nonce, fst s)
        /\ snd s = splice out 0 (segment_prefix (SegmentKind.is_final kind) n ++ nonce)
    | Err e => e = RngFailure /\ backend_fails
    | Halt _ => False
    end).
Proof.
  intros Hwf Hn Hmax Hroom. unfold write_segment_framing. apply wp_bind, wp_lift.
  set (prefix := segment_prefix (SegmentKind.is_final kind) n).
  assert (zlen prefix = 4) as Hpre by apply zlen_u32_to_be_bytes.
  replace (match kind with SegmentKind.NonFinal => Ok u32_max | SegmentKind.Final => _ end)
    with (@Ok Error Z (if SegmentKind.is_final kind then 32 + n else u32_max)).
  2: { destruct kind; [done|]. simpl. replace (_ <=? _) with true by lia. simpl. f_equal. lia. }
  change (u32_to_be_bytes (if SegmentKind.is_final kind then 32 + n else u32_max)) with prefix.
  apply wp_bind, wp_get. cbn [snd fst]. apply wp_bind, wp_lift. floe_consts.
  rewrite copy_to_ok by (rewrite ?Hpre; lia). apply wp_bind, wp_zoom, wp_put. cells.
  apply wp_bind, wp_zoom. cells. eapply wp_mono; [by apply next_ok|].
  intros r g' [Hwf' Hr]. destruct r as [nonce|e|h]; [|by rewrite zlen_splice by (rewrite ?Hpre; lia)|done].
  destruct Hr as [Hlen Hnext]. apply wp_bind, wp_get. cbn [fst snd].
  apply wp_bind, wp_lift. rewrite copy_to_ok by (rewrite ?zlen_splice; rewrite ?Hpre; lia).
  apply wp_bind, wp_zoom, wp_put. apply wp_ret. cells.
  rewrite splice_splice_next by (rewrite ?Hpre; lia).
  rewrite zlen_splice by (rewrite ?zlen_app, ?Hpre; lia). done.
Qed.

Lemma begin_segment_encryption_ok c n position kind keys nonces out :
  context_wf c -> cache_wf c keys -> nonces_wf nonces -> in_u64 position -> 0 <= n ->
  wp (begin_segment_encryption c n position kind) (keys, nonces, out) (fun r s =>
    cache_wf c (fst (fst s)) /\ nonces_wf (snd (fst s)) /\ zlen (snd s) = zlen out /\
    match r with
    | Ok (required, nonce, key, aad) =>
        required = n + 32 /\ required <= u32_max /\ required <= zlen out
        /\ plaintext_fits c kind n /\ position < AEAD_MAX_SEGMENTS
        /\ zlen nonce = 12 /\ NonceGenerator.next nonces = (Ok nonce, snd (fst s))
        /\ key_material key = segment_key (enc_seg_len c) (spec_state c) position
        /\ aad = segment_aead_aad position (SegmentKind.is_final kind)
        /\ snd s = splice out 0 (segment_prefix (SegmentKind.is_final kind) n ++ nonce)
    | Err e => encrypt_error c n position kind (zlen out) e
    | Halt _ => False
    end).
Proof.
  intros Hc Hk Hg Hpos Hn. unfold begin_segment_encryption. apply wp_bind, wp_lift.
  pose proof (ciphertext_segment_size_ok c n kind Hc Hn) as Hsize.
  destruct (ciphertext_segment_size c n kind) as [required|e|h]; [|by destruct e|done].
  destruct Hsize as (Hfits & -> & Hmax). apply wp_bind, wp_get. cbn [snd].
  destruct (Z.ltb_spec (zlen out) (n + 32)) as [Hroom|Hroom].
  { apply wp_fail. by split_and!. }
  apply wp_bind, wp_zoom. unfold cells_framing. cells.
  eapply wp_mono; [by apply write_segment_framing_ok|]. intros r [g' out'] (Hg' & Hlen & Hr).
  revert Hg' Hlen Hr. cells. intros Hg' Hlen Hr.
  destruct r as [nonce|e|h]; [|by destruct Hr as [-> ?]|done]. destruct Hr as (Hnonce & Hnext & ->).
  apply wp_bind, wp_zoom. unfold cells_keys. cells. eapply wp_mono; [by apply key_for_position_ok|].
  intros r keys' [Hk' Hr]. destruct r as [key|e|h]; [| |done].
  - destruct Hr as [Hlt Hkey]. apply wp_bind, wp_lift. rewrite segment_aad_ok. apply wp_ret.
    cells. by split_and!.
  - destruct Hr as [Hr ->]. cells. split_and!; try done. destruct e; simpl in *; try done; tauto.
Qed.

(** Sealing, with the condition under which it fails. *)
Lemma seal_into_cases key nonce aad plaintext output :
  zlen nonce = 12 -> zlen output = zlen plaintext + 16 -> zlen output <= u32_max ->
  wp (AeadKey_seal_into key nonce aad plaintext) output (fun r out =>
    zlen out = zlen output /\
    match r with
    | Ok _ => (ztake (zlen plaintext) out, zdrop (zlen plaintext) out)
                = gcm_encrypt (key_material key) nonce aad plaintext
    | Err e => e = CryptoFailure /\ backend_fails
    | Halt _ => False
    end).
Proof.
  intros Hn Ho Hp. pose proof (seal_into_promise key nonce aad plaintext output Hn Ho Hp) as [Hl H].
  pose proof (fun BT : BackendTotal => seal_into_total key nonce aad plaintext output Hn Ho Hp) as Ht.
  split; [done|]. destruct (fst _) as [[]|e|h]; [done| |done]. destruct H as (-> & _).
  split; [done|]. by intros ?%Ht.
Qed.

Lemma seal_cases key nonce aad plaintext tag :
  zlen nonce = 12 -> zlen tag = 16 -> zlen plaintext <= gcm_max_plaintext ->
  wp (AeadKey_seal key nonce aad) (plaintext, tag) (fun r out =>
    zlen (fst out) = zlen plaintext /\ zlen (snd out) = 16 /\
    match r with
    | Ok _ => out = gcm_encrypt (key_material key) nonce aad plaintext
    | Err e => e = CryptoFailure /\ backend_fails
    | Halt _ => False
    end).
Proof.
  intros Hn Ho Hp. pose proof (seal_promise key nonce aad plaintext tag Hn Ho Hp) as H.
  pose proof (fun BT : BackendTotal => seal_total key nonce aad plaintext tag Hn Ho Hp) as Ht.
  unfold wp in *. destruct (AeadKey_seal key nonce aad (plaintext, tag)) as [[[]|e|h] out]; simpl in *; [| |done].
  - subst out. by rewrite gcm_ciphertext_length, gcm_tag_length.
  - destruct H as (-> & ? & ?). split_and!; [done..|]. by intros ?%Ht.
Qed.

Lemma plaintext_fits_gcm c kind n :
  context_wf c -> plaintext_fits c kind n -> n <= gcm_max_plaintext.
Proof.
  intros Hc. destruct (valid_payload _ Hc). unfold plaintext_fits, segment_fits, enc_seg_len, gcm_max_plaintext.
  destruct kind; simpl; lia.
Qed.

(** The outcome of an encryption of [plaintext] into [out]. *)
Definition encrypt_result c (nonces : NonceGenerator.t) (plaintext out : bytes) (position : Z)
    (kind : SegmentKind.t) (r : Result Z) (s : KeyCache.t * NonceGenerator.t * bytes) : Prop :=
  cache_wf c (fst (fst s)) /\ nonces_wf (snd (fst s)) /\ zlen (snd s) = zlen out /\
  match r with
  | Ok written =>
      written = zlen plaintext + 32 /\ written <= zlen out /\ position < AEAD_MAX_SEGMENTS
      /\ plaintext_fits c kind (zlen plaintext)
      /\ exists nonce segment,
           zlen nonce = 12 /\ NonceGenerator.next nonces = (Ok nonce, snd (fst s))
           /\ spec_encrypt c nonce plaintext position kind = Some segment
           /\ zlen segment = written
           /\ snd s = splice out 0 segment
  | Err e => encrypt_error c (zlen plaintext) position kind (zlen out) e
  | Halt _ => False
  end.

Lemma encrypt_segment_into_inner_ok c plaintext position kind keys nonces out :
  context_wf c -> cache_wf c keys -> nonces_wf nonces -> in_u64 position ->
  wp (encrypt_segment_into_inner c plaintext position kind) (keys, nonces, out)
    (encrypt_result c nonces plaintext out position kind).
Proof.
  intros Hc Hk Hg Hpos. unfold encrypt_segment_into_inner. pose proof (zlen_nonneg plaintext).
  apply wp_bind. eapply wp_mono; [by apply begin_segment_encryption_ok|].
  intros r [[keys' g'] out'] (Hk' & Hg' & Hlen & Hr). revert Hk' Hg' Hlen Hr. cells. intros Hk' Hg' Hlen Hr.
  destruct r as [[[[required nonce] key] aad]|e|h]; [|by split_and!|done].
  destruct Hr as (-> & Hmax & Hroom & Hfits & Hlt & Hnonce & Hnext & Hkey & -> & Hout).
  set (header := segment_prefix _ _) in *.
  assert (zlen header = 4) as Hheader by apply zlen_u32_to_be_bytes.
  apply wp_bind, wp_zoom. cells. floe_consts.
  apply wp_zoom_range; [apply range_ok_true; lia|].
  eapply wp_mono; [apply seal_into_cases; [done|..]|].
  { rewrite zlen_slice. lia. }
  { rewrite zlen_slice. unfold u32_max in *. lia. }
  rewrite Hkey. intros r out2 [Hl2 Hr]. rewrite zlen_slice in Hl2.
  destruct r as [u|e|h]; [apply wp_ret| |done]; unfold encrypt_result; cells;
    (split; [done|split; [done|split; [rewrite zlen_splice; lia|]]]).
  - split_and!; [lia|done..|].
    exists nonce, (sealed_segment (segment_key (enc_seg_len c) (spec_state c) position) nonce
      (segment_aead_aad position (SegmentKind.is_final kind)) plaintext header).
    split_and!; [done|done|by apply encryptSegment_eq|by apply zlen_sealed_segment|].
    cells. subst out'. unfold sealed_segment. rewrite <- Hr. cells. rewrite ztake_zdrop.
    rewrite splice_splice_next by (rewrite ?zlen_app; lia). by rewrite <- app_assoc.
  - destruct Hr as [-> ?]. by split_and!.
Qed.

(** In place, the plaintext is what the payload range holds. *)
Lemma encrypt_segment_in_place_inner_ok c plaintext position kind keys nonces buf :
  context_wf c -> cache_wf c keys -> nonces_wf nonces -> in_u64 position ->
  (zlen plaintext + 32 <= zlen buf -> slice buf 16 (16 + zlen plaintext) = plaintext) ->
  wp (encrypt_segment_in_place_inner c (zlen plaintext) position kind) (keys, nonces, buf)
    (encrypt_result c nonces plaintext buf position kind).
Proof.
  intros Hc Hk Hg Hpos Hpl. unfold encrypt_segment_in_place_inner.
  pose proof (zlen_nonneg plaintext). pose proof u32_le_usize.
  apply wp_bind. eapply wp_mono; [by apply begin_segment_encryption_ok|].
  intros r [[keys' g'] out'] (Hk' & Hg' & Hlen & Hr). revert Hk' Hg' Hlen Hr. cells. intros Hk' Hg' Hlen Hr.
  destruct r as [[[[required nonce] key] aad]|e|h]; [|by split_and!|done].
  destruct Hr as (-> & Hmax & Hroom & Hfits & Hlt & Hnonce & Hnext & Hkey & -> & Hout).
  specialize (Hpl Hroom). set (header := segment_prefix _ _) in *.
  assert (zlen header = 4) as Hheader by apply zlen_u32_to_be_bytes.
  apply wp_bind, wp_lift. rewrite usize_ok by flia. floe_consts. apply wp_bind, wp_zoom. cells.
  assert (Hslice : slice out' 16 (16 + zlen plaintext) = plaintext).
  { subst out'. by rewrite slice_splice_after by (rewrite ?zlen_app; lia). }
  unfold seal_range at 1, wp at 1. rewrite range_ok_true by lia. rewrite Hslice.
  pose proof (seal_cases key nonce (segment_aead_aad position (SegmentKind.is_final kind)) plaintext
                (zeros 16) Hnonce eq_refl ltac:(by eapply plaintext_fits_gcm)) as Hs.
  unfold wp in Hs. destruct (AeadKey_seal _ _ _ _) as [r [ct tag]]. revert Hs. cells. intros (Hct & Htag & Hr).
  destruct r as [[]|e|h]; [| |done]; simpl omap_ok; cbv iota.
  2: { unfold encrypt_result. cells. destruct Hr as [-> ?].
       split_and!; [done|done|rewrite zlen_splice; lia|by split_and!]. }
  apply wp_bind, wp_get. cells. apply wp_bind, wp_lift.
  rewrite copy_to_ok; [|lia|rewrite zlen_splice by lia; lia|lia].
  apply wp_bind, wp_zoom, wp_put. apply wp_ret. unfold encrypt_result. cells.
  rewrite splice_splice_next by lia.
  split_and!; [done|done|rewrite zlen_splice; rewrite ?zlen_app; lia|lia..|done|done|].
  exists nonce, (sealed_segment (segment_key (enc_seg_len c) (spec_state c) position) nonce
    (segment_aead_aad position (SegmentKind.is_final kind)) plaintext header).
  split_and!; [done|done|by apply encryptSegment_eq|by apply zlen_sealed_segment|].
  subst out'. unfold sealed_segment. rewrite <- Hkey, <- Hr. cells.
  rewrite splice_splice_next by (rewrite ?zlen_app; lia). by rewrite <- app_assoc.
Qed.

End Encrypt.

(** ** Decrypting one segment *)

Section Decrypt.
Context {T : Target} {P : Primitives} {POk : PrimitivesOk} {B : Backend} {BOk : BackendOk}.
Implicit Types c : MessageContext.t.

Definition spec_decrypt c (segment : bytes) (position : Z) (kind : SegmentKind.t) : option bytes :=
  Spec.decryptSegment (enc_seg_len c) (spec_state c) segment position (SegmentKind.is_final kind).

Definition framing_ok c (segment : bytes) (kind : SegmentKind.t) : bool :=
  Spec.framing_ok (enc_seg_len c) segment (SegmentKind.is_final kind).

(** Which error a segment with bad framing is rejected with. *)
Definition framing_error c (segment : bytes) (kind : SegmentKind.t) (e : Error) : Prop :=
  let length := zlen segment in
  let prefix := from_be_bytes (ztake 4 segment) in
  match kind with
  | SegmentKind.Final =>
      (~ 32 <= length <= enc_seg_len c /\ e = InvalidCiphertextLength length (Between 32 (enc_seg_len c)))
      \/ (32 <= length <= enc_seg_len c /\ prefix <> length
          /\ e = InvalidCiphertextLength length (Exactly prefix))
  | SegmentKind.NonFinal =>
      (length <> enc_seg_len c /\ e = InvalidCiphertextLength length (Exactly (enc_seg_len c)))
      \/ (length = enc_seg_len c /\ prefix <> u32_max /\ e = InvalidSegmentPrefix)
  end.

Lemma validate_segment_ok c segment kind :
  context_wf c ->
  match validate_segment c segment kind with
  | Ok n => framing_ok c segment kind = true /\ n = zlen segment - 32
  | Err e => framing_ok c segment kind = false /\ framing_error c segment kind e
  | Halt _ => False
  end.
Proof.
  intros Hc. destruct (valid_payload _ Hc) as [Hs Hp]. pose proof u32_le_usize. pose proof usize_le_u64.
  unfold validate_segment, framing_ok, framing_error, Spec.framing_ok, Spec.AEAD_IV_LEN, Spec.AEAD_TAG_LEN, Spec.BE2I.
  rewrite ciphertext_segment_length_ok by done. fold (enc_seg_len c).
  assert (Htail : 32 <= zlen segment <= enc_seg_len c ->
    usize (E := Error) (zlen segment - SEGMENT_OVERHEAD) = Ok (zlen segment - 32)).
  { intros. apply usize_ok. unfold enc_seg_len in *. flia. }
  assert (Hhead : 32 <= zlen segment -> index (E := Error) segment 0 SEGMENT_PREFIX_LENGTH = Ok (ztake 4 segment)
             /\ zlen (ztake 4 segment) = 4).
  { intros. floe_consts. rewrite index_ok, slice_0, zlen_ztake by lia. split; [done|lia]. }
  assert (32 <= enc_seg_len c <= u64_max) by (unfold enc_seg_len; flia).
  change 0xFFFFFFFF with u32_max. destruct kind; cbn [SegmentKind.is_final].
  - destruct (Z.eqb_spec (zlen segment) (enc_seg_len c)) as [He|He]; simpl; [|split; [done|by left]].
    destruct Hhead as [-> H4]; [lia|]. cbn [obind]. unfold try_into_array. rewrite H4. change (4 =? 4) with true. cbn [ok_or obind].
    destruct (Z.eqb_spec (from_be_bytes (ztake 4 segment)) u32_max); simpl; [|split; [flia|right; by split_and!]].
    rewrite Htail by lia. split; [flia|done].
  - destruct (decide (32 <= zlen segment <= enc_seg_len c)) as [Hr|Hr].
    + rewrite validate_ciphertext_segment_length_ok by done. cbn [obind]. destruct Hhead as [-> H4]; [lia|].
      cbn [obind]. unfold try_into_array. rewrite H4. change (4 =? 4) with true. cbn [ok_or obind].
      unfold length_usize_to_u64. rewrite Z.mod_small by lia.
      pose proof (from_be_u32 _ H4) as Hu32. unfold length_u32_to_usize.
      destruct (Z.eqb_spec (from_be_bytes (ztake 4 segment)) (zlen segment)); simpl.
      * rewrite Htail by lia. split; [lia|done].
      * unfold in_u32 in Hu32. rewrite Z.mod_small by flia. split; [lia|right; split_and!; done || lia].
    + rewrite validate_ciphertext_segment_length_err by done. simpl. split; [lia|by left].
Qed.

Lemma framing_ok_bounds c segment kind :
  context_wf c -> framing_ok c segment kind = true ->
  32 <= zlen segment <= u32_max /\ zlen segment - 32 <= gcm_max_plaintext.
Proof.
  intros Hc. destruct (valid_payload _ Hc) as [Hs Hp].
  unfold framing_ok, Spec.framing_ok, Spec.AEAD_IV_LEN, Spec.AEAD_TAG_LEN, enc_seg_len, gcm_max_plaintext.
  destruct kind; simpl; flia.
Qed.

(** Why a framed segment of [n] plaintext bytes is not opened into [room] bytes. *)
Definition decrypt_error c (segment : bytes) (position : Z) (kind : SegmentKind.t) (room : Z) (e : Error) : Prop :=
  match e with
  | OutputTooSmall actual required =>
      actual = room /\ required = zlen segment - 32 /\ room < zlen segment - 32
  | SegmentLimit => AEAD_MAX_SEGMENTS <= position
  | AuthenticationFailed => spec_decrypt c segment position kind = None /\ position < AEAD_MAX_SEGMENTS
  | CryptoFailure => backend_fails
  | _ => False
  end.

Lemma spec_decrypt_open c segment position kind :
  context_wf c -> framing_ok c segment kind = true ->
  spec_decrypt c segment position kind
    = gcm_decrypt (segment_key (enc_seg_len c) (spec_state c) position) (slice segment 4 16)
        (segment_aead_aad position (SegmentKind.is_final kind))
        (slice segment 16 (zlen segment - 16)) (slice segment (zlen segment - 16) (zlen segment)).
Proof.
  intros Hc Hf. destruct (valid_payload _ Hc). apply decryptSegment_eq; [unfold enc_seg_len; lia|done].
Qed.

Lemma spec_decrypt_length c segment position kind pt :
  context_wf c -> framing_ok c segment kind = true ->
  spec_decrypt c segment position kind = Some pt -> zlen pt = zlen segment - 32.
Proof.
  intros Hc Hf. destruct (framing_ok_bounds c segment kind Hc Hf). rewrite spec_decrypt_open by done.
  intros Hl%gcm_decrypt_length; rewrite zlen_slice in *; lia.
Qed.

(** Opening into a caller's output. *)
Lemma decrypt_segment_into_inner_ok c segment position kind keys out :
  context_wf c -> cache_wf c keys -> in_u64 position -> framing_ok c segment kind = true ->
  wp (decrypt_segment_into_inner c segment position kind (zlen segment - 32)) (keys, out) (fun r s =>
    cache_wf c (fst s) /\ zlen (snd s) = zlen out /\
    match r with
    | Ok n => n = zlen segment - 32 /\ n <= zlen out /\ position < AEAD_MAX_SEGMENTS
        /\ exists pt, spec_decrypt c segment position kind = Some pt /\ snd s = splice out 0 pt
    | Err e => decrypt_error c segment position kind (zlen out) e
    | Halt _ => False
    end).
Proof.
  intros Hc Hk Hpos Hf. destruct (framing_ok_bounds c segment kind Hc Hf) as [Hb Hg].
  pose proof (spec_decrypt_open c segment position kind Hc Hf) as Hspec. pose proof u32_le_usize.
  pose proof (spec_decrypt_length c segment position kind) as Hptl.
  unfold decrypt_segment_into_inner. apply wp_bind, wp_get. cells.
  destruct (Z.ltb_spec (zlen out) (zlen segment - 32)) as [Ho|Ho]; [by apply wp_fail|].
  apply wp_bind, wp_zoom. cells. eapply wp_mono; [by apply key_for_position_ok|].
  intros r keys' [Hk' Hr]. destruct r as [key|e|h]; [| |done].
  2: { cells. destruct Hr as [Hr ->]. split_and!; [done..|]. destruct e; simpl in *; tauto. }
  destruct Hr as [Hlt Hkey]. apply wp_bind, wp_lift. floe_consts. rewrite usize_ok by lia.
  apply wp_bind, wp_lift. rewrite segment_aad_ok. apply wp_bind, wp_lift. rewrite index_ok by lia.
  apply wp_bind, wp_lift. unfold try_into_array. rewrite zlen_slice.
  replace (_ =? 12) with true by lia. simpl ok_or. apply wp_bind, wp_lift. rewrite index_ok by lia.
  apply wp_bind, wp_lift. rewrite zlen_slice. replace (_ =? 16) with true by lia. simpl ok_or.
  apply wp_bind, wp_lift. rewrite index_ok by lia. apply wp_bind, wp_zoom. cells.
  apply wp_zoom_range; [apply range_ok_true; lia|].
  eapply wp_mono; [apply open_promise; rewrite ?zlen_slice; lia|].
  rewrite Hkey. unfold open_outcome. rewrite <- Hspec. intros r out2 Hr.
  destruct (spec_decrypt c segment position kind) as [pt|] eqn:Hpt; destruct Hr as [-> Hr].
  - subst out2. specialize (Hptl _ Hc Hf eq_refl). apply wp_ret. cells. rewrite zlen_splice by lia. eauto 10.
  - cells. rewrite zlen_slice in Hr. rewrite zlen_splice by lia. by split_and!.
Qed.

(** Opening in place, in storage that holds exactly the segment. *)
Lemma open_segment_in_place_ok c segment position kind keys :
  context_wf c -> cache_wf c keys -> in_u64 position -> framing_ok c segment kind = true ->
  wp (open_segment_in_place c position kind (zlen segment - 32)) (keys, segment) (fun r s =>
    cache_wf c (fst s) /\ zlen (snd s) = zlen segment /\
    match r with
    | Ok bounds => bounds = (16, zlen segment - 16) /\ position < AEAD_MAX_SEGMENTS
        /\ exists pt, spec_decrypt c segment position kind = Some pt /\ snd s = splice segment 16 pt
    | Err e => decrypt_error c segment position kind (zlen segment) e
    | Halt _ => False
    end).
Proof.
  intros Hc Hk Hpos Hf. destruct (framing_ok_bounds c segment kind Hc Hf) as [Hb Hg].
  pose proof (spec_decrypt_open c segment position kind Hc Hf) as Hspec.
  pose proof (spec_decrypt_length c segment position kind) as Hptl.
  unfold open_segment_in_place. apply wp_bind, wp_zoom. cells. eapply wp_mono; [by apply key_for_position_ok|].
  intros r keys' [Hk' Hr]. destruct r as [key|e|h]; [| |done].
  2: { cells. destruct Hr as [Hr ->]. split_and!; [done..|]. destruct e; simpl in *; tauto. }
  destruct Hr as [Hlt Hkey]. apply wp_bind, wp_get. cells. floe_consts.
  apply wp_bind, wp_lift. rewrite index_ok by lia. apply wp_bind, wp_lift.
  rewrite index_ok by (rewrite ?zlen_slice; lia). rewrite slice_slice by (rewrite ?zlen_slice; lia).
  rewrite zlen_slice. apply wp_bind, wp_lift. unfold try_into_array. rewrite zlen_slice.
  replace (_ =? 12) with true by lia. simpl ok_or. apply wp_bind, wp_lift. rewrite index_ok by lia.
  apply wp_bind, wp_lift. rewrite index_ok by (rewrite ?zlen_slice; lia).
  rewrite slice_slice by (rewrite ?zlen_slice; lia). rewrite zlen_slice.
  apply wp_bind, wp_lift. rewrite zlen_slice. replace (_ =? 16) with true by lia. simpl ok_or.
  apply wp_bind, wp_lift. rewrite segment_aad_ok. apply wp_bind, wp_zoom. cells.
  apply wp_zoom_range; [apply range_ok_true; lia|].
  replace (slice segment (0 + 4) _) with (slice segment 4 16) by (f_equal; lia).
  replace (slice segment (16 + (zlen segment - 32)) _) with (slice segment (zlen segment - 16) (zlen segment))
    by (f_equal; lia).
  replace (16 + (zlen segment - 32)) with (zlen segment - 16) by lia.
  eapply wp_mono; [apply open_in_place_promise; rewrite ?zlen_slice; lia|].
  rewrite Hkey. unfold open_outcome. rewrite <- Hspec. intros r out2 Hr.
  destruct (spec_decrypt c segment position kind) as [pt|] eqn:Hpt; destruct Hr as [-> Hr].
  - subst out2. specialize (Hptl _ Hc Hf eq_refl). apply wp_ret. cells. rewrite zlen_splice by lia. eauto 10.
  - cells. rewrite zlen_slice in Hr. rewrite zlen_splice by lia. by split_and!.
Qed.

End Decrypt.

(** ** The states *)

Section States.
Context {T : Target} {P : Primitives} {POk : PrimitivesOk} {B : Backend} {BOk : BackendOk}.

Definition encryption_wf (st : EncryptionState.t) : Prop :=
  context_wf (EncryptionState.context st)
  /\ cache_wf (EncryptionState.context st) (EncryptionState.keys st)
  /\ nonces_wf (EncryptionState.nonces st).

Definition decryption_wf (st : DecryptionState.t) : Prop :=
  context_wf (DecryptionState.context st)
  /\ cache_wf (DecryptionState.context st) (DecryptionState.keys st).

(** The state [st'] after a segment was sealed in [st]: one nonce was used. *)
Definition sealed_in (st st' : EncryptionState.t) (plaintext : bytes) (position : Z)
    (kind : SegmentKind.t) (segment : bytes) : Prop :=
  exists nonce,
    NonceGenerator.next (EncryptionState.nonces st) = (Ok nonce, EncryptionState.nonces st')
    /\ zlen nonce = 12
    /\ spec_encrypt (EncryptionState.context st) nonce plaintext position kind = Some segment
    /\ zlen segment = zlen plaintext + 32.

(** The outcome of an encryption of [plaintext] into [out], on a state. *)
Definition state_encrypt_result (st : EncryptionState.t) (plaintext out : bytes) (position : Z)
    (kind : SegmentKind.t) (r : Result Z) (s : EncryptionState.t * bytes) : Prop :=
  encryption_wf (fst s) /\ EncryptionState.context (fst s) = EncryptionState.context st
  /\ zlen (snd s) = zlen out /\
  match r with
  | Ok written =>
      written = zlen plaintext + 32 /\ written <= zlen out /\ position < AEAD_MAX_SEGMENTS
      /\ plaintext_fits (EncryptionState.context st) kind (zlen plaintext)
      /\ exists segment, sealed_in st (fst s) plaintext position kind segment
           /\ snd s = splice out 0 segment
  | Err e => encrypt_error (EncryptionState.context st) (zlen plaintext) position kind (zlen out) e
  | Halt _ => False
  end.

Lemma state_encrypt_result_intro st plaintext out position kind r s :
  context_wf (EncryptionState.context st) ->
  encrypt_result (EncryptionState.context st) (EncryptionState.nonces st) plaintext out position kind r s ->
  state_encrypt_result st plaintext out position kind r
    (EncryptionState.mk (EncryptionState.context st) (fst (fst s)) (snd (fst s)), snd s).
Proof.
  intros Hc (Hk & Hg & Hl & Hr). unfold state_encrypt_result, encryption_wf, sealed_in. cells.
  cbn [EncryptionState.context EncryptionState.keys EncryptionState.nonces].
  split_and!; try done. destruct r as [w|e|h]; [|done..].
  destruct Hr as (-> & ? & ? & ? & nonce & segment & ? & ? & ? & ? & ?).
  split_and!; try done. exists segment. split; [|done]. by exists nonce.
Qed.

Lemma encrypt_segment_into_at_ok st plaintext position kind out :
  encryption_wf st -> in_u64 position ->
  wp (EncryptionState.encrypt_segment_into_at plaintext position kind) (st, out)
    (state_encrypt_result st plaintext out position kind).
Proof.
  intros (Hc & Hk & Hg) Hpos. unfold EncryptionState.encrypt_segment_into_at.
  apply wp_bind, wp_get. apply wp_zoom. cells.
  eapply wp_mono; [by apply encrypt_segment_into_inner_ok|].
  intros r s Hr. by apply state_encrypt_result_intro.
Qed.

Lemma encrypt_segment_in_place_raw_at_ok st plaintext position kind buf :
  encryption_wf st -> in_u64 position ->
  (zlen plaintext + 32 <= zlen buf -> slice buf 16 (16 + zlen plaintext) = plaintext) ->
  wp (EncryptionState.encrypt_segment_in_place_raw_at (zlen plaintext) position kind) (st, buf)
    (state_encrypt_result st plaintext buf position kind).
Proof.
  intros (Hc & Hk & Hg) Hpos Hpl. unfold EncryptionState.encrypt_segment_in_place_raw_at.
  apply wp_bind, wp_get. apply wp_zoom. cells.
  eapply wp_mono; [by apply encrypt_segment_in_place_inner_ok|].
  intros r s Hr. by apply state_encrypt_result_intro.
Qed.

(** The allocating encryption returns the whole segment. *)
Lemma encrypt_segment_at_ok st plaintext position kind :
  encryption_wf st -> in_u64 position -> zlen plaintext + 32 <= isize_max ->
  wp (EncryptionState.encrypt_segment_at plaintext position kind) st (fun r st' =>
    encryption_wf st' /\ EncryptionState.context st' = EncryptionState.context st /\
    match r with
    | Ok segment => position < AEAD_MAX_SEGMENTS
        /\ plaintext_fits (EncryptionState.context st) kind (zlen plaintext)
        /\ sealed_in st st' plaintext position kind segment
    | Err e => encrypt_error (EncryptionState.context st) (zlen plaintext) position kind (zlen plaintext + 32) e
    | Halt _ => False
    end).
Proof.
  intros Hwf Hpos Hsize. pose proof Hwf as (Hc & _). pose proof (zlen_nonneg plaintext).
  unfold EncryptionState.encrypt_segment_at. apply wp_bind, wp_get, wp_bind, wp_lift.
  pose proof (ciphertext_segment_size_ok (EncryptionState.context st) (zlen plaintext) kind Hc) as Hsz.
  destruct (ciphertext_segment_size _ _ _) as [required|e|h]; [|destruct e; simpl in *; tauto|tauto].
  destruct Hsz as (Hfits & -> & Hmax); [lia|].
  apply wp_bind, wp_lift. rewrite vec_zeroed_ok by lia. apply wp_bind, wp_with_local.
  eapply wp_mono; [by apply encrypt_segment_into_at_ok|].
  intros r [st' out'] (Hwf' & Hctx & Hl & Hr). revert Hwf' Hctx Hl Hr. cells. intros Hwf' Hctx Hl Hr.
  rewrite zlen_zeros in Hr, Hl.
  replace (Z.max 0 (zlen plaintext + 32)) with (zlen plaintext + 32) in Hr, Hl by lia.
  destruct r as [w|e|h]; [|done|done]. apply wp_ret. cells.
  destruct Hr as (-> & _ & ? & ? & segment & Hs & ->). split_and!; try done.
  rewrite splice_all; [done|]. rewrite zlen_zeros. destruct Hs as (? & _ & _ & _ & ->). lia.
Qed.

(** ** Decryption on a state *)

(** Why a segment is not opened into [room] bytes. *)
Definition open_error (c : MessageContext.t) (segment : bytes) (position : Z) (kind : SegmentKind.t)
    (room : Z) (e : Error) : Prop :=
  if framing_ok c segment kind then decrypt_error c segment position kind room e
  else framing_error c segment kind e.

(** A framing that describes the segment, as its decoded prefix does. *)
Definition framed (c : MessageContext.t) (segment : bytes) (f : SegmentFraming.t) : Prop :=
  framing_ok c segment (SegmentFraming.kind f) = true
  /\ SegmentFraming.ciphertext_length f = zlen segment
  /\ SegmentFraming.plaintext_length f = zlen segment - 32.

Lemma decode_framed c segment f :
  context_wf c -> 4 <= zlen segment ->
  SegmentFraming.decode (MessageContext.parameters c) (ztake 4 segment) = Ok f ->
  SegmentFraming.ciphertext_length f = zlen segment -> framed c segment f.
Proof.
  intros Hc H4 Hd Hl. destruct (valid_payload _ Hc) as [Hs Hp].
  apply FramingFacts.framing_decode_inv in Hd as (kind & n & Hfits & Hpre & ->);
    [|done|rewrite zlen_ztake; lia].
  unfold framed, framing_ok, Spec.framing_ok, Spec.AEAD_IV_LEN, Spec.AEAD_TAG_LEN, Spec.BE2I, enc_seg_len.
  rewrite Hpre. simpl in *. destruct kind; simpl in *; split_and!; unfold u32_max; lia.
Qed.

(** What the allocating calls return. *)
Definition state_decrypt_result (st : DecryptionState.t) (segment : bytes) (position : Z)
    (kind : SegmentKind.t) (r : Result bytes) (st' : DecryptionState.t) : Prop :=
  decryption_wf st' /\ DecryptionState.context st' = DecryptionState.context st /\
  match r with
  | Ok pt => spec_decrypt (DecryptionState.context st) segment position kind = Some pt
      /\ position < AEAD_MAX_SEGMENTS
  | Err e => open_error (DecryptionState.context st) segment position kind (zlen segment - 32) e
  | Halt _ => False
  end.

Lemma decrypt_segment_allocating_ok st segment position kind :
  decryption_wf st -> in_u64 position -> slice_ok segment ->
  framing_ok (DecryptionState.context st) segment kind = true ->
  wp (DecryptionState.decrypt_segment_allocating segment position kind (zlen segment - 32)) st
    (state_decrypt_result st segment position kind).
Proof.
  intros [Hc Hk] Hpos Hsize Hf. unfold slice_ok in Hsize.
  destruct (framing_ok_bounds _ segment kind Hc Hf) as [Hb _].
  pose proof (spec_decrypt_length (DecryptionState.context st) segment position kind) as Hptl.
  unfold DecryptionState.decrypt_segment_allocating. apply wp_bind, wp_get, wp_bind, wp_lift.
  rewrite vec_zeroed_ok by lia. apply wp_bind, wp_with_local, wp_zoom. cells.
  eapply wp_mono; [by apply decrypt_segment_into_inner_ok|].
  intros r [keys' out'] (Hk' & Hl & Hr). revert Hk' Hl Hr. cells. rewrite zlen_zeros. intros Hk' Hl Hr.
  replace (Z.max 0 (zlen segment - 32)) with (zlen segment - 32) in Hl, Hr by lia.
  destruct r as [n|e|h]; [| |done].
  - destruct Hr as (-> & _ & ? & pt & Hpt & ->). apply wp_ret. cells.
    rewrite splice_all by (rewrite (Hptl _ Hc Hf Hpt), zlen_zeros; lia). by split_and!.
  - split_and!; [done..|]. unfold open_error. by rewrite Hf.
Qed.

Lemma decrypt_segment_at_ok st segment position kind :
  decryption_wf st -> in_u64 position -> slice_ok segment ->
  wp (DecryptionState.decrypt_segment_at segment position kind) st
    (state_decrypt_result st segment position kind).
Proof.
  intros Hwf Hpos Hsize. unfold DecryptionState.decrypt_segment_at. apply wp_bind, wp_get, wp_bind, wp_lift.
  pose proof (validate_segment_ok (DecryptionState.context st) segment kind (proj1 Hwf)) as Hv.
  destruct (validate_segment _ _ _) as [n|e|h]; [| |done].
  - destruct Hv as [Hf ->]. by apply decrypt_segment_allocating_ok.
  - destruct Hv as [Hf He]. split_and!; [done..|]. unfold open_error. by rewrite Hf.
Qed.

Lemma validate_framed_length_ok c segment f :
  framed c segment f -> validate_framed_length (zlen segment) f = Ok (zlen segment - 32).
Proof.
  intros (_ & Hc & Hp). unfold validate_framed_length. rewrite Hc, Hp, Z.eqb_refl. done.
Qed.

Lemma decrypt_segment_at_framed_ok st segment position f :
  decryption_wf st -> in_u64 position -> slice_ok segment ->
  framed (DecryptionState.context st) segment f ->
  wp (DecryptionState.decrypt_segment_at_framed segment position f) st
    (state_decrypt_result st segment position (SegmentFraming.kind f)).
Proof.
  intros Hwf Hpos Hsize Hf. unfold DecryptionState.decrypt_segment_at_framed. apply wp_bind, wp_lift.
  erewrite validate_framed_length_ok by done. apply decrypt_segment_allocating_ok; [done..|apply Hf].
Qed.

(** What the calls with a caller's output leave in it. *)
Definition state_decrypt_into_result (st : DecryptionState.t) (segment out : bytes) (position : Z)
    (kind : SegmentKind.t) (r : Result Z) (s : DecryptionState.t * bytes) : Prop :=
  decryption_wf (fst s) /\ DecryptionState.context (fst s) = DecryptionState.context st
  /\ zlen (snd s) = zlen out /\
  match r with
  | Ok n => n = zlen segment - 32 /\ n <= zlen out /\ position < AEAD_MAX_SEGMENTS
      /\ framing_ok (DecryptionState.context st) segment kind = true
      /\ exists pt, spec_decrypt (DecryptionState.context st) segment position kind = Some pt
           /\ zlen pt = n /\ snd s = splice out 0 pt
  | Err e => open_error (DecryptionState.context st) segment position kind (zlen out) e
  | Halt _ => False
  end.

Lemma decrypt_cells_ok st segment position kind out :
  decryption_wf st -> in_u64 position -> framing_ok (DecryptionState.context st) segment kind = true ->
  wp (zoom DecryptionState.cells
        (decrypt_segment_into_inner (DecryptionState.context st) segment position kind (zlen segment - 32)))
    (st, out) (state_decrypt_into_result st segment out position kind).
Proof.
  intros [Hc Hk] Hpos Hf. apply wp_zoom. cells.
  eapply wp_mono; [by apply decrypt_segment_into_inner_ok|].
  intros r [keys' out'] (Hk' & Hl & Hr). revert Hk' Hl Hr. cells. intros Hk' Hl Hr.
  unfold state_decrypt_into_result, open_error. rewrite Hf. cells. split_and!; [done..|].
  destruct r as [n|e|h]; [|done..]. destruct Hr as (-> & ? & ? & pt & Hpt & ->).
  split_and!; [done..|]. exists pt. split_and!; [done| |done]. by eapply spec_decrypt_length.
Qed.

Lemma decrypt_segment_into_at_ok st segment position kind out :
  decryption_wf st -> in_u64 position ->
  wp (DecryptionState.decrypt_segment_into_at segment position kind) (st, out)
    (state_decrypt_into_result st segment out position kind).
Proof.
  intros Hwf Hpos. unfold DecryptionState.decrypt_segment_into_at. apply wp_bind, wp_get, wp_bind, wp_lift.
  cells. pose proof (validate_segment_ok (DecryptionState.context st) segment kind (proj1 Hwf)) as Hv.
  destruct (validate_segment _ _ _) as [n|e|h]; [| |done].
  - destruct Hv as [Hf ->]. by apply decrypt_cells_ok.
  - destruct Hv as [Hf He]. split_and!; [done..|]. unfold open_error. by rewrite Hf.
Qed.

Lemma decrypt_segment_into_at_framed_ok st segment position f out :
  decryption_wf st -> in_u64 position -> framed (DecryptionState.context st) segment f ->
  wp (DecryptionState.decrypt_segment_into_at_framed segment position f) (st, out)
    (state_decrypt_into_result st segment out position (SegmentFraming.kind f)).
Proof.
  intros Hwf Hpos Hf. unfold DecryptionState.decrypt_segment_into_at_framed.
  apply wp_bind, wp_get, wp_bind, wp_lift. erewrite validate_framed_length_ok by done.
  apply decrypt_cells_ok; [done..|apply Hf].
Qed.

(** In place: the storage holds the segment, and then the plaintext in its payload range. *)
Definition state_decrypt_in_place_result (st : DecryptionState.t) (segment : bytes) (position : Z)
    (kind : SegmentKind.t) (r : Result (Z * Z)) (s : DecryptionState.t * bytes) : Prop :=
  decryption_wf (fst s) /\ DecryptionState.context (fst s) = DecryptionState.context st
  /\ zlen (snd s) = zlen segment /\
  match r with
  | Ok bounds => bounds = (16, zlen segment - 16) /\ position < AEAD_MAX_SEGMENTS
      /\ framing_ok (DecryptionState.context st) segment kind = true
      /\ exists pt, spec_decrypt (DecryptionState.context st) segment position kind = Some pt
           /\ zlen pt = zlen segment - 32 /\ snd s = splice segment 16 pt
  | Err e => open_error (DecryptionState.context st) segment position kind (zlen segment) e
  | Halt _ => False
  end.

Lemma open_cells_ok st segment position kind :
  decryption_wf st -> in_u64 position -> framing_ok (DecryptionState.context st) segment kind = true ->
  wp (zoom DecryptionState.cells
        (open_segment_in_place (DecryptionState.context st) position kind (zlen segment - 32)))
    (st, segment) (state_decrypt_in_place_result st segment position kind).
Proof.
  intros [Hc Hk] Hpos Hf. apply wp_zoom. cells.
  eapply wp_mono; [by apply open_segment_in_place_ok|].
  intros r [keys' out'] (Hk' & Hl & Hr). revert Hk' Hl Hr. cells. intros Hk' Hl Hr.
  unfold state_decrypt_in_place_result, open_error. rewrite Hf. cells. split_and!; [done..|].
  destruct r as [n|e|h]; [|done..]. destruct Hr as (-> & ? & pt & Hpt & ->).
  split_and!; [done..|]. exists pt. split_and!; [done| |done]. by eapply spec_decrypt_length.
Qed.

Lemma decrypt_segment_in_place_raw_at_ok st segment position kind :
  decryption_wf st -> in_u64 position ->
  wp (DecryptionState.decrypt_segment_in_place_raw_at position kind) (st, segment)
    (state_decrypt_in_place_result st segment position kind).
Proof.
  intros Hwf Hpos. unfold DecryptionState.decrypt_segment_in_place_raw_at, decrypt_segment_in_place_inner.
  apply wp_bind, wp_get. apply wp_zoom. cells. apply wp_bind, wp_get. cells. apply wp_bind, wp_lift.
  pose proof (validate_segment_ok (DecryptionState.context st) segment kind (proj1 Hwf)) as Hv.
  destruct (validate_segment _ _ _) as [n|e|h]; [| |done].
  - destruct Hv as [Hf ->]. pose proof (open_cells_ok st segment position kind Hwf Hpos Hf) as Ho.
    unfold wp, zoom in *. cells. destruct (open_segment_in_place _ _ _ _ _) as [? ?]. exact Ho.
  - destruct Hv as [Hf He]. split_and!; [done..|]. unfold open_error. by rewrite Hf.
Qed.

End States.

(** ** The header and the start of a message *)

Section Start.
Context {F : Features} {P : Primitives} {POk : PrimitivesOk} {B : Backend} {BOk : BackendOk}.
Implicit Types h : Header.t.

Lemma header_fields {E} h :
  Header.wf h ->
  Header.encoded_parameters (E := E) h = Ok (ztake 10 (Header.header_bytes h))
  /\ Header.floe_iv (E := E) h = Ok (slice (Header.header_bytes h) 10 42)
  /\ Header.tag (E := E) h = Ok (zdrop 42 (Header.header_bytes h)).
Proof.
  unfold Header.wf, Header.LEN. intros Hl. floe_consts.
  unfold Header.encoded_parameters, Header.floe_iv, Header.tag, try_into_array.
  change Header.FLOE_IV_OFFSET with 10. change Header.TAG_OFFSET with 42. floe_consts.
  rewrite !index_ok by lia. cbn [obind]. rewrite !zlen_slice, slice_0, slice_to_end by lia.
  replace (_ =? 10) with true by lia. split_and!; try done.
  - by replace (_ =? 32) with true by lia.
  - by replace (_ =? 32) with true by lia.
Qed.

Lemma from_fields_ok {E} encoded iv tag :
  zlen encoded = 10 -> zlen iv = 32 -> zlen tag = 32 ->
  Header.from_fields (E := E) encoded iv tag = Ok (Header.mk (encoded ++ iv ++ tag)).
Proof.
  intros He Hi Ht. unfold Header.from_fields. change Header.FLOE_IV_OFFSET with 10.
  change Header.TAG_OFFSET with 42. floe_consts.
  rewrite copy_to_ok by (rewrite ?zlen_zeros; lia). cbn [obind].
  rewrite copy_to_ok by (rewrite ?zlen_splice; rewrite ?zlen_zeros; lia). cbn [obind].
  rewrite splice_splice_next by (rewrite ?zlen_zeros; lia).
  assert (zlen (splice (zeros 74) 0 (encoded ++ iv)) = 74) as Hl
    by (rewrite zlen_splice; rewrite ?zlen_app, ?zlen_zeros; lia).
  rewrite Hl, copy_to_ok by lia. cbn [obind].
  rewrite splice_splice_next by (rewrite ?zlen_app, ?zlen_zeros; lia).
  rewrite splice_all by (rewrite !zlen_app, zlen_zeros; lia). by rewrite <- app_assoc.
Qed.

Lemma derive_header_tag_cases pr key p iv aad :
  derive_header_tag pr key (Parameters.encode p) iv aad
    = Ok (Spec.FLOE_KDF (Parameters.segment_length p) (Key.as_bytes key) iv aad Spec.HEADER_TAG 32)
  \/ derive_header_tag pr key (Parameters.encode p) iv aad = Err CryptoFailure /\ backend_fails.
Proof.
  unfold derive_header_tag. floe_consts.
  destruct (kdf_expand_cases pr 32 (Key.as_bytes key)
              [Parameters.encode p; iv; HEADER_TAG_PURPOSE; aad]) as [-> | ?]; [lia| |by right].
  left. unfold Spec.FLOE_KDF. cbn [concat]. by rewrite app_nil_r, encode_PARAM_ENCODE.
Qed.

Lemma derive_message_key_cases pr key p iv aad :
  derive_message_key pr key (Parameters.encode p) iv aad
    = Ok (SecretBytes.mk
            (Spec.FLOE_KDF (Parameters.segment_length p) (Key.as_bytes key) iv aad Spec.MESSAGE_KEY 48))
  \/ derive_message_key pr key (Parameters.encode p) iv aad = Err CryptoFailure /\ backend_fails.
Proof.
  unfold derive_message_key.
  destruct (kdf_expand_cases pr 48 (Key.as_bytes key)
              [Parameters.encode p; iv; MESSAGE_KEY_PURPOSE; aad]) as [-> | [-> ?]]; [lia| |by right].
  left. unfold Spec.FLOE_KDF. cbn [concat omap_ok]. by rewrite app_nil_r, encode_PARAM_ENCODE.
Qed.

Lemma start_encryption_ok entropy key aad p :
  Parameters.valid p ->
  match start_encryption entropy key aad p with
  | Ok (st, h) =>
      encryption_wf st /\ Header.wf h /\ EncryptionState.parameters st = p
      /\ Key.provider key = Ok (EncryptionState.provider st)
      /\ exists rng iv,
           ProviderRng_fill (ProviderRng_new (EncryptionState.provider st) entropy, zeros 32)
             = (Ok tt, (rng, iv))
           /\ zlen iv = 32
           /\ EncryptionState.nonces st = NonceGenerator.new rng
           /\ Spec.startEncryption (Parameters.segment_length p) (Key.as_bytes key) aad iv
              = (spec_state (EncryptionState.context st), Header.as_bytes h)
  | Err e => Key.provider key = Err e \/ ((e = RngFailure \/ e = CryptoFailure) /\ backend_fails)
  | Halt _ => False
  end.
Proof.
  intros Hp. unfold start_encryption.
  destruct (Key.provider key) as [pr|e|h] eqn:Hpr; [|by left|]; cycle 1.
  { unfold Key.provider in Hpr. by repeat case_match. }
  cbn [obind]. floe_consts.
  pose proof (fill_promise (ProviderRng_new pr entropy) (zeros 32)) as Hf.
  pose proof (fun BT : BackendTotal => fill_total (ProviderRng_new pr entropy, zeros 32)) as Ht.
  unfold wp in Hf. destruct (ProviderRng_fill _) as [r [rng iv]] eqn:Hfill. revert Hf Ht. cells.
  rewrite zlen_zeros. intros [[-> | ->] Hiv] Ht; cbn [obind];
    [|right; split; [by left|by intros ?%Ht]].
  destruct (derive_header_tag_cases pr key p iv aad) as [-> | [-> ?]]; [|right; by auto]. cbn [obind].
  destruct (derive_message_key_cases pr key p iv aad) as [-> | [-> ?]]; [|right; by auto]. cbn [obind].
  rewrite from_fields_ok by (rewrite ?zlen_encode; unfold Spec.FLOE_KDF; rewrite ?zlen_kdf; lia || done).
  cbn [obind]. set (c := MessageContext.new _ _ _ _ _).
  destruct (KeyCache_new_cases c) as [(keys & -> & Hk) | [-> ?]]; [|right; by auto]. cbn [obind].
  split_and!; try done.
  - unfold Header.wf. cbn [Header.header_bytes]. rewrite !zlen_app.
    unfold Spec.FLOE_KDF. rewrite zlen_kdf, zlen_encode by lia. unfold Header.LEN. flia.
  - exists rng, iv. by split_and!.
Qed.

Context {S : Support} {SOk : SupportOk}.

Lemma start_decryption_with_provider_ok key pr aad p h :
  Parameters.valid p -> Header.wf h ->
  match start_decryption_with_provider key pr aad p h with
  | Ok st =>
      decryption_wf st /\ DecryptionState.parameters st = p /\ DecryptionState.provider st = pr
      /\ Spec.startDecryption (Parameters.segment_length p) (Key.as_bytes key) aad (Header.as_bytes h)
         = Some (spec_state (DecryptionState.context st))
  | Err e =>
      (e = CryptoFailure /\ backend_fails)
      \/ Spec.startDecryption (Parameters.segment_length p) (Key.as_bytes key) aad (Header.as_bytes h) = None
         /\ e = if bool_decide (ztake 10 (Header.as_bytes h) = Parameters.encode p)
                then InvalidHeaderTag else InvalidHeaderParameters
  | Halt _ => False
  end.
Proof.
  intros Hp Hh. unfold start_decryption_with_provider.
  destruct (header_fields (E := Error) h Hh) as (-> & -> & ->). cbn [obind].
  unfold Header.wf, Header.LEN in Hh. floe_consts.
  unfold Spec.startDecryption, Spec.SPLIT, Header.as_bytes.
  change (Spec.PARAM_ENCODE (Parameters.segment_length p)) with (Parameters.encode p).
  rewrite zlen_encode, Hh. rewrite (bool_decide_true (74 = _)) by done. change (10 + 32 <=? 74) with true.
  cbv iota zeta. change (74 - 32) with 42. cbn [mbind option_bind].
  destruct (decide (ztake 10 (Header.header_bytes h) = Parameters.encode p)) as [He|He];
    [rewrite !bool_decide_true by done|rewrite !bool_decide_false by done; by right]. cbn [negb].
  set (iv := slice _ 10 42). set (tag := zdrop 42 _).
  destruct (derive_header_tag_cases pr key p iv aad) as [-> | [-> ?]]; [|by left]. cbn [obind].
  set (expected := Spec.FLOE_KDF _ _ _ _ Spec.HEADER_TAG 32).
  destruct (ct_eq expected tag) eqn:Hct; cbn [negb].
  2: { right. split; [|done]. rewrite bool_decide_false; [done|]. intros Heq. apply ct_eq_iff in Heq. congruence. }
  apply ct_eq_iff in Hct. rewrite bool_decide_true by done.
  destruct (derive_message_key_cases pr key p iv aad) as [-> | [-> ?]]; [|by left]. cbn [obind].
  set (c := MessageContext.new _ _ _ _ _).
  destruct (KeyCache_new_cases c) as [(keys & -> & Hk) | [-> ?]]; [|by left]. cbn [obind].
  by split_and!.
Qed.

(** The header of [startEncryption] is the one [startDecryption] accepts. *)
Lemma spec_start_roundtrip params key aad iv state header :
  zlen iv = 32 -> Spec.startEncryption params key aad iv = (state, header) ->
  Spec.startDecryption params key aad header = Some state.
Proof.
  intros Hiv H. apply pair_eq in H as [<- <-]. unfold Spec.startDecryption, Spec.SPLIT.
  set (tag := Spec.FLOE_KDF _ _ _ _ Spec.HEADER_TAG 32).
  set (encoded := Spec.PARAM_ENCODE params). assert (zlen encoded = 10) as He by done.
  assert (zlen tag = 32) as Ht by (apply zlen_kdf; lia).
  rewrite !zlen_app, He, Hiv, Ht. rewrite bool_decide_true by done.
  change (10 + 32 <=? 10 + 32 + 32) with true. cbv iota zeta. change (10 + 32 + 32 - 32) with 42.
  cbn [mbind option_bind]. rewrite <- !app_assoc.
  rewrite ztake_app_l, ztake_all by lia. rewrite bool_decide_true by done.
  rewrite slice_app_r, slice_app_l by lia. rewrite He, slice_all by lia.
  rewrite zdrop_app_r, zdrop_app_r by lia. rewrite He, Hiv, zdrop_le0 by lia.
  fold tag. by rewrite bool_decide_true.
Qed.

End Start.
