(* ===== verification/StateProperties.v ===== *)
(** * Properties of segment encryption and decryption

    The random-access interface of [src/state.rs] refines the specification:
    each public call, the agreement of the buffered, in-place and allocating
    variants, round trips, cleanup after failures, and the discipline of keys
    and nonces. *)

From S2P Require Import Prelude Bytes Error Parameters Provider Crypto Reference Key Buffer Spec State StateFacts.
Import ParametersFacts LayoutFacts BufferFacts.

(** ** Segment layouts *)

Section Layouts.
Context {T : Target}.

(** A [SegmentLayout] has no other origin than the layout of a message. *)
Definition obtained (s : SegmentLayout.t) : Prop :=
  exists l i, produced l /\ 0 <= i
    /\ MessageLayout.segment_for_position (E := Error) l i = Ok (Some s).

Lemma obtained_facts s :
  obtained s ->
  Parameters.valid (SegmentLayout.parameters s)
  /\ 0 <= SegmentLayout.position s < AEAD_MAX_SEGMENTS /\ in_u64 (SegmentLayout.position s)
  /\ 0 <= SegmentLayout.plaintext_length s
  /\ segment_fits (Parameters.segment_length (SegmentLayout.parameters s))
       (SegmentKind.is_final (SegmentLayout.kind s)) (SegmentLayout.plaintext_length s)
  /\ SegmentLayout.ciphertext_length s = 32 + SegmentLayout.plaintext_length s.
Proof.
  intros (l & i & Hl & Hi & Hs). apply produced_wf in Hl as Hwf.
  destruct (Z.lt_ge_cases i (MessageLayout.segment_count l)); cycle 1.
  { by rewrite segment_for_position_none in Hs. }
  rewrite segment_for_position_ok in Hs by done. simplify_eq.
  pose proof (wf_position l i Hwf) as (H1 & H2 & H3 & _); [done|].
  pose proof (wf_count _ Hwf). destruct (valid_payload _ (LayoutFacts.wf_valid _ Hwf)) as [Hs Hp].
  unfold segment_of, segment_fits, in_u64; simpl. rewrite Hs.
  split_and!; [apply Hwf|flia..| | |lia];
    destruct (Z.eqb_spec (i + 1) (MessageLayout.segment_count l)); simpl; lia.
Qed.

End Layouts.

Section Lemmas.
Context {T : Target} {P : Primitives} {POk : PrimitivesOk} {B : Backend} {BOk : BackendOk}.

(** A layout of the state's parameter set: its plaintext length fits its kind. *)
Lemma obtained_fits c s :
  obtained s -> SegmentLayout.parameters s = MessageContext.parameters c ->
  plaintext_fits c (SegmentLayout.kind s) (SegmentLayout.plaintext_length s).
Proof.
  intros Hs Heq. destruct (obtained_facts s Hs) as (_ & _ & _ & _ & H & _).
  unfold plaintext_fits, enc_seg_len. by rewrite <- Heq.
Qed.

(** The errors a segment encryption has left once its layout was accepted. *)
Lemma layout_encrypt_error c s n room e :
  obtained s -> SegmentLayout.parameters s = MessageContext.parameters c ->
  n = SegmentLayout.plaintext_length s ->
  encrypt_error c n (SegmentLayout.position s) (SegmentLayout.kind s) room e ->
  (e = OutputTooSmall room (n + 32) /\ room < n + 32) \/ ((e = RngFailure \/ e = CryptoFailure) /\ backend_fails).
Proof.
  intros Hs Heq ->. pose proof (obtained_fits c s Hs Heq) as Hfit.
  destruct (obtained_facts s Hs) as (_ & [_ Hpos] & _).
  destruct e; simpl; try tauto; try lia.
  intros (_ & ? & -> & ->). by left.
Qed.

Lemma layout_decrypt_error c s segment room e :
  obtained s -> decrypt_error c segment (SegmentLayout.position s) (SegmentLayout.kind s) room e ->
  (e = OutputTooSmall room (zlen segment - 32) /\ room < zlen segment - 32)
  \/ (e = AuthenticationFailed
      /\ spec_decrypt c segment (SegmentLayout.position s) (SegmentLayout.kind s) = None)
  \/ (e = CryptoFailure /\ backend_fails).
Proof.
  intros Hs. destruct (obtained_facts s Hs) as (_ & [_ Hpos] & _).
  destruct e; simpl; try tauto; try lia. intros (-> & -> & ?). by left.
Qed.

Lemma validate_layout_cases c s :
  (validate_layout c s = Ok tt /\ SegmentLayout.parameters s = MessageContext.parameters c)
  \/ (validate_layout c s = Err InvalidParameters /\ SegmentLayout.parameters s <> MessageContext.parameters c).
Proof. unfold validate_layout. case_bool_decide; [by left|by right]. Qed.

Lemma validate_plaintext_layout_cases st n s :
  (EncryptionState.validate_plaintext_layout st n s = Ok tt
   /\ SegmentLayout.parameters s = EncryptionState.parameters st /\ n = SegmentLayout.plaintext_length s)
  \/ (EncryptionState.validate_plaintext_layout st n s = Err InvalidParameters
      /\ SegmentLayout.parameters s <> EncryptionState.parameters st)
  \/ (EncryptionState.validate_plaintext_layout st n s
        = Err (InvalidPlaintextLength n (Exactly (SegmentLayout.plaintext_length s)))
      /\ SegmentLayout.parameters s = EncryptionState.parameters st /\ n <> SegmentLayout.plaintext_length s).
Proof.
  unfold EncryptionState.validate_plaintext_layout.
  destruct (validate_layout_cases (EncryptionState.context st) s) as [[-> ?]|[-> ?]]; simpl; [|by right; left].
  destruct (Z.eqb_spec n (SegmentLayout.plaintext_length s)); [by left|by right; right].
Qed.

Lemma validate_ciphertext_layout_cases st n s :
  (DecryptionState.validate_ciphertext_layout st n s = Ok tt
   /\ SegmentLayout.parameters s = DecryptionState.parameters st /\ n = SegmentLayout.ciphertext_length s)
  \/ (DecryptionState.validate_ciphertext_layout st n s = Err InvalidParameters
      /\ SegmentLayout.parameters s <> DecryptionState.parameters st)
  \/ (DecryptionState.validate_ciphertext_layout st n s
        = Err (InvalidCiphertextLength n (Exactly (SegmentLayout.ciphertext_length s)))
      /\ SegmentLayout.parameters s = DecryptionState.parameters st /\ n <> SegmentLayout.ciphertext_length s).
Proof.
  unfold DecryptionState.validate_ciphertext_layout.
  destruct (validate_layout_cases (DecryptionState.context st) s) as [[-> ?]|[-> ?]]; simpl; [|by right; left].
  destruct (Z.eqb_spec n (SegmentLayout.ciphertext_length s)); [by left|by right; right].
Qed.

(** Why a public encryption call fails, and when. *)
Definition encrypt_failure (p : Parameters.t) (s : SegmentLayout.t) (n : Z) (e : Error) : Prop :=
  match e with
  | InvalidParameters => SegmentLayout.parameters s <> p
  | InvalidPlaintextLength actual required =>
      actual = n /\ required = Exactly (SegmentLayout.plaintext_length s)
      /\ n <> SegmentLayout.plaintext_length s
  | RngFailure | CryptoFailure => backend_fails
  | _ => False
  end.

(** The allocating encryption of a segment of a layout. *)
Lemma encrypt_segment_ok st plaintext s :
  encryption_wf st -> obtained s -> zlen plaintext + 32 <= isize_max ->
  wp (EncryptionState.encrypt_segment plaintext s) st (fun r st' =>
    encryption_wf st' /\ EncryptionState.context st' = EncryptionState.context st /\
    match r with
    | Ok segment =>
        SegmentLayout.parameters s = EncryptionState.parameters st
        /\ zlen plaintext = SegmentLayout.plaintext_length s
        /\ sealed_in st st' plaintext (SegmentLayout.position s) (SegmentLayout.kind s) segment
    | Err e => encrypt_failure (EncryptionState.parameters st) s (zlen plaintext) e
    | Halt _ => False
    end).
Proof.
  intros Hwf Hs Hsize. unfold EncryptionState.encrypt_segment. apply wp_bind, wp_get, wp_bind, wp_lift.
  destruct (validate_plaintext_layout_cases st (zlen plaintext) s)
    as [(-> & Hp & Hn)|[(-> & Hp)|(-> & Hp & Hn)]]; [|by split_and!..].
  destruct (obtained_facts s Hs) as (_ & _ & Hpos & _).
  eapply wp_mono; [by apply encrypt_segment_at_ok|]. intros r st' (Hwf' & Hctx & Hr).
  split_and!; [done..|]. destruct r as [segment|e|h]; [|simpl in *|done].
  - destruct Hr as (_ & _ & Hr). by split_and!.
  - eapply layout_encrypt_error in Hr as [[_ ?]|[[-> | ->] ?]]; [lia|done..].
Qed.

(** ** Segment buffers *)

Context {S : Support} {SOk : SupportOk}.

(** In-place encryption of the buffered payload. *)
Lemma encrypt_segment_in_place_at_ok st b position kind n :
  encryption_wf st -> wf b -> in_u64 position -> SegmentBuffer.state b = BufferState.Plaintext n ->
  SegmentBuffer.parameters b = EncryptionState.parameters st ->
  wp (EncryptionState.encrypt_segment_in_place_at position kind) (st, b) (fun r s' =>
    encryption_wf (fst s') /\ EncryptionState.context (fst s') = EncryptionState.context st /\
    wf (snd s') /\ SegmentBuffer.parameters (snd s') = SegmentBuffer.parameters b /\
    match r with
    | Ok segment => sealed_in st (fst s') (payload_of b) position kind segment
        /\ position < AEAD_MAX_SEGMENTS /\ plaintext_fits (EncryptionState.context st) kind n
        /\ SegmentBuffer.ciphertext (snd s') = Ok segment
    | Err e =>
        encrypt_error (EncryptionState.context st) n position kind (zlen (SegmentBuffer.storage b)) e
        /\ wiped b (snd s')
    | Halt _ => False
    end).
Proof.
  intros Hst Hb Hpos Hn Hp. pose proof Hb as [Hv Hlen Hstate]. rewrite Hn in Hstate.
  destruct (valid_payload _ Hv) as [Hs Hpl].
  assert (Hpay : payload_of b = slice (SegmentBuffer.storage b) 16 (16 + n))
    by (unfold payload_of; by rewrite Hn).
  assert (Hzlen : zlen (payload_of b) = n) by (rewrite Hpay, zlen_slice; lia).
  unfold EncryptionState.encrypt_segment_in_place_at. apply wp_bind, wp_get. cells.
  unfold SegmentBuffer.matches. rewrite bool_decide_true by done. cbn [negb].
  unfold SegmentBuffer.plaintext_length at 1. rewrite Hn. apply wp_bind, wp_lift. apply wp_match, wp_zoom. cells.
  rewrite <- Hzlen. eapply wp_mono.
  { unfold EncryptionState.with_raw. cells. apply encrypt_segment_in_place_raw_at_ok; [done..|].
    by rewrite Hzlen, Hpay. }
  intros r [st' storage'] (Hst' & Hctx & Hl & Hr). revert Hst' Hctx Hl Hr. unfold EncryptionState.with_raw. cells.
  intros Hst' Hctx Hl Hr. pose proof (wf_set_storage b storage' Hb Hl) as Hb'.
  destruct r as [written|e|h]; [| |done].
  - destruct Hr as (-> & Hroom & Hlt & Hfits & segment & Hsealed & ->).
    apply wp_bind, wp_zoom, wp_modify. cells. apply wp_bind, wp_get. apply wp_lift. cells.
    rewrite Hzlen in *. assert (zlen segment = n + 32) as Hseg by (destruct Hsealed as (? & _ & _ & _ & ->); lia).
    assert (wf (SegmentBuffer.set_state (SegmentBuffer.set_storage b (splice (SegmentBuffer.storage b) 0 segment))
                  (BufferState.Ciphertext (n + 32)))) as Hb''
      by (apply wf_set_ciphertext; [done|simpl; lia]).
    rewrite (ciphertext_ok _ (n + 32)) by done. cbn [SegmentBuffer.storage SegmentBuffer.set_state SegmentBuffer.set_storage].
    replace (ztake (n + 32) _) with segment; [by split_and!|].
    rewrite <- slice_0. symmetry. apply slice_splice_same; lia.
  - apply wp_bind, wp_zoom. cells. eapply wp_mono; [apply clear_wiped|].
    intros r b2 [-> Hw]. apply wiped_set_storage in Hw; [|done]. apply wp_fail. cells. rewrite Hzlen in *.
    split_and!; (done || exact (wiped_wf _ _ Hb Hw) || apply Hw).
Qed.

(** What an in-place decryption leaves in the buffer that holds [segment]. *)
Definition buffer_decrypt_result (st : DecryptionState.t) (b : SegmentBuffer.t) (segment : bytes)
    (position : Z) (kind : SegmentKind.t) (r : Result Z) (s' : DecryptionState.t * SegmentBuffer.t) : Prop :=
  decryption_wf (fst s') /\ DecryptionState.context (fst s') = DecryptionState.context st /\
  zlen (SegmentBuffer.storage (snd s')) = zlen (SegmentBuffer.storage b)
  /\ SegmentBuffer.parameters (snd s') = SegmentBuffer.parameters b /\
  match r with
  | Ok m => m = zlen segment - 32
      /\ framing_ok (DecryptionState.context st) segment kind = true
      /\ exists pt, spec_decrypt (DecryptionState.context st) segment position kind = Some pt
         /\ zlen pt = m /\ slice (SegmentBuffer.storage (snd s')) 16 (16 + m) = pt
  | Err e => open_error (DecryptionState.context st) segment position kind (zlen segment) e
  | Halt _ => False
  end.

(** The storage's first [zlen segment] bytes, borrowed by an in-place operation. *)
Lemma borrowed_segment_ok st b segment position kind (m : M Error (DecryptionState.t * bytes) (Z * Z)) :
  ztake (zlen segment) (SegmentBuffer.storage b) = segment -> 32 <= zlen segment ->
  wp m (st, segment) (state_decrypt_in_place_result st segment position kind) ->
  wp (let! plaintext := zoom DecryptionState.with_raw (zoom_range_snd 0 (zlen segment) m) in
      ret (DecryptionState.borrowed_length plaintext)) (st, b)
    (buffer_decrypt_result st b segment position kind).
Proof.
  intros Hseg Hmin Hm. assert (zlen segment <= zlen (SegmentBuffer.storage b)) as Hle.
  { rewrite <- Hseg at 1. rewrite zlen_ztake. pose proof (zlen_nonneg (SegmentBuffer.storage b)). lia. }
  apply wp_bind, wp_zoom. unfold DecryptionState.with_raw. cells.
  apply wp_zoom_range_snd; [apply range_ok_true; cells; lia|]. cells. rewrite slice_0, Hseg.
  eapply wp_mono; [exact Hm|]. intros r [st' segment'] (Hst' & Hctx & Hl & Hr).
  revert Hst' Hctx Hl Hr. cells. intros Hst' Hctx Hl Hr.
  assert (zlen (splice (SegmentBuffer.storage b) 0 segment') = zlen (SegmentBuffer.storage b)) as Hl'
    by (rewrite zlen_splice; lia).
  destruct r as [bounds|e|h]; [|by split_and!|done].
  destruct Hr as (-> & _ & Hf & pt & Hpt & Hptl & ->). apply wp_ret. unfold buffer_decrypt_result. cells.
  unfold DecryptionState.borrowed_length. cells. cbn [SegmentBuffer.storage SegmentBuffer.set_storage].
  refine (conj Hst' (conj Hctx (conj Hl' (conj eq_refl (conj _ (conj Hf _)))))); [lia|].
  exists pt. split_and!; [done|lia|].
  rewrite <- (slice_ztake _ (zlen segment)) by lia.
  replace (ztake (zlen segment) (splice (SegmentBuffer.storage b) 0 (splice segment 16 pt)))
    with (splice segment 16 pt).
  - apply slice_splice_same; lia.
  - symmetry. rewrite <- slice_0. apply slice_splice_same; lia.
Qed.

(** In-place decryption of the buffered segment. *)
Lemma decrypt_segment_in_place_operation_ok st b s segment :
  decryption_wf st -> obtained s -> SegmentBuffer.state b = BufferState.Ciphertext (zlen segment) ->
  ztake (zlen segment) (SegmentBuffer.storage b) = segment ->
  SegmentBuffer.parameters b = DecryptionState.parameters st ->
  SegmentLayout.parameters s = DecryptionState.parameters st -> zlen segment = SegmentLayout.ciphertext_length s ->
  wp (DecryptionState.decrypt_segment_in_place_operation s) (st, b)
    (buffer_decrypt_result st b segment (SegmentLayout.position s) (SegmentLayout.kind s)).
Proof.
  intros Hst Hs Hn Hseg Hp Hps Hns. destruct (obtained_facts s Hs) as (_ & _ & Hpos & Hpl & _ & Hct).
  unfold DecryptionState.decrypt_segment_in_place_operation. apply wp_bind, wp_get. cells.
  apply wp_bind, wp_lift. unfold SegmentBuffer.ciphertext_length. rewrite Hn. apply wp_bind, wp_lift.
  destruct (validate_ciphertext_layout_cases st (zlen segment) s) as [(-> & _)|[(-> & ?)|(-> & ? & ?)]]; [|done..].
  unfold SegmentBuffer.matches. rewrite bool_decide_true by done. cbn [negb].
  apply borrowed_segment_ok; [done|lia|]. by apply decrypt_segment_in_place_raw_at_ok.
Qed.

(** The same for a segment whose prefix was decoded before. *)
Lemma decrypt_segment_in_place_at_framed_ok st b segment position f :
  decryption_wf st -> in_u64 position -> SegmentBuffer.state b = BufferState.Ciphertext (zlen segment) ->
  ztake (zlen segment) (SegmentBuffer.storage b) = segment ->
  SegmentBuffer.parameters b = DecryptionState.parameters st ->
  framed (DecryptionState.context st) segment f ->
  wp (DecryptionState.decrypt_segment_in_place_at_framed position f) (st, b)
    (buffer_decrypt_result st b segment position (SegmentFraming.kind f)).
Proof.
  intros Hst Hpos Hn Hseg Hp Hf. pose proof (framing_ok_bounds _ _ _ (proj1 Hst) (proj1 Hf)) as [Hb _].
  unfold DecryptionState.decrypt_segment_in_place_at_framed. apply wp_bind, wp_get. cells.
  unfold SegmentBuffer.matches. rewrite bool_decide_true by done. cbn [negb].
  apply wp_bind, wp_lift. unfold SegmentBuffer.ciphertext_length. rewrite Hn. apply wp_bind, wp_lift.
  erewrite validate_framed_length_ok by done.
  apply borrowed_segment_ok; [done|lia|]. apply open_cells_ok; [done..|apply Hf].
Qed.

End Lemmas.

(** * Properties *)

Section Start.
Context {F : Features} {P : Primitives} {POk : PrimitivesOk} {B : Backend} {BOk : BackendOk}.
Context {S : Support} {SOk : SupportOk}.

(** What starting a decryption gives for a header that matches. *)
Definition resumes (c : MessageContext.t) (key : Key.t) (r : Result DecryptionState.t) : Prop :=
  match r with
  | Ok st => decryption_wf st
      /\ spec_state (DecryptionState.context st) = spec_state c
      /\ DecryptionState.parameters st = MessageContext.parameters c
      /\ Key.provider key = Ok (DecryptionState.provider st)
  | Err e => Key.provider key = Err e \/ (e = CryptoFailure /\ backend_fails)
  | Halt _ => False
  end.

Lemma Key_provider_cases key :
  (exists p, Key.provider key = Ok p) \/ Key.provider key = Err ProviderSelectionRequired.
Proof. unfold Key.provider. repeat case_match; eauto. Qed.

Lemma resumes_with_provider (c : MessageContext.t) key pr aad p h :
  Parameters.valid p -> Header.wf h -> Key.provider key = Ok pr -> p = MessageContext.parameters c ->
  Spec.startDecryption (Parameters.segment_length p) (Key.as_bytes key) aad (Header.as_bytes h)
    = Some (spec_state c) ->
  resumes c key (start_decryption_with_provider key pr aad p h).
Proof.
  intros Hp Hh Hpr Hpc Hspec. pose proof (start_decryption_with_provider_ok key pr aad p h Hp Hh) as H.
  unfold resumes. destruct (start_decryption_with_provider _ _ _ _ _) as [st|e|x]; [| |done].
  - destruct H as (? & -> & -> & H). rewrite Hspec in H. split_and!; congruence.
  - destruct H as [[-> ?]|[H _]]; [by right; split|congruence].
Qed.

(** A header that [start_encryption] returned starts a decryption with the
    same message secrets, parameters and associated data, whether the
    parameters are given or read from the header, and whichever provider each
    side uses; only an unresolved provider or a failing backend prevents it. *)
Theorem message_start_roundtrip (entropy : Entropy) (key key' : Key.t) (aad : bytes) (p : Parameters.t)
  (st : EncryptionState.t) (h : Header.t)
  (Hp : Parameters.valid p)
  (Hstart : start_encryption entropy key aad p = Ok (st, h))
  (Hkey : Key.as_bytes key' = Key.as_bytes key) :
  encryption_wf st /\ EncryptionState.parameters st = p /\ Header.wf h
  /\ resumes (EncryptionState.context st) key' (start_decryption key' aad p h)
  /\ resumes (EncryptionState.context st) key' (start_decryption_inferred key' aad h).
Proof.
  pose proof (start_encryption_ok entropy key aad p Hp) as H. rewrite Hstart in H.
  destruct H as (Hwf & Hh & Hpar & _ & rng & iv & _ & Hiv & _ & Hspec). split_and!; [done..| |].
  all: unfold start_decryption, start_decryption_inferred, Header.unverified_parameters.
  all: destruct (Key_provider_cases key') as [[pr Hpr]|Hpr]; rewrite Hpr; cbn [obind]; [|by left].
  - apply resumes_with_provider; try done. rewrite Hkey. by eapply spec_start_roundtrip.
  - destruct (header_fields (E := Error) h Hh) as (-> & _). cbn [obind].
    assert (ztake 10 (Header.header_bytes h) = Parameters.encode p) as ->.
    { change (Header.header_bytes h) with (Header.as_bytes h).
      apply pair_eq in Hspec as [_ <-]. rewrite <- encode_PARAM_ENCODE, <- app_assoc.
      rewrite ztake_app_l, ztake_all by (rewrite zlen_encode; lia). done. }
    rewrite decode_encode by done. cbn [obind].
    apply resumes_with_provider; try done. rewrite Hkey. by eapply spec_start_roundtrip.
Qed.

(** C24: [start_decryption] accepts exactly the headers that the specification's
    [startDecryption] accepts and derives its message secrets. A rejected
    header is reported as a parameter mismatch when its first ten bytes are not
    the encoding of the given parameters, and as an invalid tag otherwise. *)
Theorem start_decryption_refines (key : Key.t) (aad : bytes) (p : Parameters.t) (h : Header.t)
  (Hp : Parameters.valid p) (Hh : Header.wf h) :
  match start_decryption key aad p h with
  | Ok st =>
      decryption_wf st /\ DecryptionState.parameters st = p
      /\ Spec.startDecryption (Parameters.segment_length p) (Key.as_bytes key) aad (Header.as_bytes h)
         = Some (spec_state (DecryptionState.context st))
  | Err e =>
      Key.provider key = Err e \/ (e = CryptoFailure /\ backend_fails)
      \/ (Spec.startDecryption (Parameters.segment_length p) (Key.as_bytes key) aad (Header.as_bytes h) = None
          /\ e = if bool_decide (ztake 10 (Header.as_bytes h) = Parameters.encode p)
                 then InvalidHeaderTag else InvalidHeaderParameters)
  | Halt _ => False
  end
  /\ match start_decryption_inferred key aad h with
     | Ok st => start_decryption key aad (DecryptionState.parameters st) h = Ok st
         /\ Parameters.decode (ztake 10 (Header.as_bytes h)) = Ok (DecryptionState.parameters st)
     | Err e => Key.provider key = Err e
         \/ Parameters.decode (ztake 10 (Header.as_bytes h)) = Err e
         \/ exists q, Parameters.decode (ztake 10 (Header.as_bytes h)) = Ok q
              /\ start_decryption key aad q h = Err e
     | Halt _ => False
     end.
Proof.
  split.
  - unfold start_decryption. destruct (Key_provider_cases key) as [[pr ->]| ->]; cbn [obind]; [|by left].
    pose proof (start_decryption_with_provider_ok key pr aad p h Hp Hh) as H.
    destruct (start_decryption_with_provider _ _ _ _ _) as [st|e|x]; [|by right|done].
    destruct H as (? & ? & _ & ?). by split_and!.
  - unfold start_decryption_inferred, start_decryption, Header.unverified_parameters.
    destruct (Key_provider_cases key) as [[pr ->]| ->]; cbn [obind]; [|by left].
    destruct (header_fields (E := Error) h Hh) as (-> & _). cbn [obind].
    change (Header.as_bytes h) with (Header.header_bytes h).
    pose proof (decode_returns (ztake 10 (Header.header_bytes h))) as Hret.
    destruct (Parameters.decode _) as [q|e|x] eqn:Hd; cbn [obind]; [|by right; left|].
    + apply decode_inv in Hd as [Hq _]. pose proof (start_decryption_with_provider_ok key pr aad q h Hq Hh) as H.
      destruct (start_decryption_with_provider _ _ _ q _) as [st|e|x] eqn:Hst; [| |done].
      * destruct H as (_ & -> & _). done.
      * right. right. by exists q.
    + unfold Header.wf, Header.LEN in Hh. rewrite zlen_ztake in Hret. apply Hret. flia.
Qed.

End Start.

Section Segments.
Context {T : Target} {P : Primitives} {POk : PrimitivesOk} {B : Backend} {BOk : BackendOk}.
Context {S : Support} {SOk : SupportOk}.

(** C22: [encrypt_segment] refines the specification's [encryptSegment]. It
    succeeds with the specification's segment for the next nonce of the
    generator, of the length the layout states, exactly when the layout is of
    the state's parameters and the plaintext has its length; otherwise it
    reports which, and only a failing backend adds other errors. *)
Theorem encrypt_segment_refines (st : EncryptionState.t) (plaintext : bytes) (s : SegmentLayout.t)
  (Hst : encryption_wf st) (Hs : obtained s) (Hsize : zlen plaintext + 32 <= isize_max) :
  wp (EncryptionState.encrypt_segment plaintext s) st (fun r st' =>
    encryption_wf st' /\ EncryptionState.context st' = EncryptionState.context st /\
    match r with
    | Ok segment =>
        SegmentLayout.parameters s = EncryptionState.parameters st
        /\ zlen plaintext = SegmentLayout.plaintext_length s
        /\ zlen segment = SegmentLayout.ciphertext_length s
        /\ exists nonce,
             NonceGenerator.next (EncryptionState.nonces st) = (Ok nonce, EncryptionState.nonces st')
             /\ Spec.encryptSegment (Parameters.segment_length (EncryptionState.parameters st))
                  (spec_state (EncryptionState.context st)) nonce plaintext (SegmentLayout.position s)
                  (SegmentLayout.is_final s) = Some segment
    | Err e => encrypt_failure (EncryptionState.parameters st) s (zlen plaintext) e
    | Halt _ => False
    end).
Proof.
  eapply wp_mono; [by apply encrypt_segment_ok|]. intros r st' (Hwf & Hctx & Hr).
  split_and!; [done..|]. destruct r as [segment|e|h]; [|done..].
  destruct Hr as (Hp & Hn & nonce & Hnext & _ & Hspec & Hlen). split_and!; [done..| |by exists nonce].
  destruct (obtained_facts s Hs) as (_ & _ & _ & _ & _ & ->). lia.
Qed.

(** The segment, once sealed, is determined by the state. *)
Lemma sealed_in_unique st st1 st2 plaintext position kind segment1 segment2 :
  sealed_in st st1 plaintext position kind segment1 -> sealed_in st st2 plaintext position kind segment2 ->
  segment1 = segment2 /\ EncryptionState.nonces st1 = EncryptionState.nonces st2.
Proof. intros (n1 & H1 & _ & H2 & _) (n2 & H3 & _ & H4 & _). split; congruence. Qed.

(** Each way to encrypt a segment that fits its layout, with a backend that
    does not fail. *)
Definition encryptable (st : EncryptionState.t) (plaintext : bytes) (s : SegmentLayout.t) : Prop :=
  encryption_wf st /\ obtained s /\ SegmentLayout.parameters s = EncryptionState.parameters st
  /\ zlen plaintext = SegmentLayout.plaintext_length s.

Definition seals (st st' : EncryptionState.t) (plaintext : bytes) (s : SegmentLayout.t) (segment : bytes) : Prop :=
  sealed_in st st' plaintext (SegmentLayout.position s) (SegmentLayout.kind s) segment.

Lemma encryptable_layout st plaintext s :
  encryptable st plaintext s ->
  EncryptionState.validate_plaintext_layout st (zlen plaintext) s = Ok tt
  /\ validate_layout (EncryptionState.context st) s = Ok tt
  /\ in_u64 (SegmentLayout.position s)
  /\ SegmentLayout.ciphertext_length s = zlen plaintext + 32.
Proof.
  intros (_ & Hs & Hp & Hn). destruct (obtained_facts s Hs) as (_ & _ & Hpos & _ & _ & Hct).
  split_and!; [| |done|lia].
  - destruct (validate_plaintext_layout_cases st (zlen plaintext) s) as [(-> & _)|[(_ & ?)|(_ & _ & ?)]]; done.
  - destruct (validate_layout_cases (EncryptionState.context st) s) as [[-> _]|[_ ?]]; done.
Qed.

Lemma encryptable_no_error {BT : BackendTotal} st plaintext s room e :
  encryptable st plaintext s -> zlen plaintext + 32 <= room ->
  ~ encrypt_error (EncryptionState.context st) (zlen plaintext) (SegmentLayout.position s)
      (SegmentLayout.kind s) room e.
Proof.
  intros (_ & Hs & Hp & Hn) Hroom He.
  eapply layout_encrypt_error in He as [[_ ?]|[_ Hf]]; [lia|by apply Hf|done..].
Qed.

Lemma encrypt_segment_total {BT : BackendTotal} st plaintext s :
  encryptable st plaintext s -> zlen plaintext + 32 <= isize_max ->
  exists segment st', EncryptionState.encrypt_segment plaintext s st = (Ok segment, st')
    /\ seals st st' plaintext s segment.
Proof.
  intros Hok Hsize. pose proof Hok as (Hst & Hs & Hp & Hn).
  destruct (wp_run _ _ _ (encrypt_segment_ok st plaintext s Hst Hs Hsize)) as (r & st' & E & _ & _ & Hr).
  destruct r as [segment|e|h]; [|exfalso|done].
  - exists segment, st'. split; [done|]. apply Hr.
  - assert (~ backend_fails) by (unfold backend_fails; tauto).
    destruct e; simpl in Hr; try tauto.
Qed.

Lemma encrypt_segment_into_total {BT : BackendTotal} st plaintext s out :
  encryptable st plaintext s -> zlen plaintext + 32 <= zlen out ->
  exists segment st', EncryptionState.encrypt_segment_into plaintext s (st, out)
      = (Ok (zlen segment), (st', splice out 0 segment))
    /\ seals st st' plaintext s segment.
Proof.
  intros Hok Hout. pose proof Hok as (Hst & Hs & Hp & Hn).
  destruct (encryptable_layout st plaintext s Hok) as (Hv & _ & Hpos & _).
  unfold EncryptionState.encrypt_segment_into, bindM, get, lift. cells. rewrite Hv.
  destruct (wp_run _ _ _ (encrypt_segment_into_at_ok st plaintext _ (SegmentLayout.kind s) out Hst Hpos))
    as (r & [st' out'] & -> & _ & _ & _ & Hr). revert Hr. cells.
  destruct r as [w|e|h]; [|by intros ?%(encryptable_no_error st plaintext s)|done].
  intros (-> & _ & _ & _ & segment & Hseal & ->). exists segment, st'. split; [|done].
  by destruct Hseal as (? & _ & _ & _ & ->).
Qed.

Lemma encrypt_segment_in_place_raw_total {BT : BackendTotal} st plaintext s raw :
  encryptable st plaintext s -> zlen plaintext + 32 <= zlen raw ->
  slice raw 16 (16 + zlen plaintext) = plaintext ->
  exists segment st', EncryptionState.encrypt_segment_in_place_raw s (st, raw)
      = (Ok (zlen segment), (st', splice raw 0 segment))
    /\ seals st st' plaintext s segment.
Proof.
  intros Hok Hout Hraw. pose proof Hok as (Hst & Hs & Hp & Hn).
  destruct (encryptable_layout st plaintext s Hok) as (_ & Hv & Hpos & _).
  unfold EncryptionState.encrypt_segment_in_place_raw, bindM, get, lift. cells. rewrite Hv, <- Hn.
  destruct (wp_run _ _ _ (encrypt_segment_in_place_raw_at_ok st plaintext _ (SegmentLayout.kind s) raw
              Hst Hpos (fun _ => Hraw)))
    as (r & [st' out'] & -> & _ & _ & _ & Hr). revert Hr. cells.
  destruct r as [w|e|h]; [|by intros ?%(encryptable_no_error st plaintext s)|done].
  intros (-> & _ & _ & _ & segment & Hseal & ->). exists segment, st'. split; [|done].
  by destruct Hseal as (? & _ & _ & _ & ->).
Qed.

Lemma encrypt_segment_in_place_total {BT : BackendTotal} st plaintext s b :
  encryptable st plaintext s -> wf b -> SegmentBuffer.parameters b = EncryptionState.parameters st ->
  SegmentBuffer.state b = BufferState.Plaintext (zlen plaintext) -> payload_of b = plaintext ->
  exists segment st' b', EncryptionState.encrypt_segment_in_place s (st, b) = (Ok segment, (st', b'))
    /\ seals st st' plaintext s segment.
Proof.
  intros Hok Hb Hbp Hbs Hpl. pose proof Hok as (Hst & Hs & Hp & Hn).
  destruct (encryptable_layout st plaintext s Hok) as (Hv & _ & Hpos & _).
  unfold EncryptionState.encrypt_segment_in_place, bindM, get, lift. cells.
  unfold SegmentBuffer.plaintext_length at 1. rewrite Hbs, Hv.
  destruct (wp_run _ _ _ (encrypt_segment_in_place_at_ok st b _ (SegmentLayout.kind s) (zlen plaintext)
              Hst Hb Hpos Hbs Hbp)) as (r & [st' b'] & -> & _ & _ & _ & _ & Hr). revert Hr. cells.
  destruct r as [segment|e|h]; [| |done].
  - rewrite Hpl. intros (Hseal & _). by exists segment, st', b'.
  - intros [He _]. exfalso. revert He. apply encryptable_no_error; [done|].
    destruct Hb as [Hval Hlen Hstate]. destruct (valid_payload _ Hval). rewrite Hbs in Hstate. lia.
Qed.

(** C26: the four ways to encrypt a segment - into a new vector, into a
    caller's output, in caller-managed storage and in a segment buffer - give
    the same segment and leave the nonce generator in the same state, for a
    plaintext that fits its layout and a backend that does not fail. *)
Theorem encryption_paths_agree {BT : BackendTotal} (st : EncryptionState.t) (plaintext : bytes)
  (s : SegmentLayout.t) (out raw : bytes) (b : SegmentBuffer.t)
  (Hok : encryptable st plaintext s) (Hsize : zlen plaintext + 32 <= isize_max)
  (Hout : zlen plaintext + 32 <= zlen out) (Hraw : zlen plaintext + 32 <= zlen raw)
  (Hrawp : slice raw 16 (16 + zlen plaintext) = plaintext)
  (Hb : wf b) (Hbp : SegmentBuffer.parameters b = EncryptionState.parameters st)
  (Hbs : SegmentBuffer.state b = BufferState.Plaintext (zlen plaintext))
  (Hbpl : payload_of b = plaintext) :
  exists segment st1 st2 st3 st4 b',
    EncryptionState.encrypt_segment plaintext s st = (Ok segment, st1)
    /\ EncryptionState.encrypt_segment_into plaintext s (st, out)
       = (Ok (zlen segment), (st2, splice out 0 segment))
    /\ EncryptionState.encrypt_segment_in_place_raw s (st, raw)
       = (Ok (zlen segment), (st3, splice raw 0 segment))
    /\ EncryptionState.encrypt_segment_in_place s (st, b) = (Ok segment, (st4, b'))
    /\ EncryptionState.nonces st2 = EncryptionState.nonces st1
    /\ EncryptionState.nonces st3 = EncryptionState.nonces st1
    /\ EncryptionState.nonces st4 = EncryptionState.nonces st1.
Proof.
  destruct (encrypt_segment_total st plaintext s Hok Hsize) as (segment & st1 & E1 & H1).
  destruct (encrypt_segment_into_total st plaintext s out Hok Hout) as (seg2 & st2 & E2 & H2).
  destruct (encrypt_segment_in_place_raw_total st plaintext s raw Hok Hraw Hrawp) as (seg3 & st3 & E3 & H3).
  destruct (encrypt_segment_in_place_total st plaintext s b Hok Hb Hbp Hbs Hbpl) as (seg4 & st4 & b' & E4 & H4).
  destruct (sealed_in_unique _ _ _ _ _ _ _ _ H2 H1) as [-> ?].
  destruct (sealed_in_unique _ _ _ _ _ _ _ _ H3 H1) as [-> ?].
  destruct (sealed_in_unique _ _ _ _ _ _ _ _ H4 H1) as [-> ?].
  by exists segment, st1, st2, st3, st4, b'.
Qed.

(** ** Decryption *)

(** Why a public decryption call with a segment of the layout's length fails. *)
Definition decrypt_failure (c : MessageContext.t) (s : SegmentLayout.t) (segment : bytes) (e : Error) : Prop :=
  match e with
  | InvalidParameters => SegmentLayout.parameters s <> MessageContext.parameters c
  | CryptoFailure => backend_fails
  | AuthenticationFailed =>
      framing_ok c segment (SegmentLayout.kind s) = true
      /\ spec_decrypt c segment (SegmentLayout.position s) (SegmentLayout.kind s) = None
  | InvalidCiphertextLength actual required =>
      actual = zlen segment /\ required = Exactly (SegmentLayout.ciphertext_length s)
      /\ zlen segment <> SegmentLayout.ciphertext_length s
      \/ framing_error c segment (SegmentLayout.kind s) e
  | InvalidSegmentPrefix => framing_error c segment (SegmentLayout.kind s) e
  | _ => False
  end.

(** C23: [decrypt_segment] refines the specification's [decryptSegment]: it
    returns a plaintext exactly when the specification does, and every other
    segment is rejected for a reason that the error names. What it accepts is
    the specification's encryption of what it returns, at this position and of
    this kind. *)
Theorem decrypt_segment_refines (st : DecryptionState.t) (segment : bytes) (s : SegmentLayout.t)
  (Hst : decryption_wf st) (Hs : obtained s) (Hsize : slice_ok segment) :
  wp (DecryptionState.decrypt_segment segment s) st (fun r st' =>
    decryption_wf st' /\ DecryptionState.context st' = DecryptionState.context st /\
    match r with
    | Ok plaintext =>
        SegmentLayout.parameters s = DecryptionState.parameters st
        /\ zlen segment = SegmentLayout.ciphertext_length s
        /\ zlen plaintext = SegmentLayout.plaintext_length s
        /\ spec_decrypt (DecryptionState.context st) segment (SegmentLayout.position s) (SegmentLayout.kind s)
           = Some plaintext
        /\ exists nonce,
             spec_encrypt (DecryptionState.context st) nonce plaintext (SegmentLayout.position s)
               (SegmentLayout.kind s) = Some segment
    | Err e => decrypt_failure (DecryptionState.context st) s segment e
    | Halt _ => False
    end).
Proof.
  destruct (obtained_facts s Hs) as (Hv & [_ Hlt] & Hpos & _ & _ & Hct).
  unfold DecryptionState.decrypt_segment. apply wp_bind, wp_get, wp_bind, wp_lift.
  destruct (validate_ciphertext_layout_cases st (zlen segment) s)
    as [(-> & Hp & Hn)|[(-> & Hp)|(-> & Hp & Hn)]]; [|by split_and!|split_and!; try done; by left].
  eapply wp_mono; [by apply decrypt_segment_at_ok|]. intros r st' (Hst' & Hctx & Hr).
  split_and!; [done..|]. destruct r as [pt|e|h]; [| |done].
  - destruct Hr as [Hspec _]. pose proof (proj1 Hst) as Hc. destruct (valid_payload _ Hc).
    pose proof Hspec as [_ Henc]%decryptSegment_inv; [|unfold enc_seg_len, u32_max; lia].
    assert (framing_ok (DecryptionState.context st) segment (SegmentLayout.kind s) = true) as Hf.
    { unfold spec_decrypt, Spec.decryptSegment in Hspec. by destruct (Spec.framing_ok _ _ _) eqn:?. }
    pose proof (spec_decrypt_length _ _ _ _ _ Hc Hf Hspec).
    split_and!; [done..|lia|done|]. by eexists.
  - unfold open_error in Hr. destruct (framing_ok _ _ _) eqn:Hf.
    + apply layout_decrypt_error in Hr as [[_ ?]|[[-> ?]|[-> ?]]]; [lia|by split|done|done].
    + unfold framing_error in Hr. unfold decrypt_failure, framing_error.
      destruct (SegmentLayout.kind s), Hr as [[? ->]|(? & ? & ->)]; auto.
Qed.

(** The error of a segment that is not opened is determined by the segment. *)
Lemma framing_error_unique c segment kind e1 e2 :
  framing_error c segment kind e1 -> framing_error c segment kind e2 -> e1 = e2.
Proof.
  unfold framing_error. destruct kind; intros [[? ->]|(? & ? & ->)] [[? ->]|(? & ? & ->)]; done || tauto.
Qed.

Definition decryptable (st : DecryptionState.t) (segment : bytes) (s : SegmentLayout.t) : Prop :=
  decryption_wf st /\ obtained s /\ SegmentLayout.parameters s = DecryptionState.parameters st
  /\ zlen segment = SegmentLayout.ciphertext_length s.

(** The outcome that the specification prescribes, with the crate's error. *)
Definition verdict (st : DecryptionState.t) (segment : bytes) (s : SegmentLayout.t) : Result bytes :=
  match spec_decrypt (DecryptionState.context st) segment (SegmentLayout.position s) (SegmentLayout.kind s) with
  | Some plaintext => Ok plaintext
  | None =>
      match validate_segment (DecryptionState.context st) segment (SegmentLayout.kind s) with
      | Err e => Err e
      | _ => Err AuthenticationFailed
      end
  end.

Lemma decryptable_layout st segment s :
  decryptable st segment s ->
  DecryptionState.validate_ciphertext_layout st (zlen segment) s = Ok tt
  /\ validate_layout (DecryptionState.context st) s = Ok tt
  /\ in_u64 (SegmentLayout.position s) /\ 32 <= zlen segment.
Proof.
  intros (_ & Hs & Hp & Hn). destruct (obtained_facts s Hs) as (_ & _ & Hpos & Hpl & _ & Hct).
  split_and!; [| |done|lia].
  - destruct (validate_ciphertext_layout_cases st (zlen segment) s) as [(-> & _)|[(_ & ?)|(_ & _ & ?)]]; done.
  - destruct (validate_layout_cases (DecryptionState.context st) s) as [[-> _]|[_ ?]]; done.
Qed.

Lemma verdict_ok st segment s pt :
  spec_decrypt (DecryptionState.context st) segment (SegmentLayout.position s) (SegmentLayout.kind s) = Some pt ->
  verdict st segment s = Ok pt.
Proof. unfold verdict. by intros ->. Qed.

Lemma verdict_err {BT : BackendTotal} st segment s room e :
  decryptable st segment s -> zlen segment - 32 <= room ->
  open_error (DecryptionState.context st) segment (SegmentLayout.position s) (SegmentLayout.kind s) room e ->
  verdict st segment s = Err e.
Proof.
  intros (Hst & Hs & _ & _) Hroom. unfold open_error, verdict.
  pose proof (validate_segment_ok (DecryptionState.context st) segment (SegmentLayout.kind s) (proj1 Hst)) as Hv.
  destruct (framing_ok _ _ _) eqn:Hf.
  - intros [[_ ?]|[[-> ->]|[_ Hb]]]%layout_decrypt_error; [lia| |by exfalso; apply Hb|done].
    by destruct (validate_segment _ _ _) as [| |]; [|destruct Hv|].
  - intros He. assert (spec_decrypt (DecryptionState.context st) segment (SegmentLayout.position s)
      (SegmentLayout.kind s) = None) as ->
      by (unfold spec_decrypt, Spec.decryptSegment, framing_ok in *; by rewrite Hf).
    destruct (validate_segment _ _ _) as [n|e'|h]; [by destruct Hv| |done].
    f_equal. eapply framing_error_unique; [apply Hv|done].
Qed.

Lemma decrypt_segment_verdict {BT : BackendTotal} st segment s :
  decryptable st segment s -> slice_ok segment ->
  fst (DecryptionState.decrypt_segment segment s st) = verdict st segment s.
Proof.
  intros Hok Hsize. pose proof Hok as (Hst & Hs & Hp & Hn).
  destruct (decryptable_layout st segment s Hok) as (Hv & _ & Hpos & Hmin).
  unfold DecryptionState.decrypt_segment, bindM, get, lift. rewrite Hv.
  destruct (wp_run _ _ _ (decrypt_segment_at_ok st segment _ (SegmentLayout.kind s) Hst Hpos Hsize))
    as (r & st' & -> & _ & _ & Hr). cells. symmetry.
  destruct r as [pt|e|h]; [apply verdict_ok, Hr|by eapply verdict_err|done].
Qed.

Lemma decrypt_segment_into_verdict {BT : BackendTotal} st segment s out :
  decryptable st segment s -> zlen segment - 32 <= zlen out ->
  exists st' out', DecryptionState.decrypt_segment_into segment s (st, out)
      = (omap_ok zlen (verdict st segment s), (st', out'))
    /\ forall pt, verdict st segment s = Ok pt -> out' = splice out 0 pt.
Proof.
  intros Hok Hroom. pose proof Hok as (Hst & Hs & Hp & Hn).
  destruct (decryptable_layout st segment s Hok) as (Hv & _ & Hpos & Hmin).
  unfold DecryptionState.decrypt_segment_into, bindM, get, lift. cells. rewrite Hv.
  destruct (wp_run _ _ _ (decrypt_segment_into_at_ok st segment _ (SegmentLayout.kind s) out Hst Hpos))
    as (r & [st' out'] & -> & _ & _ & _ & Hr). revert Hr. cells. exists st', out'.
  destruct r as [n|e|h]; [| |done].
  - destruct Hr as (-> & _ & _ & _ & pt & Hpt%verdict_ok & <- & ->). rewrite Hpt. by split; [|intros ? [= ->]].
  - rewrite (verdict_err st segment s (zlen out) e) by done. by split.
Qed.

Lemma decrypt_segment_in_place_raw_verdict {BT : BackendTotal} st segment s rest :
  decryptable st segment s ->
  exists st' raw', DecryptionState.decrypt_segment_in_place_raw s (st, segment ++ rest)
      = (omap_ok (fun pt => (16, 16 + zlen pt)) (verdict st segment s), (st', raw'))
    /\ forall pt, verdict st segment s = Ok pt -> slice raw' 16 (16 + zlen pt) = pt.
Proof.
  intros Hok. pose proof Hok as (Hst & Hs & Hp & Hn). pose proof (zlen_nonneg rest).
  destruct (decryptable_layout st segment s Hok) as (_ & Hv & Hpos & Hmin).
  unfold DecryptionState.decrypt_segment_in_place_raw, bindM, get, lift. cells. rewrite Hv.
  rewrite <- Hn, zlen_app. replace (_ <? _) with false by lia.
  unfold zoom_range_snd. cells. rewrite range_ok_true by (rewrite ?zlen_app; lia).
  rewrite slice_app_l, slice_all by lia.
  destruct (wp_run _ _ _ (decrypt_segment_in_place_raw_at_ok st segment _ (SegmentLayout.kind s) Hst Hpos))
    as (r & [st' segment'] & -> & _ & _ & Hl & Hr). revert Hl Hr. cells. intros Hl Hr.
  destruct r as [n|e|h]; [| |done].
  - destruct Hr as (-> & _ & _ & pt & Hpt%verdict_ok & Hptl & ->). rewrite Hpt. eexists st', _.
    cbn [omap_ok]. split; [by replace (16 + zlen pt) with (zlen segment - 16) by lia|intros ? [= <-]].
    rewrite <- (app_nil_l (segment ++ rest)), splice_app_mid by (done || lia). simpl.
    rewrite slice_app_l by lia. apply slice_splice_same; lia.
  - rewrite (verdict_err st segment s (zlen segment) e) by (done || lia). eexists st', _. by split.
Qed.

Lemma decrypt_segment_in_place_verdict {BT : BackendTotal} st segment s b :
  decryptable st segment s -> wf b -> SegmentBuffer.parameters b = DecryptionState.parameters st ->
  SegmentBuffer.state b = BufferState.Ciphertext (zlen segment) ->
  SegmentBuffer.ciphertext b = Ok segment ->
  exists st' b', DecryptionState.decrypt_segment_in_place s (st, b)
      = (omap_ok (fun pt => (16, 16 + zlen pt)) (verdict st segment s), (st', b'))
    /\ (forall pt, verdict st segment s = Ok pt -> payload_of b' = pt)
    /\ (forall e, verdict st segment s = Err e -> wiped b b').
Proof.
  intros Hok Hb Hbp Hbs Hbc. pose proof Hok as (Hst & Hs & Hp & Hn).
  rewrite (ciphertext_ok _ _ Hb Hbs) in Hbc. injection Hbc as Hseg.
  pose proof Hb as [Hv Hlen Hstate]. rewrite Hbs in Hstate. destruct (valid_payload _ Hv).
  pose proof u32_le_usize.
  destruct (wp_run _ _ _ (decrypt_segment_in_place_operation_ok st b s segment Hst Hs Hbs Hseg Hbp Hp Hn))
    as (r & [st' b'] & Hop & _ & _ & Hl & Hpar & Hr).
  revert Hl Hpar Hr. cells. intros Hl Hpar Hr.
  unfold DecryptionState.decrypt_segment_in_place, SegmentBuffer.decrypt_with, matchM. rewrite Hop.
  destruct r as [m|e|h]; [| |done].
  - destruct Hr as (-> & _ & pt & Hpt%verdict_ok & Hptl & Hslice). rewrite Hpt.
    unfold bindM, zoom, modify, lift. cells. rewrite usize_ok by flia.
    floe_consts. rewrite borrow_ok by (cbn [SegmentBuffer.storage SegmentBuffer.set_state]; lia).
    eexists _, _. split; [cbn [omap_ok]; by rewrite Hptl|]. split; [|done]. intros ? [= <-]. exact Hslice.
  - rewrite (verdict_err st segment s (zlen segment) e) by (done || lia).
    unfold bindM, zoom. cells. destruct (wp_run _ _ _ (clear_wiped (E := Error) b')) as (r & b2 & -> & -> & Hw).
    eexists _, _. split; [done|]. split; [done|]. intros ? _. destruct Hw as (? & Hz & ?).
    rewrite Hl in Hz. split_and!; [done|done|congruence].
Qed.

(** C27: the four ways to decrypt a segment - into a new vector, into a caller's
    output, in caller-managed storage and in a segment buffer - give the
    outcome of the specification: the same plaintext, or the same error for a
    segment with bad framing or a failed authentication. A failure wipes the
    buffer. *)
Theorem decryption_paths_agree {BT : BackendTotal} (st : DecryptionState.t) (segment : bytes)
  (s : SegmentLayout.t) (out rest : bytes) (b : SegmentBuffer.t)
  (Hok : decryptable st segment s) (Hsize : slice_ok segment)
  (Hout : zlen segment - 32 <= zlen out)
  (Hb : wf b) (Hbp : SegmentBuffer.parameters b = DecryptionState.parameters st)
  (Hbs : SegmentBuffer.state b = BufferState.Ciphertext (zlen segment))
  (Hbc : SegmentBuffer.ciphertext b = Ok segment) :
  fst (DecryptionState.decrypt_segment segment s st) = verdict st segment s
  /\ (exists st' out', DecryptionState.decrypt_segment_into segment s (st, out)
        = (omap_ok zlen (verdict st segment s), (st', out'))
      /\ forall pt, verdict st segment s = Ok pt -> out' = splice out 0 pt)
  /\ (exists st' raw', DecryptionState.decrypt_segment_in_place_raw s (st, segment ++ rest)
        = (omap_ok (fun pt => (16, 16 + zlen pt)) (verdict st segment s), (st', raw'))
      /\ forall pt, verdict st segment s = Ok pt -> slice raw' 16 (16 + zlen pt) = pt)
  /\ (exists st' b', DecryptionState.decrypt_segment_in_place s (st, b)
        = (omap_ok (fun pt => (16, 16 + zlen pt)) (verdict st segment s), (st', b'))
      /\ (forall pt, verdict st segment s = Ok pt -> payload_of b' = pt)
      /\ (forall e, verdict st segment s = Err e -> wiped b b')).
Proof.
  split_and!.
  - by apply decrypt_segment_verdict.
  - by apply decrypt_segment_into_verdict.
  - by apply decrypt_segment_in_place_raw_verdict.
  - by apply decrypt_segment_in_place_verdict.
Qed.

(** ** Round trip and cleanup *)

(** C25: a segment that any encryption state sealed is opened by any decryption
    state with the same message secrets and parameters, under the same layout,
    to the plaintext it was made from; providers and key caches may differ. *)
Theorem segment_roundtrip {BT : BackendTotal} (est est' : EncryptionState.t) (dst : DecryptionState.t)
  (plaintext segment : bytes) (s : SegmentLayout.t)
  (Hest : encryption_wf est) (Hdst : decryption_wf dst) (Hs : obtained s)
  (Hsecrets : spec_state (DecryptionState.context dst) = spec_state (EncryptionState.context est))
  (Hpars : DecryptionState.parameters dst = EncryptionState.parameters est)
  (Hsize : zlen plaintext + 32 <= isize_max)
  (Henc : EncryptionState.encrypt_segment plaintext s est = (Ok segment, est')) :
  fst (DecryptionState.decrypt_segment segment s dst) = Ok plaintext.
Proof.
  pose proof (encrypt_segment_ok est plaintext s Hest Hs Hsize) as H. unfold wp in H. rewrite Henc in H.
  revert H. cells. intros (_ & _ & Hp & Hn & nonce & _ & Hnonce & Hspec & Hlen).
  destruct (obtained_facts s Hs) as (_ & _ & _ & _ & _ & Hct).
  rewrite decrypt_segment_verdict;
    [|refine (conj Hdst (conj Hs (conj _ _))); [congruence|lia]|unfold slice_ok; lia].
  apply verdict_ok. destruct (valid_payload _ (proj1 Hdst)).
  unfold spec_decrypt, spec_encrypt in *. rewrite Hsecrets.
  replace (enc_seg_len (DecryptionState.context dst)) with (enc_seg_len (EncryptionState.context est))
    by (unfold enc_seg_len; f_equal; symmetry; exact Hpars).
  eapply decryptSegment_encryptSegment; [|done|done].
  destruct (valid_payload _ (proj1 Hest)). unfold enc_seg_len, u32_max. lia.
Qed.

(** The errors with which the buffered encryption refuses work before it
    touches the buffer. *)
Definition refusal (st : EncryptionState.t) (b : SegmentBuffer.t) (s : SegmentLayout.t) (e : Error) : Prop :=
  match e with
  | InvalidBufferState => forall n, SegmentBuffer.state b <> BufferState.Plaintext n
  | InvalidParameters =>
      SegmentLayout.parameters s <> EncryptionState.parameters st
      \/ SegmentBuffer.parameters b <> EncryptionState.parameters st
  | InvalidPlaintextLength actual required =>
      SegmentBuffer.state b = BufferState.Plaintext actual
      /\ required = Exactly (SegmentLayout.plaintext_length s) /\ actual <> SegmentLayout.plaintext_length s
  | _ => False
  end.

Lemma encrypt_segment_in_place_failure st b s e s' :
  encryption_wf st -> wf b -> obtained s ->
  EncryptionState.encrypt_segment_in_place s (st, b) = (Err e, s') ->
  (refusal st b s e /\ s' = (st, b))
  \/ ((e = RngFailure \/ e = CryptoFailure) /\ backend_fails /\ wiped b (snd s')).
Proof.
  intros Hst Hb Hs. unfold EncryptionState.encrypt_segment_in_place, bindM, get, lift. cells.
  destruct (obtained_facts s Hs) as (_ & _ & Hpos & _).
  unfold SegmentBuffer.plaintext_length at 1.
  destruct (SegmentBuffer.state b) as [|n|n] eqn:Hbs.
  1,3: intros [= <- <-]; left; split; [intros ?; congruence|done].
  destruct (validate_plaintext_layout_cases st n s) as [(-> & Hp & Hn)|[(-> & Hp)|(-> & Hp & Hn)]].
  2: { intros [= <- <-]. left. split; [by left|done]. }
  2: { intros [= <- <-]. by left. }
  destruct (decide (SegmentBuffer.parameters b = EncryptionState.parameters st)) as [Hbp|Hbp].
  - intros E. pose proof (encrypt_segment_in_place_at_ok st b _ (SegmentLayout.kind s) n Hst Hb Hpos Hbs Hbp) as H.
    unfold wp in H. rewrite E in H. destruct H as (_ & _ & _ & _ & He & Hw). right.
    pose proof Hb as [Hval Hlen Hstate]. destruct (valid_payload _ Hval). rewrite Hbs in Hstate.
    eapply layout_encrypt_error in He as [[_ ?]|[? ?]]; [lia|by split_and!|done..].
  - unfold EncryptionState.encrypt_segment_in_place_at, bindM, get, SegmentBuffer.matches. cells.
    rewrite bool_decide_false by done. cbn [negb]. intros [= <- <-]. left. split; [by right|done].
Qed.

(** Whatever the buffer holds, the operation keeps its size and gives a length
    inside it. *)
Lemma decrypt_segment_operation_kept st b s :
  decryption_wf st -> wf b -> obtained s ->
  wp (DecryptionState.decrypt_segment_in_place_operation s) (st, b) (kept b).
Proof.
  intros Hst Hb Hs. pose proof Hb as [Hv Hlen Hstate]. destruct (valid_payload _ Hv).
  destruct (SegmentBuffer.state b) as [|n|n] eqn:Hbs.
  1,2: unfold DecryptionState.decrypt_segment_in_place_operation, wp, bindM, get, lift, SegmentBuffer.ciphertext_length;
       cells; by rewrite Hbs.
  destruct (validate_ciphertext_layout_cases st n s) as [(Hvl & Hp & Hn)|Hvl].
  2: { unfold DecryptionState.decrypt_segment_in_place_operation, wp, bindM, get, lift, SegmentBuffer.ciphertext_length.
       cells. rewrite Hbs. by destruct Hvl as [(-> & _)|(-> & _)]. }
  destruct (decide (SegmentBuffer.parameters b = DecryptionState.parameters st)) as [Hbp|Hbp].
  - assert (zlen (ztake n (SegmentBuffer.storage b)) = n) as Hzn by (rewrite zlen_ztake; lia).
    eapply wp_mono; [apply (decrypt_segment_in_place_operation_ok st b s (ztake n (SegmentBuffer.storage b)));
                     rewrite ?Hzn; done|].
    intros r [st' b'] (_ & _ & ? & ? & Hr). split_and!; [done..|]. destruct r as [m|e|h]; [|done..].
    destruct Hr as (-> & _). rewrite Hzn. lia.
  - unfold DecryptionState.decrypt_segment_in_place_operation, wp, bindM, get, lift, SegmentBuffer.ciphertext_length.
    cells. rewrite Hbs, Hvl. unfold SegmentBuffer.matches. by rewrite bool_decide_false by done.
Qed.

Lemma decrypt_segment_in_place_failure st b s e s' :
  decryption_wf st -> wf b -> obtained s ->
  DecryptionState.decrypt_segment_in_place s (st, b) = (Err e, s') -> wiped b (snd s').
Proof.
  intros Hst Hb Hs E.
  pose proof (decrypt_with_ok _ st b Hb (decrypt_segment_operation_kept st b s Hst Hb Hs)) as H.
  unfold DecryptionState.decrypt_segment_in_place in E. unfold wp in H. rewrite E in H. apply H.
Qed.

(** C28: what a failing in-place call leaves in a segment buffer. An encryption
    that is refused - the buffer holds no plaintext, of another length or for
    other parameters, as the error says - leaves buffer and state as they were,
    so that the caller keeps the plaintext; the only other errors are those of
    a failing backend, and they leave the buffer empty with every byte zero. A
    decryption that fails, for any reason, leaves it empty with every byte zero. *)
Theorem in_place_failures (est : EncryptionState.t) (dst : DecryptionState.t) (b : SegmentBuffer.t)
  (s : SegmentLayout.t) (Hest : encryption_wf est) (Hdst : decryption_wf dst) (Hb : wf b) (Hs : obtained s) :
  (forall e s', EncryptionState.encrypt_segment_in_place s (est, b) = (Err e, s') ->
     (refusal est b s e /\ s' = (est, b))
     \/ ((e = RngFailure \/ e = CryptoFailure) /\ backend_fails /\ wiped b (snd s')))
  /\ (forall e s', DecryptionState.decrypt_segment_in_place s (dst, b) = (Err e, s') -> wiped b (snd s')).
Proof.
  split; intros e s' H; [by eapply encrypt_segment_in_place_failure|by eapply decrypt_segment_in_place_failure].
Qed.

End Segments.

(** ** Nonces and keys *)

Section Discipline.
Context {T : Target} {P : Primitives} {POk : PrimitivesOk} {B : Backend} {BOk : BackendOk}.

(** [n] calls of [NonceGenerator::next]. *)
Fixpoint draw (n : nat) : M Error NonceGenerator.t (list bytes) :=
  match n with
  | O => ret []
  | S n =>
      let! nonce := NonceGenerator.next in
      let! nonces := draw n in
      ret (nonce :: nonces)
  end.

(** What the provider's generator writes in [k] successive fills. *)
Fixpoint batches (k : nat) (cells : ProviderRng * bytes) : bytes :=
  match k with
  | O => []
  | S k => let cells' := snd (ProviderRng_fill cells) in snd cells' ++ batches k cells'
  end.

(** The bytes a generator has left in its batch, then those of [k] refills. *)
Definition stream (k : nat) (g : NonceGenerator.t) : bytes :=
  zdrop (NonceGenerator.next_index g) (NonceGenerator.batch g)
    ++ batches k (NonceGenerator.rng g, NonceGenerator.batch g).

Lemma cut_stream g nonce g' k :
  nonces_wf g -> NonceGenerator.next_index g < 3072 -> cut g = (Ok nonce, g') ->
  stream k g = nonce ++ stream k g'.
Proof.
  intros (Hl & Hn & Hm) Hlt [= <- <-]. pose proof (Z.div_mod (NonceGenerator.next_index g) 12).
  unfold stream. cbn [NonceGenerator.batch NonceGenerator.rng NonceGenerator.next_index NonceGenerator.set_next].
  rewrite app_assoc. f_equal. rewrite <- !slice_to_end by lia. by rewrite slice_concat by lia.
Qed.

(** A nonce is the head of the stream, after at most one refill. *)
Lemma next_stream g nonce g' :
  nonces_wf g -> NonceGenerator.next g = (Ok nonce, g') ->
  zlen nonce = 12 /\ nonces_wf g' /\ exists fills, (fills <= 1)%nat
    /\ forall k, stream (fills + k) g = nonce ++ stream k g'.
Proof.
  intros Hwf Hnext. pose proof (next_ok g Hwf) as Hok. unfold wp in Hok. rewrite Hnext in Hok.
  destruct Hok as (Hwf' & Hlen & _). split_and!; [done|done|]. pose proof Hwf as (Hl & Hn & _).
  destruct (decide (NonceGenerator.next_index g = 3072)) as [He|He].
  - exists 1%nat. split; [done|]. intros k.
    destruct (next_at_end g Hwf He) as [(_ & Hwf2 & H0 & Hc)|(_ & _ & _ & Hc)]; rewrite Hc in Hnext; [|done].
    rewrite <- (cut_stream (snd (refilled g)) nonce g' k Hwf2) by (done || lia).
    unfold stream. rewrite He, H0, zdrop_all, zdrop_le0 by lia. unfold refilled. cbn [batches app Nat.add].
    by destruct (ProviderRng_fill _) as [r [rng out]].
  - exists 0%nat. split; [lia|]. rewrite next_in_batch in Hnext by (done || lia).
    intros k. apply cut_stream; [done|lia|done].
Qed.

(** C29: the nonces of a state are consecutive 12-byte blocks of its generator's
    output, in order: what a generator hands out, followed by what it can hand
    out next, is the output it had before. So no block is used for two nonces
    and none is skipped, across refills of the batch. *)
Theorem nonces_consume_stream_in_order (n : nat) (g g' : NonceGenerator.t) (nonces : list bytes)
  (Hg : nonces_wf g) (H : draw n g = (Ok nonces, g')) :
  length nonces = n /\ Forall (fun nonce => zlen nonce = AEAD_IV_LENGTH) nonces /\ nonces_wf g'
  /\ exists fills, (fills <= n)%nat
       /\ forall k, stream (fills + k) g = concat nonces ++ stream k g'.
Proof.
  revert g nonces Hg H. induction n as [|n IH]; intros g nonces Hg H; cbn [draw] in H.
  - injection H as <- <-. split_and!; try done. exists 0%nat. by split.
  - apply bindM_inv_ok in H as (nonce & g1 & Hnext & (rest & g2 & Hrest & [= <- <-])%bindM_inv_ok).
    destruct (next_stream g nonce g1 Hg Hnext) as (Hlen & Hg1 & f1 & Hf1 & Hs1).
    destruct (IH g1 rest Hg1 Hrest) as (<- & Hall & Hg2 & f2 & Hf2 & Hs2).
    split_and!; [done|by constructor|done|].
    exists (f1 + f2)%nat. split; [simpl; lia|]. intros k.
    rewrite <- Nat.add_assoc, Hs1, Hs2. cbn [concat]. by rewrite app_assoc.
Qed.

(** The keys a state uses for a sequence of positions. *)
Fixpoint keys_for (c : MessageContext.t) (positions : list Z) : M Error KeyCache.t (list AeadKey) :=
  match positions with
  | [] => ret []
  | position :: positions =>
      let! key := KeyCache.key_for_position c position in
      let! keys := keys_for c positions in
      ret (key :: keys)
  end.

(** C30: the key cache is invisible. Whatever it holds and in whatever order
    positions are visited, each gets the key that the specification's
    [DERIVE_KEY] gives; a position from 2^40 on is refused. *)
Theorem key_cache_transparent (c : MessageContext.t) (positions : list Z) (cache : KeyCache.t)
  (Hpos : Forall in_u64 positions) (Hcache : cache_wf c cache) :
  wp (keys_for c positions) cache (fun r cache' =>
    cache_wf c cache' /\
    match r with
    | Ok keys =>
        Forall (fun position => position < AEAD_MAX_SEGMENTS) positions
        /\ map key_material keys
           = map (Spec.DERIVE_KEY (enc_seg_len c) (Spec.MessageKey (spec_state c)) (Spec.iv (spec_state c))
                    (Spec.aad (spec_state c))) positions
    | Err e => e = SegmentLimit /\ Exists (fun position => AEAD_MAX_SEGMENTS <= position) positions
        \/ (e = CryptoFailure /\ backend_fails)
    | Halt _ => False
    end).
Proof.
  revert cache Hcache. induction Hpos as [|position positions Hpos _ IH]; intros cache Hcache; cbn [keys_for].
  { by apply wp_ret. }
  apply wp_bind. eapply wp_mono; [by apply key_for_position_ok|]. intros r cache1 [Hcache1 Hr].
  destruct r as [key|e|h]; [| |done].
  2: { destruct Hr as [Hr ->]. split; [done|]. destruct e; simpl in Hr; try done.
       - left. split; [done|]. by apply Exists_cons_hd.
       - right. split; [done|]. apply Hr. }
  destruct Hr as [Hlt Hkey]. apply wp_bind. eapply wp_mono; [by apply IH|]. intros r cache2 [Hcache2 Hr].
  destruct r as [keys|e|h]; [| |done].
  - apply wp_ret. destruct Hr as [Hall Hmap]. split_and!; [done|by constructor|].
    cbn [map]. by rewrite Hkey, Hmap.
  - split; [done|]. destruct Hr as [[-> ?]|?]; [left; split; [done|by right]|by right].
Qed.

End Discipline.

(** ** Witnesses *)

Module Examples.

(** The states of one message in 64-byte segments, sealed with aws-lc-rs and
    opened with ring. *)
Definition context (p : Provider.t) : MessageContext.t :=
  MessageContext.new p Parameters.SEGMENT_64_B (SecretBytes.mk (zeros 48)) (zeros 32) [byte_of_Z 9].

Definition encryption : EncryptionState.t :=
  EncryptionState.mk (context Provider.AWS_LC_RS) KeyCache.empty
    (NonceGenerator.new (B := Reference.backend) 5).

Definition decryption : DecryptionState.t :=
  DecryptionState.mk (context Provider.RING) KeyCache.empty.

(** The last segment of a message of 100 bytes: 4 bytes at position 3. *)
Definition segment : SegmentLayout.t := segment_of example_layout 3.
Definition plaintext : bytes := map byte_of_Z [1; 2; 3; 4].
Definition ciphertext : bytes :=
  match fst (EncryptionState.encrypt_segment (T := target64) plaintext segment encryption) with
  | Ok c => c
  | _ => []
  end.

(** A header, and the state that made it. *)
Definition key : Key.t := Key.from_bytes (Reference.fill 1 32).
Definition started : Result (EncryptionState.t * Header.t) :=
  start_encryption (7 : Entropy) key [byte_of_Z 9] Parameters.SEGMENT_64_B.
Definition header : Header.t :=
  match started with Ok s => snd s | _ => Header.mk [] end.

(** Buffers that hold the plaintext and the ciphertext. *)
Definition plaintext_buffer : SegmentBuffer.t :=
  SegmentBuffer.mk Parameters.SEGMENT_64_B (splice (zeros 64) 16 plaintext) (BufferState.Plaintext 4).
Definition ciphertext_buffer (c : bytes) : SegmentBuffer.t :=
  SegmentBuffer.mk Parameters.SEGMENT_64_B (splice (zeros 64) 0 c) (BufferState.Ciphertext (zlen c)).

Lemma segment_obtained : obtained (T := target64) segment.
Proof.
  exists example_layout, 3. split_and!; [apply example_layout_produced|done|by vm_compute].
Qed.

Lemma encryption_ok : encryption_wf (BOk := Reference.backend_ok) encryption.
Proof. split_and!; done. Qed.

Lemma decryption_ok : decryption_wf (BOk := Reference.backend_ok) decryption.
Proof. split_and!; done. Qed.

Lemma plaintext_buffer_ok : wf plaintext_buffer.
Proof. split; vm_compute; split; congruence. Qed.

Lemma ciphertext_buffer_ok c : 32 <= zlen c <= 64 -> wf (ciphertext_buffer c).
Proof.
  intros. split; [done| |done]. cbn [ciphertext_buffer SegmentBuffer.storage].
  rewrite zlen_splice; rewrite ?zlen_zeros; done || lia.
Qed.

Lemma size_ok : zlen plaintext + 32 <= isize_max (T := target64).
Proof. by vm_compute. Qed.

Lemma encryptable_example : encryptable (T := target64) (BOk := Reference.backend_ok) encryption plaintext segment.
Proof. refine (conj encryption_ok (conj segment_obtained (conj _ _))); by vm_compute. Qed.

Lemma decryptable_example c : zlen c = 36 -> decryptable (T := target64) (BOk := Reference.backend_ok) decryption c segment.
Proof. intros Hc. refine (conj decryption_ok (conj segment_obtained (conj _ _))); [done|by rewrite Hc]. Qed.

End Examples.

Lemma message_start_roundtrip_witness :
  exists st h, Examples.started = Ok (st, h)
    /\ resumes (EncryptionState.context st) Examples.key
         (start_decryption Examples.key [byte_of_Z 9] Parameters.SEGMENT_64_B h).
Proof.
  destruct Examples.started as [[st h]|e|x] eqn:E; [|settle E..].
  exists st, h. split; [done|].
  exact (proj1 (proj2 (proj2 (proj2
    (message_start_roundtrip (7 : Entropy) Examples.key Examples.key [byte_of_Z 9] Parameters.SEGMENT_64_B
       st h ltac:(done) E eq_refl))))).
Defined.

Lemma start_decryption_refines_witness :
  exists st, start_decryption Examples.key [byte_of_Z 9] Parameters.SEGMENT_64_B Examples.header = Ok st
    /\ decryption_wf st.
Proof.
  destruct (start_decryption_refines Examples.key [byte_of_Z 9] Parameters.SEGMENT_64_B Examples.header
              ltac:(done) ltac:(by vm_compute)) as [H _].
  destruct (start_decryption Examples.key [byte_of_Z 9] Parameters.SEGMENT_64_B Examples.header) as [st|e|x] eqn:E;
    [|settle E..].
  exists st. split; [done|]. exact (proj1 H).
Defined.

Lemma encrypt_segment_refines_witness :
  exists segment st', EncryptionState.encrypt_segment (T := target64) Examples.plaintext Examples.segment Examples.encryption
      = (Ok segment, st') /\ zlen segment = 36.
Proof.
  pose proof (encrypt_segment_refines (T := target64) Examples.encryption Examples.plaintext Examples.segment
                Examples.encryption_ok Examples.segment_obtained Examples.size_ok) as H.
  destruct (wp_run _ _ _ H) as (r & st' & E & _ & _ & Hr).
  destruct r as [segment|e|h]; [|settle E..].
  exists segment, st'. split; [exact E|]. exact (proj1 (proj2 (proj2 Hr))).
Defined.

Lemma encryption_paths_agree_witness :
  exists segment st1 st2,
    EncryptionState.encrypt_segment (T := target64) Examples.plaintext Examples.segment Examples.encryption = (Ok segment, st1)
    /\ EncryptionState.encrypt_segment_into (T := target64) Examples.plaintext Examples.segment
         (Examples.encryption, zeros 40) = (Ok (zlen segment), (st2, splice (zeros 40) 0 segment)).
Proof.
  destruct (encryption_paths_agree (T := target64) Examples.encryption Examples.plaintext Examples.segment
              (zeros 40) (splice (zeros 50) 16 Examples.plaintext) Examples.plaintext_buffer
              Examples.encryptable_example Examples.size_ok ltac:(by vm_compute) ltac:(by vm_compute)
              ltac:(by vm_compute) Examples.plaintext_buffer_ok eq_refl eq_refl ltac:(by vm_compute))
    as (segment & st1 & st2 & _ & _ & _ & H1 & H2 & _).
  by exists segment, st1, st2.
Defined.

Lemma decrypt_segment_refines_witness :
  exists plaintext st', DecryptionState.decrypt_segment (T := target64) Examples.ciphertext Examples.segment Examples.decryption
      = (Ok plaintext, st') /\ zlen plaintext = 4.
Proof.
  pose proof (decrypt_segment_refines (T := target64) Examples.decryption Examples.ciphertext Examples.segment
                Examples.decryption_ok Examples.segment_obtained ltac:(by vm_compute)) as H.
  destruct (wp_run _ _ _ H) as (r & st' & E & _ & _ & Hr).
  destruct r as [plaintext|e|h]; [|settle E..].
  exists plaintext, st'. split; [exact E|]. exact (proj1 (proj2 (proj2 Hr))).
Defined.

Lemma decryption_paths_agree_witness :
  fst (DecryptionState.decrypt_segment (T := target64) (zeros 36) Examples.segment Examples.decryption)
    = verdict (T := target64) Examples.decryption (zeros 36) Examples.segment
  /\ verdict (T := target64) Examples.decryption (zeros 36) Examples.segment
    = Err (InvalidCiphertextLength 36 (Exactly 0)).
Proof.
  split; [|by vm_compute].
  exact (proj1 (decryption_paths_agree (T := target64) Examples.decryption (zeros 36) Examples.segment
    (zeros 4) [] (Examples.ciphertext_buffer (zeros 36)) (Examples.decryptable_example (zeros 36) eq_refl)
    ltac:(by vm_compute) ltac:(by vm_compute) (Examples.ciphertext_buffer_ok (zeros 36) ltac:(by vm_compute)) eq_refl eq_refl ltac:(by vm_compute))).
Defined.

Lemma segment_roundtrip_witness :
  fst (DecryptionState.decrypt_segment (T := target64) Examples.ciphertext Examples.segment Examples.decryption)
    = Ok Examples.plaintext.
Proof.
  apply (segment_roundtrip (T := target64) Examples.encryption
           (snd (EncryptionState.encrypt_segment (T := target64) Examples.plaintext Examples.segment Examples.encryption))
           Examples.decryption Examples.plaintext Examples.ciphertext Examples.segment
           Examples.encryption_ok Examples.decryption_ok Examples.segment_obtained eq_refl eq_refl Examples.size_ok).
  rewrite (surjective_pairing (EncryptionState.encrypt_segment _ _ _)) at 1. f_equal.
Defined.

Lemma in_place_failures_witness :
  exists s', DecryptionState.decrypt_segment_in_place (T := target64) Examples.segment
      (Examples.decryption, Examples.plaintext_buffer) = (Err InvalidBufferState, s')
    /\ wiped Examples.plaintext_buffer (snd s').
Proof.
  destruct (DecryptionState.decrypt_segment_in_place (T := target64) Examples.segment
      (Examples.decryption, Examples.plaintext_buffer)) as [r s'] eqn:E.
  assert (r = Err InvalidBufferState) as -> by (apply (f_equal fst) in E; vm_compute in E; done).
  exists s'. split; [done|].
  exact (proj2 (in_place_failures (T := target64) Examples.encryption Examples.decryption
    Examples.plaintext_buffer Examples.segment Examples.encryption_ok Examples.decryption_ok
    Examples.plaintext_buffer_ok Examples.segment_obtained) _ _ E).
Defined.

Lemma nonces_consume_stream_in_order_witness :
  exists nonces g', draw (T := target64) 300 (NonceGenerator.new (B := Reference.backend) 5) = (Ok nonces, g')
    /\ length nonces = 300%nat /\ nth 256 nonces [] = Reference.fill 3077 12.
Proof.
  destruct (draw (T := target64) 300 (NonceGenerator.new (B := Reference.backend) 5)) as [r g'] eqn:E.
  destruct r as [nonces|e|h]; [|settle E..].
  destruct (nonces_consume_stream_in_order (T := target64) (BOk := Reference.backend_ok) 300 _ g' nonces
              (nonces_wf_new _) E) as (Hl & _).
  exists nonces, g'. split_and!; [done|done|].
  apply (f_equal fst) in E. vm_compute in E. injection E as <-. by vm_compute.
Defined.

Lemma key_cache_transparent_witness :
  exists keys cache', keys_for (Examples.context Provider.RING) [0; 3000000; 1] KeyCache.empty = (Ok keys, cache')
    /\ map key_material keys
       = map (Spec.DERIVE_KEY 64 (zeros 48) (zeros 32) [byte_of_Z 9]) [0; 3000000; 1].
Proof.
  assert (Hpos : Forall in_u64 [0; 3000000; 1]) by (repeat constructor; done).
  destruct (wp_run _ _ _ (key_cache_transparent (BOk := Reference.backend_ok) (Examples.context Provider.RING)
              [0; 3000000; 1] KeyCache.empty Hpos I)) as (r & cache' & E & _ & Hr).
  destruct r as [keys|e|h]; [|settle E..].
  exists keys, cache'. split; [exact E|]. exact (proj2 Hr).
Defined.
