(* ===== verification/StdIo.v ===== *)
(** * [std::io], as the adapters use it

    I/O errors, the [Read], [Write] and [Seek] traits as classes, the standard
    [write_all], and what the documentation of the traits promises. The wrapped
    readers and writers are the caller's code: a type [R] with an instance of
    [Read], of which only [ReadOk] is assumed. *)

From stdpp Require Import strings.
From S2P Require Import Prelude Error.

(** ** Errors *)

Module ErrorKind.

(** The kinds the crate creates or matches on; [Unnamed] stands for the others. *)
Inductive t :=
| Interrupted
| InvalidData
| InvalidInput
| BrokenPipe
| WriteZero
| Other
| Unnamed (code : Z).

#[global] Instance t_eq_dec : EqDecision t.
Proof. solve_decision. Defined.

End ErrorKind.

Module IoError.

(** What an [io::Error] carries: an error of the crate, a message, or something
    of the wrapped reader or writer. *)
Inductive payload :=
| Floe (error : Error)
| Text (message : string)
| Foreign (code : Z).

Record t := new {
  kind : ErrorKind.t;
  carried : payload
}.

Definition other (carried : payload) : t := new ErrorKind.Other carried.

#[global] Instance payload_eq_dec : EqDecision payload.
Proof. solve_decision. Defined.

#[global] Instance t_eq_dec : EqDecision t.
Proof. solve_decision. Defined.

End IoError.

(** [Error::io_source]. *)
Definition io_source (error : IoError.t) : option Error :=
  match IoError.carried error with
  | IoError.Floe source => Some source
  | _ => None
  end.

(** [io::Result], and a method with [&mut] arguments of type [S]. *)
Abbreviation IoResult := (outcome IoError.t).
Abbreviation IO := (M IoError.t).

(** ** Readers *)

(** [Read::read] on the reader and the caller's buffer. *)
Class Read (R : Type) := { read : IO (R * bytes) Z }.

(** What the documentation of [Read] states: the number of bytes read is at most
    the length of the buffer and they are the next ones; [Ok(0)] on a buffer
    that is not empty means the end; an error consumes nothing. A reader has
    some bytes that remain, and is interrupted finitely often. *)
Class ReadOk (R : Type) `{Read R} := {
  remaining : R -> bytes;
  patience : R -> nat;
  (** the errors that the reader may report *)
  read_failure : IoError.t -> Prop;
  read_promise r out :
    wp read (r, out) (fun res s =>
      zlen (snd s) = zlen out /\
      match res with
      | Ok n => 0 <= n <= zlen out
          /\ remaining r = ztake n (snd s) ++ remaining (fst s)
          /\ (patience (fst s) <= patience r)%nat
          /\ (n = 0 -> out = [] \/ remaining r = [])
      | Err e => remaining (fst s) = remaining r
          /\ (patience (fst s) <= patience r)%nat
          /\ (IoError.kind e = ErrorKind.Interrupted -> (patience (fst s) < patience r)%nat)
          /\ (IoError.kind e <> ErrorKind.Interrupted -> read_failure e)
      | Halt _ => False
      end)
}.

(** ** Seeking *)

(** [SeekFrom]: an offset is a [u64], a distance an [i64]. *)
Module SeekFrom.

Inductive t :=
| Start (offset : Z)
| End_ (delta : Z)
| Current (delta : Z).

(** The target, in a stream of the given length, from the given position. *)
Definition target (self : t) (position length : Z) : Z :=
  match self with
  | Start offset => offset
  | End_ delta => length + delta
  | Current delta => position + delta
  end.

End SeekFrom.

(** [Seek::seek] and [Seek::stream_position]. *)
Class Seek (R : Type) := {
  seek : SeekFrom.t -> IO R Z;
  stream_position : IO R Z
}.

(** A reader that seeks is over a source of some bytes, which do not change, at
    some position: what remains is what follows the position, reading advances
    it, and a seek that succeeds moves it to its target. After a failed seek the
    position is anywhere. *)
Class SeekOk (R : Type) `{ReadOk R} `{Seek R} := {
  contents : R -> bytes;
  position : R -> Z;
  seek_failure : IoError.t -> Prop;
  remaining_contents r : remaining r = zdrop (position r) (contents r);
  read_position r out :
    wp read (r, out) (fun res s =>
      contents (fst s) = contents r
      /\ position (fst s) = position r + (match res with Ok n => n | _ => 0 end));
  seek_promise target r :
    wp (seek target) r (fun res r' =>
      contents r' = contents r /\ (patience r' <= patience r)%nat
      /\ match res with
      | Ok n => n = position r' /\ n = SeekFrom.target target (position r) (zlen (contents r)) /\ in_u64 n
      | Err e => seek_failure e
      | Halt _ => False
      end);
  stream_position_promise r :
    wp stream_position r (fun res r' =>
      contents r' = contents r /\ (patience r' <= patience r)%nat
      /\ match res with
      | Ok n => n = position r /\ position r' = position r /\ in_u64 n
      | Err e => seek_failure e
      | Halt _ => False
      end)
}.

(** ** Writers *)

(** [Write::write] and [Write::flush]. *)
Class Write (W : Type) := {
  write : bytes -> IO W Z;
  flush : IO W unit
}.

(** The same for writers: an error has written nothing. *)
Class WriteOk (W : Type) `{Write W} := {
  written : W -> bytes;
  write_patience : W -> nat;
  write_failure : IoError.t -> Prop;
  write_promise input w :
    wp (write input) w (fun res w' =>
      match res with
      | Ok n => 0 <= n <= zlen input
          /\ written w' = written w ++ ztake n input
          /\ (write_patience w' <= write_patience w)%nat
      | Err e => written w' = written w
          /\ (write_patience w' <= write_patience w)%nat
          /\ (IoError.kind e = ErrorKind.Interrupted -> (write_patience w' < write_patience w)%nat)
          /\ (IoError.kind e <> ErrorKind.Interrupted -> write_failure e)
      | Halt _ => False
      end);
  flush_promise w :
    wp flush w (fun res w' =>
      written w' = written w /\ (write_patience w' <= write_patience w)%nat
      /\ match res with Ok _ => True | Err e => write_failure e | Halt _ => False end)
}.

Definition write_zero : IoError.t :=
  IoError.new ErrorKind.WriteZero (IoError.Text "failed to write whole buffer"%string).

Section WriteAll.
Context {W : Type} {WW : Write W}.

(** [Write::write_all]: the default method of the trait. *)
Fixpoint write_all (fuel : nat) (input : bytes) : IO W unit :=
  match fuel with
  | O => halted OutOfFuel
  | S fuel =>
      if zlen input =? 0 then ret tt
      else
        matchM (write input)
          (fun n =>
            if n =? 0 then fail write_zero
            else
              let? rest := index input n (zlen input) in
              write_all fuel rest)
          (fun e =>
            if bool_decide (IoError.kind e = ErrorKind.Interrupted) then write_all fuel input
            else fail e)
  end.

(** With enough fuel everything is written, or a prefix when the writer fails. *)
Lemma write_all_ok {WOk : WriteOk W} fuel : forall input w,
  (length input + write_patience w < fuel)%nat ->
  wp (write_all fuel input) w (fun r w' =>
    (write_patience w' <= write_patience w)%nat /\
    match r with
    | Ok _ => written w' = written w ++ input
    | Err e => (write_failure e \/ e = write_zero)
        /\ exists n, written w' = written w ++ ztake n input
    | Halt _ => False
    end).
Proof.
  induction fuel as [|fuel IH]; intros input w Hfuel; [lia|]. cbn [write_all].
  destruct (Z.eqb_spec (zlen input) 0) as [Hz|Hz].
  { apply zlen_0_nil in Hz as ->. apply wp_ret. split; [lia|]. by rewrite app_nil_r. }
  apply wp_match. eapply wp_mono; [apply write_promise|]. intros [n|e|h] w' H; [| |done].
  - destruct H as (Hn & Hw & Hp). destruct (Z.eqb_spec n 0) as [->|Hn0].
    { apply wp_fail. split; [lia|]. split; [by right|]. by exists 0. }
    apply wp_bind, wp_lift. rewrite index_ok, slice_to_end by lia.
    assert (length (zdrop n input) + write_patience w' < fuel)%nat.
    { unfold zdrop, zlen in *. rewrite length_drop. lia. }
    eapply wp_mono; [by apply IH|]. intros r w2 [Hp2 Hr]. split; [lia|].
    destruct r as [u|e|h]; [| |done].
    + by rewrite Hr, Hw, <- app_assoc, ztake_zdrop.
    + destruct Hr as (He & m & Hm). split; [done|]. destruct (Z.le_gt_cases m 0).
      * exists n. rewrite Hm, Hw, (ztake_le0 m), app_nil_r by lia. done.
      * exists (n + m). rewrite Hm, Hw, <- app_assoc. f_equal.
        rewrite <- (ztake_zdrop n (ztake (n + m) input)), ztake_ztake, zdrop_ztake by lia.
        by replace (Z.min n (n + m)) with n by lia; replace (n + m - n) with m by lia.
  - destruct H as (Hw & Hp & Hint & Hfail). case_bool_decide as Hk.
    + eapply wp_mono; [apply IH; specialize (Hint Hk); lia|]. intros r w2 [Hp2 Hr]. split; [lia|].
      by rewrite Hw in Hr.
    + apply wp_fail. split; [done|]. split; [left; auto|]. exists 0. by rewrite ztake_le0, app_nil_r.
Qed.

End WriteAll.

(** ** Concrete instances *)

(** [&[u8]] as a reader. *)
#[export] Instance bytes_read : Read bytes := {|
  read := fun s =>
    let n := Z.min (zlen (fst s)) (zlen (snd s)) in
    (Ok n, (zdrop n (fst s), splice (snd s) 0 (ztake n (fst s))))
|}.

#[export] Instance bytes_read_ok : ReadOk bytes.
Proof.
  unshelve esplit; [exact id|exact (fun _ => O)|exact (fun _ => False)|].
  intros r out. unfold wp. cbn [read bytes_read fst snd]. pose proof (zlen_nonneg r). pose proof (zlen_nonneg out).
  rewrite zlen_splice by (rewrite ?zlen_ztake; lia). split; [done|]. split; [lia|]. split_and!.
  - rewrite <- (slice_0 (splice _ _ _)), slice_splice_same by (rewrite ?zlen_ztake; lia).
    unfold id. by rewrite ztake_zdrop.
  - done.
  - intros Hz. unfold id. destruct (Z.eq_dec (zlen r) 0); [right|left]; apply zlen_0_nil; lia.
Defined.

(** [Vec<u8>] as a writer. *)
#[export] Instance bytes_write : Write bytes := {|
  write := fun input w => (Ok (zlen input), w ++ input);
  flush := ret tt
|}.

#[export] Instance bytes_write_ok : WriteOk bytes.
Proof.
  unshelve esplit; [exact id|exact (fun _ => O)|exact (fun _ => False)| |].
  - intros input w. unfold wp, id. cbn [write bytes_write fst snd]. pose proof (zlen_nonneg input).
    split; [lia|]. by rewrite ztake_all by lia.
  - intros w. unfold wp, id. cbn. by split_and!.
Defined.

(** [Cursor<Vec<u8>>]: a vector and a position in or behind it. *)
Module Cursor.

Record t := new {
  inner : bytes;
  pos : N
}.

Definition seek_error : IoError.t :=
  IoError.new ErrorKind.InvalidInput (IoError.Text "invalid seek to a negative or overflowing position"%string).

Definition seek (to : SeekFrom.t) : IO t Z := fun self =>
  match checked_u64 (SeekFrom.target to (Z.of_N (pos self)) (zlen (inner self))) with
  | Some n => (Ok n, new (inner self) (Z.to_N n))
  | None => (Err seek_error, self)
  end.

Definition rest (self : t) : bytes := zdrop (Z.of_N (pos self)) (inner self).

End Cursor.

#[export] Instance cursor_read : Read Cursor.t | 10 := {|
  read := fun s =>
    let n := Z.min (zlen (Cursor.rest (fst s))) (zlen (snd s)) in
    (Ok n, (Cursor.new (Cursor.inner (fst s)) (Cursor.pos (fst s) + Z.to_N n),
            splice (snd s) 0 (ztake n (Cursor.rest (fst s)))))
|}.

#[export] Instance cursor_seek : Seek Cursor.t := {|
  seek := Cursor.seek;
  stream_position := Cursor.seek (SeekFrom.Current 0)
|}.

#[export] Instance cursor_read_ok : ReadOk Cursor.t.
Proof.
  unshelve esplit; [exact Cursor.rest|exact (fun _ => O)|exact (fun _ => False)|].
  intros c out. unfold wp. cbn [read cursor_read fst snd].
  pose proof (zlen_nonneg (Cursor.rest c)). pose proof (zlen_nonneg out). set (n := Z.min _ _).
  assert (Cursor.rest (Cursor.new (Cursor.inner c) (Cursor.pos c + Z.to_N n)) = zdrop n (Cursor.rest c)) as Hrest.
  { unfold Cursor.rest. cbn [Cursor.pos Cursor.inner]. by rewrite N2Z.inj_add, Z2N.id, zdrop_zdrop by lia. }
  rewrite zlen_splice by (rewrite ?zlen_ztake; lia). split; [done|]. split; [lia|]. split_and!.
  - rewrite Hrest. unfold splice. rewrite (ztake_le0 0) by lia. cbn [app fst snd].
    rewrite ztake_app_l, ztake_ztake, Z.min_id by (rewrite zlen_ztake; lia). by rewrite ztake_zdrop.
  - done.
  - intros Hz. destruct (Z.eq_dec (zlen (Cursor.rest c)) 0); [right|left]; apply zlen_0_nil; lia.
Defined.

#[export] Instance cursor_seek_ok : SeekOk Cursor.t.
Proof.
  assert (forall to c, wp (Cursor.seek to) c (fun res c' => Cursor.inner c' = Cursor.inner c /\ match res with
    | Ok n => n = Z.of_N (Cursor.pos c') /\ n = SeekFrom.target to (Z.of_N (Cursor.pos c)) (zlen (Cursor.inner c)) /\ in_u64 n
    | Err e => e = Cursor.seek_error | Halt _ => False end)) as Hseek.
  { intros to c. unfold wp, Cursor.seek, checked_u64, in_range, in_u64.
    destruct (andb _ _) eqn:E; cbn; [|done]. rewrite Z2N.id by lia. split_and!; done || lia. }
  unshelve esplit; [exact Cursor.inner|exact (fun c => Z.of_N (Cursor.pos c))|exact (fun e => e = Cursor.seek_error)|..].
  - done.
  - intros c out. unfold wp. cbn. split; [done|]. pose proof (zlen_nonneg (Cursor.rest c)). pose proof (zlen_nonneg out). lia.
  - intros to c. eapply wp_mono; [apply (Hseek to c)|]. cbn. intros res c' [? Hn]. by split.
  - intros c. eapply wp_mono; [apply (Hseek (SeekFrom.Current 0) c)|]. cbn.
    intros [n|e|h] c' [? Hn]; (split; [done|]); (split; [done|]); [|done..]. destruct Hn as (? & ? & ?). split; [lia|]. split; [lia|done].
Defined.
