(* ===== verification/Wire.v ===== *)
(** * Helpers of the message formats

    [src/wire.rs]: a ciphertext is its header followed by its body; reading a
    header, a segment or as much as there is from a [Read]er; the crate's errors
    as [io::Error] values. *)

From S2P Require Import Prelude Bytes Error Parameters Provider Crypto State StdIo.

(** [ciphertext.split_at_checked(Header::LEN)]. *)
Definition split_header (ciphertext : bytes) : Result (Header.t * bytes) :=
  let* split :=
    ok_or (if Header.LEN <=? zlen ciphertext
           then Some (ztake Header.LEN ciphertext, zdrop Header.LEN ciphertext) else None)
      (InvalidHeaderLength (zlen ciphertext)) in
  let (header, body) := split in
  let* header := Header.try_from header in
  Ok (header, body).

(** Exactly the byte strings of at least 74 bytes split. *)
Lemma split_header_ok c :
  74 <= zlen c ->
  split_header c = Ok (Header.mk (ztake 74 c), zdrop 74 c) /\ Header.wf (Header.mk (ztake 74 c)).
Proof.
  intros Hl. unfold split_header. change Header.LEN with 74. replace (74 <=? zlen c) with true by lia.
  cbn [ok_or obind]. unfold Header.try_from, try_into_array, Header.wf. floe_consts.
  change Header.LEN with 74. cbn [Header.header_bytes]. rewrite zlen_ztake.
  replace (_ =? 74) with true by lia. split; [done|lia].
Qed.

Lemma split_header_err c :
  zlen c < 74 -> split_header c = Err (InvalidHeaderLength (zlen c)).
Proof.
  intros. unfold split_header. change Header.LEN with 74. by replace (74 <=? zlen c) with false by lia.
Qed.

Lemma split_header_app h body :
  Header.wf h -> split_header (Header.as_bytes h ++ body) = Ok (h, body).
Proof.
  unfold Header.wf, Header.LEN. floe_consts. intros Hh. pose proof (zlen_nonneg body). unfold Header.as_bytes.
  destruct (split_header_ok (Header.header_bytes h ++ body)) as [-> _]; [rewrite zlen_app; lia|].
  rewrite ztake_app_l, ztake_all, zdrop_app_r, zdrop_le0 by lia. by destruct h.
Qed.

(** ** Errors *)

Definition encryption_error (error : Error) : IoError.t := IoError.other (IoError.Floe error).

Definition decryption_error (error : Error) : IoError.t :=
  IoError.new ErrorKind.InvalidData (IoError.Floe error).

Definition length_overflow : IoError.t :=
  IoError.new ErrorKind.InvalidInput (IoError.Floe LengthOverflow).

Definition output_too_small (actual required : Z) : IoError.t :=
  IoError.new ErrorKind.InvalidInput (IoError.Floe (OutputTooSmall actual required)).

(** ** Reading *)

Section Reading.
Context {R : Type} {RR : Read R}.

(** The loop of [read_fully], when [done] bytes of the buffer are filled and
    [output] is what follows them. *)
Fixpoint read_loop (fuel : nat) (done : Z) : IO (R * bytes) Z :=
  match fuel with
  | O => halted OutOfFuel
  | S fuel =>
      let! cells := get in
      if zlen (snd cells) - done =? 0 then ret done
      else
        matchM (zoom_range_snd done (zlen (snd cells)) read)
          (fun n =>
            if n =? 0 then ret done
            else
              do? index (zdrop done (snd cells)) n (zlen (snd cells) - done) in
              read_loop fuel (done + n))
          (fun e =>
            if bool_decide (IoError.kind e = ErrorKind.Interrupted) then read_loop fuel done
            else fail e)
  end.

(** An iteration fills a part of the buffer or is interrupted, so the fuel has
    to exceed the bytes that remain and the interruptions. *)
Definition read_fully (fuel : nat) : IO (R * bytes) Z := read_loop fuel 0.

Definition read_header (fuel : nat) : IO R Header.t :=
  let! (actual, header) := with_local (zeros Header.LEN) (read_fully fuel) in
  if actual =? zlen header then ret (Header.from_array header)
  else fail (decryption_error (InvalidHeaderLength actual)).

Definition read_exact_segment (fuel : nat) : IO (R * bytes) unit :=
  let! cells := get in
  let expected := zlen (snd cells) in
  let! actual := read_fully fuel in
  if actual =? expected then ret tt
  else fail (decryption_error (InvalidCiphertextLength actual (Exactly expected))).

(** *** Lemmas *)

Context {ROk : ReadOk R}.

(** The fuel that the loops of a reader need. *)
Definition enough (fuel : nat) (r : R) : Prop := (length (remaining r) + patience r < fuel)%nat.

(** What a read leaves: no more bytes and no more interruptions than before. *)
Definition consumes (r : R) (taken : bytes) (r' : R) : Prop :=
  remaining r = taken ++ remaining r' /\ (patience r' <= patience r)%nat.

Lemma consumes_refl r : consumes r [] r.
Proof. by split. Qed.

Lemma consumes_trans r a r' b r'' : consumes r a r' -> consumes r' b r'' -> consumes r (a ++ b) r''.
Proof. intros [H1 ?] [H2 ?]. split; [by rewrite H1, H2, <- app_assoc|lia]. Qed.

Lemma consumes_enough fuel r a r' : consumes r a r' -> enough fuel r -> enough fuel r'.
Proof. unfold enough. intros [-> ?] ?. rewrite length_app in *. lia. Qed.

Lemma read_loop_ok fuel : forall done r out,
  enough fuel r -> 0 <= done <= zlen out ->
  wp (read_loop fuel done) (r, out) (fun res s =>
    zlen (snd s) = zlen out /\ exists taken, consumes r taken (fst s)
    /\ ztake (done + zlen taken) (snd s) = ztake done out ++ taken /\ done + zlen taken <= zlen out
    /\ match res with
       | Ok n => n = done + zlen taken /\ (n < zlen out -> remaining (fst s) = [])
       | Err e => read_failure e
       | Halt _ => False
       end).
Proof.
  induction fuel as [|fuel IH]; intros done r out Hfuel Hd; [unfold enough in Hfuel; lia|].
  cbn [read_loop]. apply wp_bind, wp_get. cells.
  destruct (Z.eqb_spec (zlen out - done) 0) as [Hz|Hz].
  { apply wp_ret. cells. split; [done|]. exists []. rewrite app_nil_r, zlen_nil, Z.add_0_r.
    split_and!; [apply consumes_refl|done|lia|done|lia]. }
  apply wp_match, wp_zoom_range_snd; [apply range_ok_true; simpl; lia|]. cells.
  rewrite slice_to_end by lia. eapply wp_mono; [apply read_promise|].
  intros res [r' part] [Hl H]. revert Hl H. cells. rewrite zlen_zdrop. intros Hl H.
  assert (Hpart : zlen (splice out done part) = zlen out) by (apply zlen_splice; lia).
  assert (Hpre : ztake done (splice out done part) = ztake done out).
  { unfold splice. by rewrite ztake_app_l, ztake_ztake, Z.min_id by (rewrite zlen_ztake; lia). }
  destruct res as [n|e|h]; [| |done].
  - destruct H as (Hn & Hrem & Hp & Heof). destruct (Z.eqb_spec n 0) as [->|Hn0].
    { apply wp_ret. cells. rewrite ztake_le0 in Hrem by lia. split; [done|]. exists [].
      rewrite app_nil_r, zlen_nil, Z.add_0_r. split_and!; [by split|done|lia|done|].
      intros _. destruct (Heof eq_refl) as [E|E]; [|by rewrite Hrem in E].
      apply (f_equal zlen) in E. rewrite zlen_zdrop in E. change (zlen (@nil byte)) with 0 in E. lia. }
    apply wp_bind, wp_lift. rewrite index_ok by (rewrite ?zlen_zdrop; lia).
    assert (Htk : zlen (ztake n part) = n) by (rewrite zlen_ztake; lia).
    assert (consumes r (ztake n part) r') as Hc by (by split).
    assert (enough fuel r') as Hfuel'.
    { unfold enough in *. rewrite Hrem, length_app in Hfuel. unfold zlen in Htk. lia. }
    eapply wp_mono; [apply IH; [done|rewrite Hpart; lia]|].
    intros res [r2 out2]. cells. rewrite Hpart. intros (Hl2 & taken & Hc2 & Htake & Hle & Hres).
    split; [done|]. exists (ztake n part ++ taken). rewrite zlen_app, Htk, Z.add_assoc.
    split_and!; [by eapply consumes_trans| |lia|done].
    rewrite Htake, app_assoc. f_equal. rewrite splice_tail by lia.
    rewrite ztake_app_r, zlen_ztake by (rewrite ?zlen_ztake; lia). do 2 f_equal. lia.
  - destruct H as (Hrem & Hp & Hint & Hfail).
    assert (consumes r [] r') as Hc by (by split). case_bool_decide as Hk.
    + assert (enough fuel r') as Hfuel'.
      { unfold enough in *. rewrite Hrem. specialize (Hint Hk). lia. }
      eapply wp_mono; [apply IH; [done|rewrite Hpart; lia]|].
      intros res [r2 out2]. cells. rewrite Hpart. intros (Hl2 & taken & Hc2 & Htake & Hle & Hres).
      split; [done|]. exists taken. rewrite Htake, Hpre.
      split_and!; [exact (consumes_trans _ _ _ _ _ Hc Hc2)|done|lia|done].
    + apply wp_fail. cells. split; [done|]. exists []. rewrite app_nil_r, zlen_nil, Z.add_0_r.
      split_and!; [done|done|lia|auto].
Qed.

(** [read_fully] fills the buffer, or takes all that remains. *)
Lemma read_fully_ok fuel r out :
  enough fuel r ->
  wp (read_fully fuel) (r, out) (fun res s =>
    zlen (snd s) = zlen out /\ exists taken, consumes r taken (fst s) /\ zlen taken <= zlen out
    /\ ztake (zlen taken) (snd s) = taken
    /\ match res with
       | Ok n => n = zlen taken /\ (n < zlen out -> remaining (fst s) = [])
       | Err e => read_failure e
       | Halt _ => False
       end).
Proof.
  intros Hfuel. pose proof (zlen_nonneg out). eapply wp_mono; [apply read_loop_ok; [done|lia]|].
  intros res s (Hl & taken & Hc & Htake & Hle & Hres). split; [done|]. exists taken.
  rewrite Z.add_0_l, (ztake_le0 0) in * by lia. by split_and!.
Qed.

Lemma read_header_ok fuel r :
  enough fuel r ->
  wp (read_header fuel) r (fun res r' =>
    match res with
    | Ok h => Header.wf h /\ consumes r (Header.as_bytes h) r'
    | Err e => read_failure e
        \/ (zlen (remaining r) < 74 /\ e = decryption_error (InvalidHeaderLength (zlen (remaining r))))
    | Halt _ => False
    end).
Proof.
  intros Hfuel. unfold read_header. apply wp_bind, wp_with_local. eapply wp_mono; [by apply read_fully_ok|].
  intros res [r' out]. cells. change Header.LEN with 74. rewrite zlen_zeros. change (Z.max 0 74) with 74.
  intros (Hl & taken & Hc & Hle & Htake & Hres). destruct res as [n|e|h]; [|by left|done]. cbn [omap_ok].
  destruct Hres as [-> Hend]. rewrite Hl. destruct (Z.eqb_spec (zlen taken) 74) as [Hz|Hz].
  - apply wp_ret. rewrite Hz, ztake_all in Htake by lia. subst out. split; [done|].
    by unfold Header.as_bytes, Header.from_array.
  - apply wp_fail. right. destruct Hc as [Hrem _]. rewrite (Hend ltac:(lia)), app_nil_r in Hrem.
    rewrite Hrem. split; [lia|done].
Qed.

Lemma read_exact_segment_ok fuel r out :
  enough fuel r ->
  wp (read_exact_segment fuel) (r, out) (fun res s =>
    zlen (snd s) = zlen out /\
    match res with
    | Ok _ => consumes r (snd s) (fst s)
    | Err e => read_failure e
        \/ (zlen (remaining r) < zlen out
            /\ e = decryption_error (InvalidCiphertextLength (zlen (remaining r)) (Exactly (zlen out))))
    | Halt _ => False
    end).
Proof.
  intros Hfuel. unfold read_exact_segment. apply wp_bind, wp_get. cells. apply wp_bind.
  eapply wp_mono; [by apply read_fully_ok|]. intros res [r' out']. cells.
  intros (Hl & taken & Hc & Hle & Htake & Hres). destruct res as [n|e|h]; [|by split; [|left]|done].
  destruct Hres as [-> Hend]. destruct (Z.eqb_spec (zlen taken) (zlen out)) as [Hz|Hz].
  - apply wp_ret. cells. split; [done|]. rewrite Hz, ztake_all in Htake by lia. by rewrite Htake.
  - apply wp_fail. cells. split; [done|]. right. destruct Hc as [Hrem _].
    rewrite (Hend ltac:(lia)), app_nil_r in Hrem. rewrite Hrem. split; [lia|done].
Qed.

(** *** Filling a borrowed range

    The adapters borrow a range of a buffer, write a few bytes at its start and
    fill the rest from the reader. *)

Lemma put_prefix_ok {E} (l x : bytes) start stop :
  0 <= start -> start + zlen x <= stop <= zlen l ->
  wp (zoom_range start stop (
        let! content := get in
        let? content := copy_to content 0 (zlen x) x in
        put content)) l (fun (r : outcome E unit) l' =>
    r = Ok tt /\ exists content, l' = splice l start content /\ zlen content = stop - start
    /\ ztake (zlen x) content = x).
Proof.
  intros Hs Hl. pose proof (zlen_nonneg x). apply wp_zoom_range; [apply range_ok_true; lia|].
  assert (Hw : zlen (slice l start stop) = stop - start) by (rewrite zlen_slice; lia).
  apply wp_bind, wp_get, wp_bind, wp_lift. rewrite copy_to_ok by (rewrite ?Hw; lia). apply wp_put. split; [done|].
  exists (splice (slice l start stop) 0 x). split_and!; [done|rewrite zlen_splice; lia|].
  rewrite <- slice_0. apply slice_splice_same; lia.
Qed.

Lemma read_into_ok fuel r (l pre : bytes) start stop :
  0 <= start <= stop -> stop <= zlen l -> ztake (zlen pre) (slice l start stop) = pre -> enough fuel r ->
  wp (zoom_range_snd start stop (zoom_range_snd (zlen pre) (stop - start) (read_fully fuel))) (r, l) (fun res s =>
    exists content taken, snd s = splice l start content /\ zlen content = stop - start
    /\ consumes r taken (fst s) /\ zlen pre + zlen taken <= stop - start
    /\ ztake (zlen pre + zlen taken) content = pre ++ taken
    /\ match res with
       | Ok n => n = zlen taken /\ (zlen pre + n < stop - start -> remaining (fst s) = [])
       | Err e => read_failure e
       | Halt _ => False
       end).
Proof.
  intros Hs Hl Hpre Hfuel. pose proof (zlen_nonneg pre).
  assert (Hw : zlen (slice l start stop) = stop - start) by (rewrite zlen_slice; lia).
  assert (Hpl : zlen pre <= stop - start) by (rewrite <- Hpre, zlen_ztake; lia).
  apply wp_zoom_range_snd; [apply range_ok_true; simpl; lia|]. cells.
  apply wp_zoom_range_snd; [apply range_ok_true; simpl; lia|]. cells.
  set (w := slice l start stop) in *. rewrite <- Hw, slice_to_end by lia.
  eapply wp_mono; [by apply read_fully_ok|]. intros res [r' out]. cells.
  rewrite zlen_zdrop, Hw. intros (Hout & taken & Hc & Hle & Htake & Hres). pose proof (zlen_nonneg taken).
  exists (splice w (zlen pre) out), taken. split; [done|]. split; [rewrite zlen_splice; lia|]. split; [done|].
  split; [lia|]. split.
  - unfold splice. rewrite Hpre, ztake_app_r by lia. f_equal.
    replace (zlen pre + zlen taken - zlen pre) with (zlen taken) by lia. by rewrite ztake_app_l by lia.
  - destruct res as [n|e|h]; [|done..]. destruct Hres as [-> Hend]. split; [done|]. intros. apply Hend. lia.
Qed.

End Reading.
