(* ===== verification/Online.v ===== *)
(** * Online encryption and decryption

    [src/online.rs]: the segment counter, the sequential [Encryptor] and
    [Decryptor], and the one-shot functions on whole messages. Facts about
    them are in [OnlineFacts.v]. *)

From S2P Require Import Prelude Bytes Error Parameters Provider Crypto Key Buffer State Wire.

Module SegmentCounter.

Record t := mk {
  next : Z;
  closed : bool
}.

Definition new : t := {| next := 0; closed := false |}.

Definition next_position (self : t) : Z := next self.

Definition is_finished (self : t) : bool := closed self.

Definition position_for (self : t) (kind : SegmentKind.t) : Result Z :=
  if closed self then Err Closed
  else
    match kind with
    | SegmentKind.NonFinal =>
        if next self =? AEAD_MAX_SEGMENTS - 1 then Err SegmentLimit else Ok (next self)
    | SegmentKind.Final =>
        if AEAD_MAX_SEGMENTS <=? next self then Err SegmentLimit else Ok (next self)
    end.

Definition complete {E} (kind : SegmentKind.t) : M E t unit :=
  let! self := get in
  match kind with
  | SegmentKind.NonFinal =>
      let? advanced := u64 (next self + 1) in
      put {| next := advanced; closed := closed self |}
  | SegmentKind.Final => put {| next := next self; closed := true |}
  end.

Definition finish (self : t) : Result unit := if closed self then Ok tt else Err Truncated.

End SegmentCounter.

(** ** The encryptor *)

Module Encryptor.
Section Backend.
Context {T : Target} {F : Features} {B : Backend}.

Record t := mk {
  state : EncryptionState.t;
  header : Header.t;
  counter : SegmentCounter.t
}.

Definition new (entropy : Entropy) (key : Key.t) (aad : bytes) (parameters : Parameters.t) : Result t :=
  let* started := start_encryption entropy key aad parameters in
  let (state, header) := started in
  Ok {| state := state; header := header; counter := SegmentCounter.new |}.

Definition provider (self : t) : Provider.t := EncryptionState.provider (state self).
Definition parameters (self : t) : Parameters.t := EncryptionState.parameters (state self).
Definition next_position (self : t) : Z := SegmentCounter.next_position (counter self).

Definition set_state (self : t) (st : EncryptionState.t) : t := mk st (header self) (counter self).
Definition set_counter (self : t) (c : SegmentCounter.t) : t := mk (state self) (header self) c.

Definition state_cell : lens t EncryptionState.t := mkLens state set_state.
Definition counter_cell : lens t SegmentCounter.t := mkLens counter set_counter.

(** [&mut self.state] next to another borrow [X] of the closure. *)
Definition state_and {X} : lens (t * X) (EncryptionState.t * X) :=
  mkLens (fun s => (state (fst s), snd s)) (fun s c => (set_state (fst s) (fst c), snd c)).

(** [advance]: the closure runs on [self.state] and what else it borrows,
    which [me] picks from the call's cells. *)
Definition advance {W A} (me : lens W t) (op : Z -> M Error W A) : M Error W A :=
  let! cells := get in
  let? position := SegmentCounter.position_for (counter (view me cells)) SegmentKind.NonFinal in
  let! value := op position in
  do! zoom me (zoom counter_cell (SegmentCounter.complete SegmentKind.NonFinal)) in
  ret value.

Definition encrypt_non_final_segment (plaintext : bytes) : M Error t bytes :=
  advance lens_id (fun position =>
    zoom state_cell (EncryptionState.encrypt_segment_at plaintext position SegmentKind.NonFinal)).

Definition encrypt_non_final_segment_into (plaintext : bytes) : M Error (t * bytes) Z :=
  advance lens_fst (fun position =>
    zoom state_and (EncryptionState.encrypt_segment_into_at plaintext position SegmentKind.NonFinal)).

Definition encrypt_non_final_segment_in_place {S : Support} : M Error (t * SegmentBuffer.t) bytes :=
  advance lens_fst (fun position =>
    zoom state_and (EncryptionState.encrypt_segment_in_place_at position SegmentKind.NonFinal)).

End Backend.
End Encryptor.

Module FinalEncryptError.
Section Backend.
Context {T : Target} {B : Backend}.

(** [Box<Encryptor>] is the encryptor. *)
Record t := mk {
  encryptor : Encryptor.t;
  error : Error
}.

Definition into_encryptor (self : t) : Encryptor.t := encryptor self.
Definition into_error (self : t) : Error := error self.
Definition into_parts (self : t) : Error * Encryptor.t := (error self, encryptor self).

End Backend.
End FinalEncryptError.

(** The methods that consume the encryptor. On success it is dropped. *)
Module Finalize.
Section Backend.
Context {T : Target} {B : Backend}.

Definition finalize {X A} (self : Encryptor.t) (op : Z -> M Error (EncryptionState.t * X) A)
    : M FinalEncryptError.t X A :=
  fun x =>
    let (result, cells) :=
      (let? position := SegmentCounter.position_for (Encryptor.counter self) SegmentKind.Final in
       op position) (Encryptor.state self, x) in
    (map_err (fun error =>
       {| FinalEncryptError.encryptor := Encryptor.set_state self (fst cells);
          FinalEncryptError.error := error |}) result,
     snd cells).

Definition encrypt_final_segment (self : Encryptor.t) (plaintext : bytes) : outcome FinalEncryptError.t bytes :=
  fst (finalize self (fun position =>
         zoom lens_fst (EncryptionState.encrypt_segment_at plaintext position SegmentKind.Final)) tt).

Definition encrypt_final_segment_into (self : Encryptor.t) (plaintext : bytes) : M FinalEncryptError.t bytes Z :=
  finalize self (fun position =>
    EncryptionState.encrypt_segment_into_at plaintext position SegmentKind.Final).

Definition encrypt_final_segment_in_place {S : Support} (self : Encryptor.t)
    : M FinalEncryptError.t SegmentBuffer.t bytes :=
  finalize self (fun position =>
    EncryptionState.encrypt_segment_in_place_at position SegmentKind.Final).

End Backend.
End Finalize.

(** ** The decryptor *)

Section Prefix.
Context {T : Target}.

Definition segment_prefix_of (ciphertext_segment : bytes) (parameters : Parameters.t) : Result bytes :=
  if zlen ciphertext_segment <? SEGMENT_PREFIX_LENGTH then
    Err (InvalidCiphertextLength (zlen ciphertext_segment)
           (Between SEGMENT_PREFIX_LENGTH (Parameters.ciphertext_segment_length parameters)))
  else
    let* field := index ciphertext_segment 0 SEGMENT_PREFIX_LENGTH in
    ok_or (try_into_array SEGMENT_PREFIX_LENGTH field) InvalidSegmentPrefix.

End Prefix.

Module Decryptor.
Section Backend.
Context {T : Target} {F : Features} {B : Backend} {S : Support}.

Record t := mk {
  state : DecryptionState.t;
  counter : SegmentCounter.t
}.

Definition new (key : Key.t) (aad : bytes) (header : Header.t) : Result t :=
  let* state := start_decryption_inferred key aad header in
  Ok {| state := state; counter := SegmentCounter.new |}.

Definition new_with_parameters (key : Key.t) (aad : bytes) (parameters : Parameters.t)
    (header : Header.t) : Result t :=
  let* state := start_decryption key aad parameters header in
  Ok {| state := state; counter := SegmentCounter.new |}.

Definition provider (self : t) : Provider.t := DecryptionState.provider (state self).
Definition parameters (self : t) : Parameters.t := DecryptionState.parameters (state self).
Definition next_position (self : t) : Z := SegmentCounter.next_position (counter self).
Definition is_finished (self : t) : bool := SegmentCounter.is_finished (counter self).

Definition set_state (self : t) (st : DecryptionState.t) : t := mk st (counter self).
Definition set_counter (self : t) (c : SegmentCounter.t) : t := mk (state self) c.

Definition state_cell : lens t DecryptionState.t := mkLens state set_state.
Definition counter_cell : lens t SegmentCounter.t := mkLens counter set_counter.
Definition state_and {X} : lens (t * X) (DecryptionState.t * X) :=
  mkLens (fun s => (state (fst s), snd s)) (fun s c => (set_state (fst s) (fst c), snd c)).

Definition advance {W A} (me : lens W t) (kind : SegmentKind.t) (op : Z -> M Error W A) : M Error W A :=
  let! cells := get in
  let? position := SegmentCounter.position_for (counter (view me cells)) kind in
  let! value := op position in
  do! zoom me (zoom counter_cell (SegmentCounter.complete kind)) in
  ret value.

Definition framing (self : t) (ciphertext_segment : bytes) : Result SegmentFraming.t :=
  let* prefix := segment_prefix_of ciphertext_segment (parameters self) in
  SegmentFraming.decode (parameters self) prefix.

Definition decrypt_segment (ciphertext_segment : bytes) : M Error t bytes :=
  let! self := get in
  let? framing := framing self ciphertext_segment in
  advance lens_id (SegmentFraming.kind framing) (fun position =>
    zoom state_cell (DecryptionState.decrypt_segment_at_framed ciphertext_segment position framing)).

Definition decrypt_segment_into_framed (ciphertext_segment : bytes) (framing : SegmentFraming.t)
    : M Error (t * bytes) Z :=
  advance lens_fst (SegmentFraming.kind framing) (fun position =>
    zoom state_and (DecryptionState.decrypt_segment_into_at_framed ciphertext_segment position framing)).

Definition decrypt_segment_into (ciphertext_segment : bytes) : M Error (t * bytes) Z :=
  let! cells := get in
  let? framing := framing (fst cells) ciphertext_segment in
  decrypt_segment_into_framed ciphertext_segment framing.

(** The closure that [decrypt_segment_in_place] passes to [decrypt_with]. *)
Definition decrypt_segment_in_place_operation : M Error (t * SegmentBuffer.t) Z :=
  let! cells := get in
  let? ciphertext := SegmentBuffer.ciphertext (snd cells) in
  let? framing := framing (fst cells) ciphertext in
  advance lens_fst (SegmentFraming.kind framing) (fun position =>
    zoom state_and (DecryptionState.decrypt_segment_in_place_at_framed position framing)).

Definition decrypt_segment_in_place : M Error (t * SegmentBuffer.t) (Z * Z) :=
  SegmentBuffer.decrypt_with decrypt_segment_in_place_operation.

Definition finish (self : t) : Result unit := SegmentCounter.finish (counter self).

End Backend.
End Decryptor.

(** ** Whole messages *)

Section Whole.
Context {T : Target} {F : Features} {B : Backend} {Su : Support}.

(** What the loop of [encrypt_body] changes: the iterator, the encryptor until
    the final segment takes it, and the ciphertext. *)
Record encrypt_vars := mkEncryptVars {
  ev_segments : Segments.t;
  ev_encryptor : option Encryptor.t;
  ev_ciphertext : bytes
}.

Definition ev_segments_cell : lens encrypt_vars Segments.t :=
  mkLens ev_segments (fun s x => mkEncryptVars x (ev_encryptor s) (ev_ciphertext s)).

Definition ev_ciphertext_cell : lens encrypt_vars bytes :=
  mkLens ev_ciphertext (fun s x => mkEncryptVars (ev_segments s) (ev_encryptor s) x).

(** The encryptor in the [Option], borrowed by [as_mut], and the ciphertext. *)
Definition ev_borrowed (encryptor : Encryptor.t) : lens encrypt_vars (Encryptor.t * bytes) :=
  mkLens (fun s => (encryptor, ev_ciphertext s))
    (fun s c => mkEncryptVars (ev_segments s) (Some (fst c)) (snd c)).

(** The body of the loop. *)
Definition encrypt_one (plaintext : bytes) (segment : SegmentLayout.t) : M Error encrypt_vars unit :=
  let! s := get in
  let? plaintext_start := ok_or (usize_try_from (SegmentLayout.plaintext_offset segment)) LengthOverflow in
  let? plaintext_end :=
    ok_or (checked_usize (plaintext_start + SegmentLayout.plaintext_length segment)) LengthOverflow in
  let output_start := zlen (ev_ciphertext s) in
  let? output_end :=
    ok_or (checked_usize (output_start + SegmentLayout.ciphertext_length segment)) LengthOverflow in
  let? ciphertext := vec_resize (ev_ciphertext s) output_end in
  do! zoom ev_ciphertext_cell (put ciphertext) in
  let? chunk := index plaintext plaintext_start plaintext_end in
  match SegmentLayout.kind segment with
  | SegmentKind.NonFinal =>
      let? encryptor := expect (ev_encryptor s) in
      do! zoom (ev_borrowed encryptor)
            (zoom_range_snd output_start (zlen ciphertext)
              (Encryptor.encrypt_non_final_segment_into chunk)) in
      ret tt
  | SegmentKind.Final =>
      let? encryptor := expect (ev_encryptor s) in
      do! modify (fun s => mkEncryptVars (ev_segments s) None (ev_ciphertext s)) in
      do! zoom ev_ciphertext_cell
            (zoom_range output_start (zlen ciphertext)
              (map_errM FinalEncryptError.into_error
                (Finalize.encrypt_final_segment_into encryptor chunk))) in
      ret tt
  end.

(** [for segment in layout.segments()]. *)
Fixpoint encrypt_loop (fuel : nat) (plaintext : bytes) : M Error encrypt_vars unit :=
  match fuel with
  | O => halted OutOfFuel
  | S fuel =>
      let! segment := zoom ev_segments_cell Segments.next in
      match segment with
      | None => ret tt
      | Some segment =>
          do! encrypt_one plaintext segment in
          encrypt_loop fuel plaintext
      end
  end.

(** The fuel is one more than the number of segments. *)
Definition encrypt_body (encryptor : Encryptor.t) (plaintext : bytes) : Result bytes :=
  let plaintext_length := length_usize_to_u64 (zlen plaintext) in
  let parameters := Encryptor.parameters encryptor in
  let* layout := plaintext_layout parameters plaintext_length in
  let* capacity := ok_or (usize_try_from (MessageLayout.ciphertext_length layout)) LengthOverflow in
  let* ciphertext := vec_with_capacity capacity in
  let ciphertext := ciphertext ++ Header.as_bytes (Encryptor.header encryptor) in
  let (r, s) :=
    encrypt_loop (Z.to_nat (MessageLayout.segment_count layout + 1)) plaintext
      (mkEncryptVars (Segments.segments layout) (Some encryptor) ciphertext) in
  omap_ok (fun _ => ev_ciphertext s) r.

Definition encrypt (entropy : Entropy) (key : Key.t) (aad : bytes) (parameters : Parameters.t)
    (plaintext : bytes) : Result bytes :=
  let* encryptor := Encryptor.new entropy key aad parameters in
  encrypt_body encryptor plaintext.

(** What the loop of [decrypt_body] changes besides the input that is left:
    the decryptor and the plaintext. *)
Abbreviation decrypt_vars := (Decryptor.t * bytes)%type.

(** The body of the loop: decrypts one segment and returns the input left. *)
Definition decrypt_one (parameters : Parameters.t) (body : bytes) : M Error decrypt_vars bytes :=
  let? prefix := segment_prefix_of body parameters in
  let? framing := SegmentFraming.decode parameters prefix in
  let segment_length := SegmentFraming.ciphertext_length framing in
  if zlen body <? segment_length then
    fail (InvalidCiphertextLength (zlen body) (AtLeast segment_length))
  else if SegmentFraming.is_final framing && negb (segment_length =? zlen body) then
    fail (InvalidCiphertextLength (zlen body) (Exactly segment_length))
  else
    let? segment := index body 0 segment_length in
    let? rest := index body segment_length (zlen body) in
    let! s := get in
    let start := zlen (snd s) in
    let? resized := usize (start + SegmentFraming.plaintext_length framing) in
    let? plaintext := vec_resize (snd s) resized in
    do! zoom lens_snd (put plaintext) in
    do! zoom_range_snd start (zlen plaintext) (Decryptor.decrypt_segment_into_framed segment framing) in
    ret rest.

(** [while !body.is_empty()]. *)
Fixpoint decrypt_loop (fuel : nat) (parameters : Parameters.t) (body : bytes) : M Error decrypt_vars unit :=
  match fuel with
  | O => halted OutOfFuel
  | S fuel =>
      if zlen body =? 0 then ret tt
      else
        let! rest := decrypt_one parameters body in
        decrypt_loop fuel parameters rest
  end.

(** Every iteration removes a segment, so the length of the body is enough fuel.
    The vector is in a [Zeroizing] guard until the result is moved out. *)
Definition decrypt_body (decryptor : Decryptor.t) (body : bytes) : Result bytes :=
  let parameters := Decryptor.parameters decryptor in
  let* plaintext := vec_with_capacity (zlen body) in
  let (r, s) := decrypt_loop (S (length body)) parameters body (decryptor, plaintext) in
  let* _ := r in
  let* _ := Decryptor.finish (fst s) in
  Ok (snd s).

Definition decrypt (key : Key.t) (aad : bytes) (ciphertext : bytes) : Result bytes :=
  let* split := split_header ciphertext in
  let (header, body) := split in
  let* decryptor := Decryptor.new key aad header in
  decrypt_body decryptor body.

Definition decrypt_with_parameters (key : Key.t) (aad : bytes) (parameters : Parameters.t)
    (ciphertext : bytes) : Result bytes :=
  let* split := split_header ciphertext in
  let (header, body) := split in
  let* decryptor := Decryptor.new_with_parameters key aad parameters header in
  decrypt_body decryptor body.

End Whole.
