(* ===== verification/Io.v ===== *)
(** * The [std::io] adapters

    [src/io.rs]: a writer and a reader that encrypt, and a reader that decrypts
    what it wraps. A method is a computation on the adapter's record; the caller's
    output buffer is a second cell. [fuel] bounds the retries of [read_fully] and
    [write_all] after interruptions, and the segments of [drain_message]. *)

From stdpp Require Import strings.
From S2P Require Import Prelude Bytes Error Parameters Provider Crypto Key Buffer State StdIo Wire Online.

Module StreamStatus.

Inductive t :=
| Open
| Finished
| Failed.

#[global] Instance t_eq_dec : EqDecision t.
Proof. solve_decision. Defined.

End StreamStatus.

Module DecryptStatus.

Inductive t :=
| Open
| FrameComplete
| StreamComplete
| Failed.

#[global] Instance t_eq_dec : EqDecision t.
Proof. solve_decision. Defined.

End DecryptStatus.

Definition poisoned_error : IoError.t :=
  IoError.other (IoError.Text "FLOE stream is poisoned after an earlier error"%string).

(** ** Finalization errors *)

Module FinishError.

Record t (W : Type) := mk {
  inner : W;
  error : IoError.t
}.
Arguments mk {W}.
Arguments inner {W}.
Arguments error {W}.

Definition into_error {W} (self : t W) : IoError.t := error self.
Definition into_inner {W} (self : t W) : W := inner self.
Definition into_parts {W} (self : t W) : IoError.t * W := (error self, inner self).

Definition wrap {W} (result : IoResult unit) (inner : W) : outcome (t W) W :=
  match result with
  | Ok _ => Ok inner
  | Err error => Err {| inner := inner; error := error |}
  | Halt h => Halt h
  end.

End FinishError.

(** ** The encrypting writer *)

Module EncryptWriter.
Section Backend.
Context {T : Target} {F : Features} {B : Backend} {Su : Support}.
Context {W : Type} {WW : Write W} (fuel : nat).

Record t := mk {
  inner : W;
  encryptor : option Encryptor.t;
  header : Header.t;
  buffer : SegmentBuffer.t;
  status : StreamStatus.t
}.

Definition set_inner (self : t) (w : W) : t := mk w (encryptor self) (header self) (buffer self) (status self).
Definition set_encryptor (self : t) (e : option Encryptor.t) : t :=
  mk (inner self) e (header self) (buffer self) (status self).
Definition set_buffer (self : t) (b : SegmentBuffer.t) : t :=
  mk (inner self) (encryptor self) (header self) b (status self).
Definition set_status (st : StreamStatus.t) (self : t) : t :=
  mk (inner self) (encryptor self) (header self) (buffer self) st.

Definition inner_cell : lens t W := mkLens inner set_inner.
Definition buffer_cell : lens t SegmentBuffer.t := mkLens buffer set_buffer.

(** The encryptor in the [Option], borrowed by [as_mut], next to the buffer or
    to the buffer's raw storage. *)
Definition with_buffer (e : Encryptor.t) : lens t (Encryptor.t * SegmentBuffer.t) :=
  mkLens (fun self => (e, buffer self))
    (fun self c => set_buffer (set_encryptor self (Some (fst c))) (snd c)).

Definition with_raw (e : Encryptor.t) : lens t (Encryptor.t * bytes) :=
  mkLens (fun self => (e, view SegmentBuffer.raw_mut (buffer self)))
    (fun self c =>
       set_buffer (set_encryptor self (Some (fst c))) (update SegmentBuffer.raw_mut (buffer self) (snd c))).

Definition new (entropy : Entropy) (inner : W) (key : Key.t) (aad : bytes) (parameters : Parameters.t) : IoResult t :=
  let* encryptor := map_err encryption_error (Encryptor.new entropy key aad parameters) in
  let header := Encryptor.header encryptor in
  let (r, inner) := write_all fuel (Header.as_bytes header) inner in
  let* _ := r in
  let* buffer := SegmentBuffer.new parameters in
  Ok {| inner := inner; encryptor := Some encryptor; header := header; buffer := buffer;
        status := StreamStatus.Open |}.

Definition parameters (self : t) : Parameters.t := SegmentBuffer.parameters (buffer self).
Definition get_ref (self : t) : W := inner self.
Definition get_mut : lens t W := inner_cell.
Definition is_finished (self : t) : bool := bool_decide (status self = StreamStatus.Finished).

(** [poison_on_error]: an error of the operation poisons the writer. *)
Definition poison_on_error (op : IO t unit) : IO t unit :=
  matchM op ret (fun error =>
    do! modify (set_status StreamStatus.Failed) in
    fail error).

(** [self.inner.write_all(self.buffer.ciphertext()?)?]. *)
Definition write_ciphertext : IO t unit :=
  let! self := get in
  let? ciphertext := map_err encryption_error (SegmentBuffer.ciphertext (buffer self)) in
  zoom inner_cell (write_all fuel ciphertext).

Definition finish_message : IO t unit :=
  let! self := get in
  do! modify (fun self => set_encryptor self None) in
  let? encryptor := ok_or (encryptor self) poisoned_error in
  do! (match SegmentBuffer.plaintext_length (buffer self) with
       | Err _ =>
           do! zoom buffer_cell (map_errM encryption_error (SegmentBuffer.prepare_plaintext 0)) in
           ret tt
       | _ => ret tt
       end) in
  do! zoom buffer_cell
        (map_errM (fun error => encryption_error (FinalEncryptError.into_error error))
          (Finalize.encrypt_final_segment_in_place encryptor)) in
  do! write_ciphertext in
  do! zoom inner_cell flush in
  modify (set_status StreamStatus.Finished).

Definition try_finish : IO t unit :=
  let! self := get in
  match status self with
  | StreamStatus.Finished => ret tt
  | StreamStatus.Failed => fail poisoned_error
  | StreamStatus.Open => poison_on_error finish_message
  end.

Definition finish (self : t) : outcome (FinishError.t W) W :=
  let (result, self) := try_finish self in
  FinishError.wrap result (inner self).

Definition into_inner_unfinished (self : t) : W := inner self.

Definition emit_non_final : IO t unit :=
  poison_on_error (
    let! self := get in
    let? encryptor := ok_or (encryptor self) poisoned_error in
    do! zoom (with_buffer encryptor)
          (map_errM encryption_error Encryptor.encrypt_non_final_segment_in_place) in
    write_ciphertext).

Definition write_segment_direct (chunk : bytes) : IO t Z :=
  do! poison_on_error (
        let! self := get in
        let? encryptor := ok_or (encryptor self) poisoned_error in
        let! written := zoom (with_raw encryptor)
          (map_errM encryption_error (Encryptor.encrypt_non_final_segment_into chunk)) in
        do! zoom buffer_cell (SegmentBuffer.mark_ciphertext written) in
        write_ciphertext) in
  ret (zlen chunk).

(** [impl Write]. *)
Definition write (input : bytes) : IO t Z :=
  if zlen input =? 0 then ret 0
  else
    let! self := get in
    do! (match status self with
         | StreamStatus.Open => ret tt
         | StreamStatus.Finished =>
             fail (IoError.new ErrorKind.BrokenPipe
                     (IoError.Text "FLOE encrypting writer is already finished"%string))
         | StreamStatus.Failed => fail poisoned_error
         end) in
    let? capacity := Parameters.plaintext_segment_length (parameters self) in
    if (capacity <=? zlen input) && negb (is_ok (SegmentBuffer.plaintext_length (buffer self))) then
      let? chunk := index input 0 capacity in
      write_segment_direct chunk
    else
      let! copied := zoom buffer_cell (SegmentBuffer.extend_plaintext input) in
      if 0 <? copied then ret copied
      else
        do! emit_non_final in
        if capacity <=? zlen input then
          let? chunk := index input 0 capacity in
          write_segment_direct chunk
        else zoom buffer_cell (SegmentBuffer.extend_plaintext input).

Definition flush : IO t unit :=
  let! self := get in
  if bool_decide (status self = StreamStatus.Failed) then fail poisoned_error
  else zoom inner_cell StdIo.flush.

End Backend.
End EncryptWriter.

(** ** The encrypting reader *)

Module EncryptReader.
Section Backend.
Context {T : Target} {F : Features} {B : Backend} {Su : Support}.
Context {R : Type} {RR : Read R} (fuel : nat).

Record t := mk {
  inner : R;
  encryptor : option Encryptor.t;
  header : Header.t;
  header_position : Z;
  buffer : SegmentBuffer.t;
  ciphertext_position : Z;
  ciphertext_length : Z;
  lookahead : option byte;
  status : StreamStatus.t
}.

Definition set_inner (self : t) (r : R) : t :=
  mk r (encryptor self) (header self) (header_position self) (buffer self) (ciphertext_position self)
    (ciphertext_length self) (lookahead self) (status self).
Definition set_encryptor (self : t) (e : option Encryptor.t) : t :=
  mk (inner self) e (header self) (header_position self) (buffer self) (ciphertext_position self)
    (ciphertext_length self) (lookahead self) (status self).
Definition set_header_position (n : Z) (self : t) : t :=
  mk (inner self) (encryptor self) (header self) n (buffer self) (ciphertext_position self)
    (ciphertext_length self) (lookahead self) (status self).
Definition set_buffer (self : t) (b : SegmentBuffer.t) : t :=
  mk (inner self) (encryptor self) (header self) (header_position self) b (ciphertext_position self)
    (ciphertext_length self) (lookahead self) (status self).
Definition set_ciphertext_position (n : Z) (self : t) : t :=
  mk (inner self) (encryptor self) (header self) (header_position self) (buffer self) n
    (ciphertext_length self) (lookahead self) (status self).
Definition set_ciphertext_length (n : Z) (self : t) : t :=
  mk (inner self) (encryptor self) (header self) (header_position self) (buffer self) (ciphertext_position self)
    n (lookahead self) (status self).
Definition set_lookahead (l : option byte) (self : t) : t :=
  mk (inner self) (encryptor self) (header self) (header_position self) (buffer self) (ciphertext_position self)
    (ciphertext_length self) l (status self).
Definition set_status (st : StreamStatus.t) (self : t) : t :=
  mk (inner self) (encryptor self) (header self) (header_position self) (buffer self) (ciphertext_position self)
    (ciphertext_length self) (lookahead self) st.

Definition inner_cell : lens t R := mkLens inner set_inner.
Definition buffer_cell : lens t SegmentBuffer.t := mkLens buffer set_buffer.

(** The wrapped reader and the buffer's storage, as [read_fully] borrows them. *)
Definition inner_and_raw : lens t (R * bytes) :=
  mkLens (fun self => (inner self, view SegmentBuffer.raw_mut (buffer self)))
    (fun self c => set_buffer (set_inner self (fst c)) (update SegmentBuffer.raw_mut (buffer self) (snd c))).

Definition with_buffer (e : Encryptor.t) : lens t (Encryptor.t * SegmentBuffer.t) :=
  mkLens (fun self => (e, buffer self))
    (fun self c => set_buffer (set_encryptor self (Some (fst c))) (snd c)).

(** The encryptor in the [Option] and the caller's output. *)
Definition with_output (e : Encryptor.t) : lens (t * bytes) (Encryptor.t * bytes) :=
  mkLens (fun s => (e, snd s)) (fun s c => (set_encryptor (fst s) (Some (fst c)), snd c)).

Definition new (entropy : Entropy) (inner : R) (key : Key.t) (aad : bytes) (parameters : Parameters.t) : IoResult t :=
  let* encryptor := map_err encryption_error (Encryptor.new entropy key aad parameters) in
  let* buffer := SegmentBuffer.new parameters in
  Ok {| inner := inner; encryptor := Some encryptor; header := Encryptor.header encryptor; header_position := 0;
        buffer := buffer; ciphertext_position := 0; ciphertext_length := 0; lookahead := None;
        status := StreamStatus.Open |}.

Definition parameters (self : t) : Parameters.t := SegmentBuffer.parameters (buffer self).
Definition get_ref (self : t) : R := inner self.
Definition get_mut : lens t R := inner_cell.
Definition is_finished (self : t) : bool :=
  bool_decide (status self = StreamStatus.Finished) && (ciphertext_position self =? ciphertext_length self).
Definition into_inner_unfinished (self : t) : R := inner self.

Definition fill_plaintext : IO t bool :=
  let! self := get in
  let? capacity := Parameters.plaintext_segment_length (parameters self) in
  let! plaintext := zoom buffer_cell (map_errM encryption_error (SegmentBuffer.prepare_plaintext capacity)) in
  let (start, stop) := plaintext : Z * Z in
  let! self := get in
  do! modify (set_lookahead None) in
  let! plaintext_length :=
    match lookahead self with
    | Some byte =>
        do! zoom buffer_cell (zoom SegmentBuffer.raw_mut (zoom_range start stop (
              let! plaintext := get in
              let? plaintext := copy_to plaintext 0 1 [byte] in
              put plaintext))) in
        ret 1
    | None => ret 0
    end in
  let! filled := zoom inner_and_raw
    (zoom_range_snd start stop (zoom_range_snd plaintext_length capacity (read_fully fuel))) in
  let? plaintext_length := usize (plaintext_length + filled) in
  let! is_final :=
    if plaintext_length <? capacity then ret true
    else
      let! (actual, trailing) := zoom inner_cell (with_local (zeros 1) (read_fully fuel)) in
      if actual =? 0 then ret true
      else
        do! modify (set_lookahead (head trailing)) in
        ret false in
  do! zoom buffer_cell (map_errM encryption_error (SegmentBuffer.truncate_plaintext plaintext_length)) in
  ret is_final.

Definition try_load_segment : IO t unit :=
  let! is_final := fill_plaintext in
  do! modify (set_ciphertext_position 0) in
  let! length :=
    if is_final : bool then
      let! self := get in
      do! modify (fun self => set_encryptor self None) in
      let? encryptor := ok_or (encryptor self) poisoned_error in
      let! encrypted := zoom buffer_cell
        (map_errM (fun error => encryption_error (FinalEncryptError.into_error error))
          (Finalize.encrypt_final_segment_in_place encryptor)) in
      do! modify (set_status StreamStatus.Finished) in
      ret (zlen encrypted)
    else
      let! self := get in
      let? encryptor := ok_or (encryptor self) poisoned_error in
      let! encrypted := zoom (with_buffer encryptor)
        (map_errM encryption_error Encryptor.encrypt_non_final_segment_in_place) in
      ret (zlen encrypted) in
  modify (set_ciphertext_length length).

Definition load_segment : IO t unit :=
  matchM try_load_segment ret (fun error =>
    do! modify (set_status StreamStatus.Failed) in
    fail error).

Definition try_emit_segment_direct : IO (t * bytes) Z :=
  let! is_final := zoom lens_fst fill_plaintext in
  if is_final : bool then
    let! self := zoom lens_fst get in
    do! zoom lens_fst (modify (fun self => set_encryptor self None)) in
    let? encryptor := ok_or (encryptor self) poisoned_error in
    let? plaintext := map_err encryption_error (SegmentBuffer.plaintext (buffer self)) in
    let! written := zoom lens_snd
      (map_errM (fun error => encryption_error (FinalEncryptError.into_error error))
        (Finalize.encrypt_final_segment_into encryptor plaintext)) in
    do! zoom lens_fst (modify (set_status StreamStatus.Finished)) in
    ret written
  else
    let! self := zoom lens_fst get in
    let? encryptor := ok_or (encryptor self) poisoned_error in
    let? plaintext := map_err encryption_error (SegmentBuffer.plaintext (buffer self)) in
    zoom (with_output encryptor)
      (map_errM encryption_error (Encryptor.encrypt_non_final_segment_into plaintext)).

Definition emit_segment_direct : IO (t * bytes) Z :=
  matchM try_emit_segment_direct ret (fun error =>
    do! zoom lens_fst (modify (set_status StreamStatus.Failed)) in
    fail error).

(** The end of [read]: a part of the buffered ciphertext. *)
Definition emit_buffered : IO (t * bytes) Z :=
  let! (self, output) := get in
  let? ciphertext := map_err encryption_error (SegmentBuffer.ciphertext (buffer self)) in
  let? available := usize (ciphertext_length self - ciphertext_position self) in
  let read := Z.min (zlen output) available in
  let? stop := usize (ciphertext_position self + read) in
  let? source := index ciphertext (ciphertext_position self) stop in
  let? output := copy_to output 0 read source in
  do! zoom lens_snd (put output) in
  do! zoom lens_fst (modify (set_ciphertext_position stop)) in
  ret read.

(** [impl Read]. *)
Definition read : IO (t * bytes) Z :=
  let! (self, output) := get in
  if zlen output =? 0 then ret 0
  else if bool_decide (status self = StreamStatus.Failed) then fail poisoned_error
  else if header_position self <? Header.LEN then
    let read := Z.min (zlen output) (Header.LEN - header_position self) in
    let? stop := usize (header_position self + read) in
    let? source := index (Header.as_bytes (header self)) (header_position self) stop in
    let? output := copy_to output 0 read source in
    do! zoom lens_snd (put output) in
    do! zoom lens_fst (modify (set_header_position stop)) in
    ret read
  else if ciphertext_position self =? ciphertext_length self then
    if bool_decide (status self = StreamStatus.Finished) then ret 0
    else if Parameters.ciphertext_segment_length (parameters self) <=? zlen output then emit_segment_direct
    else
      do! zoom lens_fst load_segment in
      emit_buffered
  else emit_buffered.

End Backend.
End EncryptReader.

(** ** The decrypting reader *)

Module DecryptReader.
Section Backend.
Context {T : Target} {F : Features} {B : Backend} {Su : Support}.
Context {R : Type} {RR : Read R} (fuel : nat).

Record t := mk {
  inner : R;
  decryptor : option Decryptor.t;
  header : Header.t;
  buffer : SegmentBuffer.t;
  plaintext_consumed : Z;
  plaintext_available : Z;
  status : DecryptStatus.t
}.

Definition set_inner (self : t) (r : R) : t :=
  mk r (decryptor self) (header self) (buffer self) (plaintext_consumed self) (plaintext_available self)
    (status self).
Definition set_decryptor (self : t) (d : option Decryptor.t) : t :=
  mk (inner self) d (header self) (buffer self) (plaintext_consumed self) (plaintext_available self) (status self).
Definition set_buffer (self : t) (b : SegmentBuffer.t) : t :=
  mk (inner self) (decryptor self) (header self) b (plaintext_consumed self) (plaintext_available self)
    (status self).
Definition set_plaintext (consumed available : Z) (self : t) : t :=
  mk (inner self) (decryptor self) (header self) (buffer self) consumed available (status self).
Definition set_consumed (n : Z) (self : t) : t := set_plaintext n (plaintext_available self) self.
Definition set_status (st : DecryptStatus.t) (self : t) : t :=
  mk (inner self) (decryptor self) (header self) (buffer self) (plaintext_consumed self) (plaintext_available self)
    st.

Definition inner_cell : lens t R := mkLens inner set_inner.
Definition buffer_cell : lens t SegmentBuffer.t := mkLens buffer set_buffer.
Definition inner_and_raw : lens t (R * bytes) :=
  mkLens (fun self => (inner self, view SegmentBuffer.raw_mut (buffer self)))
    (fun self c => set_buffer (set_inner self (fst c)) (update SegmentBuffer.raw_mut (buffer self) (snd c))).
Definition with_buffer (d : Decryptor.t) : lens t (Decryptor.t * SegmentBuffer.t) :=
  mkLens (fun self => (d, buffer self))
    (fun self c => set_buffer (set_decryptor self (Some (fst c))) (snd c)).
Definition with_output (d : Decryptor.t) : lens (t * bytes) (Decryptor.t * bytes) :=
  mkLens (fun s => (d, snd s)) (fun s c => (set_decryptor (fst s) (Some (fst c)), snd c)).

Definition from_decryptor {E} (inner : R) (decryptor : Decryptor.t) (header : Header.t) : outcome E t :=
  let* buffer := SegmentBuffer.new (Decryptor.parameters decryptor) in
  Ok {| inner := inner; decryptor := Some decryptor; header := header; buffer := buffer;
        plaintext_consumed := 0; plaintext_available := 0; status := DecryptStatus.Open |}.

Definition new (inner : R) (key : Key.t) (aad : bytes) : IoResult t :=
  let (header, inner) := read_header fuel inner in
  let* header := header in
  let* decryptor := map_err decryption_error (Decryptor.new key aad header) in
  from_decryptor inner decryptor header.

Definition new_with_parameters (inner : R) (key : Key.t) (aad : bytes) (parameters : Parameters.t) : IoResult t :=
  let (header, inner) := read_header fuel inner in
  let* header := header in
  let* decryptor := map_err decryption_error (Decryptor.new_with_parameters key aad parameters header) in
  from_decryptor inner decryptor header.

Definition parameters (self : t) : Parameters.t := SegmentBuffer.parameters (buffer self).
Definition get_ref (self : t) : R := inner self.

(** The wrapped reader is borrowed mutably: what the caller does with it. *)
Definition get_mut {E A} (use : M E R A) : M E t A :=
  do! modify (fun self =>
        if bool_decide (status self = DecryptStatus.StreamComplete)
        then set_status DecryptStatus.FrameComplete self else self) in
  zoom inner_cell use.

(** The final segment was authenticated. *)
Definition frame_complete (self : t) : bool :=
  bool_decide (status self = DecryptStatus.FrameComplete) || bool_decide (status self = DecryptStatus.StreamComplete).

Definition is_finished (self : t) : bool :=
  frame_complete self && (plaintext_consumed self =? plaintext_available self).

Definition fetch_segment : IO t SegmentFraming.t :=
  let! (actual, prefix) := zoom inner_cell (with_local (zeros SEGMENT_PREFIX_LENGTH) (read_fully fuel)) in
  if negb (actual =? zlen prefix) then fail (decryption_error Truncated)
  else
    let! self := get in
    let? framing := map_err decryption_error (SegmentFraming.decode (parameters self) prefix) in
    let ciphertext_length := SegmentFraming.ciphertext_length framing in
    let! ciphertext := zoom buffer_cell
      (map_errM decryption_error (SegmentBuffer.prepare_ciphertext ciphertext_length)) in
    let (start, stop) := ciphertext : Z * Z in
    do! zoom buffer_cell (zoom SegmentBuffer.raw_mut (zoom_range start stop (
          let! ciphertext := get in
          let? ciphertext := copy_to ciphertext 0 (zlen prefix) prefix in
          put ciphertext))) in
    let! actual := zoom inner_and_raw
      (zoom_range_snd start stop (zoom_range_snd (zlen prefix) (stop - start) (read_fully fuel))) in
    let? expected_remainder := usize (ciphertext_length - zlen prefix) in
    if negb (actual =? expected_remainder) then
      let? total := usize (zlen prefix + actual) in
      fail (decryption_error (InvalidCiphertextLength total (Exactly ciphertext_length)))
    else ret framing.

Definition finish_if_final (framing : SegmentFraming.t) : IO t unit :=
  if SegmentFraming.is_final framing then
    let! self := get in
    do! modify (fun self => set_decryptor self None) in
    let? decryptor := ok_or (decryptor self) poisoned_error in
    do? map_err decryption_error (Decryptor.finish decryptor) in
    modify (set_status DecryptStatus.FrameComplete)
  else ret tt.

Definition try_load_segment : IO t unit :=
  let! framing := fetch_segment in
  let! self := get in
  let? decryptor := ok_or (decryptor self) poisoned_error in
  let! plaintext := zoom (with_buffer decryptor)
    (map_errM decryption_error Decryptor.decrypt_segment_in_place) in
  do! finish_if_final framing in
  modify (set_plaintext 0 (DecryptionState.borrowed_length plaintext)).

Definition load_segment : IO t unit :=
  matchM try_load_segment ret (fun error =>
    do! modify (set_status DecryptStatus.Failed) in
    fail error).

(** The loop of [drain_message]. *)
Fixpoint drain_loop (iterations : nat) : IO t unit :=
  match iterations with
  | O => halted OutOfFuel
  | S iterations =>
      let! self := get in
      if bool_decide (status self = DecryptStatus.Open) then
        do! load_segment in
        do! modify (fun self => set_consumed (plaintext_available self) self) in
        drain_loop iterations
      else ret tt
  end.

(** Every segment takes bytes from the reader, so the fuel for reading is also
    enough for the segments. *)
Definition drain_message : IO t unit :=
  do! modify (fun self => set_consumed (plaintext_available self) self) in
  do! drain_loop fuel in
  let! self := get in
  if bool_decide (status self = DecryptStatus.Failed) then fail poisoned_error else ret tt.

Definition try_finish : IO t unit :=
  let! self := get in
  if bool_decide (status self = DecryptStatus.StreamComplete) then ret tt
  else
    do! drain_message in
    matchM (zoom inner_cell (with_local (zeros 1) (read_fully fuel)))
      (fun '(actual, _) =>
        if actual =? 0 then modify (set_status DecryptStatus.StreamComplete)
        else
          do! modify (set_status DecryptStatus.Failed) in
          fail (IoError.new ErrorKind.InvalidData
                  (IoError.Text "FLOE ciphertext has data after its final segment"%string)))
      (fun error =>
        do! modify (set_status DecryptStatus.Failed) in
        fail error).

Definition try_finish_frame : IO t unit := drain_message.

Definition finish (self : t) : outcome (FinishError.t R) R :=
  let (result, self) := try_finish self in
  FinishError.wrap result (inner self).

Definition finish_frame (self : t) : outcome (FinishError.t R) R :=
  let (result, self) := try_finish_frame self in
  FinishError.wrap result (inner self).

Definition into_inner_unchecked (self : t) : R := inner self.

Definition try_read_segment_direct : IO (t * bytes) Z :=
  let! framing := zoom lens_fst fetch_segment in
  let! self := zoom lens_fst get in
  let? decryptor := ok_or (decryptor self) poisoned_error in
  let? ciphertext := map_err decryption_error (SegmentBuffer.ciphertext (buffer self)) in
  let! written := zoom (with_output decryptor)
    (map_errM decryption_error (Decryptor.decrypt_segment_into_framed ciphertext framing)) in
  do! zoom lens_fst (finish_if_final framing) in
  do! zoom lens_fst (modify (set_plaintext 0 0)) in
  ret written.

Definition read_segment_direct : IO (t * bytes) Z :=
  matchM try_read_segment_direct ret (fun error =>
    do! zoom lens_fst (modify (set_status DecryptStatus.Failed)) in
    fail error).

(** The end of [read]: a part of the buffered plaintext. *)
Definition release_buffered : IO (t * bytes) Z :=
  let! (self, output) := get in
  let? plaintext := map_err decryption_error (SegmentBuffer.plaintext (buffer self)) in
  let? available := usize (plaintext_available self - plaintext_consumed self) in
  let read := Z.min (zlen output) available in
  let? stop := usize (plaintext_consumed self + read) in
  let? source := index plaintext (plaintext_consumed self) stop in
  let? output := copy_to output 0 read source in
  do! zoom lens_snd (put output) in
  do! zoom lens_fst (modify (set_consumed stop)) in
  ret read.

(** [impl Read]. The [debug_assert] is a panic when it does not hold. *)
Definition read : IO (t * bytes) Z :=
  let! (self, output) := get in
  if zlen output =? 0 then ret 0
  else if bool_decide (status self = DecryptStatus.Failed) then fail poisoned_error
  else if plaintext_consumed self =? plaintext_available self then
    if frame_complete self then ret 0
    else
      let? capacity := Parameters.plaintext_segment_length (parameters self) in
      if capacity <=? zlen output then read_segment_direct
      else
        do! zoom lens_fst load_segment in
        let! (self, _) := get in
        if plaintext_consumed self =? plaintext_available self then
          if frame_complete self then ret 0 else halted Panicked
        else release_buffered
  else release_buffered.

End Backend.
End DecryptReader.
