(* ===== verification/Display.v ===== *)
(** * The texts of errors

    The [Display] impls of [src/error.rs], [src/online.rs] and [src/io.rs]. The
    text of an [Error] tells it apart from every other error, with its lengths:
    a program that logs only texts loses nothing. *)

From Stdlib Require Import Ascii.
From stdpp Require Import strings pretty.
From S2P Require Import Prelude Bytes Error Parameters Provider Crypto Key State StdIo Wire Online Io.

(** [write!] of a sequence of pieces is their concatenation; integers print in
    decimal, as [pretty] does. *)
Definition display_requirement (self : LengthRequirement) : string :=
  match self with
  | Exactly length => "exactly " +:+ pretty length
  | AtLeast length => "at least " +:+ pretty length
  | AtMost length => "at most " +:+ pretty length
  | Between minimum maximum => "between " +:+ pretty minimum +:+ " and " +:+ pretty maximum
  end.

(** The loop over [COMPILED]: a separator before each name but the first. *)
Fixpoint display_providers (index : nat) (providers : list Provider.t) : string :=
  match providers with
  | [] => ""
  | provider :: providers =>
      (if (index =? 0)%nat then "" else ", ") +:+ Provider.name provider +:+ display_providers (S index) providers
  end.

Section Texts.
Context {F : Features}.

Definition display_error (self : Error) : string :=
  match self with
  | InvalidKeyLength actual => "FLOE keys must be 32 bytes, got " +:+ pretty actual
  | InvalidParameters => "FLOE parameter sets do not match"
  | InvalidSegmentLength actual =>
      let supported := Parameters.VALID_SEGMENT_LENGTHS in
      "invalid FLOE segment length " +:+ pretty actual +:+ "; supported lengths are " +:+ pretty (fst supported)
        +:+ " through " +:+ pretty (snd supported - 1)
  | InvalidPlaintextLength actual required =>
      "invalid plaintext segment length " +:+ pretty actual +:+ "; required " +:+ display_requirement required
  | InvalidHeaderLength actual =>
      "FLOE headers must be " +:+ pretty HEADER_LENGTH +:+ " bytes, got " +:+ pretty actual
  | InvalidHeaderParameters => "header parameters do not match the selected FLOE parameters"
  | InvalidHeaderTag => "invalid FLOE header tag"
  | InvalidCiphertextLength actual required =>
      "invalid ciphertext segment length " +:+ pretty actual +:+ "; required " +:+ display_requirement required
  | InvalidSegmentPrefix => "non-final FLOE segment has an invalid prefix"
  | AuthenticationFailed => "FLOE segment authentication failed"
  | Closed => "FLOE online state is already closed"
  | Truncated => "FLOE input has no authenticated final segment"
  | SegmentLimit => "FLOE segment limit exceeded"
  | OutputTooSmall actual required =>
      "output buffer is " +:+ pretty actual +:+ " bytes; " +:+ pretty required +:+ " bytes are required"
  | InvalidBufferState => "segment buffer is not prepared for this operation"
  | ProviderSelectionRequired =>
      "multiple FLOE providers are compiled (" +:+ display_providers 0 Provider.COMPILED
        +:+ ") and none was named; construct keys with Key::from_bytes_with_provider or Key::generate_with_provider"
  | LengthOverflow => "FLOE length calculation overflowed"
  | RngFailure => "random backend generation failed"
  | CryptoFailure => "cryptographic backend operation failed"
  end.

Definition display_final_encrypt_error {T : Target} {B : Backend} (self : FinalEncryptError.t) : string :=
  "failed to encrypt final FLOE segment: " +:+ display_error (FinalEncryptError.error self).

(** The text of an [io::Error] is that of what it carries; the errors of the
    wrapped reader or writer have texts of their own. *)
Definition display_io_error (foreign : Z -> string) (self : IoError.t) : string :=
  match IoError.carried self with
  | IoError.Floe error => display_error error
  | IoError.Text message => message
  | IoError.Foreign code => foreign code
  end.

(** [std::error::Error::source]. *)
Definition final_encrypt_error_source {T : Target} {B : Backend} (self : FinalEncryptError.t) : option Error :=
  Some (FinalEncryptError.error self).

Definition finish_error_source {W} (self : FinishError.t W) : option IoError.t := Some (FinishError.error self).

Definition display_finish_error {W} (foreign : Z -> string) (self : FinishError.t W) : string :=
  "failed to finish FLOE stream: " +:+ display_io_error foreign (FinishError.error self).

End Texts.

(** ** Decimal numbers in a text *)

#[local] Arguments String.append !_ _ : simpl nomatch.

(** The characters of a number, and a text that does not go on with one. *)
Definition numeral (c : ascii) : bool :=
  bool_decide (c = "-"%char) || ((48 <=? Z.of_nat (nat_of_ascii c)) && (Z.of_nat (nat_of_ascii c) <=? 57)).

Fixpoint numerals (s : string) : bool :=
  match s with
  | EmptyString => true
  | String c s => numeral c && numerals s
  end.

Definition breaks (s : string) : bool :=
  match s with
  | EmptyString => true
  | String c _ => negb (numeral c)
  end.

Lemma numeral_digit n : numeral (pretty_N_char n) = true.
Proof. unfold pretty_N_char. by repeat case_match. Qed.

Lemma numerals_go n s : numerals s = true -> numerals (pretty_N_go n s) = true.
Proof.
  revert s. induction (N.lt_wf_0 n) as [n _ IH]. intros s Hs.
  assert (n = 0 \/ 0 < n)%N as [->|Hn] by lia; [by rewrite pretty_N_go_0|].
  rewrite pretty_N_go_step by done. apply IH; [by apply N.div_lt|].
  cbn [numerals]. by rewrite numeral_digit, Hs.
Qed.

Lemma numerals_N (n : N) : numerals (pretty n) = true.
Proof. unfold pretty, pretty_N. case_decide; [done|by apply numerals_go]. Qed.

Lemma numerals_pretty (n : Z) : numerals (pretty n) = true.
Proof. destruct n as [|p|p]; [done|exact (numerals_N (N.pos p))|exact (numerals_N (N.pos p))]. Qed.

(** Where a number ends is seen from the text. *)
Lemma numerals_split s s' t t' :
  numerals s = true -> numerals s' = true -> breaks t = true -> breaks t' = true ->
  s +:+ t = s' +:+ t' -> s = s' /\ t = t'.
Proof.
  revert s'. induction s as [|c s IH]; intros [|c' s'] Hs Hs' Ht Ht' H; cbn [numerals String.append] in *.
  - done.
  - subst t. apply andb_true_iff in Hs' as [Hc _]. cbn [breaks] in Ht. by rewrite Hc in Ht.
  - subst t'. apply andb_true_iff in Hs as [Hc _]. cbn [breaks] in Ht'. by rewrite Hc in Ht'.
  - injection H as <- H. apply andb_true_iff in Hs as [_ Hs], Hs' as [_ Hs'].
    by destruct (IH s' Hs Hs' Ht Ht' H) as [-> ->].
Qed.

Lemma pretty_split (x y : Z) t t' :
  breaks t = true -> breaks t' = true -> pretty x +:+ t = pretty y +:+ t' -> x = y /\ t = t'.
Proof.
  intros Ht Ht' H. apply numerals_split in H as [Hn ->]; [|auto using numerals_pretty..].
  split; [by apply (inj pretty) in Hn|done].
Qed.

Lemma pretty_end (x y : Z) : pretty x = pretty y -> x = y.
Proof. apply (inj pretty). Qed.

(** Two texts that are equal: where they begin differently there is none, and
    where they begin alike the rest is compared. *)
Ltac same_text H :=
  cbn [String.append] in H;
  first [discriminate H | injection H as H].

Lemma display_requirement_inj r r' : display_requirement r = display_requirement r' -> r = r'.
Proof.
  intros H. destruct r, r'; cbn [display_requirement] in H; same_text H;
    try (by apply pretty_end in H as ->).
  apply pretty_split in H as [-> H]; [|done..]. same_text H. by apply pretty_end in H as ->.
Qed.

(** A length and a requirement, after equal beginnings. *)
Lemma required_text_inj (n n' : Z) r r' :
  pretty n +:+ "; required " +:+ display_requirement r = pretty n' +:+ "; required " +:+ display_requirement r' ->
  n = n' /\ r = r'.
Proof.
  intros H. apply pretty_split in H as [-> H]; [|done..]. split; [done|].
  same_text H. by apply display_requirement_inj.
Qed.

(** C32: the text of an error tells which error it is, with every length and
    requirement that it reports, whichever providers are compiled. *)
Theorem error_texts_distinct {F : Features} (e e' : Error) : display_error e = display_error e' <-> e = e'.
Proof.
  split; [|by intros ->]. intros H.
  destruct e, e'; cbn [display_error] in H; first [done | same_text H]; try done.
  - by apply pretty_end in H as ->.
  - by apply pretty_split in H as [-> _].
  - by apply required_text_inj in H as [-> ->].
  - by apply pretty_end in H as ->.
  - by apply required_text_inj in H as [-> ->].
  - apply pretty_split in H as [-> H]; [|done..]. same_text H. by apply pretty_split in H as [-> _].
Qed.
