(* ===== verification/RandomAccess.v ===== *)
(** * The random-access reader

    [src/random_access.rs]: reads of segments and ranges of a complete message in
    a source that seeks, and [Read] and [Seek] over its plaintext. [fuel] bounds
    the retries of [read_fully] after interruptions. *)

From stdpp Require Import strings pretty.
From S2P Require Import Prelude Bytes Error Parameters Provider Crypto Key Buffer State StdIo Wire.

(** [Bound<u64>], and [RangeBounds<u64>] as its two bounds. *)
Module Bound.

Inductive t :=
| Included (n : Z)
| Excluded (n : Z)
| Unbounded.

End Bound.

Record RangeBounds := range_bounds {
  start_bound : Bound.t;
  end_bound : Bound.t
}.

(** ** Bounds and lengths *)

Definition validate_range (start stop plaintext_length : Z) : IoResult unit :=
  if (stop <? start) || (plaintext_length <? stop) then
    Err (IoError.new ErrorKind.InvalidInput (IoError.Text
      ("plaintext range " +:+ pretty start +:+ ".." +:+ pretty stop +:+ " is outside 0.." +:+ pretty plaintext_length)))
  else Ok tt.

Definition resolve_bounds (range : RangeBounds) (plaintext_length : Z) : IoResult (Z * Z) :=
  let* start :=
    match start_bound range with
    | Bound.Included start => Ok start
    | Bound.Excluded start => ok_or (checked_u64 (start + 1)) length_overflow
    | Bound.Unbounded => Ok 0
    end in
  let* stop :=
    match end_bound range with
    | Bound.Included stop => ok_or (checked_u64 (stop + 1)) length_overflow
    | Bound.Excluded stop => Ok stop
    | Bound.Unbounded => Ok plaintext_length
    end in
  let* _ := validate_range start stop plaintext_length in
  Ok (start, stop).

Section Lengths.
Context {R : Type} {RS : Seek R}.

Definition remaining_length (message_start : Z) : IO R Z :=
  let! stop := seek (SeekFrom.End_ 0) in
  lift (ok_or (checked_u64 (stop - message_start))
    (IoError.new ErrorKind.InvalidData
       (IoError.Text "FLOE ciphertext ends before its starting position"%string))).

End Lengths.

Definition validate_header_bound {T : Target} (ciphertext_length : Z) : IoResult unit :=
  if ciphertext_length <? HEADER_LENGTH_U64 then
    Err (decryption_error (InvalidHeaderLength (length_u64_to_usize_saturating ciphertext_length)))
  else Ok tt.

Module Reader.
Section Backend.
Context {T : Target} {F : Features} {B : Backend} {Su : Support}.
Context {R : Type} {RR : Read R} {RS : Seek R} (fuel : nat).

Record t := mk {
  inner : R;
  state : DecryptionState.t;
  header : Header.t;
  layout : MessageLayout.t;
  message_start : Z;
  scratch : SegmentBuffer.t;
  plaintext_position : Z;
  cached_position : option Z;
  inner_position : option Z
}.

Definition set_inner (self : t) (r : R) : t :=
  mk r (state self) (header self) (layout self) (message_start self) (scratch self) (plaintext_position self)
    (cached_position self) (inner_position self).
Definition set_state (self : t) (s : DecryptionState.t) : t :=
  mk (inner self) s (header self) (layout self) (message_start self) (scratch self) (plaintext_position self)
    (cached_position self) (inner_position self).
Definition set_scratch (self : t) (b : SegmentBuffer.t) : t :=
  mk (inner self) (state self) (header self) (layout self) (message_start self) b (plaintext_position self)
    (cached_position self) (inner_position self).
Definition set_plaintext_position (n : Z) (self : t) : t :=
  mk (inner self) (state self) (header self) (layout self) (message_start self) (scratch self) n
    (cached_position self) (inner_position self).
Definition set_cached_position (n : option Z) (self : t) : t :=
  mk (inner self) (state self) (header self) (layout self) (message_start self) (scratch self)
    (plaintext_position self) n (inner_position self).
Definition set_inner_position (n : option Z) (self : t) : t :=
  mk (inner self) (state self) (header self) (layout self) (message_start self) (scratch self)
    (plaintext_position self) (cached_position self) n.

Definition inner_cell : lens t R := mkLens inner set_inner.
Definition scratch_cell : lens t SegmentBuffer.t := mkLens scratch set_scratch.

(** Two fields at a time, as calls borrow them. *)
Definition inner_and_raw : lens t (R * bytes) :=
  mkLens (fun self => (inner self, view SegmentBuffer.raw_mut (scratch self)))
    (fun self c => set_scratch (set_inner self (fst c)) (update SegmentBuffer.raw_mut (scratch self) (snd c))).
Definition state_and_scratch : lens t (DecryptionState.t * SegmentBuffer.t) :=
  mkLens (fun self => (state self, scratch self)) (fun self c => set_scratch (set_state self (fst c)) (snd c)).

(** The state and the caller's output. *)
Definition state_and_output : lens (t * bytes) (DecryptionState.t * bytes) :=
  mkLens (fun s => (state (fst s), snd s)) (fun s c => (set_state (fst s) (fst c), snd c)).

Definition parameters (self : t) : Parameters.t := DecryptionState.parameters (state self).
Definition plaintext_length (self : t) : Z := MessageLayout.plaintext_length (layout self).
Definition segment_count (self : t) : Z := MessageLayout.segment_count (layout self).

(** ** Segments *)

Definition segment (self : t) (position : Z) : IoResult SegmentLayout.t :=
  let* found := MessageLayout.segment_for_position (layout self) position in
  ok_or found (IoError.new ErrorKind.InvalidInput (IoError.Text
    ("FLOE segment position " +:+ pretty position +:+ " is outside 0.." +:+ pretty (segment_count self)))).

(** The tracked position spares the seek. *)
Definition seek_inner_to (offset : Z) : IO t unit :=
  let! self := get in
  if bool_decide (inner_position self = Some offset) then ret tt
  else
    do! modify (set_inner_position None) in
    do! zoom inner_cell (seek (SeekFrom.Start offset)) in
    modify (set_inner_position (Some offset)).

Definition seek_to_segment (segment : SegmentLayout.t) : IO t unit :=
  let! self := get in
  let? offset := ok_or (checked_u64 (message_start self + SegmentLayout.ciphertext_offset segment)) length_overflow in
  seek_inner_to offset.

Definition seek_to_body_start : IO t unit :=
  let! self := get in
  let? offset := ok_or (checked_u64 (message_start self + HEADER_LENGTH_U64)) length_overflow in
  seek_inner_to offset.

(** The cache is given up first, the tracked position while the read is
    outstanding. *)
Definition fetch_segment_ciphertext (segment : SegmentLayout.t) : IO t unit :=
  do! modify (set_cached_position None) in
  do! seek_to_segment segment in
  let! self := get in
  do! modify (set_inner_position None) in
  let position_after_read :=
    match inner_position self with
    | Some position => checked_u64 (position + length_usize_to_u64 (SegmentLayout.ciphertext_length segment))
    | None => None
    end in
  let! ciphertext := zoom scratch_cell
    (map_errM decryption_error (SegmentBuffer.prepare_ciphertext (SegmentLayout.ciphertext_length segment))) in
  let (start, stop) := ciphertext : Z * Z in
  do! zoom inner_and_raw (zoom_range_snd start stop (read_exact_segment fuel)) in
  modify (set_inner_position position_after_read).

Definition load_segment (segment : SegmentLayout.t) : IO t unit :=
  do! fetch_segment_ciphertext segment in
  do! zoom state_and_scratch (map_errM decryption_error (DecryptionState.decrypt_segment_in_place segment)) in
  modify (set_cached_position (Some (SegmentLayout.position segment))).

Definition load_cached_segment (segment : SegmentLayout.t) : IO t unit :=
  let! self := get in
  if bool_decide (cached_position self = Some (SegmentLayout.position segment)) then ret tt
  else load_segment segment.

Definition decrypt_segment_direct (segment : SegmentLayout.t) : IO (t * bytes) unit :=
  do! zoom lens_fst (fetch_segment_ciphertext segment) in
  let! self := zoom lens_fst get in
  let? ciphertext := map_err decryption_error (SegmentBuffer.ciphertext (scratch self)) in
  do! zoom state_and_output (map_errM decryption_error (DecryptionState.decrypt_segment_into ciphertext segment)) in
  ret tt.

(** ** Opening *)

(** The reader that [from_parts] builds, and what it does with it. *)
Definition authenticate_final : IO t unit :=
  let! self := get in
  let? final := MessageLayout.final_segment (layout self) in
  do! load_segment final in
  do! zoom scratch_cell SegmentBuffer.clear in
  do! modify (set_cached_position None) in
  seek_to_body_start.

Definition from_parts (inner : R) (state : DecryptionState.t) (header : Header.t)
    (message_start ciphertext_length : Z) : IoResult t :=
  let parameters := DecryptionState.parameters state in
  let* layout := map_err decryption_error (ciphertext_layout parameters ciphertext_length) in
  let* scratch := SegmentBuffer.new parameters in
  let (result, reader) := authenticate_final
    {| inner := inner; state := state; header := header; layout := layout; message_start := message_start;
       scratch := scratch; plaintext_position := 0; cached_position := None; inner_position := None |} in
  let* _ := result in
  Ok reader.

(** What the four constructors read from the source before [from_parts]. *)
Definition open_with (start : Header.t -> Result DecryptionState.t) (length : Z -> IO R Z)
    : IO R (Z * Header.t * DecryptionState.t * Z) :=
  let! message_start := stream_position in
  let! header := read_header fuel in
  let? state := map_err decryption_error (start header) in
  let! ciphertext_length := length message_start in
  ret (message_start, header, state, ciphertext_length).

Definition opened_from (parts : IO R (Z * Header.t * DecryptionState.t * Z)) (inner : R) : IoResult t :=
  let (parts, inner) := parts inner in
  let* (message_start, header, state, ciphertext_length) := parts in
  from_parts inner state header message_start ciphertext_length.

Definition new (inner : R) (key : Key.t) (aad : bytes) : IoResult t :=
  opened_from (open_with (start_decryption_inferred key aad) remaining_length) inner.

Definition new_with_parameters (inner : R) (key : Key.t) (aad : bytes) (parameters : Parameters.t) : IoResult t :=
  opened_from (open_with (start_decryption key aad parameters) remaining_length) inner.

Definition new_with_length (inner : R) (key : Key.t) (aad : bytes) (ciphertext_length : Z) : IoResult t :=
  let* _ := validate_header_bound ciphertext_length in
  opened_from (open_with (start_decryption_inferred key aad) (fun _ => ret ciphertext_length)) inner.

Definition new_with_length_and_parameters (inner : R) (key : Key.t) (aad : bytes) (ciphertext_length : Z)
    (parameters : Parameters.t) : IoResult t :=
  let* _ := validate_header_bound ciphertext_length in
  opened_from (open_with (start_decryption key aad parameters) (fun _ => ret ciphertext_length)) inner.

Definition get_ref (self : t) : R := inner self.

(** The wrapped reader is borrowed mutably: what the caller does with it. *)
Definition get_mut {E A} (use : M E R A) : M E t A :=
  do! modify (set_inner_position None) in
  zoom inner_cell use.

Definition into_inner (self : t) : R := inner self.

(** ** Whole segments *)

Definition read_segment_into (position : Z) : IO (t * bytes) Z :=
  let! (self, output) := get in
  let? segment := segment self position in
  let required := SegmentLayout.plaintext_length segment in
  if zlen output <? required then fail (output_too_small (zlen output) required)
  else
    do! zoom_range_snd 0 required (decrypt_segment_direct segment) in
    ret required.

Definition read_segment (position : Z) : IO t bytes :=
  let! self := get in
  let? segment := segment self position in
  let? plaintext := vec_zeroed (SegmentLayout.plaintext_length segment) in
  let! (_, plaintext) := with_local plaintext (read_segment_into position) in
  ret plaintext.

(** ** Ranges *)

(** The range covers the whole segment. *)
Definition is_covered_fully (range : Z * Z) (segment : SegmentLayout.t) : IoResult bool :=
  let segment_start := SegmentLayout.plaintext_offset segment in
  let segment_plaintext_length := length_usize_to_u64 (SegmentLayout.plaintext_length segment) in
  if fst range <=? segment_start then
    let* segment_end := u64 (segment_start + segment_plaintext_length) in
    Ok (segment_end <=? snd range)
  else Ok false.

(** The part of the buffered segment that the range takes. *)
Definition local_range (range : Z * Z) (segment_start : Z) (length : Z) : IoResult (Z * Z) :=
  let* local_start := ok_or (usize_try_from (Z.max 0 (fst range - segment_start))) length_overflow in
  let local_start := Z.min local_start length in
  let* segment_end := u64 (segment_start + length_usize_to_u64 length) in
  let* local_end_u64 := u64 (Z.min (snd range) segment_end - segment_start) in
  let* local_end := ok_or (usize_try_from local_end_u64) length_overflow in
  Ok (local_start, local_end).

(** One iteration: the value is the new [written]. *)
Definition read_position (range : Z * Z) (position written : Z) : IO (t * bytes) Z :=
  let! (self, _) := get in
  let? segment := segment self position in
  let? covered := is_covered_fully range segment in
  if covered : bool then
    let? stop := usize (written + SegmentLayout.plaintext_length segment) in
    do! zoom_range_snd written stop (decrypt_segment_direct segment) in
    ret stop
  else
    do! zoom lens_fst (load_cached_segment segment) in
    let! (self, output) := get in
    let? plaintext := map_err decryption_error (SegmentBuffer.plaintext (scratch self)) in
    let? local := local_range range (SegmentLayout.plaintext_offset segment) (zlen plaintext) in
    let? chunk := index plaintext (fst local) (snd local) in
    let? stop := usize (written + zlen chunk) in
    let? output := copy_to output written stop chunk in
    do! zoom lens_snd (put output) in
    ret stop.

(** [for position in first..=last]. *)
Fixpoint read_positions (range : Z * Z) (positions : list Z) (written : Z) : IO (t * bytes) Z :=
  match positions with
  | [] => ret written
  | position :: positions =>
      let! written := read_position range position written in
      read_positions range positions written
  end.

(** The [debug_assert] is a panic when it does not hold. *)
Definition read_resolved_range_into (range : Z * Z) : IO (t * bytes) Z :=
  if snd range <=? fst range then ret 0
  else
    let! (self, _) := get in
    let? first := MessageLayout.position_for_plaintext_offset (layout self) (fst range) in
    let? before_end := u64 (snd range - 1) in
    let? last := MessageLayout.position_for_plaintext_offset (layout self) before_end in
    let! written := read_positions range (seqZ first (last + 1 - first)) 0 in
    let? expected := u64 (snd range - fst range) in
    if length_usize_to_u64 written =? expected then ret written else halted Panicked.

Definition read_range (range : RangeBounds) : IO t bytes :=
  let! self := get in
  let? range := resolve_bounds range (plaintext_length self) in
  let? length := u64 (snd range - fst range) in
  let? capacity := ok_or (usize_try_from length) length_overflow in
  let? output := vec_zeroed capacity in
  let! (_, output) := with_local output (read_resolved_range_into range) in
  ret output.

Definition read_range_into (range : RangeBounds) : IO (t * bytes) Z :=
  let! (self, output) := get in
  let? range := resolve_bounds range (plaintext_length self) in
  let? length := u64 (snd range - fst range) in
  let? required := ok_or (usize_try_from length) length_overflow in
  if zlen output <? required then fail (output_too_small (zlen output) required)
  else read_resolved_range_into range.

(** ** [impl Read] and [impl Seek] *)

Definition read : IO (t * bytes) Z :=
  let! (self, output) := get in
  if zlen output =? 0 then ret 0
  else if plaintext_length self <=? plaintext_position self then ret 0
  else
    let? position := MessageLayout.position_for_plaintext_offset (layout self) (plaintext_position self) in
    let? segment := segment self position in
    do! zoom lens_fst (load_cached_segment segment) in
    let! (self, output) := get in
    let? plaintext := map_err decryption_error (SegmentBuffer.plaintext (scratch self)) in
    let? local := u64 (plaintext_position self - SegmentLayout.plaintext_offset segment) in
    let? local := ok_or (usize_try_from local) length_overflow in
    let? available := usize (zlen plaintext - local) in
    let read := Z.min (zlen output) available in
    let? stop := usize (local + read) in
    let? source := index plaintext local stop in
    let? output := copy_to output 0 read source in
    do! zoom lens_snd (put output) in
    let? position := u64 (plaintext_position self + length_usize_to_u64 read) in
    do! zoom lens_fst (modify (set_plaintext_position position)) in
    ret read.

Definition seek (position : SeekFrom.t) : IO t Z :=
  let! self := get in
  let resolved :=
    match position with
    | SeekFrom.Start offset => Some offset
    | SeekFrom.End_ delta => checked_u64 (plaintext_length self + delta)
    | SeekFrom.Current delta => checked_u64 (plaintext_position self + delta)
    end in
  match resolved with
  | Some position =>
      do! modify (set_plaintext_position position) in
      ret position
  | None =>
      fail (IoError.new ErrorKind.InvalidInput
              (IoError.Text "seek outside the representable plaintext position range"%string))
  end.

Definition stream_position : IO t Z :=
  let! self := get in
  ret (plaintext_position self).

End Backend.
End Reader.
