(* ===== verification/OnlineFacts.v ===== *)
(** * Facts about online encryption and decryption

    The segment counter and the two sequential states against the online
    functions of the specification, and the loops over whole messages. *)

From S2P Require Import Prelude Bytes Error Parameters Provider Crypto Key Buffer Spec State StateFacts StateProperties.
From S2P Require Import Wire Online.
Import ParametersFacts LayoutFacts BufferFacts.

(** ** Sequences of online calls in the specification *)

Section Sequences.
Context {P : Primitives} {POk : PrimitivesOk}.

(** All chunks but the last as online segments, the last as the last segment. *)
Fixpoint encryptAll (params : Z) (state : Spec.OnlineState) (ivs chunks : list bytes)
    : option (Spec.OnlineState * list bytes) :=
  match ivs, chunks with
  | aead_iv :: ivs', chunk :: chunks' =>
      if bool_decide (chunks' = []) then
        '(state, segment) ← Spec.encryptLastSegment params state aead_iv chunk;
        if bool_decide (ivs' = []) then Some (state, [segment]) else None
      else
        '(state, segment) ← Spec.encryptOnlineSegment params state aead_iv chunk;
        '(state, segments) ← encryptAll params state ivs' chunks';
        Some (state, segment :: segments)
  | _, _ => None
  end.

Fixpoint decryptAll (params : Z) (state : Spec.OnlineState) (segments : list bytes)
    : option (Spec.OnlineState * bytes) :=
  match segments with
  | [] => Some (state, [])
  | segment :: segments =>
      '(state, plaintext) ← Spec.decryptAnyOnlineSegment params state segment;
      '(state, rest) ← decryptAll params state segments;
      Some (state, plaintext ++ rest)
  end.

(** A segment's prefix tells which online function decrypts it. *)
Lemma framing_ok_prefix params segment is_final :
  32 <= params < u32_max -> Spec.framing_ok params segment is_final = true ->
  (Spec.BE2I (ztake 4 segment) =? 0xFFFFFFFF) = negb is_final.
Proof.
  unfold Spec.framing_ok, Spec.AEAD_IV_LEN, Spec.AEAD_TAG_LEN, u32_max.
  destruct is_final; simpl; lia.
Qed.

Lemma decryptSegment_framed params state segment position is_final plaintext :
  Spec.decryptSegment params state segment position is_final = Some plaintext ->
  Spec.framing_ok params segment is_final = true.
Proof. unfold Spec.decryptSegment. by destruct (Spec.framing_ok _ _ _). Qed.

Definition advanced (state : Spec.OnlineState) (is_final : bool) : Spec.OnlineState :=
  if is_final then Spec.mkOnline (Spec.base state) (Spec.Counter state) true
  else Spec.mkOnline (Spec.base state) (Spec.Counter state + 1) false.

(** A call that succeeds decrypts at the counter and advances it. *)
Lemma decryptAny_some params state segment state' plaintext :
  32 <= params < u32_max ->
  Spec.decryptAnyOnlineSegment params state segment = Some (state', plaintext) <->
  Spec.Closed state = false /\ exists is_final,
    (is_final = false -> Spec.Counter state <> Spec.AEAD_MAX_SEGMENTS - 1)
    /\ Spec.decryptSegment params (Spec.base state) segment (Spec.Counter state) is_final = Some plaintext
    /\ state' = advanced state is_final.
Proof.
  intros Hp. unfold Spec.decryptAnyOnlineSegment, Spec.decryptOnlineSegment, Spec.decryptLastSegment. split.
  - destruct (Spec.Closed state) eqn:Hc; [by destruct (_ =? 0xFFFFFFFF)|]. intros H. split; [done|].
    destruct (_ =? 0xFFFFFFFF); simpl in H.
    + exists false. destruct (Z.eqb_spec (Spec.Counter state) (Spec.AEAD_MAX_SEGMENTS - 1)); [done|]. simpl in H.
      destruct (Spec.decryptSegment _ _ _ _ false); simplify_eq/=. done.
    + exists true. destruct (Spec.decryptSegment _ _ _ _ true); simplify_eq/=. done.
  - intros (Hc & is_final & Hlim & Hd & ->). rewrite Hc.
    rewrite (framing_ok_prefix params segment is_final) by (done || by eapply decryptSegment_framed).
    destruct is_final; simpl; [by rewrite Hd|].
    destruct (Z.eqb_spec (Spec.Counter state) (Spec.AEAD_MAX_SEGMENTS - 1)); [by destruct Hlim|]. simpl. by rewrite Hd.
Qed.

Lemma encryptOnline_some params state aead_iv plaintext state' segment :
  Spec.encryptOnlineSegment params state aead_iv plaintext = Some (state', segment) <->
  Spec.Closed state = false /\ Spec.Counter state <> Spec.AEAD_MAX_SEGMENTS - 1
  /\ Spec.encryptSegment params (Spec.base state) aead_iv plaintext (Spec.Counter state) false = Some segment
  /\ state' = advanced state false.
Proof.
  unfold Spec.encryptOnlineSegment, advanced. destruct (Spec.Closed state); simpl; [naive_solver|].
  destruct (Z.eqb_spec (Spec.Counter state) (Spec.AEAD_MAX_SEGMENTS - 1)); simpl; [naive_solver|].
  destruct (Spec.encryptSegment _ _ _ _ _ false); simpl; naive_solver.
Qed.

Lemma encryptLast_some params state aead_iv plaintext state' segment :
  Spec.encryptLastSegment params state aead_iv plaintext = Some (state', segment) <->
  Spec.Closed state = false
  /\ Spec.encryptSegment params (Spec.base state) aead_iv plaintext (Spec.Counter state) true = Some segment
  /\ state' = advanced state true.
Proof.
  unfold Spec.encryptLastSegment, advanced. destruct (Spec.Closed state); simpl; [naive_solver|].
  destruct (Spec.encryptSegment _ _ _ _ _ true); simpl; naive_solver.
Qed.

Lemma encryptAll_last params state aead_iv chunk state' segment :
  Spec.encryptLastSegment params state aead_iv chunk = Some (state', segment) ->
  encryptAll params state [aead_iv] [chunk] = Some (state', [segment]).
Proof. cbn [encryptAll]. rewrite !bool_decide_true by done. by intros ->. Qed.

Lemma encryptAll_cons params state aead_iv chunk ivs chunks state1 segment state' segments :
  chunks <> [] -> Spec.encryptOnlineSegment params state aead_iv chunk = Some (state1, segment) ->
  encryptAll params state1 ivs chunks = Some (state', segments) ->
  encryptAll params state (aead_iv :: ivs) (chunk :: chunks) = Some (state', segment :: segments).
Proof.
  intros Hne H1 H2. cbn [encryptAll]. rewrite bool_decide_false by done. rewrite H1.
  cbn [mbind option_bind]. by rewrite H2.
Qed.

Lemma encryptAll_inv params state aead_iv ivs chunks state' segments :
  encryptAll params state (aead_iv :: ivs) chunks = Some (state', segments) ->
  (exists chunk segment, ivs = [] /\ chunks = [chunk] /\ segments = [segment]
     /\ Spec.encryptLastSegment params state aead_iv chunk = Some (state', segment))
  \/ (exists chunk chunks' segment segments' state1, chunks = chunk :: chunks' /\ chunks' <> []
     /\ segments = segment :: segments'
     /\ Spec.encryptOnlineSegment params state aead_iv chunk = Some (state1, segment)
     /\ encryptAll params state1 ivs chunks' = Some (state', segments')).
Proof.
  destruct chunks as [|chunk chunks]; [done|]. cbn [encryptAll]. case_bool_decide as Hc.
  - intros ([st seg] & H & H2)%bind_Some. case_bool_decide; simplify_eq. left. eauto 10.
  - intros ([st seg] & H & ([st2 segs] & H2 & [= <- <-])%bind_Some)%bind_Some. right. eauto 10.
Qed.

(** What [encryptAll] made, [decryptAll] reads. *)
Lemma decryptAll_encryptAll params ivs : forall state chunks state' segments,
  32 <= params < u32_max -> Forall (fun aead_iv => zlen aead_iv = 12) ivs ->
  encryptAll params state ivs chunks = Some (state', segments) ->
  decryptAll params state segments = Some (state', concat chunks) /\ Spec.Closed state' = true.
Proof.
  induction ivs as [|aead_iv ivs IH]; intros state chunks state' segments Hp Hivs H; [done|].
  inversion_clear Hivs as [|? ? Hiv Hivs'].
  assert (Hdec : forall is_final chunk segment,
    (is_final = false -> Spec.Counter state <> Spec.AEAD_MAX_SEGMENTS - 1) -> Spec.Closed state = false ->
    Spec.encryptSegment params (Spec.base state) aead_iv chunk (Spec.Counter state) is_final = Some segment ->
    Spec.decryptAnyOnlineSegment params state segment = Some (advanced state is_final, chunk)).
  { intros is_final chunk segment Hlim Hc He. apply decryptAny_some; [done|]. split; [done|].
    exists is_final. split_and!; [done| |done]. by eapply decryptSegment_encryptSegment. }
  apply encryptAll_inv in H as [(chunk & seg & -> & -> & -> & (Hc & He & ->)%encryptLast_some)|
    (chunk & chunks' & seg & segs & st & -> & _ & -> & (Hc & Hl & He & ->)%encryptOnline_some & H)].
  - cbn [decryptAll concat]. rewrite (Hdec true chunk seg) by done. simpl. by rewrite !app_nil_r.
  - apply IH in H as [Hd Hclosed]; [|done..]. split; [|done].
    cbn [decryptAll]. rewrite (Hdec false chunk seg) by done. cbn [mbind option_bind]. by rewrite Hd.
Qed.

(** What [decryptAll] reads to the end, [encryptAll] makes. *)
Lemma encryptAll_decryptAll params segments : forall state state' plaintext,
  32 <= params < u32_max ->
  decryptAll params state segments = Some (state', plaintext) ->
  Spec.Closed state = false -> Spec.Closed state' = true ->
  exists ivs chunks, encryptAll params state ivs chunks = Some (state', segments)
    /\ concat chunks = plaintext /\ chunks <> [].
Proof.
  induction segments as [|segment segments IH]; intros state state' plaintext Hp H Hopen Hclosed.
  { cbn [decryptAll] in H. congruence. }
  cbn [decryptAll] in H. apply bind_Some in H as ([st pt] & Hd & H). apply bind_Some in H as ([st2 rest] & H & [= <- <-]).
  apply decryptAny_some in Hd as (_ & is_final & Hlim & Hd & ->); [|done].
  apply decryptSegment_inv in Hd as [Hfits Henc]; [|done]. destruct is_final.
  - assert (segments = []) as ->.
    { destruct segments as [|s2 segments]; [done|]. cbn [decryptAll] in H.
      apply bind_Some in H as ([? ?] & Hd2 & _). apply decryptAny_some in Hd2 as [? _]; done. }
    cbn [decryptAll] in H. injection H as <- <-. exists [slice segment 4 16], [pt].
    split_and!; [|by cbn [concat]|done]. apply encryptAll_last. by apply encryptLast_some.
  - destruct (IH _ _ _ Hp H eq_refl Hclosed) as (ivs & chunks & He & <- & Hne).
    exists (slice segment 4 16 :: ivs), (pt :: chunks). split_and!; [|done|done].
    eapply encryptAll_cons; [done| |done]. apply encryptOnline_some. split_and!; auto.
Qed.

End Sequences.

(** ** The segment counter *)

Module CounterFacts.

Definition wf (k : SegmentCounter.t) : Prop := 0 <= SegmentCounter.next k < AEAD_MAX_SEGMENTS.

(** The counter after a segment of the given kind. *)
Definition advanced (k : SegmentCounter.t) (kind : SegmentKind.t) : SegmentCounter.t :=
  match kind with
  | SegmentKind.NonFinal => SegmentCounter.mk (SegmentCounter.next k + 1) (SegmentCounter.closed k)
  | SegmentKind.Final => SegmentCounter.mk (SegmentCounter.next k) true
  end.

(** Why no position is reserved. *)
Definition refused (k : SegmentCounter.t) (kind : SegmentKind.t) (e : Error) : Prop :=
  (e = Closed /\ SegmentCounter.closed k = true)
  \/ (e = SegmentLimit /\ SegmentCounter.closed k = false /\ kind = SegmentKind.NonFinal
      /\ SegmentCounter.next k = AEAD_MAX_SEGMENTS - 1).

Definition admits (k : SegmentCounter.t) (kind : SegmentKind.t) : Prop :=
  SegmentCounter.closed k = false
  /\ (kind = SegmentKind.NonFinal -> SegmentCounter.next k < AEAD_MAX_SEGMENTS - 1).

Lemma position_for_cases k kind :
  wf k ->
  (SegmentCounter.position_for k kind = Ok (SegmentCounter.next k) /\ admits k kind)
  \/ exists e, SegmentCounter.position_for k kind = Err e /\ refused k kind e.
Proof.
  unfold wf, admits, refused, SegmentCounter.position_for. intros Hk.
  destruct (SegmentCounter.closed k); [right; eauto|]. destruct kind.
  - destruct (Z.eqb_spec (SegmentCounter.next k) (AEAD_MAX_SEGMENTS - 1)).
    + right. eexists. split; [done|]. by right.
    + left. split_and!; [done..|lia].
  - replace (_ <=? _) with false by lia. by left.
Qed.

Lemma complete_ok {E} k kind :
  wf k -> SegmentCounter.complete (E := E) kind k = (Ok tt, advanced k kind).
Proof.
  unfold wf. intros Hk. unfold SegmentCounter.complete, bindM, get, put, lift.
  destruct kind; [|done]. by rewrite u64_ok by flia.
Qed.

Lemma advanced_wf k kind : wf k -> admits k kind -> wf (advanced k kind).
Proof. unfold wf, admits. destruct kind; simpl; [intros ? [_ H]; specialize (H eq_refl); lia|done]. Qed.

End CounterFacts.

(** ** The encryptor *)

Section Encryptor.
Context {T : Target} {F : Features} {P : Primitives} {POk : PrimitivesOk} {B : Backend} {BOk : BackendOk}.

(** The specification's online state. *)
Definition online (c : MessageContext.t) (k : SegmentCounter.t) : Spec.OnlineState :=
  Spec.mkOnline (spec_state c) (SegmentCounter.next k) (SegmentCounter.closed k).

Lemma online_advanced c k kind :
  CounterFacts.admits k kind ->
  online c (CounterFacts.advanced k kind) = advanced (online c k) (SegmentKind.is_final kind).
Proof. intros [Hc _]. destruct kind; simpl; [by unfold online; simpl; rewrite Hc|done]. Qed.

Definition encryptor_context (e : Encryptor.t) : MessageContext.t :=
  EncryptionState.context (Encryptor.state e).

Definition online_encryptor (e : Encryptor.t) : Spec.OnlineState :=
  online (encryptor_context e) (Encryptor.counter e).

Definition encryptor_wf (e : Encryptor.t) : Prop :=
  encryption_wf (Encryptor.state e) /\ CounterFacts.wf (Encryptor.counter e)
  /\ Header.wf (Encryptor.header e).

Definition encryptor_params (e : Encryptor.t) : Z := enc_seg_len (encryptor_context e).

(** The encryptors before and after a call: only the nonces, the key cache and
    the counter may differ. *)
Definition continues (e e' : Encryptor.t) : Prop :=
  encryptor_wf e' /\ encryptor_context e' = encryptor_context e
  /\ Encryptor.header e' = Encryptor.header e.

(** [advance]: a reserved position, the operation, and the counter's step. *)
Lemma advance_ok {W A} (me : lens W Encryptor.t) (op : Z -> M Error W A) w Q :
  CounterFacts.wf (Encryptor.counter (view me w)) ->
  (forall e, CounterFacts.refused (Encryptor.counter (view me w)) SegmentKind.NonFinal e -> Q (Err e) w) ->
  (CounterFacts.admits (Encryptor.counter (view me w)) SegmentKind.NonFinal ->
   wp (op (SegmentCounter.next (Encryptor.counter (view me w)))) w (fun r w' =>
     match r with
     | Ok a =>
         Encryptor.counter (view me w') = Encryptor.counter (view me w)
         /\ Q (Ok a) (update me w' (Encryptor.set_counter (view me w')
              (CounterFacts.advanced (Encryptor.counter (view me w)) SegmentKind.NonFinal)))
     | Err e => Q (Err e) w'
     | Halt h => Q (Halt h) w'
     end)) ->
  wp (Encryptor.advance me op) w Q.
Proof.
  intros Hk Herr Hop. unfold Encryptor.advance. apply wp_bind, wp_get, wp_bind, wp_lift.
  destruct (CounterFacts.position_for_cases _ SegmentKind.NonFinal Hk) as [[-> Ha]|(e & -> & He)]; [|by apply Herr].
  apply wp_bind. eapply wp_mono; [by apply Hop|]. intros r w' Hr. destruct r as [a|e|h]; [|done..].
  destruct Hr as [Hc Hr]. apply wp_bind, wp_zoom, wp_zoom. unfold Encryptor.counter_cell. cells.
  unfold wp. rewrite Hc, CounterFacts.complete_ok by done. done.
Qed.

(** What an encryptor's call does to [out]. *)
Definition non_final_result (e : Encryptor.t) (plaintext : bytes) (room : Z) (e' : Encryptor.t)
    (r : Result bytes) : Prop :=
  continues e e' /\
  match r with
  | Ok segment =>
      CounterFacts.admits (Encryptor.counter e) SegmentKind.NonFinal
      /\ zlen segment = zlen plaintext + 32
      /\ exists nonce, zlen nonce = 12
           /\ NonceGenerator.next (EncryptionState.nonces (Encryptor.state e))
              = (Ok nonce, EncryptionState.nonces (Encryptor.state e'))
           /\ Spec.encryptOnlineSegment (encryptor_params e) (online_encryptor e) nonce plaintext
              = Some (online_encryptor e', segment)
  | Err err =>
      Encryptor.counter e' = Encryptor.counter e
      /\ (CounterFacts.refused (Encryptor.counter e) SegmentKind.NonFinal err
          \/ CounterFacts.admits (Encryptor.counter e) SegmentKind.NonFinal
             /\ encrypt_error (encryptor_context e) (zlen plaintext)
                  (SegmentCounter.next (Encryptor.counter e)) SegmentKind.NonFinal room err)
  | Halt _ => False
  end.

Lemma counter_u64 k : CounterFacts.wf k -> in_u64 (SegmentCounter.next k).
Proof. unfold CounterFacts.wf, in_u64. flia. Qed.

(** A sealed segment, as an online step of the specification. *)
Lemma sealed_online e st' plaintext segment :
  encryptor_wf e -> CounterFacts.admits (Encryptor.counter e) SegmentKind.NonFinal ->
  encryption_wf st' -> EncryptionState.context st' = encryptor_context e ->
  sealed_in (Encryptor.state e) st' plaintext (SegmentCounter.next (Encryptor.counter e))
    SegmentKind.NonFinal segment ->
  non_final_result e plaintext (zlen plaintext + 32)
    (Encryptor.set_counter (Encryptor.set_state e st')
       (CounterFacts.advanced (Encryptor.counter e) SegmentKind.NonFinal)) (Ok segment).
Proof.
  intros (Hst & Hk & Hh) Ha Hst' Hctx (nonce & Hnext & Hnonce & Henc & Hlen).
  split; [refine (conj (conj Hst' (conj _ Hh)) (conj Hctx eq_refl)); by apply CounterFacts.advanced_wf|].
  refine (conj Ha (conj Hlen _)). exists nonce. split_and!; [done|done|].
  apply encryptOnline_some. pose proof Ha as [Hc Hn]. specialize (Hn eq_refl).
  split_and!; [done| |exact Henc|].
  { change Spec.AEAD_MAX_SEGMENTS with AEAD_MAX_SEGMENTS. simpl Spec.Counter. lia. }
  unfold online_encryptor, encryptor_context. cbn [Encryptor.state Encryptor.set_state Encryptor.set_counter Encryptor.counter].
  rewrite Hctx. rewrite online_advanced by done. done.
Qed.

Lemma non_final_error e st' plaintext room err :
  encryptor_wf e -> CounterFacts.admits (Encryptor.counter e) SegmentKind.NonFinal ->
  encryption_wf st' -> EncryptionState.context st' = encryptor_context e ->
  encrypt_error (encryptor_context e) (zlen plaintext) (SegmentCounter.next (Encryptor.counter e))
    SegmentKind.NonFinal room err ->
  non_final_result e plaintext room (Encryptor.set_state e st') (Err err).
Proof.
  intros (Hst & Hk & Hh) Ha Hst' Hctx He. split; [|split; [done|by right]].
  refine (conj (conj Hst' (conj Hk Hh)) (conj Hctx eq_refl)).
Qed.

Lemma non_final_refused e plaintext room err :
  encryptor_wf e -> CounterFacts.refused (Encryptor.counter e) SegmentKind.NonFinal err ->
  non_final_result e plaintext room e (Err err).
Proof. intros He Hr. split; [|split; [done|by left]]. refine (conj He (conj eq_refl eq_refl)). Qed.

Lemma encrypt_non_final_segment_ok e plaintext :
  encryptor_wf e -> zlen plaintext + 32 <= isize_max ->
  wp (Encryptor.encrypt_non_final_segment plaintext) e (fun r e' =>
    non_final_result e plaintext (zlen plaintext + 32) e' r).
Proof.
  intros He Hsize. pose proof He as (Hst & Hk & Hh). apply advance_ok; cells.
  { exact Hk. }
  { intros err Hr. by apply non_final_refused. }
  intros Ha. apply wp_zoom. unfold Encryptor.state_cell. cells.
  eapply wp_mono; [apply encrypt_segment_at_ok; [done|by apply counter_u64|done]|].
  intros r st' (Hst' & Hctx & Hr). destruct r as [segment|err|h]; [split; [done|]|by apply non_final_error|done].
  apply sealed_online; try done. apply Hr.
Qed.

Lemma encrypt_non_final_segment_into_ok e plaintext out :
  encryptor_wf e ->
  wp (Encryptor.encrypt_non_final_segment_into plaintext) (e, out) (fun r s =>
    zlen (snd s) = zlen out /\
    match r with
    | Ok written => written <= zlen out /\ exists segment,
        written = zlen segment /\ snd s = splice out 0 segment
        /\ non_final_result e plaintext (zlen out) (fst s) (Ok segment)
    | Err err => non_final_result e plaintext (zlen out) (fst s) (Err err)
    | Halt _ => False
    end).
Proof.
  intros He. pose proof He as (Hst & Hk & Hh). apply advance_ok; cells.
  { exact Hk. }
  { intros err Hr. split; [done|]. by apply non_final_refused. }
  intros Ha. apply wp_zoom. unfold Encryptor.state_and. cells.
  eapply wp_mono; [apply encrypt_segment_into_at_ok; [done|by apply counter_u64]|].
  intros r [st' out'] (Hst' & Hctx & Hl & Hr). revert Hst' Hctx Hl Hr. cells. intros Hst' Hctx Hl Hr.
  destruct r as [written|err|h]; [split; [done|]|split; [done|by apply non_final_error]|done].
  destruct Hr as (-> & Hroom & _ & _ & segment & Hseal & ->). split; [done|]. split; [done|].
  exists segment. pose proof Hseal as (_ & _ & _ & _ & Hlen). split_and!; [done|done|].
  by apply (sealed_online e st' plaintext segment He Ha Hst' Hctx).
Qed.

Section InPlace.
Context {Su : Support} {SuOk : SupportOk}.

(** In place: the buffer's payload, and the refusals that leave it alone. *)
Lemma encrypt_non_final_segment_in_place_ok e b n :
  encryptor_wf e -> wf b -> SegmentBuffer.parameters b = Encryptor.parameters e ->
  SegmentBuffer.state b = BufferState.Plaintext n ->
  wp Encryptor.encrypt_non_final_segment_in_place (e, b) (fun r s =>
    wf (snd s) /\ SegmentBuffer.parameters (snd s) = SegmentBuffer.parameters b
    /\ non_final_result e (payload_of b) (zlen (SegmentBuffer.storage b)) (fst s) r
    /\ match r with
       | Ok segment => SegmentBuffer.ciphertext (snd s) = Ok segment
       | Err err => (CounterFacts.refused (Encryptor.counter e) SegmentKind.NonFinal err /\ s = (e, b))
           \/ wiped b (snd s)
       | Halt _ => False
       end).
Proof.
  intros He Hb Hp Hn. pose proof He as (Hst & Hk & Hh). apply advance_ok; cells.
  { exact Hk. }
  { intros err Hr. split_and!; [done..|by apply non_final_refused|by left]. }
  intros Ha. apply wp_zoom. unfold Encryptor.state_and. cells.
  eapply wp_mono; [by apply encrypt_segment_in_place_at_ok; [..|by apply counter_u64| |]|].
  intros r [st' b'] (Hst' & Hctx & Hb' & Hp' & Hr). revert Hst' Hctx Hb' Hp' Hr. cells.
  intros Hst' Hctx Hb' Hp' Hr. pose proof (zlen_payload_of b Hb) as [Hlen _]. rewrite Hn in Hlen.
  destruct r as [segment|err|h]; [split; [done|]| |done].
  - destruct Hr as (Hseal & _ & Hfits & Hc). split_and!; [done|done| |done].
    by apply (sealed_online e st' (payload_of b) segment He Ha Hst' Hctx).
  - destruct Hr as [Herr Hw]. rewrite <- Hlen in Herr. split_and!; [done|done| |by right].
    by apply non_final_error.
Qed.

End InPlace.

(** ** Finalization *)

(** What the final call returns: the last segment of the specification, or the
    encryptor with its counter where it was. *)
Definition final_result (e : Encryptor.t) (plaintext : bytes) (room : Z)
    (r : outcome FinalEncryptError.t bytes) : Prop :=
  match r with
  | Ok segment =>
      zlen segment = zlen plaintext + 32
      /\ exists nonce g', zlen nonce = 12
           /\ NonceGenerator.next (EncryptionState.nonces (Encryptor.state e)) = (Ok nonce, g')
           /\ Spec.encryptLastSegment (encryptor_params e) (online_encryptor e) nonce plaintext
              = Some (advanced (online_encryptor e) true, segment)
  | Err f =>
      continues e (FinalEncryptError.encryptor f)
      /\ Encryptor.counter (FinalEncryptError.encryptor f) = Encryptor.counter e
      /\ (CounterFacts.refused (Encryptor.counter e) SegmentKind.Final (FinalEncryptError.error f)
          \/ encrypt_error (encryptor_context e) (zlen plaintext)
               (SegmentCounter.next (Encryptor.counter e)) SegmentKind.Final room (FinalEncryptError.error f))
  | Halt _ => False
  end.

Lemma finalize_ok {X A} e (op : Z -> M Error (EncryptionState.t * X) A) x Q :
  CounterFacts.wf (Encryptor.counter e) ->
  (forall err, CounterFacts.refused (Encryptor.counter e) SegmentKind.Final err ->
     Q (Err (FinalEncryptError.mk (Encryptor.set_state e (Encryptor.state e)) err)) x) ->
  (SegmentCounter.closed (Encryptor.counter e) = false ->
   wp (op (SegmentCounter.next (Encryptor.counter e))) (Encryptor.state e, x) (fun r s =>
     Q (map_err (fun error => FinalEncryptError.mk (Encryptor.set_state e (fst s)) error) r) (snd s))) ->
  wp (Finalize.finalize e op) x Q.
Proof.
  intros Hk Herr Hop. unfold Finalize.finalize, wp, bindM, lift in *.
  destruct (CounterFacts.position_for_cases _ SegmentKind.Final Hk) as [[-> [Hc _]]|(err & -> & He)]; [|by apply Herr].
  specialize (Hop Hc). destruct (op _ _) as [[a|err|h] [st' x']]; exact Hop.
Qed.

Lemma sealed_last e st' plaintext segment :
  SegmentCounter.closed (Encryptor.counter e) = false ->
  sealed_in (Encryptor.state e) st' plaintext (SegmentCounter.next (Encryptor.counter e))
    SegmentKind.Final segment ->
  final_result e plaintext (zlen plaintext + 32) (Ok segment).
Proof.
  intros Hc (nonce & Hnext & Hnonce & Henc & Hlen). split; [done|].
  exists nonce, (EncryptionState.nonces st'). split_and!; [done..|]. by apply encryptLast_some.
Qed.

Lemma final_refused e plaintext room err :
  encryptor_wf e -> CounterFacts.refused (Encryptor.counter e) SegmentKind.Final err ->
  final_result e plaintext room (Err (FinalEncryptError.mk (Encryptor.set_state e (Encryptor.state e)) err)).
Proof.
  intros He Hr. split; [|split; [done|by left]]. destruct He as (? & ? & ?).
  refine (conj (conj _ (conj _ _)) (conj eq_refl eq_refl)); done.
Qed.

Lemma final_error e st' plaintext room err :
  encryptor_wf e -> encryption_wf st' -> EncryptionState.context st' = encryptor_context e ->
  encrypt_error (encryptor_context e) (zlen plaintext) (SegmentCounter.next (Encryptor.counter e))
    SegmentKind.Final room err ->
  final_result e plaintext room (Err (FinalEncryptError.mk (Encryptor.set_state e st') err)).
Proof.
  intros (Hst & Hk & Hh) Hst' Hctx He. split; [|split; [done|by right]].
  refine (conj (conj Hst' (conj Hk Hh)) (conj Hctx eq_refl)).
Qed.

Lemma encrypt_final_segment_ok e plaintext :
  encryptor_wf e -> zlen plaintext + 32 <= isize_max ->
  final_result e plaintext (zlen plaintext + 32) (Finalize.encrypt_final_segment e plaintext).
Proof.
  intros He Hsize. pose proof He as (Hst & Hk & Hh).
  assert (wp (Finalize.finalize e (fun position =>
         zoom lens_fst (EncryptionState.encrypt_segment_at plaintext position SegmentKind.Final))) tt
       (fun r _ => final_result e plaintext (zlen plaintext + 32) r)) as H; [|exact H].
  apply finalize_ok; [exact Hk|by intros; apply final_refused|]. intros Hc. apply wp_zoom. cells.
  eapply wp_mono; [apply encrypt_segment_at_ok; [done|by apply counter_u64|done]|].
  intros r st' (Hst' & Hctx & Hr). destruct r as [segment|err|h]; [|by apply final_error|done].
  by eapply sealed_last; [|apply Hr].
Qed.

Lemma encrypt_final_segment_into_ok e plaintext out :
  encryptor_wf e ->
  wp (Finalize.encrypt_final_segment_into e plaintext) out (fun r out' =>
    zlen out' = zlen out /\
    match r with
    | Ok written => written <= zlen out /\ exists segment,
        written = zlen segment /\ out' = splice out 0 segment /\ final_result e plaintext (zlen out) (Ok segment)
    | Err f => final_result e plaintext (zlen out) (Err f)
    | Halt _ => False
    end).
Proof.
  intros He. pose proof He as (Hst & Hk & Hh).
  apply finalize_ok; [exact Hk|by intros; split; [done|apply final_refused]|]. intros Hc.
  eapply wp_mono; [apply encrypt_segment_into_at_ok; [done|by apply counter_u64]|].
  intros r [st' out'] (Hst' & Hctx & Hl & Hr). revert Hst' Hctx Hl Hr. cells. intros Hst' Hctx Hl Hr.
  split; [done|]. destruct r as [written|err|h]; [|by apply final_error|done].
  destruct Hr as (-> & Hroom & _ & _ & segment & Hseal & ->). split; [done|]. exists segment.
  pose proof Hseal as (_ & _ & _ & _ & Hlen). split_and!; [done|done|by eapply (sealed_last e)].
Qed.

Section InPlaceFinal.
Context {Su : Support} {SuOk : SupportOk}.

Lemma encrypt_final_segment_in_place_ok e b n :
  encryptor_wf e -> wf b -> SegmentBuffer.parameters b = Encryptor.parameters e ->
  SegmentBuffer.state b = BufferState.Plaintext n ->
  wp (Finalize.encrypt_final_segment_in_place e) b (fun r b' =>
    wf b' /\ SegmentBuffer.parameters b' = SegmentBuffer.parameters b
    /\ final_result e (payload_of b) (zlen (SegmentBuffer.storage b)) r
    /\ match r with
       | Ok segment => SegmentBuffer.ciphertext b' = Ok segment
       | Err f => (CounterFacts.refused (Encryptor.counter e) SegmentKind.Final (FinalEncryptError.error f) /\ b' = b)
           \/ wiped b b'
       | Halt _ => False
       end).
Proof.
  intros He Hb Hp Hn. pose proof He as (Hst & Hk & Hh).
  apply finalize_ok; [exact Hk| |].
  { intros err Hr. split_and!; [done..|by apply final_refused|by left]. }
  intros Hc. eapply wp_mono; [by apply encrypt_segment_in_place_at_ok; [..|by apply counter_u64| |]|].
  intros r [st' b'] (Hst' & Hctx & Hb' & Hp' & Hr). revert Hst' Hctx Hb' Hp' Hr. cells.
  intros Hst' Hctx Hb' Hp' Hr. pose proof (zlen_payload_of b Hb) as [Hlen _]. rewrite Hn in Hlen.
  destruct r as [segment|err|h]; [| |done]; (split; [done|split; [done|]]).
  - destruct Hr as (Hseal & _ & Hfits & Hcipher). split; [by eapply (sealed_last e)|done].
  - destruct Hr as [Herr Hw]. rewrite <- Hlen in Herr. split; [by apply final_error|by right].
Qed.

End InPlaceFinal.

End Encryptor.

(** ** The decryptor *)

Section Decryptor.
Context {T : Target} {F : Features} {P : Primitives} {POk : PrimitivesOk} {B : Backend} {BOk : BackendOk}.
Context {Su : Support} {SuOk : SupportOk}.

Definition decryptor_context (d : Decryptor.t) : MessageContext.t :=
  DecryptionState.context (Decryptor.state d).

Definition online_decryptor (d : Decryptor.t) : Spec.OnlineState :=
  online (decryptor_context d) (Decryptor.counter d).

Definition decryptor_wf (d : Decryptor.t) : Prop :=
  decryption_wf (Decryptor.state d) /\ CounterFacts.wf (Decryptor.counter d).

Definition decryptor_params (d : Decryptor.t) : Z := enc_seg_len (decryptor_context d).

Definition spec_any (d : Decryptor.t) (segment : bytes) : option (Spec.OnlineState * bytes) :=
  Spec.decryptAnyOnlineSegment (decryptor_params d) (online_decryptor d) segment.

Lemma decryptor_params_range d : decryptor_wf d -> 64 <= decryptor_params d < u32_max.
Proof. intros [[Hc _] _]. exact Hc. Qed.

(** *** Framing *)

Lemma framing_ok_decode c segment kind :
  context_wf c -> framing_ok c segment kind = true ->
  SegmentFraming.decode (MessageContext.parameters c) (ztake 4 segment)
    = Ok (FramingFacts.framing_of kind (zlen segment - 32)).
Proof.
  intros Hc Hf. destruct (valid_payload _ Hc) as [Hs Hp].
  unfold framing_ok, Spec.framing_ok, Spec.AEAD_IV_LEN, Spec.AEAD_TAG_LEN, Spec.BE2I, enc_seg_len in Hf.
  apply FramingFacts.framing_decode_of; [done|..]; destruct kind; simpl in *; unfold u32_max; lia.
Qed.

Lemma segment_prefix_of_ok segment p :
  4 <= zlen segment -> segment_prefix_of segment p = Ok (ztake 4 segment).
Proof.
  intros H. unfold segment_prefix_of, try_into_array. floe_consts. replace (_ <? 4) with false by lia.
  rewrite index_ok, slice_0 by lia. cbn [obind]. rewrite zlen_ztake. by replace (_ =? 4) with true by lia.
Qed.

(** A segment with no framing of either kind is refused by the specification. *)
Lemma unframed_none d segment :
  decryptor_wf d ->
  (forall kind, framing_ok (decryptor_context d) segment kind = true -> False) -> spec_any d segment = None.
Proof.
  intros Hd Hno. pose proof (decryptor_params_range d Hd).
  destruct (spec_any d segment) as [[st pt]|] eqn:E; [|done]. exfalso. unfold spec_any in E.
  apply decryptAny_some in E as (_ & is_final & _ & Hdec & _); [|unfold u32_max in *; lia].
  apply decryptSegment_framed in Hdec.
  by apply (Hno (if is_final then SegmentKind.Final else SegmentKind.NonFinal)); destruct is_final.
Qed.

Lemma framing_cases d segment :
  decryptor_wf d ->
  (exists f, Decryptor.framing d segment = Ok f
     /\ (SegmentFraming.ciphertext_length f = zlen segment -> framed (decryptor_context d) segment f)
     /\ (SegmentFraming.ciphertext_length f <> zlen segment -> spec_any d segment = None))
  \/ (exists actual required,
        Decryptor.framing d segment = Err (InvalidCiphertextLength actual required)
        /\ spec_any d segment = None).
Proof.
  intros Hd. pose proof (proj1 (proj1 Hd)) as Hc. fold (decryptor_context d) in Hc.
  assert (Hlen : forall kind, framing_ok (decryptor_context d) segment kind = true -> 32 <= zlen segment)
    by (intros kind Hf; apply framing_ok_bounds in Hf as [? _]; [lia|done]).
  destruct (Z.lt_ge_cases (zlen segment) 4) as [H4|H4].
  { right. unfold Decryptor.framing, segment_prefix_of. floe_consts. replace (_ <? 4) with true by lia.
    eexists _, _. split; [done|]. apply unframed_none; [done|]. intros kind ?%Hlen. lia. }
  assert (Hpre : zlen (ztake 4 segment) = 4) by (rewrite zlen_ztake; lia).
  unfold Decryptor.framing. rewrite segment_prefix_of_ok by done. cbn [obind].
  change (Decryptor.parameters d) with (MessageContext.parameters (decryptor_context d)).
  destruct (SegmentFraming.decode _ _) as [f|e|h] eqn:Hdec.
  - left. exists f. split_and!; [done|by intros; apply decode_framed|]. intros Hne.
    apply unframed_none; [done|]. intros kind Hf. pose proof (framing_ok_decode _ _ _ Hc Hf) as Hdec2.
    rewrite Hdec in Hdec2. injection Hdec2 as ->. simpl in Hne. lia.
  - right. assert (exists a r, e = InvalidCiphertextLength a r) as (a & r & ->).
    { destruct (decide (from_be_bytes (ztake 4 segment) = u32_max));
        [by rewrite FramingFacts.decode_non_final in Hdec|].
      destruct (decide (32 <= from_be_bytes (ztake 4 segment)
                  <= Parameters.segment_length (MessageContext.parameters (decryptor_context d))));
        [by rewrite FramingFacts.decode_final in Hdec|].
      rewrite FramingFacts.decode_invalid in Hdec by done. injection Hdec as <-. eauto. }
    eexists _, _. split; [done|]. apply unframed_none; [done|]. intros kind Hf.
    by rewrite (framing_ok_decode _ _ _ Hc Hf) in Hdec.
  - pose proof (FramingFacts.framing_decode_returns _ _ Hc Hpre) as Hret. by rewrite Hdec in Hret.
Qed.

(** *** One segment *)

(** Errors that the specification's refusals are reported with. *)
Definition rejection (e : Error) : Prop :=
  match e with
  | Closed | SegmentLimit | AuthenticationFailed | InvalidCiphertextLength _ _ => True
  | _ => False
  end.

(** What a decryptor's call gives, with [room] bytes for the plaintext. *)
Definition decryptor_result (d : Decryptor.t) (segment : bytes) (room : Z) (d' : Decryptor.t)
    (r : Result bytes) : Prop :=
  decryptor_wf d' /\ decryptor_context d' = decryptor_context d /\
  match r with
  | Ok plaintext =>
      zlen plaintext = zlen segment - 32 /\ spec_any d segment = Some (online_decryptor d', plaintext)
  | Err e =>
      Decryptor.counter d' = Decryptor.counter d
      /\ ((spec_any d segment = None /\ rejection e)
          \/ (e = OutputTooSmall room (zlen segment - 32) /\ room < zlen segment - 32)
          \/ (e = CryptoFailure /\ backend_fails))
  | Halt _ => False
  end.

Lemma decryptor_advance_ok {W A} (me : lens W Decryptor.t) kind (op : Z -> M Error W A) w Q :
  CounterFacts.wf (Decryptor.counter (view me w)) ->
  (forall e, CounterFacts.refused (Decryptor.counter (view me w)) kind e -> Q (Err e) w) ->
  (CounterFacts.admits (Decryptor.counter (view me w)) kind ->
   wp (op (SegmentCounter.next (Decryptor.counter (view me w)))) w (fun r w' =>
     match r with
     | Ok a =>
         Decryptor.counter (view me w') = Decryptor.counter (view me w)
         /\ Q (Ok a) (update me w' (Decryptor.set_counter (view me w')
              (CounterFacts.advanced (Decryptor.counter (view me w)) kind)))
     | Err e => Q (Err e) w'
     | Halt h => Q (Halt h) w'
     end)) ->
  wp (Decryptor.advance me kind op) w Q.
Proof.
  intros Hk Herr Hop. unfold Decryptor.advance. apply wp_bind, wp_get, wp_bind, wp_lift.
  destruct (CounterFacts.position_for_cases _ kind Hk) as [[-> Ha]|(e & -> & He)]; [|by apply Herr].
  apply wp_bind. eapply wp_mono; [by apply Hop|]. intros r w' Hr. destruct r as [a|e|h]; [|done..].
  destruct Hr as [Hc Hr]. apply wp_bind, wp_zoom, wp_zoom. unfold Decryptor.counter_cell. cells.
  unfold wp. rewrite Hc, CounterFacts.complete_ok by done. done.
Qed.

Lemma kind_of_framed d segment kind is_final :
  decryptor_wf d -> framing_ok (decryptor_context d) segment kind = true ->
  Spec.framing_ok (decryptor_params d) segment is_final = true -> is_final = SegmentKind.is_final kind.
Proof.
  intros Hd H1 H2. pose proof (decryptor_params_range d Hd). unfold decryptor_params in *.
  apply framing_ok_prefix in H1, H2; [|unfold u32_max in *; lia..].
  rewrite H1 in H2. by destruct is_final, (SegmentKind.is_final kind).
Qed.

(** A framed segment that is opened at the counter is the specification's step. *)
Lemma opened_online d st' segment kind pt :
  decryptor_wf d -> CounterFacts.admits (Decryptor.counter d) kind ->
  decryption_wf st' -> DecryptionState.context st' = decryptor_context d ->
  framing_ok (decryptor_context d) segment kind = true ->
  spec_decrypt (decryptor_context d) segment (SegmentCounter.next (Decryptor.counter d)) kind = Some pt ->
  forall room, decryptor_result d segment room
    (Decryptor.set_counter (Decryptor.set_state d st') (CounterFacts.advanced (Decryptor.counter d) kind)) (Ok pt).
Proof.
  intros Hd Ha Hst' Hctx Hf Hs room. pose proof Hd as [Hst Hk].
  refine (conj (conj Hst' (CounterFacts.advanced_wf _ _ Hk Ha)) (conj Hctx (conj _ _))).
  { by eapply spec_decrypt_length; [apply Hst|..]. }
  pose proof (decryptor_params_range d Hd). unfold spec_any.
  apply decryptAny_some; [unfold u32_max in *; lia|]. split; [apply Ha|].
  exists (SegmentKind.is_final kind). split_and!; [|exact Hs|].
  - intros Hnf. destruct kind; [|done]. destruct Ha as [_ Ha]. specialize (Ha eq_refl).
    change Spec.AEAD_MAX_SEGMENTS with AEAD_MAX_SEGMENTS. simpl Spec.Counter. lia.
  - unfold online_decryptor, decryptor_context.
    cbn [Decryptor.state Decryptor.set_state Decryptor.set_counter Decryptor.counter].
    rewrite Hctx. by rewrite online_advanced.
Qed.

Lemma not_opened_none d segment kind :
  decryptor_wf d -> framing_ok (decryptor_context d) segment kind = true ->
  (SegmentCounter.closed (Decryptor.counter d) = true
   \/ (kind = SegmentKind.NonFinal /\ SegmentCounter.next (Decryptor.counter d) = AEAD_MAX_SEGMENTS - 1)
   \/ spec_decrypt (decryptor_context d) segment (SegmentCounter.next (Decryptor.counter d)) kind = None) ->
  spec_any d segment = None.
Proof.
  intros Hd Hf Hwhy. pose proof (decryptor_params_range d Hd).
  destruct (spec_any d segment) as [[st pt]|] eqn:E; [|done]. exfalso. unfold spec_any in E.
  apply decryptAny_some in E as (Hc & is_final & Hlim & Hdec & _); [|unfold u32_max in *; lia].
  pose proof (decryptSegment_framed _ _ _ _ _ _ Hdec) as Hf2.
  pose proof (kind_of_framed d segment kind is_final Hd Hf Hf2) as ->.
  destruct Hwhy as [H1|[[-> H1]|H1]].
  - simpl in Hc. congruence.
  - apply Hlim; [done|]. exact H1.
  - unfold spec_decrypt in H1. unfold decryptor_params in Hdec. simpl in Hdec. congruence.
Qed.

Lemma refused_result d segment kind room e :
  decryptor_wf d -> framing_ok (decryptor_context d) segment kind = true ->
  CounterFacts.refused (Decryptor.counter d) kind e -> decryptor_result d segment room d (Err e).
Proof.
  intros Hd Hf Hr. refine (conj Hd (conj eq_refl (conj eq_refl (or_introl (conj _ _))))).
  - eapply not_opened_none; [done..|]. destruct Hr as [[_ ?]|(_ & _ & ? & ?)]; auto.
  - by destruct Hr as [[-> _]|(-> & _)].
Qed.

Lemma open_error_result d st' segment kind room e :
  decryptor_wf d -> decryption_wf st' -> DecryptionState.context st' = decryptor_context d ->
  framing_ok (decryptor_context d) segment kind = true ->
  open_error (decryptor_context d) segment (SegmentCounter.next (Decryptor.counter d)) kind room e ->
  decryptor_result d segment room (Decryptor.set_state d st') (Err e).
Proof.
  intros Hd Hst' Hctx Hf He. pose proof Hd as [_ Hk].
  refine (conj (conj Hst' Hk) (conj Hctx (conj eq_refl _))).
  unfold open_error in He. rewrite Hf in He. destruct e; simpl in He; try done.
  all: match goal with
       | H : AEAD_MAX_SEGMENTS <= _ |- _ => unfold CounterFacts.wf in Hk; lia
       | H : spec_decrypt _ _ _ _ = None /\ _ |- _ =>
           left; split; [|done]; eapply not_opened_none; [done..|right; right; apply H]
       | H : _ /\ _ /\ _ |- _ => right; left; by destruct H as (-> & -> & ?)
       | _ => right; by right
       end.
Qed.

(** A framing that does not describe the segment: the length check refuses it. *)
Lemma misframed_result d segment room e :
  decryptor_wf d -> spec_any d segment = None -> rejection e -> decryptor_result d segment room d (Err e).
Proof. intros Hd Hn He. refine (conj Hd (conj eq_refl (conj eq_refl (or_introl (conj Hn He))))). Qed.

Lemma validate_framed_length_err c_len f :
  SegmentFraming.ciphertext_length f <> c_len ->
  validate_framed_length c_len f = Err (InvalidCiphertextLength c_len (Exactly (SegmentFraming.ciphertext_length f))).
Proof. intros H. unfold validate_framed_length. by replace (_ =? _) with false by lia. Qed.

Lemma decryptor_position d : decryptor_wf d -> in_u64 (SegmentCounter.next (Decryptor.counter d)).
Proof. intros [_ Hk]. by apply counter_u64. Qed.

Lemma decrypt_segment_into_framed_ok d segment f out :
  decryptor_wf d -> framed (decryptor_context d) segment f ->
  wp (Decryptor.decrypt_segment_into_framed segment f) (d, out) (fun r s =>
    zlen (snd s) = zlen out /\
    match r with
    | Ok n => n <= zlen out /\ exists pt,
        n = zlen pt /\ snd s = splice out 0 pt /\ decryptor_result d segment (zlen out) (fst s) (Ok pt)
    | Err e => decryptor_result d segment (zlen out) (fst s) (Err e)
    | Halt _ => False
    end).
Proof.
  intros Hd Hf. pose proof Hd as [Hst Hk]. apply decryptor_advance_ok; cells; [exact Hk| |].
  { intros e Hr. split; [done|]. eapply refused_result; [done|apply Hf|done]. }
  intros Ha. apply wp_zoom. unfold Decryptor.state_and. cells.
  eapply wp_mono; [by apply decrypt_segment_into_at_framed_ok; [|apply decryptor_position|]|].
  intros r [st' out'] (Hst' & Hctx & Hl & Hr). revert Hst' Hctx Hl Hr. cells. intros Hst' Hctx Hl Hr.
  destruct r as [n|e|h]; [split; [done|]|split; [done|]|done].
  - destruct Hr as (-> & Hroom & _ & Hfok & pt & Hpt & Hptl & ->). split; [done|]. split; [done|].
    exists pt. split_and!; [done|done|]. by apply opened_online.
  - eapply open_error_result; [done..|apply Hf|done].
Qed.

Lemma decrypt_segment_into_ok d segment out :
  decryptor_wf d ->
  wp (Decryptor.decrypt_segment_into segment) (d, out) (fun r s =>
    zlen (snd s) = zlen out /\
    match r with
    | Ok n => n <= zlen out /\ exists pt,
        n = zlen pt /\ snd s = splice out 0 pt /\ decryptor_result d segment (zlen out) (fst s) (Ok pt)
    | Err e => decryptor_result d segment (zlen out) (fst s) (Err e)
    | Halt _ => False
    end).
Proof.
  intros Hd. unfold Decryptor.decrypt_segment_into. apply wp_bind, wp_get, wp_bind, wp_lift. cells.
  destruct (framing_cases d segment Hd) as [(f & -> & Hf & Hnf)|(a & q & -> & Hn)].
  2: { split; [done|]. by apply misframed_result. }
  destruct (decide (SegmentFraming.ciphertext_length f = zlen segment)) as [He|He].
  { apply decrypt_segment_into_framed_ok; auto. }
  specialize (Hnf He). apply decryptor_advance_ok; cells; [apply Hd| |].
  { intros e Hr. split; [done|]. apply misframed_result; [done..|]. by destruct Hr as [[-> _]|(-> & _)]. }
  intros Ha. apply wp_zoom. unfold DecryptionState.decrypt_segment_into_at_framed.
  apply wp_bind, wp_get, wp_bind, wp_lift. rewrite validate_framed_length_err by done.
  split; [done|]. unfold Decryptor.state_and. cells.
  assert (Decryptor.set_state d (Decryptor.state d) = d) as -> by (by destruct d). by apply misframed_result.
Qed.

Lemma decrypt_segment_ok d segment :
  decryptor_wf d -> slice_ok segment ->
  wp (Decryptor.decrypt_segment segment) d (fun r d' => decryptor_result d segment (zlen segment - 32) d' r).
Proof.
  intros Hd Hsize. unfold Decryptor.decrypt_segment. apply wp_bind, wp_get, wp_bind, wp_lift.
  destruct (framing_cases d segment Hd) as [(f & -> & Hf & Hnf)|(a & q & -> & Hn)]; [|by apply misframed_result].
  destruct (decide (SegmentFraming.ciphertext_length f = zlen segment)) as [He|He];
    (apply decryptor_advance_ok; cells; [apply Hd| |]).
  - intros e Hr. eapply refused_result; [done|apply Hf, He|done].
  - intros Ha. apply wp_zoom. unfold Decryptor.state_cell. cells. specialize (Hf He). pose proof Hd as [Hst Hk].
    eapply wp_mono; [by apply decrypt_segment_at_framed_ok; [|apply decryptor_position| |]|].
    intros r st' (Hst' & Hctx & Hr). destruct r as [pt|e|h]; [split; [done|]| |done].
    + apply opened_online; try done; [apply Hf|apply Hr].
    + eapply open_error_result; [done..|apply Hf|done].
  - intros e Hr. apply misframed_result; [done|auto|]. by destruct Hr as [[-> _]|(-> & _)].
  - intros Ha. apply wp_zoom. unfold DecryptionState.decrypt_segment_at_framed.
    apply wp_bind, wp_lift. rewrite validate_framed_length_err by done. unfold Decryptor.state_cell. cells.
    assert (Decryptor.set_state d (Decryptor.state d) = d) as -> by (by destruct d).
    apply misframed_result; [done|by auto|done].
Qed.

(** In place: the buffer ends with the plaintext, or wiped. *)
Lemma decryptor_in_place_operation_ok d b segment :
  decryptor_wf d -> wf b -> SegmentBuffer.parameters b = Decryptor.parameters d ->
  SegmentBuffer.state b = BufferState.Ciphertext (zlen segment) ->
  SegmentBuffer.ciphertext b = Ok segment ->
  wp Decryptor.decrypt_segment_in_place_operation (d, b) (fun r s =>
    zlen (SegmentBuffer.storage (snd s)) = zlen (SegmentBuffer.storage b)
    /\ SegmentBuffer.parameters (snd s) = SegmentBuffer.parameters b /\
    match r with
    | Ok n => exists pt, n = zlen pt /\ slice (SegmentBuffer.storage (snd s)) 16 (16 + n) = pt
        /\ decryptor_result d segment (zlen segment) (fst s) (Ok pt)
    | Err e => decryptor_result d segment (zlen segment) (fst s) (Err e)
    | Halt _ => False
    end).
Proof.
  intros Hd Hb Hp Hbs Hbc. pose proof Hd as [Hst Hk]. unfold Decryptor.decrypt_segment_in_place_operation.
  apply wp_bind, wp_get, wp_bind, wp_lift. cells. rewrite Hbc. apply wp_bind, wp_lift.
  rewrite (ciphertext_ok b _ Hb Hbs) in Hbc. injection Hbc as Hseg.
  destruct (framing_cases d segment Hd) as [(f & -> & Hf & Hnf)|(a & q & -> & Hn)].
  2: { split_and!; [done..|by apply misframed_result]. }
  destruct (decide (SegmentFraming.ciphertext_length f = zlen segment)) as [He|He];
    (apply decryptor_advance_ok; cells; [apply Hd| |]).
  - intros e Hr. split_and!; [done..|]. eapply refused_result; [done|apply Hf, He|done].
  - intros Ha. apply wp_zoom. unfold Decryptor.state_and. cells. specialize (Hf He).
    eapply wp_mono; [by apply decrypt_segment_in_place_at_framed_ok; [|apply decryptor_position|..]|].
    intros r [st' b'] (Hst' & Hctx & Hl & Hpar & Hr). revert Hst' Hctx Hl Hpar Hr. cells.
    intros Hst' Hctx Hl Hpar Hr. destruct r as [n|e|h]; [split; [done|]|split_and!; [done..|]|done].
    + destruct Hr as (-> & Hfok & pt & Hpt & Hptl & Hslice). split_and!; [done..|].
      exists pt. split_and!; [done|done|]. by apply opened_online.
    + eapply open_error_result; [done..|apply Hf|done].
  - intros e Hr. split_and!; [done..|]. apply misframed_result; [done|auto|]. by destruct Hr as [[-> _]|(-> & _)].
  - intros Ha. apply wp_zoom. unfold DecryptionState.decrypt_segment_in_place_at_framed.
    apply wp_bind, wp_get. unfold Decryptor.state_and, SegmentBuffer.matches. cells.
    rewrite bool_decide_true by done. cbn [negb]. apply wp_bind, wp_lift.
    unfold SegmentBuffer.ciphertext_length. rewrite Hbs. apply wp_bind, wp_lift.
    rewrite validate_framed_length_err by done. refine (conj eq_refl (conj eq_refl _)). cells.
    assert (Decryptor.set_state d (Decryptor.state d) = d) as -> by (by destruct d).
    apply misframed_result; [done|by auto|done].
Qed.

Lemma decryptor_in_place_ok d b segment :
  decryptor_wf d -> wf b -> SegmentBuffer.parameters b = Decryptor.parameters d ->
  SegmentBuffer.state b = BufferState.Ciphertext (zlen segment) ->
  SegmentBuffer.ciphertext b = Ok segment ->
  wp Decryptor.decrypt_segment_in_place (d, b) (fun r s =>
    wf (snd s) /\ SegmentBuffer.parameters (snd s) = SegmentBuffer.parameters b /\
    match r with
    | Ok bounds => exists pt, bounds = (16, 16 + zlen pt) /\ payload_of (snd s) = pt
        /\ SegmentBuffer.state (snd s) = BufferState.Plaintext (zlen pt)
        /\ decryptor_result d segment (zlen segment) (fst s) (Ok pt)
    | Err e => decryptor_result d segment (zlen segment) (fst s) (Err e) /\ wiped b (snd s)
    | Halt _ => False
    end).
Proof.
  intros Hd Hb Hp Hbs Hbc. pose proof Hb as [Hv Hlen Hstate]. rewrite Hbs in Hstate.
  destruct (valid_payload _ Hv). pose proof u32_le_usize.
  unfold Decryptor.decrypt_segment_in_place, SegmentBuffer.decrypt_with. apply wp_match.
  eapply wp_mono; [by eapply decryptor_in_place_operation_ok|].
  intros r [d' b'] (Hl & Hpar & Hr). revert Hl Hpar Hr. cells. intros Hl Hpar Hr.
  destruct r as [n|e|h]; [| |done].
  - destruct Hr as (pt & -> & Hslice & Hres). pose proof Hres as (_ & _ & Hptl & _).
    apply wp_bind, wp_zoom, wp_modify. cells. apply wp_bind, wp_lift. floe_consts. rewrite usize_ok by flia.
    apply wp_zoom. cells. unfold wp. rewrite borrow_ok by (cbn [SegmentBuffer.storage SegmentBuffer.set_state]; lia).
    cells. split_and!; [|done|].
    + split; simpl; [by rewrite Hpar|congruence|]. rewrite Hpar. lia.
    + exists pt. by split_and!.
  - apply wp_bind, wp_zoom. cells. eapply wp_mono; [apply clear_wiped|]. intros r b2 [-> Hw].
    apply wp_fail. cells.
    assert (wiped b b2) as Hwb by (destruct Hw as (? & Hz & ?); split_and!; [done|by rewrite Hz, Hl|congruence]).
    refine (conj (wiped_wf _ _ Hb Hwb) (conj _ (conj Hr Hwb))). apply Hwb.
Qed.

End Decryptor.
