(* ===== verification/BufferProperties.v ===== *)
(** * The segment buffer in use

    Every buffer that a program can have: made by [new], then used by the
    buffer's own methods and by the in-place operations of [src/state.rs] and
    [src/online.rs] in any order, with states, layouts and parameters of any
    kind, failed calls included. *)

From S2P Require Import Prelude Bytes Error Parameters Provider Crypto Reference Key Buffer State StateFacts StateProperties.
From S2P Require Import Online OnlineFacts.
Import ParametersFacts LayoutFacts BufferFacts.

Section Uses.
Context {T : Target} {F : Features} {P : Primitives} {POk : PrimitivesOk} {B : Backend} {BOk : BackendOk}.
Context {Su : Support} {SuOk : SupportOk}.

Inductive use :=
| Method (a : action)
| Encrypt_segment (st : EncryptionState.t) (s : SegmentLayout.t)
| Encrypt_non_final (e : Encryptor.t)
| Encrypt_final (e : Encryptor.t)
| Decrypt_segment (st : DecryptionState.t) (s : SegmentLayout.t)
| Decrypt_next (d : Decryptor.t).

(** The states may be of other parameters than the buffer. *)
Definition use_ok (b : SegmentBuffer.t) (u : use) : Prop :=
  match u with
  | Method a => action_ok b a
  | Encrypt_segment st s => encryption_wf st /\ obtained s
  | Encrypt_non_final e | Encrypt_final e => encryptor_wf e
  | Decrypt_segment st s => decryption_wf st /\ obtained s
  | Decrypt_next d => decryptor_wf d
  end.

Definition perform_use (u : use) : M Error SegmentBuffer.t unit :=
  match u with
  | Method a => act a
  | Encrypt_segment st s => on_buffer (EncryptionState.encrypt_segment_in_place s) st
  | Encrypt_non_final e => on_buffer Encryptor.encrypt_non_final_segment_in_place e
  | Encrypt_final e =>
      map_errM FinalEncryptError.error (let! _ := Finalize.encrypt_final_segment_in_place e in ret tt)
  | Decrypt_segment st s => on_buffer (DecryptionState.decrypt_segment_in_place s) st
  | Decrypt_next d => on_buffer Decryptor.decrypt_segment_in_place d
  end.

(** The buffers that a sequence of uses reaches, failed ones included. *)
Inductive reachable (p : Parameters.t) : SegmentBuffer.t -> Prop :=
| reach_new b : SegmentBuffer.new (E := Error) p = Ok b -> reachable p b
| reach_use b u : reachable p b -> use_ok b u -> reachable p (snd (perform_use u b)).

(** What an encryption and a decryption in place leave: a ciphertext or a
    plaintext. A failed encryption refused the buffer as it is or wiped it; a
    failed decryption wiped it. *)
Definition encrypted {A} (b : SegmentBuffer.t) (r : Result A) (b' : SegmentBuffer.t) : Prop :=
  match r with
  | Ok _ => exists n, SegmentBuffer.state b' = BufferState.Ciphertext n
  | Err _ => b' = b \/ wiped b b'
  | Halt _ => False
  end.

Definition decrypted_in {A} (b : SegmentBuffer.t) (r : Result A) (b' : SegmentBuffer.t) : Prop :=
  match r with
  | Ok _ => exists n, SegmentBuffer.state b' = BufferState.Plaintext n
  | Err _ => wiped b b'
  | Halt _ => False
  end.

Definition used (u : use) (b : SegmentBuffer.t) (r : Result unit) (b' : SegmentBuffer.t) : Prop :=
  match u with
  | Method a => acted a b r b'
  | Encrypt_segment _ _ | Encrypt_non_final _ | Encrypt_final _ => encrypted b r b'
  | Decrypt_segment _ _ | Decrypt_next _ => decrypted_in b r b'
  end.

(** A well-formed buffer of the same parameters, with a result. *)
Definition stays (b : SegmentBuffer.t) (Q : Prop) (b' : SegmentBuffer.t) : Prop :=
  wf b' /\ SegmentBuffer.parameters b' = SegmentBuffer.parameters b /\ Q.

Lemma unchanged {A} b (e : Error) : wf b -> stays b (encrypted (A := A) b (Err e) b) b.
Proof. intros Hb. split_and!; [done|done|by left]. Qed.

Lemma on_buffer_ok {X A} (op : M Error (X * SegmentBuffer.t) A) x b
    (Q : forall C, SegmentBuffer.t -> Result C -> SegmentBuffer.t -> Prop) :
  (forall r b', Q A b r b' -> Q unit b (omap_ok (fun _ => tt) r) b') ->
  wp op (x, b) (fun r s => stays b (Q A b r (snd s)) (snd s)) ->
  wp (on_buffer op x) b (fun r b' => stays b (Q unit b r b') b').
Proof.
  intros HQ H. unfold wp, on_buffer in *. destruct (op (x, b)) as [r s]. cbn [fst snd] in *.
  destruct H as (? & ? & ?). split_and!; [done..|by apply HQ].
Qed.

(** ** Encryption *)

Lemma encrypt_at_stays st b position kind :
  encryption_wf st -> wf b -> in_u64 position ->
  wp (EncryptionState.encrypt_segment_in_place_at position kind) (st, b) (fun r s => stays b (encrypted b r (snd s)) (snd s)).
Proof.
  intros Hst Hb Hpos. destruct (decide (SegmentBuffer.parameters b = EncryptionState.parameters st)) as [Hp|Hp].
  - destruct (SegmentBuffer.state b) as [|n|n] eqn:Hn.
    2: { eapply wp_mono; [by eapply encrypt_segment_in_place_at_ok|]. intros r s (_ & _ & Hb' & Hpar & Hr).
         split_and!; [done..|]. destruct r as [segment|e|h]; [|by right; apply Hr|done].
         destruct Hr as (_ & _ & _ & Hc). exists (zlen segment). by apply (ciphertext_inv (snd s) segment Hb'). }
    1,2: unfold EncryptionState.encrypt_segment_in_place_at, SegmentBuffer.matches; apply wp_bind, wp_get; cells;
         rewrite bool_decide_true by done; cbn [negb]; apply wp_bind, wp_lift;
         unfold SegmentBuffer.plaintext_length; rewrite Hn; by apply unchanged.
  - unfold EncryptionState.encrypt_segment_in_place_at, SegmentBuffer.matches. apply wp_bind, wp_get. cells.
    rewrite bool_decide_false by done. cbn [negb]. by apply wp_fail, unchanged.
Qed.

Lemma encrypt_segment_stays st s b :
  encryption_wf st -> obtained s -> wf b ->
  wp (EncryptionState.encrypt_segment_in_place s) (st, b) (fun r s' => stays b (encrypted b r (snd s')) (snd s')).
Proof.
  intros Hst Hs Hb. destruct (obtained_facts s Hs) as (_ & _ & Hpos & _).
  unfold EncryptionState.encrypt_segment_in_place. apply wp_bind, wp_get. cells. apply wp_bind, wp_lift.
  unfold SegmentBuffer.plaintext_length.
  destruct (SegmentBuffer.state b) as [|n|n] eqn:Hn; [by apply unchanged| |by apply unchanged]. apply wp_bind, wp_lift.
  destruct (validate_plaintext_layout_cases st n s) as [(-> & _)|[(-> & _)|(-> & _)]]; [|by apply unchanged..].
  by apply encrypt_at_stays.
Qed.

Lemma encrypt_non_final_stays e b :
  encryptor_wf e -> wf b ->
  wp Encryptor.encrypt_non_final_segment_in_place (e, b) (fun r s => stays b (encrypted b r (snd s)) (snd s)).
Proof.
  intros (Hst & Hk & Hh) Hb. apply advance_ok; cells; [exact Hk|by intros; apply unchanged|].
  intros Ha. apply wp_zoom. unfold Encryptor.state_and. cells.
  eapply wp_mono; [by apply encrypt_at_stays; [..|apply counter_u64]|]. intros r [st' b'] Hr. by destruct r.
Qed.

Lemma encrypt_final_stays e b :
  encryptor_wf e -> wf b ->
  wp (perform_use (Encrypt_final e)) b (fun r b' => stays b (encrypted b r b') b').
Proof.
  intros (Hst & Hk & Hh) Hb. cbn [perform_use]. apply wp_map_err, wp_bind.
  apply finalize_ok; [exact Hk|by intros; apply unchanged|]. intros Hc.
  eapply wp_mono; [by apply encrypt_at_stays; [..|apply counter_u64]|]. intros r [st' b'] Hr. by destruct r.
Qed.

(** ** Decryption *)

(** [decrypt_with] around a closure that keeps its promise. *)
Lemma decrypt_with_stays {X} (operation : M Error (X * SegmentBuffer.t) Z) x b :
  wf b -> wp operation (x, b) (kept b) ->
  wp (SegmentBuffer.decrypt_with operation) (x, b) (fun r s => stays b (decrypted_in b r (snd s)) (snd s)).
Proof.
  intros Hb Hop. eapply wp_mono; [by apply decrypt_with_ok|]. intros r s (? & ? & Hr). split_and!; [done..|].
  destruct r as [bounds|e|h]; [|by apply Hr|done]. destruct Hr as (n & _ & _ & Hn & _). by exists n.
Qed.

Lemma decryptor_operation_kept d b :
  decryptor_wf d -> wf b -> wp Decryptor.decrypt_segment_in_place_operation (d, b) (kept b).
Proof.
  intros Hd Hb. pose proof Hb as [Hv Hlen Hstate]. destruct (valid_payload _ Hv).
  destruct (SegmentBuffer.state b) as [|n|n] eqn:Hn.
  1,2: unfold Decryptor.decrypt_segment_in_place_operation, wp, bindM, get, lift, SegmentBuffer.ciphertext; cells; by rewrite Hn.
  pose proof (ciphertext_ok b n Hb Hn) as Hc. set (segment := ztake n (SegmentBuffer.storage b)) in *.
  assert (zlen segment = n) as Hz by (unfold segment; rewrite zlen_ztake; lia). rewrite <- Hz in Hn.
  destruct (decide (SegmentBuffer.parameters b = Decryptor.parameters d)) as [Hp|Hp].
  - eapply wp_mono; [by apply (decryptor_in_place_operation_ok d b segment)|]. intros r s (? & ? & Hr).
    split_and!; [done..|]. destruct r as [m|e|h]; [|done..]. destruct Hr as (pt & -> & _ & _ & _ & Hl & _).
    pose proof (zlen_nonneg pt). lia.
  - unfold Decryptor.decrypt_segment_in_place_operation. apply wp_bind, wp_get. cells. apply wp_bind, wp_lift. rewrite Hc.
    apply wp_bind, wp_lift. destruct (framing_cases d segment Hd) as [(f & -> & _)|(a & q & -> & _)]; [|done].
    apply decryptor_advance_ok; cells; [apply Hd|done|]. intros _. apply wp_zoom.
    unfold DecryptionState.decrypt_segment_in_place_at_framed, Decryptor.state_and, SegmentBuffer.matches. apply wp_bind, wp_get.
    cells. by rewrite bool_decide_false by done.
Qed.

(** ** Every use *)

Lemma use_spec b u :
  wf b -> use_ok b u -> wp (perform_use u) b (fun r b' => stays b (used u b r b') b').
Proof.
  intros Hb Hu. destruct u as [a|st s|e|e|st s|d]; cbn [use_ok used] in *.
  - by apply act_spec.
  - apply (on_buffer_ok _ _ _ (fun C => encrypted)); [by intros []|]. apply encrypt_segment_stays; [apply Hu..|done].
  - apply (on_buffer_ok _ _ _ (fun C => encrypted)); [by intros []|]. by apply encrypt_non_final_stays.
  - by apply encrypt_final_stays.
  - apply (on_buffer_ok _ _ _ (fun C => decrypted_in)); [by intros []|].
    apply decrypt_with_stays; [done|]. apply decrypt_segment_operation_kept; [apply Hu|done|apply Hu].
  - apply (on_buffer_ok _ _ _ (fun C => decrypted_in)); [by intros []|].
    apply decrypt_with_stays; [done|]. by apply decryptor_operation_kept.
Qed.

Lemma reachable_wf p b : Parameters.valid p -> reachable p b -> wf b /\ SegmentBuffer.parameters b = p.
Proof.
  intros Hv. induction 1 as [b H|b u Hr [Hwf <-] Hu].
  - split; [by eapply new_wf|]. unfold SegmentBuffer.new in H. by apply obind_inv_ok in H as (? & _ & [= <-]).
  - pose proof (use_spec b u Hwf Hu) as (? & ? & _). done.
Qed.

(** C31: the buffer's state always describes bytes inside its storage. After any
    sequence of methods (those private to the crate as well, with any writes
    and any closure given to [decrypt_with]) and in-place encryptions and
    decryptions by states of any parameters, failed ones included: the buffer
    has its full storage, and the two accessors agree with the state - exactly
    one of them succeeds, with the length of the state, unless the buffer is
    empty. Every further use returns and leaves such a buffer, in the state that
    belongs to it: a failed method changes nothing; [decrypt_with] exposes the
    length that its closure returned, over the bytes that it left, or wipes the
    whole storage; a decryption in place leaves a plaintext or wipes; an
    encryption in place leaves a ciphertext, or wipes, or refuses and changes
    nothing. *)
Theorem buffer_invariant (p : Parameters.t) (b : SegmentBuffer.t) (u : use)
  (Hp : Parameters.valid p) (Hb : reachable p b) (Hu : use_ok b u) :
  SegmentBuffer.parameters b = p /\ SegmentBuffer.capacity b = Parameters.segment_length p /\ readable b
  /\ wp (perform_use u) b (fun r b' =>
       used u b r b' /\ SegmentBuffer.parameters b' = p
       /\ SegmentBuffer.capacity b' = Parameters.segment_length p /\ readable b').
Proof.
  destruct (reachable_wf p b Hp Hb) as [Hwf <-]. split_and!; [done|apply Hwf|by apply wf_readable|].
  eapply wp_mono; [by apply use_spec|]. intros r b' (Hwf' & Hpar & Hused).
  split_and!; [done|done|by rewrite <- Hpar; apply Hwf'|by apply wf_readable].
Qed.

End Uses.

(** ** Witnesses *)

Module BufferExamples.

(** A new buffer, a payload of 4 bytes in it, and its encryption. *)
Definition prepared : SegmentBuffer.t := snd (act (T := target64) (Prepare_plaintext 4) example_buffer).

Lemma prepared_reachable : reachable (T := target64) (B := Reference.backend) Parameters.SEGMENT_64_B prepared.
Proof.
  apply (reach_use (T := target64) Parameters.SEGMENT_64_B example_buffer (Method (Prepare_plaintext 4)));
    [apply reach_new; by vm_compute|done].
Qed.

End BufferExamples.

Lemma buffer_invariant_witness :
  exists b, perform_use (T := target64) (Encrypt_segment Examples.encryption Examples.segment) BufferExamples.prepared = (Ok tt, b)
    /\ SegmentBuffer.capacity b = 64
    /\ exists c, SegmentBuffer.ciphertext b = Ok c /\ zlen c = 36.
Proof.
  destruct (buffer_invariant (T := target64) (BOk := Reference.backend_ok) Parameters.SEGMENT_64_B BufferExamples.prepared
              (Encrypt_segment Examples.encryption Examples.segment) ltac:(done) BufferExamples.prepared_reachable
              (conj Examples.encryption_ok Examples.segment_obtained)) as (_ & _ & _ & H).
  destruct (wp_run _ _ _ H) as (r & b & E & _ & _ & Hcap & Hread). exists b.
  assert (let x := perform_use (T := target64) (Encrypt_segment Examples.encryption Examples.segment) BufferExamples.prepared in
          fst x = Ok tt /\ SegmentBuffer.state (snd x) = BufferState.Ciphertext 36) as Hx by (by vm_compute).
  cbv zeta in Hx. rewrite E in Hx. cbn [fst snd] in Hx. destruct Hx as [-> Hst].
  unfold readable in Hread. rewrite Hst in Hread. split; [exact E|]. split; [exact Hcap|]. exact (proj1 Hread).
Defined.
