(* ===== verification/OnlineMessages.v ===== *)
(** * Whole messages

    The loops of [encrypt_body] and [decrypt_body] and the one-shot functions
    of [src/online.rs], against sequences of the specification's online calls. *)

From S2P Require Import Prelude Bytes Error Parameters Provider Crypto Reference Key Buffer Spec State StateFacts StateProperties.
From S2P Require Import Wire Online OnlineFacts.
Import ParametersFacts LayoutFacts.

(** ** The encryption loop *)

Section EncryptLoop.
Context {T : Target} {F : Features} {P : Primitives} {POk : PrimitivesOk} {B : Backend} {BOk : BackendOk}.

(** The plaintext of the segment at position [i], and of those from [i] on. *)
Definition chunk (l : MessageLayout.t) (plaintext : bytes) (i : Z) : bytes :=
  let s := segment_of l i in
  slice plaintext (SegmentLayout.plaintext_offset s)
    (SegmentLayout.plaintext_offset s + SegmentLayout.plaintext_length s).

Definition chunks (l : MessageLayout.t) (plaintext : bytes) (i : Z) : list bytes :=
  map (chunk l plaintext) (seqZ i (MessageLayout.segment_count l - i)).

Lemma chunks_cons l plaintext i :
  i < MessageLayout.segment_count l ->
  chunks l plaintext i = chunk l plaintext i :: chunks l plaintext (i + 1).
Proof. intros. unfold chunks. rewrite seqZ_cons by lia. cbn [map]. do 3 f_equal; lia. Qed.

Lemma chunks_end l plaintext : chunks l plaintext (MessageLayout.segment_count l) = [].
Proof. unfold chunks. by rewrite Z.sub_diag. Qed.

(** The chunks are the plaintext. *)
Lemma concat_chunks_from l plaintext (n : nat) : forall i,
  LayoutFacts.wf l -> zlen plaintext = MessageLayout.plaintext_length l -> 0 <= i ->
  i + Z.of_nat n = MessageLayout.segment_count l ->
  concat (chunks l plaintext i) = zdrop (Z.min (zlen plaintext) (i * payload (MessageLayout.parameters l))) plaintext.
Proof.
  induction n as [|n IH]; intros i Hwf Hl Hi Hn.
  - assert (i = MessageLayout.segment_count l) as -> by lia. rewrite chunks_end.
    destruct Hwf as [_ _ Hp _ _]. cbn [concat]. rewrite zdrop_all; [done|lia].
  - rewrite chunks_cons by lia. cbn [concat]. rewrite (IH (i + 1)) by (done || lia).
    pose proof (wf_position l i Hwf) as (H1 & H2 & H3 & _); [lia|].
    destruct (valid_payload _ (LayoutFacts.wf_valid _ Hwf)) as [_ Hpay].
    set (p := payload (MessageLayout.parameters l)) in *.
    set (length := SegmentLayout.plaintext_length (segment_of l i)).
    assert (Hlen : i * p + length = Z.min (zlen plaintext) ((i + 1) * p) /\ 0 <= length).
    { unfold length, segment_of. simpl. fold p. destruct (Z.eqb_spec (i + 1) (MessageLayout.segment_count l)); lia. }
    change (chunk l plaintext i) with (slice plaintext (i * p) (i * p + length)).
    rewrite (Z.min_r _ (i * p)), <- (proj1 Hlen) by lia.
    rewrite <- (slice_to_end plaintext (i * p + length)), <- (slice_to_end plaintext (i * p)) by lia.
    apply slice_concat; lia.
Qed.

Lemma concat_chunks l plaintext :
  LayoutFacts.wf l -> zlen plaintext = MessageLayout.plaintext_length l ->
  concat (chunks l plaintext 0) = plaintext.
Proof.
  intros Hwf Hl. pose proof (wf_count _ Hwf). pose proof (zlen_nonneg plaintext).
  rewrite (concat_chunks_from l plaintext (Z.to_nat (MessageLayout.segment_count l)) 0) by (done || lia).
  apply zdrop_le0. lia.
Qed.

(** A message that is being encrypted, before the segment at position [i]. *)
Record encrypting (l : MessageLayout.t) (plaintext : bytes) (e : Encryptor.t) (i : Z) (ct : bytes) : Prop := {
  en_layout : LayoutFacts.wf l;
  en_plaintext : zlen plaintext = MessageLayout.plaintext_length l;
  en_size : MessageLayout.ciphertext_length l <= isize_max;
  en_encryptor : encryptor_wf e;
  en_parameters : Encryptor.parameters e = MessageLayout.parameters l;
  en_counter : Encryptor.counter e = SegmentCounter.mk i false;
  en_position : 0 <= i < MessageLayout.segment_count l;
  en_ciphertext : zlen ct = 74 + i * Parameters.segment_length (MessageLayout.parameters l)
}.

(** Offsets of the segment at [i], within the machine's limits. *)
Lemma encrypting_bounds l plaintext e i ct :
  encrypting l plaintext e i ct ->
  let s := segment_of l i in
  0 <= SegmentLayout.plaintext_offset s /\ 0 <= SegmentLayout.plaintext_length s
  /\ SegmentLayout.plaintext_offset s + SegmentLayout.plaintext_length s <= zlen plaintext
  /\ zlen plaintext <= isize_max
  /\ zlen ct + SegmentLayout.ciphertext_length s <= isize_max
  /\ (SegmentLayout.kind s = SegmentKind.NonFinal <-> i + 1 < MessageLayout.segment_count l)
  /\ SegmentLayout.ciphertext_length s = 32 + SegmentLayout.plaintext_length s
  /\ zlen (chunk l plaintext i) = SegmentLayout.plaintext_length s
  /\ plaintext_fits (encryptor_context e) (SegmentLayout.kind s) (SegmentLayout.plaintext_length s).
Proof.
  intros [Hwf Hpt Hsize He Hpar Hcnt Hi Hct] s.
  pose proof (wf_position l i Hwf Hi) as (H1 & H2 & H3 & H4 & _ & _).
  pose proof (wf_ciphertext _ Hwf) as Hcl. destruct (valid_payload _ (LayoutFacts.wf_valid _ Hwf)) as [Hs Hp].
  assert (Henc : enc_seg_len (encryptor_context e) = Parameters.segment_length (MessageLayout.parameters l))
    by (unfold enc_seg_len; by rewrite <- Hpar).
  assert (i * 32 <= MessageLayout.segment_count l * 32 - 32) by lia.
  unfold plaintext_fits, segment_fits. rewrite Henc. unfold chunk. fold s. rewrite zlen_slice.
  unfold s, segment_of; simpl.
  destruct (Z.eqb_spec (i + 1) (MessageLayout.segment_count l)) as [Hl|Hl]; simpl;
    (split_and!; [lia|lia|lia|lia|lia| |lia|lia|lia]); split; done || lia.
Qed.

(** The errors that remain are the backend's. *)
Lemma encrypting_error l plaintext e i ct kind room err :
  encrypting l plaintext e i ct -> kind = SegmentLayout.kind (segment_of l i) ->
  room = SegmentLayout.ciphertext_length (segment_of l i) ->
  encrypt_error (encryptor_context e) (zlen (chunk l plaintext i)) i kind room err ->
  (err = RngFailure \/ err = CryptoFailure) /\ backend_fails.
Proof.
  intros H -> ->. pose proof (encrypting_bounds _ _ _ _ _ H) as (_ & _ & _ & _ & _ & _ & Hc & Hl & Hfit).
  destruct H as [Hwf _ _ _ _ _ Hi _]. pose proof (wf_count _ Hwf). rewrite Hl, Hc.
  destruct err; simpl; try tauto; lia.
Qed.

Lemma not_refused l plaintext e i ct err :
  encrypting l plaintext e i ct ->
  ~ CounterFacts.refused (Encryptor.counter e) (SegmentLayout.kind (segment_of l i)) err.
Proof.
  intros H. pose proof (encrypting_bounds _ _ _ _ _ H) as (_ & _ & _ & _ & _ & Hk & _).
  destruct H as [Hwf _ _ _ _ Hcnt Hi _]. pose proof (wf_count _ Hwf). rewrite Hcnt.
  unfold CounterFacts.refused. simpl. intros [[_ ?]|(_ & _ & Hnf & ?)]; [done|].
  apply Hk in Hnf. lia.
Qed.

(** The two calls of the loop, at room for exactly the segment. *)
Lemma encrypt_inner_ok l plaintext e i ct room :
  encrypting l plaintext e i ct -> SegmentLayout.kind (segment_of l i) = SegmentKind.NonFinal ->
  zlen room = SegmentLayout.ciphertext_length (segment_of l i) ->
  wp (Encryptor.encrypt_non_final_segment_into (chunk l plaintext i)) (e, room) (fun r s =>
    match r with
    | Ok _ => exists nonce segment, snd s = splice room 0 segment /\ zlen segment = zlen room
        /\ zlen nonce = 12 /\ continues e (fst s)
        /\ NonceGenerator.next (EncryptionState.nonces (Encryptor.state e))
           = (Ok nonce, EncryptionState.nonces (Encryptor.state (fst s)))
        /\ Spec.encryptOnlineSegment (encryptor_params e) (online_encryptor e) nonce (chunk l plaintext i)
           = Some (online_encryptor (fst s), segment)
    | Err err => (err = RngFailure \/ err = CryptoFailure) /\ backend_fails
    | Halt _ => False
    end).
Proof.
  intros H Hk Hroom. pose proof (encrypting_bounds _ _ _ _ _ H) as (_ & _ & _ & _ & _ & _ & Hclen & Hchunk & _).
  pose proof H as [_ _ _ He _ Hcnt _ _].
  eapply wp_mono; [by apply encrypt_non_final_segment_into_ok|]. intros r [e' out'] [_ Hr].
  revert Hr. cells. intros Hr. destruct r as [w|err|h]; [| |done].
  - destruct Hr as (_ & segment & _ & -> & Hcont & _ & Hlen & nonce & Hn & Hnx & Hspec).
    exists nonce, segment. split_and!; [done|lia|done..].
  - destruct Hr as (_ & _ & [Hr|[_ Hr]]).
    + rewrite <- Hk in Hr. by eapply not_refused in Hr.
    + rewrite Hcnt in Hr. by eapply encrypting_error in Hr; [|done|..].
Qed.

Lemma encrypt_last_ok l plaintext e i ct room :
  encrypting l plaintext e i ct -> SegmentLayout.kind (segment_of l i) = SegmentKind.Final ->
  zlen room = SegmentLayout.ciphertext_length (segment_of l i) ->
  wp (Finalize.encrypt_final_segment_into e (chunk l plaintext i)) room (fun r out' =>
    match r with
    | Ok _ => exists nonce segment, out' = splice room 0 segment /\ zlen segment = zlen room
        /\ zlen nonce = 12
        /\ (exists g', NonceGenerator.next (EncryptionState.nonces (Encryptor.state e)) = (Ok nonce, g'))
        /\ Spec.encryptLastSegment (encryptor_params e) (online_encryptor e) nonce (chunk l plaintext i)
           = Some (advanced (online_encryptor e) true, segment)
    | Err f => (FinalEncryptError.into_error f = RngFailure \/ FinalEncryptError.into_error f = CryptoFailure)
        /\ backend_fails
    | Halt _ => False
    end).
Proof.
  intros H Hk Hroom. pose proof (encrypting_bounds _ _ _ _ _ H) as (_ & _ & _ & _ & _ & _ & Hclen & Hchunk & _).
  pose proof H as [_ _ _ He _ Hcnt _ _].
  eapply wp_mono; [by apply encrypt_final_segment_into_ok|]. intros r out' [_ Hr].
  destruct r as [w|f|h]; [| |done].
  - destruct Hr as (_ & segment & _ & -> & Hlen & nonce & g' & Hn & Hnx & Hspec).
    exists nonce, segment. split_and!; [done|lia|done|by exists g'|done].
  - unfold FinalEncryptError.into_error. destruct Hr as (_ & _ & [Hr|Hr]).
    + rewrite <- Hk in Hr. by eapply not_refused in Hr.
    + rewrite Hcnt in Hr. by eapply encrypting_error in Hr; [|done|..].
Qed.

(** One iteration. *)
Lemma encrypt_one_ok l plaintext e i ct it :
  encrypting l plaintext e i ct ->
  wp (encrypt_one plaintext (segment_of l i)) (mkEncryptVars it (Some e) ct) (fun r s =>
    ev_segments s = it /\
    match r with
    | Ok _ => exists nonce segment, zlen nonce = 12 /\ ev_ciphertext s = ct ++ segment
        /\ zlen segment = SegmentLayout.ciphertext_length (segment_of l i)
        /\ if i + 1 =? MessageLayout.segment_count l then
             ev_encryptor s = None
             /\ (exists g', NonceGenerator.next (EncryptionState.nonces (Encryptor.state e)) = (Ok nonce, g'))
             /\ Spec.encryptLastSegment (encryptor_params e) (online_encryptor e) nonce (chunk l plaintext i)
                = Some (advanced (online_encryptor e) true, segment)
           else exists e', ev_encryptor s = Some e' /\ continues e e'
             /\ NonceGenerator.next (EncryptionState.nonces (Encryptor.state e))
                = (Ok nonce, EncryptionState.nonces (Encryptor.state e'))
             /\ Spec.encryptOnlineSegment (encryptor_params e) (online_encryptor e) nonce (chunk l plaintext i)
                = Some (online_encryptor e', segment)
    | Err err => (err = RngFailure \/ err = CryptoFailure) /\ backend_fails
    | Halt _ => False
    end).
Proof.
  intros H. pose proof (encrypting_bounds _ _ _ _ _ H)
    as (Ho & Hpl & Hend & Hpi & Hci & Hkind & Hclen & Hchunk & _).
  pose proof isize_le_usize. pose proof (zlen_nonneg ct).
  unfold encrypt_one. apply wp_bind, wp_get, wp_bind, wp_lift.
  rewrite usize_try_from_small by lia. apply wp_bind, wp_lift.
  unfold checked_usize at 1, in_range. replace (_ && _) with true by lia. cbn [ok_or].
  apply wp_bind, wp_lift. cbn [ev_ciphertext ev_encryptor].
  unfold checked_usize at 1, in_range. replace (_ && _) with true by lia. cbn [ok_or].
  apply wp_bind, wp_lift. rewrite vec_resize_grow by lia.
  set (clen := SegmentLayout.ciphertext_length (segment_of l i)) in *.
  replace (zlen ct + clen - zlen ct) with clen by lia.
  assert (Hroom : zlen (zeros clen) = clen) by (rewrite zlen_zeros; lia).
  apply wp_bind, wp_zoom, wp_put. unfold ev_ciphertext_cell at 1. cells. cbn [ev_segments ev_encryptor].
  apply wp_bind, wp_lift. rewrite index_ok by lia.
  change (slice plaintext _ _) with (chunk l plaintext i).
  destruct (SegmentLayout.kind (segment_of l i)) eqn:Hk.
  - apply wp_bind, wp_lift. cbn [expect]. apply wp_bind, wp_zoom. unfold ev_borrowed, ev_ciphertext_cell. cells.
    cbn [ev_ciphertext ev_segments ev_encryptor]. apply wp_zoom_range_snd; [apply app_window_range|]. cells.
    rewrite app_window. eapply wp_mono; [by eapply encrypt_inner_ok|]. intros r [e' out']. cells.
    intros Hr. destruct r as [w|err|h]; [|done|done].
    destruct Hr as (nonce & segment & -> & Hlen & Hr). apply wp_ret. cbn [ev_segments ev_encryptor ev_ciphertext].
    split; [done|]. exists nonce, segment. rewrite app_window_filled by lia.
    destruct Hr as (Hn & Hc & Hd & Hs). split_and!; [done|done|lia|].
    replace (i + 1 =? _) with false by (destruct Hkind as [Hkind _]; specialize (Hkind eq_refl); lia).
    by exists e'.
  - apply wp_bind, wp_lift. cbn [expect]. apply wp_bind, wp_modify. cbn [ev_segments ev_ciphertext].
    apply wp_bind, wp_zoom. unfold ev_ciphertext_cell. cells. cbn [ev_ciphertext ev_segments ev_encryptor].
    apply wp_zoom_range; [apply app_window_range|]. rewrite app_window. apply wp_map_err.
    eapply wp_mono; [by eapply encrypt_last_ok|]. intros r out' Hr.
    destruct r as [w|f|h]; [|done|done]; cbn [map_err].
    destruct Hr as (nonce & segment & -> & Hlen & Hn & Hd & Hs). apply wp_ret. cbn [ev_segments ev_encryptor ev_ciphertext].
    split; [done|]. exists nonce, segment. rewrite app_window_filled by lia. split_and!; [done|done|lia|].
    replace (i + 1 =? _) with true; [done|].
    pose proof (en_position _ _ _ _ _ H). destruct Hkind as [_ Hkind].
    destruct (Z.eqb_spec (i + 1) (MessageLayout.segment_count l)); [done|]. specialize (Hkind ltac:(lia)). done.
Qed.

Lemma draw_cons n g nonce g1 nonces g2 :
  NonceGenerator.next g = (Ok nonce, g1) -> draw n g1 = (Ok nonces, g2) ->
  draw (S n) g = (Ok (nonce :: nonces), g2).
Proof. intros H1 H2. cbn [draw]. unfold bindM. by rewrite H1, H2. Qed.

(** A non-final step leads to the next position. *)
Lemma encrypting_next l plaintext e e' i ct nonce segment :
  encrypting l plaintext e i ct -> i + 1 < MessageLayout.segment_count l -> continues e e' ->
  Spec.encryptOnlineSegment (encryptor_params e) (online_encryptor e) nonce (chunk l plaintext i)
    = Some (online_encryptor e', segment) ->
  zlen segment = SegmentLayout.ciphertext_length (segment_of l i) ->
  encrypting l plaintext e' (i + 1) (ct ++ segment).
Proof.
  intros [Hwf Hpt Hsize He Hpar Hcnt Hi Hct] Hlt (He' & Hctx & Hhd) Hspec Hlen. split; try done.
  - unfold Encryptor.parameters, EncryptionState.parameters, encryptor_context in *. by rewrite Hctx.
  - apply encryptOnline_some in Hspec as (_ & _ & _ & Hadv).
    unfold online_encryptor, online, advanced in Hadv. rewrite Hcnt in Hadv. simpl in Hadv.
    injection Hadv as _ _ _ Hn Hc. destruct (Encryptor.counter e') as [n' c']. simpl in *. congruence.
  - lia.
  - rewrite zlen_app, Hct, Hlen. unfold segment_of. simpl. destruct (valid_payload _ (LayoutFacts.wf_valid _ Hwf)).
    replace (i + 1 =? MessageLayout.segment_count l) with false by lia. lia.
Qed.

Lemma encrypt_loop_ok n : forall l plaintext e i ct fuel,
  encrypting l plaintext e i ct -> i + Z.of_nat (S n) = MessageLayout.segment_count l -> (n + 2 <= fuel)%nat ->
  wp (encrypt_loop fuel plaintext)
    (mkEncryptVars (Segments.mk l i (MessageLayout.segment_count l)) (Some e) ct) (fun r s =>
    match r with
    | Ok _ => exists nonces segments g' st',
        draw (S n) (EncryptionState.nonces (Encryptor.state e)) = (Ok nonces, g')
        /\ Forall (fun nonce => zlen nonce = 12) nonces
        /\ encryptAll (encryptor_params e) (online_encryptor e) nonces (chunks l plaintext i) = Some (st', segments)
        /\ ev_ciphertext s = ct ++ concat segments
        /\ zlen (ev_ciphertext s) = MessageLayout.ciphertext_length l
    | Err err => (err = RngFailure \/ err = CryptoFailure) /\ backend_fails
    | Halt _ => False
    end).
Proof.
  induction n as [|n IH]; intros l plaintext e i ct fuel H Hn Hfuel;
    (destruct fuel as [|fuel]; [lia|]); cbn [encrypt_loop]; apply wp_bind, wp_zoom;
    pose proof H as [Hwf _ _ _ _ _ Hi Hct]; unfold ev_segments_cell; cells; cbn [ev_segments];
    (eapply wp_eq; [apply SegmentsFacts.next_some; [split_and!; simpl; done || lia|simpl; lia]|]);
    cbn [Segments.layout Segments.start Segments.stop ev_encryptor ev_ciphertext];
    apply wp_bind; (eapply wp_mono; [by apply encrypt_one_ok|]);
    intros r [it' eo' ct'] [Hit Hr]; cbn [ev_segments ev_encryptor ev_ciphertext] in Hit, Hr; subst it';
    (destruct r as [u|err|h]; [|done..]);
    destruct Hr as (nonce & segment & Hnonce & -> & Hlen & Hr);
    rewrite chunks_cons by lia.
  - replace (i + 1 =? _) with true in Hr by lia. destruct Hr as (-> & [g' Hnext] & Hspec).
    destruct fuel as [|fuel]; [lia|]. cbn [encrypt_loop]. apply wp_bind, wp_zoom. unfold ev_segments_cell. cells.
    cbn [ev_segments ev_encryptor ev_ciphertext].
    eapply wp_eq; [apply SegmentsFacts.next_none; simpl; lia|]. apply wp_ret. cbn [ev_ciphertext].
    exists [nonce], [segment], g', (advanced (online_encryptor e) true).
    replace (i + 1) with (MessageLayout.segment_count l) by lia. rewrite chunks_end.
    split_and!.
    + eapply draw_cons; [done|]. done.
    + by constructor.
    + by apply encryptAll_last.
    + cbn [concat]. by rewrite app_nil_r.
    + rewrite zlen_app, Hct, Hlen, (wf_ciphertext _ Hwf). destruct (valid_payload _ (LayoutFacts.wf_valid _ Hwf)).
      unfold segment_of. simpl. replace (i + 1 =? _) with true by lia. lia.
  - replace (i + 1 =? _) with false in Hr by lia. destruct Hr as (e' & -> & Hcont & Hnext & Hspec).
    pose proof (encrypting_next _ _ _ _ _ _ _ _ H ltac:(lia) Hcont Hspec Hlen) as H'.
    eapply wp_mono; [apply (IH l plaintext e' (i + 1) (ct ++ segment) fuel H'); lia|].
    intros r s Hr. destruct r as [u'|err|h]; [|done..].
    destruct Hr as (nonces & segments & g' & st' & Hdraw & Hall & Hspec' & Hs & Hl).
    exists (nonce :: nonces), (segment :: segments), g', st'. split_and!; [|by constructor| | |done].
    + by eapply draw_cons.
    + eapply encryptAll_cons; [|done|].
      * rewrite chunks_cons by lia. done.
      * unfold encryptor_params in *. destruct Hcont as (_ & Hctx & _). by rewrite <- Hctx.
    + rewrite Hs. cbn [concat]. by rewrite app_assoc.
Qed.

End EncryptLoop.

(** ** The decryption loop *)

Section DecryptLoop.
Context {T : Target} {F : Features} {P : Primitives} {POk : PrimitivesOk} {B : Backend} {BOk : BackendOk}.
Context {Su : Support} {SuOk : SupportOk}.

(** The segments of a body, up to and including the final one. *)
Definition opens (params : Z) (state : Spec.OnlineState) (body plaintext : bytes) : Prop :=
  exists segments state', concat segments = body
    /\ decryptAll params state segments = Some (state', plaintext) /\ Spec.Closed state' = true.

(** A segment is determined by the first bytes of what follows it. *)
Lemma decryptAny_prefix params state segment state' pt :
  32 <= params < u32_max -> Spec.decryptAnyOnlineSegment params state segment = Some (state', pt) ->
  32 <= zlen segment /\ exists is_final, Spec.framing_ok params segment is_final = true
    /\ state' = advanced state is_final
    /\ zlen segment = if is_final then Spec.BE2I (ztake 4 segment) else params.
Proof.
  intros Hp (_ & is_final & _ & Hd%decryptSegment_framed & ->)%decryptAny_some; [|done].
  pose proof Hd as Hf. unfold Spec.framing_ok, Spec.AEAD_IV_LEN, Spec.AEAD_TAG_LEN in Hf.
  split; [destruct is_final; lia|]. exists is_final. split_and!; [done..|]. destruct is_final; lia.
Qed.

Lemma same_segment params state s1 s2 r1 r2 st1 st2 p1 p2 :
  32 <= params < u32_max -> s1 ++ r1 = s2 ++ r2 ->
  Spec.decryptAnyOnlineSegment params state s1 = Some (st1, p1) ->
  Spec.decryptAnyOnlineSegment params state s2 = Some (st2, p2) -> s1 = s2 /\ r1 = r2.
Proof.
  intros Hp Heq H1 H2.
  destruct (decryptAny_prefix _ _ _ _ _ Hp H1) as (L1 & f1 & F1 & _ & Z1).
  destruct (decryptAny_prefix _ _ _ _ _ Hp H2) as (L2 & f2 & F2 & _ & Z2).
  assert (ztake 4 s1 = ztake 4 s2) as H4.
  { rewrite <- (ztake_app_l 4 s1 r1), <- (ztake_app_l 4 s2 r2) by lia. by rewrite Heq. }
  apply framing_ok_prefix in F1, F2; [|done..]. rewrite H4 in F1. rewrite F1 in F2.
  assert (zlen s1 = zlen s2) as Hz by (rewrite Z1, Z2, H4; destruct f1, f2; done).
  apply app_inj_1; [|done]. unfold zlen in Hz. lia.
Qed.

Lemma decryptAll_unique params segs1 : forall state segs2 st1 st2 p1 p2,
  32 <= params < u32_max -> concat segs1 = concat segs2 ->
  decryptAll params state segs1 = Some (st1, p1) -> decryptAll params state segs2 = Some (st2, p2) ->
  segs1 = segs2.
Proof.
  induction segs1 as [|s1 segs1 IH]; intros state segs2 st1 st2 p1 p2 Hp Heq H1 H2.
  - destruct segs2 as [|s2 segs2]; [done|]. exfalso. cbn [decryptAll] in H2.
    apply bind_Some in H2 as ([st pt] & H & _). apply decryptAny_prefix in H as [Hl _]; [|done].
    cbn [concat] in Heq. apply (f_equal zlen) in Heq. rewrite zlen_app, (zlen_nil (A := byte)) in Heq.
    pose proof (zlen_nonneg (concat segs2)). lia.
  - cbn [decryptAll] in H1. apply bind_Some in H1 as ([sa pa] & Ha & H1).
    apply bind_Some in H1 as ([sb pb] & H1 & [= <- <-]). destruct segs2 as [|s2 segs2].
    { exfalso. apply decryptAny_prefix in Ha as [Hl _]; [|done]. cbn [concat] in Heq.
      apply (f_equal zlen) in Heq. rewrite zlen_app, (zlen_nil (A := byte)) in Heq.
      pose proof (zlen_nonneg (concat segs1)). lia. }
    cbn [decryptAll] in H2. apply bind_Some in H2 as ([sc pc] & Hc & H2).
    apply bind_Some in H2 as ([sd pd] & H2 & [= <- <-]). cbn [concat] in Heq.
    destruct (same_segment _ _ _ _ _ _ _ _ _ _ Hp Heq Ha Hc) as [-> Heq2].
    rewrite Ha in Hc. injection Hc as <- <-. f_equal. by eapply IH.
Qed.

(** After the final segment nothing is accepted. *)
Lemma closed_ends params state segs st pt :
  32 <= params < u32_max -> Spec.Closed state = true -> decryptAll params state segs = Some (st, pt) -> segs = [].
Proof.
  intros Hp Hc H. destruct segs as [|s segs]; [done|]. cbn [decryptAll] in H.
  apply bind_Some in H as ([? ?] & Hd & _). apply decryptAny_some in Hd as [? _]; [congruence|done].
Qed.

(** What follows an accepted body is empty. *)
Lemma opens_ends params segs1 : forall state segs2 st1 st2 p1 p2 x,
  32 <= params < u32_max -> concat segs2 = concat segs1 ++ x ->
  decryptAll params state segs1 = Some (st1, p1) -> Spec.Closed st1 = true ->
  decryptAll params state segs2 = Some (st2, p2) -> x = [].
Proof.
  induction segs1 as [|s1 segs1 IH]; intros state segs2 st1 st2 p1 p2 x Hp Heq H1 Hc H2.
  - cbn [decryptAll] in H1. injection H1 as -> _. apply closed_ends in H2 as ->; [|done..]. by cbn [concat app] in Heq.
  - cbn [decryptAll] in H1. apply bind_Some in H1 as ([sa pa] & Ha & H1).
    apply bind_Some in H1 as ([sb pb] & H1 & [= -> _]).
    cbn [concat] in Heq. rewrite <- app_assoc in Heq. destruct segs2 as [|s2 segs2].
    { exfalso. apply decryptAny_prefix in Ha as [Hl _]; [|done]. cbn [concat] in Heq.
      apply (f_equal zlen) in Heq. rewrite zlen_app, (zlen_nil (A := byte)) in Heq.
      pose proof (zlen_nonneg (concat segs1 ++ x)). lia. }
    cbn [decryptAll] in H2. apply bind_Some in H2 as ([sc pc] & Hc2 & H2).
    apply bind_Some in H2 as ([sd pd] & H2 & _). cbn [concat] in Heq.
    destruct (same_segment _ _ _ _ _ _ _ _ _ _ Hp Heq Hc2 Ha) as [-> Heq2].
    rewrite Hc2 in Ha. injection Ha as <- <-. by eapply IH.
Qed.

(** A body that opens starts with a segment that the code frames the same way. *)
Lemma opens_inv d body plaintext :
  decryptor_wf d -> body <> [] -> opens (decryptor_params d) (online_decryptor d) body plaintext ->
  exists segment rest kind st pt, body = segment ++ rest
    /\ framing_ok (decryptor_context d) segment kind = true
    /\ spec_any d segment = Some (st, pt) /\ st = advanced (online_decryptor d) (SegmentKind.is_final kind)
    /\ (kind = SegmentKind.Final -> rest = [])
    /\ exists pt', opens (decryptor_params d) st rest pt'.
Proof.
  intros Hd Hne (segs & st' & Hbody & Hall & Hclosed). pose proof (decryptor_params_range d Hd) as Hp.
  assert (32 <= decryptor_params d < u32_max) as Hp' by lia.
  destruct segs as [|segment segs]; [by cbn [concat] in Hbody|]. cbn [concat] in Hbody. cbn [decryptAll] in Hall.
  apply bind_Some in Hall as ([st pt] & Hany & Hall). apply bind_Some in Hall as ([st2 pt2] & Hall & [= <- <-]).
  destruct (decryptAny_prefix _ _ _ _ _ Hp' Hany) as (_ & is_final & Hf & -> & _).
  exists segment, (concat segs), (if is_final then SegmentKind.Final else SegmentKind.NonFinal).
  exists (advanced (online_decryptor d) is_final), pt. split_and!; [done|by destruct is_final|done|by destruct is_final| |].
  - destruct is_final; [|done]. intros _. by rewrite (closed_ends _ (advanced (online_decryptor d) true) segs st2 pt2 Hp' eq_refl Hall).
  - exists pt2, segs, st2. done.
Qed.

(** The prefix of a body that opens frames its first segment. *)
Lemma opens_head d body plaintext :
  decryptor_wf d -> body <> [] -> opens (decryptor_params d) (online_decryptor d) body plaintext ->
  exists segment rest kind n st pt, body = segment ++ rest /\ zlen segment = 32 + n /\ 4 <= zlen body
    /\ SegmentFraming.decode (Decryptor.parameters d) (ztake 4 body) = Ok (FramingFacts.framing_of kind n)
    /\ spec_any d segment = Some (st, pt) /\ (kind = SegmentKind.Final -> rest = []).
Proof.
  intros Hd Hne Ho. pose proof (proj1 (proj1 Hd)) as Hc. fold (decryptor_context d) in Hc.
  destruct (opens_inv d body plaintext Hd Hne Ho) as (segment & rest & kind & st & pt & -> & Hf & Hs & _ & Hr & _).
  pose proof (framing_ok_bounds _ _ _ Hc Hf) as [Hb _]. pose proof (zlen_nonneg rest).
  exists segment, rest, kind, (zlen segment - 32), st, pt.
  rewrite zlen_app, ztake_app_l by lia. split_and!; [done|lia|lia| |done|done].
  by apply (framing_ok_decode (decryptor_context d)).
Qed.

(** Conversely, the head of a body that does open is determined by its prefix. *)
Lemma opens_head_framed d body kind n plaintext :
  decryptor_wf d -> body <> [] ->
  SegmentFraming.decode (Decryptor.parameters d) (ztake 4 body) = Ok (FramingFacts.framing_of kind n) ->
  opens (decryptor_params d) (online_decryptor d) body plaintext ->
  32 + n <= zlen body /\ (kind = SegmentKind.Final -> 32 + n = zlen body)
  /\ exists st pt, spec_any d (ztake (32 + n) body) = Some (st, pt).
Proof.
  intros Hd Hne Hdec Ho.
  destruct (opens_head d body plaintext Hd Hne Ho) as (seg & rest & kind' & n' & st & pt & Hb & Hz & _ & Hx & Hs & Hr).
  rewrite Hdec in Hx. unfold FramingFacts.framing_of in Hx. injection Hx as _ <- <-.
  rewrite Hb, zlen_app. pose proof (zlen_nonneg rest). split; [lia|split].
  - intros E. rewrite (Hr E), (zlen_nil (A := byte)). lia.
  - exists st, pt. by rewrite ztake_app_l, ztake_all by lia.
Qed.

(** What decoding a full prefix of the body gives. *)
Lemma decode_head d body :
  decryptor_wf d -> 4 <= zlen body ->
  match SegmentFraming.decode (Decryptor.parameters d) (ztake 4 body) with
  | Ok f => exists kind n, 0 <= n /\ f = FramingFacts.framing_of kind n
  | Err _ => True
  | Halt _ => False
  end.
Proof.
  intros Hd H4. pose proof (proj1 (proj1 Hd)) as Hc. fold (decryptor_context d) in Hc.
  change (Decryptor.parameters d) with (MessageContext.parameters (decryptor_context d)).
  assert (Hpre : zlen (ztake 4 body) = 4) by (rewrite zlen_ztake; lia).
  pose proof (FramingFacts.framing_decode_returns _ _ Hc Hpre) as Hret.
  destruct (SegmentFraming.decode _ _) as [f|e|h] eqn:Hdec; [|done|done].
  apply FramingFacts.framing_decode_inv in Hdec as (kind & n & Hfits & _ & ->); [|exact Hc|done].
  exists kind, n. split; [|done]. destruct (valid_payload _ Hc). unfold FramingFacts.fits in Hfits. destruct kind; lia.
Qed.

(** One iteration. *)
Lemma decrypt_one_ok d body acc :
  decryptor_wf d -> body <> [] -> zlen acc + zlen body <= isize_max ->
  wp (decrypt_one (Decryptor.parameters d) body) (d, acc) (fun r s =>
    match r with
    | Ok rest => decryptor_wf (fst s) /\ decryptor_context (fst s) = decryptor_context d
        /\ exists segment pt, body = segment ++ rest /\ 32 <= zlen segment
             /\ zlen pt = zlen segment - 32 /\ snd s = acc ++ pt
             /\ spec_any d segment = Some (online_decryptor (fst s), pt)
    | Err e => (forall pt, ~ opens (decryptor_params d) (online_decryptor d) body pt)
        \/ (e = CryptoFailure /\ backend_fails)
    | Halt _ => False
    end).
Proof.
  intros Hd Hne Hsize. pose proof (zlen_nonneg acc). pose proof (zlen_nonneg body).
  pose proof isize_le_usize. pose proof (proj1 (proj1 Hd)) as Hc. fold (decryptor_context d) in Hc.
  unfold decrypt_one. apply wp_bind, wp_lift.
  destruct (Z.lt_ge_cases (zlen body) 4) as [H4|H4].
  { unfold segment_prefix_of. floe_consts. replace (_ <? 4) with true by lia. left.
    intros pt (? & ? & ? & ? & ? & ? & _ & _ & ? & _)%opens_head; [lia|done..]. }
  rewrite segment_prefix_of_ok by done. apply wp_bind, wp_lift. pose proof (decode_head d body Hd H4) as Hcase.
  destruct (SegmentFraming.decode _ _) as [f|e|h] eqn:Hdec; [| |done].
  2: { left. intros pt (? & ? & ? & ? & ? & ? & _ & _ & _ & ? & _)%opens_head; [congruence|done..]. }
  destruct Hcase as (kind & n & Hn0 & ->).
  cbn [SegmentFraming.ciphertext_length SegmentFraming.plaintext_length FramingFacts.framing_of].
  destruct (Z.ltb_spec (zlen body) (32 + n)) as [Hshort|Hlong].
  { apply wp_fail. left. intros pt [? _]%(opens_head_framed d body kind n); [lia|done..]. }
  destruct (SegmentFraming.is_final _ && negb (32 + n =? zlen body)) eqn:Hfin.
  { apply wp_fail. left. intros pt (_ & Hr & _)%(opens_head_framed d body kind n); [|done..].
    unfold SegmentFraming.is_final, FramingFacts.framing_of in Hfin. simpl in Hfin. destruct kind; [done|]. specialize (Hr eq_refl). lia. }
  apply wp_bind, wp_lift. rewrite index_ok by lia. apply wp_bind, wp_lift. rewrite index_ok by lia.
  rewrite slice_0, slice_to_end by lia. set (segment := ztake (32 + n) body). set (rest := zdrop (32 + n) body).
  assert (Hseglen : zlen segment = 32 + n) by (unfold segment; rewrite zlen_ztake; lia).
  assert (Hframed : framed (decryptor_context d) segment (FramingFacts.framing_of kind n)).
  { apply decode_framed; [done|lia| |simpl; lia]. unfold segment. rewrite ztake_ztake, Z.min_l by lia. exact Hdec. }
  apply wp_bind, wp_get. cells. apply wp_bind, wp_lift. rewrite usize_ok by lia.
  apply wp_bind, wp_lift. rewrite vec_resize_grow by lia. replace (zlen acc + n - zlen acc) with n by lia.
  apply wp_bind, wp_zoom, wp_put. cells. apply wp_bind.
  apply wp_zoom_range_snd; [cells; apply app_window_range|]. cells.
  rewrite app_window. eapply wp_mono; [by apply decrypt_segment_into_framed_ok|].
  intros r [d' out'] [Hl Hr]. revert Hl Hr. cells. rewrite zlen_zeros. intros Hl Hr.
  destruct r as [w|e|h]; [| |done].
  - destruct Hr as (_ & pt & -> & -> & Hd' & Hctx & Hptl & Hs). apply wp_ret. cells. split_and!; [done..|].
    exists segment, pt. rewrite app_window_filled by (rewrite zlen_zeros; lia).
    split_and!; [symmetry; apply ztake_zdrop|lia|done..].
  - destruct Hr as (_ & _ & _ & [[Hnone _]|[[_ ?]|[-> ?]]]); [left|lia|by right].
    intros pt (_ & _ & st & pt' & Hs)%(opens_head_framed d body kind n); [|done..]. fold segment in Hs. congruence.
Qed.

(** The loop removes every segment of the body. *)
Lemma decrypt_loop_ok fuel : forall d body acc,
  decryptor_wf d -> (length body < fuel)%nat -> zlen acc + zlen body <= isize_max ->
  wp (decrypt_loop fuel (Decryptor.parameters d) body) (d, acc) (fun r s =>
    match r with
    | Ok _ => exists segs pt, concat segs = body /\ snd s = acc ++ pt
        /\ decryptAll (decryptor_params d) (online_decryptor d) segs = Some (online_decryptor (fst s), pt)
    | Err e => (forall pt, ~ opens (decryptor_params d) (online_decryptor d) body pt)
        \/ (e = CryptoFailure /\ backend_fails)
    | Halt _ => False
    end).
Proof.
  induction fuel as [|fuel IH]; intros d body acc Hd Hfuel Hsize; [lia|]. cbn [decrypt_loop].
  destruct (Z.eqb_spec (zlen body) 0) as [He|He].
  - apply zlen_0_nil in He as ->. apply wp_ret. exists [], []. cbn [concat snd]. by rewrite app_nil_r.
  - assert (body <> []) as Hne by (by intros ->). pose proof (decryptor_params_range d Hd) as Hp.
    assert (32 <= decryptor_params d < u32_max) as Hp' by lia.
    apply wp_bind. eapply wp_mono; [by apply decrypt_one_ok|].
    intros r [d' acc'] Hr. destruct r as [rest|e|h]; [|done..].
    destruct Hr as (Hd' & Hctx & segment & pt & -> & Hmin & Hpt & Hacc & Hspec). revert Hd' Hctx Hacc Hspec.
    cells. intros Hd' Hctx -> Hspec.
    assert (Hpars : Decryptor.parameters d' = Decryptor.parameters d)
      by (unfold Decryptor.parameters, DecryptionState.parameters, decryptor_context in *; by rewrite Hctx).
    assert (Hparams : decryptor_params d' = decryptor_params d) by (unfold decryptor_params; by rewrite Hctx).
    rewrite zlen_app in Hsize. rewrite <- Hpars. eapply wp_mono.
    { apply IH; [done| |rewrite zlen_app; lia]. rewrite length_app in Hfuel. unfold zlen in Hmin. lia. }
    intros r [d2 acc2] Hr. destruct r as [u|e|h]; [| |done].
    + destruct Hr as (segs & pt2 & <- & Hacc2 & Hall). exists (segment :: segs), (pt ++ pt2).
      cbn [concat decryptAll]. unfold spec_any in Hspec. rewrite Hspec. cbn [mbind option_bind].
      rewrite <- Hparams, Hall. split_and!; [done| |done]. revert Hacc2. cells. intros ->. by rewrite app_assoc.
    + destruct Hr as [Hr|Hr]; [left|by right]. intros pt3 Ho. rewrite Hparams in Hr.
      destruct (opens_inv d _ pt3 Hd Hne Ho) as (seg & rest' & kind & st & pt' & Hb & _ & Hs & _ & _ & pt4 & Ho').
      unfold spec_any in *. destruct (same_segment _ _ _ _ _ _ _ _ _ _ Hp' Hb Hspec Hs) as [<- <-].
      rewrite Hspec in Hs. injection Hs as <- <-. by apply Hr in Ho'.
Qed.

(** A whole body. *)
Lemma decrypt_body_ok d body :
  decryptor_wf d -> Decryptor.counter d = SegmentCounter.new -> slice_ok body ->
  match decrypt_body d body with
  | Ok plaintext => opens (decryptor_params d) (online_decryptor d) body plaintext
  | Err e => (forall pt, ~ opens (decryptor_params d) (online_decryptor d) body pt)
      \/ (e = CryptoFailure /\ backend_fails)
  | Halt _ => False
  end.
Proof.
  intros Hd Hnew Hsize. unfold slice_ok in Hsize. pose proof (zlen_nonneg body). pose proof (decryptor_params_range d Hd) as Hp.
  unfold decrypt_body, vec_with_capacity, in_range. replace (_ && _) with true by lia. cbn [obind].
  pose proof (decrypt_loop_ok (S (length body)) d body [] Hd ltac:(lia) ltac:(rewrite (zlen_nil (A := byte)); lia)) as Hloop.
  unfold wp in Hloop. destruct (decrypt_loop _ _ _ _) as [r [d' acc]]. revert Hloop. cells. intros Hloop.
  destruct r as [u|e|h]; [| |done]; cbn [obind].
  - destruct Hloop as (segs & pt & Hbody & -> & Hall). unfold Decryptor.finish, SegmentCounter.finish.
    destruct (SegmentCounter.closed (Decryptor.counter d')) eqn:Hc; cbn [obind].
    + exists segs, (online_decryptor d'). by split_and!.
    + left. intros pt2 (segs2 & st2 & Hb2 & Hall2 & Hc2).
      assert (segs = segs2) as ->.
      { eapply (decryptAll_unique (decryptor_params d)); [split; [lia|apply Hp]| |done|done]. congruence. }
      rewrite Hall in Hall2. injection Hall2 as <- <-. unfold online_decryptor in Hc2. simpl in Hc2. congruence.
  - exact Hloop.
Qed.

End DecryptLoop.

(** ** Whole messages *)

Section Messages.
Context {T : Target} {F : Features} {P : Primitives} {POk : PrimitivesOk} {B : Backend} {BOk : BackendOk}.
Context {Su : Support} {SuOk : SupportOk}.

(** The specification accepts a message: its header starts a decryption with
    the parameters, and the rest of it is segments up to a final one. *)
Definition accepts_with (p : Parameters.t) (key : Key.t) (aad ciphertext plaintext : bytes) : Prop :=
  exists h body ost, Parameters.valid p /\ Header.wf h /\ ciphertext = Header.as_bytes h ++ body
    /\ Spec.startOnlineDecryption (Parameters.segment_length p) (Key.as_bytes key) aad (Header.as_bytes h) = Some ost
    /\ opens (Parameters.segment_length p) ost body plaintext.

Definition accepts (key : Key.t) (aad ciphertext plaintext : bytes) : Prop :=
  exists p, accepts_with p key aad ciphertext plaintext.

(** The parameters of an accepted header are the ones it encodes. *)
Lemma started_encodes p key aad h ost :
  Header.wf h -> Spec.startOnlineDecryption (Parameters.segment_length p) key aad (Header.as_bytes h) = Some ost ->
  ztake 10 (Header.as_bytes h) = Parameters.encode p.
Proof.
  unfold Header.wf, Header.LEN. floe_consts. intros Hh. unfold Spec.startOnlineDecryption, Spec.startDecryption, Spec.SPLIT.
  change (Spec.PARAM_ENCODE (Parameters.segment_length p)) with (Parameters.encode p).
  unfold Header.as_bytes. rewrite zlen_encode, Hh, bool_decide_true by done.
  change (10 + 32 <=? 74) with true. cbn [mbind option_bind]. by case_bool_decide.
Qed.

Lemma accepts_with_unique p key aad h body plaintext :
  Header.wf h -> accepts_with p key aad (Header.as_bytes h ++ body) plaintext ->
  Parameters.valid p /\ ztake 10 (Header.as_bytes h) = Parameters.encode p /\ exists ost,
    Spec.startOnlineDecryption (Parameters.segment_length p) (Key.as_bytes key) aad (Header.as_bytes h) = Some ost
    /\ opens (Parameters.segment_length p) ost body plaintext.
Proof.
  intros Hh (h' & body' & ost & Hp & Hh' & Heq & Hstart & Hopens).
  assert (Header.as_bytes h' = Header.as_bytes h /\ body' = body) as [Hb ->].
  { unfold Header.wf, Header.as_bytes, Header.LEN in *. apply app_inj_1 in Heq as [H1 H2]; [done|].
    unfold zlen in *. lia. }
  rewrite Hb in *. split_and!; [done|by eapply started_encodes|by exists ost].
Qed.

(** A decryptor for the header, with the code's errors. *)
Definition decryptor_started (p : Parameters.t) (key : Key.t) (aad : bytes) (h : Header.t)
    (r : Result Decryptor.t) : Prop :=
  match r with
  | Ok d => decryptor_wf d /\ Decryptor.counter d = SegmentCounter.new
      /\ decryptor_params d = Parameters.segment_length p
      /\ Spec.startOnlineDecryption (Parameters.segment_length p) (Key.as_bytes key) aad (Header.as_bytes h)
         = Some (online_decryptor d)
  | Err e => Key.provider key = Err e \/ (e = CryptoFailure /\ backend_fails)
      \/ Spec.startOnlineDecryption (Parameters.segment_length p) (Key.as_bytes key) aad (Header.as_bytes h) = None
  | Halt _ => False
  end.

Lemma new_with_parameters_ok p key aad h :
  Parameters.valid p -> Header.wf h ->
  decryptor_started p key aad h (Decryptor.new_with_parameters key aad p h).
Proof.
  intros Hp Hh. unfold Decryptor.new_with_parameters, start_decryption, decryptor_started, Spec.startOnlineDecryption.
  destruct (Key_provider_cases key) as [[pr ->]| ->]; cbn [obind]; [|by left].
  pose proof (start_decryption_with_provider_ok key pr aad p h Hp Hh) as H.
  destruct (start_decryption_with_provider _ _ _ _ _) as [st|e|x]; cbn [obind]; [| |done].
  - destruct H as (Hst & Hpar & _ & Hs). rewrite Hs. refine (conj (conj Hst _) (conj eq_refl (conj _ eq_refl))).
    + done.
    + unfold decryptor_params, enc_seg_len, decryptor_context. by rewrite <- Hpar.
  - destruct H as [?|[-> _]]; [by right; left|by right; right].
Qed.

Lemma decryptor_new_ok key aad h :
  Header.wf h ->
  (exists p, Parameters.decode (ztake 10 (Header.as_bytes h)) = Ok p
     /\ decryptor_started p key aad h (Decryptor.new key aad h))
  \/ (exists e, Decryptor.new key aad h = Err e
       /\ (Key.provider key = Err e \/ forall p, Parameters.decode (ztake 10 (Header.as_bytes h)) <> Ok p)).
Proof.
  intros Hh. unfold Decryptor.new, start_decryption_inferred, Header.unverified_parameters.
  destruct (header_fields (E := Error) h Hh) as (-> & _). cbn [obind].
  change (Header.as_bytes h) with (Header.header_bytes h).
  destruct (Key_provider_cases key) as [[pr Hpr]|Hpr]; rewrite Hpr; cbn [obind]; [|right; eauto].
  destruct (Parameters.decode _) as [p|e|x] eqn:Hd; cbn [obind].
  - left. exists p. split; [done|]. pose proof (decode_inv _ _ Hd) as [Hp _].
    pose proof (new_with_parameters_ok p key aad h Hp Hh) as H.
    unfold Decryptor.new_with_parameters, start_decryption in H. rewrite Hpr in H. exact H.
  - right. exists e. split; [done|]. by right.
  - pose proof (decode_returns (ztake 10 (Header.header_bytes h))) as Hret. rewrite Hd in Hret.
    exfalso. apply Hret. rewrite zlen_ztake. unfold Header.wf, Header.LEN in Hh. flia.
Qed.

(** The body, for a decryptor that was started. *)
Lemma started_body_ok p key aad h d body :
  Parameters.valid p -> Header.wf h -> slice_ok body ->
  decryptor_started p key aad h (Ok d) ->
  match decrypt_body d body with
  | Ok plaintext => accepts_with p key aad (Header.as_bytes h ++ body) plaintext
  | Err e => (forall plaintext, ~ accepts_with p key aad (Header.as_bytes h ++ body) plaintext)
      \/ (e = CryptoFailure /\ backend_fails)
  | Halt _ => False
  end.
Proof.
  intros Hp Hh Hsize (Hd & Hcnt & Hpar & Hspec). pose proof (decrypt_body_ok d body Hd Hcnt Hsize) as H.
  rewrite Hpar in H. destruct (decrypt_body d body) as [pt|e|x]; [| |done].
  - exists h, body, (online_decryptor d). by split_and!.
  - destruct H as [H|H]; [left|by right]. intros pt Hacc.
    apply accepts_with_unique in Hacc as (_ & _ & ost & Hs & Ho); [|done].
    rewrite Hspec in Hs. injection Hs as <-. by eapply H.
Qed.

Lemma short_not_accepted p key aad c plaintext : zlen c < 74 -> ~ accepts_with p key aad c plaintext.
Proof.
  intros Hl (h & body & ost & _ & Hh & -> & _). unfold Header.wf, Header.LEN in Hh. floe_consts.
  rewrite zlen_app in Hl. unfold Header.as_bytes in Hl. pose proof (zlen_nonneg body). lia.
Qed.

Lemma decrypt_with_parameters_ok p key aad c :
  Parameters.valid p -> slice_ok c ->
  match decrypt_with_parameters key aad p c with
  | Ok plaintext => accepts_with p key aad c plaintext
  | Err e => (forall plaintext, ~ accepts_with p key aad c plaintext)
      \/ Key.provider key = Err e \/ (e = CryptoFailure /\ backend_fails)
  | Halt _ => False
  end.
Proof.
  intros Hp Hsize. unfold decrypt_with_parameters, slice_ok in *. pose proof (zlen_nonneg c).
  destruct (Z.lt_ge_cases (zlen c) 74) as [Hl|Hl].
  { rewrite split_header_err by done. left. intros pt. by apply short_not_accepted. }
  destruct (split_header_ok c Hl) as [-> Hh]. cbn [obind]. set (h := Header.mk _) in *.
  assert (Header.as_bytes h ++ zdrop 74 c = c) as Hc by (apply ztake_zdrop).
  pose proof (new_with_parameters_ok p key aad h Hp Hh) as Hn.
  destruct (Decryptor.new_with_parameters _ _ _ _) as [d|e|x]; cbn [obind]; [| |done].
  - pose proof (started_body_ok p key aad h d (zdrop 74 c) Hp Hh) as Hb. rewrite Hc in Hb.
    specialize (Hb ltac:(unfold slice_ok; rewrite zlen_zdrop; lia) Hn). destruct (decrypt_body _ _); [done| |done].
    destruct Hb; auto.
  - destruct Hn as [Hn|[Hn|Hn]]; [auto..|left]. rewrite <- Hc. intros pt Hacc.
    apply accepts_with_unique in Hacc as (_ & _ & ost & Hs & _); [congruence|done].
Qed.

Lemma decrypt_ok key aad c :
  slice_ok c ->
  match decrypt key aad c with
  | Ok plaintext => accepts key aad c plaintext
  | Err e => (forall plaintext, ~ accepts key aad c plaintext)
      \/ Key.provider key = Err e \/ (e = CryptoFailure /\ backend_fails)
  | Halt _ => False
  end.
Proof.
  intros Hsize. unfold decrypt, slice_ok in *. pose proof (zlen_nonneg c).
  destruct (Z.lt_ge_cases (zlen c) 74) as [Hl|Hl].
  { rewrite split_header_err by done. left. intros pt [p Hacc]. by eapply short_not_accepted. }
  destruct (split_header_ok c Hl) as [-> Hh]. cbn [obind]. set (h := Header.mk _) in *.
  assert (Header.as_bytes h ++ zdrop 74 c = c) as Hc by (apply ztake_zdrop).
  assert (Huniq : forall p q pt, Parameters.decode (ztake 10 (Header.as_bytes h)) = Ok p ->
            accepts_with q key aad c pt -> q = p).
  { intros p q pt Hd Hacc. rewrite <- Hc in Hacc. apply accepts_with_unique in Hacc as (Hq & He & _); [|done].
    rewrite He, decode_encode in Hd by done. congruence. }
  destruct (decryptor_new_ok key aad h Hh) as [(p & Hdec & Hn)|(e & -> & Hn)].
  - pose proof (decode_inv _ _ Hdec) as [Hp _].
    destruct (Decryptor.new _ _ _) as [d|e|x]; cbn [obind]; [| |done].
    + pose proof (started_body_ok p key aad h d (zdrop 74 c) Hp Hh) as Hb. rewrite Hc in Hb.
      specialize (Hb ltac:(unfold slice_ok; rewrite zlen_zdrop; lia) Hn).
      destruct (decrypt_body _ _) as [pt|e|x]; [by exists p| |done].
      destruct Hb as [Hb|?]; [left|by right; right]. intros pt [q Hacc].
      pose proof (Huniq p q pt Hdec Hacc) as ->. by eapply Hb.
    + destruct Hn as [Hn|[Hn|Hn]]; [auto..|left]. intros pt [q Hacc]. pose proof (Huniq p q pt Hdec Hacc) as ->.
      rewrite <- Hc in Hacc. apply accepts_with_unique in Hacc as (_ & _ & ost & Hs & _); [congruence|done].
  - cbn [obind]. destruct Hn as [Hn|Hn]; [by right; left|left]. intros pt [q Hacc].
    rewrite <- Hc in Hacc. apply accepts_with_unique in Hacc as (Hq & He & _); [|done].
    apply (Hn q). by rewrite He, decode_encode.
Qed.

(** Encryption of a body, by a new encryptor. *)
Lemma encrypt_body_ok e plaintext l :
  encryptor_wf e -> Encryptor.counter e = SegmentCounter.new ->
  plaintext_layout (Encryptor.parameters e) (zlen plaintext) = Ok l ->
  MessageLayout.ciphertext_length l <= isize_max ->
  match encrypt_body e plaintext with
  | Ok c => exists nonces segments g' st',
      draw (Z.to_nat (MessageLayout.segment_count l)) (EncryptionState.nonces (Encryptor.state e)) = (Ok nonces, g')
      /\ Forall (fun nonce => zlen nonce = 12) nonces
      /\ encryptAll (encryptor_params e) (online_encryptor e) nonces (chunks l plaintext 0) = Some (st', segments)
      /\ c = Header.as_bytes (Encryptor.header e) ++ concat segments
      /\ zlen c = MessageLayout.ciphertext_length l
  | Err err => (err = RngFailure \/ err = CryptoFailure) /\ backend_fails
  | Halt _ => False
  end.
Proof.
  intros He Hcnt Hlayout Hsize. pose proof He as ((Hc & _) & _ & Hh). pose proof isize_le_usize. pose proof usize_le_u64.
  pose proof (zlen_nonneg plaintext). unfold Header.wf, Header.LEN in Hh. floe_consts.
  assert (Hu : zlen plaintext <= u64_max \/ u64_max < zlen plaintext) by lia.
  assert (in_u64 (zlen plaintext) /\ LayoutFacts.wf l /\ MessageLayout.parameters l = Encryptor.parameters e
          /\ MessageLayout.plaintext_length l = zlen plaintext) as (Hin & Hwf & Hpar & Hpt).
  { assert (zlen plaintext <= MessageLayout.ciphertext_length l) as Hle.
    { unfold plaintext_layout in Hlayout. apply obind_inv_ok in Hlayout as (q & _ & Hlayout).
      case_match; [done|]. case_match; [done|].
      apply obind_inv_ok in Hlayout as (f & Hf & Hlayout). apply obind_inv_ok in Hlayout as (w & Hw & Hlayout).
      apply obind_inv_ok in Hlayout as (t & Ht & [= <-]). simpl.
      unfold checked_u64, in_range in *. repeat case_match; simplify_eq/=. floe_consts. lia. }
    assert (in_u64 (zlen plaintext)) as Hin by (unfold in_u64; floe_consts; lia). split; [done|].
    by apply plaintext_layout_ok in Hlayout as (? & _ & ? & ?). }
  unfold encrypt_body. unfold length_usize_to_u64. rewrite Z.mod_small by (unfold in_u64 in Hin; lia).
  rewrite Hlayout. cbn [obind]. rewrite usize_try_from_small by lia. cbn [ok_or obind].
  pose proof (wf_count _ Hwf). pose proof (wf_ciphertext _ Hwf) as Hct. pose proof (zlen_nonneg plaintext).
  unfold vec_with_capacity, in_range. replace (_ && _) with true by lia. cbn [obind app].
  assert (Hstart : encrypting l plaintext e 0 (Header.as_bytes (Encryptor.header e))).
  { split; try done. lia. }
  pose proof (encrypt_loop_ok (pred (Z.to_nat (MessageLayout.segment_count l))) l plaintext e 0
                (Header.as_bytes (Encryptor.header e)) (Z.to_nat (MessageLayout.segment_count l + 1)) Hstart
                ltac:(lia) ltac:(lia)) as Hloop.
  unfold Segments.segments. unfold wp in Hloop. destruct (encrypt_loop _ _ _) as [r s]. revert Hloop. cells.
  intros Hloop. destruct r as [u|err|h]; cbn [omap_ok]; [|done..].
  destruct Hloop as (nonces & segments & g' & st' & Hdraw & Hall & Hspec & Hs & Hl).
  replace (S (pred (Z.to_nat (MessageLayout.segment_count l)))) with (Z.to_nat (MessageLayout.segment_count l)) in Hdraw by lia.
  by exists nonces, segments, g', st'.
Qed.

(** A new encryptor. *)
Lemma encryptor_new_ok entropy key aad p :
  Parameters.valid p ->
  match Encryptor.new entropy key aad p with
  | Ok e =>
      encryptor_wf e /\ Encryptor.counter e = SegmentCounter.new /\ Encryptor.parameters e = p
      /\ Key.provider key = Ok (Encryptor.provider e)
      /\ exists rng iv,
           ProviderRng_fill (ProviderRng_new (Encryptor.provider e) entropy, zeros 32) = (Ok tt, (rng, iv))
           /\ zlen iv = 32
           /\ EncryptionState.nonces (Encryptor.state e) = NonceGenerator.new rng
           /\ Spec.startOnlineEncryption (Parameters.segment_length p) (Key.as_bytes key) aad iv
              = (online_encryptor e, Header.as_bytes (Encryptor.header e))
  | Err err => Key.provider key = Err err \/ ((err = RngFailure \/ err = CryptoFailure) /\ backend_fails)
  | Halt _ => False
  end.
Proof.
  intros Hp. unfold Encryptor.new. pose proof (start_encryption_ok entropy key aad p Hp) as H.
  destruct (start_encryption _ _ _ _) as [[st h]|err|x]; cbn [obind]; [|done..].
  destruct H as (Hst & Hh & Hpar & Hpr & rng & iv & Hf & Hiv & Hn & Hs).
  refine (conj (conj Hst (conj _ Hh)) (conj eq_refl (conj Hpar (conj Hpr _)))); [done|].
  exists rng, iv. split_and!; [done..|]. unfold Spec.startOnlineEncryption. by rewrite Hs.
Qed.

Lemma opens_unique params state body p1 p2 :
  32 <= params < u32_max -> opens params state body p1 -> opens params state body p2 -> p1 = p2.
Proof.
  intros Hp (s1 & st1 & <- & H1 & _) (s2 & st2 & Heq & H2 & _).
  pose proof (decryptAll_unique _ _ _ _ _ _ _ _ Hp (eq_sym Heq) H1 H2) as ->. congruence.
Qed.

Lemma valid_params p : Parameters.valid p -> 32 <= Parameters.segment_length p < u32_max.
Proof. intros Hp. destruct (valid_payload _ Hp). unfold u32_max. lia. Qed.

Lemma header_of_accepted p key aad c plaintext :
  accepts_with p key aad c plaintext ->
  exists h body, c = Header.as_bytes h ++ body /\ Header.wf h.
Proof. intros (h & body & ost & _ & Hh & -> & _). eauto. Qed.

(** The parameters are read from the header: all accepted readings agree. *)
Lemma accepts_with_parameters p q key key' aad aad' c x pt1 pt2 :
  accepts_with p key aad c pt1 -> accepts_with q key' aad' (c ++ x) pt2 -> p = q.
Proof.
  intros H1 H2. pose proof (header_of_accepted _ _ _ _ _ H1) as (h & body & -> & Hh).
  rewrite <- app_assoc in H2.
  apply accepts_with_unique in H1 as (Hp & E1 & _); [|done]. apply accepts_with_unique in H2 as (Hq & E2 & _); [|done].
  rewrite E1 in E2. apply (f_equal Parameters.decode) in E2. rewrite !decode_encode in E2 by done. congruence.
Qed.

(** A message that starts with a message ends with it. *)
Lemma accepted_extension p key aad c x pt1 pt2 :
  accepts_with p key aad c pt1 -> accepts_with p key aad (c ++ x) pt2 -> x = [] /\ pt1 = pt2.
Proof.
  intros H1 H2. pose proof (header_of_accepted _ _ _ _ _ H1) as (h & body & -> & Hh). rewrite <- app_assoc in H2.
  apply accepts_with_unique in H1 as (Hp & _ & o1 & S1 & s1 & st1 & E1 & D1 & C1); [|done].
  apply accepts_with_unique in H2 as (_ & _ & o2 & S2 & s2 & st2 & E2 & D2 & C2); [|done].
  assert (o1 = o2) as -> by congruence. rewrite <- E1 in E2.
  assert (x = []) as -> by (by eapply (opens_ends _ s1 o2 s2); [by apply valid_params|..]). split; [done|].
  rewrite app_nil_r in E2. eapply (opens_unique _ o2 (concat s1)); [by apply valid_params|by exists s1, st1|].
  by exists s2, st2.
Qed.

End Messages.
