(* ===== verification/DebugText.v ===== *)
(** * The [Debug] texts

    The [Debug] impls of the crate, derived and written by hand, over the
    builders of [core::fmt]. Programs log these texts, so the point of the
    written ones is what they leave out: keys, associated data, nonces, the
    contents of buffers. *)

From Stdlib Require Import Ascii.
From stdpp Require Import strings pretty.
From S2P Require Import Prelude Bytes Error Parameters Provider Crypto Key Buffer State StdIo Wire Online Io RandomAccess.

(** ** [core::fmt] *)

Module Fmt.

(** What the builders are told: [debug_struct] with [finish] or
    [finish_non_exhaustive], [debug_tuple] and [debug_list]; other texts are
    written as they are. *)
Inductive value :=
| Text (text : string)
| Struct (name : string) (fields : list (string * value)) (exhaustive : bool)
| Tuple (name : string) (fields : list value)
| List (entries : list value).

Definition newline : string := String "010"%char EmptyString.

(** A [str] whose characters need no escape. *)
Definition quoted (s : string) : value :=
  let quote := String "034"%char EmptyString in Text (quote +:+ s +:+ quote).

(** The form [{:?}]. *)
Fixpoint compact (v : value) : string :=
  match v with
  | Text text => text
  | Struct name fields exhaustive =>
      let shown := map (fun f => fst f +:+ ": " +:+ compact (snd f)) fields in
      match fields, exhaustive with
      | [], true => name
      | [], false => name +:+ " { .. }"
      | _, true => name +:+ " { " +:+ String.concat ", " shown +:+ " }"
      | _, false => name +:+ " { " +:+ String.concat ", " shown +:+ ", .. }"
      end
  | Tuple name fields =>
      match fields with
      | [] => name
      | _ => name +:+ "(" +:+ String.concat ", " (map compact fields) +:+ ")"
      end
  | List entries => "[" +:+ String.concat ", " (map compact entries) +:+ "]"
  end.

(** [PadAdapter]: four spaces at the start of every line that has a character. *)
Fixpoint pad (at_start : bool) (s : string) : string :=
  match s with
  | EmptyString => EmptyString
  | String c s =>
      (if at_start then "    " else "") +:+ String c (pad (bool_decide (c = "010"%char)) s)
  end.

Definition line (s : string) : string := pad true (s +:+ "," +:+ newline).

(** The form [{:#?}]. *)
Fixpoint pretty (v : value) : string :=
  match v with
  | Text text => text
  | Struct name fields exhaustive =>
      let shown := map (fun f => line (fst f +:+ ": " +:+ pretty (snd f))) fields in
      match fields, exhaustive with
      | [], true => name
      | [], false => name +:+ " { .. }"
      | _, true => name +:+ " {" +:+ newline +:+ String.concat "" shown +:+ "}"
      | _, false => name +:+ " {" +:+ newline +:+ String.concat "" shown +:+ pad true (".." +:+ newline) +:+ "}"
      end
  | Tuple name fields =>
      match fields with
      | [] => name
      | _ => name +:+ "(" +:+ newline +:+ String.concat "" (map (fun f => line (pretty f)) fields) +:+ ")"
      end
  | List entries =>
      match entries with
      | [] => "[]"
      | _ => "[" +:+ newline +:+ String.concat "" (map (fun e => line (pretty e)) entries) +:+ "]"
      end
  end.

Definition render (alternate : bool) (v : value) : string := if alternate then pretty v else compact v.

End Fmt.

(** ** The trait *)

(** An impl may panic; the formatter it writes to does not fail. *)
Abbreviation Shown := (outcome Empty_set Fmt.value).

Class Debug (A : Type) := debug : A -> Shown.

(** [format!] with [{:?}] or [{:#?}]. *)
Definition format {A} `{Debug A} (alternate : bool) (a : A) : outcome Empty_set string :=
  omap_ok (Fmt.render alternate) (debug a).

Fixpoint sequence {E A} (l : list (outcome E A)) : outcome E (list A) :=
  match l with
  | [] => Ok []
  | o :: l => let* a := o in let* l := sequence l in Ok (a :: l)
  end.

Definition field {A} `{Debug A} (name : string) (a : A) : outcome Empty_set (string * Fmt.value) :=
  omap_ok (pair name) (debug a).

Definition debug_struct (name : string) (fields : list (outcome Empty_set (string * Fmt.value))) (exhaustive : bool) : Shown :=
  omap_ok (fun fields => Fmt.Struct name fields exhaustive) (sequence fields).

Definition debug_tuple (name : string) (fields : list Shown) : Shown :=
  omap_ok (Fmt.Tuple name) (sequence fields).

(** Integers, [bool], byte arrays and [Option]. *)
#[global] Instance debug_Z : Debug Z := fun n => Ok (Fmt.Text (pretty n)).
#[global] Instance debug_bool : Debug bool := fun b => Ok (Fmt.Text (if b then "true" else "false")).
#[global] Instance debug_bytes : Debug bytes := fun b =>
  Ok (Fmt.List (map (fun x => Fmt.Text (pretty (byte_to_Z x))) b)).
#[global] Instance debug_option {A} `{Debug A} : Debug (option A) := fun o =>
  match o with
  | None => Ok (Fmt.Text "None")
  | Some a => debug_tuple "Some" [debug a]
  end.

(** ** The impls of the crate *)

#[global] Instance debug_LengthRequirement : Debug LengthRequirement := fun self =>
  match self with
  | Exactly length => debug_tuple "Exactly" [debug length]
  | AtLeast length => debug_tuple "AtLeast" [debug length]
  | AtMost length => debug_tuple "AtMost" [debug length]
  | Between minimum maximum => debug_struct "Between" [field "minimum" minimum; field "maximum" maximum] true
  end.

#[global] Instance debug_Error : Debug Error := fun self =>
  match self with
  | InvalidKeyLength actual => debug_struct "InvalidKeyLength" [field "actual" actual] true
  | InvalidParameters => Ok (Fmt.Text "InvalidParameters")
  | InvalidSegmentLength actual => debug_struct "InvalidSegmentLength" [field "actual" actual] true
  | InvalidPlaintextLength actual required =>
      debug_struct "InvalidPlaintextLength" [field "actual" actual; field "required" required] true
  | InvalidHeaderLength actual => debug_struct "InvalidHeaderLength" [field "actual" actual] true
  | InvalidHeaderParameters => Ok (Fmt.Text "InvalidHeaderParameters")
  | InvalidHeaderTag => Ok (Fmt.Text "InvalidHeaderTag")
  | InvalidCiphertextLength actual required =>
      debug_struct "InvalidCiphertextLength" [field "actual" actual; field "required" required] true
  | InvalidSegmentPrefix => Ok (Fmt.Text "InvalidSegmentPrefix")
  | AuthenticationFailed => Ok (Fmt.Text "AuthenticationFailed")
  | Closed => Ok (Fmt.Text "Closed")
  | Truncated => Ok (Fmt.Text "Truncated")
  | SegmentLimit => Ok (Fmt.Text "SegmentLimit")
  | OutputTooSmall actual required =>
      debug_struct "OutputTooSmall" [field "actual" actual; field "required" required] true
  | InvalidBufferState => Ok (Fmt.Text "InvalidBufferState")
  | ProviderSelectionRequired => Ok (Fmt.Text "ProviderSelectionRequired")
  | LengthOverflow => Ok (Fmt.Text "LengthOverflow")
  | RngFailure => Ok (Fmt.Text "RngFailure")
  | CryptoFailure => Ok (Fmt.Text "CryptoFailure")
  end.

#[global] Instance debug_Key : Debug Key.t := fun _ => debug_tuple "Key" [Ok (Fmt.quoted "[REDACTED]")].

#[global] Instance debug_ProviderKind : Debug ProviderKind.t := fun self =>
  Ok (Fmt.Text match self with
      | ProviderKind.AwsLcRs => "AwsLcRs"
      | ProviderKind.Boring => "Boring"
      | ProviderKind.Ring => "Ring"
      | ProviderKind.RustCrypto => "RustCrypto"
      end).
#[global] Instance debug_Provider : Debug Provider.t := fun self => debug_tuple "Provider" [debug (Provider.kind self)].

#[global] Instance debug_Parameters : Debug Parameters.t := fun self =>
  debug_struct "Parameters" [field "ciphertext_segment_length" (Parameters.segment_length self)] true.

#[global] Instance debug_SegmentKind : Debug SegmentKind.t := fun self =>
  Ok (Fmt.Text match self with SegmentKind.NonFinal => "NonFinal" | SegmentKind.Final => "Final" end).

#[global] Instance debug_MessageLayout : Debug MessageLayout.t := fun self =>
  debug_struct "MessageLayout"
    [field "parameters" (MessageLayout.parameters self);
     field "plaintext_length" (MessageLayout.plaintext_length self);
     field "ciphertext_length" (MessageLayout.ciphertext_length self);
     field "segment_count" (MessageLayout.segment_count self)] true.

#[global] Instance debug_SegmentLayout : Debug SegmentLayout.t := fun self =>
  debug_struct "SegmentLayout"
    [field "parameters" (SegmentLayout.parameters self);
     field "position" (SegmentLayout.position self);
     field "plaintext_offset" (SegmentLayout.plaintext_offset self);
     field "plaintext_length" (SegmentLayout.plaintext_length self);
     field "ciphertext_offset" (SegmentLayout.ciphertext_offset self);
     field "ciphertext_length" (SegmentLayout.ciphertext_length self);
     field "kind" (SegmentLayout.kind self)] true.

#[global] Instance debug_SegmentFraming : Debug SegmentFraming.t := fun self =>
  debug_struct "SegmentFraming"
    [field "ciphertext_length" (SegmentFraming.ciphertext_length self);
     field "plaintext_length" (SegmentFraming.plaintext_length self);
     field "kind" (SegmentFraming.kind self)] true.

(** [Range] prints its ends with two dots between them. *)
#[global] Instance debug_Segments : Debug Segments.t := fun self =>
  debug_struct "Segments"
    [field "layout" (Segments.layout self);
     Ok ("positions", Fmt.Text (pretty (Segments.start self) +:+ ".." +:+ pretty (Segments.stop self)))] true.

#[global] Instance debug_BufferState : Debug BufferState.t := fun self =>
  match self with
  | BufferState.Empty => Ok (Fmt.Text "Empty")
  | BufferState.Plaintext length => debug_struct "Plaintext" [field "length" length] true
  | BufferState.Ciphertext length => debug_struct "Ciphertext" [field "length" length] true
  end.

#[global] Instance debug_SegmentBuffer : Debug SegmentBuffer.t := fun self =>
  debug_struct "SegmentBuffer"
    [field "parameters" (SegmentBuffer.parameters self);
     field "capacity" (SegmentBuffer.capacity self);
     field "state" (SegmentBuffer.state self)] false.

#[global] Instance debug_Header : Debug Header.t := fun self =>
  debug_tuple "Header" [debug (Header.header_bytes self)].

#[global] Instance debug_MessageContext : Debug MessageContext.t := fun self =>
  debug_struct "MessageContext"
    [field "provider" (MessageContext.provider self);
     field "parameters" (MessageContext.parameters self);
     field "floe_iv" (MessageContext.floe_iv self);
     field "aad_length" (zlen (MessageContext.aad self))] false.

Section States.
Context {T : Target} {B : Backend}.

#[global] Instance debug_KeyCache : Debug KeyCache.t := fun self =>
  debug_struct "KeyCache"
    [field "masked_position" (option_map CachedKey.masked_position (KeyCache.cached_key self))] false.

#[global] Instance debug_NonceGenerator : Debug NonceGenerator.t := fun self =>
  let* unused := usize (NONCE_BATCH_LENGTH - NonceGenerator.next_index self) in
  let remaining := unused / AEAD_IV_LENGTH in
  debug_struct "NonceGenerator" [field "remaining" remaining] false.

#[global] Instance debug_EncryptionState : Debug EncryptionState.t := fun self =>
  debug_struct "EncryptionState"
    [field "context" (EncryptionState.context self);
     field "keys" (EncryptionState.keys self);
     field "nonces" (EncryptionState.nonces self)] true.

#[global] Instance debug_SharedEncryptionContext : Debug SharedEncryptionContext.t := fun self =>
  debug_struct "SharedEncryptionContext" [field "context" (SharedEncryptionContext.context self)] true.

#[global] Instance debug_DecryptionState : Debug DecryptionState.t := fun self =>
  debug_struct "DecryptionState"
    [field "context" (DecryptionState.context self); field "keys" (DecryptionState.keys self)] true.

#[global] Instance debug_SharedDecryptionContext : Debug SharedDecryptionContext.t := fun self =>
  debug_struct "SharedDecryptionContext" [field "context" (SharedDecryptionContext.context self)] true.

#[global] Instance debug_SegmentCounter : Debug SegmentCounter.t := fun self =>
  debug_struct "SegmentCounter"
    [field "next" (SegmentCounter.next self); field "closed" (SegmentCounter.closed self)] true.

#[global] Instance debug_Encryptor : Debug Encryptor.t := fun self =>
  debug_struct "Encryptor"
    [field "state" (Encryptor.state self);
     field "header" (Encryptor.header self);
     field "counter" (Encryptor.counter self)] true.

#[global] Instance debug_FinalEncryptError : Debug FinalEncryptError.t := fun self =>
  debug_struct "FinalEncryptError" [field "error" (FinalEncryptError.error self)] false.

#[global] Instance debug_Decryptor : Debug Decryptor.t := fun self =>
  debug_struct "Decryptor"
    [field "state" (Decryptor.state self); field "counter" (Decryptor.counter self)] true.

End States.

#[global] Instance debug_StreamStatus : Debug StreamStatus.t := fun self =>
  Ok (Fmt.Text match self with
      | StreamStatus.Open => "Open"
      | StreamStatus.Finished => "Finished"
      | StreamStatus.Failed => "Failed"
      end).

#[global] Instance debug_DecryptStatus : Debug DecryptStatus.t := fun self =>
  Ok (Fmt.Text match self with
      | DecryptStatus.Open => "Open"
      | DecryptStatus.FrameComplete => "FrameComplete"
      | DecryptStatus.StreamComplete => "StreamComplete"
      | DecryptStatus.Failed => "Failed"
      end).

(** The adapters print what they wrap with its own impl. The impl of
    [io::Error] prints what the wrapped object reported as well. *)
Section Adapters.
Context {T : Target} {F : Features} {B : Backend} {Su : Support}.
Context {R : Type} {DR : Debug R} {DE : Debug IoError.t}.

#[global] Instance debug_FinishError {W} : Debug (FinishError.t W) := fun self =>
  debug_struct "FinishError" [field "error" (FinishError.error self)] false.

#[global] Instance debug_EncryptWriter : Debug (EncryptWriter.t (W := R)) := fun self =>
  debug_struct "EncryptWriter"
    [field "inner" (EncryptWriter.inner self);
     field "encryptor" (EncryptWriter.encryptor self);
     field "header" (EncryptWriter.header self);
     field "buffer" (EncryptWriter.buffer self);
     field "status" (EncryptWriter.status self)] true.

#[global] Instance debug_EncryptReader : Debug (EncryptReader.t (R := R)) := fun self =>
  debug_struct "EncryptReader"
    [field "inner" (EncryptReader.inner self);
     field "encryptor" (EncryptReader.encryptor self);
     field "header" (EncryptReader.header self);
     field "header_position" (EncryptReader.header_position self);
     field "buffer" (EncryptReader.buffer self);
     field "ciphertext_position" (EncryptReader.ciphertext_position self);
     field "ciphertext_length" (EncryptReader.ciphertext_length self);
     field "has_lookahead" (match EncryptReader.lookahead self with Some _ => true | None => false end);
     field "status" (EncryptReader.status self)] true.

#[global] Instance debug_DecryptReader : Debug (DecryptReader.t (R := R)) := fun self =>
  debug_struct "DecryptReader"
    [field "inner" (DecryptReader.inner self);
     field "decryptor" (DecryptReader.decryptor self);
     field "header" (DecryptReader.header self);
     field "buffer" (DecryptReader.buffer self);
     field "plaintext_consumed" (DecryptReader.plaintext_consumed self);
     field "plaintext_available" (DecryptReader.plaintext_available self);
     field "status" (DecryptReader.status self)] true.

#[global] Instance debug_Reader : Debug (Reader.t (R := R)) := fun self =>
  debug_struct "Reader"
    [field "inner" (Reader.inner self);
     field "state" (Reader.state self);
     field "header" (Reader.header self);
     field "layout" (Reader.layout self);
     field "message_start" (Reader.message_start self);
     field "scratch" (Reader.scratch self);
     field "plaintext_position" (Reader.plaintext_position self);
     field "cached_position" (Reader.cached_position self);
     field "inner_position" (Reader.inner_position self)] true.

End Adapters.
