(* ===== verification/RandomAccessMessages.v ===== *)
(** * Messages by segments

    A message is accepted by the sequence of online calls exactly when each of
    its segments, cut at the offsets of the layout of its length, is accepted on
    its own at its position. *)

From S2P Require Import Prelude Bytes Error Parameters Provider Crypto Key Spec State StateFacts Online OnlineFacts OnlineMessages.
Import ParametersFacts LayoutFacts.

(** The [j]-th piece of [n] elements; the last piece may be shorter. *)
Definition piece {A} (n : Z) (l : list A) (j : Z) : list A := ztake n (zdrop (j * n) l).

Section Pieces.
Context {A : Type}.
Implicit Types l x : list A.

Lemma piece_first n l x : zlen x = n -> piece n (x ++ l) 0 = x.
Proof. intros <-. unfold piece. rewrite zdrop_le0, ztake_app_l, ztake_all by lia. done. Qed.

Lemma piece_next n l x j : zlen x = n -> 0 <= j -> piece n (x ++ l) (j + 1) = piece n l j.
Proof.
  intros <- Hj. unfold piece. f_equal. pose proof (zlen_nonneg x).
  rewrite zdrop_app_r by nia. f_equal. lia.
Qed.

Lemma piece_only n l : zlen l <= n -> piece n l 0 = l.
Proof. intros. unfold piece. rewrite zdrop_le0, ztake_all by lia. done. Qed.

(** A piece as a slice. *)
Lemma piece_slice n l j b :
  0 <= j * n <= zlen l -> b = Z.min n (zlen l - j * n) -> slice l (j * n) (j * n + b) = piece n l j.
Proof.
  intros ? ->. unfold slice, piece. replace (j * n + _ - j * n) with (Z.min n (zlen l - j * n)) by lia.
  destruct (Z.le_gt_cases n (zlen l - j * n)); [f_equal; lia|].
  rewrite !ztake_all; [done|rewrite zlen_zdrop; lia..].
Qed.

End Pieces.

Section Segments.
Context {P : Primitives} {POk : PrimitivesOk}.

(** Lengths of a segment that the specification opens. *)
Lemma decryptSegment_lengths params st segment i is_final pt :
  32 <= params < u32_max -> Spec.decryptSegment params st segment i is_final = Some pt ->
  zlen pt = zlen segment - 32
  /\ if is_final then 32 <= zlen segment <= params else zlen segment = params.
Proof.
  intros Hp Hd. destruct (Spec.framing_ok params segment is_final) eqn:Hf.
  2: { unfold Spec.decryptSegment in Hd. by rewrite Hf in Hd. }
  rewrite decryptSegment_eq in Hd by lia || done.
  unfold Spec.framing_ok, Spec.AEAD_IV_LEN, Spec.AEAD_TAG_LEN in Hf.
  assert (32 <= zlen segment) by (destruct is_final; lia).
  apply gcm_decrypt_length in Hd; [|rewrite zlen_slice; lia]. rewrite zlen_slice in Hd.
  split; [lia|]. destruct is_final; lia.
Qed.

(** The [n] segments of a body open one by one, from position [k]. *)
Definition opens_each (params : Z) (st : Spec.State) (k n : Z) (body plaintext : bytes) : Prop :=
  1 <= n /\ k + n <= Spec.AEAD_MAX_SEGMENTS
  /\ (n - 1) * params + 32 <= zlen body <= n * params
  /\ zlen plaintext = zlen body - 32 * n
  /\ forall j, 0 <= j < n ->
       Spec.decryptSegment params st (piece params body j) (k + j) (j + 1 =? n)
       = Some (piece (params - 32) plaintext j).

Lemma opens_each_last params st k body plaintext :
  32 <= params < u32_max -> k < Spec.AEAD_MAX_SEGMENTS ->
  opens_each params st k 1 body plaintext <-> Spec.decryptSegment params st body k true = Some plaintext.
Proof.
  intros Hp Hk. split.
  - intros (_ & _ & Hb & Hpt & Hall). specialize (Hall 0 ltac:(lia)). rewrite Z.add_0_r in Hall.
    change (0 + 1 =? 1) with true in Hall. by rewrite !piece_only in Hall by lia.
  - intros Hd. destruct (decryptSegment_lengths _ _ _ _ _ _ Hp Hd) as [Hl Hl'].
    split_and!; [lia..|]. intros j Hj. assert (j = 0) as -> by lia.
    rewrite Z.add_0_r. change (0 + 1 =? 1) with true. by rewrite !piece_only by lia.
Qed.

Lemma opens_each_cons params st k n segment rest pt :
  32 <= params < u32_max -> 1 <= n -> zlen segment = params ->
  opens_each params st k (n + 1) (segment ++ rest) pt <->
  exists pt1 pt2, pt = pt1 ++ pt2 /\ Spec.decryptSegment params st segment k false = Some pt1
    /\ opens_each params st (k + 1) n rest pt2.
Proof.
  intros Hp Hn Hseg. split.
  - intros (_ & Hk & Hb & Hpt & Hall). rewrite zlen_app in Hb, Hpt.
    pose proof (Hall 0 ltac:(lia)) as H0. rewrite Z.add_0_r, piece_first in H0 by done.
    replace (0 + 1 =? n + 1) with false in H0 by lia.
    destruct (decryptSegment_lengths _ _ _ _ _ _ Hp H0) as [Hl _].
    exists (ztake (params - 32) pt), (zdrop (params - 32) pt).
    unfold piece in H0, Hl. rewrite (zdrop_le0 (0 * _)) in H0, Hl by lia.
    split; [by rewrite ztake_zdrop|]. split; [done|].
    assert (zlen (ztake (params - 32) pt) = params - 32) as Hl' by lia.
    pose proof Hl' as Hl2. rewrite zlen_ztake in Hl2. pose proof (zlen_nonneg pt).
    split_and!; [lia..|rewrite zlen_zdrop; lia|]. intros j Hj. specialize (Hall (j + 1) ltac:(lia)).
    rewrite piece_next in Hall by lia. rewrite <- (ztake_zdrop (params - 32) pt), piece_next in Hall by lia.
    rewrite <- Hall. f_equal; [lia|]. destruct (Z.eqb_spec (j + 1) n), (Z.eqb_spec (j + 1 + 1) (n + 1)); lia || done.
  - intros (pt1 & pt2 & -> & Hd & _ & Hk & Hb & Hpt & Hall).
    destruct (decryptSegment_lengths _ _ _ _ _ _ Hp Hd) as [Hl _].
    split_and!; [lia..|rewrite zlen_app; lia|rewrite zlen_app; lia|rewrite !zlen_app; lia|]. intros j Hj.
    destruct (Z.eq_dec j 0) as [->|Hj0].
    + rewrite Z.add_0_r, !piece_first by lia. by replace (0 + 1 =? n + 1) with false by lia.
    + specialize (Hall (j - 1) ltac:(lia)). replace j with (j - 1 + 1) by lia. rewrite !piece_next by lia.
      rewrite <- Hall. f_equal; [lia|]. destruct (Z.eqb_spec (j - 1 + 1) n), (Z.eqb_spec (j - 1 + 1 + 1) (n + 1)); lia || done.
Qed.

(** The sequence of online calls, position by position. *)
Lemma closed_opens_each params segs : forall ost st' pt,
  32 <= params < u32_max -> Spec.Closed ost = false -> 0 <= Spec.Counter ost < Spec.AEAD_MAX_SEGMENTS ->
  decryptAll params ost segs = Some (st', pt) -> Spec.Closed st' = true ->
  opens_each params (Spec.base ost) (Spec.Counter ost) (zlen segs) (concat segs) pt.
Proof.
  induction segs as [|segment segs IH]; intros ost st' pt Hp Ho Hk Hall Hc; cbn [decryptAll concat] in *.
  { injection Hall as <- <-. congruence. }
  destruct (Spec.decryptAnyOnlineSegment _ _ _) as [[ost1 pt1]|] eqn:Hd; [|done]. cbn in Hall.
  destruct (decryptAll params ost1 segs) as [[ost2 pt2]|] eqn:Hall2; [|done]. cbn in Hall. injection Hall as <- <-.
  apply decryptAny_some in Hd as (_ & is_final & Hlim & Hd & ->); [|done].
  destruct is_final; cbn [advanced] in Hall2.
  - assert (segs = []) as -> by (eapply closed_ends; [done| |done]; done).
    cbn [decryptAll] in Hall2. injection Hall2 as _ <-. cbn [concat]. rewrite !app_nil_r. apply opens_each_last; [done|lia|done].
  - destruct (decryptSegment_lengths _ _ _ _ _ _ Hp Hd) as [_ Hl].
    assert (1 <= zlen segs) as Hn.
    { destruct segs; [|rewrite zlen_cons; pose proof (zlen_nonneg segs); lia].
      cbn in Hall2. injection Hall2 as <- _. by cbn in Hc. }
    rewrite zlen_cons, Z.add_comm. apply opens_each_cons; [done..|]. exists pt1, pt2. split; [done|]. split; [done|].
    specialize (Hlim eq_refl).
    apply (IH (Spec.mkOnline (Spec.base ost) (Spec.Counter ost + 1) false) ost2 pt2); [done|done|cbn; lia|done|done].
Qed.

Lemma opens_each_closed params (n : nat) : forall st k body pt,
  32 <= params < u32_max -> 0 <= k -> opens_each params st k (Z.of_nat (S n)) body pt ->
  opens params (Spec.mkOnline st k false) body pt.
Proof.
  induction n as [|n IH]; intros st k body pt Hp Hk Hop; pose proof Hop as (_ & Hlim & Hb & _).
  - apply opens_each_last in Hop; [|done|lia]. exists [body], (advanced (Spec.mkOnline st k false) true).
    split; [cbn; by rewrite app_nil_r|]. split; [|done]. cbn [decryptAll].
    replace (Spec.decryptAnyOnlineSegment params (Spec.mkOnline st k false) body)
      with (Some (advanced (Spec.mkOnline st k false) true, pt)).
    2: { symmetry. apply decryptAny_some; [done|]. split; [done|]. by exists true. }
    cbn. by rewrite app_nil_r.
  - replace (Z.of_nat (S (S n))) with (Z.of_nat (S n) + 1) in * by lia.
    rewrite <- (ztake_zdrop params body) in Hop.
    apply opens_each_cons in Hop; [|done|lia|rewrite zlen_ztake; lia].
    destruct Hop as (pt1 & pt2 & -> & Hd & Hrest).
    destruct (IH st (k + 1) _ pt2 Hp ltac:(lia) Hrest) as (segs & st' & Hcat & Hall & Hc).
    exists (ztake params body :: segs), st'. cbn [concat decryptAll]. rewrite Hcat, ztake_zdrop. split; [done|].
    split; [|done].
    replace (Spec.decryptAnyOnlineSegment params (Spec.mkOnline st k false) (ztake params body))
      with (Some (advanced (Spec.mkOnline st k false) false, pt1)).
    2: { symmetry. apply decryptAny_some; [done|]. split; [done|]. exists false. cbn [Spec.Counter Spec.base].
         split; [|done]. lia. }
    cbn. by rewrite Hall.
Qed.

End Segments.

(** ** The layout of a message *)

Section Layout.
Context {P : Primitives} {POk : PrimitivesOk}.

(** The segment at a position, and its plaintext when the specification accepts it. *)
Definition segment_at (l : MessageLayout.t) (m : bytes) (i : Z) : bytes :=
  let s := segment_of l i in
  slice m (SegmentLayout.ciphertext_offset s) (SegmentLayout.ciphertext_offset s + SegmentLayout.ciphertext_length s).

Definition opened (l : MessageLayout.t) (st : Spec.State) (m : bytes) (i : Z) : option bytes :=
  Spec.decryptSegment (Parameters.segment_length (MessageLayout.parameters l)) st (segment_at l m i) i
    (SegmentLayout.is_final (segment_of l i)).

Lemma segment_at_piece l (h body : bytes) i :
  wf l -> zlen h = 74 -> zlen (h ++ body) = MessageLayout.ciphertext_length l -> 0 <= i < MessageLayout.segment_count l ->
  segment_at l (h ++ body) i = piece (Parameters.segment_length (MessageLayout.parameters l)) body i.
Proof.
  intros Hl Hh Hm Hi. destruct (wf_position l i Hl Hi) as (Ho & Hf & Hn & Heq & _).
  pose proof (wf_ciphertext l Hl) as Hct. rewrite zlen_app in Hm.
  unfold segment_at. cbn [segment_of SegmentLayout.ciphertext_offset SegmentLayout.ciphertext_length].
  rewrite slice_app_r, Hh by lia. unfold payload in *.
  replace (74 + i * Parameters.segment_length (MessageLayout.parameters l) - 74)
    with (i * Parameters.segment_length (MessageLayout.parameters l)) by lia.
  match goal with |- slice _ _ ?b = _ => replace b with (i * Parameters.segment_length (MessageLayout.parameters l)
    + (32 + (if i + 1 =? MessageLayout.segment_count l
             then MessageLayout.plaintext_length l - i * (Parameters.segment_length (MessageLayout.parameters l) - 32)
             else Parameters.segment_length (MessageLayout.parameters l) - 32))) by lia end.
  pose proof (wf_plaintext l Hl) as Hpl. unfold payload in Hpl.
  destruct (valid_payload _ (wf_valid l Hl)) as [Hv1 Hv2].
  destruct (Z.eqb_spec (i + 1) (MessageLayout.segment_count l)) as [E|E]; apply piece_slice.
  all: try specialize (Hf E); try specialize (Hn ltac:(lia)); rewrite <- ?E in *; try lia.
  all: nia.
Qed.

Lemma chunk_piece l (pt : bytes) i :
  wf l -> zlen pt = MessageLayout.plaintext_length l -> 0 <= i < MessageLayout.segment_count l ->
  chunk l pt i = piece (payload (MessageLayout.parameters l)) pt i.
Proof.
  intros Hl Hpt Hi. destruct (wf_position l i Hl Hi) as (Ho & Hf & Hn & _).
  unfold chunk. cbn [segment_of SegmentLayout.plaintext_offset SegmentLayout.plaintext_length].
  apply piece_slice; [lia|].
  destruct (Z.eqb_spec (i + 1) (MessageLayout.segment_count l)) as [E|E]; [specialize (Hf E); lia|].
  specialize (Hn ltac:(lia)). lia.
Qed.

(** The segments of the layout are the pieces of the body. *)
Lemma opens_each_layout l st (h body : bytes) pt :
  wf l -> zlen h = 74 -> zlen (h ++ body) = MessageLayout.ciphertext_length l ->
  opens_each (Parameters.segment_length (MessageLayout.parameters l)) st 0 (MessageLayout.segment_count l) body pt <->
  zlen pt = MessageLayout.plaintext_length l
  /\ forall i, 0 <= i < MessageLayout.segment_count l -> opened l st (h ++ body) i = Some (chunk l pt i).
Proof.
  intros Hl Hh Hm. pose proof (wf_ciphertext l Hl) as Hct. pose proof (wf_count l Hl) as Hn.
  pose proof (wf_plaintext l Hl) as Hp. rewrite zlen_app in Hm. unfold opens_each, opened. split.
  - intros (_ & _ & _ & Hpt & Hall). split; [lia|]. intros i Hi.
    rewrite segment_at_piece, chunk_piece by (done || lia || rewrite zlen_app; lia).
    specialize (Hall i Hi). rewrite Z.add_0_l in Hall. unfold payload. rewrite <- Hall.
    unfold SegmentLayout.is_final, SegmentKind.is_final. cbn [segment_of SegmentLayout.kind]. by destruct (_ =? _).
  - intros [Hpt Hall]. unfold payload in Hp. split; [lia|]. split; [change AEAD_MAX_SEGMENTS with Spec.AEAD_MAX_SEGMENTS in Hn; lia|].
    split; [nia|]. split; [lia|]. intros i Hi. specialize (Hall i Hi).
    rewrite segment_at_piece, chunk_piece in Hall by (done || lia || rewrite zlen_app; lia).
    rewrite Z.add_0_l. unfold payload in Hall. rewrite <- Hall.
    unfold SegmentLayout.is_final, SegmentKind.is_final. cbn [segment_of SegmentLayout.kind]. by destruct (_ =? _).
Qed.

(** A message is accepted exactly when every segment of its layout is. *)
Definition accepts_segments (p : Parameters.t) (key : Key.t) (aad : bytes) (m plaintext : bytes) : Prop :=
  Parameters.valid p /\ exists h body st l, Header.wf h /\ m = Header.as_bytes h ++ body
    /\ Spec.startDecryption (Parameters.segment_length p) (Key.as_bytes key) aad (Header.as_bytes h) = Some st
    /\ wf l /\ MessageLayout.parameters l = p /\ MessageLayout.ciphertext_length l = zlen m
    /\ zlen plaintext = MessageLayout.plaintext_length l
    /\ forall i, 0 <= i < MessageLayout.segment_count l -> opened l st m i = Some (chunk l plaintext i).

Lemma accepts_iff_segments p key aad m plaintext :
  zlen m <= u64_max -> accepts_with p key aad m plaintext <-> accepts_segments p key aad m plaintext.
Proof.
  intros Hm. split.
  - intros (h & body & ost & Hv & Hh & -> & Hstart & segs & st' & Hcat & Hall & Hc). split; [done|].
    pose proof (valid_params p Hv) as Hp. unfold Spec.startOnlineDecryption in Hstart.
    destruct (Spec.startDecryption _ _ _ _) as [st|] eqn:Est; [|done]. cbn in Hstart. injection Hstart as <-.
    apply (closed_opens_each _ segs) in Hall; [|done|done|done|done]. cbn [Spec.base Spec.Counter] in Hall. rewrite Hcat in Hall.
    pose proof Hall as (Hn & Hlim & Hb & Hpt & _). pose proof (zlen_nonneg plaintext).
    set (l := MessageLayout.mk p (zlen plaintext) (zlen (Header.as_bytes h ++ body)) (zlen segs)).
    assert (wf l) as Hl.
    { split; cbn; [done|..]; rewrite ?zlen_app in *; unfold payload;
        change AEAD_MAX_SEGMENTS with Spec.AEAD_MAX_SEGMENTS.
      - lia.
      - nia.
      - assert (zlen (Header.as_bytes h) = 74) by done. lia.
      - lia. }
    apply (opens_each_layout l st (Header.as_bytes h) body plaintext Hl) in Hall; [|done|done].
    exists h, body, st, l. by split_and!; [..|apply Hall|apply Hall].
  - intros (Hv & h & body & st & l & Hh & -> & Hstart & Hl & <- & Hct & Hpt & Hall).
    exists h, body, (Spec.mkOnline st 0 false). split_and!; [done..|by unfold Spec.startOnlineDecryption; rewrite Hstart|].
    pose proof (wf_count l Hl) as Hn.
    apply (opens_each_closed _ (Z.to_nat (MessageLayout.segment_count l - 1))); [by apply valid_params|done|].
    replace (Z.of_nat (S (Z.to_nat (MessageLayout.segment_count l - 1)))) with (MessageLayout.segment_count l) by lia.
    by apply (opens_each_layout l st (Header.as_bytes h)).
Qed.

(** The layout is determined by the parameters and the length. *)
Lemma layout_unique {T : Target} l1 l2 :
  wf l1 -> wf l2 -> MessageLayout.parameters l1 = MessageLayout.parameters l2 ->
  MessageLayout.ciphertext_length l1 = MessageLayout.ciphertext_length l2 -> l1 = l2.
Proof.
  intros H1 H2 Hp Hc. pose proof (wf_valid l1 H1) as Hv.
  assert (in_u64 (MessageLayout.ciphertext_length l1)) as Hu.
  { pose proof (wf_u64 l1 H1). pose proof (wf_ciphertext l1 H1). pose proof (wf_count l1 H1).
    destruct (wf_position l1 0 H1 ltac:(lia)) as [? _]. unfold in_u64. lia. }
  assert (ciphertext_layout (MessageLayout.parameters l1) (MessageLayout.ciphertext_length l1) = Ok l1) as E1
    by (by apply ciphertext_layout_ok).
  assert (ciphertext_layout (MessageLayout.parameters l1) (MessageLayout.ciphertext_length l1) = Ok l2) as E2
    by (by apply ciphertext_layout_ok).
  rewrite E1 in E2. by apply ok_inj in E2.
Qed.

(** Acceptance, for the header and the layout of a message. *)
Lemma accepts_layout {T : Target} key aad h body st l plaintext :
  Header.wf h -> wf l -> zlen (Header.as_bytes h ++ body) = MessageLayout.ciphertext_length l ->
  Spec.startDecryption (Parameters.segment_length (MessageLayout.parameters l)) (Key.as_bytes key) aad (Header.as_bytes h) = Some st ->
  accepts_with (MessageLayout.parameters l) key aad (Header.as_bytes h ++ body) plaintext <->
  zlen plaintext = MessageLayout.plaintext_length l
  /\ forall i, 0 <= i < MessageLayout.segment_count l -> opened l st (Header.as_bytes h ++ body) i = Some (chunk l plaintext i).
Proof.
  intros Hh Hl Hm Hstart. pose proof (wf_u64 l Hl) as Hu. rewrite accepts_iff_segments by lia. split.
  - intros (_ & h' & body' & st' & l' & Hh' & Heq & Hstart' & Hl' & Hp' & Hc' & Hpt & Hall).
    assert (Header.as_bytes h' = Header.as_bytes h) as E.
    { assert (zlen (Header.as_bytes h) = 74 /\ zlen (Header.as_bytes h') = 74) as [H1 H2] by done.
      apply (f_equal (ztake 74)) in Heq. by rewrite !ztake_app_l, !ztake_all in Heq by lia. }
    rewrite E, Hstart in Hstart'. injection Hstart' as <-.
    assert (l' = l) as -> by (apply layout_unique; [done|done|done|congruence]). done.
  - intros [Hpt Hall]. split; [apply (wf_valid l Hl)|]. exists h, body, st, l. by split_and!.
Qed.

(** An authentic segment has the layout's length. *)
Lemma opened_length l st m i pt :
  wf l -> zlen m = MessageLayout.ciphertext_length l -> 0 <= i < MessageLayout.segment_count l ->
  opened l st m i = Some pt -> zlen pt = SegmentLayout.plaintext_length (segment_of l i).
Proof.
  intros Hl Hm Hi Ho. pose proof (valid_params _ (wf_valid l Hl)) as Hp.
  destruct (decryptSegment_lengths _ _ _ _ _ _ Hp Ho) as [-> _]. unfold segment_at. rewrite zlen_slice.
  destruct (wf_position l i Hl Hi) as (H1 & H2 & H3 & H4 & _). pose proof (wf_ciphertext l Hl) as Hct.
  cbn [segment_of SegmentLayout.ciphertext_offset SegmentLayout.ciphertext_length SegmentLayout.plaintext_length].
  destruct (Z.eqb_spec (i + 1) (MessageLayout.segment_count l)) as [E|E].
  - specialize (H2 E). lia.
  - specialize (H3 ltac:(lia)). unfold payload in *. pose proof (wf_plaintext l Hl). nia.
Qed.

End Layout.
