(* ===== verification/RandomAccessFacts.v ===== *)
(** * The random-access reader: lemmas

    Reading at a position of the source, decrypting a segment of a layout, and the
    invariant of a reader: what it tracks about the position of the wrapped reader
    is true, and what its cache holds is an authentic segment. *)

From S2P Require Import Prelude Bytes Error Parameters Provider Crypto Key Buffer Spec State StateFacts StateProperties.
From S2P Require Import StdIo Wire Online OnlineFacts OnlineMessages RandomAccessMessages RandomAccess.
Import ParametersFacts LayoutFacts BufferFacts.

(** ** Sources that seek *)

Section Source.
Context {R : Type} {RR : Read R} {ROk : ReadOk R} {RS : Seek R} {SOk : SeekOk R}.

(** The fuel for any read of the source. *)
Definition enough_source (fuel : nat) (r : R) : Prop := (length (contents r) + patience r < fuel)%nat.

Definition same_source (r r' : R) : Prop := contents r' = contents r /\ (patience r' <= patience r)%nat.

Lemma same_source_refl r : same_source r r.
Proof. by split. Qed.

Lemma same_source_trans r r' r'' : same_source r r' -> same_source r' r'' -> same_source r r''.
Proof. intros [? ?] [? ?]. split; [congruence|lia]. Qed.

Lemma same_source_enough fuel r r' : same_source r r' -> enough_source fuel r -> enough_source fuel r'.
Proof. intros [Hc ?]. unfold enough_source. rewrite Hc. lia. Qed.

Lemma enough_remaining fuel r : enough_source fuel r -> enough fuel r.
Proof. unfold enough_source, enough. rewrite remaining_contents. unfold zdrop. rewrite length_drop. lia. Qed.

Lemma read_loop_position fuel : forall done r out,
  wp (read_loop fuel done) (r, out) (fun res s =>
    contents (fst s) = contents r /\ match res with Ok n => position (fst s) = position r + (n - done) | _ => True end).
Proof.
  induction fuel as [|fuel IH]; intros done r out; [by split|]. cbn [read_loop].
  apply wp_bind, wp_get. cells. destruct (_ =? 0); [apply wp_ret; cells; split; [done|lia]|]. apply wp_match.
  destruct (range_ok out done (zlen out)) eqn:Hr.
  2: { unfold wp, zoom_range_snd. cells. by rewrite Hr. }
  apply wp_zoom_range_snd; [done|]. cells. eapply wp_mono; [apply read_position|]. intros res s [Hc Hp].
  destruct res as [n|e|h]; [| |done].
  - destruct (_ =? 0) eqn:Hz; [apply wp_ret; cells; split; [done|lia]|]. apply wp_bind, wp_lift.
    destruct (index _ _ _) as [x|e|h]; [|done..]. eapply wp_mono; [apply IH|]. cells. intros [m|e|h] s' [-> H]; split; try done; lia.
  - destruct (bool_decide _); [|by apply wp_fail]. eapply wp_mono; [apply IH|]. cells.
    intros [m|e'|h] s' [-> H]; split; try done; lia.
Qed.

(** A segment is read at a position: the source has it, or the read fails. *)
Lemma read_segment_at fuel r out :
  enough_source fuel r -> 0 <= position r ->
  wp (read_exact_segment fuel) (r, out) (fun res s =>
    zlen (snd s) = zlen out /\ same_source r (fst s) /\
    match res with
    | Ok _ => position (fst s) = position r + zlen out
        /\ position r + zlen out <= Z.max (position r) (zlen (contents r))
        /\ snd s = slice (contents r) (position r) (position r + zlen out)
    | Err e => read_failure e
        \/ (zlen (contents r) < position r + zlen out /\ exists err, e = decryption_error err)
    | Halt _ => False
    end).
Proof.
  intros Hfuel Hpos. unfold read_exact_segment. apply wp_bind, wp_get. cells. apply wp_bind.
  assert (wp (read_fully fuel) (r, out) (fun res s =>
    (zlen (snd s) = zlen out /\ exists taken, consumes r taken (fst s) /\ zlen taken <= zlen out
    /\ ztake (zlen taken) (snd s) = taken
    /\ match res with
       | Ok n => n = zlen taken /\ (n < zlen out -> remaining (fst s) = [])
       | Err e => read_failure e
       | Halt _ => False
       end)
    /\ (contents (fst s) = contents r /\ match res with Ok n => position (fst s) = position r + (n - 0) | _ => True end))) as H.
  { split; [by apply read_fully_ok, enough_remaining|apply read_loop_position]. }
  eapply wp_mono; [exact H|]. clear H. intros res [r' out']. cells. intros [(Hl & taken & [Hrem Hpat] & Hle & Htake & Hres) [Hc Hp]].
  assert (same_source r r') as Hs by done. rewrite remaining_contents in Hrem.
  destruct res as [n|e|h]; [| |done]. 2: { by split_and!; [..|left]. }
  destruct Hres as [-> Hend]. destruct (Z.eqb_spec (zlen taken) (zlen out)) as [E|E].
  - apply wp_ret. cells. split; [done|]. split; [done|]. pose proof (f_equal zlen Hrem) as Hlen.
    rewrite zlen_zdrop, zlen_app in Hlen. pose proof (zlen_nonneg (remaining r')).
    pose proof (zlen_nonneg (contents r)). split; [lia|]. split; [lia|].
    rewrite ztake_all in Htake by lia. rewrite Htake. unfold slice.
    replace (position r + zlen out - position r) with (zlen taken) by lia. by rewrite Hrem, ztake_app_l, ztake_all by lia.
  - apply wp_fail. cells. split; [done|]. split; [done|]. right. split; [|by eexists].
    rewrite (Hend ltac:(lia)), app_nil_r in Hrem. apply (f_equal zlen) in Hrem. rewrite zlen_zdrop in Hrem.
    pose proof (zlen_nonneg taken). pose proof (zlen_nonneg (contents r)). lia.
Qed.

End Source.

(** ** Decrypting a segment of a layout *)

Section Decrypt.
Context {T : Target} {P : Primitives} {POk : PrimitivesOk} {B : Backend} {BOk : BackendOk}.
Context {Su : Support} {SuOk : SupportOk}.

(** Why a segment of its layout's length is not opened. *)
Definition refused (c : MessageContext.t) (s : SegmentLayout.t) (segment : bytes) (e : Error) : Prop :=
  (e = CryptoFailure /\ backend_fails)
  \/ spec_decrypt c segment (SegmentLayout.position s) (SegmentLayout.kind s) = None.

Lemma open_error_refused c s segment room e :
  obtained s -> zlen segment - 32 <= room ->
  open_error c segment (SegmentLayout.position s) (SegmentLayout.kind s) room e -> refused c s segment e.
Proof.
  intros Hs Hroom. unfold open_error. destruct (framing_ok _ _ _) eqn:Hf; intros He.
  - destruct (layout_decrypt_error c s segment room e Hs He) as [[_ ?]|[[_ ?]|?]]; [lia|by right|by left].
  - right. unfold spec_decrypt, Spec.decryptSegment. unfold framing_ok in Hf. by rewrite Hf.
Qed.

Lemma segment_into_ok st segment s out :
  decryptable st segment s -> zlen segment - 32 <= zlen out ->
  wp (DecryptionState.decrypt_segment_into segment s) (st, out) (fun res s' =>
    decryption_wf (fst s') /\ DecryptionState.context (fst s') = DecryptionState.context st
    /\ zlen (snd s') = zlen out /\
    match res with
    | Ok n => exists pt, spec_decrypt (DecryptionState.context st) segment (SegmentLayout.position s) (SegmentLayout.kind s) = Some pt
        /\ zlen pt = zlen segment - 32 /\ snd s' = splice out 0 pt
    | Err e => refused (DecryptionState.context st) s segment e
    | Halt _ => False
    end).
Proof.
  intros Hok Hroom. pose proof Hok as (Hst & Hs & Hp & Hn). destruct (decryptable_layout st segment s Hok) as (Hv & _ & Hpos & _).
  unfold DecryptionState.decrypt_segment_into. apply wp_bind, wp_get, wp_bind, wp_lift. cells. rewrite Hv.
  eapply wp_mono; [by apply decrypt_segment_into_at_ok|]. intros res s' (Hwf & Hc & Hl & Hres).
  split; [done|]. split; [done|]. split; [done|]. destruct res as [n|e|h]; [| |done].
  - destruct Hres as (-> & _ & _ & _ & pt & ? & ? & ?). by exists pt.
  - by eapply open_error_refused.
Qed.

Lemma segment_in_place_ok st segment s b :
  decryptable st segment s -> wf b -> SegmentBuffer.parameters b = DecryptionState.parameters st ->
  SegmentBuffer.ciphertext b = Ok segment ->
  wp (DecryptionState.decrypt_segment_in_place s) (st, b) (fun res s' =>
    decryption_wf (fst s') /\ DecryptionState.context (fst s') = DecryptionState.context st
    /\ wf (snd s') /\ SegmentBuffer.parameters (snd s') = SegmentBuffer.parameters b /\
    match res with
    | Ok _ => exists pt, spec_decrypt (DecryptionState.context st) segment (SegmentLayout.position s) (SegmentLayout.kind s) = Some pt
        /\ SegmentBuffer.state (snd s') = BufferState.Plaintext (zlen pt) /\ payload_of (snd s') = pt
    | Err e => refused (DecryptionState.context st) s segment e
    | Halt _ => False
    end).
Proof.
  intros Hok Hb Hbp Hbc. pose proof Hok as (Hst & Hs & Hp & Hn). destruct (ciphertext_inv b segment Hb Hbc) as (Hbs & _ & Hle).
  pose proof Hbc as Hseg. rewrite (ciphertext_ok _ _ Hb Hbs) in Hseg. apply ok_inj in Hseg.
  pose proof Hb as [Hv Hlen Hstate]. rewrite Hbs in Hstate. destruct (valid_payload _ Hv) as [Hv1 Hv2]. pose proof u32_le_usize.
  unfold DecryptionState.decrypt_segment_in_place, SegmentBuffer.decrypt_with. apply wp_match.
  eapply wp_mono; [apply (decrypt_segment_in_place_operation_ok st b s segment); done|].
  intros res [st' b']. unfold buffer_decrypt_result. cells. intros (Hwf & Hc & Hl & Hpar & Hres).
  destruct res as [n|e|h]; [| |done].
  - destruct Hres as (-> & _ & pt & Hpt & Hptl & Hslice).
    apply wp_bind, wp_zoom, wp_modify. cells. apply wp_bind, wp_lift. floe_consts. rewrite usize_ok by flia.
    apply wp_zoom. cells. unfold wp. rewrite borrow_ok by (cbn [SegmentBuffer.storage SegmentBuffer.set_state]; lia).
    cells. split_and!; [done|done| |done|].
    + split; cbn; [by rewrite Hpar|congruence|]. rewrite Hpar. lia.
    + exists pt. split; [done|]. split; [cbn; by rewrite Hptl|]. exact Hslice.
  - apply wp_bind, wp_zoom. cells. eapply wp_mono; [apply clear_wiped|]. intros r b2 [-> Hw].
    apply wp_fail. cells.
    assert (wiped b b2) as Hwb by (destruct Hw as (? & Hz & ?); split_and!; [done|by rewrite Hz, Hl|congruence]).
    split; [done|]. split; [done|]. split; [by eapply wiped_wf|]. split; [apply Hwb|].
    eapply open_error_refused; [done| |exact Hres]. lia.
Qed.

End Decrypt.

(** ** The reader *)

Section Reader.
Context {T : Target} {F : Features} {P : Primitives} {POk : PrimitivesOk} {B : Backend} {BOk : BackendOk}.
Context {Su : Support} {SuOk : SupportOk}.
Context {R : Type} {RR : Read R} {ROk : ReadOk R} {RS : Seek R} {SOk : SeekOk R} (fuel : nat).

(** The message that starts at [start] in the source, and its layout. *)
Context (l : MessageLayout.t) (c : MessageContext.t) (source : bytes) (start : Z).
Context (Hl : produced l) (Hc : MessageContext.parameters c = MessageLayout.parameters l) (Hstart : 0 <= start).

Abbreviation reader := (Reader.t (R := R)).
Definition message : bytes := slice source start (start + MessageLayout.ciphertext_length l).
Definition authentic (i : Z) (pt : bytes) : Prop := opened l (spec_state c) message i = Some pt.

(** What the reader's cache holds. *)
Definition caches (r : reader) (i : Z) : Prop :=
  0 <= i < MessageLayout.segment_count l /\ exists pt, authentic i pt
  /\ SegmentBuffer.state (Reader.scratch r) = BufferState.Plaintext (zlen pt) /\ payload_of (Reader.scratch r) = pt.

Record steady (r : reader) : Prop := {
  st_layout : Reader.layout r = l;
  st_start : Reader.message_start r = start;
  st_source : contents (Reader.inner r) = source;
  st_fuel : enough_source fuel (Reader.inner r);
  st_wf : decryption_wf (Reader.state r);
  st_context : DecryptionState.context (Reader.state r) = c;
  st_scratch : wf (Reader.scratch r);
  st_parameters : SegmentBuffer.parameters (Reader.scratch r) = MessageLayout.parameters l;
  st_position : in_u64 (Reader.plaintext_position r);
  st_inner : forall o, Reader.inner_position r = Some o -> position (Reader.inner r) = o /\ 0 <= o;
  st_cache : forall i, Reader.cached_position r = Some i -> caches r i
}.

(** The position of [Read] and the header are left alone. *)
Definition keeps (r r' : reader) : Prop :=
  Reader.plaintext_position r' = Reader.plaintext_position r /\ Reader.header r' = Reader.header r.

Lemma keeps_trans r r' r'' : keeps r r' -> keeps r' r'' -> keeps r r''.
Proof. intros [? ?] [? ?]. split; congruence. Qed.

(** A change of the wrapped reader's position. *)
Lemma steady_moved r i o :
  steady r -> same_source (Reader.inner r) i -> (forall n, o = Some n -> position i = n /\ 0 <= n) ->
  steady (Reader.set_inner_position o (Reader.set_inner r i)).
Proof.
  intros [] Hs Ho. split; cbn; try done; [|by eapply same_source_enough]. destruct Hs as [-> _]. done.
Qed.

Lemma steady_forgets r : steady r -> steady (Reader.set_cached_position None r).
Proof. intros []. by split. Qed.

Lemma steady_uncertain r : steady r -> steady (Reader.set_inner_position None r).
Proof. intros []. by split. Qed.

Lemma seek_inner_to_ok r offset :
  steady r -> in_u64 offset ->
  wp (Reader.seek_inner_to offset) r (fun res r' =>
    steady r' /\ keeps r r' /\ Reader.cached_position r' = Reader.cached_position r /\
    match res with
    | Ok _ => Reader.inner_position r' = Some offset
    | Err e => seek_failure e
    | Halt _ => False
    end).
Proof.
  intros Hr Ho. unfold Reader.seek_inner_to. apply wp_bind, wp_get.
  destruct (bool_decide _) eqn:E; [apply bool_decide_eq_true in E; by apply wp_ret|].
  apply wp_bind, wp_modify, wp_bind, wp_zoom. unfold Reader.inner_cell. cells. cbn [Reader.inner Reader.set_inner_position].
  eapply wp_mono; [apply seek_promise|]. intros res i (Hcon & Hpat & Hres).
  change (Reader.set_inner (Reader.set_inner_position None r) i) with (Reader.set_inner_position None (Reader.set_inner r i)).
  destruct res as [n|e|h]; [| |done].
  - apply wp_modify. destruct Hres as (-> & Hpos & _). cbn in Hpos.
    change (Reader.set_inner_position (Some offset) _) with (Reader.set_inner_position (Some offset) (Reader.set_inner r i)).
    split; [apply steady_moved; try done; intros n [= <-]; split; [done|apply Ho]|]. by split_and!.
  - split; [by apply steady_moved|]. by split_and!.
Qed.

(** Why the bytes of a segment cannot be read. *)
Definition fetch_failure (i : Z) (e : IoError.t) : Prop :=
  read_failure e \/ seek_failure e
  \/ (u64_max < start + SegmentLayout.ciphertext_offset (segment_of l i) /\ e = length_overflow)
  \/ (zlen source < start + SegmentLayout.ciphertext_offset (segment_of l i) + SegmentLayout.ciphertext_length (segment_of l i)
      /\ exists err, e = decryption_error err).

(** The source holds the whole segment. *)
Definition within (i : Z) : Prop :=
  start + SegmentLayout.ciphertext_offset (segment_of l i) <= u64_max
  /\ start + SegmentLayout.ciphertext_offset (segment_of l i) + SegmentLayout.ciphertext_length (segment_of l i) <= zlen source.

Lemma layout_bounds i :
  0 <= i < MessageLayout.segment_count l ->
  let s := segment_of l i in
  74 <= SegmentLayout.ciphertext_offset s
  /\ 32 <= SegmentLayout.ciphertext_length s <= Parameters.segment_length (MessageLayout.parameters l)
  /\ SegmentLayout.ciphertext_length s = 32 + SegmentLayout.plaintext_length s
  /\ 0 <= SegmentLayout.plaintext_length s
  /\ SegmentLayout.ciphertext_offset s + SegmentLayout.ciphertext_length s <= MessageLayout.ciphertext_length l.
Proof.
  intros Hi. pose proof (produced_wf l Hl) as Hwf.
  destruct (wf_position l i Hwf Hi) as (H1 & H2 & H3 & H4 & _). pose proof (wf_ciphertext l Hwf) as Hct.
  destruct (valid_payload _ (LayoutFacts.wf_valid l Hwf)) as [Hv1 Hv2].
  cbn [segment_of SegmentLayout.ciphertext_offset SegmentLayout.ciphertext_length SegmentLayout.plaintext_length].
  destruct (Z.eqb_spec (i + 1) (MessageLayout.segment_count l)) as [E|E]; [specialize (H2 E)|specialize (H3 ltac:(lia))];
    split_and!; lia.
Qed.

(** The seek before a segment. *)
Lemma seek_to_segment_ok r i :
  steady r -> 0 <= i < MessageLayout.segment_count l ->
  wp (Reader.seek_to_segment (segment_of l i)) r (fun res r' =>
    steady r' /\ keeps r r' /\ Reader.cached_position r' = Reader.cached_position r /\
    match res with
    | Ok _ => start + SegmentLayout.ciphertext_offset (segment_of l i) <= u64_max
        /\ Reader.inner_position r' = Some (start + SegmentLayout.ciphertext_offset (segment_of l i))
    | Err e => fetch_failure i e
    | Halt _ => False
    end).
Proof.
  intros Hr Hi. destruct (layout_bounds i Hi) as (Hoff & _).
  unfold Reader.seek_to_segment. apply wp_bind, wp_get, wp_bind, wp_lift. rewrite (st_start r Hr).
  destruct (Z.le_gt_cases (start + SegmentLayout.ciphertext_offset (segment_of l i)) u64_max) as [Hu|Hu].
  2: { rewrite checked_u64_none by (unfold in_u64; lia). cbn [ok_or]. split_and!; [done..|]. right; right; left. by split. }
  rewrite checked_u64_some by (unfold in_u64; lia). cbn [ok_or].
  eapply wp_mono; [apply seek_inner_to_ok; [done|unfold in_u64; lia]|].
  intros res r2 (Hr2 & Hk2 & Hca2 & Hres). split_and!; [done..|].
  destruct res as [[]|e|h]; [by split|by right; left|done].
Qed.

(** Content written to the scratch buffer by a read. *)
Lemma steady_read r i b o :
  steady r -> same_source (Reader.inner r) i -> wf b -> SegmentBuffer.parameters b = MessageLayout.parameters l ->
  Reader.cached_position r = None -> (forall n, o = Some n -> position i = n /\ 0 <= n) ->
  steady (Reader.set_inner_position o (Reader.set_scratch (Reader.set_inner r i) b)).
Proof.
  intros [] Hs Hb Hp Hca Ho. split; cbn; try done; [|by eapply same_source_enough|by intros j Hj; rewrite Hca in Hj].
  by destruct Hs as [-> _].
Qed.

(** The message's segment in the source. *)
Lemma segment_at_source i :
  0 <= i < MessageLayout.segment_count l ->
  segment_at l message i
  = slice source (start + SegmentLayout.ciphertext_offset (segment_of l i))
      (start + SegmentLayout.ciphertext_offset (segment_of l i) + SegmentLayout.ciphertext_length (segment_of l i)).
Proof.
  intros Hi. destruct (layout_bounds i Hi) as (H1 & H2 & _ & _ & H3). unfold segment_at, message.
  rewrite slice_slice by lia. f_equal. lia.
Qed.

Lemma fetch_ok r i :
  steady r -> 0 <= i < MessageLayout.segment_count l ->
  wp (Reader.fetch_segment_ciphertext fuel (segment_of l i)) r (fun res r' =>
    steady r' /\ keeps r r' /\ Reader.cached_position r' = None /\
    match res with
    | Ok _ => within i /\ SegmentBuffer.ciphertext (Reader.scratch r') = Ok (segment_at l message i)
        /\ zlen (segment_at l message i) = SegmentLayout.ciphertext_length (segment_of l i)
    | Err e => fetch_failure i e
    | Halt _ => False
    end).
Proof.
  intros Hr Hi. destruct (layout_bounds i Hi) as (Hoff & Hlen & _). rewrite (segment_at_source i Hi).
  set (offset := SegmentLayout.ciphertext_offset (segment_of l i)) in *.
  set (n := SegmentLayout.ciphertext_length (segment_of l i)) in *.
  unfold Reader.fetch_segment_ciphertext. fold n. apply wp_bind, wp_modify. apply steady_forgets in Hr as Hr1.
  set (r1 := Reader.set_cached_position None r) in *.
  assert (keeps r r1) as Hk1 by done. assert (Reader.cached_position r1 = None) as Hca1 by done. clearbody r1.
  apply wp_bind. assert (length_usize_to_u64 n = n) as Hcast.
  { apply length_usize_to_u64_id. unfold in_u64.
    destruct (valid_bounds _ (LayoutFacts.wf_valid l (produced_wf l Hl))). unfold u64_max. flia. }
  rewrite Hcast. clear Hcast. eapply wp_mono; [by apply seek_to_segment_ok|].
  fold offset. intros res r2 (Hr2 & Hk2 & Hca2 & Hres). rewrite Hca1 in Hca2. pose proof (keeps_trans _ _ _ Hk1 Hk2) as Hk.
  destruct res as [[]|e|h]; [|by split_and!|done]. destruct Hres as [Hu Hres].
  destruct (st_inner r2 Hr2 _ Hres) as [Hpos _]. apply wp_bind, wp_get, wp_bind, wp_modify. rewrite Hres.
  apply wp_bind, wp_zoom, wp_map_err. unfold Reader.scratch_cell. cells. cbn [Reader.scratch Reader.set_inner_position].
  pose proof (st_scratch r2 Hr2) as Hb. pose proof (st_parameters r2 Hr2) as Hp.
  eapply wp_eq; [apply prepare_ciphertext_ok; [done|rewrite Hp; lia]|]. cbn [map_err].
  set (b1 := SegmentBuffer.set_state _ _).
  assert (wf b1) as Hb1 by (apply wf_set_ciphertext; [done|rewrite Hp; lia]).
  assert (SegmentBuffer.parameters b1 = MessageLayout.parameters l) as Hp1 by done.
  assert (SegmentBuffer.state b1 = BufferState.Ciphertext n) as Hst1 by done. clearbody b1.
  pose proof (wf_storage _ Hb1) as Hsz. rewrite Hp1 in Hsz.
  apply wp_bind, wp_zoom. unfold Reader.inner_and_raw, SegmentBuffer.raw_mut. cells.
  cbn [Reader.inner Reader.scratch Reader.set_scratch Reader.set_inner_position].
  apply wp_zoom_range_snd; [cells; apply range_ok_true; lia|]. cells.
  eapply wp_mono; [apply read_segment_at; [apply (st_fuel r2 Hr2)|lia]|].
  rewrite zlen_slice, (st_source r2 Hr2), Hpos. replace (Z.max 0 (Z.min (n - 0) _)) with n by lia.
  intros res [i' content]. cells. intros (Hcl & Hs & Hres2).
  set (b2 := SegmentBuffer.set_storage b1 (splice (SegmentBuffer.storage b1) 0 content)).
  assert (wf b2) as Hb2 by (apply wf_set_storage; [done|apply zlen_splice; lia]).
  destruct res as [[]|e|h]; [| |done].
  - apply wp_modify. destruct Hres2 as (Hpos' & Hfit & Hcontent). split; [|split; [done|split; [done|]]].
    + apply (steady_read r2 i' b2 (checked_u64 (start + offset + n))); [done..|].
      intros x. unfold checked_u64, in_range. destruct (andb _ _) eqn:E; [|done]. intros [= <-]. lia.
    + split; [unfold within; fold offset n; lia|]. rewrite <- Hcontent. split; [|done].
      cbn [Reader.scratch Reader.set_inner_position Reader.set_scratch Reader.set_inner].
      change (Reader.scratch _) with b2. rewrite (ciphertext_ok b2 n Hb2 Hst1). f_equal.
      rewrite <- slice_0, <- Hcl. apply slice_splice_same; lia.
  - split_and!; [by apply (steady_read r2 i' b2 None)|done|done|].
    destruct Hres2 as [?|?]; [by left|right; right; right; done].
Qed.

(** *** One segment *)

(** Why a segment is not released. *)
Definition segment_failure (i : Z) (e : IoError.t) : Prop :=
  fetch_failure i e
  \/ exists err, e = decryption_error err
       /\ ((err = CryptoFailure /\ backend_fails) \/ opened l (spec_state c) message i = None).

Lemma refused_failure i err :
  refused c (segment_of l i) (segment_at l message i) err -> segment_failure i (decryption_error err).
Proof.
  intros H. right. exists err. split; [done|]. destruct H as [?|H]; [by left|]. right. rewrite <- H.
  unfold opened, spec_decrypt, enc_seg_len. by rewrite Hc.
Qed.

Lemma spec_decrypt_authentic i pt :
  spec_decrypt c (segment_at l message i) (SegmentLayout.position (segment_of l i)) (SegmentLayout.kind (segment_of l i)) = Some pt ->
  authentic i pt.
Proof. unfold authentic, opened, spec_decrypt, enc_seg_len. by rewrite Hc. Qed.

Lemma fetched_decryptable r i :
  steady r -> 0 <= i < MessageLayout.segment_count l ->
  zlen (segment_at l message i) = SegmentLayout.ciphertext_length (segment_of l i) ->
  decryptable (Reader.state r) (segment_at l message i) (segment_of l i).
Proof.
  intros Hr Hi Hlen. split; [apply (st_wf r Hr)|]. split; [|split; [|done]].
  - exists l, i. split; [done|]. split; [lia|]. apply segment_for_position_ok; [by apply produced_wf|done].
  - unfold DecryptionState.parameters. by rewrite (st_context r Hr), Hc.
Qed.

Lemma reader_parameters r : steady r -> SegmentBuffer.parameters (Reader.scratch r) = DecryptionState.parameters (Reader.state r).
Proof. intros Hr. unfold DecryptionState.parameters. by rewrite (st_context r Hr), (st_parameters r Hr), Hc. Qed.

Lemma load_ok r i :
  steady r -> 0 <= i < MessageLayout.segment_count l ->
  wp (Reader.load_segment fuel (segment_of l i)) r (fun res r' =>
    steady r' /\ keeps r r' /\
    match res with
    | Ok _ => within i /\ Reader.cached_position r' = Some i
    | Err e => segment_failure i e
    | Halt _ => False
    end).
Proof.
  intros Hr Hi. unfold Reader.load_segment. apply wp_bind. eapply wp_mono; [by apply fetch_ok|].
  intros res r1 (Hr1 & Hk & Hca & Hres). destruct res as [[]|e|h]; [| |done]. 2: { by split_and!; [..|left]. }
  destruct Hres as (Hin & Hct & Hlen). pose proof (fetched_decryptable r1 i Hr1 Hi Hlen) as Hdec.
  apply wp_bind, wp_zoom, wp_map_err. unfold Reader.state_and_scratch. cells.
  eapply wp_mono; [by apply (segment_in_place_ok _ (segment_at l message i)); [|apply st_scratch|apply reader_parameters|]|].
  intros res [st b]. cells. rewrite (st_context r1 Hr1), (st_parameters r1 Hr1).
  intros (Hst & Hcx & Hb & Hp & Hres). set (r2 := Reader.set_scratch (Reader.set_state r1 st) b).
  assert (forall o, (forall i, o = Some i -> caches r2 i) -> steady (Reader.set_cached_position o r2)) as Hsteady.
  { intros o Ho. destruct Hr1. by split. }
  destruct res as [bounds|err|h]; cbn [map_err]; [| |done].
  - apply wp_modify. destruct Hres as (pt & Hpt & Hbs & Hpay).
    split; [|split; [done|split; [done|done]]]. apply Hsteady. intros j [= <-]. split; [done|].
    exists pt. split; [by apply spec_decrypt_authentic|]. by split.
  - split; [|split; [done|by apply refused_failure]].
    replace r2 with (Reader.set_cached_position None r2) by (unfold r2; destruct r1; cbn in *; by rewrite Hca).
    by apply Hsteady.
Qed.

(** The cache answers without the source. *)
Lemma load_cached_ok r i :
  steady r -> 0 <= i < MessageLayout.segment_count l ->
  wp (Reader.load_cached_segment fuel (segment_of l i)) r (fun res r' =>
    steady r' /\ keeps r r' /\
    match res with
    | Ok _ => exists pt, authentic i pt /\ SegmentBuffer.plaintext (Reader.scratch r') = Ok pt
    | Err e => segment_failure i e
    | Halt _ => False
    end).
Proof.
  intros Hr Hi. unfold Reader.load_cached_segment. apply wp_bind, wp_get.
  assert (forall r', steady r' -> Reader.cached_position r' = Some i ->
            exists pt, authentic i pt /\ SegmentBuffer.plaintext (Reader.scratch r') = Ok pt) as Hcache.
  { intros r' Hr' Hca. destruct (st_cache r' Hr' i Hca) as (_ & pt & Ha & Hbs & Hpay). exists pt. split; [done|].
    rewrite (plaintext_ok _ (zlen pt)); [by f_equal|apply (st_scratch r' Hr')|done]. }
  destruct (bool_decide _) eqn:E.
  - apply bool_decide_eq_true in E. apply wp_ret. split; [done|]. split; [done|]. by apply Hcache.
  - eapply wp_mono; [by apply load_ok|]. intros res r' (Hr' & Hk & Hres). split; [done|]. split; [done|].
    destruct res as [[]|e|h]; [apply Hcache; [done|apply Hres]|done..].
Qed.

(** A segment straight into the caller's bytes, all of which it fills. *)
Lemma decrypt_direct_ok r i out :
  steady r -> 0 <= i < MessageLayout.segment_count l -> zlen out = SegmentLayout.plaintext_length (segment_of l i) ->
  wp (Reader.decrypt_segment_direct fuel (segment_of l i)) (r, out) (fun res s =>
    steady (fst s) /\ keeps r (fst s) /\ zlen (snd s) = zlen out /\
    match res with
    | Ok _ => authentic i (snd s)
    | Err e => segment_failure i e
    | Halt _ => False
    end).
Proof.
  intros Hr Hi Hout. destruct (layout_bounds i Hi) as (_ & _ & Hlp & _). unfold Reader.decrypt_segment_direct.
  apply wp_bind, wp_zoom. cells. eapply wp_mono; [by apply fetch_ok|]. cells.
  intros res r1 (Hr1 & Hk & Hca & Hres). destruct res as [[]|e|h]; [| |done]. 2: { by split_and!; [..|left]. }
  destruct Hres as (Hin & Hct & Hlen). pose proof (fetched_decryptable r1 i Hr1 Hi Hlen) as Hdec.
  apply wp_bind, wp_zoom, wp_get. cells. apply wp_bind, wp_lift. rewrite Hct. cbn [map_err].
  apply wp_bind, wp_zoom, wp_map_err. unfold Reader.state_and_output. cells.
  eapply wp_mono; [apply segment_into_ok; [done|lia]|]. intros res [st out']. cells. rewrite (st_context r1 Hr1).
  intros (Hst & Hcx & Hol & Hres).
  assert (steady (Reader.set_state r1 st)) as Hr2 by (destruct Hr1; by split).
  destruct res as [n|err|h]; cbn [map_err]; [| |done].
  - apply wp_ret. cells. split; [done|]. split; [done|]. split; [done|]. destruct Hres as (pt & Hpt & Hptl & ->).
    rewrite splice_all by lia. by apply spec_decrypt_authentic.
  - split; [done|]. split; [done|]. split; [done|]. by apply refused_failure.
Qed.

End Reader.
