(* ===== verification/ForkProperties.v ===== *)
(** * Parallel encryption and decryption

    A state of [src/state.rs] is turned into a shared context, from which each
    task of a program forks a state of its own. Tasks take segments in any order
    and interleaving; their results are one message. *)

From S2P Require Import Prelude Bytes Error Parameters Provider Crypto Reference Key Buffer Spec State StateFacts StateProperties.
From S2P Require Import Online OnlineFacts OnlineMessages RandomAccessMessages RandomAccessFacts.
Import ParametersFacts LayoutFacts.

(** ** Tasks *)

(** A job is taken by a worker, and is a segment. *)
Record job := take {
  worker : nat;
  position : Z
}.

(** A call on the state of one worker. The workers share nothing that changes,
    so that an interleaving is the order of the calls. *)
Definition on_worker {S A} (w : nat) (op : M Error S A) : M Error (list S) A := fun states =>
  match states !! w with
  | Some s => let (r, s') := op s in (r, <[w := s']> states)
  | None => (panic, states)
  end.

Section Jobs.
Context {T : Target} {F : Features} {B : Backend}.

(** [layout.segment_for_position(position).unwrap()]. *)
Definition layout_of_job (l : MessageLayout.t) (j : job) : Result SegmentLayout.t :=
  let* found := MessageLayout.segment_for_position l (position j) in
  match found with
  | Some s => Ok s
  | None => panic
  end.

Definition seal_job (l : MessageLayout.t) (plaintext : bytes) (j : job) : M Error (list EncryptionState.t) bytes :=
  on_worker (worker j)
    (let? s := layout_of_job l j in EncryptionState.encrypt_segment (chunk l plaintext (position j)) s).

Definition open_job (l : MessageLayout.t) (m : bytes) (j : job) : M Error (list DecryptionState.t) bytes :=
  on_worker (worker j)
    (let? s := layout_of_job l j in DecryptionState.decrypt_segment (segment_at l m (position j)) s).

Definition job_wf (l : MessageLayout.t) (workers : nat) (j : job) : Prop :=
  (worker j < workers)%nat /\ 0 <= position j < MessageLayout.segment_count l.

End Jobs.

(** A call keeps what all states have. *)
Lemma on_worker_ok {S A} (I : S -> Prop) w (op : M Error S A) states (Q : Result A -> Prop) :
  Forall I states -> (w < length states)%nat ->
  (forall s, I s -> wp op s (fun r s' => I s' /\ Q r)) ->
  wp (on_worker w op) states (fun r states' => (Forall I states' /\ length states' = length states) /\ Q r).
Proof.
  intros Hall Hw Hop. unfold wp, on_worker. destruct (lookup_lt_is_Some_2 states w Hw) as [s Hs]. rewrite Hs.
  specialize (Hop s (proj1 (Forall_lookup I states) Hall _ _ Hs)). unfold wp in Hop. destruct (op s) as [r s'].
  cbn [fst snd] in *. destruct Hop as [Hs' HQ]. split; [|done]. split; [by apply Forall_insert|apply length_insert].
Qed.

(** ** Segments in a row *)

(** All but the last have one length. *)
Definition in_row (n : Z) (segments : list bytes) : Prop :=
  forall i segment, segments !! i = Some segment ->
    if (S i =? length segments)%nat then zlen segment <= n else zlen segment = n.

Lemma in_row_cons n x segments : in_row n (x :: segments) ->
  in_row n segments /\ (segments <> [] -> zlen x = n) /\ zlen x <= n.
Proof.
  intros H. split; [|split].
  - intros i segment Hi. exact (H (S i) segment Hi).
  - intros Hne. pose proof (H O x eq_refl) as Hx. by destruct segments.
  - pose proof (H O x eq_refl) as Hx. destruct segments; cbn in Hx; lia.
Qed.

Lemma row_piece n segments : 0 <= n -> in_row n segments -> forall i segment,
  segments !! i = Some segment -> piece n (concat segments) (Z.of_nat i) = segment.
Proof.
  intros Hn. induction segments as [|x segments IH]; intros Hrow i segment Hi; [done|].
  apply in_row_cons in Hrow as (Hrow & Hx & Hle). cbn [concat]. destruct i as [|i]; cbn in Hi.
  - injection Hi as <-. destruct segments as [|y segments]; [cbn [concat]; rewrite app_nil_r; by apply piece_only|].
    apply piece_first. by apply Hx.
  - rewrite Nat2Z.inj_succ. unfold Z.succ. rewrite piece_next; [by apply IH| |lia]. apply Hx. by destruct segments.
Qed.

Lemma row_length n segments last : in_row n (segments ++ [last]) ->
  zlen (concat (segments ++ [last])) = zlen segments * n + zlen last.
Proof.
  induction segments as [|x segments IH]; intros Hrow; cbn [app concat].
  - by rewrite app_nil_r.
  - cbn [app] in Hrow. apply in_row_cons in Hrow as (Hrow & Hx & _).
    rewrite zlen_app, IH, zlen_cons, Hx by (done || by destruct segments). lia.
Qed.

Section Encryption.
Context {T : Target} {P : Primitives} {POk : PrimitivesOk} {B : Backend} {BOk : BackendOk}.
Context {Su : Support} {SuOk : SupportOk}.

(** The states of one message. *)
Definition encrypting_in (c : MessageContext.t) (st : EncryptionState.t) : Prop :=
  encryption_wf st /\ EncryptionState.context st = c.

Section Message.
Context (l : MessageLayout.t) (c : MessageContext.t) (plaintext : bytes).
Context (Hl : produced l) (Hc : MessageContext.parameters c = MessageLayout.parameters l).
Context (Hplain : zlen plaintext = MessageLayout.plaintext_length l).
Context (Hsize : Parameters.segment_length (MessageLayout.parameters l) <= isize_max).

Abbreviation params := (Parameters.segment_length (MessageLayout.parameters l)).

(** A segment of the message, at its position. *)
Definition sealed_at (i : Z) (segment : bytes) : Prop :=
  exists nonce, zlen nonce = 12
    /\ Spec.encryptSegment params (spec_state c) nonce (chunk l plaintext i) i (SegmentLayout.is_final (segment_of l i)) = Some segment.

Lemma job_layout j n : job_wf l n j ->
  layout_of_job l j = Ok (segment_of l (position j)) /\ obtained (segment_of l (position j)).
Proof.
  intros [_ Hi]. pose proof (produced_wf l Hl) as Hwf. unfold layout_of_job.
  rewrite segment_for_position_ok by done. split; [done|]. exists l, (position j).
  split; [done|]. split; [lia|]. by apply segment_for_position_ok.
Qed.

Lemma chunk_length i : 0 <= i < MessageLayout.segment_count l ->
  zlen (chunk l plaintext i) = SegmentLayout.plaintext_length (segment_of l i)
  /\ SegmentLayout.plaintext_length (segment_of l i) + 32 <= params.
Proof.
  intros Hi. pose proof (produced_wf l Hl) as Hwf. destruct (wf_position l i Hwf Hi) as (H1 & H2 & H3 & _ & _ & H6).
  destruct (valid_payload _ (wf_valid l Hwf)) as [Hp _]. unfold chunk, segment_of.
  cbn [SegmentLayout.plaintext_offset SegmentLayout.plaintext_length]. rewrite zlen_slice.
  destruct (Z.eqb_spec (i + 1) (MessageLayout.segment_count l)); lia.
Qed.

Lemma seal_job_ok j states :
  Forall (encrypting_in c) states -> job_wf l (length states) j ->
  wp (seal_job l plaintext j) states (fun r states' =>
    (Forall (encrypting_in c) states' /\ length states' = length states) /\
    match r with
    | Ok segment => sealed_at (position j) segment
    | Err e => (e = RngFailure \/ e = CryptoFailure) /\ backend_fails
    | Halt _ => False
    end).
Proof.
  intros Hall Hj. pose proof Hj as [Hw Hi]. destruct (job_layout j _ Hj) as [Hs Hobt]. destruct (chunk_length _ Hi) as [Hn Hle].
  apply on_worker_ok; [done|done|]. intros st [Hst Hctx]. rewrite Hs. apply wp_bind, wp_lift.
  eapply wp_mono; [apply encrypt_segment_ok; [done|done|lia]|]. intros r st' (Hst' & Hctx' & Hr).
  split; [split; [done|congruence]|]. destruct r as [segment|e|x]; [| |done].
  - destruct Hr as (_ & _ & nonce & _ & Hnonce & Hspec & _). exists nonce. split; [done|].
    unfold spec_encrypt in Hspec. rewrite Hctx in Hspec. unfold enc_seg_len in Hspec. by rewrite Hc in Hspec.
  - unfold encrypt_failure in Hr. destruct e; try done.
    + destruct Hr. unfold EncryptionState.parameters. by rewrite Hctx, Hc.
    + destruct Hr as (_ & _ & Hr). by destruct Hr.
    + split; [by left|done].
    + split; [by right|done].
Qed.

Lemma job_sealed_length i segment : 0 <= i < MessageLayout.segment_count l -> sealed_at i segment ->
  zlen segment = SegmentLayout.ciphertext_length (segment_of l i).
Proof.
  intros Hi (nonce & Hnonce & H).
  assert (obtained (segment_of l i)) as Hobt by (apply (job_layout (take 0 i) 1); split; [cbn; lia|done]).
  destruct (obtained_facts _ Hobt) as (_ & _ & _ & _ & Hf & ->). destruct (chunk_length i Hi) as [Hn _].
  rewrite encryptSegment_eq in H by (rewrite Hn; exact Hf). injection H as <-.
  rewrite zlen_sealed_segment; [lia| |done]. unfold segment_prefix. by rewrite zlen_u32_to_be_bytes.
Qed.

(** One segment for each position makes the message. *)
Lemma sealed_message p key aad h segments :
  p = MessageLayout.parameters l -> Header.wf h ->
  Spec.startDecryption params (Key.as_bytes key) aad (Header.as_bytes h) = Some (spec_state c) ->
  zlen segments = MessageLayout.segment_count l ->
  (forall i segment, segments !! i = Some segment -> sealed_at (Z.of_nat i) segment) ->
  accepts_with p key aad (Header.as_bytes h ++ concat segments) plaintext.
Proof.
  intros -> Hh Hstart Hcount Hsealed. pose proof (produced_wf l Hl) as Hwf.
  destruct (valid_payload _ (wf_valid l Hwf)) as [Hps Hpl]. pose proof (wf_count l Hwf).
  assert (forall i segment, segments !! i = Some segment ->
    0 <= Z.of_nat i < MessageLayout.segment_count l /\ zlen segment = SegmentLayout.ciphertext_length (segment_of l (Z.of_nat i))) as Hlens.
  { intros i segment Hi. pose proof (lookup_lt_Some _ _ _ Hi). assert (0 <= Z.of_nat i < MessageLayout.segment_count l) by (unfold zlen in Hcount; lia).
    split; [done|]. by apply job_sealed_length, Hsealed. }
  assert (in_row params segments) as Hrow.
  { intros i segment Hi. destruct (Hlens i segment Hi) as [Hr ->]. destruct (wf_position l _ Hwf Hr) as (H1 & H2 & H3 & _).
    unfold segment_of. cbn [SegmentLayout.ciphertext_length]. unfold zlen in Hcount.
    destruct (Nat.eqb_spec (S i) (length segments)), (Z.eqb_spec (Z.of_nat i + 1) (MessageLayout.segment_count l)); lia. }
  assert (zlen (concat segments) = MessageLayout.ciphertext_length l - 74) as Hbody.
  { destruct (exists_last (l := segments)) as (front & final & E); [intros E; rewrite E, zlen_nil in Hcount; lia|]. rewrite E in Hrow, Hcount |- *.
    rewrite (row_length params) by done. rewrite zlen_app, zlen_cons, zlen_nil in Hcount.
    destruct (Hlens (length front) final) as [Hr ->]; [rewrite E; by apply list_lookup_middle|].
    unfold segment_of. cbn [SegmentLayout.ciphertext_length]. change (Z.of_nat (length front)) with (zlen front).
    destruct (wf_position l _ Hwf Hr) as (_ & _ & _ & H4 & _). change (Z.of_nat (length front)) with (zlen front) in H4.
    rewrite (wf_ciphertext l Hwf). destruct (Z.eqb_spec (zlen front + 1) (MessageLayout.segment_count l)); lia. }
  assert (zlen (Header.as_bytes h ++ concat segments) = MessageLayout.ciphertext_length l) as Hm.
  { rewrite zlen_app, Hbody. unfold Header.wf, Header.LEN in Hh. unfold Header.as_bytes. floe_consts. lia. }
  apply (accepts_layout key aad h _ (spec_state c)); [done..|]. split; [done|]. intros i Hi.
  destruct (lookup_lt_is_Some_2 segments (Z.to_nat i)) as [segment Hseg]; [unfold zlen in Hcount; lia|].
  unfold opened. rewrite segment_at_piece by done. pose proof (row_piece params segments ltac:(lia) Hrow _ _ Hseg) as Hpiece.
  rewrite Z2Nat.id in Hpiece by lia. rewrite Hpiece. destruct (Hsealed _ _ Hseg) as (nonce & Hnonce & Henc).
  rewrite Z2Nat.id in Henc by lia. eapply decryptSegment_encryptSegment; [|exact Hnonce|exact Henc]. unfold u32_max. lia.
Qed.

End Message.
End Encryption.

Section Decryption.
Context {T : Target} {F : Features} {P : Primitives} {POk : PrimitivesOk} {B : Backend} {BOk : BackendOk}.
Context {Su : Support} {SuOk : SupportOk}.

Definition decrypting_in (c : MessageContext.t) (st : DecryptionState.t) : Prop :=
  decryption_wf st /\ DecryptionState.context st = c.

Lemma segment_vec_ok st segment s :
  decryptable st segment s -> slice_ok segment ->
  wp (DecryptionState.decrypt_segment segment s) st (fun r st' =>
    decrypting_in (DecryptionState.context st) st' /\
    match r with
    | Ok pt => spec_decrypt (DecryptionState.context st) segment (SegmentLayout.position s) (SegmentLayout.kind s) = Some pt
    | Err e => refused (DecryptionState.context st) s segment e
    | Halt _ => False
    end).
Proof.
  intros Hok Hsize. pose proof Hok as (Hst & Hs & Hp & Hn). destruct (decryptable_layout st segment s Hok) as (Hv & _ & Hpos & _).
  unfold DecryptionState.decrypt_segment. apply wp_bind, wp_get, wp_bind, wp_lift. rewrite Hv.
  eapply wp_mono; [by apply decrypt_segment_at_ok|]. intros r st' (Hwf & Hc & Hr). split; [done|].
  destruct r as [pt|e|h]; [apply Hr| |done]. by eapply open_error_refused.
Qed.

Section Message.
Context (l : MessageLayout.t) (c : MessageContext.t) (m : bytes).
Context (Hl : produced l) (Hc : MessageContext.parameters c = MessageLayout.parameters l).
Context (Hm : zlen m = MessageLayout.ciphertext_length l) (Hsize : slice_ok m).

Lemma open_job_ok j states :
  Forall (decrypting_in c) states -> job_wf l (length states) j ->
  wp (open_job l m j) states (fun r states' =>
    (Forall (decrypting_in c) states' /\ length states' = length states) /\
    match r with
    | Ok pt => opened l (spec_state c) m (position j) = Some pt
    | Err e => opened l (spec_state c) m (position j) = None \/ (e = CryptoFailure /\ backend_fails)
    | Halt _ => False
    end).
Proof.
  intros Hall Hj. pose proof Hj as [Hw Hi]. destruct (job_layout l Hl j _ Hj) as [Hs Hobt].
  pose proof (produced_wf l Hl) as Hwf. destruct (layout_bounds l Hl (position j) Hi) as (H1 & H2 & _ & _ & H3).
  assert (zlen (segment_at l m (position j)) = SegmentLayout.ciphertext_length (segment_of l (position j))) as Hlen
    by (unfold segment_at; rewrite zlen_slice; lia).
  apply on_worker_ok; [done|done|]. intros st [Hst Hctx]. rewrite Hs. apply wp_bind, wp_lift.
  eapply wp_mono; [apply segment_vec_ok|].
  - split_and!; [done|done| |done]. unfold DecryptionState.parameters. by rewrite Hctx, Hc.
  - unfold slice_ok in *. rewrite Hlen. lia.
  - rewrite Hctx. intros r st' [Hst' Hr]. split; [done|]. unfold refused, opened, spec_decrypt, enc_seg_len in *. rewrite Hc in Hr.
    destruct r as [pt|e|x]; [exact Hr| |done]. destruct Hr as [He|He]; [right; exact He|left; exact He].
Qed.

End Message.
End Decryption.

(** ** Properties *)

Section Properties.
Context {T : Target} {F : Features} {P : Primitives} {POk : PrimitivesOk} {B : Backend} {BOk : BackendOk}.
Context {Su : Support} {SuOk : SupportOk}.

(** The states that tasks fork from one context, each with an entropy source. *)
Definition encrypting_forks (shared : SharedEncryptionContext.t) (entropies : list Entropy) : list EncryptionState.t :=
  map (fun entropy => SharedEncryptionContext.fork entropy shared) entropies.

Definition decrypting_forks (shared : SharedDecryptionContext.t) (workers : nat) : list DecryptionState.t :=
  repeat (SharedDecryptionContext.fork shared) workers.

Lemma encrypting_forks_ok st entropies :
  encryption_wf st ->
  Forall (encrypting_in (EncryptionState.context st)) (encrypting_forks (SharedEncryptionContext.into_shared st) entropies).
Proof.
  intros (Hc & _). apply List.Forall_forall. intros w (entropy & <- & _)%in_map_iff. split; [|done].
  split; [exact Hc|]. split; [apply cache_wf_empty|apply nonces_wf_new].
Qed.

Lemma decrypting_forks_ok st workers :
  decryption_wf st ->
  Forall (decrypting_in (DecryptionState.context st)) (decrypting_forks (SharedDecryptionContext.into_shared st) workers).
Proof.
  intros (Hc & _). apply List.Forall_forall. intros w ->%repeat_spec. split; [|done].
  split; [exact Hc|apply cache_wf_empty].
Qed.

(** The entries of a log of jobs, from what each job gives. *)
Lemma jobs_ok {S} (op : job -> M Error (list S) bytes) (I : S -> Prop) (l : MessageLayout.t) (Q : job -> Result bytes -> Prop)
    states jobs log states' :
  (forall j states, Forall I states -> job_wf l (length states) j ->
     wp (op j) states (fun r states' => (Forall I states' /\ length states' = length states) /\ Q j r)) ->
  Forall I states -> Forall (job_wf l (length states)) jobs -> perform op jobs states = (log, states') ->
  Forall (fun entry => Q (fst entry) (snd entry)) log.
Proof.
  intros Hop Hstates Hjobs Hrun.
  pose proof (perform_invariant op (fun log s => (Forall I s /\ length s = length states) /\ Forall (fun entry => Q (fst entry) (snd entry)) log)
    (job_wf l (length states))) as H.
  refine (proj2 (H _ jobs [] states log states' _ Hjobs Hrun)); [|by split].
  intros log0 j s [[Hs Hl] Hlog] Hj. eapply wp_mono; [apply Hop; [done|by rewrite Hl]|].
  intros r s' [[Hs' Hl'] Hr]. split; [split; [done|congruence]|]. apply Forall_app. split; [done|by constructor].
Qed.

(** C16: encryption in parallel. Tasks fork states from the context of a started
    message, each with a generator of its own, and encrypt segments of the layout
    in any order and interleaving, a segment perhaps more than once. Then every
    call gives a segment of the layout's length, or the backend failed; and
    whichever result is taken for each position, after the header they are a
    message that the specification accepts with the plaintext, under any key
    object with the same bytes. *)
Theorem parallel_encryption (entropy : Entropy) (key key' : Key.t) (aad : bytes) (p : Parameters.t) (plaintext : bytes)
  (l : MessageLayout.t) (st : EncryptionState.t) (h : Header.t) (entropies : list Entropy) (jobs : list job)
  (log : list (job * Result bytes)) (states : list EncryptionState.t)
  (Hp : Parameters.valid p) (Hsize : slice_ok plaintext) (Hsegment : Parameters.segment_length p <= isize_max)
  (Hl : plaintext_layout p (zlen plaintext) = Ok l)
  (Hstart : start_encryption entropy key aad p = Ok (st, h))
  (Hjobs : Forall (job_wf l (length entropies)) jobs)
  (Hrun : perform (seal_job l plaintext) jobs (encrypting_forks (SharedEncryptionContext.into_shared st) entropies) = (log, states))
  (Hkey : Key.as_bytes key' = Key.as_bytes key) :
  Forall (fun entry => match snd entry with
    | Ok segment => zlen segment = SegmentLayout.ciphertext_length (segment_of l (position (fst entry)))
    | Err e => (e = RngFailure \/ e = CryptoFailure) /\ backend_fails
    | Halt _ => False
    end) log
  /\ forall segments, zlen segments = MessageLayout.segment_count l ->
       (forall i segment, segments !! i = Some segment -> exists w, In (take w (Z.of_nat i), Ok segment) log) ->
       accepts_with p key' aad (Header.as_bytes h ++ concat segments) plaintext.
Proof.
  pose proof (start_encryption_ok entropy key aad p Hp) as H. rewrite Hstart in H.
  destruct H as (Hwf & Hh & Hpar & _ & rng & iv & _ & Hiv & _ & Hspec).
  pose proof (zlen_nonneg plaintext). pose proof isize_le_usize. pose proof usize_le_u64.
  assert (in_u64 (zlen plaintext)) as Hu by (unfold slice_ok, in_u64 in *; lia).
  assert (produced l) as Hprod by (exists p, (zlen plaintext); split_and!; [done|done|by left]).
  apply plaintext_layout_ok in Hl as (_ & _ & Hlp & Hplain); [|done..].
  assert (MessageContext.parameters (EncryptionState.context st) = MessageLayout.parameters l) as Hc by (rewrite Hlp; exact Hpar).
  assert (Forall (fun entry => 0 <= position (fst entry) < MessageLayout.segment_count l /\ match snd entry with
            | Ok segment => sealed_at l (EncryptionState.context st) plaintext (position (fst entry)) segment
            | Err e => (e = RngFailure \/ e = CryptoFailure) /\ backend_fails
            | Halt _ => False
            end) log) as Hlog.
  { refine (jobs_ok (seal_job l plaintext) (encrypting_in (EncryptionState.context st)) l (fun j r =>
      0 <= position j < MessageLayout.segment_count l /\ match r with
        | Ok segment => sealed_at l (EncryptionState.context st) plaintext (position j) segment
        | Err e => (e = RngFailure \/ e = CryptoFailure) /\ backend_fails
        | Halt _ => False
        end) _ jobs log states _ (encrypting_forks_ok st entropies Hwf) _ Hrun).
    - intros j s Hs Hj. eapply wp_mono; [apply seal_job_ok; done || (rewrite Hlp; lia) || done|].
      intros r s' [Hs' Hr]. split; [done|]. split; [apply Hj|done].
    - unfold encrypting_forks. by rewrite length_map. }
  split.
  - eapply Forall_impl; [exact Hlog|]. intros [j [segment|e|x]]; cbn [fst snd]; intros [Hi Hr]; [|done..].
    by apply (job_sealed_length l (EncryptionState.context st) plaintext).
  - intros segments Hcount Hin. rewrite List.Forall_forall in Hlog.
    eapply (sealed_message l (EncryptionState.context st) plaintext); [done|done|done|exact Hh| |done|].
    + rewrite Hkey, Hlp. by eapply spec_start_roundtrip.
    + intros i segment Hi. destruct (Hin i segment Hi) as [w Hw]. by destruct (Hlog _ Hw) as [_ Hs].
Qed.

(** C17: decryption in parallel. Tasks fork states from the context of a started
    decryption and decrypt segments of a message of some layout in any order and
    interleaving. On an accepted message each call gives the plaintext at its
    position, or the backend failed. On any other string, what a call gives is
    authentic for its position; and if every position gave its part of one
    plaintext, the message is accepted with that plaintext. *)
Theorem parallel_decryption (key : Key.t) (aad : bytes) (p : Parameters.t) (h : Header.t) (body : bytes)
  (l : MessageLayout.t) (st : DecryptionState.t) (workers : nat) (jobs : list job)
  (log : list (job * Result bytes)) (states : list DecryptionState.t)
  (Hp : Parameters.valid p) (Hh : Header.wf h) (Hsize : slice_ok (Header.as_bytes h ++ body))
  (Hl : ciphertext_layout p (zlen (Header.as_bytes h ++ body)) = Ok l)
  (Hstart : start_decryption key aad p h = Ok st)
  (Hjobs : Forall (job_wf l workers) jobs)
  (Hrun : perform (open_job l (Header.as_bytes h ++ body)) jobs
            (decrypting_forks (SharedDecryptionContext.into_shared st) workers) = (log, states)) :
  let m := Header.as_bytes h ++ body in
  Forall (fun entry => match snd entry with
    | Ok pt => opened l (spec_state (DecryptionState.context st)) m (position (fst entry)) = Some pt
    | Err e => opened l (spec_state (DecryptionState.context st)) m (position (fst entry)) = None \/ (e = CryptoFailure /\ backend_fails)
    | Halt _ => False
    end) log
  /\ (forall plaintext, accepts_with p key aad m plaintext ->
        Forall (fun entry => snd entry = Ok (chunk l plaintext (position (fst entry)))
                  \/ (snd entry = Err CryptoFailure /\ backend_fails)) log)
  /\ (forall plaintext, zlen plaintext = MessageLayout.plaintext_length l ->
        (forall i, 0 <= i < MessageLayout.segment_count l -> exists w, In (take w i, Ok (chunk l plaintext i)) log) ->
        accepts_with p key aad m plaintext).
Proof.
  intros m. pose proof (zlen_nonneg m) as H0. pose proof isize_le_usize. pose proof usize_le_u64.
  assert (in_u64 (zlen m)) as Hu by (unfold slice_ok, in_u64 in *; fold m in Hsize; lia).
  assert (produced l) as Hprod by (exists p, (zlen m); split_and!; [done|done|by right]).
  apply ciphertext_layout_ok in Hl as (Hwf & Hlp & Hm); [|done..]. fold m in Hm.
  assert (decryption_wf st /\ DecryptionState.parameters st = p /\
    Spec.startDecryption (Parameters.segment_length p) (Key.as_bytes key) aad (Header.as_bytes h)
    = Some (spec_state (DecryptionState.context st))) as (Hst & Hpar & Hspec).
  { unfold start_decryption in Hstart. destruct (Key_provider_cases key) as [[pr Hpr]|Hpr]; rewrite Hpr in Hstart; [|done].
    cbn [obind] in Hstart. pose proof (start_decryption_with_provider_ok key pr aad p h Hp Hh) as Hw. rewrite Hstart in Hw.
    destruct Hw as (? & ? & _ & ?). by split_and!. }
  assert (MessageContext.parameters (DecryptionState.context st) = MessageLayout.parameters l) as Hc by (rewrite Hlp; exact Hpar).
  assert (Forall (fun entry => 0 <= position (fst entry) < MessageLayout.segment_count l /\ match snd entry with
    | Ok pt => opened l (spec_state (DecryptionState.context st)) m (position (fst entry)) = Some pt
    | Err e => opened l (spec_state (DecryptionState.context st)) m (position (fst entry)) = None \/ (e = CryptoFailure /\ backend_fails)
    | Halt _ => False
    end) log) as Hlog.
  { refine (jobs_ok (open_job l m) (decrypting_in (DecryptionState.context st)) l (fun j r =>
      0 <= position j < MessageLayout.segment_count l /\ match r with
        | Ok pt => opened l (spec_state (DecryptionState.context st)) m (position j) = Some pt
        | Err e => opened l (spec_state (DecryptionState.context st)) m (position j) = None \/ (e = CryptoFailure /\ backend_fails)
        | Halt _ => False
        end) _ jobs log states _ (decrypting_forks_ok st workers Hst) _ Hrun).
    - intros j s Hs Hj. eapply wp_mono; [by apply open_job_ok|].
      intros r s' [Hs' Hr]. split; [done|]. split; [apply Hj|done].
    - unfold decrypting_forks. by rewrite repeat_length. }
  pose proof (accepts_layout key aad h body (spec_state (DecryptionState.context st)) l) as Hacc. rewrite Hlp in Hacc.
  split; [|split].
  - eapply Forall_impl; [exact Hlog|]. intros entry [_ Hr]. exact Hr.
  - intros plaintext [_ Hall]%Hacc; [|done..]. eapply Forall_impl; [exact Hlog|].
    intros [j [pt|e|x]]; cbn [fst snd]; intros [Hi Hr]; [| |done]; unfold m in Hr; rewrite (Hall _ Hi) in Hr.
    + left. congruence.
    + right. destruct Hr as [?|[-> ?]]; [done|by split].
  - intros plaintext Hlen Hin. apply Hacc; [done..|]. split; [done|]. intros i Hi.
    rewrite List.Forall_forall in Hlog. destruct (Hin i Hi) as [w Hw]. destruct (Hlog _ Hw) as [_ Hr]. exact Hr.
Qed.

End Properties.

(** ** Examples *)

Module ForkExamples.

Definition aad : bytes := [byte_of_Z 9].
Definition plaintext : bytes := Reference.fill 100 100.
Definition entropies : list Entropy := [1 : Z; 2 : Z].

(** Two workers, four segments, the first of them twice. *)
Definition jobs : list job := [take 1 2; take 0 0; take 0 3; take 1 1; take 1 0].

Definition layout : MessageLayout.t :=
  match plaintext_layout Parameters.SEGMENT_64_B 100 with
  | Ok l => l
  | _ => MessageLayout.mk Parameters.SEGMENT_64_B 0 0 0
  end.

Lemma layout_ok : plaintext_layout Parameters.SEGMENT_64_B (zlen plaintext) = Ok layout.
Proof. by vm_compute. Qed.

Lemma jobs_wf : Forall (job_wf layout 2) jobs.
Proof. repeat constructor; vm_compute; done || lia. Qed.

Lemma seal_run :
  exists st h log states,
    start_encryption (7 : Entropy) Examples.key aad Parameters.SEGMENT_64_B = Ok (st, h)
    /\ perform (seal_job (T := target64) layout plaintext) jobs
         (encrypting_forks (SharedEncryptionContext.into_shared st) entropies) = (log, states)
    /\ map fst log = jobs /\ map (fun entry => is_ok (snd entry)) log = [true; true; true; true; true].
Proof.
  assert (omap_ok (fun s => map (fun entry => is_ok (snd entry)) (fst (perform (seal_job (T := target64) layout plaintext) jobs
         (encrypting_forks (SharedEncryptionContext.into_shared (fst s)) entropies))))
       (start_encryption (7 : Entropy) Examples.key aad Parameters.SEGMENT_64_B)
     = Ok [true; true; true; true; true]) as H by (by vm_compute).
  destruct (start_encryption _ _ _ _) as [[st h]|e|x]; [|discriminate H..]. cbn [omap_ok fst] in H. apply ok_inj in H.
  destruct (perform _ _ _) as [log states] eqn:Hrun. exists st, h, log, states.
  split; [done|]. split; [exact Hrun|]. split; [by eapply perform_calls|exact H].
Qed.

(** A whole message of the plaintext, its header and body. *)
Definition message : bytes :=
  match encrypt (T := target64) (7 : Entropy) Examples.key aad Parameters.SEGMENT_64_B plaintext with
  | Ok c => c
  | _ => []
  end.

Definition header : Header.t := Header.mk (ztake 74 message).
Definition body : bytes := zdrop 74 message.

Lemma ciphertext_layout_of : ciphertext_layout (T := target64) Parameters.SEGMENT_64_B (zlen (Header.as_bytes header ++ body)) = Ok layout.
Proof. by vm_compute. Qed.

Lemma open_run :
  exists st log states,
    start_decryption Examples.key aad Parameters.SEGMENT_64_B header = Ok st
    /\ perform (open_job (T := target64) layout (Header.as_bytes header ++ body)) jobs
         (decrypting_forks (SharedDecryptionContext.into_shared st) 2) = (log, states)
    /\ log = map (fun j => (j, Ok (chunk layout plaintext (position j)))) jobs.
Proof.
  assert (omap_ok (fun st => fst (perform (open_job (T := target64) layout (Header.as_bytes header ++ body)) jobs
         (decrypting_forks (SharedDecryptionContext.into_shared st) 2)))
       (start_decryption Examples.key aad Parameters.SEGMENT_64_B header)
     = Ok (map (fun j => (j, Ok (chunk layout plaintext (position j)))) jobs)) as H by (by vm_compute).
  destruct (start_decryption _ _ _ _) as [st|e|x]; [|discriminate H..]. cbn [omap_ok] in H. apply ok_inj in H.
  destruct (perform _ _ _) as [log states] eqn:Hrun. exists st, log, states.
  split; [done|]. split; [exact Hrun|exact H].
Qed.

Lemma parameters_ok : Parameters.valid Parameters.SEGMENT_64_B.
Proof. done. Qed.

Lemma message_size_ok : slice_ok (T := target64) (Header.as_bytes header ++ body).
Proof. by vm_compute. Qed.

Lemma header_ok : Header.wf header.
Proof. by vm_compute. Qed.

Lemma plaintext_length : zlen plaintext = MessageLayout.plaintext_length layout.
Proof. by vm_compute. Qed.

Lemma chunk_given (log : list (job * Result bytes)) i :
  log = map (fun j => (j, Ok (chunk layout plaintext (position j)))) jobs ->
  0 <= i < MessageLayout.segment_count layout -> exists w, In (take w i, Ok (chunk layout plaintext i)) log.
Proof.
  intros -> Hi. change (MessageLayout.segment_count layout) with 4 in Hi.
  assert (exists w, In (take w i) jobs) as [w Hw].
  { assert (i = 0 \/ i = 1 \/ i = 2 \/ i = 3) as [-> |[-> |[-> | ->]]] by lia;
      [exists 0%nat|exists 1%nat|exists 1%nat|exists 0%nat]; cbn; tauto. }
  exists w. apply in_map_iff. by exists (take w i).
Qed.

End ForkExamples.

Lemma parallel_encryption_witness :
  exists h segments,
    zlen segments = 4
    /\ accepts_with Parameters.SEGMENT_64_B Examples.key ForkExamples.aad (Header.as_bytes h ++ concat segments) ForkExamples.plaintext.
Proof.
  destruct ForkExamples.seal_run as (st & h & log & states & Hstart & Hrun & Hcalls & Hok).
  destruct (parallel_encryption (T := target64) (B := Reference.backend) (7 : Z) Examples.key Examples.key ForkExamples.aad
              Parameters.SEGMENT_64_B ForkExamples.plaintext ForkExamples.layout st h ForkExamples.entropies ForkExamples.jobs log states
              ltac:(done) ltac:(by vm_compute) ltac:(by vm_compute) ForkExamples.layout_ok Hstart ForkExamples.jobs_wf Hrun eq_refl) as [_ H].
  destruct log as [|[j1 [a2|?|?]] [|[j2 [a0|?|?]] [|[j3 [a3|?|?]] [|[j4 [a1|?|?]] [|[j5 [b0|?|?]] [|? ?]]]]]]; try discriminate Hok; try discriminate Hcalls.
  injection Hcalls as -> -> -> -> ->. exists h, [b0; a1; a2; a3]. split; [reflexivity|].
  apply H; [by vm_compute|]. intros [|[|[|[|i]]]] segment Hi; try discriminate Hi; injection Hi as <-.
  - exists 1%nat. right. right. right. right. by left.
  - exists 1%nat. right. right. right. by left.
  - exists 1%nat. by left.
  - exists 0%nat. right. right. by left.
Defined.

Lemma parallel_decryption_witness :
  accepts_with Parameters.SEGMENT_64_B Examples.key ForkExamples.aad
    (Header.as_bytes ForkExamples.header ++ ForkExamples.body) ForkExamples.plaintext.
Proof.
  destruct ForkExamples.open_run as (st & log & states & Hstart & Hrun & Hlog).
  destruct (parallel_decryption (T := target64) (B := Reference.backend) Examples.key ForkExamples.aad Parameters.SEGMENT_64_B
              ForkExamples.header ForkExamples.body ForkExamples.layout st 2 ForkExamples.jobs log states ForkExamples.parameters_ok
              ForkExamples.header_ok ForkExamples.message_size_ok ForkExamples.ciphertext_layout_of Hstart ForkExamples.jobs_wf Hrun)
    as (_ & _ & H).
  apply H; [exact ForkExamples.plaintext_length|]. intros i Hi. exact (ForkExamples.chunk_given log i Hlog Hi).
Defined.
