(* ===== verification/RandomAccessReads.v ===== *)
(** * The random-access reader: reads

    Segments, ranges and sequential reads release the authentic bytes of the
    plaintext at their offsets. *)

From S2P Require Import Prelude Bytes Error Parameters Provider Crypto Key Buffer Spec State StateFacts StateProperties.
From S2P Require Import StdIo Wire Online OnlineFacts OnlineMessages RandomAccessMessages RandomAccess RandomAccessFacts.
Import ParametersFacts LayoutFacts BufferFacts.

Section Reads.
Context {T : Target} {F : Features} {P : Primitives} {POk : PrimitivesOk} {B : Backend} {BOk : BackendOk}.
Context {Su : Support} {SuOk : SupportOk}.
Context {R : Type} {RR : Read R} {ROk : ReadOk R} {RS : Seek R} {SOk : SeekOk R} (fuel : nat).
Context (l : MessageLayout.t) (c : MessageContext.t) (source : bytes) (start : Z).
Context (Hl : produced l) (Hc : MessageContext.parameters c = MessageLayout.parameters l) (Hstart : 0 <= start).

Abbreviation reader := (Reader.t (R := R)).
Abbreviation authentic := (authentic l c source start).
Abbreviation steady := (steady fuel l c source start).
Abbreviation segment_failure := (segment_failure (R := R) l c source start).
Abbreviation total := (MessageLayout.plaintext_length l).
Abbreviation size := (payload (MessageLayout.parameters l)).

(** ** The authentic plaintext *)

(** The byte at an offset of the plaintext, as its segment authenticates it. *)
Definition byte_at (offset : Z) (b : byte) : Prop :=
  exists i pt, 0 <= i < MessageLayout.segment_count l /\ authentic i pt /\ i * size <= offset
    /\ pt !! Z.to_nat (offset - i * size) = Some b.

(** What was released for the offsets from [offset] on. *)
Definition released (offset : Z) (out : bytes) : Prop :=
  forall (k : nat) b, out !! k = Some b -> byte_at (offset + Z.of_nat k) b.

Lemma released_nil offset : released offset [].
Proof. intros k b. by rewrite lookup_nil. Qed.

Lemma released_app offset x y : released offset x -> released (offset + zlen x) y -> released offset (x ++ y).
Proof.
  intros Hx Hy k b Hk. apply lookup_app_Some in Hk as [Hk|[Hle Hk]]; [by apply Hx|].
  specialize (Hy _ _ Hk). unfold zlen in Hy.
  by replace (offset + Z.of_nat (length x) + Z.of_nat (k - length x)) with (offset + Z.of_nat k) in Hy by lia.
Qed.

(** A part of an authentic segment. *)
Lemma released_part i pt a b :
  0 <= i < MessageLayout.segment_count l -> authentic i pt -> 0 <= a -> released (i * size + a) (slice pt a b).
Proof.
  intros Hi Hpt Ha k x Hk. exists i, pt. split; [done|]. split; [done|]. split; [lia|].
  unfold slice, ztake, zdrop in Hk. apply lookup_take_Some in Hk as [Hk _]. rewrite lookup_drop in Hk.
  rewrite <- Hk. f_equal. lia.
Qed.

(** ** Offsets *)

Definition offset_of (i : Z) : Z := SegmentLayout.plaintext_offset (segment_of l i).
Definition length_of (i : Z) : Z := SegmentLayout.plaintext_length (segment_of l i).

(** The segments before the last one that a range touches are full. *)
Lemma offsets i e :
  0 <= i -> i * size < e -> e <= total ->
  i < MessageLayout.segment_count l /\ offset_of i = i * size /\ 0 <= length_of i <= size
  /\ i * size + length_of i <= total <= u64_max /\ 32 <= size < 4294967263
  /\ (if i =? (e - 1) / size then e <= i * size + length_of i else length_of i = size /\ i < (e - 1) / size).
Proof.
  intros Hi0 Hi He. pose proof (produced_wf l Hl) as Hwf. pose proof (wf_plaintext l Hwf) as Hpl.
  pose proof (wf_ciphertext l Hwf) as Hct. pose proof (wf_u64 l Hwf) as Hu. pose proof (wf_count l Hwf) as Hn.
  destruct (valid_payload _ (LayoutFacts.wf_valid l Hwf)) as [_ Hv].
  assert (i < MessageLayout.segment_count l) as Hic by nia.
  destruct (wf_position l i Hwf ltac:(lia)) as (H1 & H2 & H3 & _).
  split; [done|]. split; [done|]. unfold length_of. cbn [segment_of SegmentLayout.plaintext_length].
  pose proof (Z.div_mod (e - 1) size ltac:(lia)) as Hdiv. pose proof (Z.mod_pos_bound (e - 1) size ltac:(lia)) as Hmod.
  destruct (Z.eqb_spec (i + 1) (MessageLayout.segment_count l)) as [E|E].
  - specialize (H2 E). split; [lia|]. split; [lia|]. split; [done|].
    destruct (Z.eqb_spec i ((e - 1) / size)) as [E2|E2]; [lia|]. nia.
  - specialize (H3 ltac:(lia)). split; [lia|]. split; [lia|]. split; [done|].
    destruct (Z.eqb_spec i ((e - 1) / size)) as [E2|E2]; [nia|]. split; [done|]. nia.
Qed.

Lemma position_for_ok {E} o :
  0 <= o -> MessageLayout.position_for_plaintext_offset (E := E) l o = Ok (o / size).
Proof.
  intros. unfold MessageLayout.position_for_plaintext_offset.
  pose proof (LayoutFacts.wf_valid l (produced_wf l Hl)) as Hv. rewrite plaintext_segment_length_u32_ok by done. cbn [obind].
  destruct (valid_payload _ Hv) as [_ ?]. by replace (size =? 0) with false by lia.
Qed.

Lemma segment_ok r i :
  steady r -> 0 <= i < MessageLayout.segment_count l -> Reader.segment r i = Ok (segment_of l i).
Proof.
  intros Hr Hi. unfold Reader.segment. rewrite (st_layout _ _ _ _ _ r Hr).
  by rewrite segment_for_position_ok by (done || by apply produced_wf).
Qed.

Context (Hfit : start + MessageLayout.ciphertext_length l <= zlen source).

Lemma zlen_message : zlen (message l source start) = MessageLayout.ciphertext_length l.
Proof.
  pose proof (wf_ciphertext l (produced_wf l Hl)). pose proof (wf_count l (produced_wf l Hl)).
  destruct (wf_position l 0 (produced_wf l Hl) ltac:(lia)) as [? _].
  unfold message. rewrite zlen_slice. lia.
Qed.

Lemma authentic_length i pt : 0 <= i < MessageLayout.segment_count l -> authentic i pt -> zlen pt = length_of i.
Proof. intros Hi. apply opened_length; [by apply produced_wf|apply zlen_message|done]. Qed.

(** Why a range is not released: a segment that it touches is not. *)
Definition range_failure (a e : Z) (err : IoError.t) : Prop :=
  exists i, 0 <= i < MessageLayout.segment_count l /\ offset_of i < e /\ a < offset_of i + length_of i
    /\ segment_failure i err.

(** The part of segment [i] in the range from [a] to [e]. *)
Lemma is_covered_ok a e i :
  0 <= i < MessageLayout.segment_count l -> offset_of i + length_of i <= u64_max -> 0 <= offset_of i -> 0 <= length_of i ->
  Reader.is_covered_fully (a, e) (segment_of l i)
  = Ok ((a <=? offset_of i) && (offset_of i + length_of i <=? e)).
Proof.
  intros Hi Hu Ho Hn. unfold Reader.is_covered_fully. fold (offset_of i) (length_of i). cbn [fst snd].
  destruct (a <=? offset_of i); [|done]. rewrite length_usize_to_u64_id by (unfold in_u64; lia).
  by rewrite u64_ok by lia.
Qed.

Lemma local_range_ok a e o n :
  0 <= a -> a < o + n -> o < e -> 0 <= o -> 0 <= n -> o + n <= u64_max -> n <= usize_max ->
  Reader.local_range (a, e) o n = Ok (Z.max 0 (a - o), Z.min e (o + n) - o).
Proof.
  intros. unfold Reader.local_range. cbn [fst snd]. rewrite usize_try_from_small by lia. cbn [ok_or obind].
  rewrite length_usize_to_u64_id by (unfold in_u64; lia). rewrite u64_ok by lia. cbn [obind].
  rewrite u64_ok by lia. cbn [obind]. rewrite usize_try_from_small by lia. cbn [ok_or obind]. do 2 f_equal. lia.
Qed.

(** One segment of a range: the bytes that follow those already written. *)
Lemma read_position_ok r out a e i written :
  steady r -> 0 <= a < e -> e <= total -> e - a <= zlen out -> zlen out <= usize_max -> 0 <= i ->
  i * size < e -> a < offset_of i + length_of i -> written = Z.max a (i * size) - a ->
  wp (Reader.read_position fuel (a, e) i written) (r, out) (fun res s =>
    steady (fst s) /\ keeps r (fst s) /\ zlen (snd s) = zlen out /\
    match res with
    | Ok w => w = Z.min e (offset_of i + length_of i) - a /\ ztake written (snd s) = ztake written out
        /\ released (a + written) (slice (snd s) written w)
    | Err err => range_failure a e err
    | Halt _ => False
    end).
Proof.
  intros Hr Ha He Hout Hus Hi0 Hie Hai Hw. destruct (offsets i e Hi0 Hie He) as (Hi & Ho & Hn & Ht & Hs & _).
  assert (0 <= i < MessageLayout.segment_count l) as Hi' by lia. pose proof u32_le_usize as Husize.
  assert (forall err, segment_failure i err -> range_failure a e err) as Hfail by (intros err ?; exists i; split_and!; done || lia).
  unfold Reader.read_position. apply wp_bind, wp_get, wp_bind, wp_lift. rewrite segment_ok by done.
  apply wp_bind, wp_lift. rewrite is_covered_ok by lia.
  fold (offset_of i) (length_of i). rewrite Ho in *.
  destruct (andb _ _) eqn:Hcov.
  - apply wp_bind, wp_lift. rewrite usize_ok by lia. apply wp_bind, wp_zoom_range_snd; [cells; apply range_ok_true; lia|]. cells.
    eapply wp_mono; [apply (decrypt_direct_ok fuel l c source start); [done..|fold (length_of i); rewrite zlen_slice; lia]|].
    intros res [r' content]. cells. rewrite zlen_slice. intros (Hr' & Hk & Hcl & Hres).
    replace (Z.max 0 (Z.min (written + length_of i - written) _)) with (length_of i) in Hcl by lia.
    destruct res as [[]|err|h]; [| |done].
    + apply wp_ret. cells. split; [done|]. split; [done|]. split; [apply zlen_splice; lia|]. split; [lia|].
      split; [rewrite <- !slice_0; apply slice_splice_before; lia|].
      rewrite <- Hcl, slice_splice_same by lia. rewrite <- (slice_all content (zlen content)) by lia.
      replace (a + written) with (i * size + 0) by lia. by apply released_part.
    + split; [done|]. split; [done|]. split; [apply zlen_splice; lia|]. by apply Hfail.
  - apply wp_bind, wp_zoom. cells. eapply wp_mono; [by apply (load_cached_ok fuel l c source start)|]. intros res r' (Hr' & Hk & Hres). cells.
    destruct res as [[]|err|h]; [| |done]. 2: { split_and!; [done..|]. by apply Hfail. }
    destruct Hres as (pt & Hpt & Hb). pose proof (authentic_length i pt Hi' Hpt) as Hl'.
    apply wp_bind, wp_get. cells. apply wp_bind, wp_lift. rewrite Hb. cbn [map_err]. apply wp_bind, wp_lift.
    rewrite Hl', local_range_ok by flia. cbn [fst snd]. apply wp_bind, wp_lift. rewrite index_ok by lia.
    set (chunk := slice pt _ _).
    assert (zlen chunk = Z.min e (i * size + length_of i) - Z.max a (i * size)) as Hcl
      by (unfold chunk; rewrite zlen_slice; lia).
    apply wp_bind, wp_lift. rewrite usize_ok by lia. apply wp_bind, wp_lift. rewrite copy_to_ok by lia.
    apply wp_bind, wp_zoom, wp_put. cells. apply wp_ret. cells. split; [done|]. split; [done|].
    split; [apply zlen_splice; lia|]. split; [lia|]. split; [rewrite <- !slice_0; apply slice_splice_before; lia|].
    rewrite slice_splice_same by lia. replace (a + written) with (i * size + Z.max 0 (a - i * size)) by lia.
    apply released_part; [done|done|lia].
Qed.

Lemma read_positions_ok (n : nat) : forall r out a e i written,
  steady r -> 0 <= a < e -> e <= total -> e - a <= zlen out -> zlen out <= usize_max -> 0 <= i ->
  i + Z.of_nat n = (e - 1) / size -> a < offset_of i + length_of i -> written = Z.max a (i * size) - a ->
  released a (ztake written out) ->
  wp (Reader.read_positions fuel (a, e) (seqZ i (Z.of_nat (S n))) written) (r, out) (fun res s =>
    steady (fst s) /\ keeps r (fst s) /\ zlen (snd s) = zlen out /\
    match res with
    | Ok w => w = e - a /\ released a (ztake w (snd s))
    | Err err => range_failure a e err
    | Halt _ => False
    end).
Proof.
  induction n as [|n IH]; intros r out a e i written Hr Hae He Hout Hus Hi Hin Hai Hw Hrel.
  all: rewrite seqZ_cons by lia; cbn [Reader.read_positions]; apply wp_bind.
  all: assert (0 <= (e - 1) / size /\ (e - 1) / size * size <= e - 1) as [Hlast Hlast']
    by (destruct (valid_payload _ (LayoutFacts.wf_valid l (produced_wf l Hl))) as [_ ?];
        pose proof (Z.div_mod (e - 1) size ltac:(lia)); pose proof (Z.mod_pos_bound (e - 1) size ltac:(lia));
        pose proof (Z.div_pos (e - 1) size ltac:(lia) ltac:(lia)); lia).
  all: destruct (valid_payload _ (LayoutFacts.wf_valid l (produced_wf l Hl))) as [_ Hsize].
  all: assert (i * size < e) as Hie by nia.
  all: destruct (offsets i e Hi Hie He) as (Hic & Ho & Hn & Ht & _ & Hfull).
  all: eapply wp_mono; [by apply read_position_ok|].
  all: intros res [r1 out1]; cells; intros (Hr1 & Hk & Hl1 & Hres); destruct res as [w|err|h]; [|done..].
  all: destruct Hres as (-> & Hbefore & Hrel1); rewrite Ho in *.
  all: assert (released a (ztake (Z.min e (i * size + length_of i) - a) out1)) as Hrel2.
  1, 3: rewrite <- slice_0, <- (slice_concat out1 0 written) by lia; apply released_app;
    [by rewrite slice_0, Hbefore|]; replace (zlen (slice out1 0 written)) with written by (rewrite zlen_slice; lia); done.
  - destruct (Z.eqb_spec i ((e - 1) / size)); [|lia]. change (Z.pred (Z.of_nat 1)) with 0.
    apply wp_ret. cells. split; [done|]. split; [done|]. split; [done|]. split; [lia|done].
  - destruct (Z.eqb_spec i ((e - 1) / size)); [lia|]. destruct Hfull as [Hfull Hlt].
    assert ((i + 1) * size < e) as Hie2 by nia.
    destruct (offsets (i + 1) e ltac:(lia) Hie2 He) as (_ & Ho2 & Hn2 & _).
    replace (Z.succ i) with (i + 1) by lia. replace (Z.pred (Z.of_nat (S (S n)))) with (Z.of_nat (S n)) by lia.
    eapply wp_mono; [apply (IH r1 out1 a e (i + 1)); try done; try lia|].
    intros res s (? & ? & ? & ?). split; [done|]. split; [by eapply keeps_trans|]. split; [congruence|done].
Qed.

(** A range that is not empty. *)
Lemma read_resolved_ok r out a e :
  steady r -> 0 <= a <= e -> e <= total -> e - a <= zlen out -> zlen out <= usize_max ->
  wp (Reader.read_resolved_range_into fuel (a, e)) (r, out) (fun res s =>
    steady (fst s) /\ keeps r (fst s) /\ zlen (snd s) = zlen out /\
    match res with
    | Ok w => w = e - a /\ released a (ztake w (snd s))
    | Err err => range_failure a e err
    | Halt _ => False
    end).
Proof.
  intros Hr Hae He Hout Hus. unfold Reader.read_resolved_range_into. cbn [fst snd].
  destruct (Z.leb_spec e a) as [Hea|Hea].
  { apply wp_ret. cells. split_and!; [done..|lia|]. rewrite ztake_le0 by lia. apply released_nil. }
  destruct (valid_payload _ (LayoutFacts.wf_valid l (produced_wf l Hl))) as [_ Hsize].
  pose proof (Z.div_mod a size ltac:(lia)). pose proof (Z.mod_pos_bound a size ltac:(lia)).
  pose proof (Z.div_pos a size ltac:(lia) ltac:(lia)). pose proof (Z.div_le_mono a (e - 1) size ltac:(lia) ltac:(lia)).
  destruct (offsets (a / size) e) as (_ & Ho & _ & Ht & _ & Hfull); [done|lia|done|].
  apply wp_bind, wp_get. cells. apply wp_bind, wp_lift. rewrite (st_layout _ _ _ _ _ r Hr), position_for_ok by lia.
  apply wp_bind, wp_lift. rewrite u64_ok by lia. apply wp_bind, wp_lift. rewrite position_for_ok by lia. apply wp_bind.
  replace ((e - 1) / size + 1 - a / size) with (Z.of_nat (S (Z.to_nat ((e - 1) / size - a / size)))) by lia.
  eapply wp_mono; [apply read_positions_ok; try done; try lia|].
  - rewrite Ho. destruct (Z.eqb_spec (a / size) ((e - 1) / size)); lia.
  - intros res s (? & ? & ? & Hres). destruct res as [w|err|h]; [|done..]. destruct Hres as [-> Hrel].
    apply wp_bind, wp_lift. rewrite u64_ok by lia. rewrite length_usize_to_u64_id by (unfold in_u64; lia).
    rewrite Z.eqb_refl. by apply wp_ret.
Qed.

(** ** The public reads *)

(** A position outside the message, or a buffer that is too small. *)
Definition invalid_input (err : IoError.t) : Prop := IoError.kind err = ErrorKind.InvalidInput.

Lemma segment_cases r position :
  steady r -> 0 <= position ->
  (position < MessageLayout.segment_count l /\ Reader.segment r position = Ok (segment_of l position))
  \/ (MessageLayout.segment_count l <= position /\ exists err, Reader.segment r position = Err err /\ invalid_input err).
Proof.
  intros Hr Hp. destruct (Z.le_gt_cases (MessageLayout.segment_count l) position) as [H|H].
  - right. split; [done|]. unfold Reader.segment. rewrite (st_layout _ _ _ _ _ r Hr), segment_for_position_none by done.
    by eexists.
  - left. split; [done|]. apply segment_ok; [done|lia].
Qed.

Lemma authentic_released i pt : 0 <= i < MessageLayout.segment_count l -> authentic i pt -> released (offset_of i) pt.
Proof.
  intros Hi Hpt. rewrite <- (slice_all pt (zlen pt)) by done.
  change (offset_of i) with (i * size). rewrite <- (Z.add_0_r (i * size)). by apply released_part.
Qed.

Lemma length_of_bounds i : 0 <= i < MessageLayout.segment_count l -> 0 <= length_of i <= size.
Proof.
  intros Hi. destruct (wf_position l i (produced_wf l Hl) Hi) as (H1 & H2 & H3 & _).
  unfold length_of. cbn [segment_of SegmentLayout.plaintext_length].
  destruct (valid_payload _ (LayoutFacts.wf_valid l (produced_wf l Hl))) as [_ ?].
  destruct (Z.eqb_spec (i + 1) (MessageLayout.segment_count l)) as [E|E]; [by apply H2|lia].
Qed.

Lemma read_segment_into_ok r out position :
  steady r -> 0 <= position ->
  wp (Reader.read_segment_into fuel position) (r, out) (fun res s =>
    steady (fst s) /\ keeps r (fst s) /\ zlen (snd s) = zlen out /\
    match res with
    | Ok n => position < MessageLayout.segment_count l /\ n = length_of position
        /\ authentic position (ztake n (snd s))
    | Err err => (invalid_input err
                  /\ (MessageLayout.segment_count l <= position \/ zlen out < length_of position))
                 \/ (position < MessageLayout.segment_count l /\ segment_failure position err)
    | Halt _ => False
    end).
Proof.
  intros Hr Hp. unfold Reader.read_segment_into. apply wp_bind, wp_get. cells. apply wp_bind, wp_lift.
  destruct (segment_cases r position Hr Hp) as [[Hlt ->]|[Hge (err & -> & Herr)]].
  2: { split; [done|]. split; [done|]. split; [done|]. left. split; [done|]. by left. }
  fold (length_of position). destruct (Z.ltb_spec (zlen out) (length_of position)) as [Hroom|Hroom].
  { apply wp_fail. split; [done|]. split; [done|]. split; [done|]. left. split; [done|]. by right. }
  pose proof (length_of_bounds position ltac:(lia)) as Hn.
  apply wp_bind, wp_zoom_range_snd; [cells; apply range_ok_true; lia|]. cells.
  eapply wp_mono; [apply (decrypt_direct_ok fuel l c source start); try done; fold (length_of position);
                   rewrite zlen_slice; lia|].
  rewrite zlen_slice. intros res [r' content]. cells. intros (Hr' & Hk & Hcl & Hres).
  replace (Z.max 0 _) with (length_of position) in Hcl by lia.
  assert (zlen (splice out 0 content) = zlen out) as Hsl by (apply zlen_splice; lia).
  destruct res as [[]|err|h]; [| |done].
  - apply wp_ret. cells. split; [done|]. split; [done|]. split; [done|]. split; [done|]. split; [done|].
    by rewrite <- slice_0, slice_splice_same by lia.
  - split; [done|]. split; [done|]. split; [done|]. right. done.
Qed.

Lemma read_segment_ok r position :
  steady r -> 0 <= position -> size <= isize_max ->
  wp (Reader.read_segment fuel position) r (fun res r' =>
    steady r' /\ keeps r r' /\
    match res with
    | Ok pt => position < MessageLayout.segment_count l /\ authentic position pt
    | Err err => (invalid_input err /\ MessageLayout.segment_count l <= position)
                 \/ (position < MessageLayout.segment_count l /\ segment_failure position err)
    | Halt _ => False
    end).
Proof.
  intros Hr Hp Hsize. unfold Reader.read_segment. apply wp_bind, wp_get, wp_bind, wp_lift.
  destruct (segment_cases r position Hr Hp) as [[Hlt ->]|[Hge (err & -> & Herr)]].
  2: { split; [done|]. split; [done|]. by left. }
  fold (length_of position). pose proof (length_of_bounds position ltac:(lia)) as Hn.
  apply wp_bind, wp_lift. rewrite vec_zeroed_ok by lia. apply wp_bind, wp_with_local.
  eapply wp_mono; [by apply read_segment_into_ok|]. intros res [r' out]. cells. intros (Hr' & Hk & Hlen & Hres).
  rewrite zlen_zeros in Hlen, Hres. destruct res as [n|err|h]; [| |done].
  - apply wp_ret. split; [done|]. split; [done|]. destruct Hres as (_ & -> & Hpt). split; [done|].
    by rewrite ztake_all in Hpt by lia.
  - split; [done|]. split; [done|]. destruct Hres as [[He [?|?]]|[_ ?]]; [by left|lia|by right].
Qed.

(** ** Ranges *)

(** The offsets that a range denotes. *)
Definition range_start (range : RangeBounds) : Z :=
  match start_bound range with
  | Bound.Included n => n
  | Bound.Excluded n => n + 1
  | Bound.Unbounded => 0
  end.

Definition range_end (range : RangeBounds) : Z :=
  match end_bound range with
  | Bound.Included n => n + 1
  | Bound.Excluded n => n
  | Bound.Unbounded => total
  end.

Definition bound_wf (b : Bound.t) : Prop :=
  match b with Bound.Included n | Bound.Excluded n => in_u64 n | Bound.Unbounded => True end.

Definition range_wf (range : RangeBounds) : Prop := bound_wf (start_bound range) /\ bound_wf (end_bound range).

Lemma total_bounds : 0 <= total <= u64_max.
Proof.
  pose proof (produced_wf l Hl) as Hwf. pose proof (wf_ciphertext l Hwf). pose proof (wf_u64 l Hwf). pose proof (wf_count l Hwf).
  destruct (wf_position l 0 Hwf ltac:(lia)) as [? _]. lia.
Qed.

Lemma resolve_bounds_ok range :
  range_wf range ->
  match resolve_bounds range total with
  | Ok bounds => bounds = (range_start range, range_end range) /\ 0 <= range_start range <= range_end range /\ range_end range <= total
  | Err err => invalid_input err /\ ~ (range_start range <= range_end range <= total)
  | Halt _ => False
  end.
Proof.
  intros [Hs He]. pose proof total_bounds as Ht. unfold resolve_bounds, range_start, range_end.
  assert (forall n, in_u64 n -> (n < u64_max /\ checked_u64 (n + 1) = Some (n + 1)) \/ (n = u64_max /\ checked_u64 (n + 1) = None)) as Hinc.
  { intros n [??]. destruct (Z.eq_dec n u64_max) as [->|]; [right; by split|left].
    split; [lia|]. apply checked_u64_some. unfold in_u64. lia. }
  assert (forall a e, 0 <= a -> match (let* _ := validate_range a e total in Ok (a, e)) with
    | Ok bounds => bounds = (a, e) /\ 0 <= a <= e /\ e <= total
    | Err err => invalid_input err /\ ~ (a <= e <= total)
    | Halt _ => False end) as Hval.
  { intros a e Ha. unfold validate_range. destruct (orb _ _) eqn:E; cbn [obind]; [split; [done|lia]|split; [done|lia]]. }
  destruct (start_bound range) as [a|a|], (end_bound range) as [e|e|]; cbn [bound_wf obind] in *;
    try (destruct (Hinc a Hs) as [[? ->]|[? ->]]; cbn [ok_or obind]; [|split; [done|lia]]);
    try (destruct (Hinc e He) as [[? ->]|[? ->]]; cbn [ok_or obind]; [|split; [done|lia]]);
    apply Hval; unfold in_u64 in *; lia.
Qed.

Lemma read_range_ok r range :
  steady r -> range_wf range ->
  let a := range_start range in let e := range_end range in
  wp (Reader.read_range fuel range) r (fun res r' =>
    steady r' /\ keeps r r' /\
    match res with
    | Ok out => 0 <= a <= e /\ e <= total /\ zlen out = e - a /\ released a out
    | Err err => (invalid_input err /\ (~ (a <= e <= total) \/ usize_max < e - a)) \/ range_failure a e err
    | Halt h => h = Panicked /\ isize_max < e - a
    end).
Proof.
  intros Hr Hrange a e. unfold Reader.read_range. apply wp_bind, wp_get, wp_bind, wp_lift.
  unfold Reader.plaintext_length. rewrite (st_layout _ _ _ _ _ r Hr). pose proof (resolve_bounds_ok range Hrange) as H.
  fold a e in H. destruct (resolve_bounds range total) as [bounds|err|h]; [|by split_and!; [..|left; split; [apply H|left; apply H]]|done].
  destruct H as (-> & Ha & He). pose proof total_bounds. pose proof isize_le_usize. cbn [fst snd].
  apply wp_bind, wp_lift. rewrite u64_ok by lia. apply wp_bind, wp_lift. unfold usize_try_from.
  destruct (Z.leb_spec (e - a) usize_max) as [Hu|Hu]; cbn [ok_or].
  2: { split; [done|]. split; [done|]. left. split; [done|]. by right. }
  apply wp_bind, wp_lift. destruct (Z.le_gt_cases (e - a) isize_max) as [Hi|Hi].
  2: { unfold vec_zeroed, in_range. replace (_ && _) with false by lia. by split_and!. }
  rewrite vec_zeroed_ok by lia. apply wp_bind, wp_with_local.
  eapply wp_mono; [apply read_resolved_ok; [done|lia|done|rewrite zlen_zeros; lia|rewrite zlen_zeros; lia]|].
  intros res [r' out]. cells. rewrite zlen_zeros. intros (Hr' & Hk & Hlen & Hres).
  destruct res as [n|err|h]; [| |done].
  - apply wp_ret. destruct Hres as [-> Hrel]. rewrite ztake_all in Hrel by lia. split_and!; done || lia.
  - split; [done|]. split; [done|]. by right.
Qed.

Lemma read_range_into_ok r out range :
  steady r -> range_wf range -> zlen out <= usize_max ->
  let a := range_start range in let e := range_end range in
  wp (Reader.read_range_into fuel range) (r, out) (fun res s =>
    steady (fst s) /\ keeps r (fst s) /\ zlen (snd s) = zlen out /\
    match res with
    | Ok n => 0 <= a <= e /\ e <= total /\ n = e - a /\ n <= zlen out /\ released a (ztake n (snd s))
    | Err err => (invalid_input err /\ (~ (a <= e <= total) \/ zlen out < e - a)) \/ range_failure a e err
    | Halt _ => False
    end).
Proof.
  intros Hr Hrange Hus a e. unfold Reader.read_range_into. apply wp_bind, wp_get. cells. apply wp_bind, wp_lift.
  unfold Reader.plaintext_length. rewrite (st_layout _ _ _ _ _ r Hr). pose proof (resolve_bounds_ok range Hrange) as H.
  fold a e in H. destruct (resolve_bounds range total) as [bounds|err|h]; [|by split_and!; [..|left; split; [apply H|left; apply H]]|done].
  destruct H as (-> & Ha & He). pose proof total_bounds. cbn [fst snd].
  apply wp_bind, wp_lift. rewrite u64_ok by lia. apply wp_bind, wp_lift. unfold usize_try_from.
  destruct (Z.leb_spec (e - a) usize_max) as [Hu|Hu]; cbn [ok_or].
  2: { split_and!; [done..|]. left. split; [done|]. right. lia. }
  destruct (Z.ltb_spec (zlen out) (e - a)) as [Hroom|Hroom].
  { apply wp_fail. split_and!; [done..|]. left. split; [done|]. by right. }
  eapply wp_mono; [by apply read_resolved_ok|]. intros res s (Hr' & Hk & Hlen & Hres).
  split; [done|]. split; [done|]. split; [done|]. destruct res as [n|err|h]; [|by right|done].
  destruct Hres as [-> Hrel]. split_and!; done || lia.
Qed.

(** ** [Read] and [Seek] *)

Lemma access_read_ok r out :
  steady r ->
  let o := Reader.plaintext_position r in
  wp (Reader.read fuel) (r, out) (fun res s =>
    steady (fst s) /\ Reader.header (fst s) = Reader.header r /\ zlen (snd s) = zlen out /\
    match res with
    | Ok n => 0 <= n <= zlen out /\ Reader.plaintext_position (fst s) = o + n
        /\ released o (ztake n (snd s)) /\ (n = 0 -> out = [] \/ total <= o) /\ (o < total -> o + n <= total)
    | Err err => Reader.plaintext_position (fst s) = o /\ range_failure o (o + 1) err
    | Halt _ => False
    end).
Proof.
  intros Hr o. pose proof (st_position _ _ _ _ _ r Hr) as [Ho Hou]. fold o in Ho, Hou. pose proof (zlen_nonneg out).
  unfold Reader.read. apply wp_bind, wp_get. cells.
  assert (ztake 0 out = []) as H0 by (by rewrite ztake_le0 by lia).
  destruct (Z.eqb_spec (zlen out) 0) as [Hz|Hz].
  { apply wp_ret. cells. rewrite H0. split; [done|]. split; [done|]. split; [done|]. split; [lia|]. split; [unfold o; lia|].
    split; [apply released_nil|]. split; [left; by apply zlen_0_nil|lia]. }
  unfold Reader.plaintext_length. rewrite (st_layout _ _ _ _ _ r Hr). fold o. destruct (Z.leb_spec total o) as [Hend|Hend].
  { apply wp_ret. cells. rewrite H0. split; [done|]. split; [done|]. split; [done|]. split; [lia|]. split; [unfold o; lia|].
    split; [apply released_nil|]. split; [by right|lia]. }
  destruct (valid_payload _ (LayoutFacts.wf_valid l (produced_wf l Hl))) as [_ Hsize].
  pose proof (Z.div_mod o size ltac:(lia)). pose proof (Z.mod_pos_bound o size ltac:(lia)). pose proof (Z.div_pos o size ltac:(lia) ltac:(lia)).
  set (i := o / size) in *. destruct (offsets i (o + 1)) as (Hic & Hoff & Hn & Ht & _ & Hfull); [done|lia|lia|].
  replace (o + 1 - 1) with o in Hfull by lia. fold i in Hfull. rewrite Z.eqb_refl in Hfull.
  assert (0 <= i < MessageLayout.segment_count l) as Hi by lia. pose proof u32_le_usize.
  apply wp_bind, wp_lift. rewrite position_for_ok by done. fold i. apply wp_bind, wp_lift. rewrite segment_ok by done.
  apply wp_bind, wp_zoom. cells. eapply wp_mono; [by apply (load_cached_ok fuel l c source start)|].
  intros res r' (Hr' & [Hpos Hhead] & Hres). cells. destruct res as [[]|err|h]; [| |done].
  2: { split; [done|]. split; [done|]. split; [done|]. split; [done|]. exists i. rewrite Hoff. split_and!; done || lia. }
  destruct Hres as (pt & Hpt & Hb). pose proof (authentic_length i pt Hi Hpt) as Hlp.
  apply wp_bind, wp_get. cells. apply wp_bind, wp_lift. rewrite Hb. cbn [map_err]. fold (offset_of i). rewrite Hpos. fold o.
  apply wp_bind, wp_lift. rewrite u64_ok by lia. apply wp_bind, wp_lift. rewrite usize_try_from_small by flia. cbn [ok_or].
  apply wp_bind, wp_lift. rewrite usize_ok by flia. set (n := Z.min _ _).
  apply wp_bind, wp_lift. rewrite usize_ok by flia. apply wp_bind, wp_lift. rewrite index_ok by lia.
  set (x := slice pt _ _). assert (zlen x = n) as Hx by (unfold x; rewrite zlen_slice; lia).
  apply wp_bind, wp_lift. rewrite copy_to_ok by lia. apply wp_bind, wp_zoom, wp_put. cells.
  apply wp_bind, wp_lift. rewrite length_usize_to_u64_id by (unfold in_u64; lia). rewrite u64_ok by lia.
  apply wp_bind, wp_zoom, wp_modify. cells. apply wp_ret. cells.
  split; [destruct Hr'; split; cbn; try done; unfold in_u64; lia|]. split; [done|].
  split; [apply zlen_splice; lia|]. split; [lia|]. split; [done|]. split; [|split; lia].
  rewrite <- slice_0, slice_splice_same by lia. replace o with (i * size + (o - offset_of i)) at 1 by lia.
  apply released_part; [done|done|lia].
Qed.

Lemma seek_ok r to :
  steady r -> match to with SeekFrom.Start o => in_u64 o | _ => True end ->
  let o := SeekFrom.target to (Reader.plaintext_position r) total in
  wp (Reader.seek to) r (fun res r' =>
    steady r' /\ Reader.header r' = Reader.header r /\
    match res with
    | Ok n => n = o /\ Reader.plaintext_position r' = o /\ in_u64 o
    | Err err => invalid_input err /\ ~ in_u64 o /\ r' = r
    | Halt _ => False
    end).
Proof.
  intros Hr Hto o. unfold Reader.seek. apply wp_bind, wp_get. unfold Reader.plaintext_length. rewrite (st_layout _ _ _ _ _ r Hr).
  assert (in_u64 o \/ ~ in_u64 o) as [Hin|Hout] by (unfold in_u64; lia).
  - replace (match to with SeekFrom.Start offset => Some offset | SeekFrom.End_ delta => checked_u64 (total + delta)
             | SeekFrom.Current delta => checked_u64 (Reader.plaintext_position r + delta) end) with (Some o)
      by (unfold o in *; destruct to; cbn [SeekFrom.target] in *; [done|by rewrite checked_u64_some..]).
    apply wp_bind, wp_modify, wp_ret. split; [destruct Hr; by split|]. by split_and!.
  - destruct to as [x|x|x]; [done|..]; cbn [SeekFrom.target] in *;
      (rewrite checked_u64_none by done; apply wp_fail; by split_and!).
Qed.

(** The caller may move the wrapped reader, if the source stays the same. *)
Lemma get_mut_ok {E A} r (use : M E R A) (Q : outcome E A -> Prop) :
  steady r -> wp use (Reader.inner r) (fun res i => same_source (Reader.inner r) i /\ Q res) ->
  wp (Reader.get_mut use) r (fun res r' => steady r' /\ keeps r r' /\ Q res).
Proof.
  intros Hr Huse. unfold Reader.get_mut. apply wp_bind, wp_modify, wp_zoom. unfold Reader.inner_cell. cells.
  cbn [Reader.inner Reader.set_inner_position]. eapply wp_mono; [exact Huse|]. intros res i [Hs HQ].
  split; [|done]. apply (steady_moved fuel l c source start r i None Hr Hs). done.
Qed.

End Reads.
