(* ===== verification/RandomAccessOpening.v ===== *)
(** * The random-access reader: opening

    The constructors authenticate the header and the final segment of a message
    whose length is given or that ends where the source does. *)

From S2P Require Import Prelude Bytes Error Parameters Provider Crypto Key Buffer Spec State StateFacts StateProperties.
From S2P Require Import StdIo Wire Online OnlineFacts OnlineMessages RandomAccessMessages RandomAccess RandomAccessFacts RandomAccessReads.
Import ParametersFacts LayoutFacts BufferFacts.

Section Opening.
Context {T : Target} {F : Features} {P : Primitives} {POk : PrimitivesOk} {B : Backend} {BOk : BackendOk}.
Context {Su : Support} {SuOk : SupportOk}.
Context {R : Type} {RR : Read R} {ROk : ReadOk R} {RS : Seek R} {SOk : SeekOk R} (fuel : nat).

(** ** The header *)

(** The parameters that a constructor was told, if any. *)
Definition allows (parameters : option Parameters.t) (p : Parameters.t) : Prop :=
  match parameters with Some q => p = q | None => True end.

Definition start (key : Key.t) (aad : bytes) (parameters : option Parameters.t) (h : Header.t) : Result DecryptionState.t :=
  match parameters with
  | Some p => start_decryption key aad p h
  | None => start_decryption_inferred key aad h
  end.

Lemma start_encodes p key aad h st :
  Header.wf h -> Spec.startDecryption (Parameters.segment_length p) key aad (Header.as_bytes h) = Some st ->
  ztake 10 (Header.as_bytes h) = Parameters.encode p.
Proof.
  intros Hh Hs. eapply started_encodes; [done|]. unfold Spec.startOnlineDecryption. by rewrite Hs.
Qed.

Definition started (key : Key.t) (aad : bytes) (parameters : option Parameters.t) (h : Header.t) (r : Result DecryptionState.t) : Prop :=
  match r with
  | Ok st => decryption_wf st /\ Parameters.valid (DecryptionState.parameters st)
      /\ allows parameters (DecryptionState.parameters st)
      /\ Spec.startDecryption (Parameters.segment_length (DecryptionState.parameters st)) (Key.as_bytes key) aad
           (Header.as_bytes h) = Some (spec_state (DecryptionState.context st))
  | Err e => Key.provider key = Err e \/ (e = CryptoFailure /\ backend_fails)
      \/ forall p, Parameters.valid p -> allows parameters p ->
           Spec.startDecryption (Parameters.segment_length p) (Key.as_bytes key) aad (Header.as_bytes h) = None
  | Halt _ => False
  end.

Lemma start_with_ok key aad p h : Parameters.valid p -> Header.wf h -> started key aad (Some p) h (start_decryption key aad p h).
Proof.
  intros Hp Hh. unfold start_decryption, started. destruct (Key_provider_cases key) as [[pr ->]| ->]; cbn [obind]; [|by left].
  pose proof (start_decryption_with_provider_ok key pr aad p h Hp Hh) as H.
  destruct (start_decryption_with_provider _ _ _ _ _) as [st|e|x]; [| |done].
  - destruct H as (Hst & -> & _ & Hs). by split_and!.
  - destruct H as [?|[Hn _]]; [by right; left|]. right; right. by intros p' _ ->.
Qed.

Lemma start_ok key aad parameters h :
  (forall p, parameters = Some p -> Parameters.valid p) -> Header.wf h -> started key aad parameters h (start key aad parameters h).
Proof.
  intros Hpar Hh. destruct parameters as [p|]; [apply start_with_ok; [by apply Hpar|done]|]. unfold start.
  assert (forall p st, Spec.startDecryption (Parameters.segment_length p) (Key.as_bytes key) aad (Header.as_bytes h) = Some st ->
            Parameters.valid p -> Parameters.decode (ztake 10 (Header.as_bytes h)) = Ok p) as Hdec.
  { intros p st Hs Hp. rewrite (start_encodes _ _ _ _ _ Hh Hs). by apply decode_encode. }
  unfold start_decryption_inferred, Header.unverified_parameters.
  destruct (header_fields (E := Error) h Hh) as (-> & _). cbn [obind].
  change (Header.as_bytes h) with (Header.header_bytes h) in *.
  destruct (Key_provider_cases key) as [[pr Hpr]|Hpr]; rewrite Hpr; cbn [obind]; [|by left].
  destruct (Parameters.decode _) as [p|e|x] eqn:Hd; cbn [obind].
  - pose proof (decode_inv _ _ Hd) as [Hp _]. pose proof (start_with_ok key aad p h Hp Hh) as H.
    unfold start_decryption in H. rewrite Hpr in H. cbn [obind] in H. unfold started in *.
    destruct (start_decryption_with_provider _ _ _ _ _) as [st|e|x]; [| |done].
    + destruct H as (? & ? & _ & ?). by split_and!.
    + destruct H as [?|[?|Hn]]; [by left|by right; left|]. right; right. intros q Hq _.
      destruct (Spec.startDecryption _ _ _ _) as [st|] eqn:Hs; [|done]. exfalso.
      specialize (Hdec q st Hs Hq). apply ok_inj in Hdec as ->. rewrite (Hn q Hp eq_refl) in Hs. done.
  - right; right. intros q Hq _. destruct (Spec.startDecryption _ _ _ _) as [st|] eqn:Hs; [|done].
    exfalso. specialize (Hdec q st Hs Hq). done.
  - pose proof (decode_returns (ztake 10 (Header.header_bytes h))) as Hret. rewrite Hd in Hret.
    exfalso. apply Hret. rewrite zlen_ztake. unfold Header.wf, Header.LEN in Hh. flia.
Qed.

(** ** The final segment *)

Section Final.
Context (l : MessageLayout.t) (c : MessageContext.t) (source : bytes) (start : Z).
Context (Hl : produced l) (Hc : MessageContext.parameters c = MessageLayout.parameters l) (Hstart : 0 <= start).

Abbreviation steady := (steady (R := R) fuel l c source start).
Abbreviation last := (MessageLayout.segment_count l - 1).

Lemma last_position : 0 <= last < MessageLayout.segment_count l.
Proof. pose proof (wf_count l (produced_wf l Hl)). lia. Qed.

Lemma last_end :
  SegmentLayout.ciphertext_offset (segment_of l last) + SegmentLayout.ciphertext_length (segment_of l last)
  = MessageLayout.ciphertext_length l.
Proof.
  pose proof last_position as Hi. destruct (wf_position l last (produced_wf l Hl) Hi) as (_ & _ & _ & H & _).
  pose proof (wf_ciphertext l (produced_wf l Hl)).
  cbn [segment_of SegmentLayout.ciphertext_offset SegmentLayout.ciphertext_length].
  replace (last + 1 =? MessageLayout.segment_count l) with true by lia. lia.
Qed.

Lemma authenticate_final_ok r :
  steady r ->
  wp (Reader.authenticate_final fuel) r (fun res r' =>
    match res with
    | Ok _ => steady r' /\ keeps r r' /\ start + MessageLayout.ciphertext_length l <= zlen source
        /\ exists pt, authentic l c source start last pt
    | Err e => segment_failure (R := R) l c source start last e
    | Halt _ => False
    end).
Proof.
  intros Hr. pose proof last_position as Hi. destruct (layout_bounds l Hl last Hi) as (Hoff & _).
  unfold Reader.authenticate_final. apply wp_bind, wp_get, wp_bind, wp_lift.
  rewrite (st_layout _ _ _ _ _ r Hr), final_segment_ok by (by apply produced_wf).
  apply wp_bind. eapply wp_mono; [by apply (load_ok fuel l c source start)|].
  intros res r1 (Hr1 & Hk1 & Hres). destruct res as [[]|e|h]; [|done..]. destruct Hres as ([Hu Hin] & Hca).
  destruct (st_cache _ _ _ _ _ r1 Hr1 _ Hca) as (_ & pt & Hpt & _).
  apply wp_bind, wp_zoom. eapply wp_mono; [apply clear_wiped|]. intros res b (-> & Hb).
  apply wp_bind, wp_modify. unfold Reader.scratch_cell. cells. set (r2 := Reader.set_cached_position None _).
  assert (steady r2) as Hr2.
  { destruct Hr1. split; cbn; try done; [by eapply wiped_wf|]. by destruct Hb as (_ & _ & ->). }
  assert (keeps r r2) as Hk2 by done. clearbody r2.
  unfold Reader.seek_to_body_start. apply wp_bind, wp_get, wp_bind, wp_lift. rewrite (st_start _ _ _ _ _ r2 Hr2).
  change HEADER_LENGTH_U64 with 74. rewrite checked_u64_some by (unfold in_u64; lia). cbn [ok_or].
  eapply wp_mono; [by apply (seek_inner_to_ok fuel l c source start); [|unfold in_u64; lia]|].
  intros res r3 (Hr3 & Hk3 & _ & Hres). destruct res as [[]|e|h]; [|by left; right; left|done].
  split; [done|]. split; [by do 2 (eapply keeps_trans; [done|])|]. split; [rewrite <- last_end; lia|]. by exists pt.
Qed.

(** [from_parts], for a length that the layout has. *)
Lemma from_parts_steady inner st h :
  contents inner = source -> enough_source fuel inner -> decryption_wf st -> DecryptionState.context st = c ->
  ciphertext_layout (MessageLayout.parameters l) (MessageLayout.ciphertext_length l) = Ok l ->
  match Reader.from_parts fuel inner st h start (MessageLayout.ciphertext_length l) with
  | Ok r => steady r /\ Reader.plaintext_position r = 0 /\ Reader.header r = h
      /\ start + MessageLayout.ciphertext_length l <= zlen source /\ (exists pt, authentic l c source start last pt)
      /\ Parameters.segment_length (MessageLayout.parameters l) <= isize_max
  | Err e => segment_failure (R := R) l c source start last e
  | Halt x => x = Panicked /\ isize_max < Parameters.segment_length (MessageLayout.parameters l)
  end.
Proof.
  intros Hcon Hfuel Hst Hcx Hlay. unfold Reader.from_parts.
  replace (DecryptionState.parameters st) with (MessageLayout.parameters l) by (unfold DecryptionState.parameters; congruence).
  rewrite Hlay. cbn [map_err obind]. pose proof (LayoutFacts.wf_valid l (produced_wf l Hl)) as Hv.
  destruct (Z.le_gt_cases (Parameters.segment_length (MessageLayout.parameters l)) isize_max) as [Hs|Hs].
  2: { rewrite new_panics by done. by split. }
  destruct (SegmentBuffer.new (E := IoError.t) (MessageLayout.parameters l)) as [b|e|x] eqn:Hb; rewrite new_ok in Hb by done;
    [|done..]. cbn [obind]. apply ok_inj in Hb. assert (wf b) as Hwb by (eapply (new_wf (E := IoError.t)); [done|by rewrite new_ok, Hb by done]).
  set (r0 := Reader.mk _ _ _ _ _ _ _ _ _).
  assert (steady r0) as Hr0.
  { split; try done. cbn. by rewrite <- Hb. }
  destruct (wp_run _ _ _ (authenticate_final_ok r0 Hr0)) as (res & r & -> & Hres).
  destruct res as [[]|e|x]; cbn [obind]; [|done..]. destruct Hres as (Hr & [Hp Hh] & Hfit & Hpt). by split_and!.
Qed.

End Final.

(** ** The constructors *)

(** The constructor for the parameters and the length that the caller has. *)
Definition open_reader (source : R) (key : Key.t) (aad : bytes) (parameters : option Parameters.t) (length : option Z)
    : IoResult (Reader.t (R := R)) :=
  match parameters, length with
  | None, None => Reader.new fuel source key aad
  | Some p, None => Reader.new_with_parameters fuel source key aad p
  | None, Some n => Reader.new_with_length fuel source key aad n
  | Some p, Some n => Reader.new_with_length_and_parameters fuel source key aad n p
  end.

(** The bytes that are taken for the message. *)
Definition message_of (source : R) (length : option Z) : bytes :=
  match length with
  | Some n => slice (contents source) (position source) (position source + n)
  | None => zdrop (position source) (contents source)
  end.

(** The source is shorter than the caller says. *)
Definition misfit (source : R) (length : option Z) : Prop :=
  exists n, length = Some n /\ (zlen (contents source) < position source + n \/ u64_max < position source + n).

Definition opening_failure (source : R) (key : Key.t) (aad : bytes) (parameters : option Parameters.t) (length : option Z)
    (e : IoError.t) : Prop :=
  read_failure e \/ seek_failure e \/ misfit source length
  \/ (exists err, e = decryption_error err /\ (Key.provider key = Err err \/ (err = CryptoFailure /\ backend_fails)))
  \/ forall p plaintext, allows parameters p -> ~ accepts_with p key aad (message_of source length) plaintext.

(** The length, once known. *)
Definition length_known (source : R) (length : option Z) (n : Z) : Prop :=
  in_u64 n /\ match length with
  | Some m => m = n
  | None => position source + n = zlen (contents source) /\ position source + n <= u64_max
  end.

Lemma read_header_contents r :
  wp (read_header fuel) r (fun _ r' => contents r' = contents r).
Proof.
  unfold read_header. apply wp_bind, wp_with_local. unfold read_fully.
  eapply wp_mono; [apply read_loop_position|]. intros [n|e|h] s [Hc _]; cbn [omap_ok]; [|done..].
  by destruct (_ =? _).
Qed.

Lemma header_of_message (source : R) length n h body :
  length_known source length n -> 0 <= position source -> 74 <= n -> zlen (Header.as_bytes h) = 74 ->
  zdrop (position source) (contents source) = Header.as_bytes h ++ body ->
  exists body', message_of source length = Header.as_bytes h ++ body'.
Proof.
  intros [_ Hn] Hp H74 Hh Hrest. destruct length as [m|]; cbn [message_of]; [|by exists body]. subst m.
  unfold slice. rewrite Hrest, ztake_app_r by lia. by eexists.
Qed.

Lemma accepted_started p key aad h body plaintext :
  Header.wf h -> accepts_with p key aad (Header.as_bytes h ++ body) plaintext ->
  Parameters.valid p /\ exists st, Spec.startDecryption (Parameters.segment_length p) (Key.as_bytes key) aad (Header.as_bytes h) = Some st.
Proof.
  intros Hh Hacc. destruct (accepts_with_unique p key aad h body plaintext Hh Hacc) as (Hv & _ & ost & Hs & _).
  split; [done|]. unfold Spec.startOnlineDecryption in Hs. destruct (Spec.startDecryption _ _ _ _) as [st|]; [by exists st|done].
Qed.

Lemma zlen_message_of source length : 0 <= position source -> zlen (message_of source length) <= zlen (zdrop (position source) (contents source)).
Proof.
  intros. destruct length; cbn [message_of]; [|done]. rewrite zlen_slice, zlen_zdrop. pose proof (zlen_nonneg (contents source)). lia.
Qed.

(** A header that does not start the decryption with any of the parameters. *)
Lemma unstarted_refused source key aad parameters length n h body plaintext p :
  length_known source length n -> 0 <= position source -> 74 <= n -> Header.wf h ->
  zdrop (position source) (contents source) = Header.as_bytes h ++ body ->
  (forall p, Parameters.valid p -> allows parameters p ->
     Spec.startDecryption (Parameters.segment_length p) (Key.as_bytes key) aad (Header.as_bytes h) = None) ->
  allows parameters p -> ~ accepts_with p key aad (message_of source length) plaintext.
Proof.
  intros Hn Hp H74 Hh Hrest Hnone Hallows Hacc.
  destruct (header_of_message source length n h body Hn Hp H74 Hh Hrest) as [body' Hm]. rewrite Hm in Hacc.
  destruct (accepted_started p key aad h body' plaintext Hh Hacc) as [Hv [st Hs]]. by rewrite (Hnone p Hv Hallows) in Hs.
Qed.

(** What is read before the reader is built. *)
Lemma open_with_ok source key aad parameters length len :
  (forall p, parameters = Some p -> Parameters.valid p) -> enough_source fuel source ->
  (forall s, same_source source s -> in_u64 (position source) ->
     74 <= zlen (zdrop (position source) (contents source)) ->
     wp (len (position source)) s (fun res s' =>
       match res with
       | Ok n => same_source s s' /\ length_known source length n /\ 74 <= n
       | Err e => seek_failure e
       | Halt _ => False
       end)) ->
  (exists n, length_known source length n /\ 74 <= n) \/ length = None ->
  wp (Reader.open_with fuel (start key aad parameters) len) source (fun res s =>
    match res with
    | Ok (message_start, h, st, n) => same_source source s /\ message_start = position source /\ in_u64 (position source)
        /\ Header.wf h /\ (exists body, zdrop (position source) (contents source) = Header.as_bytes h ++ body)
        /\ started key aad parameters h (Ok st) /\ length_known source length n /\ 74 <= n
    | Err e => opening_failure source key aad parameters length e
    | Halt _ => False
    end).
Proof.
  intros Hpar Hfuel Hlen Hex. unfold Reader.open_with. apply wp_bind. eapply wp_mono; [apply stream_position_promise|].
  intros res s1 (Hc1 & Hpat1 & Hres). assert (same_source source s1) as Hs1 by done.
  destruct res as [n|e|x]; [|by right; left|done]. destruct Hres as (-> & Hpos & Hu).
  pose proof (same_source_enough fuel _ _ Hs1 Hfuel) as Hfuel1. apply wp_bind.
  assert (wp (read_header fuel) s1 (fun res s2 => match res with
    | Ok h => Header.wf h /\ consumes s1 (Header.as_bytes h) s2
    | Err e => read_failure e \/ (zlen (remaining s1) < 74 /\ e = decryption_error (InvalidHeaderLength (zlen (remaining s1))))
    | Halt _ => False end /\ contents s2 = contents s1)) as H.
  { split; [by apply read_header_ok, enough_remaining|apply read_header_contents]. }
  eapply wp_mono; [exact H|]. clear H. rewrite remaining_contents, Hpos, Hc1. intros res s2 [Hres Hc2].
  destruct res as [h|e|x]; [| |done].
  2: { destruct Hres as [?|[Hshort _]]; [by left|]. do 4 right. intros p pt _. apply short_not_accepted.
       destruct Hu as [Hu _]. pose proof (zlen_message_of source length Hu). lia. }
  destruct Hres as [Hh [Hrest Hpat2]]. rewrite remaining_contents, Hpos, Hc1 in Hrest.
  assert (same_source s1 s2) as Hs2 by (split; [congruence|done]).
  assert (zlen (Header.as_bytes h) = 74) as H74 by done.
  assert (74 <= zlen (zdrop (position source) (contents source))) as Hrl
    by (rewrite Hrest, zlen_app; pose proof (zlen_nonneg (remaining s2)); lia).
  apply wp_bind, wp_lift. pose proof (start_ok key aad parameters h Hpar Hh) as Hstart.
  destruct (start key aad parameters h) as [st|err|x]; cbn [map_err]; [| |done].
  - apply wp_bind. eapply wp_mono; [apply Hlen; [by eapply same_source_trans|done|done]|].
    intros res s3 Hres. destruct res as [n|e|x]; [|by right; left|done]. destruct Hres as (Hs3 & Hn & Hn74).
    apply wp_ret. split; [by do 2 (eapply same_source_trans; [done|])|]. split; [done|]. split; [done|]. split; [done|].
    split; [by eexists|]. by split.
  - destruct Hstart as [Hp|[Hp|Hnone]]; [by do 3 right; left; exists err; split; [|left]|by do 3 right; left; exists err; split; [|right]|].
    do 4 right. intros p pt Hallows. destruct Hu as [Hu1 Hu2]. destruct Hex as [(n & Hn & Hn74)| ->].
    + by eapply unstarted_refused.
    + cbn [message_of]. intros Hacc. rewrite Hrest in Hacc.
      destruct (accepted_started p key aad h _ pt Hh Hacc) as [Hv [st Hs]]. by rewrite (Hnone p Hv Hallows) in Hs.
Qed.

(** A reader over a message with the layout [l] and the secrets of [c]. *)
Definition opened_reader (source : R) (key : Key.t) (aad : bytes) (parameters : option Parameters.t) (length : option Z)
    (l : MessageLayout.t) (c : MessageContext.t) (r : Reader.t (R := R)) : Prop :=
  let start := position source in
  produced l /\ MessageContext.parameters c = MessageLayout.parameters l /\ in_u64 start
  /\ allows parameters (MessageLayout.parameters l) /\ length_known source length (MessageLayout.ciphertext_length l)
  /\ start + MessageLayout.ciphertext_length l <= zlen (contents source)
  /\ message_of source length = message l (contents source) start
  /\ (exists body, Header.wf (Reader.header r) /\ message_of source length = Header.as_bytes (Reader.header r) ++ body)
  /\ Spec.startDecryption (Parameters.segment_length (MessageLayout.parameters l)) (Key.as_bytes key) aad
       (Header.as_bytes (Reader.header r)) = Some (spec_state c)
  /\ (exists pt, authentic l c (contents source) start (MessageLayout.segment_count l - 1) pt)
  /\ Parameters.segment_length (MessageLayout.parameters l) <= isize_max
  /\ steady fuel l c (contents source) start r /\ Reader.plaintext_position r = 0.

Lemma message_of_slice source length n :
  length_known source length n -> 0 <= position source -> 0 <= n -> position source + n <= zlen (contents source) ->
  message_of source length = slice (contents source) (position source) (position source + n) /\ zlen (message_of source length) = n.
Proof.
  intros [_ Hlen] Hp Hn Hfit. assert (message_of source length = slice (contents source) (position source) (position source + n)) as ->.
  { destruct length as [m|]; cbn [message_of]; [by subst m|]. destruct Hlen as [-> _]. rewrite slice_to_end by lia. done. }
  split; [done|]. rewrite zlen_slice. lia.
Qed.

(** The length fits the source, or the caller was wrong. *)
Lemma message_fits source length n :
  length_known source length n ->
  misfit source length \/ (position source + n <= u64_max /\ position source + n <= zlen (contents source)).
Proof.
  intros [Hn Hlen]. destruct length as [m|]; [|right; lia]. subst m.
  destruct (Z.le_gt_cases (position source + n) (zlen (contents source))); [|left; exists n; auto].
  destruct (Z.le_gt_cases (position source + n) u64_max); [by right|left; exists n; split; [done|by right]].
Qed.

(** Only the parameters that the header encodes can be accepted. *)
Lemma accepted_parameters p q key aad h body st plaintext :
  Parameters.valid p -> Header.wf h ->
  Spec.startDecryption (Parameters.segment_length p) (Key.as_bytes key) aad (Header.as_bytes h) = Some st ->
  accepts_with q key aad (Header.as_bytes h ++ body) plaintext -> q = p.
Proof.
  intros Hp Hh Hs Hacc. destruct (accepted_started q key aad h body plaintext Hh Hacc) as [Hq [st' Hs']].
  apply encode_inj; [done..|]. by rewrite <- (start_encodes _ _ _ _ _ Hh Hs), <- (start_encodes _ _ _ _ _ Hh Hs').
Qed.

(** A final segment that is not opened, in a message that fits the source. *)
Lemma final_failure source key aad parameters length l c h body e :
  produced l -> MessageContext.parameters c = MessageLayout.parameters l -> 0 <= position source ->
  length_known source length (MessageLayout.ciphertext_length l) -> Header.wf h ->
  message_of source length = Header.as_bytes h ++ body ->
  Spec.startDecryption (Parameters.segment_length (MessageLayout.parameters l)) (Key.as_bytes key) aad (Header.as_bytes h)
    = Some (spec_state c) ->
  segment_failure (R := R) l c (contents source) (position source) (MessageLayout.segment_count l - 1) e ->
  opening_failure source key aad parameters length e.
Proof.
  intros Hl Hc Hp Hn Hh Hm Hstart He. pose proof (produced_wf l Hl) as Hwf.
  destruct (message_fits source length _ Hn) as [Hmis|[Hend Hfit]]; [by right; right; left|].
  pose proof (last_end l Hl) as Hlast. pose proof (last_position l Hl) as Hi.
  destruct (layout_bounds l Hl _ Hi) as (? & ? & _).
  destruct (message_of_slice source length _ Hn Hp ltac:(lia) Hfit) as [Hslice Hlen].
  destruct He as [[?|[?|[[? _]|[? _]]]]|(err & -> & [Herr|Hnone])]; [by left|by right; left|lia|lia| |].
  { do 3 right; left. exists err. split; [done|]. by right. }
  do 4 right. intros q pt _ Hacc. rewrite Hm in Hacc, Hlen.
  pose proof (accepted_parameters _ q key aad h body _ pt (LayoutFacts.wf_valid l Hwf) Hh Hstart Hacc) as ->.
  apply (accepts_layout key aad h body (spec_state c) l pt Hh Hwf Hlen Hstart) in Hacc as [_ Hall].
  specialize (Hall _ Hi). unfold message in Hnone. rewrite <- Hslice, Hm in Hnone. congruence.
Qed.

(** The reader is built for the length. *)
Lemma from_parts_ok source key aad parameters length s h st n body :
  enough_source fuel source -> same_source source s -> in_u64 (position source) -> Header.wf h ->
  zdrop (position source) (contents source) = Header.as_bytes h ++ body ->
  started key aad parameters h (Ok st) -> length_known source length n -> 74 <= n ->
  match Reader.from_parts fuel s st h (position source) n with
  | Ok r => exists l c, opened_reader source key aad parameters length l c r
  | Err e => opening_failure source key aad parameters length e
  | Halt x => x = Panicked /\ exists q, Parameters.valid q /\ allows parameters q
      /\ ztake 10 (Header.as_bytes h) = Parameters.encode q /\ isize_max < Parameters.segment_length q
  end.
Proof.
  intros Hfuel Hs [Hu1 Hu2] Hh Hrest (Hst & Hv & Hallows & Hstart) Hn H74. pose proof Hn as [Hn64 _].
  assert (zlen (Header.as_bytes h) = 74) as Hh74 by done.
  destruct (header_of_message source length n h body Hn Hu1 H74 Hh74 Hrest) as [body' Hm].
  destruct (ciphertext_layout (DecryptionState.parameters st) n) as [l|e|x] eqn:Hlay.
  - pose proof Hlay as (Hwf & Hlp & Hln)%ciphertext_layout_ok; [|done|done]. subst n.
    assert (produced l) as Hl by (exists (DecryptionState.parameters st), (MessageLayout.ciphertext_length l); auto).
    rewrite <- Hlp in *. set (c := DecryptionState.context st) in *.
    pose proof (from_parts_steady l c (contents source) (position source) Hl (eq_sym Hlp) Hu1 s st h (proj1 Hs)
                  (same_source_enough fuel _ _ Hs Hfuel) Hst eq_refl Hlay) as H.
    destruct (Reader.from_parts fuel s st h (position source) _) as [r|e|x].
    + destruct H as (Hr & Hpos & Hhead & Hfit & Hpt & Hsize). exists l, c.
      destruct (message_of_slice source length _ Hn Hu1 ltac:(lia) Hfit) as [Hslice _].
      unfold opened_reader. rewrite Hhead. split_and!; try done. by exists body'.
    + by apply (final_failure source key aad parameters length l c h body').
    + destruct H as [-> Hsize]. split; [done|]. exists (MessageLayout.parameters l). split_and!; [done..|by eapply start_encodes|done].
  - unfold Reader.from_parts. rewrite Hlay. cbn [map_err obind].
    destruct (message_fits source length n Hn) as [Hmis|[Hend Hfit]]; [by right; right; left|].
    destruct (message_of_slice source length n Hn Hu1 ltac:(lia) Hfit) as [_ Hlen].
    do 4 right. intros q pt _ Hacc. pose proof Hacc as Hacc'. rewrite Hm in Hacc'.
    pose proof (accepted_parameters _ q key aad h body' _ pt Hv Hh Hstart Hacc') as ->.
    apply accepts_iff_segments in Hacc as (_ & h' & b' & st' & l & _ & _ & _ & Hwf & Hlp & Hln & _); [|unfold in_u64 in Hn64; lia].
    assert (ciphertext_layout (DecryptionState.parameters st) n = Ok l) as E
      by (apply ciphertext_layout_ok; [done|done|]; split_and!; [done|done|congruence]).
    congruence.
  - pose proof (ciphertext_layout_returns (DecryptionState.parameters st) n Hv Hn64) as H. by rewrite Hlay in H.
Qed.

(** All four constructors. *)
Definition opening (source : R) (key : Key.t) (aad : bytes) (parameters : option Parameters.t) (length : option Z)
    (r : IoResult (Reader.t (R := R))) : Prop :=
  match r with
  | Ok r => exists l c, opened_reader source key aad parameters length l c r
  | Err e => opening_failure source key aad parameters length e
  | Halt x => x = Panicked /\ exists q, Parameters.valid q /\ allows parameters q
      /\ ztake 10 (zdrop (position source) (contents source)) = Parameters.encode q /\ isize_max < Parameters.segment_length q
  end.

Lemma opened_from_ok source key aad parameters length len :
  (forall p, parameters = Some p -> Parameters.valid p) -> enough_source fuel source ->
  (forall s, same_source source s -> in_u64 (position source) ->
     74 <= zlen (zdrop (position source) (contents source)) ->
     wp (len (position source)) s (fun res s' =>
       match res with
       | Ok n => same_source s s' /\ length_known source length n /\ 74 <= n
       | Err e => seek_failure e
       | Halt _ => False
       end)) ->
  (exists n, length_known source length n /\ 74 <= n) \/ length = None ->
  opening source key aad parameters length
    (Reader.opened_from fuel (Reader.open_with fuel (start key aad parameters) len) source).
Proof.
  intros Hpar Hfuel Hlen Hex. unfold Reader.opened_from.
  destruct (wp_run _ _ _ (open_with_ok source key aad parameters length len Hpar Hfuel Hlen Hex)) as (res & s & -> & Hres).
  destruct res as [[[[m h] st] n]|e|x]; cbn [obind]; [|done..].
  destruct Hres as (Hs & -> & Hu & Hh & [body Hrest] & Hst & Hn & H74).
  pose proof (from_parts_ok source key aad parameters length s h st n body Hfuel Hs Hu Hh Hrest Hst Hn H74) as H.
  unfold opening. destruct (Reader.from_parts _ _ _ _ _ _) as [r|e|x]; [done..|].
  rewrite Hrest, ztake_app_l by (assert (zlen (Header.as_bytes h) = 74) by done; lia). exact H.
Qed.

Lemma open_reader_ok source key aad parameters length :
  (forall p, parameters = Some p -> Parameters.valid p) -> (forall n, length = Some n -> in_u64 n) ->
  enough_source fuel source ->
  opening source key aad parameters length (open_reader source key aad parameters length).
Proof.
  intros Hpar Hlen Hfuel.
  assert (open_reader source key aad parameters length =
    match length with
    | None => Reader.opened_from fuel (Reader.open_with fuel (start key aad parameters) remaining_length) source
    | Some n => let* _ := validate_header_bound n in
        Reader.opened_from fuel (Reader.open_with fuel (start key aad parameters) (fun _ => ret n)) source
    end) as -> by (by destruct parameters, length).
  destruct length as [n|].
  - unfold validate_header_bound. change HEADER_LENGTH_U64 with 74. destruct (Z.ltb_spec n 74) as [H74|H74]; cbn [obind].
    { do 4 right. intros p pt _. apply short_not_accepted. cbn [message_of]. rewrite zlen_slice. lia. }
    apply opened_from_ok; [done|done|..].
    + intros s Hs _ _. apply wp_ret. split; [apply same_source_refl|]. split; [|done]. by split; [apply Hlen|].
    + left. exists n. split; [|done]. by split; [apply Hlen|].
  - apply opened_from_ok; [done|done|..|by right]. intros s [Hs Hpat] Hu Hrest. unfold remaining_length.
    apply wp_bind. eapply wp_mono; [apply seek_promise|]. intros res s' (Hs' & Hpat' & Hres).
    destruct res as [stop|e|x]; [|done..]. destruct Hres as (Hstop & Htarget & Hstop64). cbn [SeekFrom.target] in Htarget.
    rewrite Hs in Htarget. rewrite zlen_zdrop in Hrest. destruct Hu as [Hu1 Hu2], Hstop64 as [Hs1 Hs2].
    apply wp_lift. rewrite checked_u64_some by (unfold in_u64; lia). cbn [ok_or]. split; [by split|].
    split; [|lia]. split; [unfold in_u64; lia|]. lia.
Qed.

End Opening.
