(* ===== verification/RandomAccessProperties.v ===== *)
(** * Properties of the random-access reader

    What a reader opens, and what any sequence of calls releases: the authentic
    bytes at the requested offsets, which are the plaintext of the message when
    it is accepted as a whole. *)

From stdpp Require Import strings.
From S2P Require Import Prelude Bytes Error Parameters Provider Crypto Reference Key Buffer Spec State StateFacts StateProperties.
From S2P Require Import StdIo Wire Online OnlineFacts OnlineMessages RandomAccessMessages RandomAccess RandomAccessFacts.
From S2P Require Import RandomAccessReads RandomAccessOpening.
Import ParametersFacts LayoutFacts BufferFacts.

(** ** Calls *)

Module ReaderCall.

(** With [Move] the caller moves the wrapped reader, through [get_mut]. *)
Inductive t :=
| ReadSegment (position : Z)
| ReadSegmentInto (position : Z) (output : bytes)
| ReadRange (range : RangeBounds)
| ReadRangeInto (range : RangeBounds) (output : bytes)
| Read (output : bytes)
| Seek (to : SeekFrom.t)
| StreamPosition
| Move (to : SeekFrom.t).

(** The bytes that the caller then has, or a position. *)
Inductive value :=
| Bytes (out : bytes)
| Position (n : Z).

(** Rust's types: positions and bounds are [u64], slices are not too long. *)
Definition wf {T : Target} (c : t) : Prop :=
  match c with
  | ReadSegment position => in_u64 position
  | ReadSegmentInto position output => in_u64 position /\ slice_ok output
  | ReadRange range => range_wf range
  | ReadRangeInto range output => range_wf range /\ slice_ok output
  | Read output => slice_ok output
  | Seek (SeekFrom.Start offset) => in_u64 offset
  | _ => True
  end.

Section Run.
Context {T : Target} {B : Backend} {Su : Support} {R : Type} {RR : StdIo.Read R} {RS : StdIo.Seek R} (fuel : nat).

(** A read into a buffer, and the bytes that it filled. *)
Definition filled (output : bytes) (read : IO (Reader.t (R := R) * bytes) Z) : IO (Reader.t (R := R)) value :=
  let! (n, output) := with_local output read in
  ret (Bytes (ztake n output)).

Definition perform (c : t) : IO (Reader.t (R := R)) value :=
  match c with
  | ReadSegment position => let! out := Reader.read_segment fuel position in ret (Bytes out)
  | ReadSegmentInto position output => filled output (Reader.read_segment_into fuel position)
  | ReadRange range => let! out := Reader.read_range fuel range in ret (Bytes out)
  | ReadRangeInto range output => filled output (Reader.read_range_into fuel range)
  | Read output => filled output (Reader.read fuel)
  | Seek to => let! n := Reader.seek to in ret (Position n)
  | StreamPosition => let! n := Reader.stream_position in ret (Position n)
  | Move to => let! n := Reader.get_mut (StdIo.seek to) in ret (Position n)
  end.

End Run.

End ReaderCall.

(** ** The specification of a reader *)

Section Steps.
Context {T : Target} (l : MessageLayout.t).
(** Which bytes may be given for the offsets from some offset on, and why a
    segment may fail. *)
Context (bytes_at : Z -> bytes -> Prop) (failure : Z -> IoError.t -> Prop).

(** What a call gives, and the position of [Read] after it. *)
Definition delivers (c : ReaderCall.t) (pos : Z) (v : ReaderCall.value) (pos' : Z) : Prop :=
  match c, v with
  | ReaderCall.ReadSegment i, ReaderCall.Bytes out | ReaderCall.ReadSegmentInto i _, ReaderCall.Bytes out =>
      0 <= i < MessageLayout.segment_count l /\ zlen out = length_of l i /\ bytes_at (offset_of l i) out /\ pos' = pos
  | ReaderCall.ReadRange range, ReaderCall.Bytes out | ReaderCall.ReadRangeInto range _, ReaderCall.Bytes out =>
      0 <= range_start range <= range_end l range /\ range_end l range <= MessageLayout.plaintext_length l
      /\ zlen out = range_end l range - range_start range /\ bytes_at (range_start range) out /\ pos' = pos
  | ReaderCall.Read output, ReaderCall.Bytes out =>
      zlen out <= zlen output /\ bytes_at pos out /\ pos' = pos + zlen out
      /\ (out = [] -> output = [] \/ MessageLayout.plaintext_length l <= pos)
  | ReaderCall.Seek to, ReaderCall.Position n =>
      n = SeekFrom.target to pos (MessageLayout.plaintext_length l) /\ in_u64 n /\ pos' = n
  | ReaderCall.StreamPosition, ReaderCall.Position n => n = pos /\ pos' = pos
  | ReaderCall.Move _, ReaderCall.Position _ => pos' = pos
  | _, _ => False
  end.

(** The calls that are refused for their arguments. *)
Definition refuses (c : ReaderCall.t) (pos : Z) : Prop :=
  match c with
  | ReaderCall.ReadSegment i => MessageLayout.segment_count l <= i
  | ReaderCall.ReadSegmentInto i output => MessageLayout.segment_count l <= i \/ zlen output < length_of l i
  | ReaderCall.ReadRange range =>
      ~ (range_start range <= range_end l range <= MessageLayout.plaintext_length l)
      \/ usize_max < range_end l range - range_start range
  | ReaderCall.ReadRangeInto range output =>
      ~ (range_start range <= range_end l range <= MessageLayout.plaintext_length l)
      \/ zlen output < range_end l range - range_start range
  | ReaderCall.Seek to => ~ in_u64 (SeekFrom.target to pos (MessageLayout.plaintext_length l))
  | _ => False
  end.

(** The segments that a call needs. *)
Definition touches (c : ReaderCall.t) (pos i : Z) : Prop :=
  0 <= i < MessageLayout.segment_count l /\
  match c with
  | ReaderCall.ReadSegment j | ReaderCall.ReadSegmentInto j _ => i = j
  | ReaderCall.ReadRange range | ReaderCall.ReadRangeInto range _ =>
      offset_of l i < range_end l range /\ range_start range < offset_of l i + length_of l i
  | ReaderCall.Read _ => offset_of l i <= pos < offset_of l i + length_of l i
  | _ => False
  end.

Inductive reader_step (pos : Z) : ReaderCall.t * IoResult ReaderCall.value -> Z -> Prop :=
| reader_gives c v pos' : delivers c pos v pos' -> reader_step pos (c, Ok v) pos'
| reader_refuses c e : refuses c pos -> IoError.kind e = ErrorKind.InvalidInput -> reader_step pos (c, Err e) pos
| reader_fails c i e : touches c pos i -> failure i e -> reader_step pos (c, Err e) pos
| reader_capacity range :
    isize_max < range_end l range - range_start range ->
    reader_step pos (ReaderCall.ReadRange range, Halt Panicked) pos
| reader_unmoved to e : reader_step pos (ReaderCall.Move to, Err e) pos.

End Steps.

Section Properties.
Context {T : Target} {F : Features} {P : Primitives} {POk : PrimitivesOk} {B : Backend} {BOk : BackendOk}.
Context {Su : Support} {SuOk : SupportOk}.
Context {R : Type} {RR : Read R} {ROk : ReadOk R} {RS : Seek R} {SOk : SeekOk R} (fuel : nat).

Section Calls.
Context (l : MessageLayout.t) (c : MessageContext.t) (source : bytes) (start : Z).
Context (Hl : produced l) (Hc : MessageContext.parameters c = MessageLayout.parameters l) (Hstart : 0 <= start).
Context (Hfit : start + MessageLayout.ciphertext_length l <= zlen source).
Context (Hsize : Parameters.segment_length (MessageLayout.parameters l) <= isize_max).

Abbreviation steady := (steady (R := R) fuel l c source start).
Abbreviation step := (reader_step l (released l c source start) (segment_failure (R := R) l c source start)).

(** A call on a buffer, from what it does to the reader and the buffer. *)
Lemma filled_ok (read : IO (Reader.t (R := R) * bytes) Z) call output r :
  wp read (r, output) (fun res s =>
    steady (fst s) /\ zlen (snd s) = zlen output /\
    match res with
    | Ok n => step (Reader.plaintext_position r) (call, Ok (ReaderCall.Bytes (ztake n (snd s)))) (Reader.plaintext_position (fst s))
    | Err e => step (Reader.plaintext_position r) (call, Err e) (Reader.plaintext_position (fst s))
    | Halt _ => False
    end) ->
  wp (ReaderCall.filled output read) r (fun res r' =>
    steady r' /\ step (Reader.plaintext_position r) (call, res) (Reader.plaintext_position r')).
Proof.
  intros H. unfold ReaderCall.filled. apply wp_bind, wp_with_local. eapply wp_mono; [exact H|].
  intros [n|e|h] [r' out]; cells; intros (Hr & Hl' & Hres); [by apply wp_ret|done..].
Qed.

Lemma access_call_ok call r :
  steady r -> ReaderCall.wf call ->
  wp (ReaderCall.perform fuel call) r (fun res r' =>
    steady r' /\ step (Reader.plaintext_position r) (call, res) (Reader.plaintext_position r')).
Proof.
  intros Hr Hwf. pose proof isize_le_usize as Hus.
  assert (payload (MessageLayout.parameters l) <= isize_max) as Hpay by (unfold payload; lia).
  destruct call as [i|i output|range|range output|output|to| |to]; cbn [ReaderCall.wf ReaderCall.perform] in *.
  - destruct Hwf as [Hi _]. apply wp_bind.
    eapply wp_mono; [by apply (read_segment_ok fuel l c source start)|]. intros res r' (Hr' & [Hp _] & Hres).
    destruct res as [pt|e|x]; [apply wp_ret| |done]; (split; [done|]); rewrite Hp.
    + destruct Hres as [Hlt Hpt]. constructor. split; [lia|].
      split; [by apply (authentic_length l c source start)|]. split; [by apply authentic_released|done].
    + destruct Hres as [[He Hge]|[Hlt He]]; [by constructor 2|]. by apply reader_fails with i.
  - destruct Hwf as [[Hi _] _]. apply filled_ok.
    eapply wp_mono; [by apply (read_segment_into_ok fuel l c source start)|]. intros res s (Hr' & [Hp _] & Hlen & Hres).
    split; [done|]. split; [done|]. rewrite Hp. destruct res as [n|e|x]; [| |done].
    + destruct Hres as (Hlt & -> & Hpt). constructor. split; [lia|].
      split; [by apply (authentic_length l c source start)|]. split; [by apply authentic_released|done].
    + destruct Hres as [[He Hge]|[Hlt He]]; [by constructor 2|]. by apply reader_fails with i.
  - apply wp_bind. eapply wp_mono; [by apply (read_range_ok fuel l c source start)|]. intros res r' (Hr' & [Hp _] & Hres).
    destruct res as [out|e|x]; [apply wp_ret|..]; (split; [done|]); rewrite Hp.
    + destruct Hres as (H1 & H2 & H3 & H4). by constructor.
    + destruct Hres as [[He Hge]|(i & Hi & H1 & H2 & He)]; [by constructor 2|]. by apply reader_fails with i.
    + destruct Hres as [-> ?]. by constructor.
  - destruct Hwf as [Hrange Hout]. apply filled_ok. unfold slice_ok in Hout.
    eapply wp_mono; [apply (read_range_into_ok fuel l c source start); done || lia|].
    intros res s (Hr' & [Hp _] & Hlen & Hres). split; [done|]. split; [done|]. rewrite Hp. destruct res as [n|e|x]; [| |done].
    + destruct Hres as (H1 & H2 & -> & H4 & H5). constructor. split; [done|]. split; [done|].
      split; [rewrite zlen_ztake; lia|]. by split.
    + destruct Hres as [[He Hge]|(i & Hi & H1 & H2 & He)]; [by constructor 2|]. by apply reader_fails with i.
  - apply filled_ok. eapply wp_mono; [by apply (access_read_ok fuel l c source start)|].
    intros res s (Hr' & _ & Hlen & Hres). split; [done|]. split; [done|]. destruct res as [n|e|x]; [| |done].
    + destruct Hres as (H1 & Hp & H2 & H3 & _). constructor.
      assert (zlen (ztake n (snd s)) = n) as Hn by (rewrite zlen_ztake; lia). cbn [delivers]. rewrite Hn.
      split; [lia|]. split; [done|]. split; [done|]. intros E. apply H3. rewrite <- Hn, E. done.
    + destruct Hres as [-> (i & Hi & H1 & H2 & He)]. apply reader_fails with i; [|done]. split; [done|]. cbn [touches]. lia.
  - apply wp_bind. eapply wp_mono; [apply (seek_ok fuel l c source start); [done|by destruct to]|].
    intros res r' (Hr' & _ & Hres). destruct res as [n|e|x]; [apply wp_ret| |done]; (split; [done|]).
    + destruct Hres as (-> & Hp & Hu). rewrite Hp. by constructor.
    + destruct Hres as (He & Hu & ->). by constructor 2.
  - apply wp_bind. unfold Reader.stream_position. apply wp_bind, wp_get, wp_ret, wp_ret. split; [done|]. by constructor.
  - apply wp_bind. eapply wp_mono; [apply (get_mut_ok fuel l c source start) with (Q := fun res => forall x, res <> Halt x); [done|]|].
    + eapply wp_mono; [apply (seek_promise to)|]. intros [n|e|x] i (Hc' & Hp' & H); done.
    + intros res r' (Hr' & [Hp _] & Hx). destruct res as [n|e|x]; [apply wp_ret| |by specialize (Hx x)]; (split; [done|]);
        rewrite Hp; by constructor.
Qed.

Lemma access_run_ok calls r log r' :
  steady r -> Forall ReaderCall.wf calls -> perform (ReaderCall.perform fuel) calls r = (log, r') ->
  steady r' /\ run step (Reader.plaintext_position r) log (Reader.plaintext_position r').
Proof.
  intros Hr Hcalls Hrun.
  refine (perform_run (ReaderCall.perform fuel) steady ReaderCall.wf Reader.plaintext_position step _ calls r log r' Hr Hcalls Hrun).
  intros call s Hs Hwf. by apply access_call_ok.
Qed.

End Calls.

(** *** Accepted messages *)

(** The plaintext that the message has when it is accepted. *)
Definition part_of (plaintext : bytes) (offset : Z) (out : bytes) : Prop :=
  out = slice plaintext offset (offset + zlen out).

Definition environment_failure (i : Z) (e : IoError.t) : Prop :=
  read_failure e \/ seek_failure e \/ (e = decryption_error CryptoFailure /\ backend_fails).

Lemma lookup_slice (x : bytes) a b (k : nat) :
  0 <= a -> Z.of_nat k < b - a -> slice x a b !! k = x !! Z.to_nat (a + Z.of_nat k).
Proof.
  intros. unfold slice, ztake, zdrop. rewrite lookup_take_lt by lia. rewrite lookup_drop. f_equal. lia.
Qed.

Section Accepted.
Context (l : MessageLayout.t) (c : MessageContext.t) (source : bytes) (start : Z) (plaintext : bytes).
Context (Hl : produced l) (Hfit : start + MessageLayout.ciphertext_length l <= zlen source) (Hstart : 0 <= start).
Context (Hlen : zlen plaintext = MessageLayout.plaintext_length l).
Context (Hall : forall i, 0 <= i < MessageLayout.segment_count l -> authentic l c source start i (chunk l plaintext i)).

Lemma byte_at_plaintext o b : byte_at l c source start o b -> plaintext !! Z.to_nat o = Some b.
Proof.
  intros (i & pt & Hi & Hpt & Ho & Hb). specialize (Hall i Hi). unfold authentic in *. rewrite Hpt in Hall. injection Hall as ->.
  unfold chunk, slice, ztake, zdrop in Hb. apply lookup_take_Some in Hb as [Hb _]. rewrite lookup_drop in Hb. rewrite <- Hb.
  f_equal. cbn [segment_of SegmentLayout.plaintext_offset].
  destruct (wf_position l i (produced_wf l Hl) Hi) as [[? _] _]. lia.
Qed.

Lemma released_part_of o out : 0 <= o -> released l c source start o out -> part_of plaintext o out.
Proof.
  intros Ho Hrel. apply list_eq. intros k. destruct (decide (k < length out)%nat) as [Hk|Hk].
  - apply lookup_lt_is_Some in Hk as Hb. destruct Hb as [b Hb]. rewrite Hb. rewrite lookup_slice by (unfold zlen; lia).
    symmetry. apply byte_at_plaintext. by apply Hrel.
  - rewrite !(proj2 (lookup_ge_None _ _)); [done| |lia].
    apply Nat2Z.inj_le. fold (zlen (slice plaintext o (o + zlen out))). rewrite zlen_slice. unfold zlen. lia.
Qed.

Context (Hend : start + MessageLayout.ciphertext_length l <= u64_max).

Lemma failure_environment i e :
  0 <= i < MessageLayout.segment_count l ->
  segment_failure (R := R) l c source start i e -> environment_failure i e.
Proof.
  intros Hi. destruct (layout_bounds l Hl i Hi) as (H1 & H2 & _ & _ & H3).
  intros [[?|[?|[[? _]|[? _]]]]|(err & -> & [[-> ?]|Hnone])]; [by left|by right; left|lia|lia|by right; right|].
  specialize (Hall i Hi). unfold authentic in Hall. congruence.
Qed.

Lemma step_plaintext pos entry pos' :
  0 <= pos -> reader_step l (released l c source start) (segment_failure (R := R) l c source start) pos entry pos' ->
  0 <= pos' /\ reader_step l (part_of plaintext) environment_failure pos entry pos'.
Proof.
  intros Hpos Hstep. destruct Hstep as [call v pos' Hd|call e Href Hk|call i e Ht He|range Hcap|to e].
  - assert (forall i, 0 <= i < MessageLayout.segment_count l -> 0 <= offset_of l i) as Hoff.
    { intros i Hi. destruct (wf_position l i (produced_wf l Hl) Hi) as [[? _] _]. done. }
    enough (0 <= pos' /\ delivers l (part_of plaintext) call pos v pos') as [? ?] by (split; [done|by apply reader_gives]).
    destruct call, v; cbn [delivers] in Hd |- *; try done.
    1, 2: destruct Hd as (Hi & Hn & Hrel & ->); split; [done|]; split; [done|]; split; [done|]; split; [|done];
      apply released_part_of; [by apply Hoff|done].
    1, 2: destruct Hd as (H1 & H2 & H3 & Hrel & ->); split; [done|]; split; [done|]; split; [done|]; split; [done|];
      split; [|done]; apply released_part_of; [lia|done].
    + destruct Hd as (H1 & Hrel & -> & H2). pose proof (zlen_nonneg out). split; [lia|]. split; [done|].
      split; [by apply released_part_of|done].
    + destruct Hd as (H1 & [H2 H3] & ->). by split.
    + by destruct Hd as [-> ->].
    + by subst pos'.
  - split; [done|]. by apply reader_refuses.
  - split; [done|]. apply reader_fails with i; [done|]. apply failure_environment; [apply Ht|done].
  - split; [done|]. by apply reader_capacity.
  - split; [done|]. by apply reader_unmoved.
Qed.

End Accepted.

(** A plaintext whose bytes are all released is that of the message. *)
Section Whole.
Context (l : MessageLayout.t) (c : MessageContext.t) (source : bytes) (start : Z) (out : bytes).
Context (Hl : produced l) (Hfit : start + MessageLayout.ciphertext_length l <= zlen source) (Hstart : 0 <= start).
Context (Hrel : released l c source start 0 out) (Hlen : zlen out = MessageLayout.plaintext_length l).

Abbreviation size := (payload (MessageLayout.parameters l)).

Lemma length_of_authentic i pt : 0 <= i < MessageLayout.segment_count l -> authentic l c source start i pt -> zlen pt = length_of l i /\ zlen pt <= size.
Proof.
  intros Hi Hpt. rewrite (authentic_length l c source start Hl Hstart Hfit i pt Hi Hpt). split; [done|].
  by apply length_of_bounds.
Qed.

Lemma segment_byte i o b :
  0 <= i < MessageLayout.segment_count l -> i * size <= o < i * size + size -> byte_at l c source start o b ->
  exists pt, authentic l c source start i pt /\ pt !! Z.to_nat (o - i * size) = Some b.
Proof.
  intros Hi Ho (i' & pt & Hi' & Hpt & Ho' & Hb). destruct (length_of_authentic i' pt Hi' Hpt) as [_ Hle].
  pose proof (lookup_lt_Some _ _ _ Hb) as Hlt. unfold zlen in Hle.
  assert (i' = i) as -> by nia. by exists pt.
Qed.

Lemma authentic_segment i :
  0 <= i < MessageLayout.segment_count l -> (exists pt, authentic l c source start (MessageLayout.segment_count l - 1) pt) ->
  exists pt, authentic l c source start i pt.
Proof.
  intros Hi Hlast. destruct (Z.eq_dec i (MessageLayout.segment_count l - 1)) as [->|Hn]; [done|].
  destruct (wf_position l i (produced_wf l Hl) Hi) as (H1 & _ & H3 & _). specialize (H3 ltac:(lia)).
  destruct (valid_payload _ (LayoutFacts.wf_valid l (produced_wf l Hl))) as [_ Hv].
  assert (is_Some (out !! Z.to_nat (i * size))) as [b Hb] by (apply lookup_lt_is_Some; unfold zlen in Hlen; lia).
  specialize (Hrel _ _ Hb). rewrite Z.add_0_l, Z2Nat.id in Hrel by lia.
  destruct (segment_byte i (i * size) b Hi ltac:(lia) Hrel) as (pt & Hpt & _). by exists pt.
Qed.

Lemma authentic_chunk i :
  0 <= i < MessageLayout.segment_count l -> (exists pt, authentic l c source start (MessageLayout.segment_count l - 1) pt) ->
  authentic l c source start i (chunk l out i).
Proof.
  intros Hi Hlast. destruct (authentic_segment i Hi Hlast) as [pt Hpt]. destruct (length_of_authentic i pt Hi Hpt) as [Hn Hle].
  destruct (wf_position l i (produced_wf l Hl) Hi) as (H1 & H2 & H3 & _).
  destruct (length_of_bounds l Hl i Hi) as [Hn0 Hn1].
  assert (i * size + length_of l i <= zlen out) as Hend.
  { rewrite Hlen. unfold length_of. cbn [segment_of SegmentLayout.plaintext_length].
    destruct (Z.eqb_spec (i + 1) (MessageLayout.segment_count l)); [lia|]. specialize (H3 ltac:(lia)). lia. }
  replace (chunk l out i) with pt; [done|]. symmetry. unfold chunk. fold (offset_of l i) (length_of l i).
  change (offset_of l i) with (i * size).
  assert (zlen (slice out (i * size) (i * size + length_of l i)) = zlen pt) as Hz by (rewrite zlen_slice; lia).
  apply list_eq_same_length with (length pt); [done|unfold zlen in Hz; lia|]. intros k x y Hk Hx Hy.
  unfold zlen in Hn, Hle. rewrite lookup_slice in Hx by lia. specialize (Hrel _ _ Hx). rewrite Z.add_0_l, Z2Nat.id in Hrel by lia.
  destruct (segment_byte i (i * size + Z.of_nat k) x Hi ltac:(lia) Hrel) as (pt' & Hpt' & Hb). unfold authentic in Hpt, Hpt'. rewrite Hpt in Hpt'.
  injection Hpt' as <-. replace (Z.to_nat (i * size + Z.of_nat k - i * size)) with k in Hb by lia. congruence.
Qed.

End Whole.

(** C20: opening. Whichever constructor a program uses, on any source that seeks: a
    reader is given only for a message whose header starts the decryption with
    the allowed parameters, whose length some layout has and whose final segment
    is authentic, and it reports that layout and position 0. Otherwise the source
    failed, is shorter than the given length, no provider was chosen, the backend
    failed, or no plaintext makes the bytes a message the specification accepts.
    It panics only when a segment cannot be allocated. *)
Theorem random_access_opening (source : R) (key : Key.t) (aad : bytes) (parameters : option Parameters.t) (length : option Z)
  (Hparameters : forall p, parameters = Some p -> Parameters.valid p) (Hlength : forall n, length = Some n -> in_u64 n)
  (Hfuel : enough_source fuel source) :
  let m := message_of source length in
  match open_reader fuel source key aad parameters length with
  | Ok r => exists l st body,
      allows parameters (MessageLayout.parameters l) /\ LayoutFacts.wf l
      /\ zlen m = MessageLayout.ciphertext_length l /\ m = Header.as_bytes (Reader.header r) ++ body
      /\ Spec.startDecryption (Parameters.segment_length (MessageLayout.parameters l)) (Key.as_bytes key) aad
           (Header.as_bytes (Reader.header r)) = Some st
      /\ (exists pt, opened l st m (MessageLayout.segment_count l - 1) = Some pt)
      /\ Reader.layout r = l /\ Reader.parameters r = MessageLayout.parameters l /\ Reader.plaintext_position r = 0
  | Err e =>
      read_failure e \/ seek_failure e \/ misfit source length
      \/ (exists err, e = decryption_error err /\ (Key.provider key = Err err \/ (err = CryptoFailure /\ backend_fails)))
      \/ (forall p plaintext, allows parameters p -> ~ accepts_with p key aad m plaintext)
  | Halt x => x = Panicked /\ exists q, Parameters.valid q /\ allows parameters q
      /\ ztake 10 (zdrop (position source) (contents source)) = Parameters.encode q /\ isize_max < Parameters.segment_length q
  end.
Proof.
  intros m. pose proof (open_reader_ok fuel source key aad parameters length Hparameters Hlength Hfuel) as H.
  destruct (open_reader _ _ _ _ _ _) as [r|e|x]; [|exact H..].
  destruct H as (l & c & Hl & Hc & Hu & Hallows & Hn & Hfit & Hm & (body & _ & Hbody) & Hstart & (pt & Hpt) & _ & Hr & Hpos).
  exists l, (spec_state c), body. pose proof (produced_wf l Hl) as Hwf. fold m in Hm, Hbody.
  split_and!; [done|done| |done|done| |by apply st_layout in Hr| |done].
  - rewrite Hm. apply zlen_message; [done|apply Hu|done].
  - exists pt. rewrite Hm. exact Hpt.
  - unfold Reader.parameters, DecryptionState.parameters. by rewrite (st_context _ _ _ _ _ r Hr).
Qed.

(** C19: reading. Whatever calls a program makes on an opened reader, in any order
    and with buffers of any length: they are steps of the protocol. A segment, a
    range or a read gives exactly the requested number of bytes, each of which is
    the one that its segment of the message authenticates for its offset; [Read]
    and [Seek] keep the position of an ordinary file. A call fails for its
    arguments, or because a segment that it needs cannot be fetched or
    authenticated; a failure does not spoil the calls after it, and no more does
    the program when it moves the wrapped reader in between. *)
Theorem random_access_reads (source : R) (key : Key.t) (aad : bytes) (parameters : option Parameters.t) (length : option Z)
  (r r' : Reader.t (R := R)) (calls : list ReaderCall.t) (log : list (ReaderCall.t * IoResult ReaderCall.value))
  (Hparameters : forall p, parameters = Some p -> Parameters.valid p) (Hlength : forall n, length = Some n -> in_u64 n)
  (Hfuel : enough_source fuel source) (Hopen : open_reader fuel source key aad parameters length = Ok r)
  (Hcalls : Forall ReaderCall.wf calls) (Hrun : perform (ReaderCall.perform fuel) calls r = (log, r')) :
  exists l c, opened_reader fuel source key aad parameters length l c r
  /\ contents (Reader.get_ref r') = contents source
  /\ run (reader_step l (released l c (contents source) (position source))
            (segment_failure (R := R) l c (contents source) (position source)))
       0 log (Reader.plaintext_position r').
Proof.
  pose proof (open_reader_ok fuel source key aad parameters length Hparameters Hlength Hfuel) as H. rewrite Hopen in H.
  destruct H as (l & c & H). exists l, c. split; [done|].
  destruct H as (Hl & Hc & [Hu _] & _ & _ & Hfit & _ & _ & _ & _ & Hsize & Hr & Hpos). rewrite <- Hpos.
  destruct (access_run_ok l c (contents source) (position source) Hl Hc Hu Hfit Hsize calls r log r' Hr Hcalls Hrun) as [Hr' Hsteps].
  split; [by apply st_source in Hr'|done].
Qed.

(** C18: the plaintext. On an accepted message a reader is an ordinary seekable
    file with the plaintext as contents: every segment, range and read gives the
    plaintext's bytes at its offsets, and only the environment can make a call
    with valid arguments fail. Conversely the reader needs no trust in the rest of
    the message: bytes that it releases for the whole range are a plaintext for
    which the specification accepts the message. *)
Theorem random_access_plaintext (source : R) (key : Key.t) (aad : bytes) (parameters : option Parameters.t) (length : option Z)
  (r r' : Reader.t (R := R)) (calls : list ReaderCall.t) (log : list (ReaderCall.t * IoResult ReaderCall.value))
  (Hparameters : forall p, parameters = Some p -> Parameters.valid p) (Hlength : forall n, length = Some n -> in_u64 n)
  (Hsource : zlen (contents source) <= u64_max)
  (Hfuel : enough_source fuel source) (Hopen : open_reader fuel source key aad parameters length = Ok r)
  (Hcalls : Forall ReaderCall.wf calls) (Hrun : perform (ReaderCall.perform fuel) calls r = (log, r')) :
  let m := message_of source length in
  let l := Reader.layout r in
  (forall plaintext, accepts_with (MessageLayout.parameters l) key aad m plaintext ->
     run (reader_step l (part_of plaintext) environment_failure) 0 log (Reader.plaintext_position r'))
  /\ (forall range out, In (ReaderCall.ReadRange range, Ok (ReaderCall.Bytes out)) log ->
        zlen out = MessageLayout.plaintext_length l -> accepts_with (MessageLayout.parameters l) key aad m out).
Proof.
  pose proof (open_reader_ok fuel source key aad parameters length Hparameters Hlength Hfuel) as H. rewrite Hopen in H.
  destruct H as (l' & c & Hl & Hc & [Hu _] & _ & Hn & Hfit & Hm & (body & Hh & Hbody) & Hstart & Hlast & Hsize & Hr & Hpos).
  intros m l. assert (l' = l) as -> by (symmetry; apply (st_layout _ _ _ _ _ r Hr)). clearbody l.
  destruct (access_run_ok l c (contents source) (position source) Hl Hc Hu Hfit Hsize calls r log r' Hr Hcalls Hrun) as [_ Hsteps].
  rewrite Hpos in Hsteps. pose proof (produced_wf l Hl) as Hwf.
  assert (zlen m = MessageLayout.ciphertext_length l) as Hlen by (unfold m; rewrite Hm; by apply zlen_message).
  pose proof Hlen as Hlen'. unfold m in Hlen'. rewrite Hbody in Hlen'. split.
  - intros plaintext Hacc. unfold m in Hacc. rewrite Hbody in Hacc.
    apply (accepts_layout key aad _ body (spec_state c) l plaintext Hh Hwf Hlen' Hstart) in Hacc as [Hpt Hall].
    rewrite <- Hbody, Hm in Hall. apply (run_mono _ _ (fun pos => 0 <= pos)) with (3 := Hsteps); [|done].
    intros pos entry pos' H0 Hstep.
    apply (step_plaintext l c (contents source) (position source) plaintext); done || lia.
  - intros range out Hin Hout.
    assert (released l c (contents source) (position source) 0 out) as Hrel.
    { assert (Forall (fun entry => forall range out, entry = (ReaderCall.ReadRange range, Ok (ReaderCall.Bytes out)) ->
        zlen out = MessageLayout.plaintext_length l -> released l c (contents source) (position source) 0 out) log) as Hall.
      { eapply run_forall; [|exact Hsteps]. intros pos entry pos' Hstep range' out' -> Hlen2.
        inversion Hstep as [? ? ? Hd| | | |]; subst. destruct Hd as (H1 & H2 & H3 & Hrel & _).
        by replace 0 with (range_start range') by lia. }
      rewrite List.Forall_forall in Hall. by apply (Hall _ Hin range out). }
    unfold m. rewrite Hbody. apply (accepts_layout key aad _ body (spec_state c) l out Hh Hwf Hlen' Hstart). split; [done|].
    intros i Hi. rewrite <- Hbody, Hm. by apply (authentic_chunk l c (contents source) (position source) out).
Qed.

End Properties.

(** ** Examples *)

Module ReaderExamples.

Definition aad : bytes := [byte_of_Z 9].
Definition plaintext : bytes := Reference.fill 100 100.

(** A message, and a source that holds it between other data. *)
Definition encrypted : bytes :=
  match encrypt (T := target64) (7 : Entropy) Examples.key aad Parameters.SEGMENT_64_B plaintext with
  | Ok c => c
  | _ => []
  end.

Definition source : Cursor.t := Cursor.new (zeros 3 ++ encrypted ++ zeros 5) 3.

Definition calls : list ReaderCall.t :=
  [ReaderCall.ReadSegment 1; ReaderCall.ReadSegment 4; ReaderCall.Seek (SeekFrom.End_ (-10));
   ReaderCall.Read (zeros 40); ReaderCall.Read (zeros 40); ReaderCall.StreamPosition;
   ReaderCall.ReadRangeInto (range_bounds (Bound.Included 20) (Bound.Included 70)) (zeros 60);
   ReaderCall.ReadSegmentInto 2 (zeros 31); ReaderCall.Move (SeekFrom.Start 7); ReaderCall.Seek (SeekFrom.Current (-101));
   ReaderCall.ReadRange (range_bounds Bound.Unbounded Bound.Unbounded)].

Definition result_of (entry : ReaderCall.t * IoResult ReaderCall.value) : option bytes :=
  match snd entry with
  | Ok (ReaderCall.Bytes out) => Some out
  | Ok (ReaderCall.Position n) => Some [byte_of_Z n]
  | _ => None
  end.

Lemma access_run :
  exists r log r',
    open_reader (T := target64) 400 source Examples.key aad None (Some 302) = Ok r
    /\ perform (ReaderCall.perform (T := target64) 400) calls r = (log, r')
    /\ map result_of log
       = [Some (slice plaintext 32 64); None; Some [byte_of_Z 90]; Some (slice plaintext 90 96); Some (zdrop 96 plaintext);
          Some [byte_of_Z 100]; Some (slice plaintext 20 71); None; Some [byte_of_Z 7]; None; Some plaintext].
Proof.
  assert (omap_ok (fun r => map result_of (fst (perform (ReaderCall.perform (T := target64) 400) calls r)))
    (open_reader (T := target64) 400 source Examples.key aad None (Some 302))
    = Ok [Some (slice plaintext 32 64); None; Some [byte_of_Z 90]; Some (slice plaintext 90 96); Some (zdrop 96 plaintext);
          Some [byte_of_Z 100]; Some (slice plaintext 20 71); None; Some [byte_of_Z 7]; None; Some plaintext]) as H by (by vm_compute).
  destruct (open_reader _ _ _ _ _ _) as [r|e|x]; [|discriminate H..]. cbn [omap_ok] in H. apply ok_inj in H.
  destruct (perform _ _ r) as [log r'] eqn:Hrun. by exists r, log, r'.
Qed.

Lemma no_parameters p : None = Some p -> Parameters.valid p.
Proof. done. Qed.

Lemma length_ok n : Some 302 = Some n -> in_u64 n.
Proof. intros [= <-]. unfold in_u64, u64_max. lia. Qed.

Lemma source_enough : enough_source 400 source.
Proof. unfold enough_source. change (Nat.lt (List.length (Cursor.inner source) + 0) 400). vm_compute. lia. Qed.

Lemma source_length : zlen (contents source) <= u64_max.
Proof. change (zlen (Cursor.inner source) <= u64_max). vm_compute. done. Qed.

Lemma calls_wf : Forall (ReaderCall.wf (T := target64)) calls.
Proof. repeat constructor; vm_compute; done. Qed.

End ReaderExamples.

Lemma random_access_opening_witness :
  exists r l st body,
    open_reader (T := target64) 400 ReaderExamples.source Examples.key ReaderExamples.aad None
      (Some 302) = Ok r
    /\ message_of ReaderExamples.source (Some 302) = Header.as_bytes (Reader.header r) ++ body
    /\ Reader.layout r = l
    /\ exists pt, opened l st (message_of ReaderExamples.source (Some 302))
                     (MessageLayout.segment_count l - 1) = Some pt.
Proof.
  pose proof (random_access_opening (T := target64) (B := Reference.backend) 400 ReaderExamples.source Examples.key
                ReaderExamples.aad None (Some 302) ReaderExamples.no_parameters
                ReaderExamples.length_ok ReaderExamples.source_enough) as H.
  destruct ReaderExamples.access_run as (r & log & r' & Hopen & _). cbv zeta in H. rewrite Hopen in H.
  destruct H as (l & st & body & _ & _ & _ & Hm & _ & Hfinal & Hlay & _). exists r, l, st, body.
  split; [exact Hopen|]. split; [exact Hm|]. split; [exact Hlay|exact Hfinal].
Defined.

Lemma random_access_reads_witness :
  exists r l c log r',
    open_reader (T := target64) 400 ReaderExamples.source Examples.key ReaderExamples.aad None
      (Some 302) = Ok r
    /\ perform (ReaderCall.perform (T := target64) 400) ReaderExamples.calls r = (log, r')
    /\ run (reader_step (T := target64) l (released l c (contents ReaderExamples.source) (position ReaderExamples.source))
              (segment_failure (R := Cursor.t) l c (contents ReaderExamples.source) (position ReaderExamples.source)))
         0 log (Reader.plaintext_position r').
Proof.
  destruct ReaderExamples.access_run as (r & log & r' & Hopen & Hrun & _).
  destruct (random_access_reads (T := target64) (B := Reference.backend) 400 ReaderExamples.source Examples.key
              ReaderExamples.aad None (Some 302) r r' ReaderExamples.calls log
              ReaderExamples.no_parameters ReaderExamples.length_ok ReaderExamples.source_enough Hopen
              ReaderExamples.calls_wf Hrun) as (l & c & _ & _ & H).
  exists r, l, c, log, r'. split; [exact Hopen|]. split; [exact Hrun|exact H].
Defined.

Lemma random_access_plaintext_witness :
  exists r log r',
    open_reader (T := target64) 400 ReaderExamples.source Examples.key ReaderExamples.aad None
      (Some 302) = Ok r
    /\ perform (ReaderCall.perform (T := target64) 400) ReaderExamples.calls r = (log, r')
    /\ forall plaintext,
         accepts_with (MessageLayout.parameters (Reader.layout r)) Examples.key ReaderExamples.aad
           (message_of ReaderExamples.source (Some 302)) plaintext ->
         run (reader_step (T := target64) (Reader.layout r) (part_of plaintext) (environment_failure (R := Cursor.t)))
           0 log (Reader.plaintext_position r').
Proof.
  destruct ReaderExamples.access_run as (r & log & r' & Hopen & Hrun & _).
  destruct (random_access_plaintext (T := target64) (B := Reference.backend) 400 ReaderExamples.source Examples.key
              ReaderExamples.aad None (Some 302) r r' ReaderExamples.calls log
              ReaderExamples.no_parameters ReaderExamples.length_ok ReaderExamples.source_length
              ReaderExamples.source_enough Hopen ReaderExamples.calls_wf Hrun) as [H _].
  exists r, log, r'. split; [exact Hopen|]. split; [exact Hrun|exact H].
Defined.
