(* ===== verification/StreamFacts.v ===== *)
(** * Messages that grow segment by segment

    The adapters of [src/io.rs] hold an encryptor or a decryptor and handle one
    segment after the other. [sealed_run] and [decryptAll] describe what they
    have handled so far; a run that is closed by the final segment is a message. *)

From S2P Require Import Prelude Bytes Error Parameters Provider Crypto Key Buffer Spec State StateFacts StateProperties.
From S2P Require Import StdIo Wire Online OnlineFacts OnlineMessages.
Import ParametersFacts.

Section Runs.
Context {P : Primitives} {POk : PrimitivesOk}.

(** Non-final segments encrypted so far: nonces, chunks, segments and state. *)
Inductive sealed_run (params : Z) (start : Spec.OnlineState)
    : list bytes -> list bytes -> list bytes -> Spec.OnlineState -> Prop :=
| sealed_none : sealed_run params start [] [] [] start
| sealed_more nonces chunks segments st nonce chunk segment st' :
    sealed_run params start nonces chunks segments st -> zlen nonce = 12 ->
    Spec.encryptOnlineSegment params st nonce chunk = Some (st', segment) ->
    sealed_run params start (nonces ++ [nonce]) (chunks ++ [chunk]) (segments ++ [segment]) st'.

Lemma sealed_run_nonces params start nonces chunks segments st :
  sealed_run params start nonces chunks segments st -> Forall (fun nonce => zlen nonce = 12) nonces.
Proof. induction 1; [done|]. apply Forall_app. split; [done|by constructor]. Qed.

(** What follows a run continues the encryption. *)
Lemma sealed_run_continue params start nonces chunks segments st :
  sealed_run params start nonces chunks segments st ->
  forall nonces' chunks' st' segments', chunks' <> [] ->
    encryptAll params st nonces' chunks' = Some (st', segments') ->
    encryptAll params start (nonces ++ nonces') (chunks ++ chunks') = Some (st', segments ++ segments').
Proof.
  induction 1 as [|nonces chunks segments st nonce chunk segment st1 Hrun IH Hn Henc];
    intros nonces' chunks' st' segments' Hne Hall; [done|].
  rewrite <- !app_assoc. apply IH; [done|]. cbn [app]. by eapply encryptAll_cons.
Qed.

Lemma sealed_run_last params start nonces chunks segments st nonce chunk st' segment :
  sealed_run params start nonces chunks segments st ->
  Spec.encryptLastSegment params st nonce chunk = Some (st', segment) ->
  encryptAll params start (nonces ++ [nonce]) (chunks ++ [chunk]) = Some (st', segments ++ [segment]).
Proof. intros Hrun Hlast. eapply sealed_run_continue; [done..|]. by apply encryptAll_last. Qed.

Lemma decryptAll_app params segs1 : forall st st1 pt1 segs2 st2 pt2,
  decryptAll params st segs1 = Some (st1, pt1) -> decryptAll params st1 segs2 = Some (st2, pt2) ->
  decryptAll params st (segs1 ++ segs2) = Some (st2, pt1 ++ pt2).
Proof.
  induction segs1 as [|seg segs1 IH]; intros st st1 pt1 segs2 st2 pt2 H1 H2; cbn [decryptAll app] in *.
  { by injection H1 as -> <-. }
  destruct (Spec.decryptAnyOnlineSegment _ _ _) as [[st' pt]|] eqn:E; [|done]. cbn in *.
  destruct (decryptAll params st' segs1) as [[st'' rest]|] eqn:E2; [|done]. cbn in H1. injection H1 as <- <-.
  rewrite (IH _ _ _ _ _ _ E2 H2). cbn. by rewrite <- app_assoc.
Qed.

Lemma decryptAll_one params st segment st' pt :
  Spec.decryptAnyOnlineSegment params st segment = Some (st', pt) ->
  decryptAll params st [segment] = Some (st', pt).
Proof. intros H. cbn [decryptAll]. rewrite H. cbn. by rewrite app_nil_r. Qed.

Lemma decryptAll_snoc params st segs st1 pt1 segment st2 pt2 :
  decryptAll params st segs = Some (st1, pt1) ->
  Spec.decryptAnyOnlineSegment params st1 segment = Some (st2, pt2) ->
  decryptAll params st (segs ++ [segment]) = Some (st2, pt1 ++ pt2).
Proof. intros H1 H2. eapply decryptAll_app; [done|]. by apply decryptAll_one. Qed.

End Runs.

Section Messages.
Context {T : Target} {F : Features} {P : Primitives} {POk : PrimitivesOk} {B : Backend} {BOk : BackendOk}.
Context {Su : Support} {SuOk : SupportOk}.

(** A new encryptor's header and the segments of an encryption under it are a
    message that is accepted. *)
Lemma new_message_accepted entropy key key' aad p e nonces chunks st segments :
  Parameters.valid p -> Encryptor.new entropy key aad p = Ok e ->
  Key.as_bytes key' = Key.as_bytes key -> Forall (fun nonce => zlen nonce = 12) nonces ->
  encryptAll (Parameters.segment_length p) (online_encryptor e) nonces chunks = Some (st, segments) ->
  accepts_with p key' aad (Header.as_bytes (Encryptor.header e) ++ concat segments) (concat chunks).
Proof.
  intros Hp Hnew Hkey Hns Hall. pose proof (encryptor_new_ok entropy key aad p Hp) as Hn. rewrite Hnew in Hn.
  destruct Hn as (He & Hcnt & Hpar & _ & rng & iv & _ & Hiv & _ & Hstart).
  assert (32 <= Parameters.segment_length p < u32_max) as Hr by (destruct (valid_payload _ Hp); flia).
  destruct (decryptAll_encryptAll _ _ _ _ _ _ Hr Hns Hall) as [Hd Hclosed].
  exists (Encryptor.header e), (concat segments), (online_encryptor e).
  split_and!; [done|apply He|done| |by exists segments, st].
  unfold Spec.startOnlineEncryption in Hstart. destruct (Spec.startEncryption _ _ _ _) as [base hdr] eqn:Hbase.
  apply pair_eq in Hstart as [Hon <-]. rewrite <- Hon, Hkey.
  unfold Spec.startOnlineDecryption. by rewrite (spec_start_roundtrip _ _ _ _ _ _ Hiv Hbase).
Qed.

(** *** An encryptor in use *)

(** The encryptor [e0], after it sealed these chunks as these segments. *)
Definition streaming (p : Parameters.t) (e0 e : Encryptor.t) (chunks segments : list bytes) : Prop :=
  continues e0 e /\ Encryptor.parameters e = p /\ SegmentCounter.closed (Encryptor.counter e) = false
  /\ exists nonces, sealed_run (Parameters.segment_length p) (online_encryptor e0) nonces chunks segments (online_encryptor e).

(** The chunks and segments of a complete message of [e0]. *)
Definition completed (p : Parameters.t) (e0 : Encryptor.t) (chunks segments : list bytes) : Prop :=
  exists nonces st, Forall (fun nonce => zlen nonce = 12) nonces
    /\ encryptAll (Parameters.segment_length p) (online_encryptor e0) nonces chunks = Some (st, segments).

Lemma streaming_start p e0 :
  encryptor_wf e0 -> Encryptor.parameters e0 = p -> Encryptor.counter e0 = SegmentCounter.new ->
  streaming p e0 e0 [] [].
Proof. intros He Hp Hc. split_and!; [done|done|by rewrite Hc|]. exists []. constructor. Qed.

Lemma streaming_params p e0 e chunks segments :
  streaming p e0 e chunks segments -> encryptor_wf e /\ encryptor_params e = Parameters.segment_length p.
Proof. intros ([He _] & Hp & _). split; [done|]. unfold encryptor_params, enc_seg_len, encryptor_context. by rewrite <- Hp. Qed.

Lemma streaming_next p e0 e e' chunks segments chunk room segment :
  streaming p e0 e chunks segments -> non_final_result e chunk room e' (Ok segment) ->
  streaming p e0 e' (chunks ++ [chunk]) (segments ++ [segment]) /\ zlen segment = zlen chunk + 32.
Proof.
  intros Hs [(He' & Hctx & Hh) (_ & Hlen & nonce & Hn & _ & Hspec)].
  pose proof (streaming_params _ _ _ _ _ Hs) as [_ Hpp]. destruct Hs as ((He & Hctx0 & Hh0) & Hp & Hopen & nonces & Hrun).
  split; [|done]. split_and!.
  - split_and!; [done|congruence..].
  - unfold Encryptor.parameters, EncryptionState.parameters, encryptor_context in *. by rewrite Hctx.
  - apply encryptOnline_some in Hspec as (_ & _ & _ & Hst). apply (f_equal Spec.Closed) in Hst. exact Hst.
  - exists (nonces ++ [nonce]). econstructor; [done..|]. by rewrite <- Hpp.
Qed.

Lemma streaming_last p e0 e chunks segments chunk room segment :
  streaming p e0 e chunks segments -> final_result e chunk room (Ok segment) ->
  completed p e0 (chunks ++ [chunk]) (segments ++ [segment]) /\ zlen segment = zlen chunk + 32.
Proof.
  intros Hs (Hlen & nonce & g' & Hn & _ & Hspec).
  pose proof (streaming_params _ _ _ _ _ Hs) as [_ Hpp]. destruct Hs as (_ & _ & _ & nonces & Hrun).
  split; [|done]. exists (nonces ++ [nonce]). eexists. split.
  - apply Forall_app. split; [by eapply sealed_run_nonces|by constructor].
  - eapply sealed_run_last; [done|]. rewrite <- Hpp. exact Hspec.
Qed.

(** Refusals of an encryptor whose input has the right length. *)
Lemma streaming_refused p e0 e chunks segments n kind room err :
  streaming p e0 e chunks segments ->
  segment_fits (Parameters.segment_length p) (SegmentKind.is_final kind) n -> n + 32 <= room ->
  CounterFacts.refused (Encryptor.counter e) kind err
  \/ encrypt_error (encryptor_context e) n (SegmentCounter.next (Encryptor.counter e)) kind room err ->
  err = SegmentLimit \/ ((err = RngFailure \/ err = CryptoFailure) /\ backend_fails).
Proof.
  intros Hs Hfit Hroom H. pose proof (streaming_params _ _ _ _ _ Hs) as [_ Hpp].
  destruct Hs as (_ & Hp & Hopen & _). unfold encryptor_params in Hpp.
  assert (plaintext_fits (encryptor_context e) kind n) as Hfit' by (unfold plaintext_fits; by rewrite Hpp).
  destruct H as [[[_ Hc]|(-> & _)]|H]; [congruence|by left|].
  destruct err; simpl in H; try done; [tauto|by left|lia|tauto|tauto].
Qed.

Lemma completed_accepted entropy key key' aad p e0 chunks segments :
  Parameters.valid p -> Encryptor.new entropy key aad p = Ok e0 -> Key.as_bytes key' = Key.as_bytes key ->
  completed p e0 chunks segments ->
  accepts_with p key' aad (Header.as_bytes (Encryptor.header e0) ++ concat segments) (concat chunks).
Proof. intros Hp Hnew Hkey (nonces & st & Hns & Hall). by eapply new_message_accepted. Qed.

(** *** The adapters' calls of an encryptor *)

(** The errors of the crate that a call on an input of the right length gives. *)
Definition stream_refusal (e : IoError.t) : Prop :=
  exists err, e = encryption_error err
    /\ (err = SegmentLimit \/ ((err = RngFailure \/ err = CryptoFailure) /\ backend_fails)).

Definition full_error (error : FinalEncryptError.t) : IoError.t :=
  encryption_error (FinalEncryptError.into_error error).

(** A call gives the next segment of the stream, or is refused. *)
Definition seals p e0 chunks segments chunk (e' : Encryptor.t) (segment : bytes) : Prop :=
  streaming p e0 e' (chunks ++ [chunk]) (segments ++ [segment]) /\ zlen segment = zlen chunk + 32.

Definition seals_last p e0 chunks segments chunk (segment : bytes) : Prop :=
  completed p e0 (chunks ++ [chunk]) (segments ++ [segment]) /\ zlen segment = zlen chunk + 32.

(** The buffer then holds the segment. *)
Definition holds (p : Parameters.t) (b : SegmentBuffer.t) (segment : bytes) : Prop :=
  BufferFacts.wf b /\ SegmentBuffer.parameters b = p /\ SegmentBuffer.ciphertext b = Ok segment.

Section Calls.
Context (p : Parameters.t) (e0 e : Encryptor.t) (chunks segments : list bytes).
Context (Hs : streaming p e0 e chunks segments).

Lemma stream_into_ok chunk out :
  zlen chunk = payload p -> Parameters.segment_length p <= zlen out ->
  wp (map_errM encryption_error (Encryptor.encrypt_non_final_segment_into chunk)) (e, out) (fun r s =>
    zlen (snd s) = zlen out /\
    match r with
    | Ok n => exists segment, n = zlen segment /\ n <= zlen out /\ snd s = splice out 0 segment
        /\ seals p e0 chunks segments chunk (fst s) segment
    | Err err => stream_refusal err
    | Halt _ => False
    end).
Proof.
  intros Hlen Hroom. pose proof (streaming_params _ _ _ _ _ Hs) as [He _]. apply wp_map_err.
  eapply wp_mono; [by apply encrypt_non_final_segment_into_ok|].
  intros r [e' out']. cells. intros [Hl Hr]. split; [done|]. destruct r as [n|err|h]; cbn [map_err]; [| |done].
  - destruct Hr as (Hn & segment & -> & -> & Hres). exists segment. split_and!; [done..|].
    by eapply streaming_next.
  - exists err. split; [done|]. eapply (streaming_refused p e0 e chunks segments (zlen chunk) SegmentKind.NonFinal); [done| | |].
    3: { destruct Hr as (_ & _ & [Hr|[_ Hr]]); [by left|right; exact Hr]. }
    + unfold segment_fits, payload in *. cbn. lia.
    + unfold payload in *. lia.
Qed.

Lemma stream_last_into_ok chunk out :
  zlen chunk <= payload p -> Parameters.segment_length p <= zlen out ->
  wp (map_errM full_error (Finalize.encrypt_final_segment_into e chunk)) out (fun r out' =>
    zlen out' = zlen out /\
    match r with
    | Ok n => exists segment, n = zlen segment /\ n <= zlen out /\ out' = splice out 0 segment
        /\ seals_last p e0 chunks segments chunk segment
    | Err err => stream_refusal err
    | Halt _ => False
    end).
Proof.
  intros Hlen Hroom. pose proof (streaming_params _ _ _ _ _ Hs) as [He _]. apply wp_map_err.
  eapply wp_mono; [by apply encrypt_final_segment_into_ok|].
  intros r out' [Hl Hr]. split; [done|]. destruct r as [n|f|h]; cbn [map_err]; [| |done].
  - destruct Hr as (Hn & segment & -> & -> & Hres). exists segment. split_and!; [done..|].
    by eapply streaming_last.
  - exists (FinalEncryptError.error f). split; [done|].
    eapply (streaming_refused p e0 e chunks segments (zlen chunk) SegmentKind.Final); [done| | |].
    3: { destruct Hr as (_ & _ & [Hr|Hr]); [by left|right; exact Hr]. }
    + unfold segment_fits, payload in *. cbn. lia.
    + unfold payload in *. lia.
Qed.

Lemma stream_in_place_ok b n :
  BufferFacts.wf b -> SegmentBuffer.parameters b = p -> SegmentBuffer.state b = BufferState.Plaintext n ->
  zlen (BufferFacts.payload_of b) = payload p ->
  wp (map_errM encryption_error Encryptor.encrypt_non_final_segment_in_place) (e, b) (fun r s =>
    match r with
    | Ok segment => holds p (snd s) segment /\ seals p e0 chunks segments (BufferFacts.payload_of b) (fst s) segment
    | Err err => stream_refusal err
    | Halt _ => False
    end).
Proof.
  intros Hb Hp Hn Hlen. pose proof (streaming_params _ _ _ _ _ Hs) as [He _]. pose proof (proj1 (proj2 Hs)) as Hep.
  apply wp_map_err. eapply wp_mono; [apply (encrypt_non_final_segment_in_place_ok e b n); [done..|congruence|done]|].
  intros r [e' b']. cells. intros (Hb' & Hp' & Hres & Hr). destruct r as [segment|err|h]; cbn [map_err]; [| |by destruct Hres].
  - split; [unfold holds; split_and!; [done|congruence|done]|]. by eapply streaming_next.
  - exists err. split; [done|].
    eapply (streaming_refused p e0 e chunks segments (zlen (BufferFacts.payload_of b)) SegmentKind.NonFinal); [done| | |].
    3: { destruct Hres as (_ & _ & [Hres|[_ Hres]]); [by left|right; exact Hres]. }
    + unfold segment_fits, payload in *. cbn. lia.
    + rewrite (BufferFacts.wf_storage _ Hb), Hp. unfold payload in *. lia.
Qed.

Lemma stream_last_in_place_ok b n :
  BufferFacts.wf b -> SegmentBuffer.parameters b = p -> SegmentBuffer.state b = BufferState.Plaintext n ->
  wp (map_errM full_error (Finalize.encrypt_final_segment_in_place e)) b (fun r b' =>
    match r with
    | Ok segment => holds p b' segment /\ seals_last p e0 chunks segments (BufferFacts.payload_of b) segment
    | Err err => stream_refusal err
    | Halt _ => False
    end).
Proof.
  intros Hb Hp Hn. pose proof (streaming_params _ _ _ _ _ Hs) as [He _]. pose proof (proj1 (proj2 Hs)) as Hep.
  destruct (BufferFacts.zlen_payload_of b Hb) as [_ Hpl]. rewrite Hp in Hpl.
  apply wp_map_err. eapply wp_mono; [apply (encrypt_final_segment_in_place_ok e b n); [done..|congruence|done]|].
  intros r b' (Hb' & Hp' & Hres & Hr). destruct r as [segment|f|h]; cbn [map_err]; [| |by destruct Hres].
  - split; [unfold holds; split_and!; [done|congruence|done]|]. by eapply streaming_last.
  - exists (FinalEncryptError.error f). split; [done|].
    eapply (streaming_refused p e0 e chunks segments (zlen (BufferFacts.payload_of b)) SegmentKind.Final); [done| | |].
    3: { destruct Hres as (_ & _ & [Hres|Hres]); [by left|right; exact Hres]. }
    + unfold segment_fits, payload in *. cbn. lia.
    + rewrite (BufferFacts.wf_storage _ Hb), Hp. unfold payload in *. lia.
Qed.

End Calls.

End Messages.
