(* ===== verification/OnlineRuns.v ===== *)
(** * Sequences of online calls

    A program that encrypts or decrypts a stream calls the methods of
    [Encryptor] and [Decryptor] one after the other, mixing the allocating, the
    caller-buffer and the in-place ones, and goes on after an error. The step
    relations say what the specification allows such a program to observe; the
    simulations are proved here and used in [OnlineProperties.v]. *)

From S2P Require Import Prelude Bytes Error Parameters Provider Crypto Key Buffer Spec State StateFacts StateProperties.
From S2P Require Import Wire Online OnlineFacts OnlineMessages.
Import ParametersFacts LayoutFacts BufferFacts.

(** ** Calls of an encryptor *)

Module EncryptCall.

(** The three methods for a segment that is not the last, with what the caller
    passes. *)
Inductive t :=
| Allocating (plaintext : bytes)
| Into (plaintext output : bytes)
| InPlace (buffer : SegmentBuffer.t).

Definition plaintext (c : t) : bytes :=
  match c with
  | Allocating plaintext | Into plaintext _ => plaintext
  | InPlace buffer => payload_of buffer
  end.

Definition room (c : t) : Z :=
  match c with
  | Allocating plaintext => zlen plaintext + 32
  | Into _ output => zlen output
  | InPlace buffer => zlen (SegmentBuffer.storage buffer)
  end.

Section Run.
Context {T : Target} {F : Features} {B : Backend} {Su : Support}.

(** What can be passed: allocations of a size that exists, and buffers for the
    encryptor's parameters that hold a plaintext. *)
Definition wf (p : Parameters.t) (c : t) : Prop :=
  match c with
  | Allocating plaintext => zlen plaintext + 32 <= isize_max
  | Into _ _ => True
  | InPlace buffer => BufferFacts.wf buffer /\ SegmentBuffer.parameters buffer = p
      /\ exists n, SegmentBuffer.state buffer = BufferState.Plaintext n
  end.

(** The call, and the segment that the caller then has. *)
Definition perform (c : t) : M Error Encryptor.t bytes :=
  match c with
  | Allocating plaintext => Encryptor.encrypt_non_final_segment plaintext
  | Into plaintext output => fun e =>
      let (r, s) := Encryptor.encrypt_non_final_segment_into plaintext (e, output) in
      (omap_ok (fun written => ztake written (snd s)) r, fst s)
  | InPlace buffer => fun e =>
      let (r, s) := Encryptor.encrypt_non_final_segment_in_place (e, buffer) in (r, fst s)
  end.

(** The same three ways for the last segment. *)
Definition perform_final (e : Encryptor.t) (c : t) : outcome FinalEncryptError.t bytes :=
  match c with
  | Allocating plaintext => Finalize.encrypt_final_segment e plaintext
  | Into plaintext output =>
      let (r, output') := Finalize.encrypt_final_segment_into e plaintext output in
      omap_ok (fun written => ztake written output') r
  | InPlace buffer => fst (Finalize.encrypt_final_segment_in_place e buffer)
  end.

End Run.
End EncryptCall.

Section EncryptRuns.
Context {T : Target} {F : Features} {P : Primitives} {POk : PrimitivesOk} {B : Backend} {BOk : BackendOk}.
Context {Su : Support} {SuOk : SupportOk}.

(** Why a call for a segment of the given kind is refused. *)
Definition encrypt_refusal (params : Z) (st : Spec.OnlineState) (is_final : bool) (c : EncryptCall.t) (e : Error)
    : Prop :=
  let n := zlen (EncryptCall.plaintext c) in
  match e with
  | Closed => Spec.Closed st = true
  | SegmentLimit => is_final = false /\ Spec.Closed st = false /\ Spec.Counter st = Spec.AEAD_MAX_SEGMENTS - 1
  | InvalidPlaintextLength actual required =>
      ~ segment_fits params is_final n /\ actual = n
      /\ required = (if is_final then AtMost else Exactly) (params - 32)
  | OutputTooSmall actual required =>
      EncryptCall.room c < n + 32 /\ actual = EncryptCall.room c /\ required = n + 32
  | RngFailure | CryptoFailure => backend_fails
  | _ => False
  end.

(** One call: the specification's next segment under a fresh nonce, or an error
    and the same state. *)
Inductive encrypt_step (params : Z) : Spec.OnlineState -> EncryptCall.t * Result bytes -> Spec.OnlineState -> Prop :=
| encrypted st c nonce segment st' :
    zlen nonce = 12 ->
    Spec.encryptOnlineSegment params st nonce (EncryptCall.plaintext c) = Some (st', segment) ->
    encrypt_step params st (c, Ok segment) st'
| refused st c e : encrypt_refusal params st false c e -> encrypt_step params st (c, Err e) st.

(** What the calls of a log produced. *)
Definition produced {C} (bytes_of : C -> bytes) (log : list (C * Result bytes)) : list (bytes * bytes) :=
  omap (fun entry => match snd entry with Ok result => Some (bytes_of (fst entry), result) | _ => None end) log.

Lemma same_online e e' :
  encryptor_context e' = encryptor_context e -> Encryptor.counter e' = Encryptor.counter e ->
  online_encryptor e' = online_encryptor e.
Proof. unfold online_encryptor. by intros -> ->. Qed.

Lemma encrypt_error_refusal e c kind err :
  encryptor_wf e ->
  CounterFacts.refused (Encryptor.counter e) kind err
  \/ encrypt_error (encryptor_context e) (zlen (EncryptCall.plaintext c))
       (SegmentCounter.next (Encryptor.counter e)) kind (EncryptCall.room c) err ->
  encrypt_refusal (encryptor_params e) (online_encryptor e) (SegmentKind.is_final kind) c err.
Proof.
  intros (_ & Hk & _) [[[-> H]|(-> & H1 & -> & H2)]|H]; [done|done|].
  unfold CounterFacts.wf in Hk. destruct err; simpl in *; try done; [lia|naive_solver..].
Qed.

(** The result of a call is a step. *)
Lemma non_final_step e c e' r :
  encryptor_wf e -> non_final_result e (EncryptCall.plaintext c) (EncryptCall.room c) e' r ->
  encrypt_step (encryptor_params e) (online_encryptor e) (c, r) (online_encryptor e').
Proof.
  intros He [(_ & Hctx & _) Hr]. destruct r as [segment|err|h]; [| |done].
  - destruct Hr as (_ & _ & nonce & Hn & _ & Hspec). by econstructor.
  - destruct Hr as [Hcnt Hr]. rewrite (same_online e e') by done. constructor.
    apply (encrypt_error_refusal e c SegmentKind.NonFinal); [done|]. tauto.
Qed.

Lemma encrypt_call_ok e c :
  encryptor_wf e -> EncryptCall.wf (Encryptor.parameters e) c ->
  wp (EncryptCall.perform c) e (fun r e' =>
    non_final_result e (EncryptCall.plaintext c) (EncryptCall.room c) e' r).
Proof.
  intros He Hc. destruct c as [plaintext|plaintext output|buffer]; simpl in *.
  - by apply encrypt_non_final_segment_ok.
  - pose proof (encrypt_non_final_segment_into_ok e plaintext output He) as H. unfold wp in *.
    destruct (Encryptor.encrypt_non_final_segment_into _ _) as [r s]. revert H. cells. intros [Hl Hr].
    destruct r as [n|err|h]; simpl; [|done..]. destruct Hr as (Hn & segment & -> & -> & Hr).
    by rewrite <- slice_0, slice_splice_same by lia.
  - destruct Hc as (Hb & Hp & n & Hn).
    pose proof (encrypt_non_final_segment_in_place_ok e buffer n He Hb Hp Hn) as H. unfold wp in *.
    destruct (Encryptor.encrypt_non_final_segment_in_place _) as [r s]. revert H. cells. tauto.
Qed.

Lemma encrypt_final_call_ok e c :
  encryptor_wf e -> EncryptCall.wf (Encryptor.parameters e) c ->
  final_result e (EncryptCall.plaintext c) (EncryptCall.room c) (EncryptCall.perform_final e c).
Proof.
  intros He Hc. destruct c as [plaintext|plaintext output|buffer]; simpl in *.
  - by apply encrypt_final_segment_ok.
  - pose proof (encrypt_final_segment_into_ok e plaintext output He) as H. unfold wp in *.
    destruct (Finalize.encrypt_final_segment_into _ _ _) as [r out]. revert H. cells. intros [Hl Hr].
    destruct r as [n|err|h]; simpl; [|done..]. destruct Hr as (Hn & segment & -> & -> & Hr).
    by rewrite <- slice_0, slice_splice_same by lia.
  - destruct Hc as (Hb & Hp & n & Hn).
    pose proof (encrypt_final_segment_in_place_ok e buffer n He Hb Hp Hn) as H. unfold wp in *.
    destruct (Finalize.encrypt_final_segment_in_place _ _) as [r s]. revert H. cells. tauto.
Qed.

(** Any number of calls. *)
Lemma encrypt_calls_ok e calls log e' :
  encryptor_wf e -> Forall (EncryptCall.wf (Encryptor.parameters e)) calls ->
  perform EncryptCall.perform calls e = (log, e') ->
  continues e e' /\ run (encrypt_step (encryptor_params e)) (online_encryptor e) log (online_encryptor e').
Proof.
  intros He Hcalls H.
  apply (perform_run EncryptCall.perform (continues e) (EncryptCall.wf (Encryptor.parameters e)) online_encryptor
           (encrypt_step (encryptor_params e))) with (calls := calls); try done.
  intros c e1 (He1 & Hctx1 & Hh1) Hc. assert (Encryptor.parameters e1 = Encryptor.parameters e) as Hp.
  { unfold Encryptor.parameters, EncryptionState.parameters, encryptor_context in *. by rewrite Hctx1. }
  rewrite <- Hp in Hc. eapply wp_mono; [by apply encrypt_call_ok|]. intros r e2 Hr.
  pose proof Hr as [(He2 & Hctx2 & Hh2) _]. split; [refine (conj He2 (conj _ _)); congruence|].
  apply non_final_step in Hr; [|done]. by replace (encryptor_params e) with (encryptor_params e1) by (unfold encryptor_params; congruence).
Qed.

(** A run gives the chunks before the last, whatever was refused in between. *)
Lemma encrypt_run_segments params st log st' :
  run (encrypt_step params) st log st' ->
  Spec.base st' = Spec.base st /\ Spec.Counter st' = Spec.Counter st + zlen (produced EncryptCall.plaintext log)
  /\ Spec.Closed st' = Spec.Closed st
  /\ exists nonces, Forall (fun nonce => zlen nonce = 12) nonces /\
      forall nonce last st'' segment, Spec.encryptLastSegment params st' nonce last = Some (st'', segment) ->
        encryptAll params st (nonces ++ [nonce]) (map fst (produced EncryptCall.plaintext log) ++ [last])
        = Some (st'', map snd (produced EncryptCall.plaintext log) ++ [segment]).
Proof.
  induction 1 as [st|st [c r] st1 log st2 Hstep _ (Hb & Hcnt & Hcl & nonces & Hn & IH)].
  { split_and!; [done|by change (zlen _) with 0; rewrite Z.add_0_r|done|]. exists []. split; [done|]. intros. by apply encryptAll_last. }
  inversion Hstep as [? ? nonce segment ? Hnl Hspec|]; subst; [|by split_and!; [done..|exists nonces]].
  pose proof Hspec as (Hopen & _ & _ & ->)%encryptOnline_some. cbn [advanced Spec.base Spec.Counter Spec.Closed] in *.
  cbn [produced omap list_omap fst snd map app]. fold (produced EncryptCall.plaintext log).
  split_and!; [done|rewrite zlen_cons; lia|congruence|].
  exists (nonce :: nonces). split; [by constructor|]. intros nonce' last st'' seg' Hlast.
  cbn [app]. eapply encryptAll_cons; [by destruct (map _ _)|exact Hspec|by apply IH].
Qed.

End EncryptRuns.

(** ** Calls of a decryptor *)

Module DecryptCall.

Inductive t :=
| Allocating (segment : bytes)
| Into (segment output : bytes)
| InPlace (buffer : SegmentBuffer.t).

(** The segment: what an in-place buffer holds as its ciphertext. *)
Definition segment (c : t) : bytes :=
  match c with
  | Allocating segment | Into segment _ => segment
  | InPlace buffer => match SegmentBuffer.ciphertext buffer with Ok segment => segment | _ => [] end
  end.

(** The room for the plaintext, which is only short in the [Into] case. *)
Definition room (c : t) : option Z :=
  match c with
  | Into _ output => Some (zlen output)
  | _ => None
  end.

Section Run.
Context {T : Target} {F : Features} {B : Backend} {Su : Support}.

Definition wf (p : Parameters.t) (c : t) : Prop :=
  match c with
  | Allocating segment => slice_ok segment
  | Into _ _ => True
  | InPlace buffer => BufferFacts.wf buffer /\ SegmentBuffer.parameters buffer = p
      /\ exists n, SegmentBuffer.state buffer = BufferState.Ciphertext n
  end.

(** The call, and the plaintext that the caller then has. *)
Definition perform (c : t) : M Error Decryptor.t bytes :=
  match c with
  | Allocating segment => Decryptor.decrypt_segment segment
  | Into segment output => fun d =>
      let (r, s) := Decryptor.decrypt_segment_into segment (d, output) in
      (omap_ok (fun written => ztake written (snd s)) r, fst s)
  | InPlace buffer => fun d =>
      let (r, s) := Decryptor.decrypt_segment_in_place (d, buffer) in
      (omap_ok (fun bounds => slice (SegmentBuffer.storage (snd s)) (fst bounds) (snd bounds)) r, fst s)
  end.

End Run.
End DecryptCall.

Section DecryptRuns.
Context {T : Target} {F : Features} {P : Primitives} {POk : PrimitivesOk} {B : Backend} {BOk : BackendOk}.
Context {Su : Support} {SuOk : SupportOk}.

(** One call: the segment that the specification decrypts next, or an error and
    the same state. A segment is refused when the specification refuses it, the
    caller's output is too short or the backend fails. *)
Inductive decrypt_step (params : Z) : Spec.OnlineState -> DecryptCall.t * Result bytes -> Spec.OnlineState -> Prop :=
| decrypted st c plaintext st' :
    Spec.decryptAnyOnlineSegment params st (DecryptCall.segment c) = Some (st', plaintext) ->
    decrypt_step params st (c, Ok plaintext) st'
| rejected st c e :
    Spec.decryptAnyOnlineSegment params st (DecryptCall.segment c) = None -> rejection e ->
    decrypt_step params st (c, Err e) st
| too_small st c room :
    DecryptCall.room c = Some room -> room < zlen (DecryptCall.segment c) - 32 ->
    decrypt_step params st (c, Err (OutputTooSmall room (zlen (DecryptCall.segment c) - 32))) st
| failed st c : backend_fails -> decrypt_step params st (c, Err CryptoFailure) st.

Lemma decryptor_step d c d' room r :
  (forall actual, r = Err (OutputTooSmall actual (zlen (DecryptCall.segment c) - 32)) ->
     room < zlen (DecryptCall.segment c) - 32 -> DecryptCall.room c = Some room) ->
  decryptor_result d (DecryptCall.segment c) room d' r ->
  decrypt_step (decryptor_params d) (online_decryptor d) (c, r) (online_decryptor d').
Proof.
  intros Hroom (_ & Hctx & Hr). destruct r as [plaintext|err|h]; [| |done].
  - destruct Hr as [_ Hr]. by constructor.
  - destruct Hr as [Hcnt Hr]. unfold online_decryptor at 2. rewrite Hctx, Hcnt.
    destruct Hr as [[Hn He]|[[-> Hlt]|[-> Hf]]]; [by apply rejected| |by apply failed].
    apply too_small; [|done]. by eapply Hroom.
Qed.

Lemma decrypt_call_ok d c :
  decryptor_wf d -> DecryptCall.wf (Decryptor.parameters d) c ->
  wp (DecryptCall.perform c) d (fun r d' =>
    decryptor_wf d' /\ decryptor_context d' = decryptor_context d
    /\ decrypt_step (decryptor_params d) (online_decryptor d) (c, r) (online_decryptor d')).
Proof.
  intros Hd Hc. destruct c as [segment|segment output|buffer]; simpl in *.
  - eapply wp_mono; [by apply decrypt_segment_ok|]. intros r d' Hr. pose proof Hr as (Hd' & Hctx & _).
    split_and!; [done..|]. eapply decryptor_step; [|exact Hr]. simpl. intros. lia.
  - pose proof (decrypt_segment_into_ok d segment output Hd) as H. unfold wp in *.
    destruct (Decryptor.decrypt_segment_into _ _) as [r s]. revert H. cells. intros [Hl Hr].
    assert (decryptor_result d segment (zlen output) (fst s) (omap_ok (fun n => ztake n (snd s)) r)) as Hres.
    { destruct r as [n|err|h]; simpl; [|done..]. destruct Hr as (Hn & pt & -> & -> & Hr).
      by rewrite <- slice_0, slice_splice_same by lia. }
    pose proof Hres as (Hd' & Hctx & _). split_and!; [done..|]. by eapply decryptor_step.
  - destruct Hc as (Hb & Hp & n & Hn). pose proof Hb as [Hv Hlen Hstate]. rewrite Hn in Hstate.
    pose proof (ciphertext_ok buffer n Hb Hn) as Hct.
    set (segment := ztake n (SegmentBuffer.storage buffer)) in *.
    assert (zlen segment = n) as Hz by (subst segment; rewrite zlen_ztake; lia).
    rewrite <- Hz in Hn. pose proof (decryptor_in_place_ok d buffer segment Hd Hb Hp Hn Hct) as H. unfold wp in *.
    destruct (Decryptor.decrypt_segment_in_place _) as [r s]. revert H. cells. intros (Hb' & _ & Hr).
    assert (decryptor_result d segment (zlen segment) (fst s)
      (omap_ok (fun bounds => slice (SegmentBuffer.storage (snd s)) (fst bounds) (snd bounds)) r)) as Hres.
    { destruct r as [bounds|err|h]; simpl; [|tauto..]. destruct Hr as (pt & -> & Hpay & Hst & Hr). simpl.
      unfold payload_of in Hpay. rewrite Hst in Hpay. by rewrite Hpay. }
    pose proof Hres as (Hd' & Hctx & _). split_and!; [done..|].
    apply (decryptor_step d (DecryptCall.InPlace buffer) (fst s) (zlen segment)); simpl; rewrite Hct; [intros; lia|done].
Qed.

Lemma decrypt_calls_ok d calls log d' :
  decryptor_wf d -> Forall (DecryptCall.wf (Decryptor.parameters d)) calls ->
  perform DecryptCall.perform calls d = (log, d') ->
  (decryptor_wf d' /\ decryptor_context d' = decryptor_context d)
  /\ run (decrypt_step (decryptor_params d)) (online_decryptor d) log (online_decryptor d').
Proof.
  intros Hd Hcalls H.
  apply (perform_run DecryptCall.perform
           (fun d1 => decryptor_wf d1 /\ decryptor_context d1 = decryptor_context d)
           (DecryptCall.wf (Decryptor.parameters d)) online_decryptor
           (decrypt_step (decryptor_params d))) with (calls := calls); try done.
  intros c d1 (Hd1 & Hctx1) Hc. assert (Decryptor.parameters d1 = Decryptor.parameters d) as Hp.
  { unfold Decryptor.parameters, DecryptionState.parameters, decryptor_context in *. by rewrite Hctx1. }
  rewrite <- Hp in Hc. eapply wp_mono; [by apply decrypt_call_ok|]. intros r d2 (Hd2 & Hctx2 & Hstep).
  split; [split; congruence|]. by replace (decryptor_params d) with (decryptor_params d1) by (unfold decryptor_params; congruence).
Qed.

(** The accepted segments, in order, are what the specification decrypts. *)
Lemma decrypt_run_segments params st log st' :
  run (decrypt_step params) st log st' ->
  decryptAll params st (map fst (produced DecryptCall.segment log))
  = Some (st', concat (map snd (produced DecryptCall.segment log))).
Proof.
  induction 1 as [st|st [c r] st1 log st2 Hstep _ IH]; [done|].
  inversion Hstep as [? ? plaintext ? Hspec| | |]; subst; [|exact IH..].
  cbn [produced omap list_omap fst snd map concat decryptAll]. fold (produced DecryptCall.segment log).
  rewrite Hspec. cbn [mbind option_bind]. by rewrite IH.
Qed.

End DecryptRuns.
