(* ===== verification/OnlineProperties.v ===== *)
(** * Properties of online encryption and decryption

    The one-shot functions produce and accept exactly the messages of the
    specification, terminate on every input and invert each other; the
    sequential states refine the specification's online functions, whichever
    methods are called and however calls fail in between. *)

From S2P Require Import Prelude Bytes Error Parameters Provider Crypto Reference Key Buffer Spec State StateFacts StateProperties.
From S2P Require Import Wire Online OnlineFacts OnlineMessages StreamFacts OnlineRuns.
Import ParametersFacts LayoutFacts BufferFacts.

(** ** One-shot functions *)

Section OneShot.
Context {T : Target} {F : Features} {P : Primitives} {POk : PrimitivesOk} {B : Backend} {BOk : BackendOk}.

(** The ciphertexts that the specification gives for a plaintext: a header,
    and the segments of the layout's chunks under the nonces that the provider's
    generator draws. *)
Definition encrypts (entropy : Entropy) (key : Key.t) (aad : bytes) (p : Parameters.t) (l : MessageLayout.t)
    (plaintext c : bytes) : Prop :=
  exists pr rng iv state header nonces g' segments state',
    Key.provider key = Ok pr
    /\ ProviderRng_fill (ProviderRng_new pr entropy, zeros 32) = (Ok tt, (rng, iv))
    /\ draw (Z.to_nat (MessageLayout.segment_count l)) (NonceGenerator.new rng) = (Ok nonces, g')
    /\ Spec.startOnlineEncryption (Parameters.segment_length p) (Key.as_bytes key) aad iv = (state, header)
    /\ encryptAll (Parameters.segment_length p) state nonces (chunks l plaintext 0) = Some (state', segments)
    /\ c = header ++ concat segments
    /\ zlen iv = 32 /\ Forall (fun nonce => zlen nonce = 12) nonces.

Lemma encrypt_ok entropy key aad p plaintext :
  Parameters.valid p -> slice_ok plaintext ->
  match plaintext_layout p (zlen plaintext) with
  | Ok l =>
      match encrypt entropy key aad p plaintext with
      | Ok c => encrypts entropy key aad p l plaintext c /\ zlen c = MessageLayout.ciphertext_length l
          /\ MessageLayout.ciphertext_length l <= isize_max
      | Err e => Key.provider key = Err e \/ ((e = RngFailure \/ e = CryptoFailure) /\ backend_fails)
          \/ (e = LengthOverflow /\ usize_max < MessageLayout.ciphertext_length l)
      | Halt h => h = Panicked /\ isize_max < MessageLayout.ciphertext_length l <= usize_max
      end
  | Err e' =>
      match encrypt entropy key aad p plaintext with
      | Err e => e = e' \/ Key.provider key = Err e \/ ((e = RngFailure \/ e = CryptoFailure) /\ backend_fails)
      | _ => False
      end
  | Halt _ => False
  end.
Proof.
  intros Hp Hslice. unfold slice_ok in Hslice. pose proof isize_le_usize. pose proof usize_le_u64.
  pose proof (zlen_nonneg plaintext). assert (Hin : in_u64 (zlen plaintext)) by (unfold in_u64; floe_consts; lia).
  unfold encrypt. pose proof (encryptor_new_ok entropy key aad p Hp) as Hn.
  destruct (Encryptor.new _ _ _ _) as [e|err|h]; cbn [obind].
  3: done.
  2: { destruct (plaintext_layout p (zlen plaintext)) eqn:Hl; [tauto..|].
       pose proof (plaintext_layout_returns p (zlen plaintext) Hp) as Hret. by rewrite Hl in Hret. }
  destruct Hn as (He & Hcnt & Hpar & Hpr & rng & iv & Hfill & Hiv & Hng & Hstart).
  destruct (plaintext_layout p (zlen plaintext)) as [l|err|h] eqn:Hl.
  - destruct (Z.le_gt_cases (MessageLayout.ciphertext_length l) isize_max) as [Hs|Hs].
    + rewrite <- Hpar in Hl. pose proof (encrypt_body_ok e plaintext l He Hcnt Hl Hs) as Hb.
      destruct (encrypt_body e plaintext) as [c|err|h]; [|tauto|done].
      destruct Hb as (nonces & segments & g' & st' & Hdraw & Hall & Hspec & Hc & Hcl). split_and!; [|done|done].
      exists (Encryptor.provider e), rng, iv, (online_encryptor e), (Header.as_bytes (Encryptor.header e)).
      exists nonces, g', segments, st'. rewrite <- Hng. split_and!; try done.
      rewrite <- Hpar. exact Hspec.
    + unfold encrypt_body, length_usize_to_u64. rewrite Z.mod_small by (unfold in_u64 in Hin; lia).
      rewrite Hpar, Hl. cbn [obind].
      apply plaintext_layout_ok in Hl as (Hwf & _); [|done..]. pose proof (wf_ciphertext_u64 _ Hwf) as Hc.
      destruct (Z.le_gt_cases (MessageLayout.ciphertext_length l) usize_max) as [Hu|Hu].
      * rewrite usize_try_from_small by (unfold in_u64 in Hc; lia). cbn [ok_or obind].
        unfold vec_with_capacity, in_range. replace (_ && _) with false by lia. done.
      * unfold usize_try_from. replace (_ <=? _) with false by lia. cbn [ok_or obind]. tauto.
  - unfold encrypt_body, length_usize_to_u64. rewrite Z.mod_small by (unfold in_u64 in Hin; lia).
    rewrite Hpar, Hl. cbn [obind]. tauto.
  - pose proof (plaintext_layout_returns p (zlen plaintext) Hp) as Hret. by rewrite Hl in Hret.
Qed.

(** *** Acceptance *)

Lemma accepts_unique key aad c pt1 pt2 : accepts key aad c pt1 -> accepts key aad c pt2 -> pt1 = pt2.
Proof.
  intros [p H1] [q H2]. pose proof H2 as H2'. rewrite <- (app_nil_r c) in H2'.
  pose proof (accepts_with_parameters _ _ _ _ _ _ _ _ _ _ H1 H2') as <-.
  pose proof (header_of_accepted _ _ _ _ _ H1) as (h & body & -> & Hh).
  apply accepts_with_unique in H1 as (Hp & _ & o1 & S1 & O1); [|done].
  apply accepts_with_unique in H2 as (_ & _ & o2 & S2 & O2); [|done].
  assert (o1 = o2) as -> by congruence. eapply opens_unique; [by apply valid_params|done..].
Qed.

(** What [encrypts] gives is accepted under a key with the same bytes. *)
Lemma encrypts_accepted entropy key key' aad p l plaintext c :
  Parameters.valid p -> plaintext_layout p (zlen plaintext) = Ok l -> slice_ok plaintext ->
  Key.as_bytes key' = Key.as_bytes key ->
  encrypts entropy key aad p l plaintext c -> accepts_with p key' aad c plaintext.
Proof.
  intros Hp Hl Hs Hkey (pr & rng & iv & state & header & nonces & g' & segments & st' & _ & _ & _ & Hstart & Hall & -> & Hiv & Hn).
  pose proof (zlen_nonneg plaintext). pose proof isize_le_usize. pose proof usize_le_u64. unfold slice_ok in Hs.
  apply plaintext_layout_ok in Hl as (Hwf & _ & _ & Hpt); [|done|unfold in_u64; floe_consts; lia].
  unfold Spec.startOnlineEncryption in Hstart.
  destruct (Spec.startEncryption _ _ _ _) as [base hdr] eqn:Hbase. injection Hstart as <- <-.
  pose proof (spec_start_roundtrip _ _ _ _ _ _ Hiv Hbase) as Hdec.
  destruct (decryptAll_encryptAll _ _ _ _ _ _ (valid_params _ Hp) Hn Hall) as [Hd Hclosed].
  assert (zlen hdr = 74) as Hh.
  { apply pair_eq in Hbase as [_ <-]. rewrite !zlen_app, Hiv.
    unfold Spec.FLOE_KDF. by rewrite zlen_kdf by lia. }
  exists (Header.mk hdr), (concat segments), (Spec.mkOnline base 0 false).
  split_and!; [done|exact Hh|done| |].
  - unfold Spec.startOnlineDecryption. rewrite Hkey. cbn [Header.as_bytes Header.header_bytes]. by rewrite Hdec.
  - exists segments, st'. split_and!; [done| |done]. by rewrite Hd, concat_chunks.
Qed.

End OneShot.

Section Claims.
Context {T : Target} {F : Features} {P : Primitives} {POk : PrimitivesOk} {B : Backend} {BOk : BackendOk}.
Context {Su : Support} {SuOk : SupportOk}.

(** The outcome of decrypting an accepted message: its plaintext, unless the key
    object resolves to no provider or the backend fails. *)
Definition decrypts_to (key : Key.t) (r : Result bytes) (plaintext : bytes) : Prop :=
  r = Ok plaintext \/ (unresolved key /\ r = Err ProviderSelectionRequired)
  \/ (r = Err CryptoFailure /\ backend_fails).

(** Both decryption functions on a message that is accepted. *)
Lemma accepted_results key p aad c plaintext :
  Parameters.valid p -> slice_ok c -> accepts_with p key aad c plaintext ->
  Forall (fun r => decrypts_to key r plaintext)
    [decrypt key aad c; decrypt_with_parameters key aad p c].
Proof.
  intros Hp Hs Hacc. assert (accepts key aad c plaintext) as Hacc' by (by exists p).
  pose proof (decrypt_ok key aad c Hs) as H1. pose proof (decrypt_with_parameters_ok p key aad c Hp Hs) as H2.
  apply Forall_cons_2; [|apply Forall_cons_2; [|by apply Forall_nil_2]].
  - destruct (decrypt _ _ _) as [pt|e|h]; [| |done].
    + left. by rewrite (accepts_unique _ _ _ _ _ H1 Hacc').
    + destruct H1 as [H1|[H1|[-> H1]]]; [by destruct (H1 plaintext)|right; left; by apply provider_unresolved in H1 as [? ->]|by right; right].
  - destruct (decrypt_with_parameters _ _ _ _) as [pt|e|h]; [| |done].
    + left. by rewrite (accepts_unique key aad c pt plaintext) by (done || by exists p).
    + destruct H2 as [H2|[H2|[-> H2]]]; [by destruct (H2 plaintext)|right; left; by apply provider_unresolved in H2 as [? ->]|by right; right].
Qed.

(** C3: [encrypt] is the specification's encryption. It returns the header of
    [startOnlineEncryption] for the drawn IV, followed by the segments that the
    online functions give for the layout's chunks of the plaintext, each under
    the next nonce of the provider's generator; the length is the layout's. It
    fails only with the layout's error, an unresolved provider, a failing
    backend, or a length over [usize::MAX]; it panics exactly when the vector's
    capacity would exceed [isize::MAX]. *)
Theorem encrypt_refines (entropy : Entropy) (key : Key.t) (aad : bytes) (p : Parameters.t) (plaintext : bytes)
  (Hp : Parameters.valid p) (Hsize : slice_ok plaintext) :
  match encrypt entropy key aad p plaintext with
  | Ok c => exists l, plaintext_layout p (zlen plaintext) = Ok l
      /\ encrypts entropy key aad p l plaintext c /\ concat (chunks l plaintext 0) = plaintext
      /\ zlen c = MessageLayout.ciphertext_length l
  | Err e =>
      plaintext_layout p (zlen plaintext) = Err e
      \/ Key.provider key = Err e
      \/ ((e = RngFailure \/ e = CryptoFailure) /\ backend_fails)
      \/ (e = LengthOverflow /\ exists l, plaintext_layout p (zlen plaintext) = Ok l
            /\ usize_max < MessageLayout.ciphertext_length l)
  | Halt h => h = Panicked /\ exists l, plaintext_layout p (zlen plaintext) = Ok l
      /\ isize_max < MessageLayout.ciphertext_length l <= usize_max
  end.
Proof.
  pose proof (encrypt_ok entropy key aad p plaintext Hp Hsize) as H.
  destruct (plaintext_layout p (zlen plaintext)) as [l|e'|h] eqn:Hl; [| |done].
  - destruct (encrypt _ _ _ _ _) as [c|e|h]; [|naive_solver..]. destruct H as (He & Hc & Hle).
    exists l. split_and!; [done|done| |done]. pose proof (zlen_nonneg plaintext).
    pose proof isize_le_usize. pose proof usize_le_u64. unfold slice_ok in Hsize.
    apply plaintext_layout_ok in Hl as (Hwf & _ & _ & Hpt); [|done|unfold in_u64; floe_consts; lia].
    by apply concat_chunks.
  - destruct (encrypt _ _ _ _ _) as [c|e|h]; naive_solver.
Qed.

(** C36: [encrypt] on a plaintext whose ciphertext would be longer than
    [isize::MAX] but not than [usize::MAX] panics in [Vec::with_capacity]
    instead of returning [LengthOverflow]. *)
Theorem encrypt_capacity_panics (BT : BackendTotal) (entropy : Entropy) (key : Key.t) (pr : Provider.t)
  (aad : bytes) (p : Parameters.t) (plaintext : bytes) (l : MessageLayout.t)
  (Hp : Parameters.valid p) (Hsize : slice_ok plaintext)
  (Hkey : Key.provider key = Ok pr) (Hl : plaintext_layout p (zlen plaintext) = Ok l)
  (Hbig : isize_max < MessageLayout.ciphertext_length l <= usize_max) :
  encrypt entropy key aad p plaintext = panic.
Proof.
  pose proof (encrypt_ok entropy key aad p plaintext Hp Hsize) as H. rewrite Hl in H.
  destruct (encrypt _ _ _ _ _) as [c|e|h]; [lia| |by destruct H as [-> _]].
  destruct H as [H|[[_ H]|[_ H]]]; [congruence|by destruct H|lia].
Qed.

(** C2: [decrypt] and [decrypt_with_parameters] return on every input, never
    panic, and accept exactly the messages that the specification accepts, with
    the plaintext it gives: a header that starts a decryption, then segments
    that the online functions decrypt up to a final one, and nothing after it.
    An input is refused only if the specification refuses it, the key names no
    provider or the backend fails. *)
Theorem decrypt_accepts (key : Key.t) (aad : bytes) (p : Parameters.t) (c : bytes)
  (Hp : Parameters.valid p) (Hsize : slice_ok c) :
  (match decrypt key aad c with
   | Ok plaintext => accepts key aad c plaintext
   | Err e => (forall plaintext, ~ accepts key aad c plaintext)
       \/ Key.provider key = Err e \/ (e = CryptoFailure /\ backend_fails)
   | Halt _ => False
   end)
  /\ (match decrypt_with_parameters key aad p c with
      | Ok plaintext => accepts_with p key aad c plaintext
      | Err e => (forall plaintext, ~ accepts_with p key aad c plaintext)
          \/ Key.provider key = Err e \/ (e = CryptoFailure /\ backend_fails)
      | Halt _ => False
      end)
  /\ (forall pt1 pt2, accepts key aad c pt1 -> accepts key aad c pt2 -> pt1 = pt2).
Proof.
  refine (conj _ (conj _ _)); [by apply decrypt_ok|by apply decrypt_with_parameters_ok|by apply accepts_unique].
Qed.

(** C1: encryption followed by decryption gives the plaintext back, with the
    parameters read from the header or given, under any key object with the
    same key bytes, whichever provider it selects. Only an object that is bound
    to no provider in a build with several, or a failing backend, can prevent
    it: a bound key needs no default. *)
Theorem message_roundtrip (entropy : Entropy) (key key' : Key.t) (aad : bytes) (p : Parameters.t) (plaintext c : bytes)
  (Hp : Parameters.valid p) (Hsize : slice_ok plaintext)
  (Henc : encrypt entropy key aad p plaintext = Ok c)
  (Hkey : Key.as_bytes key' = Key.as_bytes key) :
  Forall (fun r => decrypts_to key' r plaintext)
    [decrypt key' aad c; decrypt_with_parameters key' aad p c].
Proof.
  pose proof (encrypt_ok entropy key aad p plaintext Hp Hsize) as H. rewrite Henc in H.
  destruct (plaintext_layout p (zlen plaintext)) as [l|?|?] eqn:Hl; [|done..]. destruct H as (He & Hc & Hle).
  assert (slice_ok c) as Hs by (unfold slice_ok; lia).
  apply (accepted_results key' p); [done|done|]. by eapply encrypts_accepted.
Qed.

(** C7: no message can be truncated or extended. When a string decrypts, no
    proper extension of it does under the same key and associated data, so no
    proper prefix of a message decrypts either. *)
Theorem no_truncation_no_extension (key : Key.t) (aad c x plaintext plaintext' : bytes)
  (Hsize : slice_ok (c ++ x))
  (H : decrypt key aad c = Ok plaintext) (H' : decrypt key aad (c ++ x) = Ok plaintext') :
  x = [].
Proof.
  assert (slice_ok c) as Hs.
  { unfold slice_ok in *. rewrite zlen_app in Hsize. pose proof (zlen_nonneg x). lia. }
  pose proof (decrypt_ok key aad c Hs) as H1. pose proof (decrypt_ok key aad (c ++ x) Hsize) as H2.
  rewrite H in H1. rewrite H' in H2. destruct H1 as [p H1], H2 as [q H2].
  pose proof (accepts_with_parameters _ _ _ _ _ _ _ _ _ _ H1 H2) as <-.
  exact (proj1 (accepted_extension _ _ _ _ _ _ _ H1 H2)).
Qed.

End Claims.

(** ** Streams *)

Section Streams.
Context {T : Target} {F : Features} {P : Primitives} {POk : PrimitivesOk} {B : Backend} {BOk : BackendOk}.
Context {Su : Support} {SuOk : SupportOk}.

(** The plaintexts and the segments of the calls that succeeded, with the last. *)
Definition stream_plaintexts (log : list (EncryptCall.t * Result bytes)) (last : EncryptCall.t) : list bytes :=
  map fst (produced EncryptCall.plaintext log) ++ [EncryptCall.plaintext last].
Definition stream_segments (log : list (EncryptCall.t * Result bytes)) (segment : bytes) : list bytes :=
  map snd (produced EncryptCall.plaintext log) ++ [segment].

Lemma continues_parameters e e' : continues e e' -> Encryptor.parameters e' = Encryptor.parameters e.
Proof.
  intros (_ & H & _). unfold Encryptor.parameters, EncryptionState.parameters, encryptor_context in *. by rewrite H.
Qed.

Lemma encrypt_stream_ok e calls last log e' segment :
  encryptor_wf e -> Forall (EncryptCall.wf (Encryptor.parameters e)) calls ->
  EncryptCall.wf (Encryptor.parameters e) last ->
  perform EncryptCall.perform calls e = (log, e') -> EncryptCall.perform_final e' last = Ok segment ->
  exists nonces st, Forall (fun nonce => zlen nonce = 12) nonces
    /\ encryptAll (encryptor_params e) (online_encryptor e) nonces (stream_plaintexts log last)
       = Some (st, stream_segments log segment).
Proof.
  intros He Hcalls Hlast Hrun Hfin. destruct (encrypt_calls_ok e calls log e' He Hcalls Hrun) as [Hc Hsteps].
  pose proof (continues_parameters _ _ Hc) as Hp. pose proof Hc as (He' & Hctx & _). rewrite <- Hp in Hlast.
  pose proof (encrypt_final_call_ok e' last He' Hlast) as Hf. rewrite Hfin in Hf.
  destruct Hf as (_ & nonce & g' & Hn & _ & Hspec).
  apply encrypt_run_segments in Hsteps as (_ & _ & _ & nonces & Hns & Hall).
  assert (encryptor_params e' = encryptor_params e) as Hpp by (unfold encryptor_params; congruence).
  rewrite Hpp in Hspec. exists (nonces ++ [nonce]), (advanced (online_encryptor e') true).
  split; [apply Forall_app; split; [done|by constructor]|]. by apply Hall.
Qed.

(** C4: streaming encryption. A program calls an encryptor's methods in any
    mixture of the allocating, caller-buffer and in-place ones, and goes on
    after errors. Every call is a step of the specification: the next online
    segment under a fresh nonce, or a justified error that changes nothing; the
    position is the number of segments produced, so none is used twice. The
    final call closes the message, or returns the encryptor at the same
    position. *)
Theorem encryptor_stream_refines (e e' : Encryptor.t) (calls : list EncryptCall.t) (last : EncryptCall.t)
  (log : list (EncryptCall.t * Result bytes))
  (He : encryptor_wf e) (Hcalls : Forall (EncryptCall.wf (Encryptor.parameters e)) calls)
  (Hlast : EncryptCall.wf (Encryptor.parameters e) last)
  (Hrun : perform EncryptCall.perform calls e = (log, e')) :
  encryptor_wf e'
  /\ run (encrypt_step (encryptor_params e)) (online_encryptor e) log (online_encryptor e')
  /\ Encryptor.next_position e' = Encryptor.next_position e + zlen (produced EncryptCall.plaintext log)
  /\ match EncryptCall.perform_final e' last with
     | Ok segment => exists nonces st, Forall (fun nonce => zlen nonce = 12) nonces
         /\ encryptAll (encryptor_params e) (online_encryptor e) nonces (stream_plaintexts log last)
            = Some (st, stream_segments log segment)
     | Err f =>
         continues e' (FinalEncryptError.encryptor f)
         /\ Encryptor.counter (FinalEncryptError.encryptor f) = Encryptor.counter e'
         /\ encrypt_refusal (encryptor_params e) (online_encryptor e') true last (FinalEncryptError.error f)
     | Halt _ => False
     end.
Proof.
  destruct (encrypt_calls_ok e calls log e' He Hcalls Hrun) as [Hc Hsteps].
  pose proof (continues_parameters _ _ Hc) as Hp. pose proof Hc as (He' & Hctx & _).
  refine (conj He' (conj Hsteps (conj _ _))); [by apply encrypt_run_segments in Hsteps as (_ & ? & _)|].
  assert (Hf : EncryptCall.wf (Encryptor.parameters e') last) by (by rewrite Hp).
  apply (encrypt_final_call_ok e' last He') in Hf.
  destruct (EncryptCall.perform_final e' last) as [segment|f|h] eqn:Hfin; [|clear Hfin|done].
  { by eapply encrypt_stream_ok. }
  destruct Hf as (Hc' & Hcnt & Hr). split_and!; [done..|].
  assert (encryptor_params e' = encryptor_params e) as <- by (unfold encryptor_params; congruence).
  by apply (encrypt_error_refusal e' last SegmentKind.Final).
Qed.

(** C5: streaming decryption, whichever methods are called and however calls
    fail in between: every call is a step of the specification, the segment it
    decrypts next or an error that changes nothing, so a program can retry; the
    accepted segments are in order. [finish] succeeds exactly when they end
    with the final segment, and then they are a whole message. *)
Theorem decryptor_stream_refines (d d' : Decryptor.t) (calls : list DecryptCall.t)
  (log : list (DecryptCall.t * Result bytes))
  (Hd : decryptor_wf d) (Hcalls : Forall (DecryptCall.wf (Decryptor.parameters d)) calls)
  (Hrun : perform DecryptCall.perform calls d = (log, d')) :
  let segments := map fst (produced DecryptCall.segment log) in
  let plaintexts := map snd (produced DecryptCall.segment log) in
  decryptor_wf d'
  /\ run (decrypt_step (decryptor_params d)) (online_decryptor d) log (online_decryptor d')
  /\ decryptAll (decryptor_params d) (online_decryptor d) segments = Some (online_decryptor d', concat plaintexts)
  /\ match Decryptor.finish d' with
     | Ok _ => opens (decryptor_params d) (online_decryptor d) (concat segments) (concat plaintexts)
     | Err e => e = Truncated /\ Spec.Closed (online_decryptor d') = false
     | Halt _ => False
     end.
Proof.
  intros segments plaintexts. destruct (decrypt_calls_ok d calls log d' Hd Hcalls Hrun) as [[Hd' _] Hsteps].
  pose proof (decrypt_run_segments _ _ _ _ Hsteps) as Hall. refine (conj Hd' (conj Hsteps (conj Hall _))).
  unfold Decryptor.finish, SegmentCounter.finish. destruct (SegmentCounter.closed _) eqn:Hc; [|by split].
  by exists segments, (online_decryptor d').
Qed.

(** C6: streams and one-shot functions interoperate. The header of an
    encryptor, the segments its calls produced and the last one form a message
    that [decrypt] and [decrypt_with_parameters] turn back into the
    concatenation of the plaintexts, unless the key resolves to no provider or
    the backend fails. *)
Theorem stream_decrypts (entropy : Entropy) (key key' : Key.t) (aad : bytes) (p : Parameters.t) (e e' : Encryptor.t)
  (calls : list EncryptCall.t) (last : EncryptCall.t) (log : list (EncryptCall.t * Result bytes)) (segment : bytes)
  (Hp : Parameters.valid p) (Hnew : Encryptor.new entropy key aad p = Ok e)
  (Hcalls : Forall (EncryptCall.wf p) calls) (Hlast : EncryptCall.wf p last)
  (Hrun : perform EncryptCall.perform calls e = (log, e'))
  (Hfin : EncryptCall.perform_final e' last = Ok segment)
  (Hkey : Key.as_bytes key' = Key.as_bytes key)
  (Hsize : slice_ok (Header.as_bytes (Encryptor.header e) ++ concat (stream_segments log segment))) :
  let c := Header.as_bytes (Encryptor.header e) ++ concat (stream_segments log segment) in
  Forall (fun r => decrypts_to key' r (concat (stream_plaintexts log last)))
    [decrypt key' aad c; decrypt_with_parameters key' aad p c].
Proof.
  intros c. pose proof (encryptor_new_ok entropy key aad p Hp) as Hn. rewrite Hnew in Hn.
  destruct Hn as (He & _ & Hpar & _).
  rewrite <- Hpar in Hcalls, Hlast.
  destruct (encrypt_stream_ok e calls last log e' segment He Hcalls Hlast Hrun Hfin) as (nonces & st & Hns & Hall).
  assert (encryptor_params e = Parameters.segment_length p) as Hpp by (by rewrite <- Hpar).
  rewrite Hpp in Hall. apply (accepted_results _ p); [done|done|]. by eapply new_message_accepted.
Qed.

End Streams.

(** ** Witnesses *)

Module OnlineExamples.

Definition aad : bytes := [byte_of_Z 9].
Definition plaintext : bytes := Reference.fill 100 100.

(** A message in 64-byte segments: three of 32 bytes and one of 4. *)
Definition message : bytes :=
  match encrypt (T := target64) (7 : Entropy) Examples.key aad Parameters.SEGMENT_64_B plaintext with
  | Ok c => c
  | _ => []
  end.

(** A build with every provider, where an unbound key has none, and a message
    made there with a bound key. *)
Definition all_providers : Features :=
  Build_Features true true true true eq_refl.
Definition bound_key : Key.t := Key.from_bytes_with_provider (Key.as_bytes Examples.key) Provider.RUSTCRYPTO.
Definition bound_message : bytes :=
  match encrypt (T := target64) (F := all_providers) (7 : Entropy) bound_key aad Parameters.SEGMENT_64_B plaintext with
  | Ok c => c
  | _ => []
  end.

Definition header : Header.t := Header.mk (ztake 74 message).
Definition segment (i : Z) : bytes := slice message (74 + 64 * i) (Z.min (74 + 64 * (i + 1)) (zlen message)).

(** A stream whose second call is refused for its length. *)
Definition encrypt_calls : list EncryptCall.t :=
  [EncryptCall.Allocating (ztake 32 plaintext); EncryptCall.Allocating [];
   EncryptCall.Into (slice plaintext 32 64) (zeros 80)].
Definition encrypt_last : EncryptCall.t := EncryptCall.Into (slice plaintext 64 84) (zeros 68).

(** The segments, with one out of order and one with a short output. *)
Definition decrypt_calls : list DecryptCall.t :=
  [DecryptCall.Allocating (segment 0); DecryptCall.Allocating (segment 2); DecryptCall.Into (segment 1) (zeros 8);
   DecryptCall.Into (segment 1) (zeros 40); DecryptCall.Allocating (segment 2); DecryptCall.Allocating (segment 3)].

Lemma started_encryptor :
  exists e, Encryptor.new (7 : Entropy) Examples.key aad Parameters.SEGMENT_64_B = Ok e
    /\ encryptor_wf (BOk := Reference.backend_ok) e /\ Encryptor.parameters e = Parameters.SEGMENT_64_B.
Proof.
  pose proof (encryptor_new_ok (7 : Entropy) Examples.key aad Parameters.SEGMENT_64_B ltac:(done)) as H.
  destruct (Encryptor.new _ _ _ _) as [e|err|h] eqn:E; [|settle E..].
  exists e. destruct H as (He & _ & Hp & _). by split_and!.
Qed.

Lemma started_decryptor :
  exists d, Decryptor.new Examples.key aad header = Ok d
    /\ decryptor_wf (BOk := Reference.backend_ok) d /\ Decryptor.counter d = SegmentCounter.new.
Proof.
  destruct (decryptor_new_ok Examples.key aad header ltac:(by vm_compute)) as [(p & _ & H)|(e & E & _)]; [|settle E].
  destruct (Decryptor.new _ _ _) as [d|err|h] eqn:E; [|settle E..].
  exists d. destruct H as (Hd & Hc & _). by split_and!.
Qed.

Lemma encrypt_calls_wf : Forall (EncryptCall.wf (T := target64) Parameters.SEGMENT_64_B) encrypt_calls.
Proof. repeat (apply Forall_cons_2; [by vm_compute|]). by apply Forall_nil_2. Qed.

Lemma decrypt_calls_wf p : Forall (DecryptCall.wf (T := target64) p) decrypt_calls.
Proof. repeat (apply Forall_cons_2; [by vm_compute|]). by apply Forall_nil_2. Qed.

(** Both calls that fit succeed, and the last. *)
Lemma encrypt_run e :
  Encryptor.new (7 : Entropy) Examples.key aad Parameters.SEGMENT_64_B = Ok e ->
  let e' := snd (perform (EncryptCall.perform (T := target64)) encrypt_calls e) in
  Encryptor.next_position e' = 2 /\ is_ok (EncryptCall.perform_final (T := target64) e' encrypt_last) = true.
Proof.
  intros Hnew e'.
  assert (omap_ok (fun e => let e' := snd (perform (EncryptCall.perform (T := target64)) encrypt_calls e) in
       (Encryptor.next_position e', is_ok (EncryptCall.perform_final (T := target64) e' encrypt_last)))
       (Encryptor.new (7 : Entropy) Examples.key aad Parameters.SEGMENT_64_B) = Ok (2, true)) as H by (by vm_compute).
  rewrite Hnew in H. cbn [omap_ok] in H. exact (ok_pair_inj H).
Qed.

(** All but the two refused calls succeed, and the message is complete. *)
Lemma decrypt_run d :
  Decryptor.new Examples.key aad header = Ok d ->
  let run := perform (DecryptCall.perform (T := target64)) decrypt_calls d in
  map (fun entry => is_ok (snd entry)) (fst run) = [true; false; false; true; true; true]
  /\ Decryptor.finish (snd run) = Ok tt.
Proof.
  intros Hnew.
  assert (omap_ok (fun d => let run := perform (DecryptCall.perform (T := target64)) decrypt_calls d in
       (map (fun entry => is_ok (snd entry)) (fst run), Decryptor.finish (snd run)))
       (Decryptor.new Examples.key aad header) = Ok ([true; false; false; true; true; true], Ok tt)) as H
    by (by vm_compute).
  rewrite Hnew in H. cbn [omap_ok] in H. exact (ok_pair_inj H).
Qed.

(** The stream's message fits, and decrypts. *)
Lemma stream_message e log e' segment :
  Encryptor.new (7 : Entropy) Examples.key aad Parameters.SEGMENT_64_B = Ok e ->
  perform (EncryptCall.perform (T := target64)) encrypt_calls e = (log, e') ->
  EncryptCall.perform_final (T := target64) e' encrypt_last = Ok segment ->
  let c := Header.as_bytes (Encryptor.header e) ++ concat (stream_segments log segment) in
  zlen c = 254 /\ is_ok (decrypt (T := target64) Examples.key aad c) = true.
Proof.
  intros Hnew Hrun Hfin c.
  assert (omap_ok (fun e => let run := perform (EncryptCall.perform (T := target64)) encrypt_calls e in
       match EncryptCall.perform_final (T := target64) (snd run) encrypt_last with
       | Ok segment =>
           let c := Header.as_bytes (Encryptor.header e) ++ concat (stream_segments (fst run) segment) in
           (zlen c, is_ok (decrypt (T := target64) Examples.key aad c))
       | _ => (0, false)
       end)
       (Encryptor.new (7 : Entropy) Examples.key aad Parameters.SEGMENT_64_B) = Ok (254, true)) as H
    by (by vm_compute).
  rewrite Hnew in H. cbn [omap_ok] in H. rewrite Hrun in H. cbn [fst snd] in H. rewrite Hfin in H.
  exact (ok_pair_inj H).
Qed.

End OnlineExamples.

Lemma encrypt_refines_witness :
  exists c, encrypt (T := target64) (7 : Entropy) Examples.key OnlineExamples.aad Parameters.SEGMENT_64_B
      OnlineExamples.plaintext = Ok c /\ zlen c = 302.
Proof.
  pose proof (encrypt_refines (T := target64) (7 : Entropy) Examples.key OnlineExamples.aad Parameters.SEGMENT_64_B
                OnlineExamples.plaintext ltac:(done) ltac:(by vm_compute)) as H.
  destruct (encrypt _ _ _ _ _) as [c|e|h] eqn:E; [|settle E..].
  exists c. split; [done|]. destruct H as (l & Hl & _ & _ & Hc). vm_compute in Hl. injection Hl as <-. exact Hc.
Defined.

Lemma encrypt_capacity_panics_witness :
  encrypt (T := target32) (7 : Entropy) Examples.key OnlineExamples.aad Parameters.SEGMENT_64_B (zeros (2 ^ 30)) = panic.
Proof.
  eapply (encrypt_capacity_panics (T := target32) (B := Reference.backend) Reference.backend_total (7 : Z) Examples.key _ _
            Parameters.SEGMENT_64_B (zeros (2 ^ 30))); [done| |by vm_compute| |].
  - unfold slice_ok. rewrite zlen_zeros. by vm_compute.
  - rewrite zlen_zeros. by vm_compute.
  - by vm_compute.
Defined.

Lemma decrypt_accepts_witness :
  exists e, decrypt (T := target64) Examples.key OnlineExamples.aad (ztake 300 OnlineExamples.message) = Err e
    /\ forall plaintext, ~ accepts Examples.key OnlineExamples.aad (ztake 300 OnlineExamples.message) plaintext.
Proof.
  destruct (decrypt_accepts (T := target64) Examples.key OnlineExamples.aad Parameters.SEGMENT_64_B
              (ztake 300 OnlineExamples.message) ltac:(done) ltac:(by vm_compute)) as [H _].
  destruct (decrypt _ _ _) as [pt|e|h] eqn:E; [settle E| |destruct H].
  exists e. split; [done|]. destruct H as [H|[H|[_ H]]]; [exact H|by vm_compute in H|].
  destruct H. apply Reference.backend_total.
Defined.

Lemma message_roundtrip_witness :
  decrypt (T := target64) (F := OnlineExamples.all_providers)
    (Key.from_bytes_with_provider (Key.as_bytes Examples.key) Provider.RING) OnlineExamples.aad
    OnlineExamples.bound_message = Ok OnlineExamples.plaintext.
Proof.
  pose proof (message_roundtrip (T := target64) (F := OnlineExamples.all_providers) (7 : Entropy) OnlineExamples.bound_key
    (Key.from_bytes_with_provider (Key.as_bytes Examples.key) Provider.RING) OnlineExamples.aad Parameters.SEGMENT_64_B
    OnlineExamples.plaintext OnlineExamples.bound_message ltac:(done) ltac:(by vm_compute) ltac:(by vm_compute) eq_refl) as H.
  apply Forall_cons in H as [[H|[[[H _] _]|[_ H]]] _]; [exact H|discriminate H|].
  destruct H. apply Reference.backend_total.
Defined.

Lemma no_truncation_no_extension_witness :
  decrypt (T := target64) Examples.key OnlineExamples.aad (OnlineExamples.message ++ []) = Ok OnlineExamples.plaintext
  /\ ([] : bytes) = [].
Proof.
  split; [by vm_compute|].
  apply (no_truncation_no_extension (T := target64) Examples.key OnlineExamples.aad OnlineExamples.message []
           OnlineExamples.plaintext OnlineExamples.plaintext); by vm_compute.
Defined.

Lemma encryptor_stream_refines_witness :
  exists e log e', Encryptor.new (7 : Entropy) Examples.key OnlineExamples.aad Parameters.SEGMENT_64_B = Ok e
    /\ perform (EncryptCall.perform (T := target64)) OnlineExamples.encrypt_calls e = (log, e')
    /\ Encryptor.next_position e' = 2
    /\ exists segment nonces st,
         EncryptCall.perform_final (T := target64) e' OnlineExamples.encrypt_last = Ok segment
         /\ encryptAll (encryptor_params e) (online_encryptor e) nonces (stream_plaintexts log OnlineExamples.encrypt_last)
            = Some (st, stream_segments log segment).
Proof.
  destruct OnlineExamples.started_encryptor as (e & Hnew & He & Hp).
  assert (Hcalls : Forall (EncryptCall.wf (T := target64) (Encryptor.parameters e)) OnlineExamples.encrypt_calls)
    by (rewrite Hp; apply OnlineExamples.encrypt_calls_wf).
  pose proof (OnlineExamples.encrypt_run e Hnew) as Hpos.
  destruct (perform _ _ e) as [log e'] eqn:Hrun.
  destruct (encryptor_stream_refines (T := target64) (BOk := Reference.backend_ok) e e' OnlineExamples.encrypt_calls
              OnlineExamples.encrypt_last log He Hcalls I Hrun) as (_ & _ & _ & Hfin).
  cbn [snd] in Hpos. destruct Hpos as [Hpos Hok].
  destruct (EncryptCall.perform_final e' _) as [segment|f|h] eqn:Hseg; [|discriminate Hok..].
  destruct Hfin as (nonces & st & _ & Hall). exists e, log, e'. refine (conj Hnew (conj Hrun (conj Hpos _))).
  exists segment, nonces, st. exact (conj Hseg Hall).
Defined.

Lemma decryptor_stream_refines_witness :
  exists d log d', Decryptor.new Examples.key OnlineExamples.aad OnlineExamples.header = Ok d
    /\ perform (DecryptCall.perform (T := target64)) OnlineExamples.decrypt_calls d = (log, d')
    /\ map (fun entry => is_ok (snd entry)) log = [true; false; false; true; true; true]
    /\ opens (decryptor_params d) (online_decryptor d) (concat (map fst (produced DecryptCall.segment log)))
         (concat (map snd (produced DecryptCall.segment log))).
Proof.
  destruct OnlineExamples.started_decryptor as (d & Hnew & Hd & _).
  pose proof (OnlineExamples.decrypt_run d Hnew) as Hpos.
  destruct (perform _ _ d) as [log d'] eqn:Hrun.
  destruct (decryptor_stream_refines (T := target64) (BOk := Reference.backend_ok) d d' OnlineExamples.decrypt_calls
              log Hd (OnlineExamples.decrypt_calls_wf _) Hrun) as (_ & _ & _ & Hfin).
  cbn [fst snd] in Hpos. destruct Hpos as [Hpos Hok]. rewrite Hok in Hfin.
  exists d, log, d'. exact (conj Hnew (conj Hrun (conj Hpos Hfin))).
Defined.

Lemma stream_decrypts_witness :
  exists e log e' segment, Encryptor.new (7 : Entropy) Examples.key OnlineExamples.aad Parameters.SEGMENT_64_B = Ok e
    /\ perform (EncryptCall.perform (T := target64)) OnlineExamples.encrypt_calls e = (log, e')
    /\ decrypt (T := target64) Examples.key OnlineExamples.aad
         (Header.as_bytes (Encryptor.header e) ++ concat (stream_segments log segment))
       = Ok (concat (stream_plaintexts log OnlineExamples.encrypt_last)).
Proof.
  destruct OnlineExamples.started_encryptor as (e & Hnew & He & Hp).
  pose proof (OnlineExamples.encrypt_run e Hnew) as Hpos.
  destruct (perform _ _ e) as [log e'] eqn:Hrun. cbn [snd] in Hpos. destruct Hpos as [Hpos Hok].
  destruct (EncryptCall.perform_final e' _) as [segment|f|h] eqn:Hseg; [|discriminate Hok..].
  destruct (OnlineExamples.stream_message e log e' segment Hnew Hrun Hseg) as [Hlen Hdec].
  assert (Hsize : slice_ok (T := target64) (Header.as_bytes (Encryptor.header e) ++ concat (stream_segments log segment)))
    by (unfold slice_ok; rewrite Hlen; by vm_compute).
  pose proof (stream_decrypts (T := target64) (7 : Entropy) Examples.key Examples.key OnlineExamples.aad
    Parameters.SEGMENT_64_B e e' OnlineExamples.encrypt_calls OnlineExamples.encrypt_last log segment ltac:(done)
    Hnew OnlineExamples.encrypt_calls_wf I Hrun Hseg eq_refl Hsize) as H.
  exists e, log, e', segment. refine (conj Hnew (conj Hrun _)).
  apply Forall_cons in H as [[H|[[[_ H] _]|[_ H]]] _]; [exact H| |destruct H; apply Reference.backend_total].
  vm_compute in H. lia.
Defined.
