(* ===== verification/Binding.v ===== *)
(** * What a message is bound to

    Two security arguments of the construction, as statements on the code. A
    message that decrypts is bound to its key and associated data by the header
    tag, and the order of its segments by their associated data. The algorithms
    are functions here, so "cannot happen" is stated as a reduction: where it
    does happen, the message itself shows a collision of HMAC-SHA-384, or a
    ciphertext of AES-GCM that opens under two different associated data. *)

From stdpp Require Import list.
From S2P Require Import Prelude Bytes Error Parameters Provider Crypto Reference Key Buffer Spec State StateFacts StateProperties.
From S2P Require Import Wire Online OnlineFacts OnlineMessages OnlineProperties.
Import ParametersFacts LayoutFacts.

(** ** The header tag *)

Section Commitment.
Context {T : Target} {F : Features} {P : Primitives} {POk : PrimitivesOk} {B : Backend} {BOk : BackendOk}.
Context {Su : Support} {SuOk : SupportOk}.

(** What the tag of a message's header authenticates under the key: the encoded
    parameters and the IV, the purpose and the associated data. *)
Definition tag_input (ciphertext aad : bytes) : bytes :=
  (ztake 42 ciphertext ++ Spec.HEADER_TAG ++ aad) ++ [byte_of_Z 1].

(** Two different inputs of HMAC-SHA-384 that agree on the 32 bytes of a tag. *)
Definition tag_collision (ciphertext : bytes) (key1 aad1 key2 aad2 : bytes) : Prop :=
  (key1, aad1) <> (key2, aad2)
  /\ ztake 32 (hmac_sha384 key1 (tag_input ciphertext aad1)) = ztake 32 (hmac_sha384 key2 (tag_input ciphertext aad2)).

(** A header that starts a decryption, field by field. *)
Lemma started_fields params key aad header st :
  zlen header = 74 -> Spec.startDecryption params key aad header = Some st ->
  ztake 10 header = Spec.PARAM_ENCODE params
  /\ Spec.FLOE_KDF params key (slice header 10 42) aad Spec.HEADER_TAG 32 = zdrop 42 header
  /\ st = Spec.mkState (Spec.FLOE_KDF params key (slice header 10 42) aad Spec.MESSAGE_KEY 48) (slice header 10 42) aad.
Proof.
  intros Hh. unfold Spec.startDecryption, Spec.SPLIT.
  assert (zlen (Spec.PARAM_ENCODE params) = 10) as -> by exact (zlen_encode (Parameters.mk params)).
  rewrite Hh. change (10 + 32 <=? 74) with true. rewrite bool_decide_true by done. cbn [mbind option_bind].
  change (74 - 32) with 42. case_bool_decide as Hp; [|done]. case_bool_decide as Ht; [|done].
  intros [= <-]. done.
Qed.

(** The tag of an accepted message. *)
Lemma accepted_tag p key aad c plaintext :
  accepts_with p key aad c plaintext -> ztake 32 (hmac_sha384 (Key.as_bytes key) (tag_input c aad)) = slice c 42 74.
Proof.
  intros (h & body & ost & Hp & Hh & -> & Hstart & _). unfold Header.wf, Header.LEN in Hh.
  change HEADER_LENGTH with 74 in Hh. unfold Header.as_bytes in *. set (b := Header.header_bytes h) in *.
  unfold Spec.startOnlineDecryption in Hstart. apply bind_Some in Hstart as (st & Hstart & _).
  destruct (started_fields _ _ _ _ _ Hh Hstart) as (Hpar & Htag & _).
  rewrite slice_app_l by lia. rewrite <- Hh, slice_to_end by lia. rewrite <- Htag.
  unfold Spec.FLOE_KDF, kdf, tag_input. rewrite ztake_app_l by lia. do 3 f_equal.
  rewrite <- Hpar, (app_assoc (ztake 10 b)), <- (slice_0 b 10), slice_concat, slice_0 by lia. done.
Qed.

Lemma accepts_key key key' aad c plaintext :
  Key.as_bytes key = Key.as_bytes key' -> accepts key aad c plaintext -> accepts key' aad c plaintext.
Proof.
  intros Hk (p & h & body & ost & Hp & Hh & Hc & Hs & Ho). exists p, h, body, ost. by rewrite <- Hk.
Qed.

(** C9: a message commits to its key and its associated data. When one string
    decrypts twice, the keys have the same bytes, the associated data are the
    same and so are the plaintexts; otherwise the string's own header shows two
    inputs of HMAC-SHA-384, under the two keys, with the same 256-bit tag. *)
Theorem message_commits (key key' : Key.t) (aad aad' c plaintext plaintext' : bytes)
  (Hsize : slice_ok c) (H : decrypt key aad c = Ok plaintext) (H' : decrypt key' aad' c = Ok plaintext') :
  (Key.as_bytes key = Key.as_bytes key' /\ aad = aad' /\ plaintext = plaintext')
  \/ tag_collision c (Key.as_bytes key) aad (Key.as_bytes key') aad'.
Proof.
  pose proof (decrypt_ok key aad c Hsize) as Ha. pose proof (decrypt_ok key' aad' c Hsize) as Ha'.
  rewrite H in Ha. rewrite H' in Ha'. clear H H'.
  destruct (decide ((Key.as_bytes key, aad) = (Key.as_bytes key', aad'))) as [[= Hk <-]|Hne].
  - left. split_and!; [done..|]. apply (accepts_key _ _ _ _ _ Hk) in Ha. by eapply accepts_unique.
  - right. split; [done|]. destruct Ha as [p Ha], Ha' as [q Ha'].
    by rewrite (accepted_tag _ _ _ _ _ Ha), (accepted_tag _ _ _ _ _ Ha').
Qed.

End Commitment.

(** ** The order of the segments *)

Section Order.
Context {T : Target} {F : Features} {P : Primitives} {POk : PrimitivesOk} {B : Backend} {BOk : BackendOk}.
Context {Su : Support} {SuOk : SupportOk}.

(** The state that a header starts. *)
Definition message_state (p : Parameters.t) (key : Key.t) (aad : bytes) (h : Header.t) : Spec.State :=
  let iv := slice (Header.as_bytes h) 10 42 in
  Spec.mkState (Spec.FLOE_KDF (Parameters.segment_length p) (Key.as_bytes key) iv aad Spec.MESSAGE_KEY 48) iv aad.

(** AES-GCM seals to the segment's nonce, ciphertext and tag at two positions:
    under associated data that differ, and keys that differ or not. *)
Definition double_sealing (params : Z) (st : Spec.State) (segment : bytes) (i j : Z) : Prop :=
  exists is_final pt pt',
    let nonce := slice segment 4 16 in
    let sealed := (slice segment 16 (zlen segment - 16), slice segment (zlen segment - 16) (zlen segment)) in
    segment_aead_aad i is_final <> segment_aead_aad j is_final
    /\ gcm_encrypt (segment_key params st i) nonce (segment_aead_aad i is_final) pt = sealed
    /\ gcm_encrypt (segment_key params st j) nonce (segment_aead_aad j is_final) pt' = sealed.

Lemma decryptSegment_sealed params st segment i is_final pt :
  32 <= params < u32_max -> Spec.decryptSegment params st segment i is_final = Some pt ->
  gcm_encrypt (segment_key params st i) (slice segment 4 16) (segment_aead_aad i is_final) pt
    = (slice segment 16 (zlen segment - 16), slice segment (zlen segment - 16) (zlen segment)).
Proof.
  intros Hp H. pose proof (decryptSegment_framed _ _ _ _ _ _ H) as Hf.
  rewrite decryptSegment_eq in H by (done || lia). apply gcm_encrypt_decrypt in H; [done|].
  unfold Spec.framing_ok, Spec.AEAD_IV_LEN, Spec.AEAD_TAG_LEN in Hf. rewrite zlen_slice.
  destruct is_final; lia.
Qed.

Lemma segment_aead_aad_inj i j is_final :
  in_u64 i -> in_u64 j -> segment_aead_aad i is_final = segment_aead_aad j is_final -> i = j.
Proof.
  intros Hi Hj H. apply app_inj_2 in H as [H _]; [|done]. by apply u64_to_be_inj in H.
Qed.

(** A segment that opens at two positions. *)
Lemma opened_twice params st segment i j f g pt pt' :
  32 <= params < u32_max -> in_u64 i -> in_u64 j -> i <> j ->
  Spec.decryptSegment params st segment i f = Some pt -> Spec.decryptSegment params st segment j g = Some pt' ->
  double_sealing params st segment i j.
Proof.
  intros Hp Hi Hj Hne H H'. assert (f = g) as <-.
  { pose proof (framing_ok_prefix _ _ _ Hp (decryptSegment_framed _ _ _ _ _ _ H)) as E.
    rewrite (framing_ok_prefix _ _ _ Hp (decryptSegment_framed _ _ _ _ _ _ H')) in E. by destruct f, g. }
  exists f, pt, pt'. split_and!; [|by apply decryptSegment_sealed..].
  by intros ?%segment_aead_aad_inj.
Qed.

(** The segment at index [i] of an opened body opens at that position, as the
    final one exactly when it is the last. *)
Lemma decryptAll_lookup params segs : forall st st' pt i segment,
  32 <= params < u32_max -> Spec.Closed st = false -> 0 <= Spec.Counter st <= Spec.AEAD_MAX_SEGMENTS - 1 ->
  decryptAll params st segs = Some (st', pt) -> Spec.Closed st' = true -> segs !! i = Some segment ->
  Spec.Counter st + Z.of_nat i <= Spec.AEAD_MAX_SEGMENTS - 1 /\ exists x,
    Spec.decryptSegment params (Spec.base st) segment (Spec.Counter st + Z.of_nat i) (bool_decide (S i = length segs))
      = Some x.
Proof.
  induction segs as [|s segs IH]; intros st st' pt i segment Hp Hopen Hc H Hclosed Hi; [done|].
  cbn [decryptAll] in H. apply bind_Some in H as ([st1 pt1] & Hd & H). apply bind_Some in H as ([st2 pt2] & H & [= -> <-]).
  apply decryptAny_some in Hd as (_ & is_final & Hlim & Hd & ->); [|done]. destruct is_final; cbn [advanced] in H.
  - apply closed_ends in H as ->; [|done..]. destruct i; [|done]. injection Hi as <-.
    rewrite Z.add_0_r. split; [lia|]. by exists pt1.
  - specialize (Hlim eq_refl). destruct i as [|i].
    + injection Hi as <-. rewrite Z.add_0_r. split; [lia|]. exists pt1. rewrite bool_decide_false; [done|].
      destruct segs; [|done]. cbn [decryptAll] in H. by injection H as <- _.
    + destruct (IH (advanced st false) _ _ _ _ Hp eq_refl ltac:(cbn; lia) H Hclosed Hi) as (Hle & x & Hx).
      cbn [advanced Spec.Counter Spec.base] in *.
      split; [lia|]. exists x. rewrite <- Hx. f_equal; [lia|].
      apply bool_decide_ext. cbn [length]. lia.
Qed.

(** The pieces of a body, each as long as its prefix tells. *)
Definition cut (p : Parameters.t) (segs : list bytes) : Prop :=
  Forall (fun s => exists f, SegmentFraming.decode p (ztake 4 s) = Ok f /\ SegmentFraming.ciphertext_length f = zlen s) segs.

Lemma decode_length p prefix f :
  Parameters.valid p -> SegmentFraming.decode p prefix = Ok f -> 32 <= SegmentFraming.ciphertext_length f.
Proof.
  intros Hp H. destruct (valid_payload p Hp) as [Hl Hpay]. pose proof u32_le_usize.
  unfold SegmentFraming.decode in H. floe_consts.
  destruct (_ =? _) eqn:E; cbn [obind] in H.
  - apply obind_inv_ok in H as (n & _ & [= <-]). cbn. rewrite ciphertext_segment_length_ok by done. lia.
  - destruct (negb _) eqn:E'; [done|]. cbn [obind] in H. apply obind_inv_ok in H as (n & _ & [= <-]). cbn.
    rewrite length_u32_to_usize_id; [lia|]. unfold in_u32, Parameters.ciphertext_segment_length_u32 in *. floe_consts. lia.
Qed.

Lemma cut_unique p segs1 : forall segs2,
  Parameters.valid p -> cut p segs1 -> cut p segs2 -> concat segs1 = concat segs2 -> segs1 = segs2.
Proof.
  assert (forall s, Parameters.valid p ->
    (exists f, SegmentFraming.decode p (ztake 4 s) = Ok f /\ SegmentFraming.ciphertext_length f = zlen s) -> 32 <= zlen s)
    as Hlen by (intros s Hp (f & Hd & <-); by eapply decode_length).
  induction segs1 as [|s1 segs1 IH]; intros [|s2 segs2] Hp H1 H2 Heq; cbn [concat] in Heq.
  - done.
  - apply Forall_cons in H2 as [H2 _]. apply (Hlen _ Hp) in H2. apply (f_equal zlen) in Heq.
    rewrite zlen_app, zlen_nil in Heq. pose proof (zlen_nonneg (concat segs2)). lia.
  - apply Forall_cons in H1 as [H1 _]. apply (Hlen _ Hp) in H1. apply (f_equal zlen) in Heq.
    rewrite zlen_app, zlen_nil in Heq. pose proof (zlen_nonneg (concat segs1)). lia.
  - apply Forall_cons in H1 as [H1 Hs1], H2 as [H2 Hs2].
    pose proof (Hlen _ Hp H1). pose proof (Hlen _ Hp H2).
    destruct H1 as (f1 & D1 & L1), H2 as (f2 & D2 & L2).
    assert (ztake 4 s1 = ztake 4 s2) as H4.
    { rewrite <- (ztake_app_l 4 s1 (concat segs1)), <- (ztake_app_l 4 s2 (concat segs2)) by lia. by rewrite Heq. }
    rewrite H4, D2 in D1. apply ok_inj in D1 as ->.
    apply app_inj_1 in Heq as [-> Heq]; [|unfold zlen in *; lia]. f_equal. by apply IH.
Qed.

Lemma opened_cut p segs : forall st st' pt,
  Parameters.valid p -> decryptAll (Parameters.segment_length p) st segs = Some (st', pt) -> cut p segs.
Proof.
  induction segs as [|s segs IH]; intros st st' pt Hp H; [by apply Forall_nil_2|].
  cbn [decryptAll] in H. apply bind_Some in H as ([st1 pt1] & Hd & H). apply bind_Some in H as ([st2 pt2] & H & _).
  apply Forall_cons_2; [|by eapply IH]. apply decryptAny_some in Hd as (_ & is_final & _ & Hd%decryptSegment_framed & _).
  2: by apply valid_params.
  pose (c := MessageContext.new Provider.RING p (SecretBytes.mk []) [] []).
  pose (kind := if is_final then SegmentKind.Final else SegmentKind.NonFinal).
  exists (FramingFacts.framing_of kind (zlen s - 32)). split; [|cbn; lia].
  apply (framing_ok_decode c s kind); [done|]. unfold framing_ok. by destruct is_final.
Qed.

(** A message that the parameters accept, cut into its segments: each opens at
    its index, and the last is the final one. *)
Lemma accepted_segments p key aad h segs m :
  Header.wf h -> cut p segs -> accepts_with p key aad (Header.as_bytes h ++ concat segs) m ->
  segs <> [] /\ forall i segment, segs !! i = Some segment -> in_u64 (Z.of_nat i) /\ exists x,
    Spec.decryptSegment (Parameters.segment_length p) (message_state p key aad h) segment (Z.of_nat i)
      (bool_decide (S i = length segs)) = Some x.
Proof.
  intros Hh Hcut H. apply accepts_with_unique in H as (Hp & _ & ost & Hstart & segs' & st' & Hc & Hall & Hclosed); [|done].
  apply (cut_unique p) in Hc as ->; [|done|by eapply opened_cut|done].
  unfold Spec.startOnlineDecryption in Hstart. apply bind_Some in Hstart as (st & Hstart & [= <-]).
  apply started_fields in Hstart as (_ & _ & ->); [|exact Hh]. split.
  { intros ->. cbn [decryptAll] in Hall. by injection Hall as <- _. }
  intros i segment Hi. eapply decryptAll_lookup in Hall as (Hle & x & Hx); [|by apply valid_params|done|by cbn|done|exact Hi].
  cbn [Spec.Counter Spec.base] in *. unfold Spec.AEAD_MAX_SEGMENTS in Hle. split; [unfold in_u64, u64_max; lia|]. by exists x.
Qed.

(** C8: the segments of a message cannot be reordered, repeated or dropped.
    When a message's own segments, in any selection and order, decrypt again
    behind its header, they are the same segments in the same order; otherwise
    one of them shows a nonce, ciphertext and tag that AES-GCM gives for two
    different associated data, those of two positions. *)
Theorem no_rearrangement (key : Key.t) (aad : bytes) (p : Parameters.t) (h : Header.t) (segs segs' : list bytes)
  (m m' : bytes) (Hp : Parameters.valid p) (Hh : Header.wf h) (Hcut : cut p segs) (Hsub : segs' ⊆ segs)
  (Hsize : slice_ok (Header.as_bytes h ++ concat segs)) (Hsize' : slice_ok (Header.as_bytes h ++ concat segs'))
  (H : decrypt_with_parameters key aad p (Header.as_bytes h ++ concat segs) = Ok m)
  (H' : decrypt_with_parameters key aad p (Header.as_bytes h ++ concat segs') = Ok m') :
  (segs' = segs /\ m' = m)
  \/ exists i j segment, i <> j /\ segs' !! i = Some segment /\ segs !! j = Some segment
      /\ double_sealing (Parameters.segment_length p) (message_state p key aad h) segment (Z.of_nat i) (Z.of_nat j).
Proof.
  pose proof (decrypt_with_parameters_ok p key aad _ Hp Hsize) as Ha. rewrite H in Ha.
  pose proof (decrypt_with_parameters_ok p key aad _ Hp Hsize') as Ha'. rewrite H' in Ha'.
  assert (Hcut' : cut p segs') by (apply Forall_forall; intros s Hs; eapply Forall_forall in Hcut; [done|by apply Hsub]).
  destruct (accepted_segments _ _ _ _ _ _ Hh Hcut Ha) as [_ Hopen].
  destruct (accepted_segments _ _ _ _ _ _ Hh Hcut' Ha') as [Hne Hopen'].
  pose proof (valid_params p Hp) as Hpp. destruct (prefix_or_differs segs segs') as [[rest ->]|(i & s & Hi & Hd)].
  - left. assert (rest = []) as ->; [|split; [by rewrite app_nil_r|rewrite app_nil_r in H; congruence]].
    destruct (exists_last Hne) as (front & s & ->).
    assert ((front ++ [s]) !! length front = Some s) as Hs by by apply list_lookup_middle.
    destruct (Hopen' _ _ Hs) as (_ & x & Hx), (Hopen _ _ (lookup_app_l_Some _ rest _ _ Hs)) as (_ & y & Hy).
    apply decryptSegment_framed, (framing_ok_prefix _ _ _ Hpp) in Hx, Hy. rewrite Hx in Hy.
    rewrite bool_decide_true in Hy by (rewrite length_app; cbn; lia). symmetry in Hy. apply negb_false_iff, bool_decide_eq_true in Hy.
    rewrite !length_app in Hy. cbn in Hy. destruct rest; [done|cbn in Hy; lia].
  - right. destruct (proj1 (list_elem_of_lookup segs s)) as [j Hj]; [by apply Hsub, list_elem_of_lookup; exists i|].
    assert (i <> j) as Hij by (by intros <-). exists i, j, s. split_and!; [done..|].
    destruct (Hopen' _ _ Hi) as (Hui & x & Hx), (Hopen _ _ Hj) as (Huj & y & Hy).
    eapply opened_twice; [done..|lia|done|done].
Qed.

End Order.

(** ** Witnesses *)

Module BindingExamples.
Import OnlineExamples.

(** The same key bytes with a provider of its own. *)
Definition other_key : Key.t := Key.from_bytes_with_provider (Reference.fill 1 32) Provider.RING.

Definition segments : list bytes := [segment 0; segment 1; segment 2; segment 3].
Definition swapped : list bytes := [segment 1; segment 0; segment 2; segment 3].

End BindingExamples.

Lemma message_commits_witness :
  decrypt (T := target64) Examples.key OnlineExamples.aad OnlineExamples.message = Ok OnlineExamples.plaintext
  /\ ((Key.as_bytes Examples.key = Key.as_bytes BindingExamples.other_key
        /\ OnlineExamples.aad = OnlineExamples.aad /\ OnlineExamples.plaintext = OnlineExamples.plaintext)
      \/ tag_collision OnlineExamples.message (Key.as_bytes Examples.key) OnlineExamples.aad
           (Key.as_bytes BindingExamples.other_key) OnlineExamples.aad).
Proof.
  split; [by vm_compute|].
  apply (message_commits (T := target64) Examples.key BindingExamples.other_key OnlineExamples.aad OnlineExamples.aad
           OnlineExamples.message OnlineExamples.plaintext OnlineExamples.plaintext); by vm_compute.
Defined.

(** The segments in their order decrypt; with two of them swapped they do not. *)
Lemma no_rearrangement_witness :
  decrypt_with_parameters (T := target64) Examples.key OnlineExamples.aad Parameters.SEGMENT_64_B
    (Header.as_bytes OnlineExamples.header ++ concat BindingExamples.swapped) = Err AuthenticationFailed
  /\ ((BindingExamples.segments = BindingExamples.segments /\ OnlineExamples.plaintext = OnlineExamples.plaintext)
      \/ exists i j segment, i <> j /\ BindingExamples.segments !! i = Some segment
          /\ BindingExamples.segments !! j = Some segment
          /\ double_sealing 64 (message_state Parameters.SEGMENT_64_B Examples.key OnlineExamples.aad OnlineExamples.header)
               segment (Z.of_nat i) (Z.of_nat j)).
Proof.
  split; [by vm_compute|].
  apply (no_rearrangement (T := target64) Examples.key OnlineExamples.aad Parameters.SEGMENT_64_B OnlineExamples.header
           BindingExamples.segments BindingExamples.segments OnlineExamples.plaintext OnlineExamples.plaintext);
    [done|by vm_compute| |done|by vm_compute..].
  repeat (apply Forall_cons_2; [eexists; split; by vm_compute|]). by apply Forall_nil_2.
Defined.
