(* ===== verification/DebugProperties.v ===== *)
(** * What [Debug] texts reveal

    The text of a state is determined by its public data: the provider, the
    parameters, the IV and the header, lengths, positions and counts. Keys,
    associated data, nonces, plaintexts and a reader's look-ahead have no
    influence on it, neither directly nor through the calls that used them. *)

From stdpp Require Import strings.
From S2P Require Import Prelude Bytes Error Parameters Provider Crypto Reference Key Buffer State StateFacts StateProperties.
From S2P Require Import StdIo Wire Online Io RandomAccess OnlineFacts DebugText OnlineRuns OnlineProperties.

(** ** The public data *)

(** Provider, parameters, IV and the length of the associated data; the masked
    position of the cached key, the place in the nonce batch, the header and the
    counter. *)
Abbreviation context_data := (Provider.t * Parameters.t * bytes * Z)%type.
Abbreviation encryptor_data := (context_data * option Z * Z * Header.t * SegmentCounter.t)%type.
Abbreviation decryptor_data := (context_data * option Z * SegmentCounter.t)%type.

Section Public.
Context {T : Target} {F : Features} {B : Backend} {Su : Support}.

Definition public_context (c : MessageContext.t) : context_data :=
  (MessageContext.provider c, MessageContext.parameters c, MessageContext.floe_iv c, zlen (MessageContext.aad c)).

Definition public_cache (k : KeyCache.t) : option Z := option_map CachedKey.masked_position (KeyCache.cached_key k).

Definition public_encryption (s : EncryptionState.t) : context_data * option Z * Z :=
  (public_context (EncryptionState.context s), public_cache (EncryptionState.keys s),
   NonceGenerator.next_index (EncryptionState.nonces s)).

Definition public_decryption (s : DecryptionState.t) : context_data * option Z :=
  (public_context (DecryptionState.context s), public_cache (DecryptionState.keys s)).

Definition public_encryptor (e : Encryptor.t) : encryptor_data :=
  (public_encryption (Encryptor.state e), Encryptor.header e, Encryptor.counter e).

Definition public_decryptor (d : Decryptor.t) : decryptor_data :=
  (public_decryption (Decryptor.state d), Decryptor.counter d).

Definition public_buffer (b : SegmentBuffer.t) : Parameters.t * Z * BufferState.t :=
  (SegmentBuffer.parameters b, SegmentBuffer.capacity b, SegmentBuffer.state b).

Context {R : Type}.

Definition public_encrypt_writer (w : EncryptWriter.t (W := R)) : R * _ * Header.t * _ * StreamStatus.t :=
  (EncryptWriter.inner w, option_map public_encryptor (EncryptWriter.encryptor w), EncryptWriter.header w,
   public_buffer (EncryptWriter.buffer w), EncryptWriter.status w).

Definition public_encrypt_reader (r : EncryptReader.t (R := R)) :
    R * _ * Header.t * Z * _ * (Z * Z) * bool * StreamStatus.t :=
  (EncryptReader.inner r, option_map public_encryptor (EncryptReader.encryptor r), EncryptReader.header r,
   EncryptReader.header_position r, public_buffer (EncryptReader.buffer r),
   (EncryptReader.ciphertext_position r, EncryptReader.ciphertext_length r),
   bool_decide (is_Some (EncryptReader.lookahead r)), EncryptReader.status r).

Definition public_decrypt_reader (r : DecryptReader.t (R := R)) : R * _ * Header.t * _ * (Z * Z) * DecryptStatus.t :=
  (DecryptReader.inner r, option_map public_decryptor (DecryptReader.decryptor r), DecryptReader.header r,
   public_buffer (DecryptReader.buffer r),
   (DecryptReader.plaintext_consumed r, DecryptReader.plaintext_available r), DecryptReader.status r).

Definition public_reader (r : Reader.t (R := R)) : R * _ * Header.t * MessageLayout.t * _ * (Z * Z * option Z * option Z) :=
  (Reader.inner r, public_decryption (Reader.state r), Reader.header r, Reader.layout r, public_buffer (Reader.scratch r),
   (Reader.message_start r, Reader.plaintext_position r, Reader.cached_position r, Reader.inner_position r)).

End Public.

(** ** The texts *)

(** The parts of equal public data, as far as they are written as tuples. *)
Ltac split_public :=
  repeat match goal with H : (_, _) = (_, _) |- _ => apply pair_eq in H as [? ?] end.

Section Texts.
Context {T : Target} {F : Features} {B : Backend} {Su : Support}.

Lemma field_eq {A} `{Debug A} name (a a' : A) : debug a = debug a' -> field name a = field name a'.
Proof. unfold field. by intros ->. Qed.

Lemma debug_context c c' : public_context c = public_context c' -> debug c = debug c'.
Proof.
  destruct c as [pr p k iv a], c' as [pr' p' k' iv' a']. unfold public_context; cbn. intros [= -> -> -> Ha].
  unfold debug, debug_MessageContext; cbn. by rewrite Ha.
Qed.

Lemma debug_cache k k' : public_cache k = public_cache k' -> debug k = debug k'.
Proof. unfold public_cache, debug, debug_KeyCache. by intros ->. Qed.

Lemma debug_nonces g g' : NonceGenerator.next_index g = NonceGenerator.next_index g' -> debug g = debug g'.
Proof. unfold debug, debug_NonceGenerator. by intros ->. Qed.

Lemma debug_buffer b b' : public_buffer b = public_buffer b' -> debug b = debug b'.
Proof.
  unfold public_buffer. intros H. split_public. unfold debug, debug_SegmentBuffer. congruence.
Qed.

Lemma debug_option_eq {A V} `{Debug A} (public : A -> V) (o o' : option A) :
  (forall a a', public a = public a' -> debug a = debug a') ->
  option_map public o = option_map public o' -> debug o = debug o'.
Proof.
  intros Ha Ho. destruct o as [a|], o' as [a'|]; cbn in Ho; try done.
  injection Ho as Ho%Ha. unfold debug, debug_option. by rewrite Ho.
Qed.

Lemma debug_encryption s s' : public_encryption s = public_encryption s' -> debug s = debug s'.
Proof.
  unfold public_encryption. intros H. split_public. unfold debug at 1 2, debug_EncryptionState.
  by rewrite (field_eq "context" _ (EncryptionState.context s')), (field_eq "keys" _ (EncryptionState.keys s')),
    (field_eq "nonces" _ (EncryptionState.nonces s')) by auto using debug_context, debug_cache, debug_nonces.
Qed.

Lemma debug_decryption s s' : public_decryption s = public_decryption s' -> debug s = debug s'.
Proof.
  unfold public_decryption. intros H. split_public. unfold debug at 1 2, debug_DecryptionState.
  by rewrite (field_eq "context" _ (DecryptionState.context s')), (field_eq "keys" _ (DecryptionState.keys s'))
    by auto using debug_context, debug_cache.
Qed.

Lemma debug_encryptor e e' : public_encryptor e = public_encryptor e' -> debug e = debug e'.
Proof.
  unfold public_encryptor. intros H. split_public. unfold debug at 1 2, debug_Encryptor.
  rewrite (field_eq "state" _ (Encryptor.state e')) by auto using debug_encryption. congruence.
Qed.

Lemma debug_decryptor d d' : public_decryptor d = public_decryptor d' -> debug d = debug d'.
Proof.
  unfold public_decryptor. intros H. split_public. unfold debug at 1 2, debug_Decryptor.
  rewrite (field_eq "state" _ (Decryptor.state d')) by auto using debug_decryption. congruence.
Qed.

Context {R : Type} {DR : Debug R}.

Lemma debug_encrypt_writer (w w' : EncryptWriter.t (W := R)) :
  public_encrypt_writer w = public_encrypt_writer w' -> debug w = debug w'.
Proof.
  unfold public_encrypt_writer. intros H. split_public. unfold debug at 1 2, debug_EncryptWriter.
  rewrite (field_eq "encryptor" _ (EncryptWriter.encryptor w')) by eauto using debug_option_eq, debug_encryptor.
  rewrite (field_eq "buffer" _ (EncryptWriter.buffer w')) by auto using debug_buffer. congruence.
Qed.

Lemma debug_encrypt_reader (r r' : EncryptReader.t (R := R)) :
  public_encrypt_reader r = public_encrypt_reader r' -> debug r = debug r'.
Proof.
  unfold public_encrypt_reader. intros H. split_public. unfold debug at 1 2, debug_EncryptReader.
  rewrite (field_eq "encryptor" _ (EncryptReader.encryptor r')) by eauto using debug_option_eq, debug_encryptor.
  rewrite (field_eq "buffer" _ (EncryptReader.buffer r')) by auto using debug_buffer.
  replace (match EncryptReader.lookahead r with Some _ => true | None => false end)
    with (match EncryptReader.lookahead r' with Some _ => true | None => false end); [congruence|].
  destruct (EncryptReader.lookahead r), (EncryptReader.lookahead r'); try done;
    match goal with H : bool_decide _ = bool_decide _ |- _ => exfalso; revert H; by vm_compute end.
Qed.

Lemma debug_decrypt_reader (r r' : DecryptReader.t (R := R)) :
  public_decrypt_reader r = public_decrypt_reader r' -> debug r = debug r'.
Proof.
  unfold public_decrypt_reader. intros H. split_public. unfold debug at 1 2, debug_DecryptReader.
  rewrite (field_eq "decryptor" _ (DecryptReader.decryptor r')) by eauto using debug_option_eq, debug_decryptor.
  rewrite (field_eq "buffer" _ (DecryptReader.buffer r')) by auto using debug_buffer. congruence.
Qed.

Lemma debug_random_access_reader (r r' : Reader.t (R := R)) :
  public_reader r = public_reader r' -> debug r = debug r'.
Proof.
  unfold public_reader. intros H. split_public. unfold debug at 1 2, debug_Reader.
  rewrite (field_eq "state" _ (Reader.state r')) by auto using debug_decryption.
  rewrite (field_eq "scratch" _ (Reader.scratch r')) by auto using debug_buffer. congruence.
Qed.

End Texts.

(** ** What one segment changes *)

Section Segments.
Context {T : Target} {F : Features} {B : Backend} {Su : Support}.

(** The position of the next nonce after one is drawn. *)
Definition drawn (n : Z) : Z := (if n =? NONCE_BATCH_LENGTH then 0 else n) + AEAD_IV_LENGTH.

Definition key_at (c : MessageContext.t) (position : Z) (k : KeyCache.t) : Prop :=
  public_cache k = Some (Parameters.masked_position (MessageContext.parameters c) position).

Lemma key_for_position_public c position k : on_ok (KeyCache.key_for_position c position) k (key_at c position).
Proof.
  unfold KeyCache.key_for_position. apply on_ok_if; [apply on_ok_fail|]. apply on_ok_get.
  eapply (on_ok_bind _ _ _ (key_at c position)).
  - destruct (KeyCache.cached_key k) as [cached|] eqn:Hk; [destruct (CachedKey.masked_position cached =? _) eqn:Hm|].
    + apply on_ok_ret. unfold key_at, public_cache. rewrite Hk. cbn. f_equal. lia.
    + apply on_ok_lift. intros cached' Hd. unfold CachedKey.derive in Hd. apply obind_inv_ok in Hd as (key & _ & [= <-]). done.
    + apply on_ok_lift. intros cached' Hd. unfold CachedKey.derive in Hd. apply obind_inv_ok in Hd as (key & _ & [= <-]). done.
  - intros _ k' Hk. apply on_ok_get, on_ok_lift. intros cached _. by apply on_ok_ret.
Qed.

Lemma nonce_public g :
  on_ok NonceGenerator.next g (fun g' => NonceGenerator.next_index g' = drawn (NonceGenerator.next_index g)).
Proof.
  unfold NonceGenerator.next, drawn. apply on_ok_get.
  apply (on_ok_bind _ _ _ (fun g' => NonceGenerator.next_index g'
    = if NonceGenerator.next_index g =? NONCE_BATCH_LENGTH then 0 else NonceGenerator.next_index g)).
  - destruct (_ =? _); [|by apply on_ok_ret]. eapply (on_ok_bind _ _ _ (fun _ => True)); [by apply on_ok_any|]. done.
  - intros _ g' Hg. apply on_ok_get. do 4 (apply on_ok_lift; intros ??).
    match goal with H : usize (_ + AEAD_IV_LENGTH) = Ok ?a |- on_ok (let! _ := modify (fun self => _ self ?a) in _) _ _ =>
      unfold usize in H; destruct (in_range _ _); [injection H as H|done] end.
    eapply (on_ok_bind _ _ _ _); [|intros _ s' Hs; apply on_ok_ret; exact Hs]. unfold on_ok, wp; cbn. lia.
Qed.

(** The cells after a segment is sealed at a position. *)
Definition sealed_at (c : MessageContext.t) (position : Z) (g : NonceGenerator.t) (s : KeyCache.t * NonceGenerator.t * bytes) : Prop :=
  key_at c position (fst (fst s)) /\ NonceGenerator.next_index (snd (fst s)) = drawn (NonceGenerator.next_index g).

Lemma framing_public kind required g out :
  on_ok (write_segment_framing kind required) (g, out)
    (fun s => NonceGenerator.next_index (fst s) = drawn (NonceGenerator.next_index g)).
Proof.
  unfold write_segment_framing. apply on_ok_lift. intros prefix _. apply on_ok_get, on_ok_lift. intros out1 _.
  apply (on_ok_bind _ _ _ (fun s => fst s = g)); [done|]. intros _ [g1 out2] [= ->].
  apply (on_ok_bind _ _ _ (fun s => NonceGenerator.next_index (fst s) = drawn (NonceGenerator.next_index g)));
    [apply on_ok_zoom, nonce_public|]. intros nonce s Hs.
  apply on_ok_get, on_ok_lift. intros out3 _. eapply (on_ok_bind _ _ _ (fun s' => fst s' = fst s)); [done|].
  intros _ s' Hs'. apply on_ok_ret. by rewrite Hs'.
Qed.

Lemma begin_public c n position kind k g out :
  on_ok (begin_segment_encryption c n position kind) (k, g, out) (sealed_at c position g).
Proof.
  unfold begin_segment_encryption. apply on_ok_lift. intros required _. apply on_ok_get, on_ok_if; [apply on_ok_fail|].
  eapply (on_ok_bind _ _ _ (fun s => NonceGenerator.next_index (snd (fst s)) = drawn (NonceGenerator.next_index g))).
  { apply on_ok_zoom. eapply on_ok_mono; [apply framing_public|]. done. }
  intros nonce [[k1 g1] out1] Hg. apply (on_ok_bind _ _ _ (sealed_at c position g)).
  { apply on_ok_zoom. eapply on_ok_mono; [apply key_for_position_public|]. by split. }
  intros key s Hs. apply on_ok_lift. intros aad _. by apply on_ok_ret.
Qed.

(** Sealing changes only the output. *)
Lemma on_ok_output {A X} (m : M Error bytes X) (k : X -> M Error (KeyCache.t * NonceGenerator.t * bytes) A) c position g s :
  sealed_at c position g s -> (forall x s', sealed_at c position g s' -> on_ok (k x) s' (sealed_at c position g)) ->
  on_ok (bindM (zoom lens_snd m) k) s (sealed_at c position g).
Proof.
  intros Hs Hk. apply (on_ok_bind _ _ _ (sealed_at c position g)); [|done].
  apply on_ok_zoom, on_ok_any. intros out. exact Hs.
Qed.

Lemma into_inner_public c plaintext position kind k g out :
  on_ok (encrypt_segment_into_inner c plaintext position kind) (k, g, out) (sealed_at c position g).
Proof.
  unfold encrypt_segment_into_inner. eapply on_ok_bind; [apply begin_public|].
  intros [[[required nonce] key] aad] s Hs. apply on_ok_output; [done|]. intros _ s' Hs'. by apply on_ok_ret.
Qed.

Lemma in_place_inner_public c n position kind k g out :
  on_ok (encrypt_segment_in_place_inner c n position kind) (k, g, out) (sealed_at c position g).
Proof.
  unfold encrypt_segment_in_place_inner. eapply on_ok_bind; [apply begin_public|].
  intros [[[required nonce] key] aad] s Hs. apply on_ok_lift. intros tag_start _.
  apply on_ok_output; [done|]. intros tag s1 Hs1. apply on_ok_get, on_ok_lift. intros buffer _.
  apply on_ok_output; [done|]. intros _ s2 Hs2. by apply on_ok_ret.
Qed.

(** The state after a segment is sealed. *)
Definition seals (position : Z) (st st' : EncryptionState.t) : Prop :=
  EncryptionState.context st' = EncryptionState.context st
  /\ key_at (EncryptionState.context st) position (EncryptionState.keys st')
  /\ NonceGenerator.next_index (EncryptionState.nonces st')
     = drawn (NonceGenerator.next_index (EncryptionState.nonces st)).

Lemma into_at_public plaintext position kind st out :
  on_ok (EncryptionState.encrypt_segment_into_at plaintext position kind) (st, out) (fun s => seals position st (fst s)).
Proof.
  unfold EncryptionState.encrypt_segment_into_at. apply on_ok_get, on_ok_zoom.
  eapply on_ok_mono; [apply into_inner_public|]. intros [[k g] out'] [Hk Hg]. done.
Qed.

Lemma raw_at_public n position kind st out :
  on_ok (EncryptionState.encrypt_segment_in_place_raw_at n position kind) (st, out) (fun s => seals position st (fst s)).
Proof.
  unfold EncryptionState.encrypt_segment_in_place_raw_at. apply on_ok_get, on_ok_zoom.
  eapply on_ok_mono; [apply in_place_inner_public|]. intros [[k g] out'] [Hk Hg]. done.
Qed.

Lemma at_public plaintext position kind st :
  on_ok (EncryptionState.encrypt_segment_at plaintext position kind) st (seals position st).
Proof.
  unfold EncryptionState.encrypt_segment_at. apply on_ok_get, on_ok_lift. intros required _.
  apply on_ok_lift. intros output _. apply (on_ok_bind _ _ _ (seals position st)).
  { apply on_ok_with_local, into_at_public. }
  intros done st' Hst'. by apply on_ok_ret.
Qed.

Lemma in_place_at_public position kind st b :
  on_ok (EncryptionState.encrypt_segment_in_place_at position kind) (st, b) (fun s => seals position st (fst s)).
Proof.
  unfold EncryptionState.encrypt_segment_in_place_at. apply on_ok_get, on_ok_if; [apply on_ok_fail|].
  apply on_ok_lift. intros n _. apply (on_ok_match _ _ _ _ (fun s => seals position st (fst s))).
  - apply on_ok_zoom. eapply on_ok_mono; [apply raw_at_public|]. done.
  - intros written s Hs. apply (on_ok_bind _ _ _ (fun s => seals position st (fst s))); [done|].
    intros _ s' Hs'. apply on_ok_get. unfold on_ok, wp, lift. cbn. by destruct (SegmentBuffer.ciphertext _).
  - intros e s. apply (on_ok_bind _ _ _ (fun _ => True)); [by apply on_ok_any|]. intros _ s' _. apply on_ok_fail.
Qed.

(** The public data after a call for a segment that is not the last. *)
Definition after_segment (e : encryptor_data) : encryptor_data :=
  let '(c, k, n, h, counter) := e in
  (c, Some (Parameters.masked_position (snd (fst (fst c))) (SegmentCounter.next counter)), drawn n, h,
   SegmentCounter.mk (SegmentCounter.next counter + 1) (SegmentCounter.closed counter)).

Lemma advance_public {W A} (me : lens W Encryptor.t) (op : Z -> M Error W A) s :
  (forall s e, view me (update me s e) = e) ->
  (forall position, on_ok (op position) s (fun s' =>
     seals position (Encryptor.state (view me s)) (Encryptor.state (view me s'))
     /\ Encryptor.header (view me s') = Encryptor.header (view me s)
     /\ Encryptor.counter (view me s') = Encryptor.counter (view me s))) ->
  on_ok (Encryptor.advance me op) s (fun s' =>
    public_encryptor (view me s') = after_segment (public_encryptor (view me s))).
Proof.
  intros Hme Hop. unfold Encryptor.advance. apply on_ok_get, on_ok_lift. intros position Hpos.
  assert (position = SegmentCounter.next (Encryptor.counter (view me s))) as ->.
  { unfold SegmentCounter.position_for in Hpos. destruct (SegmentCounter.closed _); [done|].
    destruct (_ =? _); [done|]. by injection Hpos. }
  eapply on_ok_bind; [apply Hop|]. cbn beta. intros value s1 ((Hc & Hk & Hn) & Hh & Hcnt).
  eapply (on_ok_bind _ _ _ (fun s' => public_encryptor (view me s') = after_segment (public_encryptor (view me s))));
    [|intros _ s' Hs'; by apply on_ok_ret].
  do 2 apply on_ok_zoom. unfold SegmentCounter.complete. apply on_ok_get, on_ok_lift. intros next Hnext.
  unfold u64 in Hnext. destruct (in_range _ _); [injection Hnext as <-|done].
  unfold on_ok, wp. cbn. rewrite Hme. unfold public_encryptor, public_encryption. cbn.
  unfold key_at in Hk. by rewrite Hc, Hk, Hn, Hh, Hcnt.
Qed.

Lemma encrypt_call_public call e :
  on_ok (EncryptCall.perform call) e (fun e' => public_encryptor e' = after_segment (public_encryptor e)).
Proof.
  destruct call as [plaintext|plaintext output|buffer].
  - apply (advance_public lens_id); [done|]. intros position. apply on_ok_zoom.
    eapply on_ok_mono; [apply at_public|]. done.
  - assert (on_ok (Encryptor.encrypt_non_final_segment_into plaintext) (e, output)
      (fun s => public_encryptor (fst s) = after_segment (public_encryptor e))) as H.
    { apply (advance_public lens_fst); [done|]. intros position. apply on_ok_zoom.
      eapply on_ok_mono; [apply into_at_public|]. done. }
    unfold EncryptCall.perform, on_ok, wp in *. by destruct (Encryptor.encrypt_non_final_segment_into _ _) as [[] [? ?]].
  - assert (on_ok Encryptor.encrypt_non_final_segment_in_place (e, buffer)
      (fun s => public_encryptor (fst s) = after_segment (public_encryptor e))) as H.
    { apply (advance_public lens_fst); [done|]. intros position. apply on_ok_zoom.
      eapply on_ok_mono; [apply in_place_at_public|]. done. }
    unfold EncryptCall.perform, on_ok, wp in *. by destruct (Encryptor.encrypt_non_final_segment_in_place _) as [[] [? ?]].
Qed.

(** Opening: the cells after a segment is opened at a position. *)
Lemma open_into_public c segment position kind n k out :
  on_ok (decrypt_segment_into_inner c segment position kind n) (k, out) (fun s => key_at c position (fst s)).
Proof.
  unfold decrypt_segment_into_inner. apply on_ok_get, on_ok_if; [apply on_ok_fail|].
  apply (on_ok_bind _ _ _ (fun s => key_at c position (fst s))); [apply on_ok_zoom, key_for_position_public|].
  intros key s Hs. do 7 (apply on_ok_lift; intros ? _).
  apply (on_ok_bind _ _ _ (fun s => key_at c position (fst s))); [by apply on_ok_zoom, on_ok_any|].
  intros _ s' Hs'. by apply on_ok_ret.
Qed.

Lemma open_in_place_public c position kind n k buffer :
  on_ok (open_segment_in_place c position kind n) (k, buffer) (fun s => key_at c position (fst s)).
Proof.
  unfold open_segment_in_place.
  apply (on_ok_bind _ _ _ (fun s => key_at c position (fst s))); [apply on_ok_zoom, key_for_position_public|].
  intros key s Hs. apply on_ok_get. do 7 (apply on_ok_lift; intros ? _).
  apply (on_ok_bind _ _ _ (fun s => key_at c position (fst s))); [by apply on_ok_zoom, on_ok_any|].
  intros _ s' Hs'. by apply on_ok_ret.
Qed.

Definition opens_at (position : Z) (st st' : DecryptionState.t) : Prop :=
  DecryptionState.context st' = DecryptionState.context st
  /\ key_at (DecryptionState.context st) position (DecryptionState.keys st').

Lemma at_framed_public segment position f st :
  on_ok (DecryptionState.decrypt_segment_at_framed segment position f) st (opens_at position st).
Proof.
  unfold DecryptionState.decrypt_segment_at_framed, DecryptionState.decrypt_segment_allocating.
  apply on_ok_lift. intros n _. apply on_ok_get, on_ok_lift. intros output _.
  apply (on_ok_bind _ _ _ (opens_at position st)); [|intros done s Hs; by apply on_ok_ret].
  apply on_ok_with_local, on_ok_zoom. eapply on_ok_mono; [apply open_into_public|]. done.
Qed.

Lemma into_at_framed_public segment position f st out :
  on_ok (DecryptionState.decrypt_segment_into_at_framed segment position f) (st, out) (fun s => opens_at position st (fst s)).
Proof.
  unfold DecryptionState.decrypt_segment_into_at_framed. apply on_ok_get, on_ok_lift. intros n _.
  apply on_ok_zoom. eapply on_ok_mono; [apply open_into_public|]. done.
Qed.

Lemma in_place_at_framed_public position f st b :
  on_ok (DecryptionState.decrypt_segment_in_place_at_framed position f) (st, b) (fun s => opens_at position st (fst s)).
Proof.
  unfold DecryptionState.decrypt_segment_in_place_at_framed. apply on_ok_get, on_ok_if; [apply on_ok_fail|].
  do 2 (apply on_ok_lift; intros ? _).
  apply (on_ok_bind _ _ _ (fun s => opens_at position st (fst s))); [|intros bounds s Hs; by apply on_ok_ret].
  apply on_ok_zoom, on_ok_zoom_range_snd, on_ok_zoom. eapply on_ok_mono; [apply open_in_place_public|]. done.
Qed.

(** After a segment is decrypted, the cached key is that of the position before
    the counter, or at it when the segment was the final one. *)
Definition decrypted (d d' : Decryptor.t) : Prop :=
  public_context (DecryptionState.context (Decryptor.state d')) = public_context (DecryptionState.context (Decryptor.state d))
  /\ let counter := Decryptor.counter d' in
     let position := if SegmentCounter.closed counter then SegmentCounter.next counter else SegmentCounter.next counter - 1 in
     key_at (DecryptionState.context (Decryptor.state d)) position (DecryptionState.keys (Decryptor.state d')).

Lemma decrypt_advance_public {W A} (me : lens W Decryptor.t) kind (op : Z -> M Error W A) s :
  (forall s d, view me (update me s d) = d) ->
  (forall position, on_ok (op position) s (fun s' =>
     opens_at position (Decryptor.state (view me s)) (Decryptor.state (view me s'))
     /\ Decryptor.counter (view me s') = Decryptor.counter (view me s))) ->
  on_ok (Decryptor.advance me kind op) s (fun s' => decrypted (view me s) (view me s')).
Proof.
  intros Hme Hop. unfold Decryptor.advance. apply on_ok_get, on_ok_lift. intros position Hpos.
  assert (position = SegmentCounter.next (Decryptor.counter (view me s))
          /\ SegmentCounter.closed (Decryptor.counter (view me s)) = false) as [-> Hopen].
  { unfold SegmentCounter.position_for in Hpos. destruct (SegmentCounter.closed _); [done|].
    destruct kind; destruct (_ : bool); try done; by injection Hpos. }
  eapply on_ok_bind; [apply Hop|]. cbn beta. intros value s1 ((Hc & Hk) & Hcnt).
  eapply (on_ok_bind _ _ _ (fun s' => decrypted (view me s) (view me s'))); [|intros _ s' Hs'; by apply on_ok_ret].
  do 2 apply on_ok_zoom. unfold SegmentCounter.complete. apply on_ok_get. destruct kind.
  - apply on_ok_lift. intros next Hnext. unfold u64 in Hnext. destruct (in_range _ _); [injection Hnext as <-|done].
    unfold on_ok, wp, decrypted. cbn. rewrite Hme. cbn. rewrite Hc, Hcnt, Hopen, Z.add_simpl_r. done.
  - unfold on_ok, wp, decrypted. cbn. rewrite Hme. cbn. rewrite Hc, Hcnt. done.
Qed.

Lemma decrypt_call_public call d : on_ok (DecryptCall.perform call) d (decrypted d).
Proof.
  destruct call as [segment|segment output|buffer].
  - apply on_ok_get, on_ok_lift. intros f _. apply (decrypt_advance_public lens_id); [done|].
    intros position. apply on_ok_zoom. eapply on_ok_mono; [apply at_framed_public|]. done.
  - assert (on_ok (Decryptor.decrypt_segment_into segment) (d, output) (fun s => decrypted d (fst s))) as H.
    { apply on_ok_get, on_ok_lift. intros f _. apply (decrypt_advance_public lens_fst); [done|].
      intros position. apply on_ok_zoom. eapply on_ok_mono; [apply into_at_framed_public|]. done. }
    unfold DecryptCall.perform, on_ok, wp in *. by destruct (Decryptor.decrypt_segment_into _ _) as [[] [? ?]].
  - assert (on_ok Decryptor.decrypt_segment_in_place (d, buffer) (fun s => decrypted d (fst s))) as H.
    { unfold Decryptor.decrypt_segment_in_place, SegmentBuffer.decrypt_with.
      apply (on_ok_match _ _ _ _ (fun s => decrypted d (fst s))).
      - apply on_ok_get. do 2 (apply on_ok_lift; intros ? _). apply (decrypt_advance_public lens_fst); [done|].
        intros position. apply on_ok_zoom. eapply on_ok_mono; [apply in_place_at_framed_public|]. done.
      - intros n s Hs. apply (on_ok_bind _ _ _ (fun s => decrypted d (fst s))); [done|]. intros _ s' Hs'.
        apply on_ok_lift. intros stop _. by apply on_ok_zoom, on_ok_any.
      - intros e s. apply (on_ok_bind _ _ _ (fun _ => True)); [by apply on_ok_any|]. intros _ s' _. apply on_ok_fail. }
    unfold DecryptCall.perform, on_ok, wp in *. by destruct (Decryptor.decrypt_segment_in_place _) as [[] [? ?]].
Qed.

End Segments.

(** ** Programs *)

Section Programs.
Context {T : Target} {F : Features} {P : Primitives} {B : Backend} {BOk : BackendOk} {Su : Support}.

Lemma format_eq {A} `{Debug A} alternate (a a' : A) : debug a = debug a' -> format alternate a = format alternate a'.
Proof. unfold format. by intros ->. Qed.

(** The text of an encryptor exists: no subtraction in it overflows. *)
Definition shown {A} `{Debug A} (a : A) : Prop := exists v, debug a = Ok v.

Lemma field_shown {A} `{Debug A} name (a : A) : shown a -> exists v, field name a = Ok v.
Proof. intros [v H1]. unfold field. rewrite H1. by eexists. Qed.

Lemma nonces_shown g : nonces_wf g -> shown g.
Proof.
  intros (_ & Hn & _). pose proof u32_le_usize. unfold u32_max in *.
  unfold shown, debug, debug_NonceGenerator. change NONCE_BATCH_LENGTH with 3072. rewrite usize_ok by lia. by eexists.
Qed.

Lemma cache_shown (k : KeyCache.t) : shown k.
Proof.
  unfold shown, debug, debug_KeyCache, debug_struct, field, debug, debug_option.
  destruct (option_map _ _); cbn; by eexists.
Qed.

Lemma encryption_shown st : nonces_wf (EncryptionState.nonces st) -> shown st.
Proof.
  intros Hn. unfold shown, debug at 1, debug_EncryptionState, debug_struct.
  destruct (field_shown "keys" _ (cache_shown (EncryptionState.keys st))) as [k ->].
  destruct (field_shown "nonces" _ (nonces_shown _ Hn)) as [g ->]. by eexists.
Qed.

Lemma encryptor_shown (e : Encryptor.t) : encryptor_wf e -> shown e.
Proof.
  intros [[_ [_ Hn]] _]. unfold shown, debug at 1, debug_Encryptor, debug_struct.
  destruct (field_shown "state" _ (encryption_shown _ Hn)) as [st ->]. by eexists.
Qed.

(** Decryptors with the same counter, after calls that succeeded. *)
Lemma decrypt_run_public calls : forall d log d',
  perform DecryptCall.perform calls d = (log, d') -> all_ok log -> calls <> [] -> decrypted d d'.
Proof.
  induction calls as [|c calls IH]; intros d log d' Hrun Hok Hne; [done|]. cbn [perform] in Hrun.
  pose proof (decrypt_call_public c d) as Hc. unfold on_ok, wp in Hc.
  destruct (DecryptCall.perform c d) as [r d1]. destruct (perform _ calls d1) as [log1 d2] eqn:Hrest.
  injection Hrun as <- <-. apply Forall_cons in Hok as [Hr Hok]. destruct r as [pt|e|h]; [|done..]. cbn in Hc.
  destruct calls as [|c' calls]; [by injection Hrest as <- <-|].
  apply IH in Hrest as [Hctx Hkey]; [|done..]. destruct Hc as [Hctx1 _].
  split; [congruence|]. unfold key_at in *. cbv zeta in *. unfold public_context in Hctx1. congruence.
Qed.

(** C21: the texts of [{:?}] and [{:#?}] show no secrets. Two keys have one
    text. Buffers, encryptors, decryptors and adapters have one text when their
    public data are the same, whatever keys, associated data of one length,
    nonces, plaintexts and look-ahead bytes they hold; the errors that carry an
    encryptor or a wrapped object do not print it. Nor do secrets reach the text
    through use: encryptors that start with the same public data have one text
    after equally many successful calls of any kinds on any plaintexts, and
    decryptors that start so and end with the same counter have one text
    whatever they decrypted. Formatting an encryptor does not panic. *)
Theorem debug_hides_secrets {R} {DR : Debug R} {DE : Debug IoError.t} (alternate : bool) :
  (forall k k' : Key.t, format alternate k = format alternate k')
  /\ (forall b b', public_buffer b = public_buffer b' -> format alternate b = format alternate b')
  /\ (forall e e', FinalEncryptError.error e = FinalEncryptError.error e' -> format alternate e = format alternate e')
  /\ (forall e e' : FinishError.t R, FinishError.error e = FinishError.error e' -> format alternate e = format alternate e')
  /\ (forall w w' : EncryptWriter.t (W := R), public_encrypt_writer w = public_encrypt_writer w' ->
       format alternate w = format alternate w')
  /\ (forall r r' : EncryptReader.t (R := R), public_encrypt_reader r = public_encrypt_reader r' ->
       format alternate r = format alternate r')
  /\ (forall r r' : DecryptReader.t (R := R), public_decrypt_reader r = public_decrypt_reader r' ->
       format alternate r = format alternate r')
  /\ (forall r r' : Reader.t (R := R), public_reader r = public_reader r' -> format alternate r = format alternate r')
  /\ (forall e1 e2 calls1 calls2 log1 log2 e1' e2', public_encryptor e1 = public_encryptor e2 ->
       length calls1 = length calls2 ->
       perform EncryptCall.perform calls1 e1 = (log1, e1') -> perform EncryptCall.perform calls2 e2 = (log2, e2') ->
       all_ok log1 -> all_ok log2 -> format alternate e1' = format alternate e2')
  /\ (forall d1 d2 calls1 calls2 log1 log2 d1' d2', public_decryptor d1 = public_decryptor d2 ->
       calls1 <> [] -> calls2 <> [] ->
       perform DecryptCall.perform calls1 d1 = (log1, d1') -> perform DecryptCall.perform calls2 d2 = (log2, d2') ->
       all_ok log1 -> all_ok log2 -> Decryptor.counter d1' = Decryptor.counter d2' ->
       format alternate d1' = format alternate d2')
  /\ (forall e : Encryptor.t, encryptor_wf e -> exists text, format alternate e = Ok text).
Proof.
  split_and!.
  - intros k k'. by apply format_eq.
  - intros b b' H. by apply format_eq, debug_buffer.
  - intros e e' H. apply format_eq. unfold debug, debug_FinalEncryptError. by rewrite H.
  - intros e e' H. apply format_eq. unfold debug, debug_FinishError. by rewrite H.
  - intros w w' H. by apply format_eq, debug_encrypt_writer.
  - intros r r' H. by apply format_eq, debug_encrypt_reader.
  - intros r r' H. by apply format_eq, debug_decrypt_reader.
  - intros r r' H. by apply format_eq, debug_random_access_reader.
  - intros e1 e2 calls1 calls2 log1 log2 e1' e2' H Hlen Hrun1 Hrun2 Hok1 Hok2. apply format_eq, debug_encryptor.
    apply (perform_iter _ public_encryptor after_segment) in Hrun1 as ->; [|intros; apply encrypt_call_public|done].
    apply (perform_iter _ public_encryptor after_segment) in Hrun2 as ->; [|intros; apply encrypt_call_public|done]. by rewrite H, Hlen.
  - intros d1 d2 calls1 calls2 log1 log2 d1' d2' H Hne1 Hne2 Hrun1 Hrun2 Hok1 Hok2 Hcnt. apply format_eq, debug_decryptor.
    apply decrypt_run_public in Hrun1 as [Hc1 Hk1], Hrun2 as [Hc2 Hk2]; [|done..].
    unfold key_at in *. cbv zeta in *. unfold public_decryptor, public_decryption in *. split_public.
    rewrite Hk1, Hk2, Hc1, Hc2, Hcnt. unfold public_context in *. congruence.
  - intros e [v Hv]%encryptor_shown. unfold format. rewrite Hv. by eexists.
Qed.

End Programs.

(** ** Witnesses *)

Module DebugExamples.

#[export] Instance debug_io_error : Debug IoError.t := fun _ => Ok (Fmt.Text "Error").

(** Two encryptors for the same header, with different keys, associated data and
    generators, and two programs that encrypt different plaintexts. *)
Definition encryptor1 : Encryptor.t (B := Reference.backend) :=
  Encryptor.mk Examples.encryption (Header.mk (zeros 74)) SegmentCounter.new.
Definition encryptor2 : Encryptor.t (B := Reference.backend) :=
  Encryptor.mk
    (EncryptionState.mk
       (MessageContext.new Provider.AWS_LC_RS Parameters.SEGMENT_64_B (SecretBytes.mk (Reference.fill 9 48)) (zeros 32)
          [byte_of_Z 200])
       KeyCache.empty (NonceGenerator.new (B := Reference.backend) 77))
    (Header.mk (zeros 74)) SegmentCounter.new.
Definition calls1 : list EncryptCall.t :=
  [EncryptCall.Allocating (zeros 32); EncryptCall.Into (zeros 32) (zeros 64)].
Definition calls2 : list EncryptCall.t :=
  [EncryptCall.Into (Reference.fill 3 32) (zeros 80); EncryptCall.Allocating (Reference.fill 50 32)].

Definition run1 := perform (EncryptCall.perform (T := target64)) calls1 encryptor1.
Definition run2 := perform (EncryptCall.perform (T := target64)) calls2 encryptor2.

Lemma runs_ok : all_ok (fst run1) /\ all_ok (fst run2).
Proof.
  assert (forall (log : list (EncryptCall.t * Result bytes)), forallb (fun entry => is_ok (snd entry)) log = true -> all_ok log)
    as H by (intros log Hl; apply Forall_forall; intros x Hx; by eapply forallb_forall in Hl; [|by apply list_elem_of_In]).
  split; apply H; by vm_compute.
Qed.

End DebugExamples.

Lemma debug_hides_secrets_witness :
  map (fun entry => is_ok (snd entry)) (fst DebugExamples.run1) = [true; true]
  /\ format false (Encryptor.counter (snd DebugExamples.run1))
     = Ok "SegmentCounter { next: 2, closed: false }"%string
  /\ format true (snd DebugExamples.run1) = format true (snd DebugExamples.run2).
Proof.
  split; [by vm_compute|]. split; [by vm_compute|]. destruct DebugExamples.runs_ok as [H1 H2].
  pose proof (debug_hides_secrets (T := target64) (BOk := Reference.backend_ok) (R := Z)
                (DE := DebugExamples.debug_io_error) true) as H.
  destruct H as (_ & _ & _ & _ & _ & _ & _ & _ & H & _).
  refine (H DebugExamples.encryptor1 DebugExamples.encryptor2 DebugExamples.calls1 DebugExamples.calls2
            (fst DebugExamples.run1) (fst DebugExamples.run2) (snd DebugExamples.run1) (snd DebugExamples.run2)
            _ _ _ _ H1 H2).
  - by vm_compute.
  - done.
  - unfold DebugExamples.run1. by destruct (perform _ _ _).
  - unfold DebugExamples.run2. by destruct (perform _ _ _).
Defined.
