(* ===== verification/EncryptWriterFacts.v ===== *)
(** * The encrypting writer

    Whatever is written, the sink holds the header and the segments of a run of
    the specification; the rest of what was accepted is in the buffer. *)

From S2P Require Import Prelude Bytes Error Parameters Provider Crypto Key Buffer Spec State StateFacts StateProperties.
From S2P Require Import StdIo Wire Online OnlineFacts OnlineMessages StreamFacts Io.
Import ParametersFacts LayoutFacts BufferFacts.

Section Writer.
Context {T : Target} {F : Features} {P : Primitives} {POk : PrimitivesOk} {B : Backend} {BOk : BackendOk}.
Context {Su : Support} {SuOk : SupportOk} {W : Type} {WW : Write W} {WOk : WriteOk W} (fuel : nat).

(** The message: the encryptor it started with and what the sink held before. *)
Context (p : Parameters.t) (e0 : Encryptor.t) (sink : bytes).

Definition writer_error (e : IoError.t) : Prop :=
  write_failure e \/ e = write_zero \/ stream_refusal e.

(** The fuel for writing a segment or a header. *)
Definition write_enough (w : W) : Prop :=
  (Z.to_nat (Z.max 74 (Parameters.segment_length p)) + write_patience w < fuel)%nat.

(** A writer that is open and has accepted some plaintext. *)
Record writing (w : EncryptWriter.t) (accepted : bytes) : Prop := {
  wr_status : EncryptWriter.status w = StreamStatus.Open;
  wr_buffer : wf (EncryptWriter.buffer w);
  wr_parameters : SegmentBuffer.parameters (EncryptWriter.buffer w) = p;
  wr_fuel : write_enough (EncryptWriter.inner w);
  wr_run : exists e chunks segments,
    EncryptWriter.encryptor w = Some e /\ streaming p e0 e chunks segments
    /\ written (EncryptWriter.inner w) = sink ++ Header.as_bytes (Encryptor.header e0) ++ concat segments
    /\ accepted = concat chunks ++ payload_of (EncryptWriter.buffer w)
}.

(** The message is complete. *)
Definition finished (w : EncryptWriter.t (W := W)) (accepted : bytes) : Prop :=
  EncryptWriter.status w = StreamStatus.Finished /\
  exists chunks segments, completed p e0 chunks segments
    /\ written (EncryptWriter.inner w) = sink ++ Header.as_bytes (Encryptor.header e0) ++ concat segments
    /\ concat chunks = accepted.

(** The outcome of an operation that poisons on errors. *)
Definition poisons {A} (r : IoResult A) (w : EncryptWriter.t (W := W)) (Q : A -> Prop) : Prop :=
  match r with
  | Ok a => Q a
  | Err e => EncryptWriter.status w = StreamStatus.Failed /\ writer_error e
  | Halt _ => False
  end.

Lemma poison_on_error_ok (op : IO EncryptWriter.t unit) w Q :
  wp op w (fun r w' =>
    match r with Ok _ => Q w' | Err e => writer_error e | Halt _ => False end) ->
  wp (EncryptWriter.poison_on_error op) w (fun r w' => poisons r w' (fun _ => Q w')).
Proof.
  intros H. apply wp_match. eapply wp_mono; [exact H|]. intros [u|e|h] w' Hr; [exact Hr| |done].
  apply wp_bind, wp_modify, wp_fail. by split.
Qed.

Lemma write_ciphertext_ok w segment :
  write_enough (EncryptWriter.inner w) -> SegmentBuffer.ciphertext (EncryptWriter.buffer w) = Ok segment ->
  zlen segment <= Parameters.segment_length p ->
  wp (EncryptWriter.write_ciphertext fuel) w (fun r w' => exists i,
    w' = EncryptWriter.set_inner w i /\ write_enough i
    /\ match r with
       | Ok _ => written i = written (EncryptWriter.inner w) ++ segment
       | Err e => writer_error e
       | Halt _ => False
       end).
Proof.
  intros Hfuel Hct Hlen. unfold write_enough in *. unfold EncryptWriter.write_ciphertext. apply wp_bind, wp_get.
  apply wp_bind, wp_lift. rewrite Hct. apply wp_zoom.
  eapply wp_mono; [apply write_all_ok; unfold EncryptWriter.inner_cell; cells; unfold zlen in Hlen; lia|].
  intros r i [Hp Hr]. unfold EncryptWriter.inner_cell in *. revert Hp Hr. cells. intros Hp Hr. exists i.
  split_and!; [done|lia|]. destruct r; [done| |done]. unfold writer_error. tauto.
Qed.

(** A segment was sealed into the buffer: what writing it gives. *)
Lemma sealed_written w e' accepted chunks segments chunk segment :
  written (EncryptWriter.inner w) = sink ++ Header.as_bytes (Encryptor.header e0) ++ concat segments ->
  accepted = concat chunks ++ chunk ->
  EncryptWriter.status w = StreamStatus.Open -> write_enough (EncryptWriter.inner w) ->
  EncryptWriter.encryptor w = Some e' -> seals p e0 chunks segments chunk e' segment ->
  holds p (EncryptWriter.buffer w) segment ->
  wp (EncryptWriter.write_ciphertext fuel) w (fun r w' =>
    match r with
    | Ok _ => writing w' accepted /\ payload_of (EncryptWriter.buffer w') = []
    | Err e => writer_error e
    | Halt _ => False
    end).
Proof.
  intros Hw -> Hst Hfuel He' [Hs' _] (Hb & Hp & Hct). destruct (ciphertext_inv _ _ Hb Hct) as (Hn & Hpay & Hlen).
  eapply wp_mono; [eapply write_ciphertext_ok; [done|exact Hct|by rewrite <- Hp]|].
  intros r w' (i & -> & Hi & Hr). destruct r as [u|err|h]; [|done..]. split; [|done].
  split; cbn [EncryptWriter.status EncryptWriter.buffer EncryptWriter.inner EncryptWriter.set_inner]; try done.
  exists e', (chunks ++ [chunk]), (segments ++ [segment]). cbn [EncryptWriter.encryptor EncryptWriter.set_inner].
  rewrite Hr, Hw, !concat_app, Hpay. cbn [concat]. rewrite !app_nil_r, <- !app_assoc. by split_and!.
Qed.

(** A full buffer is emitted. *)
Lemma emit_non_final_ok w accepted :
  writing w accepted ->
  SegmentBuffer.state (EncryptWriter.buffer w) = BufferState.Plaintext (payload p) ->
  wp (EncryptWriter.emit_non_final fuel) w (fun r w' =>
    poisons r w' (fun _ => writing w' accepted /\ payload_of (EncryptWriter.buffer w') = [])).
Proof.
  intros [Hst Hb Hp Hfuel (e & chunks & segments & He & Hs & Hw & Ha)] Hfull.
  apply (poison_on_error_ok _ w (fun w' => writing w' accepted /\ payload_of (EncryptWriter.buffer w') = [])).
  apply wp_bind, wp_get, wp_bind, wp_lift. rewrite He. cbn [ok_or]. apply wp_bind, wp_zoom.
  unfold EncryptWriter.with_buffer. cells. pose proof (zlen_payload_of _ Hb) as [Hpl _]. rewrite Hfull in Hpl.
  eapply wp_mono; [by eapply (stream_in_place_ok p e0 e chunks segments Hs)|].
  intros r [e' b']. cells. intros Hr. destruct r as [segment|err|h]; [|by right; right|done].
  destruct Hr as [Hh Hseal]. by eapply sealed_written.
Qed.

(** A segment straight from the input. *)
Lemma write_segment_direct_ok w accepted chunk :
  writing w accepted -> payload_of (EncryptWriter.buffer w) = [] -> zlen chunk = payload p ->
  wp (EncryptWriter.write_segment_direct fuel chunk) w (fun r w' =>
    poisons r w' (fun n => n = zlen chunk /\ writing w' (accepted ++ chunk)
      /\ payload_of (EncryptWriter.buffer w') = [])).
Proof.
  intros [Hst Hb Hp Hfuel (e & chunks & segments & He & Hs & Hw & Ha)] Hpay Hlen.
  rewrite Hpay, app_nil_r in Ha. subst accepted. unfold EncryptWriter.write_segment_direct. apply wp_bind.
  eapply wp_mono; [apply (poison_on_error_ok _ w (fun w' =>
    writing w' (concat chunks ++ chunk) /\ payload_of (EncryptWriter.buffer w') = []))|].
  2: { intros [u|err|h] w' Hr; [|exact Hr|done]. apply wp_ret. by split. }
  apply wp_bind, wp_get, wp_bind, wp_lift. rewrite He. cbn [ok_or]. apply wp_bind, wp_zoom.
  unfold EncryptWriter.with_raw, SegmentBuffer.raw_mut. cells.
  destruct (valid_payload _ (wf_valid _ Hb)) as [Hv1 Hv2]. rewrite Hp in Hv1, Hv2.
  pose proof (wf_storage _ Hb) as Hroom. rewrite Hp in Hroom.
  eapply wp_mono; [eapply (stream_into_ok p e0 e chunks segments Hs); [done|lia]|].
  intros r [e' out']. cells. intros [Hl Hr]. destruct r as [n|err|h]; [|by right; right|done].
  destruct Hr as (segment & -> & Hle & -> & Hseal). apply wp_bind, wp_zoom, wp_modify.
  unfold EncryptWriter.buffer_cell. cells. pose proof (proj2 Hseal) as Hseg.
  destruct (marked_ciphertext (EncryptWriter.buffer w) segment Hb) as [Hb' Hct]; [rewrite Hp; lia|].
  by eapply sealed_written.
Qed.

(** What [write] answers on an open writer. *)
Definition accepts_input (input accepted : bytes) (w' : EncryptWriter.t (W := W)) (n : Z) : Prop :=
  0 < n <= zlen input /\ writing w' (accepted ++ ztake n input).

Lemma writing_extend w accepted input :
  writing w accepted -> writing (EncryptWriter.set_buffer w (extended (EncryptWriter.buffer w) input))
    (accepted ++ ztake (taken (EncryptWriter.buffer w) input) input).
Proof.
  intros [Hst Hb Hp Hfuel (e & chunks & segments & He & Hs & Hw & Ha)].
  split; cbn [EncryptWriter.status EncryptWriter.buffer EncryptWriter.inner EncryptWriter.set_buffer]; try done.
  - by apply extended_wf.
  - exists e, chunks, segments. split_and!; [done..|]. by rewrite Ha, payload_of_extended, <- app_assoc by done.
Qed.

Lemma write_direct_prefix w accepted input :
  writing w accepted -> payload_of (EncryptWriter.buffer w) = [] -> payload p <= zlen input ->
  wp (let? chunk := index input 0 (payload p) in EncryptWriter.write_segment_direct fuel chunk) w (fun r w' =>
    poisons r w' (accepts_input input accepted w')).
Proof.
  intros H Hpay Hlen. destruct (valid_payload _ (wf_valid _ (wr_buffer _ _ H))) as [_ Hv].
  rewrite (wr_parameters _ _ H) in Hv. apply wp_bind, wp_lift. rewrite index_ok, slice_0 by lia.
  assert (zlen (ztake (payload p) input) = payload p) as Hz by (rewrite zlen_ztake; lia).
  eapply wp_mono; [by apply write_segment_direct_ok|]. intros [n|err|h] w' Hr; [|exact Hr..].
  destruct Hr as (-> & Hw & _). rewrite Hz. split; [lia|done].
Qed.

Lemma extend_ok w accepted input :
  writing w accepted ->
  wp (zoom EncryptWriter.buffer_cell (SegmentBuffer.extend_plaintext input)) w (fun r w' =>
    (r : IoResult Z) = Ok (taken (EncryptWriter.buffer w) input)
    /\ w' = EncryptWriter.set_buffer w (extended (EncryptWriter.buffer w) input)).
Proof.
  intros H. apply wp_zoom. eapply wp_eq; [apply extend_plaintext_ok, (wr_buffer _ _ H)|]. by split.
Qed.

(** When nothing is copied the buffer is full. *)
Lemma taken_nothing b input :
  wf b -> zlen input <> 0 -> taken b input <= 0 ->
  taken b input = 0 /\ SegmentBuffer.state (extended b input) = BufferState.Plaintext (payload (SegmentBuffer.parameters b)).
Proof.
  intros Hwf Hz Ht. pose proof (zlen_payload_of b Hwf) as [_ Hr]. pose proof (zlen_nonneg input).
  unfold extended. cbn. unfold taken in *. split; [lia|]. f_equal. lia.
Qed.

Lemma write_open_ok w accepted input :
  writing w accepted -> zlen input <> 0 ->
  wp (EncryptWriter.write fuel input) w (fun r w' => poisons r w' (accepts_input input accepted w')).
Proof.
  intros H Hz. pose proof H as [Hst Hb Hp _ _]. pose proof (zlen_nonneg input).
  destruct (valid_payload _ (wf_valid _ Hb)) as [_ Hv].
  unfold EncryptWriter.write. replace (zlen input =? 0) with false by lia. apply wp_bind, wp_get, wp_bind.
  rewrite Hst. apply wp_ret, wp_bind, wp_lift. unfold EncryptWriter.parameters.
  rewrite plaintext_segment_length_ok by apply (wf_valid _ Hb). rewrite Hp in *.
  destruct ((payload p <=? zlen input) && negb (is_ok (SegmentBuffer.plaintext_length (EncryptWriter.buffer w)))) eqn:Hc.
  { apply andb_prop in Hc as [Hc1 Hc2]. apply write_direct_prefix; [done| |lia].
    unfold SegmentBuffer.plaintext_length, payload_of in *.
    by destruct (SegmentBuffer.state (EncryptWriter.buffer w)). }
  apply wp_bind. eapply wp_mono; [by eapply extend_ok|]. intros r w1 [-> ->].
  pose proof (writing_extend _ _ input H) as H1. destruct (zlen_payload_of _ Hb) as [_ Hpl]. rewrite Hp in Hpl.
  destruct (Z.ltb_spec 0 (taken (EncryptWriter.buffer w) input)) as [Ht|Ht].
  { apply wp_ret. split; [unfold taken in *; lia|done]. }
  destruct (taken_nothing _ input Hb Hz Ht) as [Ht0 Hfull]. rewrite Hp in Hfull.
  rewrite Ht0, ztake_le0, app_nil_r in H1 by lia.
  apply wp_bind. eapply wp_mono; [by apply (emit_non_final_ok _ accepted)|].
  intros [u|err|h] w2 Hr; [|exact Hr|done]. destruct Hr as [H2 Hpay].
  destruct (Z.leb_spec (payload p) (zlen input)); [by apply write_direct_prefix|].
  eapply wp_mono; [by eapply extend_ok|]. intros r w3 [-> ->]. split; [|by apply writing_extend].
  unfold taken. rewrite Hpay, (wr_parameters _ _ H2). change (zlen (@nil byte)) with 0. lia.
Qed.

(** Finalization starts from a buffer with a plaintext, which may be empty. *)
Lemma final_payload_ok (w : EncryptWriter.t (W := W)) :
  wf (EncryptWriter.buffer w) ->
  wp (match SegmentBuffer.plaintext_length (EncryptWriter.buffer w) with
      | Err _ =>
          do! zoom EncryptWriter.buffer_cell (map_errM encryption_error (SegmentBuffer.prepare_plaintext 0)) in
          ret tt
      | _ => ret tt
      end) (EncryptWriter.set_encryptor w None) (fun r w' =>
    r = Ok tt /\ exists b n, w' = EncryptWriter.set_buffer (EncryptWriter.set_encryptor w None) b /\ wf b
      /\ SegmentBuffer.parameters b = SegmentBuffer.parameters (EncryptWriter.buffer w)
      /\ SegmentBuffer.state b = BufferState.Plaintext n /\ payload_of b = payload_of (EncryptWriter.buffer w)).
Proof.
  intros Hb. destruct w as [i e h b st]. cbn [EncryptWriter.buffer] in *.
  destruct (valid_payload _ (wf_valid _ Hb)). pose proof (wf_storage _ Hb).
  unfold SegmentBuffer.plaintext_length. destruct (SegmentBuffer.state b) as [|n|n] eqn:Hst.
  2: { apply wp_ret. split; [done|]. by exists b, n. }
  all: apply wp_bind, wp_zoom, wp_map_err; unfold EncryptWriter.buffer_cell; cells;
    cbn [EncryptWriter.buffer EncryptWriter.set_encryptor]; (eapply wp_eq; [apply prepare_plaintext_ok; [done|lia]|]);
    cbn [map_err]; apply wp_ret; (split; [done|]); exists (SegmentBuffer.set_state b (BufferState.Plaintext 0)), 0;
    (split; [done|]); (split; [apply wf_set_plaintext; [done|lia]|]); (split; [done|]); (split; [done|]);
    unfold payload_of; rewrite Hst; cbn; by rewrite slice_empty by lia.
Qed.

Lemma finish_message_ok w accepted :
  writing w accepted ->
  wp (EncryptWriter.finish_message fuel) w (fun r w' =>
    match r with Ok _ => finished w' accepted | Err e => writer_error e | Halt _ => False end).
Proof.
  intros [Hst Hb Hp Hfuel (e & chunks & segments & He & Hs & Hw & Ha)].
  unfold EncryptWriter.finish_message. apply wp_bind, wp_get, wp_bind, wp_modify, wp_bind, wp_lift.
  rewrite He. cbn [ok_or]. apply wp_bind. eapply wp_mono; [by apply final_payload_ok|].
  intros r w1 (-> & b & n & -> & Hb1 & Hp1 & Hn & Hpay). rewrite Hp in Hp1.
  apply wp_bind, wp_zoom. unfold EncryptWriter.buffer_cell. cells. cbn [EncryptWriter.buffer EncryptWriter.set_buffer].
  change (fun error => encryption_error _) with full_error.
  eapply wp_mono; [by eapply (stream_last_in_place_ok p e0 e chunks segments Hs)|].
  intros r b2 Hr. destruct r as [segment|err|h]; [|by right; right|done].
  destruct Hr as ((Hb2 & Hp2 & Hct) & Hdone & _).
  destruct (ciphertext_inv _ _ Hb2 Hct) as (_ & _ & Hlen). rewrite Hp2 in Hlen. apply wp_bind.
  eapply wp_mono; [by apply (write_ciphertext_ok _ segment)|].
  intros r w2 (i & -> & Hi & Hwr). destruct r as [u|err|h]; [|done..].
  apply wp_bind, wp_zoom. eapply wp_mono; [apply flush_promise|].
  intros r i2 (Hw2 & _ & Hflush). destruct r as [u'|err|h]; [|by left|done].
  apply wp_modify. split; [done|]. exists (chunks ++ [payload_of b]), (segments ++ [segment]).
  cbn in Hw2, Hwr |- *. rewrite Hw2, Hwr, Hw, Hpay, !concat_app. cbn [concat].
  rewrite !app_nil_r, <- !app_assoc. rewrite Hpay in Hdone. by split_and!.
Qed.

Lemma try_finish_open_ok w accepted :
  writing w accepted ->
  wp (EncryptWriter.try_finish fuel) w (fun r w' => poisons r w' (fun _ => finished w' accepted)).
Proof.
  intros H. apply wp_bind, wp_get. rewrite (wr_status _ _ H).
  apply (poison_on_error_ok _ w (fun w' => finished w' accepted)). by apply finish_message_ok.
Qed.

(** Flushing leaves what is written. *)
Lemma inner_flush_ok (w : EncryptWriter.t (W := W)) :
  wp (zoom EncryptWriter.inner_cell flush) w (fun r w' => exists i,
    w' = EncryptWriter.set_inner w i /\ written i = written (EncryptWriter.inner w)
    /\ (write_patience i <= write_patience (EncryptWriter.inner w))%nat
    /\ match r with Ok _ => True | Err e => write_failure e | Halt _ => False end).
Proof. apply wp_zoom. eapply wp_mono; [apply flush_promise|]. intros r i Hr. by exists i. Qed.

End Writer.

(** ** The constructor *)

Section Constructor.
Context {T : Target} {F : Features} {P : Primitives} {POk : PrimitivesOk} {B : Backend} {BOk : BackendOk}.
Context {Su : Support} {SuOk : SupportOk} {W : Type} {WW : Write W} {WOk : WriteOk W} (fuel : nat).

Lemma writer_new_ok entropy sink key aad p :
  Parameters.valid p -> Parameters.segment_length p <= isize_max -> write_enough fuel p sink ->
  match EncryptWriter.new fuel entropy sink key aad p with
  | Ok w => exists e, Encryptor.new entropy key aad p = Ok e
      /\ EncryptWriter.header w = Encryptor.header e /\ writing fuel p e (written sink) w []
  | Err e => write_failure e \/ e = write_zero \/ exists err, e = encryption_error err
      /\ (Key.provider key = Err err \/ ((err = RngFailure \/ err = CryptoFailure) /\ backend_fails))
  | Halt _ => False
  end.
Proof.
  intros Hv Hsize Hfuel. unfold EncryptWriter.new. pose proof (encryptor_new_ok entropy key aad p Hv) as Hn.
  destruct (Encryptor.new entropy key aad p) as [e|err|h]; cbn [map_err obind]; [| |done].
  2: { right; right. by exists err. }
  destruct Hn as (He & Hcnt & Hpar & _). pose proof He as (_ & _ & Hh).
  unfold Header.wf, Header.LEN in Hh. revert Hh. floe_consts. intros Hh.
  pose proof (write_all_ok fuel (Header.as_bytes (Encryptor.header e)) sink) as Hall. unfold wp in Hall.
  unfold write_enough, Header.as_bytes in *.
  destruct (write_all fuel _ sink) as [r i]. destruct Hall as [Hpat Hr]; [unfold zlen in Hh; lia|]. cells.
  destruct r as [u|err|h]; cbn [obind]; [|cbn [fst snd] in Hr; tauto|done].
  rewrite new_ok by done. cbn [obind]. exists e. split_and!; [done..|]. cbn [fst snd] in Hpat, Hr.
  split; cbn [EncryptWriter.status EncryptWriter.buffer EncryptWriter.inner EncryptWriter.encryptor]; try done.
  - apply (new_wf (E := IoError.t) p); [done|by apply new_ok].
  - unfold write_enough. lia.
  - exists e, [], []. cbn [concat]. rewrite app_nil_r. split_and!; [done|by apply streaming_start|done|done].
Qed.

End Constructor.
