(* ===== verification/EncryptReaderFacts.v ===== *)
(** * The encrypting reader

    Whatever is read, what was emitted and what is still buffered are the header
    and the segments of a run of the specification over the source. *)

From S2P Require Import Prelude Bytes Error Parameters Provider Crypto Key Buffer Spec State StateFacts StateProperties.
From S2P Require Import StdIo Wire Online OnlineFacts OnlineMessages StreamFacts Io.
Import ParametersFacts LayoutFacts BufferFacts.

Section Reader.
Context {T : Target} {F : Features} {P : Primitives} {POk : PrimitivesOk} {B : Backend} {BOk : BackendOk}.
Context {Su : Support} {SuOk : SupportOk} {R : Type} {RR : Read R} {ROk : ReadOk R} (fuel : nat).

(** The message: the encryptor it started with, and the whole plaintext. *)
Context (p : Parameters.t) (e0 : Encryptor.t) (source : bytes).

Abbreviation reader := (EncryptReader.t (R := R)).

Definition reader_error (e : IoError.t) : Prop := read_failure e \/ stream_refusal e.

Definition lookahead_bytes (l : option byte) : bytes := match l with Some b => [b] | None => [] end.

(** The plaintext that is still to be encrypted. *)
Definition unread (i : R) (l : option byte) : bytes := lookahead_bytes l ++ remaining i.

(** The fields that [fill_plaintext] changes. *)
Definition refilled (r : reader) (i : R) (b : SegmentBuffer.t) (l : option byte) : reader :=
  EncryptReader.mk i (EncryptReader.encryptor r) (EncryptReader.header r) (EncryptReader.header_position r) b
    (EncryptReader.ciphertext_position r) (EncryptReader.ciphertext_length r) l (EncryptReader.status r).

(** The lookahead byte goes first: the window's first bytes are the lookahead. *)
Lemma take_lookahead_ok i b l r :
  wf b ->
  wp (match l with
      | Some byte =>
          do! zoom EncryptReader.buffer_cell (zoom SegmentBuffer.raw_mut
                (zoom_range 16 (16 + payload (SegmentBuffer.parameters b)) (
                   let! plaintext := get in
                   let? plaintext := copy_to plaintext 0 1 [byte] in
                   put plaintext))) in
          ret 1
      | None => ret 0
      end) (refilled r i b None) (fun res r' =>
    (res : IoResult Z) = Ok (zlen (lookahead_bytes l)) /\ exists content,
      r' = refilled r i (set_window b content) None /\ zlen content = payload (SegmentBuffer.parameters b)
      /\ ztake (zlen (lookahead_bytes l)) content = lookahead_bytes l).
Proof.
  intros Hb. pose proof (zlen_window b Hb) as Hl. destruct (valid_payload _ (wf_valid _ Hb)).
  pose proof (wf_storage _ Hb). destruct l as [x|]; cbn [lookahead_bytes].
  - apply wp_bind, wp_zoom, wp_zoom. change 1 with (zlen [x]) at 1.
    eapply wp_mono; [apply (put_prefix_ok (E := IoError.t)); [lia|]|].
    { unfold EncryptReader.buffer_cell, SegmentBuffer.raw_mut. cells. cbn [EncryptReader.buffer refilled].
      change (zlen [x]) with 1. lia. }
    intros res l' (-> & content & -> & Hlen & Hpre). apply wp_ret. split; [done|]. exists content.
    split_and!; [done|lia|done].
  - apply wp_ret. split; [done|]. exists (window b). rewrite set_window_same by done.
    split_and!; [done..|by rewrite ztake_le0].
Qed.

(** One more byte is read to find out whether the source ends. *)
Lemma look_ahead_ok i b r n :
  enough fuel i -> (n < payload p -> remaining i = []) -> n <= payload p ->
  wp (if n <? payload p then ret true
      else
        let! (actual, trailing) := zoom EncryptReader.inner_cell (with_local (zeros 1) (read_fully fuel)) in
        if actual =? 0 then ret true
        else
          do! modify (EncryptReader.set_lookahead (head trailing)) in
          ret false) (refilled r i b None) (fun res r' =>
    match res with
    | Ok is_final => exists i' l, r' = refilled r i' b l /\ enough fuel i' /\ remaining i = unread i' l
        /\ (if is_final : bool then unread i' l = [] else n = payload p)
    | Err e => read_failure e
    | Halt _ => False
    end).
Proof.
  intros Hfuel Hshort Hn. destruct (Z.ltb_spec n (payload p)).
  { apply wp_ret. exists i, None. split_and!; [done..|]. by apply Hshort. }
  apply wp_bind, wp_zoom, wp_with_local. unfold EncryptReader.inner_cell. cells. cbn [EncryptReader.inner refilled].
  eapply wp_mono; [by apply read_fully_ok|]. intros res [i' out]. cells. change (zlen (zeros 1)) with 1.
  intros (Hl & taken & Hc & Hle & Htake & Hres). destruct res as [m|e|h]; cbn [omap_ok]; [|done..].
  destruct Hres as [-> Hend]. pose proof (consumes_enough _ _ _ _ Hc Hfuel) as Hfuel'.
  destruct (Z.eqb_spec (zlen taken) 0) as [Hz|Hz].
  - apply wp_ret. exists i', None. apply zlen_0_nil in Hz as ->. destruct Hc as [Hc _]. unfold unread.
    split_and!; [done|done|by rewrite Hc|]. apply Hend. change (zlen (@nil byte)) with 0. lia.
  - pose proof (zlen_nonneg taken). apply wp_bind, wp_modify, wp_ret. rewrite ztake_all in Htake by lia. subst out.
    destruct taken as [|x [|y taken]]; [done| |rewrite !zlen_cons in Hl; pose proof (zlen_nonneg taken); lia].
    exists i', (Some x). split_and!; [done|done| |lia]. destruct Hc as [Hc _]. exact Hc.
Qed.

(** The next chunk of the source is put into the buffer. *)
Lemma fill_plaintext_ok r :
  wf (EncryptReader.buffer r) -> SegmentBuffer.parameters (EncryptReader.buffer r) = p ->
  enough fuel (EncryptReader.inner r) ->
  wp (EncryptReader.fill_plaintext fuel) r (fun res r' =>
    match res with
    | Ok is_final => exists i b l chunk, r' = refilled r i b l
        /\ wf b /\ SegmentBuffer.parameters b = p /\ SegmentBuffer.state b = BufferState.Plaintext (zlen chunk)
        /\ payload_of b = chunk /\ enough fuel i
        /\ unread (EncryptReader.inner r) (EncryptReader.lookahead r) = chunk ++ unread i l
        /\ segment_fits (Parameters.segment_length p) is_final (zlen chunk)
        /\ (is_final = true -> unread i l = [])
    | Err e => read_failure e
    | Halt _ => False
    end).
Proof.
  intros Hb Hp Hfuel. destruct (valid_payload _ (wf_valid _ Hb)) as [Hv1 Hv2]. pose proof u32_le_usize as Hu.
  unfold u32_max in Hu. unfold EncryptReader.fill_plaintext, EncryptReader.parameters.
  apply wp_bind, wp_get, wp_bind, wp_lift. rewrite plaintext_segment_length_ok by apply (wf_valid _ Hb). rewrite Hp in *.
  apply wp_bind, wp_zoom, wp_map_err. unfold EncryptReader.buffer_cell at 1. cells.
  eapply wp_eq; [apply prepare_plaintext_ok; [done|rewrite Hp; lia]|]. cbn [map_err].
  set (b1 := SegmentBuffer.set_state _ _).
  assert (Hb1 : wf b1) by (apply wf_set_plaintext; [done|rewrite Hp; lia]).
  apply wp_bind, wp_get, wp_bind, wp_modify.
  change (EncryptReader.set_lookahead None _) with (refilled r (EncryptReader.inner r) b1 None).
  change (EncryptReader.lookahead (update _ _ _)) with (EncryptReader.lookahead r).
  assert (Hp1 : SegmentBuffer.parameters b1 = p) by done.
  assert (Hst1 : SegmentBuffer.state b1 = BufferState.Plaintext (payload p)) by done.
  rewrite <- Hp1. clearbody b1.
  apply wp_bind. eapply wp_mono; [by apply take_lookahead_ok|].
  intros res r1 (-> & content & -> & Hcl & Hct).
  destruct (set_window_ok b1 content Hb1 Hcl) as [Hb2 Hw2]. set (b2 := set_window b1 content) in *.
  assert (Hp2 : SegmentBuffer.parameters b2 = p) by done.
  set (pre := lookahead_bytes (EncryptReader.lookahead r)) in *.
  apply wp_bind, wp_zoom. unfold EncryptReader.inner_and_raw, SegmentBuffer.raw_mut. cells.
  cbn [EncryptReader.inner EncryptReader.buffer refilled].
  pose proof (wf_storage _ Hb2) as Hst2. rewrite Hp2 in Hst2.
  replace (payload (SegmentBuffer.parameters b1)) with (16 + payload p - 16) at 2 by (rewrite Hp1; lia).
  rewrite Hp1. eapply wp_mono; [apply read_into_ok; [lia|lia| |done]|].
  { unfold window in Hw2. rewrite Hp2 in Hw2. by rewrite Hw2. }
  intros res [i2 l2]. cells. intros (content3 & taken & -> & Hcl3 & Hc & Hle & Htake & Hres).
  destruct res as [n|e|h]; [|done..]. destruct Hres as [-> Hend].
  pose proof (zlen_nonneg pre). pose proof (zlen_nonneg taken).
  apply wp_bind, wp_lift. rewrite usize_ok by lia. set (b3 := set_window b2 content3).
  replace (16 + payload p - 16) with (payload p) in * by lia.
  destruct (set_window_ok b2 content3 Hb2) as [Hb3 Hw3]; [by rewrite Hp2|]. fold b3 in Hb3, Hw3.
  change (EncryptReader.set_buffer _ _) with (refilled r i2 b3 None). rewrite <- zlen_app in *.
  apply wp_bind. eapply wp_mono; [apply look_ahead_ok; [by eapply consumes_enough|exact Hend|done]|].
  intros res r3 H3. destruct res as [is_final|e|h]; [|done..]. destruct H3 as (i3 & l3 & -> & Hfuel3 & Hrem & Hfin).
  assert (Hst3 : SegmentBuffer.state b3 = BufferState.Plaintext (payload p)) by exact Hst1.
  assert (Hp3 : SegmentBuffer.parameters b3 = p) by done.
  destruct (truncate_window b3 (pre ++ taken)) as (Ht & Hb4 & Hpay); [done|by rewrite Hp3|by rewrite Hp3|by rewrite Hw3|].
  apply wp_bind, wp_zoom, wp_map_err. eapply wp_eq; [exact Ht|]. apply wp_ret.
  eexists i3, _, l3, (pre ++ taken). split_and!; [done|done|done|done|done|done| | |].
  - destruct Hc as [Hc _]. unfold unread at 1. fold pre. by rewrite Hc, Hrem, <- app_assoc.
  - unfold segment_fits. destruct is_final; lia.
  - by intros ->.
Qed.

(** *** The invariant *)

(** The ciphertext that is buffered and not yet emitted. *)
Definition buffered (r : reader) (pending : bytes) : Prop :=
  (EncryptReader.ciphertext_position r = EncryptReader.ciphertext_length r /\ pending = [])
  \/ (0 <= EncryptReader.ciphertext_position r < EncryptReader.ciphertext_length r
      /\ exists segment, SegmentBuffer.ciphertext (EncryptReader.buffer r) = Ok segment
           /\ zlen segment = EncryptReader.ciphertext_length r
           /\ pending = zdrop (EncryptReader.ciphertext_position r) segment).

(** Where the message is, given its segments so far. *)
Definition progress (r : reader) (chunks segments : list bytes) : Prop :=
  match EncryptReader.status r with
  | StreamStatus.Open => exists e, EncryptReader.encryptor r = Some e /\ streaming p e0 e chunks segments
      /\ source = concat chunks ++ unread (EncryptReader.inner r) (EncryptReader.lookahead r)
  | StreamStatus.Finished => completed p e0 chunks segments /\ concat chunks = source
  | StreamStatus.Failed => False
  end.

Record reading (r : reader) (emitted : bytes) : Prop := {
  rd_buffer : wf (EncryptReader.buffer r);
  rd_parameters : SegmentBuffer.parameters (EncryptReader.buffer r) = p;
  rd_fuel : enough fuel (EncryptReader.inner r);
  rd_header : EncryptReader.header r = Encryptor.header e0 /\ zlen (Header.as_bytes (Encryptor.header e0)) = 74;
  rd_position : 0 <= EncryptReader.header_position r <= 74;
  rd_stream : exists chunks segments pending,
    buffered r pending /\ progress r chunks segments
    /\ emitted ++ zdrop (EncryptReader.header_position r) (Header.as_bytes (Encryptor.header e0)) ++ pending
       = Header.as_bytes (Encryptor.header e0) ++ concat segments
    /\ (EncryptReader.header_position r < 74 -> pending = [] /\ segments = [])
}.

(** The header and all buffered ciphertext were emitted. *)
Definition drained (r : reader) : Prop :=
  EncryptReader.header_position r = 74
  /\ EncryptReader.ciphertext_position r = EncryptReader.ciphertext_length r.

Lemma drained_emitted r emitted :
  reading r emitted -> drained r -> exists chunks segments,
    progress r chunks segments /\ emitted = Header.as_bytes (Encryptor.header e0) ++ concat segments.
Proof.
  intros [_ _ _ [_ Hh] _ (chunks & segments & pending & Hbuf & Hpr & Heq & _)] [Hd1 Hd2].
  exists chunks, segments. split; [done|]. rewrite <- Heq, zdrop_all by lia.
  destruct Hbuf as [[_ ->]|[Hlt _]]; [by rewrite !app_nil_r|lia].
Qed.

(** What a read of [out] gives. *)
Definition delivers (emitted out : bytes) (res : IoResult Z) (s : reader * bytes) : Prop :=
  zlen (snd s) = zlen out /\
  match res with
  | Ok n => exists piece, n = zlen piece /\ n <= zlen out /\ snd s = splice out 0 piece
      /\ reading (fst s) (emitted ++ piece)
  | Err e => EncryptReader.status (fst s) = StreamStatus.Failed /\ reader_error e
  | Halt _ => False
  end.

Definition fails_with (res : IoResult unit) (r : reader) (Q : Prop) : Prop :=
  match res with
  | Ok _ => Q
  | Err e => EncryptReader.status r = StreamStatus.Failed /\ reader_error e
  | Halt _ => False
  end.

(** A buffer that holds a segment from its first byte. *)
Lemma loaded_reading r i b l e' st' chunks segments segment emitted :
  reading r emitted -> drained r ->
  emitted = Header.as_bytes (Encryptor.header e0) ++ concat segments ->
  wf b -> SegmentBuffer.parameters b = p -> enough fuel i ->
  SegmentBuffer.ciphertext b = Ok segment -> 32 <= zlen segment ->
  let r' := EncryptReader.mk i e' (EncryptReader.header r) (EncryptReader.header_position r) b 0 (zlen segment) l st' in
  progress r' chunks (segments ++ [segment]) ->
  reading r' emitted /\ EncryptReader.header_position r' = 74
  /\ EncryptReader.ciphertext_position r' < EncryptReader.ciphertext_length r'.
Proof.
  intros [_ _ _ Hh Hpos _] [Hd1 Hd2] Hem Hb Hp Hfuel Hct Hlen r' Hpr. split; [|split; [exact Hd1|cbn; lia]].
  split; try done. exists chunks, (segments ++ [segment]), segment.
  split; [right; cbn; split; [lia|]; exists segment; by rewrite zdrop_le0 by lia|].
  split; [done|]. cbn [EncryptReader.header_position r']. rewrite Hd1. split; [|lia].
  rewrite zdrop_all by lia. by rewrite Hem, concat_app, <- !app_assoc; cbn [concat app]; rewrite app_nil_r.
Qed.

Lemma encrypt_load_ok r emitted :
  reading r emitted -> drained r -> EncryptReader.status r = StreamStatus.Open ->
  wp (EncryptReader.load_segment fuel) r (fun res r' =>
    fails_with res r' (reading r' emitted /\ EncryptReader.header_position r' = 74
      /\ EncryptReader.ciphertext_position r' < EncryptReader.ciphertext_length r')).
Proof.
  intros H Hd Hopen. destruct (drained_emitted _ _ H Hd) as (chunks & segments & Hpr & Hem).
  unfold progress in Hpr. rewrite Hopen in Hpr. destruct Hpr as (e & He & Hs & Hsrc).
  pose proof (streaming_params _ _ _ _ _ Hs) as [Hewf _]. pose proof (proj1 (proj2 Hs)) as Hep.
  apply wp_match. apply (wp_mono _ _ (fun res r' => match res with
    | Ok _ => reading r' emitted /\ EncryptReader.header_position r' = 74
        /\ EncryptReader.ciphertext_position r' < EncryptReader.ciphertext_length r'
    | Err e => reader_error e | Halt _ => False end)).
  2: { intros [u|err|h] r' Hr; [by apply wp_ret| |done]. by apply wp_bind, wp_modify, wp_fail. }
  unfold EncryptReader.try_load_segment. apply wp_bind.
  eapply wp_mono; [apply fill_plaintext_ok; apply H|]. intros [is_final|err|h] r1 H1; [|by left|done].
  destruct H1 as (i & b & l & chunk & -> & Hb & Hp & Hst & Hpay & Hfuel & Hunread & Hfit & Hfin).
  rewrite Hunread in Hsrc. apply wp_bind, wp_modify, wp_bind. destruct is_final.
  - apply wp_bind, wp_get, wp_bind, wp_modify, wp_bind, wp_lift. cbn [EncryptReader.encryptor refilled EncryptReader.set_ciphertext_position].
    rewrite He. cbn [ok_or]. apply wp_bind, wp_zoom. unfold EncryptReader.buffer_cell. cells.
    change (fun error => encryption_error _) with full_error.
    cbn [EncryptReader.buffer EncryptReader.set_encryptor EncryptReader.set_ciphertext_position refilled].
    eapply wp_mono; [by eapply (stream_last_in_place_ok p e0 e chunks segments Hs)|].
    intros res b' Hr. destruct res as [segment|err|h]; [|by right|done].
    destruct Hr as ((Hb' & Hp' & Hct) & Hdone & Hlen). pose proof (zlen_nonneg (payload_of b)).
    apply wp_bind, wp_modify, wp_ret, wp_modify.
    eapply (loaded_reading r i b' l None StreamStatus.Finished (chunks ++ [chunk])); try done; [lia|].
    split; [by rewrite <- Hpay|]. rewrite Hsrc, (Hfin eq_refl), app_nil_r, concat_app. cbn [concat]. by rewrite app_nil_r.
  - apply wp_bind, wp_get, wp_bind, wp_lift. cbn [EncryptReader.encryptor refilled EncryptReader.set_ciphertext_position].
    rewrite He. cbn [ok_or]. apply wp_bind, wp_zoom. unfold EncryptReader.with_buffer. cells.
    cbn [EncryptReader.buffer EncryptReader.set_ciphertext_position refilled].
    eapply wp_mono; [eapply (stream_in_place_ok p e0 e chunks segments Hs); [done..|]|].
    { rewrite Hpay. unfold segment_fits, payload in *. lia. }
    intros res [e' b']. cells. intros Hr. destruct res as [segment|err|h]; [|by right|done].
    destruct Hr as ((Hb' & Hp' & Hct) & Hseal & Hlen). pose proof (zlen_nonneg (payload_of b)).
    apply wp_ret, wp_modify.
    eapply (loaded_reading r i b' l (Some e') (EncryptReader.status r) (chunks ++ [chunk])); try done; [lia|].
    unfold progress. cbn [EncryptReader.status]. rewrite Hopen. exists e'. rewrite <- Hpay. split_and!; [done|done|]. rewrite Hsrc, Hpay, concat_app. cbn [concat].
    by rewrite app_nil_r, <- app_assoc.
Qed.

(** A segment that went straight to the caller. *)
Lemma direct_reading r i b l e' st' chunks segments segment emitted :
  reading r emitted -> drained r ->
  emitted = Header.as_bytes (Encryptor.header e0) ++ concat segments ->
  wf b -> SegmentBuffer.parameters b = p -> enough fuel i ->
  let r' := EncryptReader.mk i e' (EncryptReader.header r) (EncryptReader.header_position r) b
    (EncryptReader.ciphertext_position r) (EncryptReader.ciphertext_length r) l st' in
  progress r' chunks (segments ++ [segment]) -> reading r' (emitted ++ segment).
Proof.
  intros [_ _ _ Hh Hpos _] [Hd1 Hd2] -> Hb Hp Hfuel r' Hpr. split; try done.
  exists chunks, (segments ++ [segment]), []. split; [by left|]. split; [done|].
  cbn [EncryptReader.header_position r']. rewrite Hd1. split; [|lia].
  rewrite zdrop_all by lia. rewrite concat_app, <- !app_assoc. cbn [concat app]. by rewrite !app_nil_r.
Qed.

Lemma emit_segment_direct_ok r emitted out :
  reading r emitted -> drained r -> EncryptReader.status r = StreamStatus.Open ->
  Parameters.segment_length p <= zlen out ->
  wp (EncryptReader.emit_segment_direct fuel) (r, out) (fun res s =>
    delivers emitted out res s /\ match res with Ok n => 0 < n | _ => True end).
Proof.
  intros H Hd Hopen Hroom. destruct (drained_emitted _ _ H Hd) as (chunks & segments & Hpr & Hem).
  unfold progress in Hpr. rewrite Hopen in Hpr. destruct Hpr as (e & He & Hs & Hsrc).
  apply wp_match. apply (wp_mono _ _ (fun res s => zlen (snd s) = zlen out /\ match res with
    | Ok n => exists piece, n = zlen piece /\ 0 < n <= zlen out /\ snd s = splice out 0 piece
        /\ reading (fst s) (emitted ++ piece)
    | Err e => reader_error e | Halt _ => False end)).
  2: { intros [n|err|h] r' [Hl Hr]; [|by apply wp_bind, wp_zoom, wp_modify, wp_fail|done].
       apply wp_ret. destruct Hr as (piece & -> & Hn & Hout & Hr). split; [|lia]. split; [done|].
       exists piece. split_and!; [done|lia|done|done]. }
  unfold EncryptReader.try_emit_segment_direct. apply wp_bind, wp_zoom. cells.
  eapply wp_mono; [apply fill_plaintext_ok; apply H|]. intros [is_final|err|h] r1 H1; [|by split; [|left]|done].
  destruct H1 as (i & b & l & chunk & -> & Hb & Hp & Hst & Hpay & Hfuel & Hunread & Hfit & Hfin).
  rewrite Hunread in Hsrc. destruct is_final.
  - apply wp_bind, wp_zoom, wp_get. cells. apply wp_bind, wp_zoom, wp_modify. cells. apply wp_bind, wp_lift.
    cbn [EncryptReader.encryptor refilled]. rewrite He. cbn [ok_or]. apply wp_bind, wp_lift.
    cbn [EncryptReader.buffer refilled]. rewrite (plaintext_ok b _ Hb Hst), Hpay. cbn [map_err].
    apply wp_bind, wp_zoom. cells. change (fun error => encryption_error _) with full_error.
    eapply wp_mono; [eapply (stream_last_into_ok p e0 e chunks segments Hs); [unfold segment_fits, payload in *; lia|done]|].
    intros res out' [Hl Hr]. destruct res as [n|err|h]; [|by split; [|right]|done].
    destruct Hr as (segment & -> & Hle & -> & Hdone & Hlen). pose proof (zlen_nonneg chunk).
    apply wp_bind, wp_zoom, wp_modify, wp_ret. cells. split; [done|]. exists segment. split_and!; [done|lia|done|done|].
    eapply (direct_reading r i b l None StreamStatus.Finished (chunks ++ [chunk])); try done.
    split; [done|]. rewrite Hsrc, (Hfin eq_refl), app_nil_r, concat_app. cbn [concat]. by rewrite app_nil_r.
  - apply wp_bind, wp_zoom, wp_get. cells. apply wp_bind, wp_lift.
    cbn [EncryptReader.encryptor refilled]. rewrite He. cbn [ok_or]. apply wp_bind, wp_lift.
    cbn [EncryptReader.buffer refilled]. rewrite (plaintext_ok b _ Hb Hst), Hpay. cbn [map_err].
    apply wp_zoom. unfold EncryptReader.with_output. cells.
    eapply wp_mono; [eapply (stream_into_ok p e0 e chunks segments Hs); [unfold segment_fits, payload in *; lia|done]|].
    intros res [e' out']. cells. intros [Hl Hr]. destruct res as [n|err|h]; [|by split; [|right]|done].
    destruct Hr as (segment & -> & Hle & -> & Hseal & Hlen). pose proof (zlen_nonneg chunk).
    split; [done|]. exists segment. split_and!; [done|lia|done|done|].
    eapply (direct_reading r i b l (Some e') (EncryptReader.status r) (chunks ++ [chunk])); try done.
    unfold progress. cbn [EncryptReader.status]. rewrite Hopen. exists e'.
    split_and!; [done|done|]. rewrite Hsrc, concat_app. cbn [concat]. by rewrite app_nil_r, <- app_assoc.
Qed.

(** A part of the buffered segment. *)
Lemma emit_buffered_ok r emitted out :
  reading r emitted -> EncryptReader.header_position r = 74 ->
  EncryptReader.ciphertext_position r < EncryptReader.ciphertext_length r -> zlen out <> 0 ->
  wp EncryptReader.emit_buffered (r, out) (fun res s =>
    delivers emitted out res s /\ match res with Ok n => 0 < n | _ => True end).
Proof.
  intros [Hb Hp Hfuel Hh Hpos (chunks & segments & pending & Hbuf & Hpr & Heq & _)] H74 Hlt Hz.
  destruct Hbuf as [[? _]|[Hcp (segment & Hct & Hlen & ->)]]; [lia|].
  destruct (ciphertext_inv _ _ Hb Hct) as (_ & _ & Hmax). rewrite Hp in Hmax.
  pose proof (zlen_nonneg out). pose proof u32_le_usize. destruct (valid_payload _ (wf_valid _ Hb)) as [Hv1 Hv2].
  rewrite Hp in Hv1, Hv2. unfold EncryptReader.emit_buffered. apply wp_bind, wp_get, wp_bind, wp_lift. rewrite Hct.
  cbn [map_err]. apply wp_bind, wp_lift. rewrite usize_ok by flia.
  set (cp := EncryptReader.ciphertext_position r) in *. set (cl := EncryptReader.ciphertext_length r) in *.
  set (n := Z.min (zlen out) (cl - cp)). apply wp_bind, wp_lift. rewrite usize_ok by flia.
  apply wp_bind, wp_lift. rewrite index_ok by lia. set (piece := slice segment cp (cp + n)).
  assert (zlen piece = n) as Hn by (unfold piece; rewrite zlen_slice; lia).
  apply wp_bind, wp_lift. rewrite copy_to_ok by lia. apply wp_bind, wp_zoom, wp_put, wp_bind, wp_zoom, wp_modify, wp_ret.
  cells. split; [|lia]. split; [apply zlen_splice; lia|]. exists piece. split_and!; [done|lia|done|].
  split; try done. exists chunks, segments, (zdrop (cp + n) segment). split; [|split; [done|split; [|cbn; lia]]].
  - unfold buffered. cells. cbn [EncryptReader.ciphertext_position EncryptReader.ciphertext_length EncryptReader.buffer
      EncryptReader.set_ciphertext_position]. fold cl. destruct (Z.eq_dec (cp + n) cl) as [E|E].
    + left. split; [done|]. apply zdrop_all. lia.
    + right. split; [lia|]. by exists segment.
  - cells. cbn [EncryptReader.header_position EncryptReader.set_ciphertext_position]. rewrite <- Heq, H74.
    rewrite !zdrop_all by lia. cbn [app]. rewrite <- app_assoc. f_equal.
    unfold piece. rewrite <- (slice_to_end segment (cp + n)), slice_concat, slice_to_end by lia. done.
Qed.

(** Buffered bytes are given without a change of status. *)
Lemma emit_buffered_status (s : reader * bytes) :
  wp EncryptReader.emit_buffered s (fun _ s' => EncryptReader.status (fst s') = EncryptReader.status (fst s)).
Proof.
  unfold EncryptReader.emit_buffered. apply wp_bind, wp_get. destruct s as [r out]. cells.
  repeat (apply wp_bind_lift; [intros ? _|done]). by apply wp_bind, wp_zoom, wp_put, wp_bind, wp_zoom, wp_modify, wp_ret.
Qed.

(** A finished message stays finished while it is emitted. *)
Lemma read_finished (r : reader) out :
  EncryptReader.status r = StreamStatus.Finished ->
  wp (EncryptReader.read fuel) (r, out) (fun _ s => EncryptReader.status (fst s) = StreamStatus.Finished).
Proof.
  intros Hst. unfold EncryptReader.read. apply wp_bind, wp_get. cells. destruct (zlen out =? 0); [by apply wp_ret|].
  rewrite bool_decide_eq_false_2 by congruence. destruct (_ <? _).
  { repeat (apply wp_bind_lift; [intros ? _|done]). by apply wp_bind, wp_zoom, wp_put, wp_bind, wp_zoom, wp_modify, wp_ret. }
  destruct (_ =? _).
  - rewrite bool_decide_eq_true_2 by done. by apply wp_ret.
  - eapply wp_mono; [apply emit_buffered_status|]. intros _ s ->. done.
Qed.

(** [read], from any state but a failed one. *)
Lemma read_ok r emitted out :
  reading r emitted ->
  wp (EncryptReader.read fuel) (r, out) (fun res s =>
    delivers emitted out res s /\
    match res with Ok n => 0 < n \/ out = [] \/ (n = 0 /\ EncryptReader.is_finished r = true /\ s = (r, out)) | _ => True end).
Proof.
  intros H. pose proof (zlen_nonneg out).
  assert (Hidle : delivers emitted out (Ok 0) (r, out)).
  { split; [done|]. exists []. cells. rewrite app_nil_r, splice_nil. split_and!; [done|lia|done|done]. }
  unfold EncryptReader.read. apply wp_bind, wp_get. cells. destruct (Z.eqb_spec (zlen out) 0) as [Hz|Hz].
  { apply wp_ret. split; [done|]. right; left. by apply zlen_0_nil. }
  pose proof H as [Hb Hp Hfuel [Hh1 Hh2] Hpos (chunks & segments & pending & Hbuf & Hpr & Heq & Hfirst)].
  case_bool_decide as Hf. { unfold progress in Hpr. by rewrite Hf in Hpr. }
  destruct (Z.ltb_spec (EncryptReader.header_position r) Header.LEN) as [Hhp|Hhp]; change Header.LEN with 74 in *.
  { destruct (Hfirst Hhp) as [-> ->]. pose proof u32_le_usize. set (hp := EncryptReader.header_position r) in *.
    set (n := Z.min (zlen out) (74 - hp)). apply wp_bind, wp_lift. rewrite usize_ok by flia.
    apply wp_bind, wp_lift. rewrite Hh1, index_ok by lia. set (piece := slice _ _ _).
    assert (zlen piece = n) as Hn by (unfold piece; rewrite zlen_slice; lia).
    apply wp_bind, wp_lift. rewrite copy_to_ok by lia.
    apply wp_bind, wp_zoom, wp_put, wp_bind, wp_zoom, wp_modify, wp_ret. cells. split; [|lia].
    split; [apply zlen_splice; lia|]. exists piece. split_and!; [done|lia|done|].
    split; try done; [cbn; lia|]. exists chunks, [], []. split; [done|]. split; [done|]. split; [|done].
    cells. cbn [EncryptReader.header_position EncryptReader.set_header_position]. rewrite app_nil_r in *. rewrite <- Heq.
    rewrite <- app_assoc. f_equal. unfold piece.
    rewrite <- (slice_to_end _ (hp + n)), slice_concat, slice_to_end by lia. done. }
  assert (Hhp' : EncryptReader.header_position r = 74) by lia.
  destruct (Z.eqb_spec (EncryptReader.ciphertext_position r) (EncryptReader.ciphertext_length r)) as [Hc|Hc].
  - assert (Hd : drained r) by done. case_bool_decide as Hfin.
    { apply wp_ret. split; [done|]. right; right. split; [done|]. split; [|done].
      unfold EncryptReader.is_finished. rewrite Hfin, Hc, Z.eqb_refl. done. }
    assert (Hopen : EncryptReader.status r = StreamStatus.Open) by (destruct (EncryptReader.status r); done).
    unfold EncryptReader.parameters. rewrite Hp, ciphertext_segment_length_ok by (rewrite <- Hp; apply (wf_valid _ Hb)).
    destruct (Z.leb_spec (Parameters.segment_length p) (zlen out)).
    + eapply wp_mono; [by apply emit_segment_direct_ok|]. intros res s [Hr Hn]. split; [done|]. destruct res; [by left|done..].
    + apply wp_bind, wp_zoom. cells. eapply wp_mono; [by apply encrypt_load_ok|].
      intros [u|err|h] r' Hr; [|by split; [split|]|done]. destruct Hr as (Hr & H74 & Hlt).
      eapply wp_mono; [by apply emit_buffered_ok|]. intros res s [Hr' Hn]. split; [done|]. destruct res; [by left|done..].
  - assert (EncryptReader.ciphertext_position r < EncryptReader.ciphertext_length r) by (destruct Hbuf as [[? _]|[? _]]; lia).
    eapply wp_mono; [by apply emit_buffered_ok|]. intros res s [Hr' Hn]. split; [done|]. destruct res; [by left|done..].
Qed.

End Reader.

(** ** The constructor *)

Section Constructor.
Context {T : Target} {F : Features} {P : Primitives} {POk : PrimitivesOk} {B : Backend} {BOk : BackendOk}.
Context {Su : Support} {SuOk : SupportOk} {R : Type} {RR : Read R} {ROk : ReadOk R} (fuel : nat).

Lemma encrypt_reader_new_ok entropy (source : R) key aad p :
  Parameters.valid p -> Parameters.segment_length p <= isize_max -> enough fuel source ->
  match EncryptReader.new entropy source key aad p with
  | Ok r => exists e, Encryptor.new entropy key aad p = Ok e
      /\ reading fuel p e (remaining source) r []
  | Err e => exists err, e = encryption_error err
      /\ (Key.provider key = Err err \/ ((err = RngFailure \/ err = CryptoFailure) /\ backend_fails))
  | Halt _ => False
  end.
Proof.
  intros Hv Hsize Hfuel. unfold EncryptReader.new. pose proof (encryptor_new_ok entropy key aad p Hv) as Hn.
  destruct (Encryptor.new entropy key aad p) as [e|err|h]; cbn [map_err obind]; [|by exists err|done].
  destruct Hn as (He & Hcnt & Hpar & _). pose proof He as (_ & _ & Hh).
  unfold Header.wf, Header.LEN in Hh. revert Hh. floe_consts. intros Hh.
  rewrite new_ok by done. cbn [obind]. exists e. split; [done|].
  split; cbn [EncryptReader.buffer EncryptReader.inner EncryptReader.header EncryptReader.header_position]; try done.
  - apply (new_wf (E := IoError.t) p); [done|by apply new_ok].
  - exists [], [], []. split; [by left|]. split; [|split; [|done]].
    + exists e. split_and!; [done|by apply streaming_start|done].
    + cbn [app concat EncryptReader.header_position]. by rewrite zdrop_le0, app_nil_r by lia.
Qed.

End Constructor.
