(* ===== verification/DecryptReaderFacts.v ===== *)
(** * The decrypting reader

    Every segment that is read from the wrapped reader is the one that the
    specification decrypts next; nothing is released before it is authenticated,
    and a stream is refused only when no prefix of it is a message. *)

From S2P Require Import Prelude Bytes Error Parameters Provider Crypto Key Buffer Spec State StateFacts StateProperties.
From S2P Require Import StdIo Wire Online OnlineFacts OnlineMessages StreamFacts Io.
Import ParametersFacts LayoutFacts BufferFacts.

Section Framing.
Context {T : Target} {F : Features} {P : Primitives} {POk : PrimitivesOk} {B : Backend} {BOk : BackendOk}.
Context {Su : Support} {SuOk : SupportOk} (p : Parameters.t).

(** The segment at the front of the remaining bytes, as its prefix announces it. *)
Definition next_segment (rem segment : bytes) (f : SegmentFraming.t) : Prop :=
  4 <= zlen rem /\ SegmentFraming.decode p (ztake 4 rem) = Ok f
  /\ segment = ztake (SegmentFraming.ciphertext_length f) rem
  /\ zlen segment = SegmentFraming.ciphertext_length f
  /\ 32 <= zlen segment <= Parameters.segment_length p.

Definition unframed (rem : bytes) : Prop := forall segment f, ~ next_segment rem segment f.

Lemma next_segment_prefix rem segment f : next_segment rem segment f -> ztake 4 rem = ztake 4 segment.
Proof. intros (_ & _ & -> & Hl & Hr). rewrite ztake_ztake. f_equal. lia. Qed.

Lemma next_segment_unique rem s1 f1 s2 f2 : next_segment rem s1 f1 -> next_segment rem s2 f2 -> s1 = s2 /\ f1 = f2.
Proof. intros (_ & H1 & -> & _) (_ & H2 & -> & _). rewrite H1 in H2. apply ok_inj in H2 as ->. done. Qed.

(** Remaining bytes that frame a segment, and remaining bytes that frame none. *)
Lemma next_segment_read segment rest f :
  SegmentFraming.decode p (ztake 4 segment) = Ok f -> zlen segment = SegmentFraming.ciphertext_length f ->
  32 <= zlen segment <= Parameters.segment_length p -> next_segment (segment ++ rest) segment f.
Proof.
  intros Hd Hl Hb. pose proof (zlen_nonneg rest). unfold next_segment.
  rewrite zlen_app, !ztake_app_l, (ztake_all (SegmentFraming.ciphertext_length f)) by lia. split_and!; [lia|done|done|done|lia|lia].
Qed.

Lemma unframed_short rem : zlen rem < 4 -> unframed rem.
Proof. intros H segment f (? & _). lia. Qed.

Lemma unframed_undecoded rem e : SegmentFraming.decode p (ztake 4 rem) = Err e -> unframed rem.
Proof. intros H segment f (_ & Hd & _). congruence. Qed.

Lemma unframed_cut rem f :
  SegmentFraming.decode p (ztake 4 rem) = Ok f -> zlen rem < SegmentFraming.ciphertext_length f -> unframed rem.
Proof.
  intros H Hl segment f' (_ & Hd & -> & Hz & _). rewrite H in Hd. apply ok_inj in Hd as <-.
  rewrite zlen_ztake in Hz. pose proof (zlen_nonneg rem). lia.
Qed.

(** What decoding a prefix gives. *)
Lemma decode_cases prefix :
  Parameters.valid p -> zlen prefix = 4 ->
  match SegmentFraming.decode p prefix with
  | Ok f => 32 <= SegmentFraming.ciphertext_length f <= Parameters.segment_length p
  | Err e => exists actual required, e = InvalidCiphertextLength actual required
  | Halt _ => False
  end.
Proof.
  intros Hv Hl. destruct (valid_payload p Hv).
  destruct (decide (from_be_bytes prefix = u32_max)).
  { rewrite FramingFacts.decode_non_final by done. cbn. lia. }
  destruct (decide (32 <= from_be_bytes prefix <= Parameters.segment_length p)).
  - by rewrite FramingFacts.decode_final.
  - rewrite FramingFacts.decode_invalid by done. eauto.
Qed.

(** No prefix of the remaining bytes is the rest of a message for [d]. *)
Definition refuses (d : Decryptor.t) (rem : bytes) : Prop :=
  forall x y pt, rem = x ++ y -> ~ opens (decryptor_params d) (online_decryptor d) x pt.

(** A decryptor in the middle of a message with these parameters. *)
Definition receiving (d : Decryptor.t) : Prop :=
  decryptor_wf d /\ Decryptor.parameters d = p /\ SegmentCounter.closed (Decryptor.counter d) = false.

Lemma receiving_params d : receiving d -> decryptor_params d = Parameters.segment_length p.
Proof. intros (_ & Hp & _). unfold decryptor_params, enc_seg_len, decryptor_context. by rewrite <- Hp. Qed.

(** What opens starts with a segment. *)
Lemma opens_next d x y pt :
  receiving d -> opens (decryptor_params d) (online_decryptor d) x pt ->
  exists segment rest f st pt1, x = segment ++ rest /\ next_segment (x ++ y) segment f
    /\ spec_any d segment = Some (st, pt1).
Proof.
  intros (Hd & Hp & Hopen) Hx.
  assert (x <> []) as Hne.
  { intros ->. destruct Hx as (segs & st & Hc & Hall & Hcl). destruct segs as [|s segs].
    - injection Hall as <- _. cbn in Hcl. congruence.
    - cbn [decryptAll] in Hall. apply bind_Some in Hall as ([st1 pt1] & Hany & _).
      pose proof (decryptor_params_range d Hd).
      destruct (decryptAny_prefix (decryptor_params d) _ _ _ _ ltac:(lia) Hany) as [Hl _].
      apply (f_equal zlen) in Hc. cbn [concat] in Hc. rewrite zlen_app in Hc. change (zlen (@nil byte)) with 0 in Hc.
      pose proof (zlen_nonneg (concat segs)). lia. }
  destruct (opens_inv d x pt Hd Hne Hx) as (segment & rest & kind & st & pt1 & -> & Hf & Hany & _).
  pose proof (proj1 (proj1 Hd)) as Hc. fold (decryptor_context d) in Hc.
  pose proof (framing_ok_decode _ _ _ Hc Hf) as Hdec. pose proof (framing_ok_bounds _ _ _ Hc Hf) as [Hb _].
  change (MessageContext.parameters (decryptor_context d)) with (Decryptor.parameters d) in Hdec. rewrite Hp in Hdec.
  assert (Hv : Parameters.valid p) by (rewrite <- Hp; exact Hc).
  pose proof (decode_cases (ztake 4 segment) Hv ltac:(rewrite zlen_ztake; lia)) as Hmax. rewrite Hdec in Hmax.
  cbn [FramingFacts.framing_of SegmentFraming.ciphertext_length] in Hmax. pose proof (zlen_nonneg rest). pose proof (zlen_nonneg y).
  exists segment, rest, (FramingFacts.framing_of kind (zlen segment - 32)), st, pt1. split_and!; [done| |done].
  assert (SegmentFraming.ciphertext_length (FramingFacts.framing_of kind (zlen segment - 32)) = zlen segment) as Hcl
    by (cbn; lia).
  unfold next_segment. rewrite Hcl, <- app_assoc.
  split_and!; [rewrite !zlen_app; lia| |by rewrite ztake_app_l, ztake_all by lia|done|lia|lia].
  rewrite ztake_app_l by lia. exact Hdec.
Qed.

Lemma unframed_refused d rem : receiving d -> unframed rem -> refuses d rem.
Proof.
  intros Hd Hu x y pt -> Hx. destruct (opens_next d x y pt Hd Hx) as (segment & rest & f & st & pt1 & _ & Hn & _).
  by eapply Hu.
Qed.

Lemma undecrypted_refused d rem segment f :
  receiving d -> next_segment rem segment f -> spec_any d segment = None -> refuses d rem.
Proof.
  intros Hd Hn Hnone x y pt -> Hx. destruct (opens_next d x y pt Hd Hx) as (s & rest & f' & st & pt1 & _ & Hn' & Hs).
  destruct (next_segment_unique _ _ _ _ _ Hn Hn') as [-> _]. congruence.
Qed.

(** The prefix describes the segment, and tells whether it is the last. *)
Lemma next_framed d rem segment f :
  receiving d -> next_segment rem segment f -> framed (decryptor_context d) segment f.
Proof.
  intros (Hd & Hp & _) Hn. pose proof (next_segment_prefix _ _ _ Hn) as Hpre. destruct Hn as (_ & Hdec & _ & Hl & Hb).
  apply decode_framed; [apply Hd|lia| |done]. rewrite <- Hpre.
  change (MessageContext.parameters (decryptor_context d)) with (Decryptor.parameters d). by rewrite Hp.
Qed.

Lemma closed_is_final d rem segment f d' pt :
  receiving d -> next_segment rem segment f -> spec_any d segment = Some (online_decryptor d', pt) ->
  SegmentCounter.closed (Decryptor.counter d') = SegmentFraming.is_final f.
Proof.
  intros Hr Hn Hany. pose proof (next_framed _ _ _ _ Hr Hn) as [Hk _]. destruct Hr as (Hd & _ & _).
  pose proof (decryptor_params_range d Hd).
  destruct (decryptAny_prefix (decryptor_params d) _ _ _ _ ltac:(lia) Hany) as (_ & is_final & Hf & Hst & _).
  change (SegmentCounter.closed (Decryptor.counter d')) with (Spec.Closed (online_decryptor d')).
  rewrite Hst, (kind_of_framed d segment (SegmentFraming.kind f) is_final Hd Hk Hf).
  unfold SegmentFraming.is_final. by destruct (SegmentKind.is_final _).
Qed.

(** Errors that a malformed or unauthenticated stream is reported with. *)
Definition stream_rejection (e : IoError.t) : Prop :=
  exists err, e = decryption_error err /\ (err = Truncated \/ rejection err).

(** Why reading the next segment for [d] fails. *)
Definition segment_failure (d : Decryptor.t) (rem : bytes) (e : IoError.t) (read_failure : IoError.t -> Prop) : Prop :=
  read_failure e \/ (stream_rejection e /\ refuses d rem) \/ (e = decryption_error CryptoFailure /\ backend_fails).

Lemma decryption_failure d rem segment f room d' err (rf : IoError.t -> Prop) :
  receiving d -> next_segment rem segment f -> zlen segment - 32 <= room ->
  decryptor_result d segment room d' (Err err) -> segment_failure d rem (decryption_error err) rf.
Proof.
  intros Hd Hn Hroom (_ & _ & _ & [[Hnone Hr]|[[_ Hlt]|[-> Hf]]]); [|lia|by right; right].
  right; left. split; [exists err; tauto|]. by eapply undecrypted_refused.
Qed.

End Framing.

Section Reader.
Context {T : Target} {F : Features} {P : Primitives} {POk : PrimitivesOk} {B : Backend} {BOk : BackendOk}.
Context {Su : Support} {SuOk : SupportOk} {R : Type} {RR : Read R} {ROk : ReadOk R} (fuel : nat) (p : Parameters.t).

Abbreviation reader := (DecryptReader.t (R := R)).

(** The fields that [fetch_segment] changes. *)
Definition refetched (r : reader) (i : R) (b : SegmentBuffer.t) : reader :=
  DecryptReader.mk i (DecryptReader.decryptor r) (DecryptReader.header r) b (DecryptReader.plaintext_consumed r)
    (DecryptReader.plaintext_available r) (DecryptReader.status r).

(** The reader can go on reading. *)
Record steady (r : reader) : Prop := {
  sd_buffer : wf (DecryptReader.buffer r);
  sd_parameters : SegmentBuffer.parameters (DecryptReader.buffer r) = p;
  sd_fuel : enough fuel (DecryptReader.inner r)
}.

Lemma copy_prefix_ok (r : reader) b prefix n :
  wf b -> SegmentBuffer.parameters b = p -> zlen prefix <= n <= Parameters.segment_length p ->
  wp (zoom DecryptReader.buffer_cell (zoom SegmentBuffer.raw_mut (zoom_range 0 n (
        let! ciphertext := get in
        let? ciphertext := copy_to ciphertext 0 (zlen prefix) prefix in
        put ciphertext)))) (DecryptReader.set_buffer r b) (fun res r' =>
    (res : IoResult unit) = Ok tt /\ exists content, zlen content = n /\ ztake (zlen prefix) content = prefix
    /\ r' = DecryptReader.set_buffer r (SegmentBuffer.set_storage b (splice (SegmentBuffer.storage b) 0 content))).
Proof.
  intros Hb Hp Hn. pose proof (wf_storage _ Hb). rewrite Hp in *. apply wp_zoom, wp_zoom.
  unfold DecryptReader.buffer_cell, SegmentBuffer.raw_mut. cells. cbn [DecryptReader.buffer DecryptReader.set_buffer].
  eapply wp_mono; [apply (put_prefix_ok (E := IoError.t)); lia|].
  intros res l' (-> & content & -> & Hl & Hpre). split; [done|]. exists content. split_and!; [lia|done|done].
Qed.

(** Zero content at the front of the storage, as a segment of that length. *)
Lemma segment_at_front b content :
  wf b -> SegmentBuffer.state b = BufferState.Ciphertext (zlen content) ->
  zlen content <= Parameters.segment_length (SegmentBuffer.parameters b) ->
  let b' := SegmentBuffer.set_storage b (splice (SegmentBuffer.storage b) 0 content) in
  wf b' /\ SegmentBuffer.ciphertext b' = Ok content /\ slice (SegmentBuffer.storage b') 0 (zlen content) = content.
Proof.
  intros Hb Hst Hl b'. pose proof (wf_storage _ Hb).
  assert (wf b') as Hb' by (apply wf_set_storage; [done|apply zlen_splice; lia]).
  assert (slice (SegmentBuffer.storage b') 0 (zlen content) = content) as Hs
    by (apply slice_splice_same; lia).
  split_and!; [done| |done]. rewrite (ciphertext_ok b' (zlen content) Hb' Hst). by rewrite <- slice_0, Hs.
Qed.

(** The buffer is set up for a segment of [n] bytes that starts with [prefix], before [k]. *)
Lemma prefix_into_buffer_ok {A} (r : reader) prefix n (k : Z -> Z -> IO reader A) Q :
  wf (DecryptReader.buffer r) -> SegmentBuffer.parameters (DecryptReader.buffer r) = p ->
  zlen prefix <= n -> 32 <= n <= Parameters.segment_length p ->
  (forall b, wf b -> SegmentBuffer.parameters b = p -> SegmentBuffer.state b = BufferState.Ciphertext n ->
    ztake (zlen prefix) (slice (SegmentBuffer.storage b) 0 n) = prefix ->
    wp (k 0 n) (DecryptReader.set_buffer r b) Q) ->
  wp (let! (start, stop) := zoom DecryptReader.buffer_cell
        (map_errM decryption_error (SegmentBuffer.prepare_ciphertext n)) in
      do! zoom DecryptReader.buffer_cell (zoom SegmentBuffer.raw_mut (zoom_range start stop (
            let! ciphertext := get in
            let? ciphertext := copy_to ciphertext 0 (zlen prefix) prefix in
            put ciphertext))) in
      k start stop) r Q.
Proof.
  intros Hb Hp Hpn Hn Hk. pose proof (zlen_nonneg prefix).
  apply wp_bind, wp_zoom, wp_map_err. unfold DecryptReader.buffer_cell at 1. cells.
  eapply wp_eq; [apply prepare_ciphertext_ok; [done|rewrite Hp; lia]|]. cbn [map_err].
  set (b1 := SegmentBuffer.set_state _ _).
  assert (Hb1 : wf b1) by (apply wf_set_ciphertext; [done|rewrite Hp; lia]).
  assert (Hp1 : SegmentBuffer.parameters b1 = p) by done.
  assert (Hst1 : SegmentBuffer.state b1 = BufferState.Ciphertext n) by done.
  clearbody b1. change (update DecryptReader.buffer_cell r b1) with (DecryptReader.set_buffer r b1).
  apply wp_bind. eapply wp_mono; [apply copy_prefix_ok; [done|done|lia]|].
  intros res r1 (-> & content & Hcl & Hcp & ->).
  destruct (segment_at_front b1 content Hb1) as (Hb2 & _ & Hfront); [by rewrite Hcl|rewrite Hp1; lia|].
  apply Hk; [done..|]. by rewrite <- Hcl, Hfront.
Qed.

(** The read of a segment's rest, behind its [head] bytes. *)
Lemma rest_read_ok (r : reader) b head n :
  wf b -> SegmentBuffer.parameters b = p -> SegmentBuffer.state b = BufferState.Ciphertext n ->
  0 <= n <= Parameters.segment_length p -> ztake (zlen head) (slice (SegmentBuffer.storage b) 0 n) = head ->
  enough fuel (DecryptReader.inner r) ->
  wp (zoom DecryptReader.inner_and_raw (zoom_range_snd 0 n (zoom_range_snd (zlen head) (n - 0) (read_fully fuel))))
    (DecryptReader.set_buffer r b) (fun res r' => exists i b' taken, r' = refetched r i b'
      /\ consumes (DecryptReader.inner r) taken i /\ zlen head + zlen taken <= n /\
      match res with
      | Ok m => m = zlen taken /\ (zlen head + m < n -> remaining i = []) /\ (zlen head + m = n -> holds p b' (head ++ taken))
      | Err e => read_failure e
      | Halt _ => False
      end).
Proof.
  intros Hb Hp Hst Hn Hpre Hfuel. pose proof (wf_storage _ Hb) as Hs. rewrite Hp in Hs.
  apply wp_zoom. unfold DecryptReader.inner_and_raw, SegmentBuffer.raw_mut. cells.
  cbn [DecryptReader.inner DecryptReader.buffer DecryptReader.set_buffer].
  eapply wp_mono; [by apply read_into_ok; [lia|lia| |]|].
  intros res [i l]. cells. intros (content & taken & -> & Hcl & Hc & Hle & Htake & Hres).
  exists i, (SegmentBuffer.set_storage b (splice (SegmentBuffer.storage b) 0 content)), taken.
  split_and!; [done|done|lia|]. destruct res as [m|e|h]; [|done|done]. destruct Hres as [-> Hend].
  split_and!; [done|intros ?; apply Hend; lia|]. intros E. rewrite (ztake_all (zlen head + zlen taken)) in Htake by lia. subst content.
  destruct (segment_at_front b (head ++ taken) Hb) as (Hb' & Hct & _); [rewrite Hst; f_equal; lia|rewrite Hp; lia|].
  done.
Qed.

(** The next segment is read into the buffer, whole. *)
Lemma fetch_segment_ok r :
  steady r ->
  wp (DecryptReader.fetch_segment fuel) r (fun res r' => exists i b, r' = refetched r i b /\
    match res with
    | Ok f => exists segment, next_segment p (remaining (DecryptReader.inner r)) segment f
        /\ consumes (DecryptReader.inner r) segment i /\ holds p b segment
    | Err e => read_failure e \/ (stream_rejection e /\ unframed p (remaining (DecryptReader.inner r)))
    | Halt _ => False
    end).
Proof.
  intros [Hb Hp Hfuel]. pose proof (wf_valid _ Hb) as Hv. rewrite Hp in Hv. destruct (valid_payload _ Hv) as [Hv1 Hv2].
  pose proof u32_le_usize as Hu. unfold u32_max in Hu.
  unfold DecryptReader.fetch_segment. apply wp_bind, wp_zoom, wp_with_local.
  eapply wp_mono; [by apply read_fully_ok|]. intros res [i prefix]. unfold DecryptReader.inner_cell. cells.
  change SEGMENT_PREFIX_LENGTH with 4. change (zlen (zeros 4)) with 4. intros (Hl & taken & Hc & Hle & Htake & Hres).
  destruct res as [n|e|h]; cbn [omap_ok]; [| |done].
  2: { exists i, (DecryptReader.buffer r). by split; [|left]. }
  destruct Hres as [-> Hend]. rewrite Hl. destruct (Z.eqb_spec (zlen taken) 4) as [H4|H4]; cbn [negb].
  2: { apply wp_fail. exists i, (DecryptReader.buffer r). split; [done|]. right. split; [exists Truncated; auto|].
       destruct Hc as [Hc _]. apply unframed_short. rewrite Hc, (Hend ltac:(lia)), app_nil_r. lia. }
  rewrite H4, ztake_all in Htake by lia. subst prefix. destruct Hc as [Hrem Hpat].
  set (rem := remaining (DecryptReader.inner r)) in *.
  assert (Hpre : ztake 4 rem = taken) by (rewrite Hrem, ztake_app_l, ztake_all by lia; done).
  apply wp_bind, wp_get, wp_bind, wp_lift. unfold DecryptReader.parameters.
  cbn [DecryptReader.buffer DecryptReader.set_inner]. rewrite Hp.
  pose proof (decode_cases p taken Hv H4) as Hcases.
  destruct (SegmentFraming.decode p taken) as [f|err|h] eqn:Hdec; cbn [map_err]; [| |done].
  2: { exists i, (DecryptReader.buffer r). split; [done|]. right. split.
       - exists err. split; [done|]. right. by destruct Hcases as (a & q & ->).
       - apply (unframed_undecoded _ _ err). by rewrite Hpre. }
  set (n := SegmentFraming.ciphertext_length f) in *.
  replace 4 with (zlen taken) by lia.
  apply (prefix_into_buffer_ok (DecryptReader.set_inner r i) taken n); [done|done|lia|lia|]. intros b2 Hb2 Hp2 Hst2 Hfront.
  apply wp_bind. eapply wp_mono; [apply (rest_read_ok _ b2 taken n); [done..|lia|done|]|].
  { cbn [DecryptReader.inner DecryptReader.set_inner]. unfold enough in *. fold rem in Hfuel. rewrite Hrem, length_app in Hfuel. lia. }
  intros res r2 (i2 & b3 & taken2 & -> & Hc2 & Hle2 & Hres). change (refetched (DecryptReader.set_inner r i) i2 b3) with (refetched r i2 b3).
  destruct res as [m|e|h]; [| |done].
  2: { exists i2, b3. by split; [|left]. }
  destruct Hres as (-> & Hend2 & Hwhole). pose proof (zlen_nonneg taken2). destruct Hc2 as [Hrem2 Hpat2]. cbn [DecryptReader.inner DecryptReader.set_inner] in Hrem2, Hpat2.
  assert (Hall : rem = taken ++ taken2 ++ remaining i2) by (by rewrite Hrem, Hrem2).
  apply wp_bind, wp_lift. rewrite usize_ok by lia.
  destruct (Z.eqb_spec (zlen taken2) (n - zlen taken)) as [E|E]; cbn [negb].
  - apply wp_ret. exists i2, b3. split; [done|]. exists (taken ++ taken2).
    split; [|split; [split; [fold rem; by rewrite Hall, app_assoc|cbn in Hpat2; lia]|apply Hwhole; lia]].
    rewrite Hall, app_assoc. apply next_segment_read; [|rewrite zlen_app; lia|rewrite zlen_app; lia].
    by rewrite ztake_app_l, ztake_all by lia.
  - apply wp_bind, wp_lift. rewrite usize_ok by lia. apply wp_fail. exists i2, b3. split; [done|]. right. split.
    + eexists. split; [done|]. by right.
    + apply (unframed_cut _ _ f); [by rewrite Hpre|]. fold n.
      rewrite Hall, (Hend2 ltac:(lia)), app_nil_r, zlen_app. lia.
Qed.

(** *** One segment *)

(** The reader after a segment [d] decrypted, up to its plaintext's place. *)
Definition steps (d : Decryptor.t) (r r' : reader) (segment pt : bytes) : Prop :=
  steady r' /\ consumes (DecryptReader.inner r) segment (DecryptReader.inner r')
  /\ 32 <= zlen segment /\ zlen pt = zlen segment - 32
  /\ exists d', spec_any d segment = Some (online_decryptor d', pt)
       /\ decryptor_wf d' /\ decryptor_context d' = decryptor_context d
       /\ if SegmentCounter.closed (Decryptor.counter d') then DecryptReader.status r' = DecryptStatus.FrameComplete
          else DecryptReader.decryptor r' = Some d' /\ DecryptReader.status r' = DecryptReader.status r.

Definition settled (f : SegmentFraming.t) (r : reader) : reader :=
  if SegmentFraming.is_final f
  then DecryptReader.set_status DecryptStatus.FrameComplete (DecryptReader.set_decryptor r None) else r.

Lemma finish_if_final_ok f (r : reader) d :
  DecryptReader.decryptor r = Some d -> SegmentCounter.closed (Decryptor.counter d) = SegmentFraming.is_final f ->
  DecryptReader.finish_if_final f r = (Ok tt, settled f r).
Proof.
  intros Hd Hc. unfold DecryptReader.finish_if_final, settled. destruct (SegmentFraming.is_final f); [|done].
  unfold bindM, get, modify, lift. rewrite Hd. cbn [ok_or].
  unfold Decryptor.finish, SegmentCounter.finish. by rewrite Hc.
Qed.

(** The step, from the fetched segment and the decryptor's result. *)
Lemma steps_intro d d' r i b segment f pt room rem c a :
  steady r -> receiving p d -> rem = remaining (DecryptReader.inner r) -> next_segment p rem segment f ->
  consumes (DecryptReader.inner r) segment i -> wf b -> SegmentBuffer.parameters b = p ->
  decryptor_result d segment room d' (Ok pt) ->
  let r1 := DecryptReader.set_decryptor (refetched r i b) (Some d') in
  DecryptReader.finish_if_final f r1 = (Ok tt, settled f r1)
  /\ steps d r (DecryptReader.set_plaintext c a (settled f r1)) segment pt.
Proof.
  intros [_ _ Hfuel] Hd -> Hn Hc Hb Hp (Hd' & Hctx & Hl & Hany) r1.
  pose proof (closed_is_final p d _ segment f d' pt Hd Hn Hany) as Hcl. split; [by apply finish_if_final_ok with d'|].
  destruct Hn as (_ & _ & _ & _ & Hlen).
  assert (forall r2 : reader, DecryptReader.buffer r2 = b -> DecryptReader.inner r2 = i -> steady r2) as Hst.
  { intros r2 <- <-. split; [done..|]. by eapply consumes_enough. }
  split; [apply Hst; unfold settled; by destruct (SegmentFraming.is_final f)|].
  split; [unfold settled; by destruct (SegmentFraming.is_final f)|]. split_and!; [lia|done|].
  exists d'. split_and!; [done..|]. rewrite Hcl. unfold settled. by destruct (SegmentFraming.is_final f).
Qed.

Lemma decrypt_load_ok r d :
  steady r -> DecryptReader.decryptor r = Some d -> receiving p d ->
  wp (DecryptReader.load_segment fuel) r (fun res r' =>
    match res with
    | Ok _ => exists segment pt, steps d r r' segment pt
        /\ SegmentBuffer.state (DecryptReader.buffer r') = BufferState.Plaintext (zlen pt)
        /\ payload_of (DecryptReader.buffer r') = pt
        /\ DecryptReader.plaintext_consumed r' = 0 /\ DecryptReader.plaintext_available r' = zlen pt
    | Err e => DecryptReader.status r' = DecryptStatus.Failed
        /\ segment_failure d (remaining (DecryptReader.inner r)) e read_failure
    | Halt _ => False
    end).
Proof.
  intros Hsteady Hdec Hd. apply wp_match.
  apply (wp_mono _ _ (fun res r' => match res with
    | Ok _ => exists segment pt, steps d r r' segment pt
        /\ SegmentBuffer.state (DecryptReader.buffer r') = BufferState.Plaintext (zlen pt)
        /\ payload_of (DecryptReader.buffer r') = pt
        /\ DecryptReader.plaintext_consumed r' = 0 /\ DecryptReader.plaintext_available r' = zlen pt
    | Err e => segment_failure d (remaining (DecryptReader.inner r)) e read_failure
    | Halt _ => False end)).
  2: { intros [u|err|h] r' Hr; [by apply wp_ret| |done]. by apply wp_bind, wp_modify, wp_fail. }
  unfold DecryptReader.try_load_segment. apply wp_bind. eapply wp_mono; [by apply fetch_segment_ok|].
  intros res r1 (i & b & -> & Hr). destruct res as [f|err|h]; [| |done].
  2: { destruct Hr as [Hr|[Hr Hu]]; [by left|]. right; left. split; [done|]. by apply unframed_refused with p. }
  destruct Hr as (segment & Hn & Hc & Hb & Hp & Hct). destruct (ciphertext_inv b segment Hb Hct) as (Hst & _ & _).
  apply wp_bind, wp_get, wp_bind, wp_lift. cbn [DecryptReader.decryptor refetched]. rewrite Hdec. cbn [ok_or].
  apply wp_bind, wp_zoom, wp_map_err. unfold DecryptReader.with_buffer. cells. cbn [DecryptReader.buffer refetched].
  pose proof Hd as (Hwf & Hdp & _).
  eapply wp_mono; [apply (decryptor_in_place_ok d b segment Hwf Hb); [congruence|done|done]|].
  intros res [d' b'] (Hb' & Hp' & Hres). revert Hb' Hp' Hres. cells. intros Hb' Hp' Hres. rewrite Hp in Hp'.
  destruct res as [bounds|err|h]; cbn [map_err]; [| |done].
  2: { destruct Hres as [Hres _]. by eapply decryption_failure; [done|done| |exact Hres]; lia. }
  destruct Hres as (pt & -> & Hpay & Hst' & Hres). unfold DecryptionState.borrowed_length. cbn [fst snd].
  replace (16 + zlen pt - 16) with (zlen pt) by lia.
  destruct (steps_intro d d' r i b' segment f pt _ _ 0 (zlen pt) Hsteady Hd eq_refl Hn Hc Hb' Hp' Hres) as [Hfin Hsteps].
  apply wp_bind. eapply wp_eq; [exact Hfin|]. apply wp_modify. exists segment, pt. split; [done|].
  unfold settled. by destruct (SegmentFraming.is_final f).
Qed.

(** A segment straight into the caller's output. *)
Lemma read_segment_direct_ok r d out :
  steady r -> DecryptReader.decryptor r = Some d -> receiving p d -> payload p <= zlen out ->
  wp (DecryptReader.read_segment_direct fuel) (r, out) (fun res s =>
    zlen (snd s) = zlen out /\
    match res with
    | Ok n => exists segment pt, steps d r (fst s) segment pt /\ n = zlen pt /\ n <= zlen out
        /\ snd s = splice out 0 pt
        /\ DecryptReader.plaintext_consumed (fst s) = 0 /\ DecryptReader.plaintext_available (fst s) = 0
    | Err e => DecryptReader.status (fst s) = DecryptStatus.Failed
        /\ segment_failure d (remaining (DecryptReader.inner r)) e read_failure
    | Halt _ => False
    end).
Proof.
  intros Hsteady Hdec Hd Hroom. apply wp_match.
  apply (wp_mono _ _ (fun res s => zlen (snd s) = zlen out /\ match res with
    | Ok n => exists segment pt, steps d r (fst s) segment pt /\ n = zlen pt /\ n <= zlen out
        /\ snd s = splice out 0 pt
        /\ DecryptReader.plaintext_consumed (fst s) = 0 /\ DecryptReader.plaintext_available (fst s) = 0
    | Err e => segment_failure d (remaining (DecryptReader.inner r)) e read_failure
    | Halt _ => False end)).
  2: { intros [n|err|h] s [Hl Hr]; [by apply wp_ret| |done]. by apply wp_bind, wp_zoom, wp_modify, wp_fail. }
  unfold DecryptReader.try_read_segment_direct. apply wp_bind, wp_zoom. cells.
  eapply wp_mono; [by apply fetch_segment_ok|].
  intros res r1 (i & b & -> & Hr). cells. destruct res as [f|err|h]; [| |done].
  2: { split; [done|]. destruct Hr as [Hr|[Hr Hu]]; [by left|]. right; left. split; [done|]. by apply unframed_refused with p. }
  destruct Hr as (segment & Hn & Hc & Hb & Hp & Hct).
  apply wp_bind, wp_zoom, wp_get. cells. apply wp_bind, wp_lift. cbn [DecryptReader.decryptor refetched]. rewrite Hdec.
  cbn [ok_or]. apply wp_bind, wp_lift. cbn [DecryptReader.buffer refetched]. rewrite Hct. cbn [map_err].
  apply wp_bind, wp_zoom, wp_map_err. unfold DecryptReader.with_output. cells. cbn [DecryptReader.decryptor refetched].
  pose proof Hd as (Hwf & Hdp & _). pose proof (next_framed p d _ _ _ Hd Hn) as Hframed.
  eapply wp_mono; [by apply (decrypt_segment_into_framed_ok d segment f out)|].
  intros res [d' out']. cells. intros [Hl Hres]. destruct res as [n|err|h]; cbn [map_err]; [| |done].
  2: { split; [done|]. eapply decryption_failure; [done|done| |exact Hres].
       destruct Hn as (_ & _ & _ & _ & ?). unfold payload in *. lia. }
  destruct Hres as (Hle & pt & -> & -> & Hres).
  destruct (steps_intro d d' r i b segment f pt _ _ 0 0 Hsteady Hd eq_refl Hn Hc Hb Hp Hres) as [Hfin Hsteps].
  apply wp_bind, wp_zoom. cells. eapply wp_eq; [exact Hfin|]. apply wp_bind, wp_zoom, wp_modify, wp_ret. cells.
  split; [done|]. exists segment, pt. split_and!; [done..|unfold settled; by destruct (SegmentFraming.is_final f)|].
  unfold settled. by destruct (SegmentFraming.is_final f).
Qed.

End Reader.
