(* ===== verification/DecryptReaderMessages.v ===== *)
(** * Messages through the decrypting reader

    The reader's state between calls: the segments it has opened are the start
    of what the wrapped reader gives, and what it released is the start of their
    plaintext. *)

From S2P Require Import Prelude Bytes Error Parameters Provider Crypto Key Buffer Spec State StateFacts StateProperties.
From S2P Require Import StdIo Wire Online OnlineFacts OnlineMessages StreamFacts Io DecryptReaderFacts.
Import ParametersFacts LayoutFacts BufferFacts.

Section Opens.
Context {P : Primitives} {POk : PrimitivesOk}.

(** A message that starts with segments that were opened continues after them. *)
Lemma opens_split params segs : forall st st1 pt1 x y rem pt,
  32 <= params < u32_max -> decryptAll params st segs = Some (st1, pt1) -> Spec.Closed st1 = false ->
  x ++ y = concat segs ++ rem -> opens params st x pt ->
  exists x' pt', rem = x' ++ y /\ opens params st1 x' pt'.
Proof.
  induction segs as [|s segs IH]; intros st st1 pt1 x y rem pt Hp Hall Hopen Heq Hx; cbn [decryptAll concat app] in *.
  { injection Hall as -> <-. by exists x, pt. }
  apply bind_Some in Hall as ([st2 pt2] & Hany & Hall). apply bind_Some in Hall as ([st3 pt3] & Hall & [= <- <-]).
  destruct Hx as (segs2 & st' & <- & Hall2 & Hcl). destruct segs2 as [|s2 segs2]; cbn [decryptAll concat app] in *.
  { injection Hall2 as <- _. apply decryptAny_some in Hany as [? _]; [congruence|done]. }
  apply bind_Some in Hall2 as ([st4 pt4] & Hany2 & Hall2). apply bind_Some in Hall2 as ([st5 pt5] & Hall2 & [= <- <-]).
  rewrite <- !app_assoc in Heq. destruct (same_segment params st _ _ _ _ _ _ _ _ Hp Heq Hany2 Hany) as [-> Hrest].
  rewrite Hany in Hany2. injection Hany2 as <- <-. eapply IH; [done|done|done|exact Hrest|by exists segs2, st5].
Qed.

End Opens.

Section Message.
Context {T : Target} {F : Features} {P : Primitives} {POk : PrimitivesOk} {B : Backend} {BOk : BackendOk}.
Context {Su : Support} {SuOk : SupportOk} {R : Type} {RR : Read R} {ROk : ReadOk R} (fuel : nat) (p : Parameters.t).

(** The decryptor the reader started with and what then remained. *)
Context (d0 : Decryptor.t) (body : bytes) (Hd0 : receiving p d0).

Abbreviation reader := (DecryptReader.t (R := R)).

(** The segments opened so far and their plaintext. *)
Definition stream_at (r : reader) (segments : list bytes) (plaintext : bytes) : Prop :=
  body = concat segments ++ remaining (DecryptReader.inner r) /\
  match DecryptReader.status r with
  | DecryptStatus.Open => exists d, DecryptReader.decryptor r = Some d /\ receiving p d
      /\ decryptor_params d = decryptor_params d0
      /\ decryptAll (decryptor_params d0) (online_decryptor d0) segments = Some (online_decryptor d, plaintext)
  | DecryptStatus.FrameComplete => exists st,
      decryptAll (decryptor_params d0) (online_decryptor d0) segments = Some (st, plaintext) /\ Spec.Closed st = true
  | DecryptStatus.StreamComplete => (exists st,
      decryptAll (decryptor_params d0) (online_decryptor d0) segments = Some (st, plaintext) /\ Spec.Closed st = true)
      /\ remaining (DecryptReader.inner r) = []
  | DecryptStatus.Failed => False
  end.

(** Plaintext that is buffered and not released. *)
Definition holding (r : reader) (pending : bytes) : Prop :=
  (DecryptReader.plaintext_consumed r = DecryptReader.plaintext_available r /\ pending = [])
  \/ (0 <= DecryptReader.plaintext_consumed r < DecryptReader.plaintext_available r
      /\ SegmentBuffer.state (DecryptReader.buffer r) = BufferState.Plaintext (DecryptReader.plaintext_available r)
      /\ pending = zdrop (DecryptReader.plaintext_consumed r) (payload_of (DecryptReader.buffer r))).

(** The reader between calls. [skipped]: finalization has discarded plaintext
    that was not released; this completes the message. *)
Record decrypting (skipped : bool) (r : reader) (released : bytes) : Prop := {
  dr_steady : steady fuel p r;
  dr_stream : exists segments plaintext pending,
    stream_at r segments plaintext /\ holding r pending
    /\ if skipped then pending = [] /\ DecryptReader.frame_complete r = true /\ released `prefix_of` plaintext
       else released ++ pending = plaintext
}.

(** No prefix of the stream is a message. *)
Definition no_message : Prop :=
  forall x y pt, body = x ++ y -> ~ opens (decryptor_params d0) (online_decryptor d0) x pt.

Definition message_failure (e : IoError.t) : Prop :=
  read_failure e \/ (stream_rejection e /\ no_message) \/ (e = decryption_error CryptoFailure /\ backend_fails).

Lemma params_range : 32 <= decryptor_params d0 < u32_max.
Proof. pose proof (decryptor_params_range d0 (proj1 Hd0)). lia. Qed.

(** A segment that was opened extends the stream. *)
Lemma stream_step r segments plaintext :
  stream_at r segments plaintext -> DecryptReader.status r = DecryptStatus.Open ->
  exists d, DecryptReader.decryptor r = Some d /\ receiving p d
    /\ (forall r' segment pt, steps fuel p d r r' segment pt ->
          stream_at r' (segments ++ [segment]) (plaintext ++ pt)
          /\ (DecryptReader.status r' = DecryptStatus.FrameComplete
              \/ (DecryptReader.status r' = DecryptStatus.Open /\ 0 < zlen pt)))
    /\ (forall e, segment_failure d (remaining (DecryptReader.inner r)) e read_failure -> message_failure e).
Proof.
  intros [Hbody Hst] Hopen. rewrite Hopen in Hst. destruct Hst as (d & Hd & Hr & Hpar & Hall).
  exists d. split_and!; [done|done| |].
  - intros r' segment pt (Hsteady & [Hrem _] & Hlen & Hptl & d' & Hany & Hwf' & Hctx & Hend).
    pose proof (proj1 Hr) as Hwf. unfold spec_any in Hany. rewrite Hpar in Hany.
    pose proof (decryptAll_snoc _ _ _ _ _ _ _ _ Hall Hany) as Hall'.
    assert (body = concat (segments ++ [segment]) ++ remaining (DecryptReader.inner r')) as Hbody'.
    { rewrite concat_app. cbn [concat]. by rewrite app_nil_r, <- app_assoc, <- Hrem. }
    destruct (SegmentCounter.closed (Decryptor.counter d')) eqn:Hc.
    + split; [|by left]. split; [done|]. rewrite Hend. by exists (online_decryptor d').
    + destruct Hend as [Hd' Hst']. rewrite Hopen in Hst'. split.
      * split; [done|]. rewrite Hst'. exists d'. split_and!; [done| |by unfold decryptor_params; rewrite Hctx|done].
        split_and!; [done| |done]. destruct Hr as (_ & <- & _).
        unfold Decryptor.parameters, DecryptionState.parameters, decryptor_context in *. by rewrite Hctx.
      * right. split; [done|].
        destruct (decryptAny_prefix _ _ _ _ _ params_range Hany) as (_ & is_final & _ & Hst2 & Hsl).
        apply (f_equal Spec.Closed) in Hst2. change (Spec.Closed (online_decryptor d')) with (SegmentCounter.closed (Decryptor.counter d')) in Hst2.
        rewrite Hc in Hst2. destruct is_final; [done|]. pose proof (decryptor_params_range d0 (proj1 Hd0)). lia.
  - intros e [He|[[He Href]|He]]; [by left| |by right; right]. right; left. split; [done|].
    intros x y pt Heq Hx. rewrite Hbody in Heq.
    destruct (opens_split _ _ _ _ _ x y _ _ params_range Hall (proj2 (proj2 Hr)) (eq_sym Heq) Hx) as (x' & pt' & Hrem & Hx').
    rewrite <- Hpar in Hx'. by eapply Href.
Qed.

(** *** Reading *)

Definition failed_with {A} (res : IoResult A) (r : reader) (Q : A -> Prop) : Prop :=
  match res with
  | Ok a => Q a
  | Err e => DecryptReader.status r = DecryptStatus.Failed /\ message_failure e
  | Halt _ => False
  end.

(** What a read of [out] gives. *)
Definition releases (skipped : bool) (released out : bytes) (res : IoResult Z) (s : reader * bytes) : Prop :=
  zlen (snd s) = zlen out /\
  failed_with res (fst s) (fun n => exists piece,
    n = zlen piece /\ n <= zlen out /\ snd s = splice out 0 piece
    /\ decrypting skipped (fst s) (released ++ piece)
    /\ (0 < n \/ out = [] \/ DecryptReader.is_finished (fst s) = true)).

Lemma not_failed skipped r released :
  decrypting skipped r released -> DecryptReader.status r <> DecryptStatus.Failed.
Proof. intros [_ (segs & pt & pending & [_ Hst] & _)] H. by rewrite H in Hst. Qed.

Lemma release_buffered_ok skipped r released out :
  decrypting skipped r released -> DecryptReader.plaintext_consumed r <> DecryptReader.plaintext_available r ->
  zlen out <> 0 ->
  wp DecryptReader.release_buffered (r, out) (releases skipped released out).
Proof.
  intros [[Hb Hp Hfuel] (segs & pt & pending & Hst & Hhold & Hpt)] Hne Hz.
  destruct Hhold as [[? _]|(Hc & Hbst & ->)]; [done|]. pose proof (zlen_nonneg out).
  pose proof u32_le_usize. destruct (valid_payload _ (wf_valid _ Hb)) as [Hv1 Hv2].
  destruct (zlen_payload_of _ Hb) as [Hpl Hmax]. rewrite Hbst in Hpl. rewrite Hp in *.
  unfold DecryptReader.release_buffered. apply wp_bind, wp_get, wp_bind, wp_lift.
  rewrite (plaintext_ok _ _ Hb Hbst). cbn [map_err]. apply wp_bind, wp_lift. rewrite usize_ok by flia.
  set (c := DecryptReader.plaintext_consumed r) in *. set (a := DecryptReader.plaintext_available r) in *.
  set (n := Z.min (zlen out) (a - c)). apply wp_bind, wp_lift. rewrite usize_ok by flia.
  apply wp_bind, wp_lift. rewrite index_ok by lia. set (text := payload_of (DecryptReader.buffer r)) in *.
  set (piece := slice text c (c + n)).
  assert (zlen piece = n) as Hn by (unfold piece; rewrite zlen_slice; lia).
  apply wp_bind, wp_lift. rewrite copy_to_ok by lia. apply wp_bind, wp_zoom, wp_put, wp_bind, wp_zoom, wp_modify, wp_ret.
  cells. split; [apply zlen_splice; lia|]. exists piece. split_and!; [done|lia|done| |left; lia].
  split; [by split|]. exists segs, pt, (zdrop (c + n) text). split; [done|]. split.
  - unfold holding. cells. cbn [DecryptReader.plaintext_consumed DecryptReader.plaintext_available DecryptReader.buffer
      DecryptReader.set_consumed DecryptReader.set_plaintext]. fold a text.
    destruct (Z.eq_dec (c + n) a) as [E|E]; [left; split; [done|apply zdrop_all; lia]|right].
    split_and!; [lia|lia|done|done].
  - destruct skipped.
    + destruct Hpt as [Hpt _]. apply (f_equal zlen) in Hpt. rewrite zlen_zdrop in Hpt. change (zlen (@nil byte)) with 0 in Hpt. lia.
    + rewrite <- Hpt, <- app_assoc. f_equal. unfold piece.
      rewrite <- (slice_to_end text (c + n)), slice_concat, slice_to_end by lia. done.
Qed.

(** [read], from any state but a failed one. *)
Lemma decrypt_read_ok skipped r released out :
  decrypting skipped r released -> wp (DecryptReader.read fuel) (r, out) (releases skipped released out).
Proof.
  intros H. pose proof (zlen_nonneg out).
  assert (Hidle : out = [] \/ DecryptReader.is_finished r = true -> releases skipped released out (Ok 0) (r, out)).
  { intros Hor. split; [done|]. exists []. cells. rewrite app_nil_r, splice_nil. split_and!; [done|lia|done|done|tauto]. }
  unfold DecryptReader.read. apply wp_bind, wp_get. cells. destruct (Z.eqb_spec (zlen out) 0) as [Hz|Hz].
  { apply wp_ret, Hidle. left. by apply zlen_0_nil. }
  rewrite bool_decide_eq_false_2 by (by eapply not_failed).
  destruct (Z.eqb_spec (DecryptReader.plaintext_consumed r) (DecryptReader.plaintext_available r)) as [Hc|Hc];
    [|by apply release_buffered_ok].
  pose proof (Z.eqb_refl (DecryptReader.plaintext_available r)) as Hrefl.
  destruct (DecryptReader.frame_complete r) eqn:Hcomp.
  { apply wp_ret, Hidle. right. unfold DecryptReader.is_finished. by rewrite Hcomp, Hc, Hrefl. }
  pose proof (not_failed _ _ _ H) as Hnf. destruct H as [Hsteady (segs & pt & pending & Hst & Hhold & Hpt)].
  assert (pending = []) as -> by (destruct Hhold as [[_ ?]|[? _]]; [done|lia]).
  destruct skipped; [destruct Hpt as (_ & ? & _); congruence|]. rewrite app_nil_r in Hpt. subst pt.
  assert (Hopen : DecryptReader.status r = DecryptStatus.Open).
  { unfold DecryptReader.frame_complete in Hcomp. by destruct (DecryptReader.status r). }
  destruct (stream_step r segs released Hst Hopen) as (d & Hd & Hr & Hstep & Hfail).
  pose proof (wf_valid _ (sd_buffer _ _ _ Hsteady)) as Hv. rewrite (sd_parameters _ _ _ Hsteady) in Hv.
  apply wp_bind, wp_lift. unfold DecryptReader.parameters.
  rewrite (sd_parameters _ _ _ Hsteady), plaintext_segment_length_ok by done.
  destruct (Z.leb_spec (payload p) (zlen out)).
  - eapply wp_mono; [by apply read_segment_direct_ok|]. intros res s [Hl Hres]. split; [done|].
    destruct res as [n|e|h]; [|destruct Hres as [Hst' He]; exact (conj Hst' (Hfail _ He))|done].
    destruct Hres as (segment & text & Hsteps & -> & Hn & Hout & Hc0 & Ha0). destruct (Hstep _ _ _ Hsteps) as [Hst' Hend].
    exists text. split_and!; [done|done|done| |].
    + split; [apply Hsteps|]. exists (segs ++ [segment]), (released ++ text), []. rewrite app_nil_r.
      split_and!; [done|by left; split; [congruence|]|done].
    + destruct Hend as [Hend|[_ ?]]; [right; right|by left].
      unfold DecryptReader.is_finished, DecryptReader.frame_complete. by rewrite Hend, Hc0, Ha0.
  - apply wp_bind, wp_zoom. cells. eapply wp_mono; [by apply decrypt_load_ok|].
    intros [u|e|h] r' Hres; [|destruct Hres as [Hst' He]; exact (conj eq_refl (conj Hst' (Hfail _ He)))|done].
    destruct Hres as (segment & text & Hsteps & Hbst & Hpay & Hc0 & Ha0). destruct (Hstep _ _ _ Hsteps) as [Hst' Hend].
    apply wp_bind, wp_get. cells. rewrite Hc0, Ha0.
    assert (Hdec : decrypting false r' released).
    { split; [apply Hsteps|]. exists (segs ++ [segment]), (released ++ text), text. split_and!; [done| |done].
      destruct (Z.eq_dec (zlen text) 0) as [E|E]; [left|right].
      - split; [congruence|by apply zlen_0_nil].
      - pose proof (zlen_nonneg text). rewrite Hc0, Ha0, Hpay, zdrop_le0 by lia. split_and!; [lia|lia|done|done]. }
    destruct (Z.eqb_spec 0 (zlen text)) as [E|E].
    + destruct Hend as [Hend|[_ ?]]; [|lia]. unfold DecryptReader.frame_complete at 1. rewrite Hend.
      apply wp_ret. split; [done|]. exists []. cells. rewrite app_nil_r, splice_nil. split_and!; [done|lia|done|done|].
      right; right. unfold DecryptReader.is_finished, DecryptReader.frame_complete. by rewrite Hend, Hc0, Ha0, <- E.
    + apply release_buffered_ok; [done|congruence|done].
Qed.

(** *** Finalization *)

(** The loop reads segments until the final one. *)
Lemma drain_loop_ok released iterations : forall r segments plaintext,
  steady fuel p r -> stream_at r segments plaintext -> holding r [] -> released `prefix_of` plaintext ->
  (length (remaining (DecryptReader.inner r)) < iterations)%nat ->
  wp (DecryptReader.drain_loop fuel iterations) r (fun res r' =>
    failed_with res r' (fun _ => decrypting true r' released)).
Proof.
  induction iterations as [|iterations IH]; intros r segs pt Hsteady Hst Hhold Hpre Hfuel; [lia|].
  cbn [DecryptReader.drain_loop]. apply wp_bind, wp_get. case_bool_decide as Hopen.
  - destruct (stream_step r segs pt Hst Hopen) as (d & Hd & Hr & Hstep & Hfail).
    apply wp_bind. eapply wp_mono; [by apply decrypt_load_ok|].
    intros [u|e|h] r' Hres; [|destruct Hres as [Hst' He]; exact (conj Hst' (Hfail _ He))|done].
    destruct Hres as (segment & text & Hsteps & _). destruct (Hstep _ _ _ Hsteps) as [Hst' _].
    pose proof Hsteps as (Hsteady' & [Hrem _] & Hlen & _).
    apply wp_bind, wp_modify. apply IH with (segs ++ [segment]) (pt ++ text); [by split; destruct Hsteady'|exact Hst'|by left| |].
    + by apply prefix_app_r.
    + cbn [DecryptReader.inner DecryptReader.set_consumed DecryptReader.set_plaintext].
      rewrite Hrem, length_app in Hfuel. unfold zlen in Hlen. lia.
  - apply wp_ret. split; [done|]. exists segs, pt, []. split_and!; [done..| |done].
    destruct Hst as [_ Hst]. unfold DecryptReader.frame_complete. by destruct (DecryptReader.status r).
Qed.

(** *** A complete message stays as it is *)

Lemma complete_not_failed (r : reader) : DecryptReader.frame_complete r = true -> DecryptReader.status r <> DecryptStatus.Failed.
Proof. intros H E. unfold DecryptReader.frame_complete in H. by rewrite E in H. Qed.

Lemma release_buffered_status (s : reader * bytes) :
  wp DecryptReader.release_buffered s (fun _ s' => DecryptReader.status (fst s') = DecryptReader.status (fst s)).
Proof.
  unfold DecryptReader.release_buffered. apply wp_bind, wp_get. destruct s as [r out]. cells.
  repeat (apply wp_bind_lift; [intros ? _|done]). by apply wp_bind, wp_zoom, wp_put, wp_bind, wp_zoom, wp_modify, wp_ret.
Qed.

Lemma read_complete (r : reader) out :
  DecryptReader.frame_complete r = true ->
  wp (DecryptReader.read fuel) (r, out) (fun _ s => DecryptReader.status (fst s) = DecryptReader.status r).
Proof.
  intros Hc. unfold DecryptReader.read. apply wp_bind, wp_get. cells. destruct (zlen out =? 0); [by apply wp_ret|].
  rewrite bool_decide_eq_false_2 by (by apply complete_not_failed). rewrite Hc.
  destruct (_ =? _); [by apply wp_ret|apply release_buffered_status].
Qed.

Lemma drain_complete (r : reader) :
  DecryptReader.frame_complete r = true ->
  wp (DecryptReader.drain_message fuel) r (fun _ r' => DecryptReader.status r' = DecryptReader.status r).
Proof.
  intros Hc. unfold DecryptReader.drain_message. apply wp_bind, wp_modify, wp_bind.
  destruct fuel as [|n]; [done|]. cbn [DecryptReader.drain_loop]. apply wp_bind, wp_get.
  change (DecryptReader.status (DecryptReader.set_consumed _ r)) with (DecryptReader.status r).
  rewrite bool_decide_eq_false_2 by (intros E; unfold DecryptReader.frame_complete in Hc; by rewrite E in Hc).
  apply wp_ret, wp_bind, wp_get.
  change (DecryptReader.status (DecryptReader.set_consumed _ r)) with (DecryptReader.status r).
  rewrite bool_decide_eq_false_2 by (by apply complete_not_failed). by apply wp_ret.
Qed.

Lemma drain_message_ok skipped r released :
  decrypting skipped r released ->
  wp (DecryptReader.drain_message fuel) r (fun res r' => failed_with res r' (fun _ => decrypting true r' released)).
Proof.
  intros [Hsteady (segs & pt & pending & Hst & Hhold & Hpt)].
  assert (released `prefix_of` pt) as Hpre.
  { destruct skipped; [apply Hpt|]. rewrite <- Hpt. by apply prefix_app_r. }
  unfold DecryptReader.drain_message. apply wp_bind, wp_modify, wp_bind.
  set (r1 := DecryptReader.set_consumed _ r).
  eapply wp_mono; [apply (drain_loop_ok released fuel r1 segs pt); [by split; destruct Hsteady|exact Hst|by left|done|]|].
  { pose proof (sd_fuel _ _ _ Hsteady) as Hf. unfold enough in Hf. change (DecryptReader.inner r1) with (DecryptReader.inner r). lia. }
  intros [u|e|h] r' Hr; [|exact Hr|done]. apply wp_bind, wp_get.
  rewrite bool_decide_eq_false_2 by (by eapply not_failed). by apply wp_ret.
Qed.

Lemma complete_stream r segs pt :
  stream_at r segs pt -> DecryptReader.frame_complete r = true ->
  opens (decryptor_params d0) (online_decryptor d0) (concat segs) pt.
Proof.
  intros [_ Hst] Hc. unfold DecryptReader.frame_complete in Hc.
  destruct (DecryptReader.status r); [by vm_compute in Hc|destruct Hst as (st & ? & ?)|destruct Hst as [(st & ? & ?) _]|by destruct Hst];
    by exists segs, st.
Qed.

(** What remains after a complete message is no part of it. *)
Lemma trailing_refused r segs pt pt' :
  stream_at r segs pt -> DecryptReader.frame_complete r = true -> remaining (DecryptReader.inner r) <> [] ->
  ~ opens (decryptor_params d0) (online_decryptor d0) body pt'.
Proof.
  intros Hst Hc Hne (segs2 & st2 & Hbody & Hall2 & _). pose proof (complete_stream _ _ _ Hst Hc) as (segs1 & st1 & Hs1 & Hall1 & Hcl).
  destruct Hst as [Hb _]. rewrite Hb, <- Hs1 in Hbody.
  by destruct Hne; eapply (opens_ends (decryptor_params d0) segs1); [apply params_range|exact Hbody|..].
Qed.

Lemma try_finish_ok skipped r released :
  decrypting skipped r released ->
  wp (DecryptReader.try_finish fuel) r (fun res r' =>
    match res with
    | Ok _ => decrypting (bool_decide (DecryptReader.status r <> DecryptStatus.StreamComplete) || skipped) r' released
        /\ DecryptReader.status r' = DecryptStatus.StreamComplete
    | Err e => DecryptReader.status r' = DecryptStatus.Failed
        /\ (message_failure e
            \/ (IoError.kind e = ErrorKind.InvalidData
                /\ forall pt, ~ opens (decryptor_params d0) (online_decryptor d0) body pt))
    | Halt _ => False
    end).
Proof.
  intros H. unfold DecryptReader.try_finish. apply wp_bind, wp_get. case_bool_decide as Hsc.
  { apply wp_ret. rewrite bool_decide_eq_false_2 by tauto. by split. }
  rewrite bool_decide_eq_true_2 by done. cbn [orb]. apply wp_bind. eapply wp_mono; [by eapply drain_message_ok|].
  intros [u|e|h] r1 Hr; [|by destruct Hr; split; [|left]|done].
  destruct Hr as [[Hb Hp Hfuel] (segs & pt & pending & Hst & Hhold & -> & Hcomp & Hpre)].
  apply wp_match, wp_zoom, wp_with_local. unfold DecryptReader.inner_cell. cells.
  eapply wp_mono; [by apply read_fully_ok|]. intros res [i out]. cells. change (zlen (zeros 1)) with 1.
  intros (Hl & taken & Hc & Hle & Htake & Hres). destruct res as [n|e|h]; cbn [omap_ok]; [| |done].
  2: { apply wp_bind, wp_modify, wp_fail. split; [done|]. by left; left. }
  destruct Hres as [-> Hend]. destruct (Z.eqb_spec (zlen taken) 0) as [Hz|Hz].
  - apply wp_modify. apply zlen_0_nil in Hz as ->. pose proof (Hend eq_refl) as Hi. destruct Hc as [Hc Hpat].
    rewrite Hi in Hc. split; [|done]. split.
    + split; [done..|]. unfold enough in *. cbn. rewrite Hi. rewrite Hc in Hfuel. cbn in *. lia.
    + exists segs, pt, []. destruct (complete_stream _ _ _ Hst Hcomp) as (segs1 & st1 & Hs1 & Hall1 & Hcl).
      split; [|by split_and!]. destruct Hst as [Hbody Hst]. split; [by rewrite Hbody, Hc; cbn; rewrite Hi|].
      cbn. split; [|done]. unfold DecryptReader.frame_complete in Hcomp.
      destruct (DecryptReader.status r1); [done|done|by destruct Hst|done].
  - apply wp_bind, wp_modify, wp_fail. split; [done|]. right. split; [done|]. intros pt'.
    eapply trailing_refused; [done|done|]. destruct Hc as [Hc _]. rewrite Hc. by destruct taken.
Qed.

(** A reader that failed stays so. *)
Lemma failed_drain (r : reader) :
  DecryptReader.status r = DecryptStatus.Failed -> fuel <> O ->
  wp (DecryptReader.drain_message fuel) r (fun res r' =>
    res = Err poisoned_error /\ DecryptReader.status r' = DecryptStatus.Failed).
Proof.
  intros Hf Hn. unfold DecryptReader.drain_message. apply wp_bind, wp_modify, wp_bind.
  set (r1 := DecryptReader.set_consumed _ r). assert (Hf1 : DecryptReader.status r1 = DecryptStatus.Failed) by done.
  destruct fuel as [|n]; [done|]. cbn [DecryptReader.drain_loop]. apply wp_bind, wp_get.
  rewrite bool_decide_eq_false_2 by congruence. apply wp_ret, wp_bind, wp_get.
  rewrite bool_decide_eq_true_2 by done. by apply wp_fail.
Qed.

Lemma failed_finish (r : reader) :
  DecryptReader.status r = DecryptStatus.Failed -> fuel <> O ->
  wp (DecryptReader.try_finish fuel) r (fun res r' =>
    res = Err poisoned_error /\ DecryptReader.status r' = DecryptStatus.Failed).
Proof.
  intros Hf Hn. unfold DecryptReader.try_finish. apply wp_bind, wp_get. rewrite bool_decide_eq_false_2 by congruence.
  apply wp_bind. eapply wp_mono; [by apply failed_drain|]. by intros res r' [-> ?].
Qed.

End Message.

(** ** The constructors *)

Section Constructor.
Context {T : Target} {F : Features} {P : Primitives} {POk : PrimitivesOk} {B : Backend} {BOk : BackendOk}.
Context {Su : Support} {SuOk : SupportOk} {R : Type} {RR : Read R} {ROk : ReadOk R} (fuel : nat).

(** A reader for the message that [source] gives. *)
Definition opened_reader (p : Parameters.t) (key : Key.t) (aad : bytes) (source : R) (r : DecryptReader.t (R := R)) : Prop :=
  exists d0 body, receiving p d0 /\ Parameters.valid p
    /\ remaining source = Header.as_bytes (DecryptReader.header r) ++ body
    /\ Header.wf (DecryptReader.header r)
    /\ Spec.startOnlineDecryption (Parameters.segment_length p) (Key.as_bytes key) aad
         (Header.as_bytes (DecryptReader.header r)) = Some (online_decryptor d0)
    /\ DecryptReader.status r = DecryptStatus.Open /\ decrypting fuel p d0 body false r [].

Lemma from_decryptor_ok p key aad (source i : R) h d :
  Parameters.valid p -> Parameters.segment_length p <= isize_max -> Header.wf h ->
  consumes source (Header.as_bytes h) i -> enough fuel source ->
  decryptor_started p key aad h (Ok d) -> Decryptor.parameters d = p ->
  exists r, DecryptReader.from_decryptor (E := IoError.t) i d h = Ok r /\ opened_reader p key aad source r.
Proof.
  intros Hv Hsize Hh Hc Hfuel (Hd & Hcnt & Hpar & Hstart) Hp. unfold DecryptReader.from_decryptor.
  rewrite Hp, new_ok by done. cbn [obind]. eexists. split; [done|].
  assert (receiving p d) as Hr by (split_and!; [done|done|by rewrite Hcnt]).
  exists d, (remaining i). split_and!; [done|done|apply Hc|done|done|done|]. split.
  - split; cbn; [by apply (new_wf (E := IoError.t) p); [|apply new_ok]|done|by eapply consumes_enough].
  - exists [], [], []. split; [|split; [by left|done]]. split; [done|]. cbn. exists d. by split_and!.
Qed.

(** No prefix of what the source gives is a message. *)
Definition unaccepted (accepted : bytes -> bytes -> Prop) (source : R) : Prop :=
  forall x y pt, remaining source = x ++ y -> ~ accepted x pt.

Lemma accepted_after_header q key aad h body x y pt :
  Header.wf h -> Header.as_bytes h ++ body = x ++ y -> accepts_with q key aad x pt ->
  exists x', x = Header.as_bytes h ++ x' /\ body = x' ++ y.
Proof.
  intros Hh Heq (h2 & b2 & _ & _ & Hh2 & -> & _). rewrite <- app_assoc in Heq.
  assert (length (Header.as_bytes h) = length (Header.as_bytes h2)) as Hl
    by (unfold Header.wf, zlen in *; unfold Header.as_bytes; lia).
  destruct (app_inj_1 _ _ _ _ Hl Heq) as [-> ->]. by exists b2.
Qed.

Lemma short_unaccepted key aad (source : R) : zlen (remaining source) < 74 -> unaccepted (accepts key aad) source.
Proof.
  intros Hl x y pt Heq [q Hacc]. pose proof (zlen_nonneg y). rewrite Heq, zlen_app in Hl.
  by eapply short_not_accepted; [|exact Hacc]; lia.
Qed.

(** What a constructor returns; the [new]s differ in the messages they accept. *)
Definition new_reader (allowed : Parameters.t -> Prop) (accepted : bytes -> bytes -> Prop) (key : Key.t) (aad : bytes)
    (source : R) (res : IoResult (DecryptReader.t (R := R))) : Prop :=
  match res with
  | Ok r => exists p, allowed p /\ opened_reader p key aad source r
  | Err e => read_failure e \/ exists err, e = decryption_error err
      /\ (Key.provider key = Err err \/ (err = CryptoFailure /\ backend_fails) \/ unaccepted accepted source)
  | Halt h => h = Panicked /\ exists p, allowed p /\ isize_max < Parameters.segment_length p
  end.

Lemma started_reader_ok (allowed : Parameters.t -> Prop) (accepted : bytes -> bytes -> Prop) p key aad (source i : R) h dec :
  Parameters.valid p -> allowed p -> Header.wf h -> consumes source (Header.as_bytes h) i -> enough fuel source ->
  (forall x pt, accepted x pt -> exists q, accepts_with q key aad x pt) ->
  (forall body pt, accepted (Header.as_bytes h ++ body) pt -> accepts_with p key aad (Header.as_bytes h ++ body) pt) ->
  decryptor_started p key aad h dec ->
  new_reader allowed accepted key aad source
    (let* decryptor := map_err decryption_error dec in DecryptReader.from_decryptor i decryptor h).
Proof.
  intros Hv Hp Hh Hc Hfuel Hany Hacc Hs. destruct dec as [d|e|x]; cbn [map_err obind]; [| |by destruct Hs].
  - assert (Decryptor.parameters d = p) as Hdp.
    { destruct Hs as (_ & _ & Hpar & _). unfold decryptor_params, enc_seg_len, decryptor_context in Hpar.
      change (DecryptionState.context _) with (DecryptionState.context (Decryptor.state d)) in Hpar.
      unfold Decryptor.parameters, DecryptionState.parameters. destruct (MessageContext.parameters _), p. cbn in Hpar. by rewrite Hpar. }
    destruct (Z.le_gt_cases (Parameters.segment_length p) isize_max).
    + destruct (from_decryptor_ok p key aad source i h d Hv) as (r & -> & Hr); [done..|]. by exists p.
    + unfold DecryptReader.from_decryptor. rewrite Hdp, new_panics by done. split; [done|]. by exists p.
  - right. exists e. split; [done|]. destruct Hs as [Hs|[Hs|Hs]]; [by left|by right; left|right; right].
    intros x y pt Heq Hx. destruct Hc as [Hc _]. rewrite Hc in Heq. destruct (Hany x pt Hx) as [q Hq].
    destruct (accepted_after_header q key aad h _ x y pt Hh Heq Hq) as (x' & -> & _).
    apply Hacc in Hx. apply accepts_with_unique in Hx as (_ & _ & ost & Hst & _); [congruence|done].
Qed.

Lemma decrypt_reader_new_with_parameters_ok (source : R) key aad p :
  Parameters.valid p -> enough fuel source ->
  new_reader (fun q => q = p) (accepts_with p key aad) key aad source
    (DecryptReader.new_with_parameters fuel source key aad p).
Proof.
  intros Hv Hfuel. unfold DecryptReader.new_with_parameters. pose proof (read_header_ok fuel source Hfuel) as Hh. unfold wp in Hh.
  destruct (read_header fuel source) as [[h|e|x] i]; cells; cbn [fst snd obind] in *; [| |done].
  - destruct Hh as [Hh Hc]. eapply started_reader_ok with (p := p); try done; [by eauto|]. by apply new_with_parameters_ok.
  - destruct Hh as [Hh|[Hl ->]]; [by left|right]. eexists. split; [done|]. right; right.
    intros y z pt Heq Hacc. by eapply short_unaccepted; [|exact Heq|exists p].
Qed.

Lemma decrypt_reader_new_ok (source : R) key aad :
  enough fuel source ->
  new_reader Parameters.valid (accepts key aad) key aad source (DecryptReader.new fuel source key aad).
Proof.
  intros Hfuel. unfold DecryptReader.new. pose proof (read_header_ok fuel source Hfuel) as Hh. unfold wp in Hh.
  destruct (read_header fuel source) as [[h|e|x] i]; cells; cbn [fst snd obind] in *; [| |done].
  2: { destruct Hh as [Hh|[Hl ->]]; [by left|right]. eexists. split; [done|]. right; right. by apply short_unaccepted. }
  destruct Hh as [Hh Hc]. destruct (decryptor_new_ok key aad h Hh) as [(p & Hdec & Hn)|(e & -> & Hn)].
  - pose proof (decode_inv _ _ Hdec) as [Hp _]. eapply started_reader_ok with (p := p); try done.
    intros body pt [q Hacc]. pose proof (accepts_with_unique q key aad h body pt Hh Hacc) as (Hq & He & _).
    rewrite He, decode_encode in Hdec by done. apply ok_inj in Hdec as <-. done.
  - cbn [map_err obind]. right. exists e. split; [done|]. destruct Hn as [Hn|Hn]; [by left|right; right].
    intros x y pt Heq [q Hacc]. destruct Hc as [Hc _]. rewrite Hc in Heq.
    destruct (accepted_after_header q key aad h _ x y pt Hh Heq Hacc) as (x' & -> & _).
    apply accepts_with_unique in Hacc as (Hq & He & _); [|done]. apply (Hn q). by rewrite He, decode_encode.
Qed.

End Constructor.
