(* ===== verification/IoProperties.v ===== *)
(** * Properties of the I/O adapters

    Programs call the adapters' methods in any order, with inputs and buffers of
    any length, over readers and writers that give and take any part of what
    they are asked for, are interrupted and fail. What is written or emitted is a
    message of what was accepted; what is released is authenticated. *)

From stdpp Require Import strings.
From S2P Require Import Prelude Bytes Error Parameters Provider Crypto Reference Key Buffer Spec State StateFacts StateProperties.
From S2P Require Import StdIo Wire Online OnlineFacts OnlineMessages StreamFacts Io EncryptWriterFacts EncryptReaderFacts.
From S2P Require Import DecryptReaderFacts DecryptReaderMessages.
Import ParametersFacts LayoutFacts BufferFacts.

(** ** The encrypting writer *)

Module WriterCall.

Inductive t :=
| Write (input : bytes)
| Flush
| Finish.

Section Run.
Context {T : Target} {F : Features} {B : Backend} {Su : Support} {W : Type} {WW : StdIo.Write W} (fuel : nat).

(** The call; a call that gives no number gives 0. *)
Definition perform (c : t) : IO (EncryptWriter.t (W := W)) Z :=
  match c with
  | Write input => EncryptWriter.write fuel input
  | Flush => do! EncryptWriter.flush in ret 0
  | Finish => do! EncryptWriter.try_finish fuel in ret 0
  end.

End Run.

(** The plaintext that the calls of a log accepted. *)
Definition accepted_by (entry : t * IoResult Z) : bytes :=
  match entry with
  | (Write input, Ok n) => ztake n input
  | _ => []
  end.

Definition accepted (log : list (t * IoResult Z)) : bytes := concat (map accepted_by log).

Lemma accepted_snoc log entry : accepted (log ++ [entry]) = accepted log ++ accepted_by entry.
Proof. unfold accepted. rewrite map_app, concat_app. cbn [map concat]. by rewrite app_nil_r. Qed.

End WriterCall.

Section Writer.
Context {T : Target} {F : Features} {P : Primitives} {POk : PrimitivesOk} {B : Backend} {BOk : BackendOk}.
Context {Su : Support} {SuOk : SupportOk} {W : Type} {WW : Write W} {WOk : WriteOk W} (fuel : nat).

(** What a caller may observe: the status before, the call and its result, the
    status after. *)
Inductive writer_step : StreamStatus.t -> WriterCall.t * IoResult Z -> StreamStatus.t -> Prop :=
| write_nothing st : writer_step st (WriterCall.Write [], Ok 0) st
| write_some input n :
    0 < n <= zlen input -> writer_step StreamStatus.Open (WriterCall.Write input, Ok n) StreamStatus.Open
| write_poisons input e :
    input <> [] -> writer_error e ->
    writer_step StreamStatus.Open (WriterCall.Write input, Err e) StreamStatus.Failed
| write_finished input :
    input <> [] ->
    writer_step StreamStatus.Finished
      (WriterCall.Write input, Err (IoError.new ErrorKind.BrokenPipe
         (IoError.Text "FLOE encrypting writer is already finished"%string))) StreamStatus.Finished
| write_poisoned input :
    input <> [] ->
    writer_step StreamStatus.Failed (WriterCall.Write input, Err poisoned_error) StreamStatus.Failed
| flush_ok st : st <> StreamStatus.Failed -> writer_step st (WriterCall.Flush, Ok 0) st
| flush_fails st e : st <> StreamStatus.Failed -> write_failure e -> writer_step st (WriterCall.Flush, Err e) st
| flush_poisoned : writer_step StreamStatus.Failed (WriterCall.Flush, Err poisoned_error) StreamStatus.Failed
| finish_ok : writer_step StreamStatus.Open (WriterCall.Finish, Ok 0) StreamStatus.Finished
| finish_again : writer_step StreamStatus.Finished (WriterCall.Finish, Ok 0) StreamStatus.Finished
| finish_poisons e :
    writer_error e -> writer_step StreamStatus.Open (WriterCall.Finish, Err e) StreamStatus.Failed
| finish_poisoned : writer_step StreamStatus.Failed (WriterCall.Finish, Err poisoned_error) StreamStatus.Failed.

(** The invariant of a writer and the log of its calls. *)
Definition writer_invariant (p : Parameters.t) (e0 : Encryptor.t) (sink : bytes)
    (log : list (WriterCall.t * IoResult Z)) (w : EncryptWriter.t (W := W)) : Prop :=
  run writer_step StreamStatus.Open log (EncryptWriter.status w) /\
  match EncryptWriter.status w with
  | StreamStatus.Open => writing fuel p e0 sink w (WriterCall.accepted log)
  | StreamStatus.Finished => finished p e0 sink w (WriterCall.accepted log)
  | StreamStatus.Failed => True
  end.

Section Message.
Context (p : Parameters.t) (e0 : Encryptor.t) (sink : bytes).

Lemma writer_extends log w c r w' :
  writer_invariant p e0 sink log w ->
  writer_step (EncryptWriter.status w) (c, r) (EncryptWriter.status w') ->
  match EncryptWriter.status w' with
  | StreamStatus.Open => writing fuel p e0 sink w' (WriterCall.accepted log ++ WriterCall.accepted_by (c, r))
  | StreamStatus.Finished => finished p e0 sink w' (WriterCall.accepted log ++ WriterCall.accepted_by (c, r))
  | StreamStatus.Failed => True
  end ->
  writer_invariant p e0 sink (log ++ [(c, r)]) w'.
Proof.
  intros [Hrun _] Hstep H. split; [by eapply run_snoc|]. rewrite WriterCall.accepted_snoc. exact H.
Qed.

(** A call that changes nothing. *)
Lemma writer_idle log w c r :
  writer_invariant p e0 sink log w -> WriterCall.accepted_by (c, r) = [] ->
  writer_step (EncryptWriter.status w) (c, r) (EncryptWriter.status w) ->
  writer_invariant p e0 sink (log ++ [(c, r)]) w.
Proof.
  intros H Ha Hstep. eapply writer_extends; [done|done|]. rewrite Ha, app_nil_r. apply H.
Qed.

(** An open writer's operations, as steps. *)
Lemma poisons_extends {A} log w c (r : IoResult A) (f : A -> Z) w' (Q : A -> Prop) :
  writer_invariant p e0 sink log w -> EncryptWriter.status w = StreamStatus.Open ->
  (forall e, writer_error e -> writer_step StreamStatus.Open (c, Err e) StreamStatus.Failed) ->
  (forall a, Q a -> writer_invariant p e0 sink (log ++ [(c, Ok (f a))]) w') ->
  poisons r w' Q -> writer_invariant p e0 sink (log ++ [(c, omap_ok f r)]) w'.
Proof.
  intros H Hopen Herr Hok Hr. destruct r as [a|e|h]; [by apply Hok| |done]. destruct Hr as [Hst He].
  eapply writer_extends; [done| |by rewrite Hst]. rewrite Hopen, Hst. by apply Herr.
Qed.

Lemma writer_call_ok log c w :
  writer_invariant p e0 sink log w ->
  wp (WriterCall.perform fuel c) w (fun r w' => writer_invariant p e0 sink (log ++ [(c, r)]) w').
Proof.
  intros H. destruct c as [input| |]; cbn [WriterCall.perform].
  - destruct (decide (input = [])) as [->|Hne]; [apply wp_ret, writer_idle; [done|done|constructor]|].
    assert (zlen input <> 0) as Hz by (intros E%zlen_0_nil; done).
    destruct (EncryptWriter.status w) eqn:Hst.
    + pose proof H as [_ Hw]. rewrite Hst in Hw. eapply wp_mono; [by eapply write_open_ok|].
      intros r w' Hr. rewrite <- (omap_ok_id r).
      eapply (poisons_extends log w); [exact H|exact Hst|by intros; constructor| |exact Hr]. intros n [Hn Hw'].
      eapply writer_extends; [exact H|rewrite Hst, (wr_status _ _ _ _ _ _ Hw'); by constructor|].
      rewrite (wr_status _ _ _ _ _ _ Hw'). exact Hw'.
    + unfold EncryptWriter.write. replace (zlen input =? 0) with false by lia.
      apply wp_bind, wp_get. rewrite Hst. apply wp_bind, wp_fail, writer_idle; [done|done|]. rewrite Hst. by constructor.
    + unfold EncryptWriter.write. replace (zlen input =? 0) with false by lia.
      apply wp_bind, wp_get. rewrite Hst. apply wp_bind, wp_fail, writer_idle; [done|done|]. rewrite Hst. by constructor.
  - apply wp_bind. unfold EncryptWriter.flush. apply wp_bind, wp_get. case_bool_decide as Hf.
    { apply wp_fail, writer_idle; [done|done|]. rewrite Hf. apply flush_poisoned. }
    eapply wp_mono; [apply inner_flush_ok|]. intros r w' (i & -> & Hwr & Hpat & Hr).
    assert (Hinv : forall r0, WriterCall.accepted_by (WriterCall.Flush, r0) = [] ->
      writer_step (EncryptWriter.status w) (WriterCall.Flush, r0) (EncryptWriter.status w) ->
      writer_invariant p e0 sink (log ++ [(WriterCall.Flush, r0)]) (EncryptWriter.set_inner w i)).
    { intros r0 Ha Hs. eapply writer_extends; [exact H|exact Hs|].
      change (EncryptWriter.status (EncryptWriter.set_inner w i)) with (EncryptWriter.status w).
      rewrite Ha, app_nil_r. destruct H as [_ H]. destruct (EncryptWriter.status w) eqn:Hst; [| |done].
      - destruct H as [H1 H2 H3 H4 (e & chunks & segments & H5 & H6 & H7 & H8)].
        split; [done..|unfold write_enough in *; cbn; lia|]. exists e, chunks, segments. cbn. rewrite Hwr. by split_and!.
      - destruct H as (H1 & chunks & segments & H2 & H3 & H4). split; [done|]. exists chunks, segments. cbn. rewrite Hwr. by split_and!. }
    destruct r as [u|e|h]; [apply wp_ret, Hinv; [done|by constructor]|apply Hinv; [done|by constructor]|done].
  - apply wp_bind. destruct (EncryptWriter.status w) eqn:Hst.
    + pose proof H as [_ Hw]. rewrite Hst in Hw. eapply wp_mono; [by eapply try_finish_open_ok|].
      intros r w' Hr.
      assert (writer_invariant p e0 sink (log ++ [(WriterCall.Finish, omap_ok (fun _ => 0) r)]) w') as Hx.
      { eapply (poisons_extends log w); [exact H|exact Hst|by intros; constructor| |exact Hr]. intros u Hf.
        pose proof Hf as [Hst' _]. eapply writer_extends; [exact H|rewrite Hst, Hst'; by constructor|].
        rewrite Hst', app_nil_r. exact Hf. }
      by destruct r; [apply wp_ret|..].
    + unfold EncryptWriter.try_finish. apply wp_bind, wp_get. rewrite Hst. apply wp_ret, wp_ret, writer_idle; [done|done|].
      rewrite Hst. constructor.
    + unfold EncryptWriter.try_finish. apply wp_bind, wp_get. rewrite Hst. apply wp_fail, writer_idle; [done|done|].
      rewrite Hst. constructor.
Qed.

End Message.

(** A flush that fails in the sink does not poison the writer. *)
Lemma failed_flush_keeps_writer_usable (w : EncryptWriter.t (W := W)) (e : IoError.t) (i : W)
  (Hopen : EncryptWriter.status w = StreamStatus.Open) (Hflush : StdIo.flush (EncryptWriter.inner w) = (Err e, i)) :
  EncryptWriter.flush w = (Err e, EncryptWriter.set_inner w i)
  /\ EncryptWriter.status (EncryptWriter.set_inner w i) = StreamStatus.Open.
Proof.
  split; [|exact Hopen]. unfold EncryptWriter.flush, bindM, get, zoom. rewrite Hopen.
  rewrite bool_decide_false by done. cbn. by rewrite Hflush.
Qed.

(** C12: the encrypting writer. Whatever calls a program makes on a new writer,
    and however the sink splits, interrupts or refuses writes: every call is a
    step of the protocol (each write takes at least one byte; an error of a
    write or a finalization poisons the writer for good and is justified; an
    error of a flush comes from the sink and changes nothing else, so that the
    writer stays usable); before finalization the sink holds the header and
    complete segments of the accepted plaintext but at most one segment of it;
    after finalization it holds exactly a message of the accepted plaintext, for
    any key object with the same bytes. *)
Theorem encrypt_writer_messages (sink : W) (entropy : Entropy) (key key' : Key.t) (aad : bytes) (p : Parameters.t)
  (w w' : EncryptWriter.t (W := W)) (calls : list WriterCall.t) (log : list (WriterCall.t * IoResult Z))
  (Hp : Parameters.valid p) (Hsize : Parameters.segment_length p <= isize_max) (Hfuel : write_enough fuel p sink)
  (Hnew : EncryptWriter.new fuel entropy sink key aad p = Ok w)
  (Hrun : perform (WriterCall.perform fuel) calls w = (log, w'))
  (Hkey : Key.as_bytes key' = Key.as_bytes key) :
  run writer_step StreamStatus.Open log (EncryptWriter.status w')
  /\ match EncryptWriter.status w' with
     | StreamStatus.Open => exists e chunks segments pending,
         Encryptor.new entropy key aad p = Ok e
         /\ (exists e', streaming p e e' chunks segments)
         /\ written (EncryptWriter.get_ref w')
            = written sink ++ Header.as_bytes (Encryptor.header e) ++ concat segments
         /\ WriterCall.accepted log = concat chunks ++ pending /\ zlen pending <= Parameters.segment_length p - 32
     | StreamStatus.Finished => exists c,
         written (EncryptWriter.get_ref w') = written sink ++ c
         /\ accepts_with p key' aad c (WriterCall.accepted log)
     | StreamStatus.Failed => True
     end.
Proof.
  pose proof (writer_new_ok fuel entropy sink key aad p Hp Hsize Hfuel) as H. rewrite Hnew in H.
  destruct H as (e & He & _ & Hw).
  assert (writer_invariant p e (written sink) [] w) as Hinv.
  { unfold writer_invariant. rewrite (wr_status _ _ _ _ _ _ Hw). split; [constructor|exact Hw]. }
  destruct (perform_invariant _ (writer_invariant p e (written sink)) (fun _ => True)
              (fun log c s H _ => writer_call_ok p e (written sink) log c s H) calls [] w log w' Hinv) as [Hrun' H];
    [by apply Forall_true|done|].
  split; [exact Hrun'|]. cbn [app] in H. destruct (EncryptWriter.status w') eqn:Hst; [| |done].
  - destruct H as [_ Hb Hpar _ (e' & chunks & segments & _ & Hs & Hwr & Ha)].
    exists e, chunks, segments, (payload_of (EncryptWriter.buffer w')). split_and!; [done|by exists e'|done|done|].
    destruct (zlen_payload_of _ Hb) as [_ Hl]. rewrite Hpar in Hl. unfold payload in Hl. lia.
  - destruct H as (_ & chunks & segments & Hdone & Hwr & <-).
    exists (Header.as_bytes (Encryptor.header e) ++ concat segments). split; [done|].
    by apply (completed_accepted entropy key).
Qed.

End Writer.

(** ** The encrypting reader *)

(** A read into a buffer, and the bytes the caller then has. *)
Definition read_bytes {S} (read : IO (S * bytes) Z) (output : bytes) : IO S bytes := fun s =>
  let (r, cells) := read (s, output) in
  (omap_ok (fun n => ztake n (snd cells)) r, fst cells).

Definition read_of (entry : bytes * IoResult bytes) : bytes :=
  match snd entry with Ok piece => piece | _ => [] end.

(** All that the reads of a log gave. *)
Definition read_all (log : list (bytes * IoResult bytes)) : bytes := concat (map read_of log).

Lemma read_all_snoc log entry : read_all (log ++ [entry]) = read_all log ++ read_of entry.
Proof. unfold read_all. rewrite map_app, concat_app. cbn [map concat]. by rewrite app_nil_r. Qed.

Section EncryptReads.
Context {T : Target} {F : Features} {P : Primitives} {POk : PrimitivesOk} {B : Backend} {BOk : BackendOk}.
Context {Su : Support} {SuOk : SupportOk} {R : Type} {RR : Read R} {ROk : ReadOk R} (fuel : nat).

(** What a caller may observe of a reader that encrypts: whether the message is
    finished, the buffer and the result. *)
Inductive encrypt_reader_step : StreamStatus.t -> bytes * IoResult bytes -> StreamStatus.t -> Prop :=
| encrypt_read st st' output piece :
    st <> StreamStatus.Failed -> st' <> StreamStatus.Failed -> (st = StreamStatus.Finished -> st' = StreamStatus.Finished) ->
    0 < zlen piece <= zlen output -> encrypt_reader_step st (output, Ok piece) st'
| encrypt_read_nothing st : encrypt_reader_step st ([], Ok []) st
| encrypt_read_end output : encrypt_reader_step StreamStatus.Finished (output, Ok []) StreamStatus.Finished
| encrypt_read_poisons st output e :
    st <> StreamStatus.Failed -> output <> [] -> reader_error e ->
    encrypt_reader_step st (output, Err e) StreamStatus.Failed
| encrypt_read_poisoned output :
    output <> [] -> encrypt_reader_step StreamStatus.Failed (output, Err poisoned_error) StreamStatus.Failed.

Definition reader_invariant (p : Parameters.t) (e0 : Encryptor.t) (source : bytes)
    (log : list (bytes * IoResult bytes)) (r : EncryptReader.t (R := R)) : Prop :=
  run encrypt_reader_step StreamStatus.Open log (EncryptReader.status r)
  /\ (EncryptReader.status r <> StreamStatus.Failed -> reading fuel p e0 source r (read_all log)).

Lemma reading_not_failed p e0 source r emitted :
  reading fuel p e0 source r emitted -> EncryptReader.status r <> StreamStatus.Failed.
Proof. intros [_ _ _ _ _ (c & s & pe & _ & Hpr & _)] Hf. unfold progress in Hpr. by rewrite Hf in Hpr. Qed.

Lemma reader_call_ok p e0 source log output r :
  reader_invariant p e0 source log r ->
  wp (read_bytes (EncryptReader.read fuel) output) r (fun res r' =>
    reader_invariant p e0 source (log ++ [(output, res)]) r').
Proof.
  intros [Hrun Hread]. unfold wp, read_bytes.
  assert (Hidle : forall res, read_of (output, res) = [] ->
    encrypt_reader_step (EncryptReader.status r) (output, res) (EncryptReader.status r) ->
    reader_invariant p e0 source (log ++ [(output, res)]) r).
  { intros res Hr Hs. split; [by eapply run_snoc|]. by rewrite read_all_snoc, Hr, app_nil_r. }
  destruct (decide (output = [])) as [->|Hne].
  { cbn. apply Hidle; [done|apply encrypt_read_nothing]. }
  assert (zlen output <> 0) as Hz by (intros E%zlen_0_nil; done).
  destruct (decide (EncryptReader.status r = StreamStatus.Failed)) as [Hf|Hf].
  - assert (EncryptReader.read fuel (r, output) = (Err poisoned_error, (r, output))) as ->.
    { unfold EncryptReader.read, bindM, get. replace (zlen output =? 0) with false by lia. by rewrite bool_decide_eq_true_2. }
    cbn [fst snd omap_ok]. apply Hidle; [done|]. rewrite Hf. by constructor.
  - specialize (Hread Hf). pose proof (read_ok fuel p e0 source r _ output Hread) as H.
    pose proof (read_finished fuel r output) as Hkeep. unfold wp in H, Hkeep.
    destruct (EncryptReader.read fuel (r, output)) as [res [r' out']]. cbn [fst snd] in *. destruct H as [[Hl H] Hn].
    destruct res as [n|e|h]; cbn [omap_ok fst snd] in *; [| |done].
    + destruct H as (piece & -> & Hle & -> & Hr). pose proof (zlen_nonneg piece).
      rewrite <- slice_0, slice_splice_same by lia. pose proof (reading_not_failed _ _ _ _ _ Hr) as Hf'.
      destruct Hn as [Hn|[?|(Hn & Hfin & Hs)]]; [|done|].
      * split; [|by rewrite read_all_snoc]. eapply run_snoc; [exact Hrun|]. by apply encrypt_read.
      * apply zlen_0_nil in Hn as ->. apply (f_equal fst) in Hs. cbn in Hs. subst r'. apply Hidle; [done|].
        unfold EncryptReader.is_finished in Hfin. apply andb_prop in Hfin as [Hfin%bool_decide_eq_true_1 _].
        rewrite Hfin. apply encrypt_read_end.
    + destruct H as [Hst He]. split; [|by rewrite Hst]. eapply run_snoc; [exact Hrun|]. rewrite Hst. by constructor.
Qed.

(** A finished message has at least one segment. *)
Lemma completed_nonempty p e0 chunks : ~ completed p e0 chunks [].
Proof.
  intros (nonces & st & _ & Hall). destruct nonces as [|nonce nonces]; [done|].
  apply encryptAll_inv in Hall as [(? & ? & _ & _ & ? & _)|(? & ? & ? & ? & ? & _ & _ & ? & _)]; done.
Qed.

(** The invariant holds of a new reader, and reads keep it. *)
Lemma new_reader_ok entropy (source : R) key aad p r :
  Parameters.valid p -> Parameters.segment_length p <= isize_max -> enough fuel source ->
  EncryptReader.new entropy source key aad p = Ok r ->
  exists e, Encryptor.new entropy key aad p = Ok e /\ reader_invariant p e (remaining source) [] r
  /\ EncryptReader.status r = StreamStatus.Open.
Proof.
  intros Hp Hsize Hfuel Hnew.
  pose proof (encrypt_reader_new_ok fuel entropy source key aad p Hp Hsize Hfuel) as H. rewrite Hnew in H.
  destruct H as (e & He & Hr). exists e. split; [done|].
  assert (EncryptReader.status r = StreamStatus.Open) as Hopen.
  { unfold EncryptReader.new in Hnew. rewrite He in Hnew. cbn in Hnew. apply obind_inv_ok in Hnew as (b & _ & [= <-]). done. }
  split; [|done]. split; [rewrite Hopen; constructor|done].
Qed.

Lemma new_reads_ok entropy (source : R) key aad p r outputs log r' :
  Parameters.valid p -> Parameters.segment_length p <= isize_max -> enough fuel source ->
  EncryptReader.new entropy source key aad p = Ok r ->
  perform (read_bytes (EncryptReader.read fuel)) outputs r = (log, r') ->
  exists e, Encryptor.new entropy key aad p = Ok e /\ reader_invariant p e (remaining source) log r'.
Proof.
  intros Hp Hsize Hfuel Hnew Hrun.
  destruct (new_reader_ok entropy source key aad p r Hp Hsize Hfuel Hnew) as (e & He & Hinv & _). exists e. split; [done|].
  change log with ([] ++ log). eapply (perform_invariant _ (reader_invariant p e (remaining source)) (fun _ => True));
    [intros; by apply reader_call_ok|exact Hinv|by apply Forall_true|exact Hrun].
Qed.

Lemma finished_drained p e0 source r emitted :
  reading fuel p e0 source r emitted -> EncryptReader.is_finished r = true ->
  EncryptReader.status r = StreamStatus.Finished /\ drained r.
Proof.
  intros [_ _ _ _ Hhp (chunks & segments & pending & _ & Hpr & _ & Hfirst)] Hfin. unfold EncryptReader.is_finished in Hfin.
  apply andb_prop in Hfin as [Hfin%bool_decide_eq_true_1 Hpos%Z.eqb_eq]. split; [done|]. split; [|done].
  destruct (Z.eq_dec (EncryptReader.header_position r) 74); [done|].
  destruct (Hfirst ltac:(lia)) as [_ ->]. unfold progress in Hpr. rewrite Hfin in Hpr.
  by destruct (completed_nonempty p e0 chunks (proj1 Hpr)).
Qed.

(** A finished reader has emitted a message. *)
Lemma finished_reads_accepted entropy (source : R) key key' aad p e log r' :
  Parameters.valid p -> Encryptor.new entropy key aad p = Ok e -> Key.as_bytes key' = Key.as_bytes key ->
  reader_invariant p e (remaining source) log r' -> EncryptReader.is_finished r' = true ->
  accepts_with p key' aad (read_all log) (remaining source).
Proof.
  intros Hp He Hkey [_ H] Hfin. assert (EncryptReader.status r' <> StreamStatus.Failed) as Hf
    by (intros E; unfold EncryptReader.is_finished in Hfin; by rewrite E in Hfin).
  specialize (H Hf). destruct (finished_drained _ _ _ _ _ H Hfin) as [Hst Hd].
  destruct (drained_emitted _ _ _ _ _ _ H Hd) as (chunks & segments & Hpr & ->).
  unfold progress in Hpr. rewrite Hst in Hpr. destruct Hpr as [Hdone <-].
  by apply (completed_accepted entropy key).
Qed.

(** C13: the encrypting reader. Whatever reads a program makes, with buffers of
    any length, over a source that delivers in parts, is interrupted or fails:
    every read is a step of the protocol (a read into a buffer gives bytes until
    the message is finished, an error poisons the reader for good and is
    justified); what was emitted is the start of the header and segments of the
    source's plaintext; and when the reader is finished it is exactly a message
    of the whole source, for any key object with the same bytes. *)
Theorem encrypt_reader_messages (source : R) (entropy : Entropy) (key key' : Key.t) (aad : bytes) (p : Parameters.t)
  (r r' : EncryptReader.t (R := R)) (outputs : list bytes) (log : list (bytes * IoResult bytes))
  (Hp : Parameters.valid p) (Hsize : Parameters.segment_length p <= isize_max) (Hfuel : enough fuel source)
  (Hnew : EncryptReader.new entropy source key aad p = Ok r)
  (Hrun : perform (read_bytes (EncryptReader.read fuel)) outputs r = (log, r'))
  (Hkey : Key.as_bytes key' = Key.as_bytes key) :
  run encrypt_reader_step StreamStatus.Open log (EncryptReader.status r')
  /\ (EncryptReader.status r' <> StreamStatus.Failed -> exists e chunks segments,
        Encryptor.new entropy key aad p = Ok e
        /\ ((exists e', streaming p e e' chunks segments) \/ completed p e chunks segments)
        /\ read_all log `prefix_of` Header.as_bytes (Encryptor.header e) ++ concat segments
        /\ concat chunks `prefix_of` remaining source)
  /\ (EncryptReader.is_finished r' = true -> accepts_with p key' aad (read_all log) (remaining source)).
Proof.
  destruct (new_reads_ok entropy source key aad p r outputs log r' Hp Hsize Hfuel Hnew Hrun) as (e & He & Hinv).
  pose proof Hinv as [Hsteps H]. split; [done|]. split; [|by eapply finished_reads_accepted].
  intros Hf. destruct (H Hf) as [_ _ _ _ _ (chunks & segments & pending & _ & Hpr & Heq & _)].
  exists e, chunks, segments. split; [done|]. unfold progress in Hpr. rewrite <- Heq.
  destruct (EncryptReader.status r'); [| |done].
  - destruct Hpr as (e' & _ & Hs & ->). split_and!; [left; by exists e'|by apply prefix_app_r|by apply prefix_app_r].
  - destruct Hpr as [Hs ->]. split_and!; [by right|by apply prefix_app_r|done].
Qed.

End EncryptReads.

(** ** The decrypting reader *)

Module DecryptReaderCall.

Inductive t :=
| Read (output : bytes)
| Finish
| FinishFrame.

Section Run.
Context {T : Target} {F : Features} {B : Backend} {Su : Support} {R : Type} {RR : StdIo.Read R} (fuel : nat).

(** The call, and the bytes the caller then has. *)
Definition perform (c : t) : IO (DecryptReader.t (R := R)) bytes :=
  match c with
  | Read output => read_bytes (DecryptReader.read fuel) output
  | Finish => do! DecryptReader.try_finish fuel in ret []
  | FinishFrame => do! DecryptReader.try_finish_frame fuel in ret []
  end.

End Run.

(** All plaintext that the calls of a log released. *)
Definition released (log : list (t * IoResult bytes)) : bytes :=
  concat (map (fun entry => match snd entry with Ok piece => piece | _ => [] end) log).

Lemma released_snoc log c r :
  released (log ++ [(c, r)]) = released log ++ match r with Ok piece => piece | _ => [] end.
Proof. unfold released. rewrite map_app, concat_app. cbn [map concat snd]. by rewrite app_nil_r. Qed.

(** A finalization succeeded: plaintext may have been authenticated without
    being released. *)
Definition skipped (log : list (t * IoResult bytes)) : bool :=
  existsb (fun entry => match fst entry with Read _ => false | _ => is_ok (snd entry) end) log.

Lemma skipped_snoc log c r :
  skipped (log ++ [(c, r)]) = skipped log || match c with Read _ => false | _ => is_ok r end.
Proof. unfold skipped. rewrite existsb_app. cbn [existsb fst snd]. by rewrite orb_false_r. Qed.

End DecryptReaderCall.

Section DecryptReads.
Context {T : Target} {F : Features} {P : Primitives} {POk : PrimitivesOk} {B : Backend} {BOk : BackendOk}.
Context {Su : Support} {SuOk : SupportOk} {R : Type} {RR : Read R} {ROk : ReadOk R} (fuel : nat).

Definition complete (st : DecryptStatus.t) : Prop :=
  st = DecryptStatus.FrameComplete \/ st = DecryptStatus.StreamComplete.

(** What a caller may observe of a reader that decrypts. [failure]: why the next
    segment is not released; [trailing]: why the stream is more than a message. *)
Inductive decrypt_reader_step (failure trailing : IoError.t -> Prop)
    : DecryptStatus.t -> DecryptReaderCall.t * IoResult bytes -> DecryptStatus.t -> Prop :=
| decrypt_read st st' output piece :
    st <> DecryptStatus.Failed -> st' <> DecryptStatus.Failed -> (complete st -> st' = st) ->
    0 < zlen piece <= zlen output -> decrypt_reader_step failure trailing st (DecryptReaderCall.Read output, Ok piece) st'
| decrypt_read_nothing st : decrypt_reader_step failure trailing st (DecryptReaderCall.Read [], Ok []) st
| decrypt_read_end st st' output :
    st <> DecryptStatus.Failed -> complete st' -> (complete st -> st' = st) ->
    decrypt_reader_step failure trailing st (DecryptReaderCall.Read output, Ok []) st'
| decrypt_finish st :
    st <> DecryptStatus.Failed ->
    decrypt_reader_step failure trailing st (DecryptReaderCall.Finish, Ok []) DecryptStatus.StreamComplete
| decrypt_finish_frame st st' :
    st <> DecryptStatus.Failed -> complete st' -> (complete st -> st' = st) ->
    decrypt_reader_step failure trailing st (DecryptReaderCall.FinishFrame, Ok []) st'
| decrypt_fails st c e :
    st <> DecryptStatus.Failed -> c <> DecryptReaderCall.Read [] ->
    failure e \/ (c = DecryptReaderCall.Finish /\ trailing e) ->
    decrypt_reader_step failure trailing st (c, Err e) DecryptStatus.Failed
| decrypt_poisoned c :
    c <> DecryptReaderCall.Read [] ->
    decrypt_reader_step failure trailing DecryptStatus.Failed (c, Err poisoned_error) DecryptStatus.Failed.

Section Message.
Context (p : Parameters.t) (d0 : Decryptor.t) (body : bytes) (Hd0 : receiving p d0) (Hfuel : fuel <> O).
Context (failure trailing : IoError.t -> Prop).
Context (Hfailure : forall e, message_failure (R := R) d0 body e -> failure e).
Context (Htrailing : forall e, IoError.kind e = ErrorKind.InvalidData ->
  (forall pt, ~ opens (decryptor_params d0) (online_decryptor d0) body pt) -> trailing e).

(** What is released was authenticated, whatever happens afterwards. *)
Definition authentic (released : bytes) : Prop :=
  exists segments rest st plaintext, body = concat segments ++ rest
    /\ decryptAll (decryptor_params d0) (online_decryptor d0) segments = Some (st, plaintext)
    /\ released `prefix_of` plaintext.

Lemma decrypting_authentic skipped r released :
  decrypting (R := R) fuel p d0 body skipped r released -> authentic released.
Proof.
  intros [_ (segs & pt & pending & [Hbody Hst] & _ & Hpt)].
  assert (exists st, decryptAll (decryptor_params d0) (online_decryptor d0) segs = Some (st, pt)) as [st Hall].
  { destruct (DecryptReader.status r); [destruct Hst as (d & _ & _ & _ & ?)|destruct Hst as (st & ? & _)|
      destruct Hst as [(st & ? & _) _]|done]; eauto. }
  exists segs, (remaining (DecryptReader.inner r)), st, pt. split_and!; [done|done|].
  destruct skipped; [apply Hpt|]. rewrite <- Hpt. by apply prefix_app_r.
Qed.

Lemma complete_status skipped r released :
  decrypting (R := R) fuel p d0 body skipped r released -> DecryptReader.frame_complete r = true ->
  complete (DecryptReader.status r).
Proof.
  intros _ H. unfold DecryptReader.frame_complete in H. apply orb_prop in H as [H%bool_decide_eq_true_1|H%bool_decide_eq_true_1];
    [by left|by right].
Qed.

Lemma complete_frame (r : DecryptReader.t (R := R)) :
  complete (DecryptReader.status r) -> DecryptReader.frame_complete r = true.
Proof. unfold DecryptReader.frame_complete. by intros [-> | ->]. Qed.

Definition decrypt_invariant (log : list (DecryptReaderCall.t * IoResult bytes)) (r : DecryptReader.t (R := R)) : Prop :=
  run (decrypt_reader_step failure trailing) DecryptStatus.Open log (DecryptReader.status r)
  /\ authentic (DecryptReaderCall.released log)
  /\ (DecryptReader.status r <> DecryptStatus.Failed -> exists skipped,
        decrypting fuel p d0 body skipped r (DecryptReaderCall.released log)
        /\ (skipped = true -> DecryptReaderCall.skipped log = true)).

(** An error releases nothing. *)
Lemma decrypt_error_ok log r c e r' :
  decrypt_invariant log r -> DecryptReader.status r' = DecryptStatus.Failed ->
  decrypt_reader_step failure trailing (DecryptReader.status r) (c, Err e) DecryptStatus.Failed ->
  decrypt_invariant (log ++ [(c, Err e)]) r'.
Proof.
  intros (Hrun & Hauth & _) Hst Hstep. unfold decrypt_invariant. rewrite DecryptReaderCall.released_snoc, app_nil_r, Hst.
  split_and!; [by eapply run_snoc|done|done].
Qed.

(** A success. *)
Lemma decrypt_success_ok log r c piece r' skipped :
  decrypt_invariant log r ->
  decrypt_reader_step failure trailing (DecryptReader.status r) (c, Ok piece) (DecryptReader.status r') ->
  decrypting fuel p d0 body skipped r' (DecryptReaderCall.released log ++ piece) ->
  (skipped = true -> DecryptReaderCall.skipped log = true \/ match c with DecryptReaderCall.Read _ => False | _ => True end) ->
  decrypt_invariant (log ++ [(c, Ok piece)]) r'.
Proof.
  intros (Hrun & _ & _) Hstep Hdec Hskip. unfold decrypt_invariant. rewrite DecryptReaderCall.released_snoc, DecryptReaderCall.skipped_snoc.
  split_and!; [by eapply run_snoc|by eapply decrypting_authentic|]. intros _. exists skipped. split; [done|].
  intros Hs. destruct (Hskip Hs) as [->|Hc]; [done|]. destruct c; [done|..]; by rewrite orb_true_r.
Qed.

Lemma decrypt_read_call_ok log output r :
  decrypt_invariant log r ->
  wp (read_bytes (DecryptReader.read fuel) output) r (fun res r' =>
    decrypt_invariant (log ++ [(DecryptReaderCall.Read output, res)]) r').
Proof.
  intros H. pose proof H as (Hrun & Hauth & Hdec). unfold wp, read_bytes.
  destruct (decide (output = [])) as [->|Hne].
  { cbn. unfold decrypt_invariant. rewrite DecryptReaderCall.released_snoc, DecryptReaderCall.skipped_snoc, app_nil_r, orb_false_r.
    split_and!; [eapply run_snoc; [done|apply decrypt_read_nothing]|done|done]. }
  assert (zlen output <> 0) as Hz by (intros E%zlen_0_nil; done).
  destruct (decide (DecryptReader.status r = DecryptStatus.Failed)) as [Hf|Hf].
  - assert (DecryptReader.read fuel (r, output) = (Err poisoned_error, (r, output))) as ->.
    { unfold DecryptReader.read, bindM, get. replace (zlen output =? 0) with false by lia. by rewrite bool_decide_eq_true_2. }
    cbn [fst snd omap_ok]. apply decrypt_error_ok with r; [done|done|]. rewrite Hf. apply decrypt_poisoned. congruence.
  - destruct (Hdec Hf) as (skipped & Hd & Hskip). pose proof (decrypt_read_ok fuel p d0 body Hd0 skipped r _ output Hd) as Hr.
    pose proof (fun H => read_complete fuel r output (complete_frame r H)) as Hkeep. unfold wp in Hr, Hkeep. destruct (DecryptReader.read fuel (r, output)) as [res [r' out']]. cbn [fst snd] in *.
    destruct Hr as [Hl Hr]. destruct res as [n|e|h]; cbn [omap_ok failed_with fst snd] in *; [| |done].
    + destruct Hr as (piece & -> & Hle & -> & Hd' & Hend). pose proof (zlen_nonneg piece).
      rewrite <- slice_0, slice_splice_same by lia. pose proof (not_failed _ _ _ _ _ _ _ Hd') as Hf'.
      eapply decrypt_success_ok; [exact H| |exact Hd'|by left; auto].
      destruct Hend as [Hn|[?|Hfin]]; [by apply decrypt_read|done|].
      unfold DecryptReader.is_finished in Hfin. apply andb_prop in Hfin as [Hfin _].
      destruct (Z.eq_dec (zlen piece) 0) as [Hp0|Hp0]; [|apply decrypt_read; [done|done|done|lia]].
      apply zlen_0_nil in Hp0 as ->. apply decrypt_read_end; [done|by eapply complete_status|done].
    + destruct Hr as [Hst He]. apply decrypt_error_ok with r; [done|done|]. apply decrypt_fails; [done|congruence|left; auto].
Qed.

Lemma decrypt_finish_call_ok log r :
  decrypt_invariant log r ->
  wp (DecryptReaderCall.perform fuel DecryptReaderCall.Finish) r (fun res r' =>
    decrypt_invariant (log ++ [(DecryptReaderCall.Finish, res)]) r').
Proof.
  intros H. pose proof H as (_ & _ & Hdec). cbn [DecryptReaderCall.perform]. apply wp_bind.
  destruct (decide (DecryptReader.status r = DecryptStatus.Failed)) as [Hf|Hf].
  - eapply wp_mono; [by apply failed_finish|]. intros res r' [-> Hf']. apply decrypt_error_ok with r; [done|done|].
    rewrite Hf. by apply decrypt_poisoned.
  - destruct (Hdec Hf) as (skipped & Hd & Hskip).
    eapply wp_mono; [by apply (try_finish_ok fuel p d0 body Hd0 skipped r _ Hd)|].
    intros [u|e|h] r' Hr; [| |done].
    + destruct Hr as [Hd' Hst]. apply wp_ret. eapply decrypt_success_ok; [exact H|rewrite Hst; by apply decrypt_finish|by rewrite app_nil_r|].
      intros _. by right.
    + destruct Hr as [Hst He]. apply decrypt_error_ok with r; [done|done|]. apply decrypt_fails; [done|done|].
      destruct He as [He|[Hk He]]; [left|right]; auto.
Qed.

Lemma decrypt_finish_frame_call_ok log r :
  decrypt_invariant log r ->
  wp (DecryptReaderCall.perform fuel DecryptReaderCall.FinishFrame) r (fun res r' =>
    decrypt_invariant (log ++ [(DecryptReaderCall.FinishFrame, res)]) r').
Proof.
  intros H. pose proof H as (_ & _ & Hdec). cbn [DecryptReaderCall.perform]. apply wp_bind.
  destruct (decide (DecryptReader.status r = DecryptStatus.Failed)) as [Hf|Hf].
  - eapply wp_mono; [by apply failed_drain|]. intros res r' [-> Hf']. apply decrypt_error_ok with r; [done|done|].
    rewrite Hf. by apply decrypt_poisoned.
  - destruct (Hdec Hf) as (skipped & Hd & Hskip).
    pose proof (fun H => drain_complete fuel r (complete_frame r H)) as Hkeep. unfold wp in Hkeep.
    pose proof (drain_message_ok fuel p d0 body Hd0 skipped r _ Hd) as Hr. unfold wp in Hr.
    unfold DecryptReader.try_finish_frame, wp. destruct (DecryptReader.drain_message fuel r) as [[u|e|h] r'];
      cbn [fst snd] in *; [| |done].
    + eapply decrypt_success_ok; [exact H| |rewrite app_nil_r; exact Hr|by right].
      apply decrypt_finish_frame; [done| |done]. eapply complete_status; [exact Hr|].
      destruct Hr as [_ (segs & pt & pending & _ & _ & _ & Hc & _)]. exact Hc.
    + destruct Hr as [Hst He]. apply decrypt_error_ok with r; [done|done|]. apply decrypt_fails; [done|done|left; auto].
Qed.

Lemma decrypt_reader_call_ok log c r :
  decrypt_invariant log r ->
  wp (DecryptReaderCall.perform fuel c) r (fun res r' => decrypt_invariant (log ++ [(c, res)]) r').
Proof.
  destruct c; [apply decrypt_read_call_ok|apply decrypt_finish_call_ok|apply decrypt_finish_frame_call_ok].
Qed.

End Message.

(** Why the next segment is not released: the wrapped reader, no message, or the
    backend; and why a stream is not accepted as a whole. *)
Definition decrypt_failure (p : Parameters.t) (key : Key.t) (aad : bytes) (source : R) (e : IoError.t) : Prop :=
  read_failure e \/ (stream_rejection e /\ unaccepted (accepts_with p key aad) source)
  \/ (e = decryption_error CryptoFailure /\ backend_fails).

Definition whole_failure (p : Parameters.t) (key : Key.t) (aad : bytes) (source : R) (e : IoError.t) : Prop :=
  IoError.kind e = ErrorKind.InvalidData /\ forall pt, ~ accepts_with p key aad (remaining source) pt.

(** An accepted string, in terms of the decryptor that was started. *)
Lemma accepted_opens p key aad h d0 x pt :
  receiving p d0 -> Header.wf h ->
  Spec.startOnlineDecryption (Parameters.segment_length p) (Key.as_bytes key) aad (Header.as_bytes h) = Some (online_decryptor d0) ->
  accepts_with p key aad (Header.as_bytes h ++ x) pt -> opens (decryptor_params d0) (online_decryptor d0) x pt.
Proof.
  intros Hd Hh Hstart Hacc. apply accepts_with_unique in Hacc as (_ & _ & ost & Hs & Ho); [|done].
  rewrite Hs in Hstart. injection Hstart as ->. by rewrite (receiving_params p d0 Hd).
Qed.

(** Failures of the decryptor that was started are about the source. *)
Lemma opened_failures p key aad (source : R) d0 h body :
  receiving p d0 -> Header.wf h -> remaining source = Header.as_bytes h ++ body ->
  Spec.startOnlineDecryption (Parameters.segment_length p) (Key.as_bytes key) aad (Header.as_bytes h) = Some (online_decryptor d0) ->
  (forall e, message_failure (R := R) d0 body e -> decrypt_failure p key aad source e)
  /\ (forall e, IoError.kind e = ErrorKind.InvalidData ->
       (forall pt, ~ opens (decryptor_params d0) (online_decryptor d0) body pt) -> whole_failure p key aad source e).
Proof.
  intros Hd0 Hh Hrem Hstart. split.
  - intros e [He|[[He Hno]|He]]; [by left| |by right; right]. right; left. split; [done|].
    intros x y pt Heq Hacc. rewrite Hrem in Heq. destruct (accepted_after_header p key aad _ body x y pt Hh Heq Hacc) as (x' & -> & ->).
    apply (Hno x' y pt eq_refl). by eapply accepted_opens.
  - intros e Hk Hno. split; [done|]. intros pt Hacc. rewrite Hrem in Hacc. apply (Hno pt). by eapply accepted_opens.
Qed.

(** The invariant holds of an opened reader, with failures that are about the
    source, and calls keep it. *)
Lemma opened_invariant p key aad source r :
  opened_reader fuel p key aad source r ->
  exists d0 body, receiving p d0 /\ remaining source = Header.as_bytes (DecryptReader.header r) ++ body
    /\ Header.wf (DecryptReader.header r) /\ Parameters.valid p
    /\ Spec.startOnlineDecryption (Parameters.segment_length p) (Key.as_bytes key) aad
         (Header.as_bytes (DecryptReader.header r)) = Some (online_decryptor d0)
    /\ decrypting fuel p d0 body false r []
    /\ decrypt_invariant p d0 body (decrypt_failure p key aad source) (whole_failure p key aad source) [] r.
Proof.
  intros (d0 & body & Hd0 & Hv & Hrem & Hh & Hstart & Hopen & Hdec). exists d0, body. split_and!; [done..|].
  split_and!; [rewrite Hopen; constructor|by eapply decrypting_authentic|by intros _; exists false].
Qed.

Lemma opened_run p key aad source r calls log r' :
  enough fuel source -> opened_reader fuel p key aad source r ->
  perform (DecryptReaderCall.perform fuel) calls r = (log, r') ->
  exists d0 body, receiving p d0 /\ remaining source = Header.as_bytes (DecryptReader.header r) ++ body
    /\ Header.wf (DecryptReader.header r) /\ Parameters.valid p
    /\ Spec.startOnlineDecryption (Parameters.segment_length p) (Key.as_bytes key) aad
         (Header.as_bytes (DecryptReader.header r)) = Some (online_decryptor d0)
    /\ decrypt_invariant p d0 body (decrypt_failure p key aad source) (whole_failure p key aad source) log r'.
Proof.
  intros Hfuel (d0 & body & Hd0 & Hrem & Hh & Hv & Hstart & _ & Hinv)%opened_invariant Hrun. exists d0, body. split_and!; [done..|].
  destruct (opened_failures p key aad source d0 _ body Hd0 Hh Hrem Hstart) as [Hf Ht].
  change log with ([] ++ log). refine (perform_invariant _ (decrypt_invariant p d0 body _ _) (fun _ => True) _ calls [] r log r' Hinv _ Hrun);
    [|by apply Forall_true].
  intros log0 c s Hs _. apply decrypt_reader_call_ok; [done|by destruct fuel; [unfold enough in Hfuel; lia|]|done..].
Qed.

(** A finished reader has consumed a message. *)
Lemma finished_reader_accepted p d0 body key aad h (failure trailing : IoError.t -> Prop) log r' :
  receiving p d0 -> Header.wf h -> Parameters.valid p ->
  Spec.startOnlineDecryption (Parameters.segment_length p) (Key.as_bytes key) aad (Header.as_bytes h) = Some (online_decryptor d0) ->
  decrypt_invariant p d0 body failure trailing log r' -> DecryptReader.is_finished r' = true ->
  exists c plaintext,
    Header.as_bytes h ++ body = c ++ remaining (DecryptReader.get_ref r')
    /\ accepts_with p key aad c plaintext
    /\ DecryptReaderCall.released log `prefix_of` plaintext
    /\ (DecryptReaderCall.skipped log = false -> DecryptReaderCall.released log = plaintext).
Proof.
  intros Hd0 Hh Hv Hstart (_ & _ & Hdec) Hfin. pose proof (receiving_params p d0 Hd0) as Hpar.
  unfold DecryptReader.is_finished in Hfin. apply andb_prop in Hfin as [Hc Heq%Z.eqb_eq].
  assert (DecryptReader.status r' <> DecryptStatus.Failed) as Hf
    by (intros E; unfold DecryptReader.frame_complete in Hc; by rewrite E in Hc).
  destruct (Hdec Hf) as (skipped & [_ (segs & pt & pending & Hst & Hhold & Hpt)] & Hskip).
  pose proof (complete_stream p d0 body r' segs pt Hst Hc) as Ho. rewrite Hpar in Ho.
  assert (pending = []) as -> by (destruct Hhold as [[_ ?]|[? _]]; [done|lia]).
  exists (Header.as_bytes h ++ concat segs), pt. split; [|split; [|split]].
  - destruct Hst as [Hbody _]. by rewrite Hbody, app_assoc.
  - exists h, (concat segs), (online_decryptor d0). by split_and!.
  - destruct skipped; [apply Hpt|]. rewrite <- Hpt, app_nil_r. done.
  - intros Hns. destruct skipped; [by rewrite Hskip in Hns|]. by rewrite <- Hpt, app_nil_r.
Qed.

(** Errors on an accepted source that are no fault of the data. *)
Definition reader_environment (e : IoError.t) : Prop :=
  read_failure e \/ (e = decryption_error CryptoFailure /\ backend_fails).

(** A log in which everything succeeds up to a first error that has a [cause];
    only after it is the reader poisoned. *)
Definition poisoned_after {C} (cause : IoError.t -> Prop) (log : list (C * IoResult bytes)) : Prop :=
  all_ok log
  \/ exists before c e after, log = before ++ (c, Err e) :: after /\ all_ok before /\ cause e
       /\ Forall (fun entry => snd entry = Err poisoned_error \/ snd entry = Ok []) after.

Lemma poisoned_after_ok {C} cause (c : C) piece log :
  poisoned_after cause log -> poisoned_after cause ((c, Ok piece) :: log).
Proof.
  intros [Hok|(before & c' & e & after & -> & Hok & He & Hafter)]; [left; by constructor|right].
  exists ((c, Ok piece) :: before), c', e, after. split_and!; [done|by constructor|done..].
Qed.

Lemma poisoned_after_mono {C} (cause cause' : IoError.t -> Prop) (log : list (C * IoResult bytes)) :
  (forall e, cause e -> cause' e) -> poisoned_after cause log -> poisoned_after cause' log.
Proof. intros H [?|(before & c & e & after & ? & ? & ?%H & ?)]; [by left|right]. by exists before, c, e, after. Qed.

Lemma failed_run failure trailing st log st' :
  run (decrypt_reader_step failure trailing) st log st' -> st = DecryptStatus.Failed ->
  Forall (fun entry => snd entry = Err poisoned_error \/ snd entry = Ok []) log.
Proof.
  induction 1 as [|st [c res] st1 log st2 Hstep _ IH]; intros ->; [constructor|].
  inversion Hstep; simplify_eq; (constructor; [by auto|by apply IH]).
Qed.

Lemma accepted_runs_clean p key aad (source : R) plaintext st log st' :
  accepts_with p key aad (remaining source) plaintext -> st <> DecryptStatus.Failed ->
  run (decrypt_reader_step (decrypt_failure p key aad source) (whole_failure p key aad source)) st log st' ->
  poisoned_after reader_environment log.
Proof.
  intros Hacc Hst Hrun. revert Hst. induction Hrun as [|st [c res] st1 log st2 Hstep Hrun IH]; intros Hst; [by left; constructor|].
  assert (forall s, complete s -> s <> DecryptStatus.Failed) as Hcomplete by (by intros s [-> | ->]).
  inversion Hstep as [| | | | |? ? e _ _ He|]; simplify_eq;
    [by apply poisoned_after_ok, IH; auto..|].
  right. exists [], c, e, log. split_and!; [done|constructor| |by eapply failed_run].
  destruct He as [[He|[[_ Hno]|He]]|[_ [_ Hno]]]; [by left| |by right|by destruct (Hno plaintext)].
  destruct (Hno (remaining source) [] plaintext); [by rewrite app_nil_r|done].
Qed.

(** C11: the decrypting reader. Whatever reads and finalizations a program makes
    on a new reader, with buffers of any length, over a source that delivers in
    parts, is interrupted or fails: every call is a step of the protocol (a read
    gives bytes until the message is complete, an error poisons the reader for
    good, and is justified: the source failed, no prefix of what it gives is a
    message, or the backend failed; [try_finish] also fails when the whole is no
    message). All that was ever released is the start of the plaintext of
    segments that the specification accepts, in order. A finished reader has
    consumed exactly a message and, unless a finalization skipped some of it,
    released exactly its plaintext; after a successful [try_finish] nothing
    follows the message. *)
Theorem decrypt_reader_messages (source : R) (key : Key.t) (aad : bytes) (q : Parameters.t)
  (r r' : DecryptReader.t (R := R)) (calls : list DecryptReaderCall.t)
  (log : list (DecryptReaderCall.t * IoResult bytes))
  (Hq : Parameters.valid q) (Hfuel : enough fuel source)
  (Hnew : DecryptReader.new fuel source key aad = Ok r
          \/ DecryptReader.new_with_parameters fuel source key aad q = Ok r)
  (Hrun : perform (DecryptReaderCall.perform fuel) calls r = (log, r')) :
  exists p, Parameters.valid p
  /\ run (decrypt_reader_step (decrypt_failure p key aad source) (whole_failure p key aad source))
       DecryptStatus.Open log (DecryptReader.status r')
  /\ (exists ost segments rest st plaintext,
        remaining source = Header.as_bytes (DecryptReader.header r) ++ concat segments ++ rest
        /\ Spec.startOnlineDecryption (Parameters.segment_length p) (Key.as_bytes key) aad
             (Header.as_bytes (DecryptReader.header r)) = Some ost
        /\ decryptAll (Parameters.segment_length p) ost segments = Some (st, plaintext)
        /\ DecryptReaderCall.released log `prefix_of` plaintext)
  /\ (DecryptReader.is_finished r' = true -> exists c plaintext,
        remaining source = c ++ remaining (DecryptReader.get_ref r')
        /\ accepts_with p key aad c plaintext
        /\ DecryptReaderCall.released log `prefix_of` plaintext
        /\ (DecryptReaderCall.skipped log = false -> DecryptReaderCall.released log = plaintext))
  /\ (DecryptReader.status r' = DecryptStatus.StreamComplete -> remaining (DecryptReader.get_ref r') = []).
Proof.
  assert (exists p, opened_reader fuel p key aad source r) as [p Hopened].
  { destruct Hnew as [Hnew|Hnew].
    - pose proof (decrypt_reader_new_ok fuel source key aad Hfuel) as H. rewrite Hnew in H.
      destruct H as (p & _ & H). by exists p.
    - pose proof (decrypt_reader_new_with_parameters_ok fuel source key aad q Hq Hfuel) as H. rewrite Hnew in H.
      destruct H as (p & _ & H). by exists p. }
  destruct (opened_run p key aad source r calls log r' Hfuel Hopened Hrun) as (d0 & body & Hd0 & Hrem & Hh & Hv & Hstart & Hsteps & Hauth & Hdec).
  pose proof (receiving_params p d0 Hd0) as Hpar. exists p. split; [done|]. split; [done|]. split; [|split].
  - destruct Hauth as (segs & rest & st & pt & -> & Hall & Hpre). rewrite Hpar in Hall.
    by exists (online_decryptor d0), segs, rest, st, pt.
  - intros Hfin. rewrite Hrem.
    apply (finished_reader_accepted p d0 body key aad (DecryptReader.header r) (decrypt_failure p key aad source)
             (whole_failure p key aad source)); done.
  - intros Hsc. assert (DecryptReader.status r' <> DecryptStatus.Failed) as Hf by congruence.
    destruct (Hdec Hf) as (skipped & [_ (segs & pt & pending & [_ Hst] & _)] & _). rewrite Hsc in Hst. apply Hst.
Qed.

End DecryptReads.

(** ** Both readers *)

Section Roundtrip.
Context {T : Target} {F : Features} {P : Primitives} {POk : PrimitivesOk} {B : Backend} {BOk : BackendOk}.
Context {Su : Support} {SuOk : SupportOk} {R : Type} {RR : Read R} {ROk : ReadOk R} (fuel : nat).

(** Errors that are no fault of the data. *)
Definition environment_error (e : IoError.t) : Prop := e = decryption_error CryptoFailure /\ backend_fails.

Lemma bytes_environment (e : IoError.t) : reader_environment (R := bytes) e -> environment_error e.
Proof. intros [[]|H]. exact H. Qed.

(** C10: what an encrypting reader emitted to its end, a decrypting reader turns
    back into the source: it can be opened with the same parameters, every read
    and finalization succeeds unless the backend fails - the reader is poisoned
    only after such a failure - and a reader that was read to its end has
    released exactly the source's plaintext and consumed all. Only a key object
    that resolves to no provider or a failing backend prevents the opening. *)
Theorem adapters_roundtrip (source : R) (entropy : Entropy) (key key' : Key.t) (aad : bytes) (p : Parameters.t)
  (r r' : EncryptReader.t (R := R)) (outputs : list bytes) (log : list (bytes * IoResult bytes))
  (Hp : Parameters.valid p) (Hsize : Parameters.segment_length p <= isize_max) (Hfuel : enough fuel source)
  (Hfuel' : enough fuel (read_all log))
  (Hnew : EncryptReader.new entropy source key aad p = Ok r)
  (Hrun : perform (read_bytes (EncryptReader.read fuel)) outputs r = (log, r'))
  (Hfin : EncryptReader.is_finished r' = true)
  (Hkey : Key.as_bytes key' = Key.as_bytes key) :
  match DecryptReader.new_with_parameters fuel (read_all log) key' aad p with
  | Ok d => forall calls log2 d', perform (DecryptReaderCall.perform fuel) calls d = (log2, d') ->
      poisoned_after environment_error log2
      /\ (DecryptReader.is_finished d' = true ->
           DecryptReader.get_ref d' = []
           /\ DecryptReaderCall.released log2 `prefix_of` remaining source
           /\ (DecryptReaderCall.skipped log2 = false -> DecryptReaderCall.released log2 = remaining source))
  | Err e => exists err, e = decryption_error err
      /\ ((unresolved key' /\ err = ProviderSelectionRequired) \/ (err = CryptoFailure /\ backend_fails))
  | Halt _ => False
  end.
Proof.
  destruct (new_reads_ok fuel entropy source key aad p r outputs log r' Hp Hsize Hfuel Hnew Hrun) as (e & He & Hinv).
  pose proof (finished_reads_accepted fuel entropy source key key' aad p e log r' Hp He Hkey Hinv Hfin) as Hacc.
  pose proof (decrypt_reader_new_with_parameters_ok fuel (read_all log) key' aad p Hp Hfuel') as Hn.
  destruct (DecryptReader.new_with_parameters _ _ _ _ _) as [d|err|h].
  - destruct Hn as (p' & -> & Hopened). intros calls log2 d' Hrun2.
    destruct (opened_run fuel p key' aad (read_all log) d calls log2 d' Hfuel' Hopened Hrun2)
      as (d0 & body & Hd0 & Hrem & Hh & _ & Hstart & Hinv2).
    split; [|intros Hfin2].
    { eapply poisoned_after_mono; [apply bytes_environment|].
      by refine (accepted_runs_clean (R := bytes) p key' aad (read_all log) (remaining source) _ _ _ Hacc _ (proj1 Hinv2)). }
    destruct (finished_reader_accepted fuel p d0 body key' aad _ _ _ log2 d' Hd0 Hh Hp Hstart Hinv2 Hfin2)
      as (c & pt & Hc & Hacc2 & Hpre & Hall).
    rewrite <- Hrem in Hc. change (remaining (read_all log)) with (read_all log) in Hc.
    change (remaining (DecryptReader.get_ref d')) with (DecryptReader.get_ref d') in Hc.
    rewrite Hc in Hacc. destruct (accepted_extension p key' aad c _ _ _ Hacc2 Hacc) as [Hrest ->]. by split_and!.
  - destruct Hn as [[]|(err' & -> & Hn)]. exists err'. split; [done|].
    destruct Hn as [Hn|[Hn|Hn]]; [left; by apply provider_unresolved|by right|]. by destruct (Hn (read_all log) [] (remaining source)); [rewrite app_nil_r|].
  - destruct Hn as [_ (p' & -> & ?)]. lia.
Qed.

End Roundtrip.

(** ** Witnesses *)

Module IoExamples.

Definition aad : bytes := [byte_of_Z 9].
Definition plaintext : bytes := Reference.fill 100 100.

(** Four writes of which the second takes 12 bytes, and calls around the end. *)
Definition writer_calls : list WriterCall.t :=
  [WriterCall.Write (ztake 20 plaintext); WriterCall.Write (zdrop 20 plaintext); WriterCall.Flush;
   WriterCall.Write (zdrop 32 plaintext); WriterCall.Write (zdrop 64 plaintext); WriterCall.Write (zdrop 96 plaintext);
   WriterCall.Finish; WriterCall.Write plaintext; WriterCall.Finish].

(** Buffers from one byte to more than a segment, to the end of 302 bytes. *)
Definition outputs : list bytes := [zeros 1; zeros 100; zeros 7; zeros 70; []; zeros 63; zeros 64; zeros 200; zeros 9; zeros 5; zeros 64].

Definition reader_calls : list DecryptReaderCall.t :=
  [DecryptReaderCall.Read (zeros 10); DecryptReaderCall.Read (zeros 40); DecryptReaderCall.Read (zeros 40);
   DecryptReaderCall.Read (zeros 40); DecryptReaderCall.Read (zeros 3); DecryptReaderCall.Read (zeros 40)].

Lemma writer_run :
  exists w log w',
    EncryptWriter.new (T := target64) 400 (7 : Entropy) ([] : bytes) Examples.key aad Parameters.SEGMENT_64_B = Ok w
    /\ perform (WriterCall.perform (T := target64) 400) writer_calls w = (log, w')
    /\ map (fun entry => is_ok (snd entry)) log = [true; true; true; true; true; true; true; false; true]
    /\ EncryptWriter.status w' = StreamStatus.Finished.
Proof.
  assert (omap_ok (fun w => let run := perform (WriterCall.perform (T := target64) 400) writer_calls w in
       (map (fun entry => is_ok (snd entry)) (fst run), EncryptWriter.status (snd run)))
       (EncryptWriter.new (T := target64) 400 (7 : Entropy) ([] : bytes) Examples.key aad Parameters.SEGMENT_64_B)
     = Ok ([true; true; true; true; true; true; true; false; true], StreamStatus.Finished)) as H by (by vm_compute).
  destruct (EncryptWriter.new _ _ _ _ _ _) as [w|e|h]; [|discriminate H..]. cbn [omap_ok] in H.
  apply ok_pair_inj in H as [H1 H2]. destruct (perform _ _ w) as [log w'] eqn:Hrun.
  exists w, log, w'. split; [done|]. split; [exact Hrun|]. by split.
Qed.

Lemma reader_run :
  exists r log r',
    EncryptReader.new (T := target64) (7 : Entropy) plaintext Examples.key aad Parameters.SEGMENT_64_B = Ok r
    /\ perform (read_bytes (EncryptReader.read (T := target64) 400)) outputs r = (log, r')
    /\ EncryptReader.is_finished r' = true /\ zlen (read_all log) = 302.
Proof.
  assert (omap_ok (fun r => let run := perform (read_bytes (EncryptReader.read (T := target64) 400)) outputs r in
       (EncryptReader.is_finished (snd run), zlen (read_all (fst run))))
       (EncryptReader.new (T := target64) (7 : Entropy) plaintext Examples.key aad Parameters.SEGMENT_64_B)
     = Ok (true, 302)) as H by (by vm_compute).
  destruct (EncryptReader.new _ _ _ _ _) as [r|e|h]; [|discriminate H..]. cbn [omap_ok] in H.
  apply ok_pair_inj in H as [H1 H2]. destruct (perform _ _ r) as [log r'] eqn:Hrun.
  exists r, log, r'. split; [done|]. split; [exact Hrun|]. by split.
Qed.

(** What the reader of [reader_run] emits. *)
Definition message : bytes :=
  match EncryptReader.new (T := target64) (7 : Entropy) plaintext Examples.key aad Parameters.SEGMENT_64_B with
  | Ok r => read_all (fst (perform (read_bytes (EncryptReader.read (T := target64) 400)) outputs r))
  | _ => []
  end.

Lemma decrypt_reader_run :
  exists d log d',
    DecryptReader.new (T := target64) 400 message Examples.key aad = Ok d
    /\ perform (DecryptReaderCall.perform (T := target64) 400) reader_calls d = (log, d')
    /\ DecryptReader.is_finished d' = true /\ DecryptReaderCall.skipped log = false.
Proof.
  assert (omap_ok (fun d => let run := perform (DecryptReaderCall.perform (T := target64) 400) reader_calls d in
       (DecryptReader.is_finished (snd run), DecryptReaderCall.skipped (fst run)))
       (DecryptReader.new (T := target64) 400 message Examples.key aad)
     = Ok (true, false)) as H by (by vm_compute).
  destruct (DecryptReader.new _ _ _ _) as [d|e|h]; [|discriminate H..]. cbn [omap_ok] in H.
  apply ok_pair_inj in H as [H1 H2]. destruct (perform _ _ d) as [log d'] eqn:Hrun.
  exists d, log, d'. split; [done|]. split; [exact Hrun|]. by split.
Qed.

Lemma parameters_valid : Parameters.valid Parameters.SEGMENT_64_B.
Proof. done. Qed.

Lemma plaintext_enough : enough 400 plaintext.
Proof. unfold enough. vm_compute. lia. Qed.

Lemma message_enough : enough 400 message.
Proof. unfold enough. change (Nat.lt (length message + 0) 400). vm_compute. lia. Qed.

(** A reader that was told the parameters. *)
Lemma parameters_run :
  exists d log d',
    DecryptReader.new_with_parameters (T := target64) 400 message Examples.key aad Parameters.SEGMENT_64_B = Ok d
    /\ perform (DecryptReaderCall.perform (T := target64) 400) reader_calls d = (log, d')
    /\ DecryptReader.is_finished d' = true /\ DecryptReaderCall.skipped log = false.
Proof.
  assert (omap_ok (fun d => let run := perform (DecryptReaderCall.perform (T := target64) 400) reader_calls d in
       (DecryptReader.is_finished (snd run), DecryptReaderCall.skipped (fst run)))
       (DecryptReader.new_with_parameters (T := target64) 400 message Examples.key aad Parameters.SEGMENT_64_B)
     = Ok (true, false)) as H by (by vm_compute).
  destruct (DecryptReader.new_with_parameters _ _ _ _ _) as [d|e|h]; [|discriminate H..]. cbn [omap_ok] in H.
  apply ok_pair_inj in H as [H1 H2]. destruct (perform _ _ d) as [log d'] eqn:Hrun.
  exists d, log, d'. split; [done|]. split; [exact Hrun|]. by split.
Qed.

End IoExamples.

Lemma encrypt_writer_messages_witness :
  exists w log w',
    EncryptWriter.new (T := target64) 400 (7 : Entropy) ([] : bytes) Examples.key IoExamples.aad Parameters.SEGMENT_64_B = Ok w
    /\ perform (WriterCall.perform (T := target64) 400) IoExamples.writer_calls w = (log, w')
    /\ accepts_with Parameters.SEGMENT_64_B Examples.key IoExamples.aad (EncryptWriter.get_ref w') (WriterCall.accepted log).
Proof.
  destruct IoExamples.writer_run as (w & log & w' & Hnew & Hrun & _ & Hst).
  destruct (encrypt_writer_messages (B := Reference.backend) (T := target64) 400 ([] : bytes) (7 : Z) Examples.key Examples.key IoExamples.aad
              Parameters.SEGMENT_64_B w w' IoExamples.writer_calls log ltac:(done) ltac:(by vm_compute)
              ltac:(unfold write_enough; vm_compute; lia) Hnew Hrun eq_refl) as [_ H].
  rewrite Hst in H. destruct H as (c & Hc & Hacc). exists w, log, w'. split; [exact Hnew|]. split; [exact Hrun|].
  change (written (EncryptWriter.get_ref w')) with (EncryptWriter.get_ref w') in Hc. rewrite Hc. exact Hacc.
Defined.

Lemma encrypt_reader_messages_witness :
  exists r log r',
    EncryptReader.new (T := target64) (7 : Entropy) IoExamples.plaintext Examples.key IoExamples.aad Parameters.SEGMENT_64_B = Ok r
    /\ perform (read_bytes (EncryptReader.read (T := target64) 400)) IoExamples.outputs r = (log, r')
    /\ accepts_with Parameters.SEGMENT_64_B Examples.key IoExamples.aad (read_all log) IoExamples.plaintext.
Proof.
  destruct IoExamples.reader_run as (r & log & r' & Hnew & Hrun & Hfin & _).
  destruct (encrypt_reader_messages (B := Reference.backend) (T := target64) 400 IoExamples.plaintext (7 : Z) Examples.key Examples.key IoExamples.aad
              Parameters.SEGMENT_64_B r r' IoExamples.outputs log ltac:(done) ltac:(by vm_compute)
              ltac:(vm_compute; lia) Hnew Hrun eq_refl) as (_ & _ & H).
  exists r, log, r'. split; [exact Hnew|]. split; [exact Hrun|]. exact (H Hfin).
Defined.

Lemma decrypt_reader_messages_witness :
  exists d log d' c plaintext,
    DecryptReader.new (T := target64) 400 IoExamples.message Examples.key IoExamples.aad = Ok d
    /\ perform (DecryptReaderCall.perform (T := target64) 400) IoExamples.reader_calls d = (log, d')
    /\ remaining IoExamples.message = c ++ remaining (DecryptReader.get_ref d')
    /\ (exists p, accepts_with p Examples.key IoExamples.aad c plaintext)
    /\ DecryptReaderCall.released log = plaintext.
Proof.
  destruct IoExamples.decrypt_reader_run as (d & log & d' & Hnew & Hrun & Hfin & Hskip).
  destruct (decrypt_reader_messages (B := Reference.backend) (T := target64) 400 IoExamples.message Examples.key
              IoExamples.aad Parameters.SEGMENT_64_B d d' IoExamples.reader_calls log IoExamples.parameters_valid
              IoExamples.message_enough (or_introl Hnew) Hrun) as (p & _ & _ & _ & H & _).
  destruct (H Hfin) as (c & pt & Hc & Hacc & _ & Hall).
  exists d, log, d', c, pt. split; [exact Hnew|]. split; [exact Hrun|]. split; [exact Hc|].
  split; [by exists p|]. exact (Hall Hskip).
Defined.

Lemma adapters_roundtrip_witness :
  exists d log2 d',
    DecryptReader.new_with_parameters (T := target64) 400 IoExamples.message Examples.key IoExamples.aad
      Parameters.SEGMENT_64_B = Ok d
    /\ perform (DecryptReaderCall.perform (T := target64) 400) IoExamples.reader_calls d = (log2, d')
    /\ DecryptReader.get_ref d' = [] /\ DecryptReaderCall.released log2 = IoExamples.plaintext.
Proof.
  assert (Parameters.segment_length Parameters.SEGMENT_64_B <= isize_max (T := target64)) as Hs by (by vm_compute).
  destruct IoExamples.reader_run as (r & log & r' & Hnew & Hrun & Hfin & Hlen).
  destruct IoExamples.parameters_run as (d & log2 & d' & Hnew2 & Hrun2 & Hfin2 & Hskip).
  assert (IoExamples.message = read_all log) as E by (unfold IoExamples.message; by rewrite Hnew, Hrun).
  assert (enough 400 (read_all log)) as Hf' by (rewrite <- E; apply IoExamples.message_enough).
  pose proof (adapters_roundtrip (B := Reference.backend) (T := target64) 400 IoExamples.plaintext (7 : Z) Examples.key
                Examples.key IoExamples.aad Parameters.SEGMENT_64_B r r' IoExamples.outputs log IoExamples.parameters_valid
                Hs IoExamples.plaintext_enough Hf' Hnew Hrun Hfin eq_refl) as H.
  rewrite <- E, Hnew2 in H. destruct (H IoExamples.reader_calls log2 d' Hrun2) as [_ H'].
  destruct (H' Hfin2) as (Hend & _ & Hall). exists d, log2, d'. split; [exact Hnew2|]. split; [exact Hrun2|].
  split; [exact Hend|]. exact (Hall Hskip).
Defined.
