(* ===== verification/IoProgress.v ===== *)
(** * Reading to the end

    A program that keeps reading gets to the end: a read into a buffer gives a
    byte, or an error, or is at the end, and there are only so many bytes. Both
    readers together give back the source. *)

From stdpp Require Import strings.
From S2P Require Import Prelude Bytes Error Parameters Provider Crypto Reference Key Buffer Spec State StateFacts StateProperties.
From S2P Require Import StdIo Wire Online OnlineFacts OnlineMessages StreamFacts Io EncryptReaderFacts.
From S2P Require Import DecryptReaderFacts DecryptReaderMessages IoProperties.
Import ParametersFacts LayoutFacts BufferFacts.

(** ** How long messages are *)

Section Lengths.
Context {P : Primitives} {POk : PrimitivesOk}.

Lemma encrypted_length params st nonce chunk position is_final segment :
  zlen nonce = 12 -> Spec.encryptSegment params st nonce chunk position is_final = Some segment ->
  segment_fits params is_final (zlen chunk) /\ zlen segment = zlen chunk + 32.
Proof.
  intros Hn H. assert (segment_fits params is_final (zlen chunk) \/ ~ segment_fits params is_final (zlen chunk)) as [Hf|Hf]
    by (unfold segment_fits; destruct is_final; lia).
  - rewrite encryptSegment_eq in H by done. injection H as <-. split; [done|].
    apply zlen_sealed_segment; [|done]. unfold segment_prefix. by rewrite zlen_u32_to_be_bytes.
  - by rewrite encryptSegment_none in H.
Qed.

(** Segments of 64 bytes and more are at most twice their plaintext, but for the
    last. *)
Lemma sealed_run_length params start nonces chunks segments st :
  64 <= params -> sealed_run params start nonces chunks segments st ->
  zlen (concat segments) <= 2 * zlen (concat chunks).
Proof.
  intros Hp. induction 1 as [|nonces chunks segments st nonce chunk segment st' _ IH Hn Henc]; [done|].
  apply encryptOnline_some in Henc as (_ & _ & [Hf Hl]%encrypted_length & _); [|done]. cbn [segment_fits] in Hf.
  rewrite !concat_app, !zlen_app. cbn [concat]. rewrite !zlen_app, !zlen_nil. lia.
Qed.

Lemma encryptAll_length params nonces : forall st chunks st' segments,
  64 <= params -> Forall (fun nonce => zlen nonce = 12) nonces ->
  encryptAll params st nonces chunks = Some (st', segments) ->
  zlen (concat segments) <= 2 * zlen (concat chunks) + 32.
Proof.
  induction nonces as [|nonce nonces IH]; intros st chunks st' segments Hp Hns H; [done|].
  apply Forall_cons in Hns as [Hn Hns].
  apply encryptAll_inv in H as [(chunk & segment & _ & -> & -> & H)|(chunk & chunks' & segment & segments' & st1 & -> & _ & -> & H & Hall)].
  - apply encryptLast_some in H as (_ & [_ Hl]%encrypted_length & _); [|done].
    pose proof (zlen_nonneg chunk). cbn [concat]. rewrite !app_nil_r. lia.
  - apply encryptOnline_some in H as (_ & _ & [Hf Hl]%encrypted_length & _); [|done]. cbn [segment_fits] in Hf.
    apply IH in Hall; [|done..]. cbn [concat]. rewrite !zlen_app. lia.
Qed.

Lemma decryptAll_length params segments : forall st st' plaintext,
  32 <= params < u32_max -> decryptAll params st segments = Some (st', plaintext) ->
  zlen plaintext <= zlen (concat segments).
Proof.
  induction segments as [|segment segments IH]; intros st st' plaintext Hp H; cbn [decryptAll concat] in *.
  { by injection H as _ <-. }
  apply bind_Some in H as ([st1 pt] & Hany & H). apply bind_Some in H as ([st2 rest] & Hall & [= _ <-]).
  apply IH in Hall; [|done]. destruct (decryptAny_prefix _ _ _ _ _ Hp Hany) as [Hlen _].
  apply decryptAny_some in Hany as (_ & is_final & _ & [_ Henc]%decryptSegment_inv & _); [|done..].
  apply encrypted_length in Henc as [_ Hl]; [|rewrite zlen_slice; lia]. rewrite !zlen_app. lia.
Qed.

End Lengths.

(** ** Reading to the end *)

(** No outcome but these when a step is never a panic. *)
Lemma all_ok_or_error {C A S} (step : S -> C * IoResult A -> S -> Prop) st log st' :
  (forall s c x s', ~ step s (c, Halt x) s') -> run step st log st' ->
  all_ok log \/ Exists (fun entry => exists e, snd entry = Err e) log.
Proof.
  intros Hstep Hrun. assert (Forall (fun entry => forall x, snd entry <> Halt x) log) as Hall.
  { eapply run_forall; [|exact Hrun]. intros s [c r] s' H x E. cbn [snd] in E. subst r. by apply Hstep in H. }
  clear Hrun. induction Hall as [|[c r] log Hr _ [IH|IH]]; [by left; constructor|..|by right; constructor 2].
  destruct r as [a|e|x]; [left; by constructor|right; constructor; by exists e|by destruct (Hr x)].
Qed.

Section Progress.
Context {T : Target} {F : Features} {P : Primitives} {POk : PrimitivesOk} {B : Backend} {BOk : BackendOk}.
Context {Su : Support} {SuOk : SupportOk} {R : Type} {RR : Read R} {ROk : ReadOk R} (fuel : nat).

(** A finished reader stays so. *)
Lemma finished_read p e0 source r emitted out :
  reading fuel p e0 source r emitted -> EncryptReader.is_finished r = true ->
  EncryptReader.read fuel (r, out) = (Ok 0, (r, out)).
Proof.
  intros H Hfin. destruct (finished_drained fuel p e0 source r emitted H Hfin) as [Hst [Hh Hd]].
  unfold EncryptReader.read, bindM, get. destruct (zlen out =? 0); [done|].
  rewrite bool_decide_eq_false_2 by congruence. rewrite Hh. change (74 <? Header.LEN) with false. cbv iota.
  rewrite Hd, Z.eqb_refl. by rewrite bool_decide_eq_true_2.
Qed.

(** Each read so far gave a byte, or the end is reached. *)
Definition lively (p : Parameters.t) (e0 : Encryptor.t) (source : bytes)
    (log : list (bytes * IoResult bytes)) (r : EncryptReader.t (R := R)) : Prop :=
  reader_invariant fuel p e0 source log r
  /\ (all_ok log -> reading fuel p e0 source r (read_all log)
        /\ (EncryptReader.is_finished r = true \/ Z.of_nat (length log) <= zlen (read_all log))).

Lemma lively_call p e0 source log output r :
  lively p e0 source log r -> output <> [] ->
  wp (read_bytes (EncryptReader.read fuel) output) r (fun res r' => lively p e0 source (log ++ [(output, res)]) r').
Proof.
  intros [Hinv Hlog] Hne. pose proof (reader_call_ok fuel p e0 source log output r Hinv) as Hinv'.
  unfold wp in *. destruct (read_bytes (EncryptReader.read fuel) output r) as [res r'] eqn:Hread. cbn [fst snd] in *.
  split; [done|]. intros [Hok Hres]%all_ok_snoc. destruct (Hlog Hok) as [Hreading Hlive].
  pose proof (read_ok fuel p e0 source r _ output Hreading) as H. unfold wp in H. unfold read_bytes in Hread.
  rewrite read_all_snoc, zlen_app, length_app, Nat2Z.inj_add. unfold read_of. cbn [length snd].
  destruct (EncryptReader.read fuel (r, output)) as [[n|e|x] [r1 out1]] eqn:E; cbn [fst snd omap_ok] in *;
    injection Hread as <- <-; [|done..].
  destruct H as [[Hlen (piece & Hn' & Hle & Hout & Hr)] Hn]. cbn [fst snd] in *. subst n out1. pose proof (zlen_nonneg piece).
  rewrite <- slice_0, slice_splice_same by lia. split; [done|]. destruct Hlive as [Hfin|Hlive].
  - rewrite (finished_read _ _ _ _ _ output Hreading Hfin) in E. injection E as _ -> _. by left.
  - destruct Hn as [Hn|[?|(_ & Hfin & Hs)]]; [right; lia|done|]. apply (f_equal fst) in Hs. cbn in Hs. subst r1. by left.
Qed.

(** What a reader can emit at most. *)
Lemma emitted_length p e0 source r emitted :
  Parameters.valid p -> reading fuel p e0 source r emitted -> zlen emitted <= 106 + 2 * zlen source.
Proof.
  intros Hp [_ _ _ [_ Hh] _ (chunks & segments & pending & _ & Hpr & Heq & _)].
  assert (64 <= Parameters.segment_length p) as H64 by (destruct (valid_payload _ Hp); flia).
  assert (zlen (concat segments) <= 2 * zlen source + 32) as Hle.
  { unfold progress in Hpr. destruct (EncryptReader.status r); [| |done].
    - destruct Hpr as (e & _ & (_ & _ & _ & nonces & Hs) & ->). apply sealed_run_length in Hs; [|done].
      rewrite zlen_app. pose proof (zlen_nonneg (unread (EncryptReader.inner r) (EncryptReader.lookahead r))). lia.
    - destruct Hpr as [(nonces & st & Hn & Hall) <-]. by eapply encryptAll_length. }
  apply (f_equal zlen) in Heq. rewrite !zlen_app in Heq. pose proof (zlen_nonneg pending).
  pose proof (zlen_nonneg (zdrop (EncryptReader.header_position r) (Header.as_bytes (Encryptor.header e0)))). lia.
Qed.

Lemma reads_end entropy (source : R) key aad p r outputs log r' :
  Parameters.valid p -> Parameters.segment_length p <= isize_max -> enough fuel source ->
  EncryptReader.new entropy source key aad p = Ok r -> Forall (fun output => output <> []) outputs ->
  106 + 2 * zlen (remaining source) < Z.of_nat (length outputs) ->
  perform (read_bytes (EncryptReader.read fuel)) outputs r = (log, r') ->
  Exists (fun entry => exists e, snd entry = Err e) log \/ EncryptReader.is_finished r' = true.
Proof.
  intros Hp Hsize Hfuel Hnew Hne Hlen Hrun.
  destruct (new_reader_ok fuel entropy source key aad p r Hp Hsize Hfuel Hnew) as (e & _ & Hinv & Hopen).
  assert (lively p e (remaining source) [] r) as Hl
    by (split; [done|]; intros _; destruct Hinv as [_ Hr]; split; [by apply Hr; rewrite Hopen|by right]).
  pose proof (perform_invariant _ (lively p e (remaining source)) (fun output => output <> [])
    (fun log output s H Hout => lively_call p e (remaining source) log output s H Hout) outputs [] r log r' Hl Hne Hrun)
    as [[Hsteps _] Hok]. cbn [app] in *.
  destruct (all_ok_or_error encrypt_reader_step _ log _ ltac:(intros s c x s' H; inversion H) Hsteps) as [Hall|?]; [|by left].
  right. destruct (Hok Hall) as [Hr [|Hle]]; [done|]. exfalso. apply perform_length in Hrun. rewrite Hrun in Hle.
  pose proof (emitted_length p e _ r' _ Hp Hr). lia.
Qed.

(** *** Decryption *)

Lemma finished_decrypt_read (r : DecryptReader.t (R := R)) out :
  DecryptReader.status r <> DecryptStatus.Failed -> DecryptReader.is_finished r = true ->
  DecryptReader.read fuel (r, out) = (Ok 0, (r, out)).
Proof.
  intros Hf Hfin. unfold DecryptReader.is_finished in Hfin. apply andb_prop in Hfin as [Hc Heq].
  unfold DecryptReader.read, bindM, get. destruct (zlen out =? 0); [done|].
  rewrite bool_decide_eq_false_2 by done. by rewrite Heq, Hc.
Qed.

(** A read into a buffer that has room. *)
Definition reading_call (c : DecryptReaderCall.t) : Prop :=
  match c with
  | DecryptReaderCall.Read output => output <> []
  | _ => False
  end.

(** Only so much can be released. *)
Lemma released_length p d0 body r released :
  receiving p d0 ->
  decrypting (R := R) fuel p d0 body false r released -> zlen released <= zlen body.
Proof.
  intros Hd0 H. apply decrypting_authentic in H as (segments & rest & st & plaintext & -> & Hall & [tail ->]).
  apply decryptAll_length in Hall; [|by apply (params_range p)].
  rewrite !zlen_app in *. pose proof (zlen_nonneg tail). pose proof (zlen_nonneg rest). lia.
Qed.

Section Message.
Context (p : Parameters.t) (d0 : Decryptor.t) (body : bytes) (Hd0 : receiving p d0) (Hfuel : fuel <> O).
Context (failure trailing : IoError.t -> Prop).
Context (Hfailure : forall e, message_failure (R := R) d0 body e -> failure e).
Context (Htrailing : forall e, IoError.kind e = ErrorKind.InvalidData ->
  (forall pt, ~ opens (decryptor_params d0) (online_decryptor d0) body pt) -> trailing e).

Definition decrypt_lively (log : list (DecryptReaderCall.t * IoResult bytes)) (r : DecryptReader.t (R := R)) : Prop :=
  decrypt_invariant fuel p d0 body failure trailing log r
  /\ (all_ok log -> decrypting fuel p d0 body false r (DecryptReaderCall.released log)
        /\ (DecryptReader.is_finished r = true \/ Z.of_nat (length log) <= zlen (DecryptReaderCall.released log))).

Lemma decrypt_lively_call log c r :
  decrypt_lively log r -> reading_call c ->
  wp (DecryptReaderCall.perform fuel c) r (fun res r' => decrypt_lively (log ++ [(c, res)]) r').
Proof.
  intros [Hinv Hlog] Hc. destruct c as [output| |]; [|done..]. cbn [reading_call] in Hc.
  pose proof (decrypt_reader_call_ok fuel p d0 body Hd0 Hfuel failure trailing Hfailure Htrailing log (DecryptReaderCall.Read output) r Hinv) as Hinv'.
  cbn [DecryptReaderCall.perform] in *. unfold wp in *.
  destruct (read_bytes (DecryptReader.read fuel) output r) as [res r'] eqn:Hread. cbn [fst snd] in *.
  split; [done|]. intros [Hok Hres]%all_ok_snoc. destruct (Hlog Hok) as [Hdec Hlive].
  pose proof (decrypt_read_ok fuel p d0 body Hd0 false r _ output Hdec) as H. unfold wp in H. unfold read_bytes in Hread.
  rewrite DecryptReaderCall.released_snoc, zlen_app, length_app, Nat2Z.inj_add. cbn [length].
  destruct (DecryptReader.read fuel (r, output)) as [[n|e|x] [r1 out1]] eqn:E; cbn [fst snd omap_ok] in *;
    injection Hread as <- <-; [|done..].
  destruct H as [Hlen (piece & Hn & Hle & Hout & Hr & Hend)]. cbn [fst snd] in *. subst n out1. pose proof (zlen_nonneg piece).
  rewrite <- slice_0, slice_splice_same by lia. split; [done|]. destruct Hlive as [Hfin|Hlive].
  - rewrite (finished_decrypt_read r output) in E; [|by eapply not_failed|done]. injection E as _ -> _. by left.
  - destruct Hend as [Hn|[?|Hfin]]; [right; lia|done|by left].
Qed.

End Message.

Lemma decrypt_reads_end p (source : R) key aad r calls log r' :
  enough fuel source -> opened_reader fuel p key aad source r -> Forall reading_call calls ->
  zlen (remaining source) < Z.of_nat (length calls) ->
  perform (DecryptReaderCall.perform fuel) calls r = (log, r') ->
  Exists (fun entry => exists e, snd entry = Err e) log
  \/ (DecryptReader.is_finished r' = true /\ DecryptReaderCall.skipped log = false).
Proof.
  intros Hfuel (d0 & body & Hd0 & Hrem & Hh & Hv & Hstart & Hdec & Hinv)%opened_invariant Hcalls Hlen Hrun.
  destruct (opened_failures p key aad source d0 _ body Hd0 Hh Hrem Hstart) as [Hf Ht].
  assert (fuel <> O) as Hfuel' by (destruct fuel; [unfold enough in Hfuel; lia|done]).
  assert (decrypt_lively p d0 body (decrypt_failure p key aad source) (whole_failure p key aad source) [] r) as Hl
    by (split; [done|]; intros _; split; [done|by right]).
  pose proof (perform_invariant _ (decrypt_lively p d0 body _ _) reading_call
    (fun log c s H Hc => decrypt_lively_call p d0 body Hd0 Hfuel' _ _ Hf Ht log c s H Hc) calls [] r log r' Hl Hcalls Hrun)
    as [(Hsteps & _ & _) Hok]. cbn [app] in *.
  destruct (all_ok_or_error (decrypt_reader_step (decrypt_failure p key aad source) (whole_failure p key aad source)) _ log _
              ltac:(intros s c x s' H; inversion H) Hsteps) as [Hall|?]; [right|by left].
  destruct (Hok Hall) as [Hr Hend]. split.
  - destruct Hend as [|Hle]; [done|]. exfalso. apply perform_length in Hrun. rewrite Hrun in Hle.
    pose proof (released_length p d0 body r' _ Hd0 Hr). rewrite Hrem, zlen_app in Hlen.
    pose proof (zlen_nonneg (Header.as_bytes (DecryptReader.header r))). lia.
  - clear -Hcalls Hrun. revert r log Hrun. induction Hcalls as [|c calls Hc _ IH]; intros r log Hrun; cbn [perform] in Hrun.
    + by injection Hrun as <- _.
    + destruct (DecryptReaderCall.perform fuel c r) as [res r1]. destruct (perform _ calls r1) as [log2 r2] eqn:E2.
      injection Hrun as <- <-. unfold DecryptReaderCall.skipped in *. cbn [existsb fst]. rewrite (IH _ _ E2).
      by destruct c.
Qed.

(** C15: an encrypting reader comes to its end. A program that reads into buffers
    with room, [106 + 2 n] times for a source of [n] bytes and once more, has met
    an error or emitted the whole message of the source. *)
Theorem encrypt_reader_ends (source : R) (entropy : Entropy) (key key' : Key.t) (aad : bytes) (p : Parameters.t)
  (r r' : EncryptReader.t (R := R)) (outputs : list bytes) (log : list (bytes * IoResult bytes))
  (Hp : Parameters.valid p) (Hsize : Parameters.segment_length p <= isize_max) (Hfuel : enough fuel source)
  (Hnew : EncryptReader.new entropy source key aad p = Ok r)
  (Hroom : Forall (fun output => output <> []) outputs)
  (Hmany : 106 + 2 * zlen (remaining source) < Z.of_nat (length outputs))
  (Hrun : perform (read_bytes (EncryptReader.read fuel)) outputs r = (log, r'))
  (Hkey : Key.as_bytes key' = Key.as_bytes key) :
  Exists (fun entry => exists e, snd entry = Err e) log
  \/ (EncryptReader.is_finished r' = true /\ accepts_with p key' aad (read_all log) (remaining source)).
Proof.
  destruct (reads_end entropy source key aad p r outputs log r' Hp Hsize Hfuel Hnew Hroom Hmany Hrun) as [?|Hfin]; [by left|].
  right. split; [done|].
  destruct (new_reads_ok fuel entropy source key aad p r outputs log r' Hp Hsize Hfuel Hnew Hrun) as (e & He & Hinv).
  by eapply finished_reads_accepted.
Qed.

(** C14: reading a message to its end gives the whole plaintext. On an accepted
    message, a program that opens a decrypting reader and reads into buffers with
    room, more often than the message has bytes, has released exactly the
    plaintext and consumed the message, unless the environment failed: some call
    reported an error of the wrapped reader or of the backend, or the opening
    failed for such a reason, for want of a provider or of memory for a segment. *)
Theorem decrypt_reader_ends (source : R) (key : Key.t) (aad : bytes) (p : Parameters.t) (plaintext : bytes)
  (calls : list DecryptReaderCall.t) (Hfuel : enough fuel source)
  (Hacc : accepts_with p key aad (remaining source) plaintext)
  (Hroom : Forall reading_call calls) (Hmany : zlen (remaining source) < Z.of_nat (length calls)) :
  match DecryptReader.new fuel source key aad with
  | Ok r => forall log r', perform (DecryptReaderCall.perform fuel) calls r = (log, r') ->
      Exists (fun entry => exists e, snd entry = Err e
                /\ (read_failure e \/ (e = decryption_error CryptoFailure /\ backend_fails))) log
      \/ (DecryptReader.is_finished r' = true /\ DecryptReaderCall.released log = plaintext
          /\ remaining (DecryptReader.get_ref r') = [])
  | Err e => read_failure e
      \/ exists err, e = decryption_error err
           /\ ((unresolved key /\ err = ProviderSelectionRequired) \/ (err = CryptoFailure /\ backend_fails))
  | Halt x => x = Panicked /\ exists q, Parameters.valid q /\ isize_max < Parameters.segment_length q
  end.
Proof.
  pose proof (decrypt_reader_new_ok fuel source key aad Hfuel) as Hn.
  destruct (DecryptReader.new fuel source key aad) as [r|e|x]; cbn [new_reader] in Hn; [|clear Hmany|exact Hn].
  - destruct Hn as (q & Hq & Hopened). intros log r' Hrun.
    destruct (opened_run fuel q key aad source r calls log r' Hfuel Hopened Hrun) as (d0 & body & Hd0 & Hrem & Hh & _ & Hstart & Hinv).
    assert (q = p) as ->.
    { rewrite Hrem in Hacc. apply accepts_with_unique in Hacc as (Hp & He & _); [|done].
      apply started_encodes in Hstart; [|done..]. apply encode_inj; congruence. }
    destruct (decrypt_reads_end p source key aad r calls log r' Hfuel Hopened Hroom Hmany Hrun) as [Herr|[Hfin Hskip]].
    + left. destruct (accepted_runs_clean p key aad source _ DecryptStatus.Open _ _ Hacc ltac:(done) (proj1 Hinv))
        as [Hok|(before & c & e & after & -> & _ & He & _)].
      * apply Exists_exists in Herr as (entry & Hin & e & He). eapply Forall_forall in Hok; [|done].
        cbn beta in Hok. by rewrite He in Hok.
      * apply Exists_app. right. constructor. by exists e.
    + right. split; [done|].
      destruct (finished_reader_accepted fuel p d0 body key aad _ _ _ log r' Hd0 Hh Hq Hstart Hinv Hfin) as (c & pt & Hc & Hacc2 & _ & Hall).
      rewrite <- Hrem in Hc. rewrite Hc in Hacc.
      destruct (accepted_extension p key aad c _ _ _ Hacc2 Hacc) as [Hrest <-]. by split; [apply Hall|].
  - destruct Hn as [?|(err & -> & [Hn|[Hn|Hn]])]; [by left|right; exists err; split; [done|]; left; by apply provider_unresolved|
      right; exists err; split; [done|]; by right|].
    destruct (Hn (remaining source) [] plaintext); [by rewrite app_nil_r|by exists p].
Qed.

End Progress.

(** ** Examples *)

Module ProgressExamples.
Import IoExamples.

Definition many : list bytes := repeat (zeros 40) 307.
Definition many_calls : list DecryptReaderCall.t := repeat (DecryptReaderCall.Read (zeros 40)) 303.

Lemma no_error {C} (log : list (C * IoResult bytes)) :
  forallb (fun entry => is_ok (snd entry)) log = true -> ~ Exists (fun entry => exists e, snd entry = Err e) log.
Proof.
  intros Hall (entry & Hin & e & He)%List.Exists_exists. rewrite forallb_forall in Hall.
  specialize (Hall _ Hin). cbn beta in Hall. by rewrite He in Hall.
Qed.

Lemma many_run :
  exists r log r',
    EncryptReader.new (T := target64) (7 : Entropy) plaintext Examples.key aad Parameters.SEGMENT_64_B = Ok r
    /\ perform (read_bytes (EncryptReader.read (T := target64) 400)) many r = (log, r')
    /\ forallb (fun entry => is_ok (snd entry)) log = true.
Proof.
  assert (omap_ok (fun r => forallb (fun entry => is_ok (snd entry))
            (fst (perform (read_bytes (EncryptReader.read (T := target64) 400)) many r)))
       (EncryptReader.new (T := target64) (7 : Entropy) plaintext Examples.key aad Parameters.SEGMENT_64_B)
     = Ok true) as H by (by vm_compute).
  destruct (EncryptReader.new _ _ _ _ _) as [r|e|h]; [|discriminate H..]. cbn [omap_ok] in H. apply ok_inj in H.
  destruct (perform _ _ r) as [log r'] eqn:Hrun. exists r, log, r'. split; [done|]. by split.
Qed.

Lemma many_calls_run :
  exists r log r',
    DecryptReader.new (T := target64) 400 message Examples.key aad = Ok r
    /\ perform (DecryptReaderCall.perform (T := target64) 400) many_calls r = (log, r')
    /\ forallb (fun entry => is_ok (snd entry)) log = true.
Proof.
  assert (omap_ok (fun r => forallb (fun entry => is_ok (snd entry))
            (fst (perform (DecryptReaderCall.perform (T := target64) 400) many_calls r)))
       (DecryptReader.new (T := target64) 400 message Examples.key aad) = Ok true) as H by (by vm_compute).
  destruct (DecryptReader.new _ _ _ _) as [r|e|h]; [|discriminate H..]. cbn [omap_ok] in H. apply ok_inj in H.
  destruct (perform _ _ r) as [log r'] eqn:Hrun. exists r, log, r'. split; [done|]. by split.
Qed.

Lemma many_room : Forall (fun output : bytes => output <> []) many.
Proof. by apply List.Forall_forall; intros output ->%repeat_spec. Qed.

Lemma many_calls_room : Forall reading_call many_calls.
Proof. by apply List.Forall_forall; intros call ->%repeat_spec. Qed.

Lemma many_enough : 106 + 2 * zlen (remaining plaintext) < Z.of_nat (length many).
Proof. by vm_compute. Qed.

Lemma many_calls_enough : zlen (remaining message) < Z.of_nat (length many_calls).
Proof. change (zlen message < Z.of_nat (length many_calls)). by vm_compute. Qed.

Lemma message_accepted : accepts_with Parameters.SEGMENT_64_B Examples.key aad (remaining message) plaintext.
Proof.
  destruct reader_run as (r & log & r' & Hnew & Hrun & Hfin & _).
  assert (read_all log = message) as <- by (unfold message; by rewrite Hnew, Hrun).
  destruct (new_reads_ok (B := Reference.backend) (T := target64) 400 (7 : Z) plaintext Examples.key aad Parameters.SEGMENT_64_B r outputs log r'
              ltac:(done) ltac:(by vm_compute) plaintext_enough Hnew Hrun) as (e & He & Hinv).
  exact (finished_reads_accepted (B := Reference.backend) 400 (7 : Z) plaintext Examples.key Examples.key aad Parameters.SEGMENT_64_B
           e log r' ltac:(done) He eq_refl Hinv Hfin).
Qed.

End ProgressExamples.

Lemma encrypt_reader_ends_witness :
  exists r log r',
    EncryptReader.new (T := target64) (7 : Entropy) IoExamples.plaintext Examples.key IoExamples.aad Parameters.SEGMENT_64_B = Ok r
    /\ perform (read_bytes (EncryptReader.read (T := target64) 400)) ProgressExamples.many r = (log, r')
    /\ EncryptReader.is_finished r' = true.
Proof.
  destruct ProgressExamples.many_run as (r & log & r' & Hnew & Hrun & Hok). exists r, log, r'.
  split; [exact Hnew|]. split; [exact Hrun|].
  destruct (encrypt_reader_ends (B := Reference.backend) (T := target64) 400 IoExamples.plaintext (7 : Z) Examples.key Examples.key
              IoExamples.aad Parameters.SEGMENT_64_B r r' ProgressExamples.many log ltac:(done) ltac:(by vm_compute)
              IoExamples.plaintext_enough Hnew ProgressExamples.many_room ProgressExamples.many_enough Hrun eq_refl) as [He|[Hfin _]].
  - destruct (ProgressExamples.no_error log Hok He).
  - exact Hfin.
Defined.

Lemma decrypt_reader_ends_witness :
  exists r log r',
    DecryptReader.new (T := target64) 400 IoExamples.message Examples.key IoExamples.aad = Ok r
    /\ perform (DecryptReaderCall.perform (T := target64) 400) ProgressExamples.many_calls r = (log, r')
    /\ DecryptReader.is_finished r' = true /\ DecryptReaderCall.released log = IoExamples.plaintext.
Proof.
  destruct ProgressExamples.many_calls_run as (r & log & r' & Hnew & Hrun & Hok).
  pose proof (decrypt_reader_ends (B := Reference.backend) (T := target64) 400 IoExamples.message Examples.key IoExamples.aad
                Parameters.SEGMENT_64_B IoExamples.plaintext ProgressExamples.many_calls IoExamples.message_enough
                ProgressExamples.message_accepted ProgressExamples.many_calls_room ProgressExamples.many_calls_enough) as H.
  rewrite Hnew in H. exists r, log, r'. split; [exact Hnew|]. split; [exact Hrun|].
  destruct (H log r' Hrun) as [He|[Hfin [Hall _]]]; [|split; [exact Hfin|exact Hall]].
  destruct (ProgressExamples.no_error log Hok). eapply Exists_impl; [exact He|]. intros entry (e & Hentry & _). by exists e.
Defined.
