(* ===== verification/BackendsProperties.v ===== *)
(** * Properties of the backends

    What the dispatch over the four crates promises: the choice of a provider
    cannot be observed in what is sealed, opened or derived, and outputs of the
    wrong length are refused before a crate sees them. *)

From S2P Require Import Prelude Bytes Error Parameters Provider Crypto Vendors Backends BackendsFacts Reference.

Section Claims.
Context {T : Target} {P : Primitives} {POk : PrimitivesOk}.
Context {VR : RustCrypto} {VA : AwsLcRs} {VB : BoringCrate} {VG : RingCrate} {VS : Sources}.
Context {VROk : RustCryptoOk} {VAOk : AwsLcRsOk} {VBOk : BoringOk} {VGOk : RingOk} {VSOk : SourcesOk}.

(** C33: what one provider seals, every provider opens. Keys made from the same
    bytes by any two providers: if [seal_into] succeeds with the first, its
    output is the ciphertext and tag of AES-256-GCM, [seal] with the second
    gives the same, and both ways of opening with the second give the plaintext. *)
Theorem providers_interoperate (p q : Provider.t) (k nonce aad plaintext output tag room : bytes)
  (key1 key2 : BackendKey.t)
  (Hkey1 : BackendKey.new p k = Ok key1) (Hkey2 : BackendKey.new q k = Ok key2)
  (Hnonce : zlen nonce = 12) (Houtput : zlen output = zlen plaintext + 16) (Hsize : zlen output <= u32_max)
  (Htag : zlen tag = 16) (Hroom : zlen room = zlen plaintext) :
  match BackendKey.seal_into key1 nonce aad plaintext output with
  | (Ok _, sealed) =>
      let c := ztake (zlen plaintext) sealed in
      let t := zdrop (zlen plaintext) sealed in
      sealed = c ++ t /\ (c, t) = gcm_encrypt k nonce aad plaintext
      /\ (fst (BackendKey.seal key2 nonce aad (plaintext, tag)) = Ok tt ->
          snd (BackendKey.seal key2 nonce aad (plaintext, tag)) = (c, t))
      /\ BackendKey.open key2 nonce aad c t room = (Ok tt, plaintext)
      /\ BackendKey.open_in_place key2 nonce aad t c = (Ok tt, plaintext)
  | (Err e, out) => e = CryptoFailure /\ zlen out = zlen output
  | (Halt _, _) => False
  end.
Proof.
  assert (fits nonce plaintext) as Hf.
  { split; [done|]. pose proof (zlen_nonneg plaintext). unfold gcm_max_plaintext, u32_max in *. lia. }
  pose proof (new_material _ _ _ Hkey1) as Hm1. pose proof (new_material _ _ _ Hkey2) as Hm2.
  pose proof (seal_into_ok key1 nonce aad plaintext output Hnonce Houtput Hsize) as [Hl H]. revert Hl H.
  destruct (BackendKey.seal_into _ _ _ _ _) as [[[]|e|h] out]; cbn [fst snd]; intros Hl H;
    [|by destruct H as [-> _]|done].
  simpl in H. rewrite Hm1 in H. pose proof (sealed_length _ _ _ _ _ _ H) as [Hc Ht].
  assert (gcm_decrypt k nonce aad (ztake (zlen plaintext) out) (zdrop (zlen plaintext) out) = Some plaintext) as Hd.
  { pose proof (gcm_decrypt_encrypt k nonce aad plaintext) as Hd. by rewrite <- H in Hd. }
  assert (fits nonce (ztake (zlen plaintext) out)) as Hf2 by (unfold fits in *; by rewrite Hc).
  split; [by rewrite ztake_zdrop|]. split; [done|]. split; [|split].
  - pose proof (seal_ok key2 nonce aad plaintext tag Hf Htag) as Hs. unfold wp in Hs.
    intros E. rewrite E in Hs. simpl in Hs. by rewrite Hs, Hm2.
  - pose proof (open_ok key2 nonce aad _ _ room Hf2 Ht (eq_trans Hroom (eq_sym Hc))) as Ho.
    unfold wp, open_outcome in Ho. rewrite Hm2, Hd in Ho. destruct (BackendKey.open _ _ _ _ _ _). simpl in Ho.
    by destruct Ho as [-> ->].
  - pose proof (open_in_place_ok key2 nonce aad _ _ Hf2 Ht) as Ho.
    unfold wp, open_outcome in Ho. rewrite Hm2, Hd in Ho. destruct (BackendKey.open_in_place _ _ _ _ _). simpl in Ho.
    by destruct Ho as [-> ->].
Qed.

(** C34: opening accepts exactly what AES-256-GCM seals, with every provider and
    into a separate output or in place: it gives [plaintext] if and only if the
    ciphertext and tag are the ones of [plaintext], and otherwise
    [AuthenticationFailed]; it never panics. So any two providers accept the
    same ciphertexts. *)
Theorem opening_is_authentic (key : BackendKey.t) (nonce aad ciphertext tag output plaintext : bytes)
  (Hfits : fits nonce ciphertext) (Htag : zlen tag = 16) (Houtput : zlen output = zlen ciphertext) :
  let opened1 := BackendKey.open key nonce aad ciphertext tag output in
  let opened2 := BackendKey.open_in_place key nonce aad tag ciphertext in
  fst opened1 = fst opened2
  /\ (opened1 = (Ok tt, plaintext) <-> gcm_encrypt (material key) nonce aad plaintext = (ciphertext, tag))
  /\ (opened2 = (Ok tt, plaintext) <-> gcm_encrypt (material key) nonce aad plaintext = (ciphertext, tag))
  /\ (fst opened1 = Ok tt \/ fst opened1 = Err AuthenticationFailed).
Proof.
  intros opened1 opened2. pose proof (open_ok key nonce aad ciphertext tag output Hfits Htag Houtput) as H1.
  pose proof (open_in_place_ok key nonce aad tag ciphertext Hfits Htag) as H2.
  assert (Hiff : forall r : Result unit * bytes, open_outcome (material key) nonce aad ciphertext tag (fst r) (snd r) ->
    r = (Ok tt, plaintext) <-> gcm_encrypt (material key) nonce aad plaintext = (ciphertext, tag)).
  { intros [r out] H. unfold open_outcome in H. cbn [fst snd] in H. split.
    - intros [= -> ->]. destruct (gcm_decrypt _ _ _ _ _) eqn:Hd; [|by destruct H].
      destruct H as [_ ->]. by apply gcm_encrypt_decrypt.
    - intros He. pose proof (gcm_decrypt_encrypt (material key) nonce aad plaintext) as Hd.
      rewrite He in Hd. simpl in Hd. rewrite Hd in H. by destruct H as [-> ->]. }
  subst opened1 opened2. split_and!; [|by apply Hiff|by apply Hiff|].
  - unfold wp, open_outcome in H1, H2. destruct (gcm_decrypt _ _ _ _ _), H1 as [-> _], H2 as [-> _]; done.
  - unfold wp, open_outcome in H1. destruct (gcm_decrypt _ _ _ _ _), H1 as [-> _]; auto.
Qed.

(** C35: every provider's [kdf_expand] is HKDF-Expand of RFC 5869 with SHA-384
    on the concatenation of the info parts, for every output of at most 48
    bytes; a longer output is refused. An output of at most 48 bytes is refused
    only when a call of the provider's own crate failed. No provider panics. *)
Theorem kdf_expand_is_hkdf (p : Provider.t) (n : Z) (key : bytes) (info : list bytes) (Hn : 0 <= n) :
  match BackendKey.kdf_expand p n key info with
  | Ok output => n <= 48 /\ output = hkdf_expand key (concat info) n /\ zlen output = n
  | Err e => e = CryptoFailure /\ (48 < n \/ kdf_crate_fails p n key info)
  | Halt _ => False
  end.
Proof.
  pose proof (kdf_ok p n key info Hn) as H. unfold kdf_result in H. destruct (Z.leb_spec n 48) as [Hle|Hlt].
  - destruct H as [[-> Hf]| ->]; [by split; [|right]|].
    split; [done|]. rewrite hkdf_expand_kdf by lia. split; [done|]. by apply zlen_kdf.
  - rewrite H. by split; [|left].
Qed.

(** An output slice that is not sixteen bytes longer than the plaintext is
    refused before a crate is called: the slice is untouched. The length the
    check needs is computed without wrap-around. *)
Lemma seal_into_checks_length (key : BackendKey.t) (nonce aad plaintext output : bytes)
  (Hlength : zlen output <> zlen plaintext + 16) :
  exists e, BackendKey.seal_into key nonce aad plaintext output = (Err e, output)
    /\ (e = CryptoFailure \/ (e = LengthOverflow /\ usize_max < zlen plaintext + 16)).
Proof.
  unfold BackendKey.seal_into, bindM, get, lift. change AEAD_TAG_LENGTH with 16.
  pose proof (zlen_nonneg plaintext). unfold checked_usize, in_range.
  destruct (Z.leb_spec (zlen plaintext + 16) usize_max) as [Hle|Hlt].
  - replace (0 <=? _) with true by lia. cbn [andb ok_or]. replace (zlen output =? _) with false by lia.
    cbn [negb]. eexists. split; [done|by left].
  - replace (0 <=? _) with true by lia. cbn [andb ok_or]. eexists. split; [done|by right].
Qed.

(** The RustCrypto generator. Keys are drawn from the system's source and
    leave the generator unseeded; the first [fill] seeds ChaCha12 once, and
    later fills extend its stream without touching the source. *)
Lemma rustcrypto_generator_seeds_once (source : Source) (output output' : bytes) :
  (exists source' drawn, snd (Rng.generate_key (Rng.new Provider.RUSTCRYPTO source, output))
     = (Rng.RustCrypto None source', drawn))
  /\ match Rng.fill (Rng.new Provider.RUSTCRYPTO source, output) with
     | (Ok _, (rng, drawn)) => exists seed source' chacha,
         getrandom_fill (source, zeros 32) = (Ok tt, (source', seed))
         /\ rc_fill_bytes (rc_from_seed seed) output = (chacha, drawn)
         /\ rng = Rng.RustCrypto (Some chacha) source'
         /\ Rng.fill (rng, output')
            = (Ok tt, (Rng.RustCrypto (Some (fst (rc_fill_bytes chacha output'))) source',
                       snd (rc_fill_bytes chacha output')))
     | (Err e, (rng, drawn)) => e = RngFailure /\ drawn = output /\ exists source', rng = Rng.RustCrypto None source'
     | (Halt _, _) => False
     end.
Proof.
  split.
  - unfold Rng.generate_key, bindM, get. simpl. unfold Rng.on_source. cells.
    destruct (map_errM _ _ _) as [r [source' drawn]]. by exists source', drawn.
  - pose proof (getrandom_ok source (zeros 32)) as [Hr _].
    unfold Rng.fill, Rng.rustcrypto_fill, bindM, get, put, lift, map_errM. simpl.
    destruct (getrandom_fill _) as [[[]|[]|h] [source' seed]]; simpl in *; [| |done].
    + destruct (rc_fill_bytes (rc_from_seed seed) output) as [chacha drawn] eqn:Hc.
      exists seed, source', chacha. split_and!; try done.
      cbn [snd]. by destruct (rc_fill_bytes chacha output').
    + split_and!; [done..|by exists source'].
Qed.

End Claims.

(** ** Crates for the witnesses *)

(** Functions that behave as the crates' documentation says, over the
    algorithms of [Reference.v]. *)
Module ToyCrates.

Definition seal (key nonce aad : bytes) : M unit bytes bytes :=
  fun plaintext => let (c, t) := gcm_encrypt key nonce aad plaintext in (Ok t, c).

Definition open (key nonce aad ciphertext tag : bytes) : M unit bytes unit :=
  fun output =>
    match gcm_decrypt key nonce aad ciphertext tag with
    | Some plaintext => (Ok tt, plaintext)
    | None => (Err tt, zeros (zlen ciphertext))
    end.

Definition open_in_place (key nonce aad tag : bytes) : M unit bytes unit :=
  fun ciphertext => open key nonce aad ciphertext tag ciphertext.

Definition scatter (key nonce aad plaintext : bytes) : M unit (bytes * bytes) bytes :=
  fun cells => let (c, t) := gcm_encrypt key nonce aad plaintext in (Ok (c ++ t), (fst cells, c ++ t)).

Definition new (key : bytes) : outcome unit bytes := if zlen key =? 32 then Ok key else Err tt.

Definition random : M unit (Z * bytes) unit :=
  fun cells => (Ok tt, (fst cells + zlen (snd cells), Reference.fill (fst cells) (zlen (snd cells)))).

#[global] Instance rustcrypto : RustCrypto := {|
  Aes256Gcm := bytes;
  rc_new_from_slice := new;
  rc_inout_new a b := if zlen a =? zlen b then Ok tt else Err tt;
  rc_encrypt_inout_detached key nonce aad input := fun _ => seal key nonce aad input;
  rc_decrypt_inout_detached := open;
  HmacSha384 := bytes * bytes;
  rc_hmac_new_from_slice key := Ok (key, []);
  rc_hmac_update h part := (fst h, snd h ++ part);
  rc_hmac_finalize h := hmac_sha384 (fst h) (snd h);
  ChaCha12Rng := Z;
  rc_from_seed := Reference.digest ∘ (fun seed => [seed]);
  rc_fill_bytes rng output := (rng + zlen output, Reference.fill rng (zlen output))
|}.

#[global] Instance aws_lc_rs : AwsLcRs := {|
  AwsUnboundKey := bytes;
  AwsLessSafeKey := bytes;
  aws_unbound_new := new;
  aws_less_safe_new key := key;
  aws_seal_in_place_separate_tag := seal;
  aws_seal_in_place_scatter key nonce aad plaintext := do! scatter key nonce aad plaintext in ret tt;
  aws_open_separate_gather := open;
  aws_open_in_place_separate_tag key nonce aad tag := do! open_in_place key nonce aad tag in get;
  AwsPrk := bytes;
  AwsOkm := bytes;
  aws_prk_new key := key;
  aws_expand key info n := Ok (hkdf_expand key (concat info) n);
  aws_okm_fill okm := put okm
|}.

#[global] Instance boring : BoringCrate := {|
  AeadCtx := bytes;
  boring_ctx_new key _ := new key;
  boring_seal_in_place key nonce aad := fun cells =>
    let (c, t) := gcm_encrypt key nonce aad (fst cells) in (Ok t, (c, t));
  boring_seal_scatter key nonce aad extra := scatter key nonce aad (default [] extra);
  boring_open_in_place key nonce tag aad := open_in_place key nonce aad tag;
  BoringHmac := bytes * bytes;
  boring_hmac_init key := Ok (key, []);
  boring_hmac_update h part := Ok (fst h, snd h ++ part);
  boring_hmac_finalize h := Ok (hmac_sha384 (fst h) (snd h))
|}.

#[global] Instance ring : RingCrate := {|
  RingUnboundKey := bytes;
  RingLessSafeKey := bytes;
  ring_unbound_new := new;
  ring_less_safe_new key := key;
  ring_seal_in_place_separate_tag := seal;
  ring_open_in_place_separate_tag key nonce aad tag _ := do! open_in_place key nonce aad tag in get;
  RingPrk := bytes;
  RingOkm := bytes;
  ring_prk_new key := key;
  ring_expand key info n := Ok (hkdf_expand key (concat info) n);
  ring_okm_fill okm := put okm
|}.

#[global] Instance sources : Sources := {|
  Source := Z;
  getrandom_fill := random;
  aws_random_fill := random;
  boring_rand_bytes := random;
  ring_random_fill := random
|}.

Lemma toy_new_ok k : zlen k = 32 -> (exists key, new k = Ok key) \/ new k = Err tt.
Proof. intros H. left. unfold new. rewrite H. by eexists. Qed.

Lemma toy_new_inv k key : new k = Ok key -> key = k.
Proof. unfold new. case_match; congruence. Qed.

Lemma open_opened key nonce aad ciphertext tag output :
  wp (open key nonce aad ciphertext tag) output (opened key nonce aad ciphertext tag).
Proof.
  unfold wp, open, opened. destruct (gcm_decrypt _ _ _ _ _); simpl; [done|]. split; [done|].
  rewrite zlen_zeros. pose proof (zlen_nonneg ciphertext). lia.
Qed.

(** The crates that return the plaintext slice. *)
Lemma open_get_opened key nonce aad tag ciphertext :
  wp (do! open_in_place key nonce aad tag in get) ciphertext
    (fun r out => opened key nonce aad ciphertext tag (omap_ok (fun _ => tt) r) out).
Proof.
  pose proof (open_opened key nonce aad ciphertext tag ciphertext) as H. unfold wp, bindM, get, open_in_place in *.
  destruct (open _ _ _ _ _ _) as [[[]|e|h] out]; exact H.
Qed.

Lemma scatter_ok key nonce aad plaintext output :
  zlen output = zlen plaintext + 16 ->
  wp (scatter key nonce aad plaintext) ([], output) (fun r s =>
    zlen (snd s) = zlen output /\ let (c, t) := gcm_encrypt key nonce aad plaintext in r = Ok (c ++ t) /\ snd s = c ++ t).
Proof.
  intros Ho. unfold wp, scatter. pose proof (gcm_ciphertext_length key nonce aad plaintext).
  pose proof (gcm_tag_length key nonce aad plaintext). destruct (gcm_encrypt _ _ _ _) as [c t].
  cbn [fst snd] in *. rewrite zlen_app. split; [lia|done].
Qed.

Lemma random_fills : fills random.
Proof. intros x output. split; [done|]. apply Reference.zlen_fill, zlen_nonneg. Qed.

Lemma hmac_fold k parts : forall data,
  fold_left (fun (h : bytes * bytes) part => (fst h, snd h ++ part)) parts (k, data) = (k, data ++ concat parts).
Proof.
  induction parts as [|part parts IH]; intros data; cbn [fold_left concat fst snd]; [by rewrite app_nil_r|].
  by rewrite IH, app_assoc.
Qed.

Lemma fed_fold k data parts h' : boring_fed (k, data) parts h' -> h' = (k, data ++ concat parts).
Proof.
  intros H. remember (k, data) as h eqn:Hh. revert data Hh. induction H as [|h part h1 parts h2 Hu _ IH]; intros data ->.
  - by rewrite app_nil_r.
  - injection Hu as <-. rewrite (IH _ eq_refl). cbn [concat]. by rewrite app_assoc.
Qed.

#[local] Opaque gcm_encrypt gcm_decrypt hmac_sha384.

#[global] Instance rustcrypto_ok : RustCryptoOk.
Proof.
  unshelve esplit; [exact id|..]; simpl; intros; try done; try by eauto.
  - by apply toy_new_ok.
  - by apply toy_new_inv.
  - apply open_opened.
  - injection H as <-. by rewrite hmac_fold.
  - apply Reference.zlen_fill, zlen_nonneg.
Defined.

#[global] Instance aws_lc_rs_ok : AwsLcRsOk.
Proof.
  unshelve esplit; [exact id|..]; intros; try done.
  - by apply toy_new_ok.
  - by apply toy_new_inv.
  - apply wp_bind. eapply wp_mono; [by apply scatter_ok|]. intros r s [Hl H2].
    unfold id. destruct (gcm_encrypt _ _ _ _). destruct H2 as [-> H2]. by apply wp_ret.
  - apply open_opened.
  - apply open_get_opened.
Defined.

#[global] Instance boring_ok : BoringOk.
Proof.
  unshelve esplit; [exact id|..]; intros; try done.
  - by apply toy_new_ok.
  - by apply toy_new_inv.
  - unfold wp. simpl. pose proof (gcm_ciphertext_length key nonce aad plaintext).
    pose proof (gcm_tag_length key nonce aad plaintext). by destruct (gcm_encrypt _ _ _ _).
  - eapply wp_mono; [by apply scatter_ok|]. intros r s [Hl H2]. split; [done|]. unfold id.
    destruct (gcm_encrypt _ _ _ _). by destruct H2 as [-> H2].
  - apply open_opened.
  - simpl in H, H1. injection H as <-. apply fed_fold in H0 as ->. by injection H1 as <-.
Defined.

#[global] Instance ring_ok : RingOk.
Proof.
  unshelve esplit; [exact id|..]; intros; try done.
  - by apply toy_new_ok.
  - by apply toy_new_inv.
  - apply open_get_opened.
Defined.

#[global] Instance sources_ok : SourcesOk.
Proof. split; apply random_fills. Qed.

#[local] Transparent gcm_encrypt gcm_decrypt hmac_sha384.

End ToyCrates.

(** ** Witnesses *)

Lemma providers_interoperate_witness :
  exists sealed, BackendKey.seal_into (T := target64) (BackendKey.AwsLcRs (VA := ToyCrates.aws_lc_rs) (zeros 32)) (zeros 12) [byte_of_Z 5]
      (map byte_of_Z [1; 2; 3]) (zeros 19) = (Ok tt, sealed)
    /\ BackendKey.open (BackendKey.Ring (VG := ToyCrates.ring) (zeros 32)) (zeros 12) [byte_of_Z 5] (ztake 3 sealed) (zdrop 3 sealed) (zeros 3)
       = (Ok tt, map byte_of_Z [1; 2; 3]).
Proof.
  pose proof (providers_interoperate (T := target64) Provider.AWS_LC_RS Provider.RING (zeros 32) (zeros 12) [byte_of_Z 5]
    (map byte_of_Z [1; 2; 3]) (zeros 19) (zeros 16) (zeros 3) (BackendKey.AwsLcRs (VA := ToyCrates.aws_lc_rs) (zeros 32))
    (BackendKey.Ring (VG := ToyCrates.ring) (zeros 32)) eq_refl eq_refl eq_refl eq_refl ltac:(by vm_compute) eq_refl eq_refl) as H.
  destruct (BackendKey.seal_into _ _ _ _ _) as [[[]|e|h] sealed] eqn:E; [|settle E..].
  exists sealed. split; [done|]. exact (proj1 (proj2 (proj2 (proj2 H)))).
Defined.

Lemma opening_is_authentic_witness :
  BackendKey.open (BackendKey.Boring (VB := ToyCrates.boring) (zeros 32)) (zeros 12) [] (zeros 3) (zeros 16) (zeros 3)
    <> (Ok tt, zeros 3)
  /\ gcm_encrypt (zeros 32) (zeros 12) [] (zeros 3) <> (zeros 3, zeros 16).
Proof.
  destruct (opening_is_authentic (BackendKey.Boring (VB := ToyCrates.boring) (zeros 32)) (zeros 12) [] (zeros 3) (zeros 16)
    (zeros 3) (zeros 3) ltac:(split; by vm_compute) eq_refl eq_refl) as (_ & H & _ & _).
  assert (Hne : gcm_encrypt (zeros 32) (zeros 12) [] (zeros 3) <> (zeros 3, zeros 16)) by (intros E; by vm_compute in E).
  split; [|exact Hne]. intros E. apply Hne. exact (proj1 H E).
Defined.

Lemma kdf_expand_is_hkdf_witness :
  BackendKey.kdf_expand Provider.BORING 49 (zeros 48) [[byte_of_Z 1]] = Err CryptoFailure
  /\ exists output, BackendKey.kdf_expand Provider.BORING 48 (zeros 48) [[byte_of_Z 1]; []] = Ok output
       /\ output = hkdf_expand (zeros 48) [byte_of_Z 1] 48.
Proof.
  split; [by vm_compute|].
  pose proof (kdf_expand_is_hkdf Provider.BORING 48 (zeros 48) [[byte_of_Z 1]; []] ltac:(lia)) as H.
  destruct (BackendKey.kdf_expand _ _ _ _) as [output|e|h] eqn:E; [|settle E..].
  exists output. split; [done|]. exact (proj1 (proj2 H)).
Defined.

Lemma seal_into_checks_length_witness :
  BackendKey.seal_into (T := target64) (BackendKey.RustCrypto (VR := ToyCrates.rustcrypto) (zeros 32)) (zeros 12) [] (zeros 3) (zeros 18)
    = (Err CryptoFailure, zeros 18).
Proof.
  destruct (seal_into_checks_length (T := target64) (BackendKey.RustCrypto (VR := ToyCrates.rustcrypto) (zeros 32)) (zeros 12) [] (zeros 3) (zeros 18)
    ltac:(by vm_compute)) as (e & H & [->|[-> Hlt]]); [exact H|by vm_compute in Hlt].
Defined.

Lemma rustcrypto_generator_seeds_once_witness :
  exists rng drawn, Rng.fill (Rng.new (VS := ToyCrates.sources) Provider.RUSTCRYPTO (3 : Z), zeros 5) = (Ok tt, (rng, drawn))
    /\ exists chacha source, rng = Rng.RustCrypto (Some chacha) source.
Proof.
  destruct (rustcrypto_generator_seeds_once (VR := ToyCrates.rustcrypto) (VS := ToyCrates.sources)
    (3 : Z) (zeros 5) (zeros 4)) as [_ H].
  destruct (Rng.fill _) as [[[]|e|h] [rng drawn]] eqn:E; [|settle E..].
  exists rng, drawn. split; [done|]. destruct H as (seed & source & chacha & _ & _ & H & _). by exists chacha, source.
Defined.
